(* ===== verification/_CoqProject ===== *)
-Q . S2P
Prelude.v
Runtime.v
Locks.v
Errors.v
Tokio.v
Protocol.v
Config.v
Retry.v
Session.v
SessionInv.v
SessionSpec.v
SessionPool.v
SessionWire.v
SessionLive.v
SessionLocks.v
SessionSeq.v
SessionTags.v
SessionAnswers.v
Discovery.v
Endpoint.v
Dongle.v
DongleSpec.v
DonglePool.v
DongleLink.v
ConfigTests.v
Client.v
ClientLive.v
Traffic.v
Transport.v
Connect.v
ConnectSpec.v
ConnectLink.v
ConnectLive.v
Program.v
ProgramLive.v
Examples.v
