(* ===== verification/Prelude.v ===== *)
(** * donglora-client: a verification development

    ** The program

    The crate is an asynchronous client of a LoRa radio dongle.  It is built in
    layers, each calling only the ones below:

    - [src/connect.rs] chooses a transport (an explicit port, a mux over TCP or a
      Unix socket, a USB serial port found by [src/discovery.rs]), opens it with
      [src/transport.rs], and builds and configures the dongle ([finalize]);
    - [src/dongle.rs] is the object the user holds: transmit with retries
      ([src/retry.rs]), automatic recovery of a lost radio configuration, lazy
      start of reception, a background keepalive, [close];
    - [src/session.rs] multiplexes commands over one byte stream: any number of
      callers allocate tags, register a oneshot channel in a shared map and wait,
      while one reader task decodes frames and routes them by tag;
    - [src/errors.rs] is the error type all of them share.

    The wire codec is the external crate [donglora-protocol]; its functions and
    types are parameters of the development (below).

    ** Files, and the source they model

    - [Prelude]: Rust's [Result], machine-width integers, the scope [dl_scope],
      the hint databases and tactics of the development.
    - [Runtime]: no source of its own.  An [async fn] is a program [prog E A]
      whose effects [E] are the critical sections, channel operations, I/O calls
      and awaits of the function.  The file has the run of one program ([eval]),
      the interleaving of a pool of tasks with cancellation at every await
      ([step], [reachable]), and a rely/guarantee logic whose adequacy theorem
      turns one triple per function into an invariant of every interleaving.
    - [Locks]: no source of its own either.  Infinite runs of a pool, fairness, and a
      type system for mutexes taken in order; a well-typed task of a fair run ends.
    - [Errors] ([src/errors.rs], [clone_kind] of [src/dongle.rs]).
    - [Tokio]: no source of its own.  tokio's [AsyncWriteExt::write_all], which
      [write_frame] calls, as a parameter with its documented behaviour.
    - [Protocol]: the interface to [donglora-protocol]: the classes [WireTypes],
      [Wire] and [WireNames], and an instance, [demo_wire], at which the witnesses
      run.
    - [Config] ([prepare_config], [prepare_lora_config] of [src/connect.rs]).
    - [Retry] ([src/retry.rs], the delay arithmetic of [Dongle::tx_with_retry]).
    - [Session] ([src/session.rs]): the state [Sess], the effects [sessE] with
      their semantics [sess_do], and every function of [impl Session], [dispatch]
      and [reader_loop] under their own names.
    - [SessionInv], [SessionSpec]: the invariant [sess_inv] of the shared state,
      what tasks may assume of each other ([rely]), the triple of every effect
      and of every function.
    - [SessionPool]: the properties of all interleavings of a reader and any
      number of callers.  [SessionWire]: what they write, by a second
      rely/guarantee argument over the writer's mutex and the bytes of each task.
      [SessionLive]: a lock discipline as a type system on programs, preserved by
      every step, and deadlock freedom from it.
      [SessionTags]: whose entries and channels a command touches, by a type system
      on its stages; [SessionAnswers]: that no waker is lost.  [SessionLocks]: the
      functions in the type system of [Locks], inside any larger semantics.
      [SessionSeq]: each function by itself, against one-step specifications.
    - [Discovery] ([src/discovery.rs]).
    - [Endpoint] ([parse_tcp_endpoint], [find_mux_socket],
      [default_socket_path] of [src/connect.rs]; [TransportKind] of
      [src/dongle.rs]).
    - [Dongle], [DongleSpec] ([src/dongle.rs], and the command helpers of
      [src/session.rs] as the dongle calls them).
    - [DonglePool] ([src/dongle.rs] with several callers): the operations and the
      keepalive as tasks over the mutex-protected cells of [Inner], a session
      command being one step with any answer.
    - [DongleLink], [Client] ([src/dongle.rs] over [src/session.rs]): [link] puts
      the session's functions in the place of those steps, beside the session's
      reader, over both states; what holds of the pool of [DonglePool], where a
      command may answer anything, carries over, and the session's invariant says where
      the answers come from.  [ClientLive] types the whole client in the system
      of [Locks]; [Traffic] is a logic for the commands that one operation sends.
    - [Transport] ([src/transport.rs]): opening, and the stream traits of the
      transports as type classes.
    - [Connect], [ConnectSpec] (the rest of [src/connect.rs], a command being one
      step); [ConnectLink]: its entry points over the real session and its reader;
      [ConnectLive]: these in the type system of [Locks], and what becomes of the reader.
    - [Program] (all of these together): a connecting call, the session it spawns with
      its reader, [Dongle::new] with the keepalive, and the callers of the dongle, as one
      pool; from the instant the dongle exists it refines the one of [DonglePool].
      [ProgramLive]: it in the type system of [Locks].
    - [Examples] ([examples/]): the three programs over connecting and the dongle.
    - [ConfigTests]: the unit tests of [prepare_config] in [src/connect.rs].

    ** How state and operations correspond

    [Session]'s [Arc<Mutex<HashMap<u16, Pending>>>] is the field [pending] of
    [Sess].  A lock held over a few statements without an await is one effect
    ([PendingInsert], [PendingRemove], [PendingTake]); the writer's and the
    receivers' mutexes, held across awaits, are explicit ([LockMutex],
    [UnlockMutex]) and block.  A oneshot channel is a [Chan] that records where
    its sender is, so that dropping a waker, a map entry or a whole task closes
    the channels it should.  [Dongle]'s [Inner] appears twice: as [Dng], run against
    a device whose answers depend on the history of commands (one caller, functional
    behaviour), and as [Cells], shared by any number of tasks (interleavings).  In
    both a session command is one effect ([SendCommand]); [DongleLink] justifies it.
    Each byte of [wire_out] carries the task that wrote it, so that contiguity of
    frames can be said.  The process-wide [USED_MUX]
    flag, the environment variables, the file system and the peers are the state
    and the effects of [Connect].

    Integers are [Z] with the wrap-around of the Rust type written out
    ([wrapping_add], [shl_one], the [f32] of [Retry] in the Standard Library's
    IEEE model).  A panic is a value: [Panic] in programs, [None] in [Config].

    ** What the theorems show

    - The whole program ([Program], [ProgramLive]): in every interleaving of a
      connecting call, the reader, the keepalive and any operations, with any task
      dropped anywhere, an operation that returned had a dongle which frames of the
      session confirm, and its success is confirmed by a frame received under the tag
      of a command of its own ([program_confirmed]; for an [rx_start] that finds
      reception started, of the task that started it); what recovery re-sends is a configuration
      the device has echoed ([recovery_config_confirmed]); in every fair run every
      operation ends once there is a dongle, even if the device never answers again
      ([program_operations_return]).
    - The client at work ([Client], [DongleLink], [ClientLive]), with a dongle that is
      given: the same of its operations ([success_is_confirmed], [operations_return]);
      the session's invariant holds and every answer came over the command's own
      channel and under its own tag ([client_replies_legit]); what [tx] and
      [tx_with_retry] send, the configuration that recovery re-sends and the result are
      known exactly ([transmissions_exact]).
    - The session's callers ([SessionPool], [SessionWire]): a response reaches the
      call whose tag the frame carried, decoded for its command type, and that
      call's frame is on the wire once and in one piece ([request_response]); the
      wire is a sequence of pieces of frames, one per call, whole for a call that
      returned without an I/O error ([wire_is_frames]); a TX is never completed by
      its intermediate OK ([tx_never_resolved_by_ok]); map and channels agree
      ([pending_map_consistent]); finished non-TX calls leave nothing behind
      ([no_stale_entry]); errors are exactly the documented ones
      ([send_errors_classified]); a closed session refuses
      ([closed_refuses_commands]); no interleaving deadlocks ([session_progress]).  Up to
      65535 commands do not disturb each other ([commands_isolated]) and, if neither the
      reader nor a [close] is dropped, none loses its waker ([no_answer_lost]; a [close]
      can cost one its waker, [abort_drops_waker]); one more can make two fail
      ([tag_reuse_fails_both]).  Concrete schedules show where else the code falls
      short: [cancelled_write_tears_frame], [tx_entry_can_leak],
      [command_after_reader_exit_times_out], [close_misses_late_command],
      [recv_rx_blocks_behind_next_rx], [stalled_write_blocks].
    - The dongle's callers ([DonglePool]): the configuration cached for recovery is
      one the device echoed ([config_cache_is_echoed]), though not always the last
      ([cache_can_miss_last_config]); the mutex held across RX_START's await is
      always released ([rx_mutex_released]).
    - Refinement ([SessionSeq]): [dispatch], [reader_loop] and [close] implement
      one-step specifications; tags do not repeat within 65535 commands.
    - The dongle by itself ([DongleSpec]): transmit, retries with their bounds and log,
      recovery, reception, caching of the echoed configuration, closing, the
      rounds of the keepalive and the gap between its PINGs ([keepalive_gap]), and
      what recovery misses: it leaves reception marked as started
      ([tx_recovery_leaves_rx_flag]).
    - Connecting ([ConnectSpec], [Endpoint], [Discovery]): the order in which
      transports are tried, stickiness of the mux, what is never touched, what
      is sent while connecting, which calls wait and when they come back.  Over the
      real session ([ConnectLink]): a dongle that is returned has been confirmed by
      frames ([connected_is_confirmed]); a call that does not wait for a device or a mux
      to appear comes back in every fair run ([connect_returns]); the session of a failed
      connect is never closed and its reader goes on ([failed_connect_leaves_reader]).
    - Transports ([Transport]): [AnyTransport] is transparent: any use of it gives
      the replies of the wrapped stream ([any_transport_transparent]).
    - Configuration ([Config]): for every configuration what [prepare_config] returns;
      where the bit numbers fit the shift it accepts the LoRa configurations that the
      device advertises and only clamps the power; it is well typed; what it does for
      spreading factors that do not fit the shift.
    - Backoff ([Retry]): the exact floors with the default multiplier, bounds
      for any multiplier, no overflow.
    - The examples and tests: what [ping] and [tx] do in every case, and that the
      model passes the repository's tests of [prepare_config] ([config_tests_pass]).

    ** Bounds and fuel

    Interleavings ([reachable]) need no fuel.  [eval n] lets each loop run for at
    most [n] iterations.  Theorems about it hold for every [n] from a stated
    bound on: the number of attempts for [tx_with_retry], one more than the chunks of
    the stream for [reader_loop], the number of the poll that succeeds for the waiting loops.  A
    program without a loop gives the same result for every [n].  [OutOfFuel] and
    [Blocked] are outcomes of their own, distinct from [Done], so these theorems
    include termination.  The two safety theorems about connecting that must
    also hold of calls that wait for ever speak of every [n] and every outcome.

    ** What is assumed

    Nothing globally.  The theorems are about every instance of [Wire], with the
    decoder, the codecs and the constants unknown, and of tokio's [write_all], of which
    only the documented law is used ([Tokio.writes_all]: writes of what is left until
    nothing is, or until one fails or accepts nothing).  What else tokio guarantees is in
    the semantics of the effects: mutexes are exclusive, unbounded queues are
    fifo, a oneshot delivers at most once, a timeout may elapse at any time while
    the awaited value is absent.  [tokio::time::timeout] polls the value first, so
    a value that is there is returned.  [program_operations_return] and [connect_returns] are
    about fair runs ([Locks.fair]): a task that can go on is not passed over for ever, and what can go on
    includes a write, a sleep, a timer, the next waiter of a free mutex and a task that
    waits for a session or a dongle that is there.  Reading the
    transport and waiting for a packet may last for ever.

    ** What is not modelled

    [src/lib.rs] re-exports, and [tests/vectors.rs] only tests the wire crate.  The
    unit tests of [src/session.rs] and [src/dongle.rs] run the real codec over an
    in-memory pipe, so they are left out.  Logging, the derived formatting and the
    layout of printed lines are left out; the target is a Unix system.

    One pool has one connecting call: a process that connects again starts another
    session, and what the two share (the [USED_MUX] flag, the environment) answers anything
    in [Program] as in [ConnectLink].  That every operation of the pool is there from the
    start, waiting for the dongle, says no more than that it may begin at any later time. *)

From Stdlib Require Export ZArith Lia Ascii String.
From stdpp Require Export base numbers strings pretty list gmap relations.

Set Default Proof Using "Type".

Declare Scope dl_scope.
Delimit Scope dl_scope with dl.
Open Scope dl_scope.

(** ** Rust's [Result] and the [?] operator *)

Inductive result (A E : Type) : Type :=
| Ok (a : A)
| Err (e : E).
Arguments Ok {A E} a.
Arguments Err {A E} e.

#[export] Instance result_eq_dec {A E} `{EqDecision A, EqDecision E} :
  EqDecision (result A E).
Proof. solve_decision. Defined.

(** [r?] inside a function that returns a [Result]. *)
Definition result_bind {A B E} (r : result A E) (f : A → result B E) : result B E :=
  match r with Ok a => f a | Err e => Err e end.

(** [Result::map_err]. *)
Definition map_err {A E F} (f : E → F) (r : result A E) : result A F :=
  match r with Ok a => Ok a | Err e => Err (f e) end.

(** [Option::ok_or]. *)
Definition ok_or {A E} (o : option A) (e : E) : result A E :=
  match o with Some a => Ok a | None => Err e end.

(** [Result::ok]. *)
Definition result_ok {A E} (r : result A E) : option A :=
  match r with Ok a => Some a | Err _ => None end.

(** [Result::is_err]. *)
Definition is_err {A E} (r : result A E) : bool :=
  match r with Ok _ => false | Err _ => true end.

(** ** Machine integers

    A [w]-bit unsigned integer is a [Z] in [[0, 2^w)]; wrap-around is written
    out where the code wraps. *)

Definition is_uint (w : Z) (z : Z) : Prop := (0 ≤ z < 2 ^ w)%Z.
Definition is_sint (w : Z) (z : Z) : Prop := (- 2 ^ (w - 1) ≤ z < 2 ^ (w - 1))%Z.

(** [wrapping_add], and the truncating [as] cast to [w] bits. *)
Definition wrapping_add (w a b : Z) : Z := ((a + b) mod 2 ^ w)%Z.
Definition as_uint (w z : Z) : Z := (z mod 2 ^ w)%Z.

(** [saturating_sub] on an unsigned type. *)
Definition saturating_sub (a b : Z) : Z := Z.max 0 (a - b).

(** [1 << s] at width [w]. With overflow checks (debug builds) a shift amount of
    [w] or more panics ([None]); without them (release builds) the amount is
    taken modulo the width. *)
Definition shl_one (overflow_checks : bool) (w s : Z) : option Z :=
  if (s <? w)%Z then Some (Z.shiftl 1 s)
  else if overflow_checks then None
  else Some (Z.shiftl 1 (s mod w)).

(** ** Formatting *)

Definition show_z (z : Z) : string := pretty z.

Definition hex_digit (d : Z) : ascii :=
  nth (Z.to_nat d) (list_ascii_of_string "0123456789ABCDEF") "?"%char.

(** The [n] low hexadecimal digits of [z], most significant first:
    [{:02X}] of a [u8] and [{:04X}] of a [u16]. *)
Fixpoint hex_digits (n : nat) (z : Z) (acc : string) : string :=
  match n with
  | O => acc
  | S n => hex_digits n (z / 16) (String (hex_digit (z mod 16)) acc)
  end.
Definition show_hex (n : nat) (z : Z) : string := hex_digits n z "".

(** [{:?}] of a [Vec] of integers. *)
Definition show_list (l : list Z) : string :=
  "[" +:+ String.concat ", " (show_z <$> l) +:+ "]".

Lemma length_string_append (s t : string) :
  String.length (s +:+ t) = (String.length s + String.length t)%nat.
Proof. induction s as [|c s IH]; simpl; [done|]. by f_equal. Qed.

(** A number below [10 ^ k] has at most [k] digits. *)
Lemma length_pretty_N_go k x s :
  (x < 10 ^ N.of_nat k)%N → (String.length (pretty_N_go x s) ≤ k + String.length s)%nat.
Proof.
  revert x s. induction k as [|k IH]; intros x s Hx.
  - assert (x = 0%N) as -> by (simpl in Hx; lia). by rewrite pretty_N_go_0.
  - destruct (decide (x = 0%N)) as [->|Hne]; [rewrite pretty_N_go_0; lia|].
    rewrite pretty_N_go_step by lia. etrans; [apply IH|simpl; lia].
    apply N.Div0.div_lt_upper_bound. replace (N.of_nat (S k)) with (N.succ (N.of_nat k)) in Hx by lia.
    by rewrite N.pow_succ_r' in Hx.
Qed.

Lemma length_show_z (k : nat) (z : Z) :
  (1 ≤ k)%nat → (0 ≤ z < 10 ^ Z.of_nat k)%Z → (String.length (show_z z) ≤ k)%nat.
Proof.
  intros Hk [H0 Hz].
  assert (∀ x, (x < 10 ^ N.of_nat k)%N → (String.length (pretty x) ≤ k)%nat) as HN.
  { intros x Hx. unfold pretty, pretty_N. destruct (decide _); [simpl; lia|].
    etrans; [by apply (length_pretty_N_go k)|simpl; lia]. }
  unfold show_z, pretty, pretty_Z. destruct z as [|p|p]; simpl; [lia| |lia].
  apply HN. apply N2Z.inj_lt. rewrite N2Z.inj_pow, nat_N_Z. lia.
Qed.

(** ** Automation *)

(** Case analysis on the scrutinee of the innermost visible match, keeping the
    equation. *)
Ltac destruct_match :=
  match goal with
  | |- context [match ?x with _ => _ end] =>
      lazymatch x with
      | context [match _ with _ => _ end] => fail
      | _ => destruct x eqn:?
      end
  end.

Ltac destruct_match_in H :=
  match type of H with
  | context [match ?x with _ => _ end] =>
      lazymatch x with
      | context [match _ with _ => _ end] => fail
      | _ => destruct x eqn:?
      end
  end.

(** Boolean comparisons on [Z] to propositions. *)
Ltac zbool :=
  repeat match goal with
  | H : (_ <? _)%Z = true |- _ => apply Z.ltb_lt in H
  | H : (_ <? _)%Z = false |- _ => apply Z.ltb_ge in H
  | H : (_ <=? _)%Z = true |- _ => apply Z.leb_le in H
  | H : (_ <=? _)%Z = false |- _ => apply Z.leb_gt in H
  | H : (_ =? _)%Z = true |- _ => apply Z.eqb_eq in H
  | H : (_ =? _)%Z = false |- _ => apply Z.eqb_neq in H
  | H : (_ >? _)%Z = _ |- _ => rewrite Z.gtb_ltb in H
  | H : (_ && _) = true |- _ => apply andb_true_iff in H as [? ?]
  | H : (_ && _) = false |- _ => apply andb_false_iff in H
  | H : (_ || _) = false |- _ => apply orb_false_iff in H as [? ?]
  | H : (_ || _) = true |- _ => apply orb_true_iff in H
  end.

Create HintDb dl.

(** ** Generic lemmas *)

Lemma result_bind_ok {A B E} (r : result A E) (f : A → result B E) b :
  result_bind r f = Ok b ↔ ∃ a, r = Ok a ∧ f a = Ok b.
Proof.
  destruct r as [a|e]; simpl; split.
  - by exists a.
  - by intros (? & [= ->] & ?).
  - done.
  - by intros (? & ? & ?).
Qed.

Lemma as_uint_range w z : (0 ≤ w)%Z → is_uint w (as_uint w z).
Proof. intros. unfold is_uint, as_uint. apply Z.mod_pos_bound. lia. Qed.

Lemma as_uint_id w z : is_uint w z → as_uint w z = z.
Proof. unfold is_uint, as_uint. intros. by apply Z.mod_small. Qed.

Lemma saturating_sub_spec a b :
  (b ≤ a → saturating_sub a b = a - b)%Z ∧ (a ≤ b → saturating_sub a b = 0)%Z.
Proof. unfold saturating_sub. lia. Qed.

(** A single-bit mask test is [Z.testbit]. *)
Lemma land_shiftl_one_testbit (b i : Z) :
  (0 ≤ i)%Z → (Z.land b (Z.shiftl 1 i) =? 0)%Z = negb (Z.testbit b i).
Proof.
  intros Hi. rewrite Z.shiftl_1_l.
  destruct (Z.testbit b i) eqn:Hb; simpl.
  - apply Z.eqb_neq. intros H0.
    assert (Z.testbit (Z.land b (2 ^ i)) i = true) as Ht.
    { by rewrite Z.land_spec, Hb, Z.pow2_bits_true. }
    by rewrite H0, Z.bits_0 in Ht.
  - apply Z.eqb_eq. apply Z.bits_inj'. intros n Hn.
    rewrite Z.land_spec, Z.bits_0, Z.pow2_bits_eqb by lia.
    destruct (Z.eqb_spec i n) as [->|]; by rewrite ?Hb, ?andb_false_r.
Qed.
