(* ===== verification/Runtime.v ===== *)
(** * The asynchronous programs of the crate and their semantics

    Every [async fn] of the crate is modelled as a value of [prog E A]: a tree of
    atomic effects [E] (one per critical section, channel operation, I/O call or
    await), [loop]s, and panics.  The file gives

    - [eval], the run of one program by itself against a handler (a fuel bounds
      the number of iterations of each loop);
    - [step], the interleaving semantics of a pool of tasks over a shared state,
      in which any task can also be cancelled at any point (a dropped future or
      an aborted task);
    - [safe], a step-indexed rely/guarantee judgement, and [rg_adequacy], which
      turns one [safe] proof per task into an invariant of every interleaving. *)

From S2P Require Import Prelude.

(** ** Programs *)

Inductive prog (E : Type → Type) (A : Type) : Type :=
| Ret (a : A)
| Vis {X : Type} (e : E X) (k : X → prog E A)
| Loop {S B : Type} (body : S → prog E (S + B)) (s : S) (k : B → prog E A)
| Panic (msg : string).
Arguments Ret {E A} a.
Arguments Vis {E A X} e k.
Arguments Loop {E A S B} body s k.
Arguments Panic {E A} msg.

Fixpoint prog_bind {E A B} (p : prog E A) (f : A → prog E B) : prog E B :=
  match p with
  | Ret a => f a
  | Vis e k => Vis e (λ x, prog_bind (k x) f)
  | Loop body s k => Loop body s (λ b, prog_bind (k b) f)
  | Panic m => Panic m
  end.

#[export] Instance prog_mret {E} : MRet (prog E) := λ A, Ret.
#[export] Instance prog_mbind {E} : MBind (prog E) := λ A B f p, prog_bind p f.

(** One effect as a program. *)
Definition trigger {E X} (e : E X) : prog E X := Vis e Ret.

(** [loop { .. }]: [inl] is the next iteration's state, [inr] is [break]. *)
Definition loop {E S B} (body : S → prog E (S + B)) (s : S) : prog E B :=
  Loop body s Ret.

(** The [?] operator on a program that returns a [Result]. *)
Definition try_bind {E A B X} (p : prog E (result A X)) (f : A → prog E (result B X)) :
    prog E (result B X) :=
  p ≫= λ r, match r with Ok a => f a | Err e => Ret (Err e) end.

Notation "x ←? y ; z" := (try_bind y (λ x, z))
  (at level 20, y at level 100, z at level 200, only parsing) : dl_scope.
Notation "'do?' y ; z" := (try_bind y (λ _, z))
  (at level 20, y at level 100, z at level 200, only parsing) : dl_scope.

(** [for x in l { f x }]. *)
Fixpoint prog_for {E X} (l : list X) (f : X → prog E unit) : prog E unit :=
  match l with
  | [] => Ret tt
  | x :: l => f x ;; prog_for l f
  end.

(** A program over more effects: each of its effects as [f] says. *)
Fixpoint translate {E F : Type → Type} (f : ∀ X, E X → F X) {A} (p : prog E A) : prog F A :=
  match p with
  | Ret a => Ret a
  | Vis e k => Vis (f _ e) (λ x, translate f (k x))
  | Loop body s k => Loop (λ s, translate f (body s)) s (λ b, translate f (k b))
  | Panic m => Panic m
  end.

(** Pointwise equality of programs (the monad laws without extensionality). *)
Inductive peq {E A} : prog E A → prog E A → Prop :=
| peq_ret a : peq (Ret a) (Ret a)
| peq_vis {X} (e : E X) k k' : (∀ x, peq (k x) (k' x)) → peq (Vis e k) (Vis e k')
| peq_loop {S B} (body : S → prog E (S + B)) s k k' :
    (∀ b, peq (k b) (k' b)) → peq (Loop body s k) (Loop body s k')
| peq_panic m : peq (Panic m) (Panic m).

(** ** Running one program by itself *)

Inductive outcome (A S : Type) : Type :=
| Done (a : A) (s : S)
| Panicked (msg : string) (s : S)
| Blocked (s : S)
| OutOfFuel (s : S).
Arguments Done {A S} a s.
Arguments Panicked {A S} msg s.
Arguments Blocked {A S} s.
Arguments OutOfFuel {A S} s.

Definition outcome_bind {A B S} (o : outcome A S) (f : A → S → outcome B S) : outcome B S :=
  match o with
  | Done a s => f a s
  | Panicked m s => Panicked m s
  | Blocked s => Blocked s
  | OutOfFuel s => OutOfFuel s
  end.

Section eval.
Context {E : Type → Type} {St : Type}.
(** The handler: the answer and the new state, or [None] when the effect never
    completes. *)
Variable h : ∀ X, E X → St → option (X * St).

Section iter.
Context {S B : Type} (run : S → St → outcome (S + B) St).
Fixpoint iterate (fuel : nat) (l : S) (s : St) : outcome B St :=
  match fuel with
  | O => OutOfFuel s
  | Datatypes.S fuel =>
      outcome_bind (run l s) (λ r s',
        match r with inl l' => iterate fuel l' s' | inr b => Done b s' end)
  end.
End iter.

(** [fuel] bounds the iterations of each loop, not the number of effects. *)
Fixpoint eval {A} (fuel : nat) (p : prog E A) (s : St) : outcome A St :=
  match p with
  | Ret a => Done a s
  | Vis e k =>
      match h _ e s with
      | Some (x, s') => eval fuel (k x) s'
      | None => Blocked s
      end
  | Loop body l k =>
      outcome_bind (iterate (λ l, eval fuel (body l)) fuel l s)
                   (λ b s', eval fuel (k b) s')
  | Panic m => Panicked m s
  end.
End eval.

(** ** Interleavings *)

(** What a pool of tasks runs over: the answers of an effect may depend on a
    choice of the environment, and [on_drop] is what the runtime does to the
    shared state when a task is dropped with its locals. *)
Class Sem (E : Type → Type) (St : Type) := {
  choice : Type;
  do_eff : ∀ X, nat → choice → E X → St → option (X * St);
  on_drop : nat → St → St;
}.
Arguments choice E {St _}.
Arguments do_eff {E St _ X}.

Section pool.
Context {E : Type → Type} {St : Type} `{!Sem E St} {R : Type}.

Definition step_prog {A} (i : nat) (c : choice E) (p : prog E A) (s : St) :
    option (prog E A * St) :=
  match p with
  | Ret _ | Panic _ => None
  | Vis e k =>
      match do_eff i c e s with
      | Some (x, s') => Some (k x, s')
      | None => None
      end
  | Loop body l k =>
      Some (prog_bind (body l) (λ r,
              match r with inl l' => Loop body l' k | inr b => k b end), s)
  end.

Record conf := Conf { tasks : gmap nat (prog E R); shared : St }.

(** [Run i c]: task [i] performs its next effect, the environment choosing [c].
    [Cancel i]: the future of task [i] is dropped; the code drops it at an [await] only,
    the pool between any two effects, so what holds of every run holds of the code's. *)
Inductive label := Run (i : nat) (c : choice E) | Cancel (i : nat).

Definition step (l : label) (cf : conf) : option conf :=
  match l with
  | Run i c =>
      p ← tasks cf !! i;
      '(p', s') ← step_prog i c p (shared cf);
      Some (Conf (<[i := p']> (tasks cf)) s')
  | Cancel i =>
      p ← tasks cf !! i;
      match p with
      | Ret _ => None
      | _ => Some (Conf (delete i (tasks cf)) (on_drop i (shared cf)))
      end
  end.

Fixpoint run_labels (ls : list label) (cf : conf) : option conf :=
  match ls with
  | [] => Some cf
  | l :: ls => cf' ← step l cf; run_labels ls cf'
  end.

Inductive reachable (c0 : conf) : conf → Prop :=
| reach_refl : reachable c0 c0
| reach_step c l c' : reachable c0 c → step l c = Some c' → reachable c0 c'.

(** The same by the steps with [ok] only. *)
Inductive within (ok : label → bool) (c0 : conf) : conf → Prop :=
| within_refl : within ok c0 c0
| within_step cf l cf' :
    within ok c0 cf → ok l = true → step l cf = Some cf' → within ok c0 cf'.

(** Only the tasks with [D] are dropped, or none is. *)
Definition allows (D : nat → bool) (l : label) : bool :=
  match l with Run _ _ => true | Cancel i => D i end.
Definition dropping (D : nat → bool) : conf → conf → Prop := within (allows D).
Definition undropped : conf → conf → Prop := dropping (λ _, false).

Lemma within_reachable ok c0 cf : within ok c0 cf → reachable c0 cf.
Proof using Type. induction 1; [apply reach_refl|by eapply reach_step]. Qed.

(** The configuration a schedule leads to ([c0] itself if it is not a run). *)
Definition after (ls : list label) (c0 : conf) : conf := default c0 (run_labels ls c0).

Lemma after_reachable ls c0 : reachable c0 (after ls c0).
Proof using Type.
  assert (∀ c c', reachable c0 c → run_labels ls c = Some c' → reachable c0 c') as Hrun.
  { induction ls as [|l ls IH]; intros c c' Hc; simpl; [by intros [= <-]|].
    destruct (step l c) as [c1|] eqn:Hs; [|done]. simpl. apply IH. by eapply reach_step. }
  unfold after. destruct (run_labels ls c0) as [c'|] eqn:Hls; simpl.
  - by apply (Hrun c0); [apply reach_refl|].
  - apply reach_refl.
Qed.

Lemma after_within ok ls c0 : forallb ok ls = true → within ok c0 (after ls c0).
Proof using Type.
  assert (∀ c c', within ok c0 c → forallb ok ls = true → run_labels ls c = Some c' →
    within ok c0 c') as Hrun.
  { induction ls as [|l ls IH]; intros c c' Hc; simpl; [by intros _ [= <-]|].
    intros [Hl Hls]%andb_true_iff. destruct (step l c) as [c2|] eqn:Hs; [|done]. apply IH; [|done].
    by eapply within_step. }
  intros Hls. unfold after. destruct (run_labels ls c0) as [c'|] eqn:Hc'; simpl; [|apply within_refl].
  by apply (Hrun c0); [apply within_refl|..].
Qed.

(** Task [i] runs by itself, the environment choosing [cs]. *)
Fixpoint solo {A} (i : nat) (cs : list (choice E)) (p : prog E A) (s : St) : option (prog E A * St) :=
  match cs with
  | [] => Some (p, s)
  | c :: cs => '(p', s') ← step_prog i c p s; solo i cs p' s'
  end.

Lemma solo_undropped c0 cf i cs p p' s' :
  undropped c0 cf → tasks cf !! i = Some p → solo i cs p (shared cf) = Some (p', s') →
  undropped c0 (Conf (<[i := p']> (tasks cf)) s').
Proof using Type.
  revert cf p. induction cs as [|c cs IH]; intros cf p Hr Hp; simpl.
  - intros [= <- <-]. rewrite insert_id by done. by destruct cf.
  - destruct (step_prog i c p (shared cf)) as [[p1 s1]|] eqn:Hs; [|done]. simpl. intros Hsolo.
    rewrite <- (insert_insert_eq (tasks cf) i p' p1).
    specialize (IH (Conf (<[i := p1]> (tasks cf)) s1) p1). cbn [tasks shared] in IH.
    apply IH; [|apply lookup_insert_eq|done].
    eapply (within_step _ _ cf (Run i c)); [done|done|]. simpl. by rewrite Hp; simpl; rewrite Hs.
Qed.
End pool.
Arguments conf : clear implicits.
Arguments label E St {_}.

(** ** Equality of programs *)

Lemma peq_refl {E A} (p : prog E A) : peq p p.
Proof. induction p; by constructor. Qed.

Lemma peq_bind_cont {E A B} (p : prog E A) (f g : A → prog E B) :
  (∀ a, peq (f a) (g a)) → peq (prog_bind p f) (prog_bind p g).
Proof. intros Hfg. induction p; simpl; [done|constructor; auto..]. Qed.

Lemma peq_bind_assoc {E A B C} (p : prog E A) (f : A → prog E B) (g : B → prog E C) h :
  (∀ a, peq (prog_bind (f a) g) (h a)) →
  peq (prog_bind (prog_bind p f) g) (prog_bind p h).
Proof. intros Hh. induction p; simpl; [done|constructor; auto..]. Qed.

(** What a program equal to [p] looks like. *)
Lemma peq_inv {E A} (p q : prog E A) :
  peq p q →
  match p with
  | Ret a => q = Ret a
  | Vis e k => ∃ k', q = Vis e k' ∧ ∀ x, peq (k x) (k' x)
  | Loop body s k => ∃ k', q = Loop body s k' ∧ ∀ b, peq (k b) (k' b)
  | Panic m => q = Panic m
  end.
Proof. destruct 1; eauto. Qed.

#[export] Instance peq_equivalence {E A} : Equivalence (@peq E A).
Proof.
  split.
  - intros p. apply peq_refl.
  - intros p q Hpq. induction Hpq; by constructor.
  - intros p q r Hpq. revert r. induction Hpq; intros r Hr%peq_inv;
      [subst; constructor|destruct Hr as (k2 & -> & ?); constructor; auto..|subst; constructor].
Qed.

Lemma peq_bind {E A B} (p q : prog E A) (f g : A → prog E B) :
  peq p q → (∀ a, peq (f a) (g a)) → peq (prog_bind p f) (prog_bind q g).
Proof. intros Hpq Hfg. induction Hpq; simpl; [done|constructor; auto..]. Qed.

(** A step does not depend on the form of the program. *)
Lemma step_prog_peq {E St A} `{!Sem E St} i c (p q p' : prog E A) s s' :
  peq p q → step_prog i c p s = Some (p', s') →
  ∃ q', step_prog i c q s = Some (q', s') ∧ peq p' q'.
Proof.
  destruct 1 as [a|X e k k' Hk|S B body l k k' Hk|m]; simpl; [done| | |done].
  - destruct (do_eff i c e s) as [[x s1]|]; [|done]. intros [= <- <-]. eauto.
  - intros [= <- <-]. eexists. split; [done|]. apply peq_bind_cont.
    intros [l'|b]; [by constructor|done].
Qed.

(** ** Running in sequence *)

Section eval_lemmas.
Context {E : Type → Type} {St : Type} (h : ∀ X, E X → St → option (X * St)).

Lemma outcome_bind_ext {A B} (o : outcome A St) (f g : A → St → outcome B St) :
  (∀ a s, f a s = g a s) → outcome_bind o f = outcome_bind o g.
Proof using Type. intros Hfg. by destruct o; simpl. Qed.

Lemma outcome_bind_assoc {A B C} (o : outcome A St) (f : A → St → outcome B St)
    (g : B → St → outcome C St) :
  outcome_bind (outcome_bind o f) g = outcome_bind o (λ a s, outcome_bind (f a s) g).
Proof using Type. by destruct o. Qed.

Lemma eval_bind {A B} n (p : prog E A) (f : A → prog E B) s :
  eval h n (p ≫= f) s = outcome_bind (eval h n p s) (λ a s', eval h n (f a) s').
Proof using Type.
  unfold mbind, prog_mbind. revert f s.
  induction p as [A a|A X e k IH|A S' B' body _ l k IH|A m]; intros f s; simpl.
  - done.
  - destruct (h X e s) as [[x s']|]; simpl; auto.
  - rewrite outcome_bind_assoc. apply outcome_bind_ext. auto.
  - done.
Qed.

Lemma eval_try_bind {A B X} n (p : prog E (result A X)) (f : A → prog E (result B X)) s :
  eval h n (try_bind p f) s =
  outcome_bind (eval h n p s) (λ r s',
    match r with Ok a => eval h n (f a) s' | Err e => Done (Err e) s' end).
Proof using Type.
  unfold try_bind. rewrite eval_bind. apply outcome_bind_ext. by intros [].
Qed.

Lemma eval_trigger {X} n (e : E X) s :
  eval h n (trigger e) s =
  match h X e s with Some (x, s') => Done x s' | None => Blocked s end.
Proof using Type. done. Qed.

Lemma eval_peq {A} n (p q : prog E A) s : peq p q → eval h n p s = eval h n q s.
Proof using Type.
  intros Hpq. revert s. induction Hpq; intros st; simpl; [done| | |done].
  - destruct (h X e st) as [[x st']|]; auto.
  - apply outcome_bind_ext. auto.
Qed.
End eval_lemmas.

Lemma translate_bind {E F A B} (f : ∀ X, E X → F X) (p : prog E A) (k : A → prog E B) :
  peq (translate f (prog_bind p k)) (prog_bind (translate f p) (λ a, translate f (k a))).
Proof. induction p; simpl; [apply peq_refl|constructor; auto..]. Qed.

(** A translated program runs as the original does on its part of the state. *)
Section eval_translate.
Context {E F : Type → Type} {S T : Type} (f : ∀ X, E X → F X).
Context (h : ∀ X, E X → S → option (X * S)) (g : ∀ X, F X → T → option (X * T)).
Context (get : T → S) (put : S → T → T).
Hypothesis get_put : ∀ s t, get (put s t) = s.
Hypothesis put_get : ∀ t, put (get t) t = t.
Hypothesis put_put : ∀ s s' t, put s (put s' t) = put s t.
Hypothesis f_does : ∀ X (e : E X) t, g X (f X e) t = prod_map id (λ s, put s t) <$> h X e (get t).

Definition outcome_map {A} (u : S → T) (o : outcome A S) : outcome A T :=
  match o with
  | Done a s => Done a (u s)
  | Panicked m s => Panicked m (u s)
  | Blocked s => Blocked (u s)
  | OutOfFuel s => OutOfFuel (u s)
  end.

Lemma eval_translate {A} n (p : prog E A) t :
  eval g n (translate f p) t = outcome_map (λ s, put s t) (eval h n p (get t)).
Proof using f_does get_put put_get put_put.
  revert t. induction p as [A a|A X e k IH|A S' B body IHb l k IHk|A m]; intros t; simpl.
  - by rewrite put_get.
  - rewrite f_does. destruct (h X e (get t)) as [[x s]|]; simpl.
    + rewrite IH, get_put. destruct (eval h n (k x) s); simpl; by rewrite put_put.
    + by rewrite put_get.
  - assert (∀ m l t, iterate (λ l, eval g n (translate f (body l))) m l t =
      outcome_map (λ s, put s t) (iterate (λ l, eval h n (body l)) m l (get t))) as Hit.
    { intros m. induction m as [|m IHm]; intros l' t'; simpl; [by rewrite put_get|].
      rewrite IHb. destruct (eval h n (body l') (get t')) as [[l2|b] s2| | |]; simpl; try done.
      rewrite IHm, get_put. destruct (iterate _ m l2 s2); simpl; by rewrite put_put. }
    rewrite Hit. destruct (iterate (λ l, eval h n (body l)) n l (get t)); simpl; try done.
    rewrite IHk, get_put. destruct (eval h n (k _) _); simpl; by rewrite put_put.
  - by rewrite put_get.
Qed.
End eval_translate.

(** ** Which effects a program can perform *)

Inductive uses {E : Type → Type} (ok : ∀ X, E X → Prop) {A} : prog E A → Prop :=
| uses_ret a : uses ok (Ret a)
| uses_vis {X} (e : E X) k : ok X e → (∀ x, uses ok (k x)) → uses ok (Vis e k)
| uses_loop {S B} (body : S → prog E (S + B)) s k :
    (∀ l, uses ok (body l)) → (∀ b, uses ok (k b)) → uses ok (Loop body s k)
| uses_panic m : uses ok (Panic m).

(** The state a run ends (or is stopped) in. *)
Definition outcome_state {A S} (o : outcome A S) : S :=
  match o with Done _ s | Panicked _ s | Blocked s | OutOfFuel s => s end.

Section uses.
Context {E : Type → Type} (ok : ∀ X, E X → Prop).

Lemma uses_bind {A B} (p : prog E A) (f : A → prog E B) :
  uses ok p → (∀ a, uses ok (f a)) → uses ok (p ≫= f).
Proof using Type.
  intros Hp Hf. unfold mbind, prog_mbind.
  induction Hp; simpl; [apply Hf|constructor; auto..].
Qed.

Lemma uses_try_bind {A B X} (p : prog E (result A X)) (f : A → prog E (result B X)) :
  uses ok p → (∀ a, uses ok (f a)) → uses ok (try_bind p f).
Proof using Type. intros Hp Hf. apply uses_bind; [done|]. intros []; [done|constructor]. Qed.

Lemma uses_trigger {X} (e : E X) : ok X e → uses ok (trigger e).
Proof using Type. intros He. constructor; [done|]. constructor. Qed.

Lemma uses_for {X} (l : list X) (f : X → prog E unit) :
  (∀ x, uses ok (f x)) → uses ok (prog_for l f).
Proof using Type. intros Hf. induction l; simpl; [constructor|by apply uses_bind]. Qed.

(** What the effects preserve, a run preserves. *)
Lemma uses_eval {St A} (h : ∀ X, E X → St → option (X * St)) (I : St → Prop) n (p : prog E A) s :
  (∀ X (e : E X) s x s', ok X e → I s → h X e s = Some (x, s') → I s') →
  uses ok p → I s → I (outcome_state (eval h n p s)).
Proof using Type.
  intros Hok Hp. revert s. induction Hp as [A a|A X e k He _ IH|A S B body l k _ IHb _ IHk|A m];
    intros s HI; simpl; [done| | |done].
  - destruct (h X e s) as [[x s']|] eqn:Hh; [|done]. eauto.
  - assert (∀ f l s, I s → I (outcome_state (iterate (λ l, eval h n (body l)) f l s))) as Hit.
    { intros f. induction f as [|f IHf]; intros l' s1 H1; simpl; [done|].
      specialize (IHb l' s1 H1). destruct (eval h n (body l') s1) as [[l2|b] s2| | |]; simpl in *; auto. }
    specialize (Hit n l s HI). destruct (iterate _ _ _ _); simpl in *; auto.
Qed.
End uses.

(** Programs built from effects that are allowed; [tac] knows the functions. *)
Ltac solve_uses_with tac :=
  repeat first
    [ progress intros | done | tac | apply uses_for | apply uses_try_bind | apply uses_bind | apply uses_trigger
    | constructor | case_match ].
Ltac solve_uses := solve_uses_with fail.

(** ** Rely/guarantee *)

(** [Inv] is the invariant of the shared state and [Rely i] what task [i] may
    assume of the steps of the others (and of the cancellation of any task).
    [Guar i s s']: a step of task [i], which must be in the rely of every other
    task. *)
Section rely_guarantee.
Context {E : Type → Type} {St : Type} `{!Sem E St}.
Variable Inv : St → Prop.
Variable Rely : nat → St → St → Prop.
Hypothesis rely_preorder : ∀ i, PreOrder (Rely i).

Definition Guar (i : nat) (s s' : St) : Prop := ∀ j, i ≠ j → Rely j s s'.

(** [safe n i p Q s]: for [n] steps, whatever the environment does within the
    rely, task [i] at program [p] preserves the invariant, stays within its
    guarantee, and if it returns [a] then [Q a] holds. *)
Fixpoint safe {A} (n : nat) (i : nat) (p : prog E A) (Q : A → St → Prop) (s : St) : Prop :=
  match n with
  | O => True
  | S n =>
      ∀ s1, Rely i s s1 → Inv s1 →
        (∀ a, p = Ret a → Q a s1) ∧
        (∀ c p' s2, step_prog i c p s1 = Some (p', s2) →
           Inv s2 ∧ Guar i s1 s2 ∧ safe n i p' Q s2)
  end.

Lemma safe_rely {A} n i (p : prog E A) Q s s' :
  Rely i s s' → safe n i p Q s → safe n i p Q s'.
Proof using rely_preorder.
  destruct n as [|n]; [done|]. simpl. intros HR H s1 HR1. apply H.
  pose proof (rely_preorder i). by transitivity s'.
Qed.

Lemma safe_mono {A} n m i (p : prog E A) Q s :
  m ≤ n → safe n i p Q s → safe m i p Q s.
Proof using Type.
  revert n p s. induction m as [|m IH]; [done|]. intros [|n] p s Hle H; [lia|].
  intros s1 HR HI. destruct (H s1 HR HI) as [HQ Hstep]. split; [done|].
  intros c p' s2 Hs. destruct (Hstep c p' s2 Hs) as (?&?&?).
  split_and!; [done..|]. apply (IH n); [lia|done].
Qed.

Lemma safe_ret {A} n i (a : A) (Q : A → St → Prop) s :
  (∀ s1, Rely i s s1 → Inv s1 → Q a s1) → safe n i (Ret a) Q s.
Proof using Type.
  intros H. destruct n as [|n]; [done|]. intros s1 HR HI. split.
  - intros ? [= <-]. by apply H.
  - intros c p' s2. done.
Qed.

Lemma safe_vis {A X} n i (e : E X) (k : X → prog E A) (Q : A → St → Prop) s :
  (∀ s1 c x s2, Rely i s s1 → Inv s1 → do_eff i c e s1 = Some (x, s2) →
     Inv s2 ∧ Guar i s1 s2 ∧ safe (pred n) i (k x) Q s2) →
  safe n i (Vis e k) Q s.
Proof using Type.
  intros H. destruct n as [|n]; [done|]. intros s1 HR HI. split; [done|].
  intros c p' s2. simpl. destruct (do_eff i c e s1) as [[x s']|] eqn:He; [|done].
  intros [= <- <-]. by apply (H s1 c x s').
Qed.

Lemma safe_panic {A} n i m (Q : A → St → Prop) s : safe n i (Panic m) Q s.
Proof using Type. destruct n; [done|]. intros s1 _ _. split; [done|]. done. Qed.

Lemma safe_peq {A} n i (p q : prog E A) Q s : peq p q → safe n i p Q s → safe n i q Q s.
Proof using Type.
  revert p q s. induction n as [|n IH]; [done|]. intros p q s Hpq H s1 HR HI.
  destruct (H s1 HR HI) as [HQ Hst]. clear H. destruct Hpq as [a|X e k k' Hk|S B body l k k' Hk|m].
  - done.
  - split; [done|]. intros c p' s2 Hs. simpl in *.
    destruct (do_eff i c e s1) as [[x s']|] eqn:He; [|done]. simplify_eq.
    destruct (Hst c (k x) s2) as (?&?&?); [by rewrite He|]. eauto.
  - split; [done|]. intros c p' s2 [= <- <-].
    destruct (Hst c _ s1 eq_refl) as (?&?&Hs). split_and!; [done..|].
    refine (IH _ _ _ _ Hs). apply peq_bind_cont. intros [l'|b]; [by constructor|done].
  - done.
Qed.

Lemma safe_bind {A B} n i (p : prog E A) (f : A → prog E B) Q' Q s :
  safe n i p Q' s →
  (∀ a s', Inv s' → Q' a s' → safe n i (f a) Q s') →
  safe n i (prog_bind p f) Q s.
Proof using rely_preorder.
  revert p s. induction n as [|n IH]; [done|]. intros p s Hp Hf.
  assert (Hf' : ∀ a s', Inv s' → Q' a s' → safe n i (f a) Q s').
  { intros a s' ??. apply (safe_mono (S n)); [lia|]. by apply Hf. }
  intros s1 HR HI. destruct (Hp s1 HR HI) as [HQ Hst].
  destruct p as [a|X e k|S B' body l k|m]; simpl.
  - apply (Hf a s1 HI (HQ a eq_refl)); [|done]. apply (rely_preorder i).
  - split; [done|]. intros c p' s2. simpl in Hst.
    destruct (do_eff i c e s1) as [[x s']|] eqn:He; [|done]. intros [= <- <-].
    destruct (Hst c (k x) s') as (?&?&?); [by rewrite He|]. auto.
  - split; [done|]. intros c p' s2 [= <- <-].
    destruct (Hst c _ s1 eq_refl) as (?&?&Hs). split_and!; [done..|].
    refine (safe_peq _ _ _ _ _ _ _ (IH _ _ Hs Hf')).
    apply peq_bind_assoc. intros [l'|b]; simpl; apply peq_refl.
  - done.
Qed.

(** The rule for [loop]: [J] holds at the head of every iteration. *)
Lemma safe_loop {A S B} n i (body : S → prog E (S + B)) l (k : B → prog E A)
    (J : S → St → Prop) Q s :
  (∀ l s s', J l s → Rely i s s' → Inv s' → J l s') →
  (∀ m l s, J l s → Inv s →
     safe m i (body l) (λ r s', match r with
       | inl l' => J l' s'
       | inr b => ∀ m, safe m i (k b) Q s' end) s) →
  J l s → safe n i (Loop body l k) Q s.
Proof using rely_preorder.
  intros Hst Hbody. revert l s. induction n as [|n IH]; [done|].
  intros l s HJ s1 HR HI. split; [done|]. intros c p' s2 [= <- <-].
  split_and!; [done| |].
  - intros j _. apply (rely_preorder j).
  - eapply safe_bind; [by apply Hbody; eauto|]. intros [l'|b] s' _; eauto.
Qed.

Lemma safe_trigger {X} n i (e : E X) (Q : X → St → Prop) s :
  (∀ s1 c x s2, Rely i s s1 → Inv s1 → do_eff i c e s1 = Some (x, s2) →
     Inv s2 ∧ Guar i s1 s2 ∧ Q x s2) →
  (∀ x s s', Q x s → Rely i s s' → Inv s' → Q x s') →
  safe n i (trigger e) Q s.
Proof using Type.
  intros He HQ. apply safe_vis. intros s1 c x s2 HR HI Hd.
  destruct (He s1 c x s2 HR HI Hd) as (?&?&?). split_and!; [done..|].
  apply safe_ret. eauto.
Qed.

(** *** Hoare triples

    [spec i P p Q]: from any state with [P], program [p] run by task [i] is safe
    and ends with [Q].  An assertion must be [Stable] under the rely. *)

Class Stable (i : nat) (P : St → Prop) : Prop :=
  stable : ∀ s s', P s → Rely i s s' → Inv s' → P s'.

(** Transport of a stable assertion to the later state of a rely step. *)
Ltac by_stable := solve [eauto | eapply stable; [..|eassumption|eassumption]; eauto].

Definition spec {A} (i : nat) (P : St → Prop) (p : prog E A) (Q : A → St → Prop) : Prop :=
  ∀ n s, Inv s → P s → safe n i p Q s.

Lemma spec_conseq {A} i (P P' : St → Prop) (p : prog E A) Q :
  spec i P' p Q → (∀ s, Inv s → P s → P' s) → spec i P p Q.
Proof using Type. intros H HP n s HI Hs. eauto. Qed.

Lemma safe_post {A} n i (p : prog E A) (Q Q' : A → St → Prop) s :
  safe n i p Q s → (∀ a s, Inv s → Q a s → Q' a s) → safe n i p Q' s.
Proof using Type.
  revert p s. induction n as [|n IH]; [done|]. intros p s Hp HQ s1 HR HI.
  destruct (Hp s1 HR HI) as [Ha Hs]. split; [eauto|].
  intros c p' s2 Hst. destruct (Hs c p' s2 Hst) as (?&?&?). eauto.
Qed.

Lemma spec_post {A} i (P : St → Prop) (p : prog E A) (Q Q' : A → St → Prop) :
  spec i P p Q → (∀ a s, Inv s → Q a s → Q' a s) → spec i P p Q'.
Proof using Type. intros H HQ n s HI Hs. eapply safe_post; eauto. Qed.

(** What another task may rely on is kept: a frame rule. *)
Lemma safe_frame {A} n i j (p : prog E A) Q (P : St → Prop) s `{!Stable i P, !Stable j P} :
  i ≠ j → safe n i p Q s → P s → safe n i p (λ a s', Q a s' ∧ P s') s.
Proof using Type.
  intros Hij. revert p s. induction n as [|n IH]; [done|]. intros p s Hp HP s1 HR HI.
  destruct (Hp s1 HR HI) as [HQ Hst]. assert (P s1) as HP1 by by_stable.
  split; [auto|]. intros c p' s2 Hs. destruct (Hst c p' s2 Hs) as (HI2 & HG & Hp').
  split_and!; [done..|]. apply IH; [done|]. eapply (stable (i := j)); [exact HP1|by apply HG|done].
Qed.

Lemma spec_frame {A} i j (P R : St → Prop) (p : prog E A) Q `{!Stable i R, !Stable j R} :
  i ≠ j → spec i P p Q → spec i (λ s, P s ∧ R s) p (λ a s, Q a s ∧ R s).
Proof using Type. intros Hij Hp n s HI [HP HR]. eapply safe_frame; eauto. Qed.

Lemma spec_ret {A} i (P : St → Prop) (a : A) (Q : A → St → Prop) `{!Stable i P} :
  (∀ s, Inv s → P s → Q a s) → spec i P (Ret a) Q.
Proof using Type.
  intros H n s HI HP. apply safe_ret. intros s1 HR HI1. apply H; [done|]. by_stable.
Qed.

Lemma spec_bind {A B} i (P : St → Prop) (p : prog E A) (f : A → prog E B) R Q :
  spec i P p R → (∀ a, spec i (R a) (f a) Q) → spec i P (p ≫= f) Q.
Proof using rely_preorder.
  intros Hp Hf n s HI HP. eapply safe_bind; [by apply Hp|]. intros a s' HI' HR. by apply Hf.
Qed.

Lemma spec_map {A B} i (P : St → Prop) (p : prog E A) (f : A → B) Q Q'
    `{!∀ a, Stable i (Q a)} :
  spec i P p Q → (∀ a s, Inv s → Q a s → Q' (f a) s) → spec i P (a ← p; Ret (f a)) Q'.
Proof using rely_preorder.
  intros Hp HQ. eapply spec_bind; [done|]. intros a. apply spec_ret; [apply _|]. auto.
Qed.

Lemma spec_trigger {X} i (P : St → Prop) (e : E X) (Q : X → St → Prop)
    `{!Stable i P} `{!∀ x, Stable i (Q x)} :
  (∀ s c x s', Inv s → P s → do_eff i c e s = Some (x, s') →
     Inv s' ∧ Guar i s s' ∧ Q x s') →
  spec i P (trigger e) Q.
Proof using Type.
  intros He n s HI HP. apply safe_trigger.
  - intros s1 c x s2 HR HI1 Hd. apply (He s1 c); [done| |done]. by_stable.
  - intros x s' s'' HQ HR HI''. by_stable.
Qed.

Lemma spec_loop {S B} i (body : S → prog E (S + B)) (J : S → St → Prop) l Q
    `{!∀ l, Stable i (J l)} `{!∀ b, Stable i (Q b)} :
  (∀ l, spec i (J l) (body l) (λ r s, match r with inl l' => J l' s | inr b => Q b s end)) →
  spec i (J l) (loop body l) Q.
Proof using rely_preorder.
  intros Hb n s HI HJ. eapply (safe_loop _ _ _ _ _ J); [|..|done].
  { intros l' s1 s2 ???. by_stable. }
  intros m l' s' HJ' HI'. eapply safe_post; [by apply Hb|].
  intros [l''|b] s'' HI'' Hr; [done|]. intros m'.
  apply safe_ret. intros s1 ??. by_stable.
Qed.

Lemma spec_for {X} i (f : X → prog E unit) (J : list X → St → Prop) l
    `{!∀ l, Stable i (J l)} :
  (∀ x l, spec i (J (x :: l)) (f x) (λ _, J l)) →
  spec i (J l) (prog_for l f) (λ _, J []).
Proof using rely_preorder.
  intros Hf. induction l as [|x l IH]; simpl.
  - by apply spec_ret.
  - eapply spec_bind; [apply Hf|]. intros []. apply IH.
Qed.

Lemma spec_panic {A} i (P : St → Prop) m (Q : A → St → Prop) : spec i P (Panic m) Q.
Proof using Type. intros n s _ _. apply safe_panic. Qed.

(** A program made of effects that preserve [P] preserves [P]. *)
Lemma spec_uses {A} i (ok : ∀ X, E X → Prop) (P : St → Prop) (p : prog E A) `{!Stable i P} :
  (∀ X (e : E X) s c x s', ok X e → Inv s → P s → do_eff i c e s = Some (x, s') →
     Inv s' ∧ Guar i s s' ∧ P s') →
  uses ok p → spec i P p (λ _, P).
Proof using rely_preorder.
  intros Hok Hp. induction Hp as [A a|A X e k He _ IH|A S B body l k _ IHb _ IHk|A m].
  - by apply spec_ret.
  - apply (spec_bind i P (trigger e) k (λ _, P)); [|done].
    apply spec_trigger; [apply _..|]. intros s c x s' ???. by eapply Hok.
  - apply (spec_bind i P (loop body l) k (λ _, P)); [|done].
    apply (spec_loop i body (λ _, P)); [apply _..|]. intros l'. eapply spec_post; [apply IHb|].
    by intros [].
  - apply spec_panic.
Qed.

#[global] Instance stable_pure i (φ : Prop) : Stable i (λ _, φ).
Proof using Type. by intros s s' ?. Qed.
#[global] Instance stable_and i P Q : Stable i P → Stable i Q → Stable i (λ s, P s ∧ Q s).
Proof using Type. intros HP HQ s s' [? ?] ??. split; by_stable. Qed.
#[global] Instance stable_or i P Q : Stable i P → Stable i Q → Stable i (λ s, P s ∨ Q s).
Proof using Type. intros HP HQ s s' [?|?] ??; [left|right]; by_stable. Qed.
#[global] Instance stable_exist {X} i (P : X → St → Prop) :
  (∀ x, Stable i (P x)) → Stable i (λ s, ∃ x, P x s).
Proof using Type. intros HP s s' [x ?] ??. exists x. by_stable. Qed.
#[global] Instance stable_forall {X} i (P : X → St → Prop) :
  (∀ x, Stable i (P x)) → Stable i (λ s, ∀ x, P x s).
Proof using Type. intros HP s s' H ?? x. by_stable. Qed.
#[global] Instance stable_impl i (φ : Prop) P :
  Stable i P → Stable i (λ s, φ → P s).
Proof using Type. intros HP s s' H ?? Hφ. specialize (H Hφ). by_stable. Qed.

(** ** Adequacy *)
Hypothesis drop_ok : ∀ i s, Inv s → Inv (on_drop i s) ∧ Guar i s (on_drop i s).

Definition pool_safe {R} (Q : nat → R → St → Prop) (cf : conf E St R) : Prop :=
  Inv (shared cf) ∧
  ∀ i p, tasks cf !! i = Some p → ∀ n, safe n i p (Q i) (shared cf).

Lemma pool_safe_step {R} (Q : nat → R → St → Prop) l cf cf' :
  pool_safe Q cf → step l cf = Some cf' → pool_safe Q cf'.
Proof using drop_ok rely_preorder.
  intros [HI Hs] Hstep. destruct l as [i c|i]; simpl in Hstep;
    destruct (tasks cf !! i) as [p|] eqn:Hp; try done; simpl in Hstep.
  - destruct (step_prog i c p (shared cf)) as [[p' s']|] eqn:Hsp; [|done].
    injection Hstep as <-. pose proof (rely_preorder i).
    assert (∀ n, Inv s' ∧ Guar i (shared cf) s' ∧ safe n i p' (Q i) s') as Hn.
    { intros n. destruct (Hs i p Hp (S n) (shared cf)) as [_ Hst]; [done|done|].
      by apply (Hst c). }
    destruct (Hn 0) as (HI' & HG & _). split; [done|]. intros j q; simpl.
    destruct (decide (i = j)) as [<-|Hij].
    + rewrite lookup_insert_eq. intros [= <-] n. apply Hn.
    + rewrite lookup_insert_ne by done. intros Hq n.
      apply (safe_rely n j q _ (shared cf)); [by apply HG|by apply Hs].
  - assert (cf' = Conf (delete i (tasks cf)) (on_drop i (shared cf))) as ->.
    { by destruct p; simplify_eq. }
    destruct (drop_ok i (shared cf) HI) as [HI' HG]. split; [done|]. intros j q; simpl.
    intros [Hij Hq]%lookup_delete_Some n.
    apply (safe_rely n j q _ (shared cf)); [by apply HG|by apply Hs].
Qed.

Theorem rg_adequacy {R} (Q : nat → R → St → Prop) cf cf' :
  pool_safe Q cf → reachable cf cf' → pool_safe Q cf'.
Proof using drop_ok rely_preorder.
  intros H0 Hr. induction Hr; eauto using pool_safe_step.
Qed.

Lemma pool_safe_result {R} (Q : nat → R → St → Prop) cf i a :
  pool_safe Q cf → tasks cf !! i = Some (Ret a) → Q i a (shared cf).
Proof using rely_preorder.
  intros [HI Hs] Hi. destruct (Hs i _ Hi 1 (shared cf)) as [HQ _]; [|done|by apply HQ].
  apply (rely_preorder i).
Qed.

End rely_guarantee.

(** ** A program inside a larger semantics

    [translate f p] keeps what [p] keeps, on its part [get] of the state. *)

Section safe_translate.
Context {E F : Type → Type} {S T : Type} `{!Sem E S, !Sem F T}.
Context (f : ∀ X, E X → F X) (get : T → S) (part : choice F → choice E).
Context (Inv : S → Prop) (Rely : nat → S → S → Prop).
Context (Inv' : T → Prop) (Rely' : nat → T → T → Prop).
Hypothesis rely'_preorder : ∀ i, PreOrder (Rely' i).
Hypothesis inv_get : ∀ t, Inv' t → Inv (get t).
Hypothesis rely_get : ∀ i t t', Rely' i t t' → Rely i (get t) (get t').
Hypothesis f_step : ∀ X i c (e : E X) t x t', do_eff i c (f X e) t = Some (x, t') →
  do_eff i (part c) e (get t) = Some (x, get t') ∧
  (Inv' t → Inv (get t') → Guar Rely i (get t) (get t') → Inv' t' ∧ Guar Rely' i t t').

Lemma safe_translate {A} n i (p : prog E A) Q t :
  safe Inv Rely n i p Q (get t) → safe Inv' Rely' n i (translate f p) (λ a t, Q a (get t)) t.
Proof using f_step inv_get rely'_preorder rely_get.
  revert p t. induction n as [|n IH]; [done|]. intros p t Hp t1 HR HI.
  destruct (Hp (get t1) (rely_get _ _ _ HR) (inv_get _ HI)) as [HQ Hst]. clear Hp.
  destruct p as [a|X e k|S' B body l k|m]; simpl.
  - split; [|done]. intros ? [= <-]. by apply HQ.
  - split; [done|]. intros c p' t2 Hd. simpl in Hd.
    destruct (do_eff i c (f X e) t1) as [[x t']|] eqn:He; [|done]. injection Hd as <- <-.
    destruct (f_step _ _ _ _ _ _ _ He) as [Hd Hup].
    destruct (Hst (part c) (k x) (get t')) as (HI' & HG & Hs); [simpl; by rewrite Hd|].
    destruct (Hup HI HI' HG) as [??]. split_and!; [done..|by apply IH].
  - split; [done|]. intros c p' t2 [= <- <-].
    destruct (Hst (part c) _ (get t1) eq_refl) as (_ & _ & Hs).
    split_and!; [done|intros j _; apply (rely'_preorder j)|].
    eapply safe_peq; [|by apply IH; exact Hs].
    etrans; [apply translate_bind|]. apply peq_bind_cont. intros [l'|b]; apply peq_refl.
  - by split.
Qed.

Lemma spec_translate {A} i (P : S → Prop) (p : prog E A) Q :
  spec Inv Rely i P p Q → spec Inv' Rely' i (λ t, P (get t)) (translate f p) (λ a t, Q a (get t)).
Proof using f_step inv_get rely'_preorder rely_get.
  intros Hp n t HI HP. by apply safe_translate, Hp; [apply inv_get|].
Qed.

Lemma translate_stable i (P : S → Prop) :
  Stable Inv Rely i P → Stable Inv' Rely' i (λ t, P (get t)).
Proof using inv_get rely_get. intros HP s s' Hs Hr HI. eapply HP; eauto. Qed.
End safe_translate.
