(* ===== verification/Locks.v ===== *)
(** * Mutexes, deadlock freedom and termination under fairness

    No source of its own.  A discipline of mutexes as a type system on programs
    ([disciplined]): mutexes are taken in the order of their ranks and given back in
    reverse, and while one is held a task only does what cannot block.  What a
    semantics must satisfy is the class [LockSem].  Every interleaving keeps the
    discipline ([keeps_step]), and in a fair run every mutex is free again and
    again ([recurs_free]) and every program typed as [prompt] ends
    ([prompt_stops]). *)

From Stdlib Require Import Wellfounded.
From S2P Require Import Prelude Runtime.

(** ** Infinite runs *)

Section runs.
Context {E : Type → Type} {St : Type} `{!Sem E St} {R : Type}.

(** A run: a configuration and a label per instant; [None] is an instant at which
    nothing happens. *)
Record run_of (c0 : conf E St R) (cf : nat → conf E St R) (lab : nat → option (label E St)) :
    Prop := {
  run_start : cf 0 = c0;
  run_step n : match lab n with
               | None => cf (S n) = cf n
               | Some l => step l (cf n) = Some (cf (S n))
               end;
}.

(** Task [i] moves: it performs an effect or is dropped. *)
Definition moves (i : nat) (l : option (label E St)) : Prop :=
  match l with Some (Run j _) | Some (Cancel j) => j = i | None => False end.

#[export] Instance moves_dec i l : Decision (moves i l).
Proof. destruct l as [[j c|j]|]; simpl; apply _. Defined.

(** Task [i] has returned or panicked, or was dropped. *)
Definition stopped (cf : conf E St R) (i : nat) : Prop :=
  match tasks cf !! i with
  | None | Some (Ret _) | Some (Panic _) => True
  | Some _ => False
  end.

Variables (c0 : conf E St R) (cf : nat → conf E St R) (lab : nat → option (label E St)).
Hypothesis Hrun : run_of c0 cf lab.

Lemma run_reachable n : reachable c0 (cf n).
Proof using Hrun.
  induction n as [|n IH]; [rewrite (run_start _ _ _ Hrun); apply reach_refl|].
  pose proof (run_step _ _ _ Hrun n) as Hs. destruct (lab n) as [l|]; [|by rewrite Hs].
  by eapply reach_step.
Qed.

(** A task that does not move stays as it is. *)
Lemma still n i : ¬ moves i (lab n) → tasks (cf (S n)) !! i = tasks (cf n) !! i.
Proof using Hrun.
  pose proof (run_step _ _ _ Hrun n) as Hs. destruct (lab n) as [[j c|j]|]; simpl in *; [| |by rewrite Hs].
  - intros Hij. destruct (tasks (cf n) !! j) as [p|]; [|done]. simpl in Hs.
    destruct (step_prog j c p _) as [[p' s']|]; [|done]. injection Hs as <-. simpl.
    by rewrite lookup_insert_ne.
  - intros Hij. destruct (tasks (cf n) !! j) as [[]|]; simplify_eq/=; rewrite <- Hs; simpl;
      by rewrite lookup_delete_ne.
Qed.

(** From [n] to [m], task [i] moves or stays as it is. *)
Lemma first_move i n m :
  n ≤ m →
  (∃ k, n ≤ k < m ∧ moves i (lab k) ∧ tasks (cf k) !! i = tasks (cf n) !! i) ∨
  tasks (cf m) !! i = tasks (cf n) !! i.
Proof using Hrun.
  induction 1 as [|m Hle IH]; [by right|].
  destruct IH as [(k & ? & ?)|Hm]; [left; exists k; split; [lia|done]|].
  destruct (decide (moves i (lab m))) as [Hmv|Hmv]; [left; exists m; split; [lia|done]|].
  right. by rewrite still.
Qed.
End runs.

(** ** Effects and mutexes *)

(** What an effect does about mutexes and oneshot channels. *)
Inductive lock_kind (L X : Type) : Type :=
| Plain                                 (** it can always happen *)
| Takes (l : L)
| Gives (l : L)
| Touches (l : L)                       (** waits for the mutex, does not keep it *)
| Makes (f : X → nat)                   (** a new channel *)
| Needs (w : nat)                       (** can happen if the channel exists *)
| Blocks (outside : bool).              (** may wait for ever, for the outside or for a task *)
Arguments Plain {L X}.
Arguments Takes {L X} l.
Arguments Gives {L X} l.
Arguments Touches {L X} l.
Arguments Makes {L X} f.
Arguments Needs {L X} w.
Arguments Blocks {L X} outside.

Section kinds.
Context {L : Type} `{!EqDecision L}.

Definition owner_after {X} (i : nat) (kd : lock_kind L X) (o : L → option nat) (l : L) :
    option nat :=
  match kd with
  | Takes l' => if decide (l = l') then Some i else o l
  | Gives l' => if decide (l = l') then None else o l
  | _ => o l
  end.

(** The channels a task knows of and the mutexes it holds, the last one first. *)
Definition known_after {X} (kd : lock_kind L X) (x : X) (K : list nat) : list nat :=
  match kd with Makes f => f x :: K | _ => K end.
Definition held_after {X} (kd : lock_kind L X) (h : list L) : list L :=
  match kd with Takes l => l :: h | Gives _ => tail h | _ => h end.
End kinds.

(** It waits for the outside, which need not ever come. *)
Definition is_Blocks {L X} (kd : lock_kind L X) : bool :=
  match kd with Blocks outside => outside | _ => false end.

(** The semantics of effects, as far as mutexes go.  Mutexes are ranked: they are
    taken in increasing order. *)
Class LockSem (E : Type → Type) (St L : Type) `{!Sem E St} `{!EqDecision L} := {
  kind : ∀ X, E X → lock_kind L X;
  owner : St → L → option nat;
  known : St → nat → Prop;
  some_choice : choice E;
  rank : L → nat;
  max_rank : nat;
  rank_bound l : rank l < max_rank;
  eff_owner {X} i c (e : E X) s x s' l :
    do_eff i c e s = Some (x, s') → owner s' l = owner_after i (kind X e) (owner s) l;
  eff_free {X} i c (e : E X) s x s' :
    do_eff i c e s = Some (x, s') →
    match kind X e with Takes l | Touches l => owner s l = None | _ => True end;
  eff_enabled {X} i (e : E X) s :
    match kind X e with
    | Takes l | Touches l => owner s l = None
    | Needs w => known s w
    | Blocks _ => False
    | _ => True
    end → ∃ c, is_Some (do_eff i c e s);
  eff_known {X} i c (e : E X) s x s' w :
    do_eff i c e s = Some (x, s') → w ∈ known_after (kind X e) x [] ∨ known s w → known s' w;
  drop_owner i s l j : owner (on_drop i s) l = Some j ↔ i ≠ j ∧ owner s l = Some j;
  drop_known i s w : known s w → known (on_drop i s) w;
}.
Arguments kind {E St L _ _ _ X} e.
Arguments rank {E St L _ _ _} l.
Arguments max_rank E St L {_ _ _}.

(** ** The discipline *)

Section discipline.
Context {E : Type → Type} {St L : Type} `{LockSem E St L}.

(** What an effect may do while the mutexes [h] are held; a [prompt] task never does
    what may block. *)
Definition may {X} (prompt : bool) (K : list nat) (h : list L) (kd : lock_kind L X) : Prop :=
  match kd with
  | Takes l | Touches l => ∀ l', l' ∈ h → rank l' < rank l
  | Gives l => head h = Some l
  | Needs w => w ∈ K
  | Blocks _ => prompt = false ∧ h = []
  | Plain | Makes _ => True
  end.

(** One iteration of a loop, then the rest. *)
Definition unroll {A S B} (body : S → prog E (S + B)) (s : S) (k : B → prog E A) : prog E A :=
  prog_bind (body s) (λ r, match r with inl s' => Loop body s' k | inr b => k b end).

(** [tame prompt Q K h p]: program [p] keeps the discipline from a point where it knows
    the channels [K] and holds [h]; it returns at points with [Q].  A loop may go on
    for ever only where nothing is held, and in a [prompt] program not at all. *)
Inductive tame {A} (prompt : bool) (Q : list L → A → Prop) (K : list nat) (h : list L) :
    prog E A → Prop :=
| tame_ret a : Q h a → tame prompt Q K h (Ret a)
| tame_panic m : h = [] → tame prompt Q K h (Panic m)
| tame_vis {X} (e : E X) k :
    may prompt K h (kind e) →
    (∀ x, tame prompt Q (known_after (kind e) x K) (held_after (kind e) h) (k x)) →
    tame prompt Q K h (Vis e k)
| tame_loop {S B} (body : S → prog E (S + B)) s k :
    prompt = false → h = [] →
    (∀ s, tame prompt (λ h' _, h' = []) K [] (body s)) → (∀ b, tame prompt Q K h (k b)) →
    tame prompt Q K h (Loop body s k)
| tame_unroll {S B} (body : S → prog E (S + B)) s k :
    tame prompt Q K h (unroll body s k) → tame prompt Q K h (Loop body s k).

Lemma known_after_sub {X} (kd : lock_kind L X) x K K' :
  K ⊆ K' → known_after kd x K ⊆ known_after kd x K'.
Proof using Type. destruct kd; simpl; set_solver. Qed.

Lemma may_sub {X} b K K' h (kd : lock_kind L X) : K ⊆ K' → may b K h kd → may b K' h kd.
Proof using Type. destruct kd; simpl; set_solver. Qed.

Lemma tame_weaken {A} b (Q : list L → A → Prop) K K' h p :
  K ⊆ K' → tame b Q K h p → tame b Q K' h p.
Proof using Type.
  intros HK Hp. revert K' HK.
  induction Hp as [A b Q K h a|A b Q K h m|A b Q K h X e k Hm _ IH
    |A b Q K h S B body s k ? ? _ IHb _ IHk|A b Q K h S B body s k _ IH]; intros K' HK.
  - by apply tame_ret.
  - by apply tame_panic.
  - apply tame_vis; [by eapply may_sub|]. intros x. by apply IH, known_after_sub.
  - apply tame_loop; auto.
  - apply tame_unroll; auto.
Qed.

Lemma tame_peq {A} b (Q : list L → A → Prop) K h p q : tame b Q K h p → peq p q → tame b Q K h q.
Proof using Type.
  intros Hp. revert q.
  induction Hp as [A b Q K h a|A b Q K h m|A b Q K h X e k Hm _ IH
    |A b Q K h S B body s k ? ? Hb _ _ IHk|A b Q K h S B body s k _ IH]; intros q Hq%peq_inv.
  - subst. by apply tame_ret.
  - subst. by apply tame_panic.
  - destruct Hq as (k' & -> & Hk). apply tame_vis; [done|]. intros x. by apply IH.
  - destruct Hq as (k' & -> & Hk). apply tame_loop; [done|done|exact Hb|]. intros x. by eapply IHk.
  - destruct Hq as (k' & -> & Hk). apply tame_unroll, IH. apply peq_bind_cont.
    intros [s'|b']; [by constructor|done].
Qed.

(** A prompt program keeps the discipline of the others. *)
Lemma tame_relax {A} b (Q : list L → A → Prop) K h p : tame b Q K h p → tame false Q K h p.
Proof using Type.
  induction 1 as [A b Q K h a|A b Q K h m|A b Q K h X e k Hm _ IH
    |A b Q K h S B body s k ? ? _ IHb _ IHk|A b Q K h S B body s k _ IH].
  - by apply tame_ret.
  - by apply tame_panic.
  - apply tame_vis; [destruct (kind e); naive_solver|done].
  - by apply tame_loop.
  - by apply tame_unroll.
Qed.

(** What the next effect may do. *)
Lemma tame_head {A} b (Q : list L → A → Prop) K h p :
  tame b Q K h p → match p with Vis e _ => may b K h (kind e) | _ => True end.
Proof using Type. by destruct 1. Qed.

Lemma known_after_mono {X} (kd : lock_kind L X) x K : K ⊆ known_after kd x K.
Proof using Type. destruct kd; simpl; set_solver. Qed.

Lemma tame_bind {A B} b (Q : list L → A → Prop) (R : list L → B → Prop) K h p f :
  tame b Q K h p → (∀ K' h' a, K ⊆ K' → Q h' a → tame b R K' h' (f a)) →
  tame b R K h (prog_bind p f).
Proof using Type.
  intros Hp. revert B R f.
  induction Hp as [A b Q K h a|A b Q K h m|A b Q K h X e k Hm _ IH
    |A b Q K h S B' body s k ? ? Hb _ _ IHk|A b Q K h S B' body s k _ IH]; intros B R f Hf; simpl.
  - by apply Hf.
  - by apply tame_panic.
  - apply tame_vis; [done|]. intros x. apply IH. intros K' h' a HK. apply Hf.
    pose proof (known_after_mono (kind e) x K). set_solver.
  - apply tame_loop; [done|done|exact Hb|auto].
  - apply tame_unroll. eapply tame_peq; [by apply IH|]. apply peq_bind_assoc.
    intros [s'|b']; apply peq_refl.
Qed.

(** A part that keeps what is held. *)
Lemma tame_seq {A B} b (R : list L → B → Prop) K h (p : prog E A) f :
  tame b (λ h' _, h' = h) K h p → (∀ a, tame b R K h (f a)) → tame b R K h (p ≫= f).
Proof using Type.
  intros Hp Hf. eapply tame_bind; [exact Hp|]. intros K' h' a HK ->. by eapply tame_weaken.
Qed.

Lemma tame_for {X} b K h (l : list X) f :
  (∀ x, tame b (λ h' _, h' = h) K h (f x)) → tame b (λ h' _, h' = h) K h (prog_for l f).
Proof using Type.
  intros Hf. induction l as [|x l IH]; [by apply tame_ret|]. simpl. by apply tame_seq.
Qed.

(** A loop that comes to an end: [m] decreases in every iteration. *)
Lemma tame_measure {A S B} b (Q : list L → A → Prop) K h (m : S → nat)
    (body : S → prog E (S + B)) k s :
  (∀ s, tame b (λ h' r, h' = h ∧ match r with inl s' => m s' < m s | inr _ => True end) K h (body s)) →
  (∀ b', tame b Q K h (k b')) → tame b Q K h (Loop body s k).
Proof using Type.
  intros Hb Hk. induction s as [s IH] using (well_founded_induction (wf_inverse_image _ _ _ m lt_wf)).
  apply tame_unroll. eapply tame_bind; [apply Hb|]. intros K' h' [s'|b'] HK [-> Hr];
    (eapply tame_weaken; [exact HK|]); [by apply IH|apply Hk].
Qed.

(** What is left of a task until it holds nothing or, when it is prompt, until it ends:
    finitely many steps. *)
Inductive ends {A} (prompt : bool) : list nat → list L → prog E A → Prop :=
| ends_ret K a : ends prompt K [] (Ret a)
| ends_panic K m : ends prompt K [] (Panic m)
| ends_vis {X} K h (e : E X) k :
    may prompt K h (kind e) →
    (∀ x, ends prompt (known_after (kind e) x K) (held_after (kind e) h) (k x)) →
    ends prompt K h (Vis e k)
| ends_loop {S B} K (body : S → prog E (S + B)) s k :
    prompt = false → ends prompt K [] (Loop body s k)
| ends_unroll {S B} K h (body : S → prog E (S + B)) s k :
    ends prompt K h (unroll body s k) → ends prompt K h (Loop body s k).

Lemma tame_ends {A} b (Q : list L → A → Prop) K h p :
  tame b Q K h p → (∀ h a, Q h a → h = []) → ends b K h p.
Proof using Type.
  induction 1 as [A b Q K h a Ha|A b Q K h m ->|A b Q K h X e k Hm _ IH
    |A b Q K h S B body s k ? -> _ _ _ _|A b Q K h S B body s k _ IH]; intros HQ.
  - rewrite (HQ h a Ha). by apply ends_ret.
  - by apply ends_panic.
  - apply ends_vis; auto.
  - by apply ends_loop.
  - apply ends_unroll. auto.
Qed.
End discipline.

(** A program inside a larger semantics keeps its discipline. *)
Section translate.
Context {E F : Type → Type} {St T L : Type} `{EqDecision L}.
Context `{!Sem E St, !Sem F T, !LockSem E St L, !LockSem F T L} (into : ∀ X, E X → F X).
Hypothesis into_kind : ∀ X (e : E X), kind (St := T) (into X e) = kind (St := St) e.
Hypothesis into_rank : ∀ l l' : L, rank (E := E) (St := St) l < rank (E := E) (St := St) l' →
  rank (E := F) (St := T) l < rank (E := F) (St := T) l'.

Lemma may_translate {X} b K h (e : E X) :
  may (E := E) (St := St) b K h (kind e) → may (E := F) (St := T) b K h (kind (into X e)).
Proof using into_kind into_rank. rewrite into_kind. destruct (kind e); simpl; auto. Qed.

Lemma tame_translate {A} b (Q : list L → A → Prop) K h (p : prog E A) :
  tame (St := St) b Q K h p → tame (St := T) b Q K h (translate into p).
Proof using into_kind into_rank.
  induction 1 as [A b Q K h a|A b Q K h m|A b Q K h X e k Hm _ IH
    |A b Q K h S B body s k ? ? _ IHb _ IHk|A b Q K h S B body s k _ IH]; simpl.
  - by apply tame_ret.
  - by apply tame_panic.
  - apply tame_vis; [by apply may_translate|]. intros x. rewrite into_kind. apply IH.
  - by apply tame_loop.
  - apply tame_unroll. eapply tame_peq; [exact IH|]. etrans; [apply translate_bind|].
    apply peq_bind_cont. intros [s'|b']; apply peq_refl.
Qed.
End translate.

(** ** Every interleaving keeps the discipline *)

Section keeps.
Context {E : Type → Type} {St L : Type} `{LockSem E St L} {R : Type}.

(** What the state says of a task that knows [K] and holds [h]. *)
Record holding (s : St) (i : nat) (K : list nat) (h : list L) : Prop := {
  hold_known w : w ∈ K → known s w;
  hold_owner l : owner s l = Some i ↔ l ∈ h;
  hold_nodup : NoDup h;
}.

(** Every task keeps the discipline, the prompt ones promptly, and mutexes are held by
    tasks that are there. *)
Record tamed (prompt : nat → bool) (cf : conf E St R) : Prop := {
  tamed_task i p :
    tasks cf !! i = Some p →
    ∃ K h, tame (prompt i) (λ h' _, h' = []) K h p ∧ holding (shared cf) i K h;
  tamed_owner l i : owner (shared cf) l = Some i → is_Some (tasks cf !! i);
}.

(** Task [i]'s own effect. *)
Lemma holding_eff {X} i c (e : E X) s x s' b K h :
  may b K h (kind e) → holding s i K h → do_eff i c e s = Some (x, s') →
  holding s' i (known_after (kind e) x K) (held_after (kind e) h).
Proof using Type.
  intros Hm [HK Ho Hn] Hd. split.
  - intros w Hw. eapply eff_known; [exact Hd|]. destruct (kind e); simpl in *; auto.
    apply elem_of_cons in Hw as [->|?]; [left; by left|auto].
  - intros l. rewrite (eff_owner _ _ _ _ _ _ _ Hd). specialize (Ho l).
    destruct (kind e) as [|l'|l'|l'| | |]; simpl; try done.
    + rewrite elem_of_cons. case_decide; [naive_solver|]. rewrite Ho. naive_solver.
    + destruct h as [|l1 h]; simpl in *; [done|]. injection Hm as ->. apply NoDup_cons in Hn as [Hn _].
      rewrite elem_of_cons in Ho. case_decide; [subst|]; naive_solver.
  - pose proof (eff_free i c e s x s' Hd) as Hf.
    destruct (kind e) as [|l'|l'|l'| | |]; simpl; try done; [|by destruct Hn].
    apply NoDup_cons. split; [|done]. rewrite <- Ho. congruence.
Qed.

(** The mutexes of others. *)
Lemma eff_others {X} i j c (e : E X) s x s' b K h l :
  i ≠ j → may b K h (kind e) → holding s i K h → do_eff i c e s = Some (x, s') →
  owner s' l = Some j ↔ owner s l = Some j.
Proof using Type.
  intros Hij Hm [_ Ho _] Hd. rewrite (eff_owner _ _ _ _ _ _ _ Hd).
  pose proof (eff_free i c e s x s' Hd) as Hf.
  destruct (kind e) as [|l'|l'|l'| | |]; simpl; try done; simpl in Hm; (case_decide; [subst l'|done]).
  - split; congruence.
  - destruct h as [|l1 h]; [done|]. injection Hm as ->.
    assert (owner s l = Some i) as -> by (apply Ho; by left). split; congruence.
Qed.

(** A step of a task that keeps the discipline. *)
Lemma tame_step {A} b i c (p p' : prog E A) (Q : list L → A → Prop) K h s s' :
  tame b Q K h p → holding s i K h → step_prog i c p s = Some (p', s') →
  (∃ K' h', tame b Q K' h' p' ∧ holding s' i K' h') ∧
  (∀ w, known s w → known s' w) ∧ ∀ j l, i ≠ j → owner s' l = Some j ↔ owner s l = Some j.
Proof using Type.
  intros Hp Hh Hst. destruct Hp as [a HQ|m Hm|X e k Hm Hk|S B body l k Hb Hn Hbody Hk|S B body l k Hu]; try done.
  - simpl in Hst. destruct (do_eff i c e s) as [[x s1]|] eqn:Hd; [|done]. injection Hst as <- <-. split_and!.
    + eexists _, _. split; [apply Hk|by eapply holding_eff].
    + intros w Hw. eapply eff_known; [exact Hd|by right].
    + intros j l' Hij. by eapply eff_others.
  - injection Hst as <- <-. split; [|done]. exists K, h. split; [|done]. subst h.
    apply tame_seq; [apply Hbody|]. intros [l'|b']; [by apply tame_loop|apply Hk].
  - injection Hst as <- <-. split; [|done]. by exists K, h.
Qed.

Lemma holding_others (s s' : St) j K h :
  (∀ w, known s w → known s' w) → (∀ l, owner s' l = Some j ↔ owner s l = Some j) →
  holding s j K h → holding s' j K h.
Proof using Type. intros Hw Hl [HK Ho Hn]. split; [auto| |done]. intros l. by rewrite Hl. Qed.

Lemma tamed_step prompt cf l cf' : tamed prompt cf → step l cf = Some cf' → tamed prompt cf'.
Proof using Type.
  intros [Ht Ho] Hst. destruct l as [i c|i]; simpl in Hst;
    destruct (tasks cf !! i) as [p|] eqn:Hp; try done; simpl in Hst.
  - destruct (step_prog i c p (shared cf)) as [[p' s']|] eqn:Hs; [|done]. injection Hst as <-.
    destruct (Ht i p Hp) as (K & h & Hpt & Hh).
    destruct (tame_step _ _ _ _ _ _ _ _ _ _ Hpt Hh Hs) as (Hi & Hw & Hl). split; simpl.
    + intros j q. destruct (decide (i = j)) as [<-|Hij]; [rewrite lookup_insert_eq; by intros [= <-]|].
      rewrite lookup_insert_ne by done. intros Hq. destruct (Ht j q Hq) as (Kj & hj & Hqt & Hhj).
      exists Kj, hj. split; [done|]. eapply holding_others; [done| |done]. intros l. by apply Hl.
    + intros l j Hj. destruct (decide (i = j)) as [<-|Hij]; [by rewrite lookup_insert_eq|].
      rewrite lookup_insert_ne by done. apply (Ho l). by apply Hl.
  - assert (cf' = Conf (delete i (tasks cf)) (on_drop i (shared cf))) as -> by (by destruct p; simplify_eq).
    split; simpl.
    + intros j q [Hij Hq]%lookup_delete_Some. destruct (Ht j q Hq) as (K & h & Hqt & Hh).
      exists K, h. split; [done|]. eapply holding_others; [apply drop_known| |done].
      intros l. rewrite drop_owner. naive_solver.
    + intros l j [Hij Hj]%drop_owner. rewrite lookup_delete_ne by done. by apply (Ho l).
Qed.

Lemma tamed_reachable prompt c0 cf : tamed prompt c0 → reachable c0 cf → tamed prompt cf.
Proof using Type. intros H0 Hr. induction Hr; eauto using tamed_step. Qed.

(** One task that is prompt, whatever is known of the others. *)
Lemma tamed_focus prompt cf i :
  tamed prompt cf →
  (∀ p, tasks cf !! i = Some p → ∃ K h, tame true (λ h' _, h' = []) K h p ∧ holding (shared cf) i K h) →
  tamed (λ j, bool_decide (j = i)) cf.
Proof using Type.
  intros [Ht Ho] Hi. split; [|done]. intros j p Hp. case_bool_decide as Hj; [subst j; by apply Hi|].
  destruct (Ht j p Hp) as (K & h & Hpt & Hh). exists K, h. split; [by eapply tame_relax|done].
Qed.

(** *** What a task that does not move sees of the steps of others *)

Lemma others_step prompt l cf cf' j K h :
  tamed prompt cf → step l cf = Some cf' → ¬ moves j (Some l) →
  holding (shared cf) j K h → holding (shared cf') j K h.
Proof using Type.
  intros [Ht _] Hst Hm. destruct l as [i c|i]; simpl in Hst, Hm;
    destruct (tasks cf !! i) as [p|] eqn:Hp; try done; simpl in Hst.
  - destruct (step_prog i c p (shared cf)) as [[p' s']|] eqn:Hs; [|done]. injection Hst as <-.
    destruct (Ht i p Hp) as (Ki & hi & Hpt & Hh).
    destruct (tame_step _ _ _ _ _ _ _ _ _ _ Hpt Hh Hs) as (_ & Hw & Hl).
    apply holding_others; [done|]. intros l. by apply Hl.
  - assert (cf' = Conf (delete i (tasks cf)) (on_drop i (shared cf))) as -> by (by destruct p; simplify_eq).
    apply holding_others; [apply drop_known|]. intros l. simpl. rewrite drop_owner. naive_solver.
Qed.
End keeps.

(** ** Fair runs *)

Section fair.
Context {E : Type → Type} {St L : Type} `{LockSem E St L} {R : Type}.

Definition can_run {A} (i : nat) (p : prog E A) (s : St) : Prop :=
  ∃ c, is_Some (step_prog i c p s).

(** Whether the next effect may wait for ever. *)
Definition may_block {A} (p : prog E A) : bool :=
  match p with Vis e _ => is_Blocks (kind e) | _ => false end.

(** Task [i] can go on, with an effect that does not wait for the outside. *)
Definition ready (cf : conf E St R) (i : nat) : Prop :=
  ∃ p, tasks cf !! i = Some p ∧ may_block p = false ∧ can_run i p (shared cf).

(** A fair run: from any instant on every task moves, or a time comes after which it is
    never ready.  (A mutex that is free again and again is got: they are fifo.) *)
Definition fair (cf : nat → conf E St R) (lab : nat → option (label E St)) : Prop :=
  ∀ i n, ∃ m, n ≤ m ∧ (moves i (lab m) ∨ ∀ k, m ≤ k → ¬ ready (cf k) i).

Variables (prompt : nat → bool).
Variables (c0 : conf E St R) (cf : nat → conf E St R) (lab : nat → option (label E St)).
Hypothesis Hrun : run_of c0 cf lab.
Hypothesis Hfair : fair cf lab.
Hypothesis Htamed : tamed prompt c0.

Lemma run_tamed n : tamed prompt (cf n).
Proof using Hrun Htamed. eapply tamed_reachable; [exact Htamed|]. by eapply run_reachable. Qed.

(** Where task [i] is at instant [n]. *)
Record at_point (n i : nat) (p : prog E R) (K : list nat) (h : list L) : Prop := {
  at_task : tasks (cf n) !! i = Some p;
  at_holding : holding (shared (cf n)) i K h;
}.

Lemma at_still n i p K h : at_point n i p K h → ¬ moves i (lab n) → at_point (S n) i p K h.
Proof using Hrun Htamed.
  intros [Ht Hh] Hm. split; [by rewrite (still _ _ _ Hrun n i Hm)|].
  pose proof (run_step _ _ _ Hrun n) as Hs. destruct (lab n) as [l|]; [|by rewrite Hs].
  eapply others_step; [apply (run_tamed n)|done..].
Qed.

(** From [n] to [m] it moves, or it is still there. *)
Lemma at_first_move n m i p K h :
  at_point n i p K h → n ≤ m →
  (∃ k, n ≤ k ∧ moves i (lab k) ∧ at_point k i p K h) ∨ at_point m i p K h.
Proof using Hrun Htamed.
  intros Hp. induction 1 as [|m Hle [(k & ?)|Hm]]; [by right|by left; exists k|].
  destruct (decide (moves i (lab m))) as [Hmv|Hmv]; [left; by exists m|].
  right. by apply at_still.
Qed.

(** A task that can go on again and again moves. *)
Lemma at_moves n i p K h :
  at_point n i p K h → may_block p = false →
  (∀ n', n ≤ n' → ∃ k, n' ≤ k ∧ (at_point k i p K h → can_run i p (shared (cf k)))) →
  ∃ m, n ≤ m ∧ moves i (lab m) ∧ at_point m i p K h.
Proof using Hfair Hrun Htamed.
  intros Hp Hb Hen. destruct (Hfair i n) as (m0 & Hle & Hm0).
  destruct (at_first_move n m0 i p K h Hp Hle) as [?|Hp0]; [done|].
  destruct Hm0 as [Hmv|Hnever]; [by exists m0|].
  destruct (Hen m0 Hle) as (k & Hk & Hcan).
  destruct (at_first_move m0 k i p K h Hp0 Hk) as [(k' & ? & ?)|Hpk]; [exists k'; split; [lia|done]|].
  exfalso. apply (Hnever k Hk). exists p. split_and!; [by apply Hpk|done|auto].
Qed.

(** What the move was. *)
Lemma at_moved n i p K h :
  at_point n i p K h → moves i (lab n) →
  (tasks (cf (S n)) !! i = None ∧ ∀ l, l ∈ h → owner (shared (cf (S n))) l = None) ∨
  match p with
  | Ret _ | Panic _ => False
  | Vis e k => ∀ b, may b K h (kind e) →
      ∃ x, at_point (S n) i (k x) (known_after (kind e) x K) (held_after (kind e) h) ∧
        ∀ l, l ∈ h → l ∉ held_after (kind e) h → owner (shared (cf (S n))) l = None
  | Loop body s k => at_point (S n) i (unroll body s k) K h
  end.
Proof using Hfair Hrun Htamed.
  intros [Ht Hh] Hm. pose proof (run_step _ _ _ Hrun n) as Hs.
  destruct (lab n) as [[j c|j]|]; simpl in Hm; [subst j..|done]; simpl in Hs; rewrite Ht in Hs; simpl in Hs.
  - right. destruct p as [a|X e k|S B body s k|m]; simpl in Hs; try done.
    + intros b Hmay. destruct (do_eff i c e (shared (cf n))) as [[x s']|] eqn:Hd; [|done].
      injection Hs as Hs. exists x. split; [split|]; rewrite <- Hs; simpl.
      * by rewrite lookup_insert_eq.
      * by eapply holding_eff.
      * intros l Hin Hno. rewrite (eff_owner _ _ _ _ _ _ _ Hd).
        destruct (kind e) as [|l'|l'|l'| | |]; simpl in *; try done; [set_solver|].
        destruct h as [|l1 h]; [done|]. injection Hmay as ->. case_decide; [done|]. set_solver.
    + injection Hs as Hs. split; rewrite <- Hs; simpl; [by rewrite lookup_insert_eq|done].
  - left. assert (cf (S n) = Conf (delete i (tasks (cf n))) (on_drop i (shared (cf n)))) as ->
      by (by destruct p; simplify_eq). simpl. split; [by rewrite lookup_delete_eq|].
    intros l Hl. destruct (owner (on_drop i (shared (cf n))) l) as [j|] eqn:Hj; [|done].
    apply drop_owner in Hj as [Hij Hj]. apply (hold_owner _ _ _ _ Hh) in Hl. congruence.
Qed.

(** *** Every mutex is free again and again *)

(** Above a rank. *)
Definition recurs (r : nat) : Prop :=
  ∀ l n, r ≤ rank l → ∃ k, n ≤ k ∧ owner (shared (cf k)) l = None.

(** A typed effect can happen again and again, if the mutexes it asks for are free again
    and again. *)
Lemma eff_moves {X} n i (e : E X) k K h b :
  at_point n i (Vis e k) K h → may b K h (kind e) → (∀ o, kind e ≠ Blocks o) →
  (∀ l, kind e = Takes l ∨ kind e = Touches l → ∀ n, ∃ k, n ≤ k ∧ owner (shared (cf k)) l = None) →
  ∃ m, n ≤ m ∧ moves i (lab m) ∧ at_point m i (Vis e k) K h.
Proof using Hfair Hrun Htamed.
  intros Hp Hm Hb Hfree. apply at_moves; [done|simpl; destruct (kind e) as [| | | | | |o]; naive_solver|].
  assert (∀ s, (∃ c, is_Some (do_eff i c e s)) → can_run i (Vis e k) s) as Hcan.
  { intros s (c & [x s'] & Hd). exists c. simpl. by rewrite Hd. }
  intros n' Hn. pose proof (λ s, eff_enabled i e s) as Hen.
  destruct (kind e) as [|l|l|l|f|w|o] eqn:Hk; [..|by destruct (Hb o)];
    try (exists n'; split; [done|]; intros Hp'; apply Hcan, Hen; solve [done|by apply Hp']);
    (destruct (Hfree l ltac:(auto) n') as (k' & ? & ?); exists k'; split; [done|]; intros _; by apply Hcan, Hen).
Qed.

(** The head of a loop is passed. *)
Lemma loop_moves {S B} n i K h (body : S → prog E (S + B)) s k :
  at_point n i (Loop body s k) K h →
  ∃ m, n ≤ m ∧ moves i (lab m) ∧ at_point m i (Loop body s k) K h.
Proof using Hfair Hrun Htamed.
  intros Hat. apply at_moves; [done|done|]. intros n' Hn. exists n'. split; [done|].
  intros _. exists some_choice. by eexists.
Qed.

(** A task that holds a mutex gives it back. *)
Lemma ends_releases b K h p i l n :
  recurs (S (rank l)) → ends b K h p → at_point n i p K h → l ∈ h →
  ∃ k, n ≤ k ∧ owner (shared (cf k)) l = None.
Proof using Hfair Hrun Htamed.
  intros Hrec Hp. revert n.
  induction Hp as [K a|K m|X K h e k Hm _ IH|S B K body s k ?|S B K h body s k _ IH]; intros n Hat Hin;
    try by apply elem_of_nil in Hin.
  - destruct (eff_moves n i e k K h b Hat Hm) as (m & Hle & Hmv & Hatm).
    + intros o Hb. rewrite Hb in Hm. destruct Hm as [_ ->]. by apply elem_of_nil in Hin.
    + intros l' Hl'. destruct Hl' as [Hl'|Hl']; rewrite Hl' in Hm; simpl in Hm; intros n'; apply Hrec; by apply Hm.
    + destruct (at_moved m i _ K h Hatm Hmv) as [[_ Hno]|Hnext]; [exists (1 + m); split; [lia|auto]|].
      destruct (Hnext b Hm) as (x & Hatx & Hgone).
      destruct (decide (l ∈ held_after (kind e) h)) as [Hin'|Hno]; [|exists (1 + m); split; [lia|auto]].
      destruct (IH x (1 + m) Hatx Hin') as (k' & ? & ?). exists k'. split; [lia|done].
  - destruct (loop_moves n i K h body s k Hat) as (m & Hle & Hmv & Hatm).
    destruct (at_moved m i _ K h Hatm Hmv) as [[_ Hno]|Hnext]; [exists (1 + m); split; [lia|auto]|].
    destruct (IH (1 + m) Hnext Hin) as (k' & ? & ?). exists k'. split; [lia|done].
Qed.

Lemma recurs_from r : recurs r.
Proof using Hfair Hrun Htamed.
  remember (max_rank E St L - r) as d eqn:Hd. revert r Hd.
  induction d as [|d IH]; intros r Hd l n Hl.
  { pose proof (rank_bound (E:=E) (St:=St) l). lia. }
  destruct (owner (shared (cf n)) l) as [i|] eqn:Ho; [|by exists n].
  destruct (run_tamed n) as [Ht Hown]. destruct (Hown l i Ho) as [p Hp].
  destruct (Ht i p Hp) as (K & h & Hpt & Hh).
  eapply (ends_releases (prompt i) K h p i); [|by eapply tame_ends|by split|by apply Hh].
  intros l' n' Hl'. apply (IH (S r)); lia.
Qed.

(** In a fair run every mutex is free again and again. *)
Lemma recurs_free l n : ∃ k, n ≤ k ∧ owner (shared (cf k)) l = None.
Proof using Hfair Hrun Htamed. by apply (recurs_from (rank l)). Qed.

Lemma ends_stops K h p i n :
  ends true K h p → at_point n i p K h → ∃ k, n ≤ k ∧ stopped (cf k) i.
Proof using Hfair Hrun Htamed.
  intros Hp. revert n.
  assert (∀ m, tasks (cf m) !! i = None → stopped (cf m) i) as Hgone.
  { intros m Hm. unfold stopped. by rewrite Hm. }
  induction Hp as [K a|K m|X K h e k Hm _ IH|S B K body s k ?|S B K h body s k _ IH]; intros n Hat; try done.
  - exists n. split; [done|]. unfold stopped. by rewrite (at_task _ _ _ _ _ Hat).
  - exists n. split; [done|]. unfold stopped. by rewrite (at_task _ _ _ _ _ Hat).
  - destruct (eff_moves n i e k K h true Hat Hm) as (m & Hle & Hmv & Hatm).
    + intros o Hb. rewrite Hb in Hm. by destruct Hm.
    + intros l _. apply recurs_free.
    + destruct (at_moved m i _ K h Hatm Hmv) as [[? _]|Hnext]; [exists (1 + m); split; [lia|auto]|].
      destruct (Hnext true Hm) as (x & Hatx & _).
      destruct (IH x (1 + m) Hatx) as (k' & ? & ?). exists k'. split; [lia|done].
  - destruct (loop_moves n i K h body s k Hat) as (m & Hle & Hmv & Hatm).
    destruct (at_moved m i _ K h Hatm Hmv) as [[? _]|Hnext]; [exists (1 + m); split; [lia|auto]|].
    destruct (IH (1 + m) Hnext) as (k' & ? & ?). exists k'. split; [lia|done].
Qed.

(** In a fair run a prompt task ends. *)
Lemma prompt_stops i n : prompt i = true → ∃ k, n ≤ k ∧ stopped (cf k) i.
Proof using Hfair Hrun Htamed.
  intros Hi. destruct (tasks (cf n) !! i) as [p|] eqn:Hp.
  - destruct (tamed_task _ _ (run_tamed n) i p Hp) as (K & h & Hpt & Hh). rewrite Hi in Hpt.
    by eapply ends_stops; [eapply tame_ends; [exact Hpt|done]|split].
  - exists n. split; [done|]. unfold stopped. by rewrite Hp.
Qed.
End fair.

(** The rest of a run from an instant on. *)
Section later.
Context {E : Type → Type} {St L : Type} `{LockSem E St L} {R : Type}.
Variables (c0 : conf E St R) (cf : nat → conf E St R) (lab : nat → option (label E St)).

Lemma later_run n :
  run_of c0 cf lab → run_of (cf n) (λ k, cf (n + k)) (λ k, lab (n + k)).
Proof using Type.
  intros [_ Hs]. split; [by rewrite Nat.add_0_r|]. intros k. rewrite Nat.add_succ_r. apply Hs.
Qed.

Lemma later_fair n : fair cf lab → fair (λ k, cf (n + k)) (λ k, lab (n + k)).
Proof using Type.
  intros Hf i k. destruct (Hf i (n + k)) as (m & Hle & Hm). exists (m - n). split; [lia|].
  replace (n + (m - n)) with m by lia. destruct Hm as [?|Hn]; [by left|]. right. intros k' Hk. apply Hn. lia.
Qed.
End later.

(** *** Runs that come to rest *)

(** A finite schedule after which no task is ready, as a run. *)
Section rest.
Context {E : Type → Type} {St L : Type} `{LockSem E St L} {R : Type}.

Definition rest_run (ls : list (label E St)) (c0 : conf E St R) (n : nat) : conf E St R :=
  after (take n ls) c0.

Lemma run_labels_snoc ls l (c0 : conf E St R) :
  run_labels (ls ++ [l]) c0 = run_labels ls c0 ≫= step l.
Proof using Type.
  revert c0. induction ls as [|l' ls IH]; intros c0; simpl; [by destruct (step l c0)|].
  destruct (step l' c0) as [c1|]; [apply IH|done].
Qed.

Lemma run_labels_take ls (c0 c1 : conf E St R) n :
  run_labels ls c0 = Some c1 → is_Some (run_labels (take n ls) c0).
Proof using Type.
  revert n c0. induction ls as [|l ls IH]; intros [|n] c0; simpl; try by eexists.
  destruct (step l c0) as [c2|]; [apply IH|done].
Qed.

Lemma rest_is_run ls (c0 c1 : conf E St R) :
  run_labels ls c0 = Some c1 → run_of c0 (rest_run ls c0) (λ n, ls !! n).
Proof using Type.
  intros Hls. split; [done|]. intros n. unfold rest_run, after.
  destruct (run_labels_take ls c0 c1 n Hls) as [c2 Hn].
  destruct (run_labels_take ls c0 c1 (S n) Hls) as [c3 Hn'].
  destruct (ls !! n) as [l|] eqn:Hl.
  - rewrite (take_S_r _ _ _ Hl) in *. rewrite run_labels_snoc, Hn in Hn'. simpl in Hn'.
    rewrite Hn. simpl. by rewrite run_labels_snoc, Hn; simpl; rewrite Hn'.
  - apply lookup_ge_None in Hl. by rewrite !take_ge by lia.
Qed.

Lemma rest_is_fair ls (c0 c1 : conf E St R) :
  run_labels ls c0 = Some c1 → (∀ i, ¬ ready c1 i) → fair (rest_run ls c0) (λ n, ls !! n).
Proof using Type.
  intros Hls Hrest i n. exists (n + length ls). split; [lia|]. right. intros k Hk.
  unfold rest_run, after. rewrite take_ge by lia. by rewrite Hls.
Qed.

(** At rest: every task has ended or is at an effect that waits for the outside. *)
Definition at_rest (cf : conf E St R) : bool :=
  forallb (λ ip, match ip.2 with
                 | Ret _ | Panic _ => true
                 | Vis e _ => is_Blocks (kind e)
                 | Loop _ _ _ => false
                 end) (map_to_list (tasks cf)).

Lemma at_rest_ready cf i : at_rest cf = true → ¬ ready cf i.
Proof using Type.
  unfold at_rest. rewrite forallb_forall. intros Hall (p & Hp & Hb & c & [q Hq]).
  assert (In (i, p) (map_to_list (tasks cf))) as Hin by by apply list_elem_of_In, elem_of_map_to_list.
  specialize (Hall _ Hin). by destruct p; simpl in *; congruence.
Qed.

Lemma rest_fair_run ls (c0 : conf E St R) :
  match run_labels ls c0 with Some c1 => at_rest c1 | None => false end = true →
  run_of c0 (rest_run ls c0) (λ n, ls !! n) ∧ fair (rest_run ls c0) (λ n, ls !! n).
Proof using Type.
  destruct (run_labels ls c0) as [c1|] eqn:Hls; [|done]. intros Hr.
  split; [by eapply rest_is_run|]. eapply rest_is_fair; [done|]. intros i. by apply at_rest_ready.
Qed.
End rest.
