(* ===== verification/Errors.v ===== *)
(** * The error taxonomy ([src/errors.rs], [clone_kind] of [src/dongle.rs])

    [ClientError] with its thiserror messages, the retryability test, the mapping
    of wire error codes, and the lossy copy recorded in a retry log. *)

From S2P Require Import Prelude.

(** A [std::io::Error]: the crate only ever displays it. *)
Record io_error := IoError { io_display : string }.

(** [donglora_protocol::ErrorCode], as the exhaustive match of [from_wire] lists it. *)
Inductive ErrorCode :=
| ENotConfigured | EBusy | EParam | ELength | EModulation
| EUnknownCmd | ERadio | EFrame | EInternal
| Unknown (raw : Z).

Inductive ClientError :=
| NotConfigured
| Busy
| Param
| Length
| ModulationError
| UnknownCmd
| Radio
| Frame
| Internal
| UnknownCode (raw : Z)
| ChannelBusy
| Cancelled
| TimedOut (what : string)
| TransportClosed (msg : string)
| ReaderExited
| BadFrame (msg : string)
| EncodeFailed (msg : string)
| Io (e : io_error)
| ConfigNotSupported (reason : string)
| Other (msg : string).

#[export] Instance io_error_eq_dec : EqDecision io_error.
Proof. solve_decision. Defined.
#[export] Instance ErrorCode_eq_dec : EqDecision ErrorCode.
Proof. solve_decision. Defined.
#[export] Instance ClientError_eq_dec : EqDecision ClientError.
Proof. solve_decision. Defined.

Abbreviation ClientResult T := (result T ClientError).

(** The [#[error("..")]] attributes. *)
Definition display (e : ClientError) : string :=
  match e with
  | NotConfigured => "device is not configured (ENOTCONFIGURED)"
  | Busy => "firmware TX queue is full (EBUSY)"
  | Param => "parameter out of range (EPARAM)"
  | Length => "payload length wrong (ELENGTH)"
  | ModulationError => "modulation not supported (EMODULATION)"
  | UnknownCmd => "unknown command (EUNKNOWN_CMD)"
  | Radio => "radio hardware error (ERADIO)"
  | Frame => "framing error (EFRAME)"
  | Internal => "firmware internal error (EINTERNAL)"
  | UnknownCode raw => "unknown error code 0x" +:+ show_hex 4 raw
  | ChannelBusy => "channel busy — CAD detected activity"
  | Cancelled => "TX cancelled before airtime"
  | TimedOut what => "timed out waiting for " +:+ what
  | TransportClosed msg => "transport closed: " +:+ msg
  | ReaderExited => "session reader exited"
  | BadFrame msg => "inbound frame corrupted: " +:+ msg
  | EncodeFailed msg => "frame encode failed: " +:+ msg
  | Io e => "I/O error: " +:+ io_display e
  | ConfigNotSupported reason => "config not supported by device: " +:+ reason
  | Other msg => msg
  end.

Definition is_retryable (e : ClientError) : bool :=
  match e with ChannelBusy | Busy => true | _ => false end.

Definition from_wire (code : ErrorCode) : ClientError :=
  match code with
  | ENotConfigured => NotConfigured
  | EBusy => Busy
  | EParam => Param
  | ELength => Length
  | EModulation => ModulationError
  | EUnknownCmd => UnknownCmd
  | ERadio => Radio
  | EFrame => Frame
  | EInternal => Internal
  | Unknown raw => UnknownCode raw
  end.

Definition clone_kind (e : ClientError) : ClientError :=
  match e with
  | NotConfigured => NotConfigured
  | Busy => Busy
  | Param => Param
  | Length => Length
  | ModulationError => ModulationError
  | UnknownCmd => UnknownCmd
  | Radio => Radio
  | Frame => Frame
  | Internal => Internal
  | UnknownCode c => UnknownCode c
  | ChannelBusy => ChannelBusy
  | Cancelled => Cancelled
  | TimedOut what => TimedOut what
  | TransportClosed s => TransportClosed s
  | ReaderExited => ReaderExited
  | BadFrame s => BadFrame s
  | EncodeFailed s => EncodeFailed s
  | Io e => Other ("io: " +:+ io_display e)
  | ConfigNotSupported reason => ConfigNotSupported reason
  | Other s => Other s
  end.

(** ** Lemmas *)

#[export] Instance from_wire_inj : Inj (=) (=) from_wire.
Proof. intros [] [] [=]; by subst. Qed.

Lemma from_wire_retryable c : is_retryable (from_wire c) = true ↔ c = EBusy.
Proof. by destruct c. Qed.

(** The retry log never changes the class of an error: the copy decides retry
    the same way, equals the original unless that was an I/O error, and copying
    again changes nothing. *)
Lemma clone_kind_spec e :
  is_retryable (clone_kind e) = is_retryable e ∧
  clone_kind (clone_kind e) = clone_kind e ∧
  (clone_kind e = e ∨ ∃ io, e = Io io ∧ clone_kind e = Other ("io: " +:+ io_display io)).
Proof. destruct e; naive_solver. Qed.
