(* ===== verification/Tokio.v ===== *)
(** * [AsyncWriteExt::write_all] of tokio

    [write_all] is code of the I/O runtime, so it is a parameter: any program that
    behaves as its documentation says.  It writes the buffer by repeated writes of
    what is left, each of which may accept only a part; it ends when nothing is
    left, and fails at the first write that fails or accepts nothing
    ([ErrorKind::WriteZero]). *)

From Stdlib Require Export Strings.Byte.
From S2P Require Import Prelude Runtime Errors.

(** [writes_all write bs p]: the program [p] writes the buffer [bs] as documented,
    each write being the effect [write] on what is left. *)
Inductive writes_all {E : Type → Type} (write : list byte → E (result nat io_error)) :
    list byte → prog E (result unit io_error) → Prop :=
| writes_nothing : writes_all write [] (Ret (Ok tt))
| writes_some bs k zero :
    bs ≠ [] →
    (∀ e, k (Err e) = Ret (Err e)) →
    k (Ok O) = Ret (Err zero) →
    (∀ n, writes_all write (drop (S n) bs) (k (Ok (S n)))) →
    writes_all write bs (Vis (write bs) k).

Class AsyncWriteExt := {
  write_all {E : Type → Type} (write : list byte → E (result nat io_error)) :
    list byte → prog E (result unit io_error);
  write_all_writes {E : Type → Type} (write : list byte → E (result nat io_error)) bs :
    writes_all write bs (write_all write bs);
}.

(** It does nothing but write: what holds of a program that returns, and is kept by
    one more write, holds of [write_all]. *)
Lemma write_all_ind `{AsyncWriteExt} {E : Type → Type} write
    (P : prog E (result unit io_error) → Prop) :
  (∀ r, P (Ret r)) → (∀ bs k, (∀ r, P (k r)) → P (Vis (write bs) k)) →
  ∀ bs, P (write_all write bs).
Proof.
  intros Hret Hvis bs. induction (write_all_writes write bs) as [|bs k zero _ He Hz _ IH]; [done|].
  apply Hvis. intros [[|n]|e]; rewrite ?Hz, ?He; auto.
Qed.

Lemma uses_write_all `{AsyncWriteExt} {E : Type → Type} (ok : ∀ X, E X → Prop) write bs :
  (∀ bs, ok _ (write bs)) → uses ok (write_all write bs).
Proof. intros Hok. apply write_all_ind; by constructor. Qed.

(** ** An instance for the witnesses *)

Fixpoint demo_write_all {E : Type → Type} (write : list byte → E (result nat io_error))
    (fuel : nat) (bs : list byte) : prog E (result unit io_error) :=
  match fuel, bs with
  | S fuel, _ :: _ => Vis (write bs) (λ r,
      match r with
      | Err e => Ret (Err e)
      | Ok O => Ret (Err (IoError "failed to write whole buffer"))
      | Ok (S n) => demo_write_all write fuel (drop (S n) bs)
      end)
  | _, _ => Ret (Ok tt)
  end.

Lemma demo_writes_all {E : Type → Type} (write : list byte → E (result nat io_error)) fuel bs :
  (length bs ≤ fuel)%nat → writes_all write bs (demo_write_all write fuel bs).
Proof.
  revert bs. induction fuel as [|fuel IH]; intros [|b bs] Hl; cbn in *;
    [constructor|lia|constructor|].
  apply writes_some with (zero := IoError "failed to write whole buffer"); [done..|].
  intros n. apply IH. rewrite length_skipn. lia.
Qed.

#[export] Instance demo_tokio : AsyncWriteExt := {
  write_all _ write bs := demo_write_all write (length bs) bs;
  write_all_writes _ write bs := demo_writes_all write (length bs) bs (le_n _);
}.
