(* ===== verification/Protocol.v ===== *)
(** * The interface of the [donglora-protocol] crate

    The wire crate is not part of this repository, so what the client uses of it
    is a parameter: the class [WireTypes] has the enums the client never looks
    into, [Wire] the codec functions and the constants, and tokio's [write_all]
    ([Tokio.v]), by which the frames are written.  The record types follow
    the complete struct literals in the repository's own tests, and the sum types
    the exhaustive matches in the client. *)

From S2P Require Import Prelude Runtime Errors.
From S2P Require Export Tokio.

Class WireTypes := {
  LoRaBandwidth : Type;
  LoRaCodingRate : Type;
  LoRaHeaderMode : Type;
  (** the non-LoRa modulations: FSK/GFSK, LR-FHSS, FLRC *)
  OtherModulation : Type;
  SetConfigResultCode : Type;
  Owner : Type;
  RxOrigin : Type;
  (** decode and encode errors: the client drops the former and prints the latter *)
  DecodeError : Type;
  EncodeError : Type;
  FrameDecoder : Type;
}.

Section data.
Context `{WireTypes}.

Record LoRaConfig := {
  freq_hz : Z;
  sf : Z;
  bw : LoRaBandwidth;
  cr : LoRaCodingRate;
  preamble_len : Z;
  sync_word : Z;
  tx_power_dbm : Z;
  header_mode : LoRaHeaderMode;
  payload_crc : bool;
  iq_invert : bool;
}.

Inductive Modulation :=
| LoRa (cfg : LoRaConfig)
| OtherMod (m : OtherModulation).

Record Info := {
  proto_major : Z; proto_minor : Z;
  fw_major : Z; fw_minor : Z; fw_patch : Z;
  radio_chip_id : Z;
  capability_bitmap : Z;
  supported_sf_bitmap : Z;
  supported_bw_bitmap : Z;
  max_payload_bytes : Z;
  rx_queue_capacity : Z;
  tx_queue_capacity : Z;
  freq_min_hz : Z;
  freq_max_hz : Z;
  tx_power_min_dbm : Z;
  tx_power_max_dbm : Z;
  mcu_uid_len : Z; mcu_uid : list byte;
  radio_uid_len : Z; radio_uid : list byte;
}.

Record SetConfigResult := {
  sc_result : SetConfigResultCode;
  sc_owner : Owner;
  sc_current : Modulation;
}.

Inductive TxResult := Transmitted | TxChannelBusy | TxCancelled.

Record TxDonePayload := {
  td_result : TxResult;
  airtime_us : Z;
}.

Record RxPayload := {
  rssi_tenths_dbm : Z;
  snr_tenths_db : Z;
  freq_err_hz : Z;
  timestamp_us : Z;
  crc_valid : bool;
  packets_dropped : Z;
  origin : RxOrigin;
  rx_data : list byte;
}.

Inductive OkPayload :=
| OkEmpty
| OkInfo (i : Info)
| OkSetConfig (r : SetConfigResult).

Inductive FrameResult :=
| FrameOk (type_id tag : Z) (payload : list byte)
| FrameErr.
End data.

Class Wire `{WireTypes} := {
  (** tokio's writer; what follows is of [donglora-protocol] *)
  wire_io :: AsyncWriteExt;
  (** [donglora_protocol::commands] *)
  TYPE_PING : Z;
  TYPE_GET_INFO : Z;
  TYPE_SET_CONFIG : Z;
  TYPE_TX : Z;
  TYPE_RX_START : Z;
  TYPE_RX_STOP : Z;
  (** [donglora_protocol::events] *)
  TYPE_OK : Z;
  TYPE_ERR : Z;
  TYPE_TX_DONE : Z;
  TYPE_RX : Z;
  MAX_PAYLOAD_FIELD : nat;
  (** [LoRaBandwidth::as_u8] and its [Debug] output *)
  bw_as_u8 : LoRaBandwidth → Z;
  bw_debug : LoRaBandwidth → string;
  (** [TxFlags { skip_cad }.as_byte()] *)
  tx_flags_as_byte : bool → byte;
  (** [encode_frame(type_id, tag, payload, &mut wire)]: the bytes written *)
  encode_frame : Z → Z → list byte → result (list byte) EncodeError;
  encode_error_debug : EncodeError → string;
  (** [Command::SetConfig(m).encode_payload(..)] *)
  encode_set_config : Modulation → result (list byte) EncodeError;
  (** [FrameDecoder::new] and [feed] *)
  decoder_new : FrameDecoder;
  decoder_feed : FrameDecoder → list byte → FrameDecoder * list FrameResult;
  (** the payload parsers *)
  OkPayload_parse_for : Z → list byte → result OkPayload DecodeError;
  decode_err_payload : list byte → result ErrorCode DecodeError;
  TxDonePayload_decode : list byte → result TxDonePayload DecodeError;
  RxPayload_decode : list byte → result RxPayload DecodeError;
}.

(** The values of the crate's enums that the examples and the tests name. *)
Class WireNames `{WireTypes} := {
  Khz62 : LoRaBandwidth;
  Khz125 : LoRaBandwidth;
  Khz200 : LoRaBandwidth;
  Cr4_5 : LoRaCodingRate;
  Explicit : LoRaHeaderMode;
  Applied : SetConfigResultCode;
  Mine : Owner;
  Ota : RxOrigin;
  (** [==] on the two enums *)
  code_eqb : SetConfigResultCode → SetConfigResultCode → bool;
  owner_eqb : Owner → Owner → bool;
}.

(** ** A small concrete wire crate

    Used by the witnesses only: one frame per chunk, laid out as type byte, tag
    byte, payload; payload parsers that accept short payloads. *)

Definition byte_of_Z (z : Z) : byte := default x00 (Byte.of_N (Z.to_N (z mod 256))).
Definition Z_of_byte (b : byte) : Z := Z.of_N (Byte.to_N b).

#[export] Instance demo_types : WireTypes := {
  LoRaBandwidth := Z;
  LoRaCodingRate := unit;
  LoRaHeaderMode := unit;
  OtherModulation := unit;
  SetConfigResultCode := unit;
  Owner := unit;
  RxOrigin := unit;
  DecodeError := unit;
  EncodeError := unit;
  FrameDecoder := unit;
}.

Definition demo_config : LoRaConfig := {|
  freq_hz := 910525000; sf := 7; bw := 6%Z; cr := tt; preamble_len := 16;
  sync_word := 5156; tx_power_dbm := 20; header_mode := tt; payload_crc := true;
  iq_invert := false |}.

Definition demo_info : Info := {|
  proto_major := 1; proto_minor := 0; fw_major := 0; fw_minor := 1; fw_patch := 0;
  radio_chip_id := 0; capability_bitmap := 1; supported_sf_bitmap := 8160;
  supported_bw_bitmap := 1023; max_payload_bytes := 255; rx_queue_capacity := 64;
  tx_queue_capacity := 16; freq_min_hz := 863000000; freq_max_hz := 928000000;
  tx_power_min_dbm := -9; tx_power_max_dbm := 20; mcu_uid_len := 0; mcu_uid := [];
  radio_uid_len := 0; radio_uid := [] |}.

Definition demo_set_config : SetConfigResult :=
  {| sc_result := tt; sc_owner := tt; sc_current := LoRa demo_config |}.

#[export] Instance demo_wire : Wire := {
  wire_io := demo_tokio;
  TYPE_PING := 1; TYPE_GET_INFO := 2; TYPE_SET_CONFIG := 3; TYPE_TX := 4;
  TYPE_RX_START := 5; TYPE_RX_STOP := 6;
  TYPE_OK := 128; TYPE_ERR := 129; TYPE_TX_DONE := 130; TYPE_RX := 131;
  MAX_PAYLOAD_FIELD := 18;
  bw_as_u8 b := b;
  bw_debug := show_z;
  tx_flags_as_byte b := if b then x01 else x00;
  encode_frame ty tag pl := Ok (byte_of_Z ty :: byte_of_Z tag :: pl);
  encode_error_debug _ := "Error";
  encode_set_config _ := Ok [x00];
  decoder_new := tt;
  decoder_feed _ bs :=
    (tt, match bs with
         | ty :: tag :: pl => [FrameOk (Z_of_byte ty) (Z_of_byte tag) pl]
         | [_] => [FrameErr]
         | [] => []
         end);
  OkPayload_parse_for cmd pl :=
    if (cmd =? 2)%Z then Ok (OkInfo demo_info)
    else if (cmd =? 3)%Z then Ok (OkSetConfig demo_set_config)
    else match pl with [] => Ok OkEmpty | _ => Err tt end;
  decode_err_payload pl :=
    match pl with
    | [x00] => Ok ENotConfigured
    | [x01] => Ok EBusy
    | [b] => Ok (Unknown (Z_of_byte b))
    | _ => Err tt
    end;
  TxDonePayload_decode pl :=
    match pl with
    | [x00] => Ok {| td_result := Transmitted; airtime_us := 7777 |}
    | [x01] => Ok {| td_result := TxChannelBusy; airtime_us := 0 |}
    | [x02] => Ok {| td_result := TxCancelled; airtime_us := 0 |}
    | _ => Err tt
    end;
  RxPayload_decode pl :=
    match pl with
    | [] => Err tt
    | _ => Ok {| rssi_tenths_dbm := -720; snr_tenths_db := 95; freq_err_hz := -100;
                 timestamp_us := 1111111; crc_valid := true; packets_dropped := 0;
                 origin := tt; rx_data := pl |}
    end;
}.
