(* ===== verification/Config.v ===== *)
(** * Validating a radio config against the device ([prepare_config] of
    [src/connect.rs])

    [prepare_config] rejects what must not be adjusted silently (frequency,
    spreading factor, bandwidth) and clamps the transmit power.  A panic (a shift
    of [1u16] by 16 or more with overflow checks on) is [None]. *)

From S2P Require Import Prelude Errors Protocol.
Local Open Scope Z_scope.

Section config.
Context `{Wire}.
(** [true] in builds with overflow checks (debug), [false] in release builds. *)
Variable overflow_checks : bool.

Definition with_tx_power (cfg : LoRaConfig) (p : Z) : LoRaConfig := {|
  freq_hz := freq_hz cfg; sf := sf cfg; bw := bw cfg; cr := cr cfg;
  preamble_len := preamble_len cfg; sync_word := sync_word cfg;
  tx_power_dbm := p;
  header_mode := header_mode cfg; payload_crc := payload_crc cfg;
  iq_invert := iq_invert cfg |}.

(** [(0u8..16).filter(|i| bitmap & (1u16 << i) != 0)] *)
Definition supported_sfs (info : Info) : list Z :=
  base.filter (λ i, Z.land (supported_sf_bitmap info) (Z.shiftl 1 i) ≠ 0) (seqZ 0 16).

Definition freq_reason (info : Info) (cfg : LoRaConfig) : string :=
  "frequency " +:+ show_z (freq_hz cfg) +:+ " Hz outside device range [" +:+
  show_z (freq_min_hz info) +:+ ", " +:+ show_z (freq_max_hz info) +:+ "] Hz".

Definition sf_reason (info : Info) (cfg : LoRaConfig) : string :=
  "SF" +:+ show_z (sf cfg) +:+ " not supported by this device (supports SF" +:+
  show_list (supported_sfs info) +:+ ")".

Definition bw_reason (info : Info) (cfg : LoRaConfig) : string :=
  "bandwidth " +:+ bw_debug (bw cfg) +:+ " (bit " +:+ show_z (bw_as_u8 (bw cfg)) +:+
  ") not in supported_bw_bitmap 0x" +:+ show_hex 4 (supported_bw_bitmap info).

Definition clamp_tx_power (info : Info) (cfg : LoRaConfig) : LoRaConfig :=
  if tx_power_dbm cfg >? tx_power_max_dbm info then
    with_tx_power cfg (tx_power_max_dbm info)
  else if tx_power_dbm cfg <? tx_power_min_dbm info then
    with_tx_power cfg (tx_power_min_dbm info)
  else cfg.

Definition prepare_lora_config (info : Info) (cfg : LoRaConfig) :
    option (ClientResult LoRaConfig) :=
  if (freq_hz cfg <? freq_min_hz info) || (freq_hz cfg >? freq_max_hz info) then
    Some (Err (ConfigNotSupported (freq_reason info cfg)))
  else
    sf_mask ← shl_one overflow_checks 16 (sf cfg);
    if Z.land (supported_sf_bitmap info) sf_mask =? 0 then
      Some (Err (ConfigNotSupported (sf_reason info cfg)))
    else
      let bw_bit := bw_as_u8 (bw cfg) in
      bw_mask ← shl_one overflow_checks 16 bw_bit;
      if Z.land (supported_bw_bitmap info) bw_mask =? 0 then
        Some (Err (ConfigNotSupported (bw_reason info cfg)))
      else
        Some (Ok (clamp_tx_power info cfg)).

Definition prepare_config (info : Info) (modulation : Modulation) :
    option (ClientResult Modulation) :=
  match modulation with
  | LoRa cfg =>
      r ← prepare_lora_config info cfg;
      Some (result_bind r (λ cfg, Ok (LoRa cfg)))
  | OtherMod _ => Some (Ok modulation)
  end.

(** ** What the function is meant to accept *)

(** A config the device advertises: frequency in range, and the capability bits
    of the spreading factor and of the bandwidth set. *)
Definition supported (info : Info) (cfg : LoRaConfig) : Prop :=
  freq_min_hz info ≤ freq_hz cfg ≤ freq_max_hz info ∧
  Z.testbit (supported_sf_bitmap info) (sf cfg) = true ∧
  Z.testbit (supported_bw_bitmap info) (bw_as_u8 (bw cfg)) = true.

#[global] Instance supported_dec info cfg : Decision (supported info cfg).
Proof. unfold supported. apply _. Defined.

(** The power the device gives for a requested one. *)
Definition clamped (info : Info) (p : Z) : Z :=
  if tx_power_max_dbm info <? p then tx_power_max_dbm info
  else Z.max (tx_power_min_dbm info) p.

(** The capability bit that a shift by [i] selects in a [u16] bitmap: past the width
    the shift panics or, without overflow checks, takes [i] modulo 16. *)
Definition bit_tested (bm i : Z) : option bool :=
  if i <? 16 then Some (Z.testbit bm i)
  else if overflow_checks then None else Some (Z.testbit bm (i mod 16)).

(** [prepare_config] on a LoRa config, in terms of the capability bits. *)
Definition prepared (info : Info) (cfg : LoRaConfig) : option (ClientResult Modulation) :=
  let refuse reason := Some (Err (ConfigNotSupported (reason info cfg))) in
  if decide (freq_min_hz info ≤ freq_hz cfg ≤ freq_max_hz info) then
    sf_ok ← bit_tested (supported_sf_bitmap info) (sf cfg);
    if (sf_ok : bool) then
      bw_ok ← bit_tested (supported_bw_bitmap info) (bw_as_u8 (bw cfg));
      if (bw_ok : bool) then Some (Ok (LoRa (with_tx_power cfg (clamped info (tx_power_dbm cfg)))))
      else refuse bw_reason
    else refuse sf_reason
  else refuse freq_reason.

(** The field ranges the Rust types give. *)
Record cfg_wf (cfg : LoRaConfig) : Prop := {
  cfg_sf_u8 : is_uint 8 (sf cfg);
  cfg_bw_u8 : is_uint 8 (bw_as_u8 (bw cfg));
}.
Record info_wf (info : Info) : Prop := {
  info_sf_u16 : is_uint 16 (supported_sf_bitmap info);
  info_bw_u16 : is_uint 16 (supported_bw_bitmap info);
}.

(** ** Lemmas *)

Lemma clamp_tx_power_spec info cfg :
  clamp_tx_power info cfg = with_tx_power cfg (clamped info (tx_power_dbm cfg)).
Proof using Type.
  unfold clamp_tx_power, clamped. rewrite Z.gtb_ltb.
  destruct (Z.ltb_spec (tx_power_max_dbm info) (tx_power_dbm cfg)); [done|].
  destruct (Z.ltb_spec (tx_power_dbm cfg) (tx_power_min_dbm info)).
  - f_equal. lia.
  - rewrite Z.max_r by lia. by destruct cfg.
Qed.

Lemma clamped_range info p :
  tx_power_min_dbm info ≤ tx_power_max_dbm info →
  tx_power_min_dbm info ≤ clamped info p ≤ tx_power_max_dbm info.
Proof using Type. unfold clamped. intros. destruct (Z.ltb_spec (tx_power_max_dbm info) p); lia. Qed.

Lemma clamped_idem info p :
  tx_power_min_dbm info ≤ tx_power_max_dbm info →
  clamped info (clamped info p) = clamped info p.
Proof using Type.
  intros Hle. pose proof (clamped_range info p Hle). unfold clamped at 1.
  destruct (Z.ltb_spec (tx_power_max_dbm info) (clamped info p)); lia.
Qed.

(** Bits past the width of a [u16] bitmap are clear. *)
Lemma u16_testbit_high bm i : is_uint 16 bm → 16 ≤ i → Z.testbit bm i = false.
Proof using Type.
  intros [Hlo Hhi] Hi. rewrite <- (Z.mod_small bm (2 ^ 16)) by done.
  apply Z.mod_pow2_bits_high. lia.
Qed.

Lemma elem_of_supported_sfs info i :
  i ∈ supported_sfs info ↔ 0 ≤ i < 16 ∧ Z.testbit (supported_sf_bitmap info) i = true.
Proof using Type.
  unfold supported_sfs. rewrite list_elem_of_filter, elem_of_seqZ.
  split.
  - intros [Hb Hr]. split; [lia|]. apply Z.eqb_neq in Hb.
    rewrite land_shiftl_one_testbit in Hb by lia.
    by destruct (Z.testbit _ _).
  - intros [Hr Hb]. split; [|lia]. apply Z.eqb_neq.
    by rewrite land_shiftl_one_testbit, Hb by lia.
Qed.

(** The test the code makes on one bitmap. *)
Lemma mask_test {A} bm i (f : bool → option A) :
  0 ≤ i →
  (m ← shl_one overflow_checks 16 i; f (Z.land bm m =? 0)) =
  (b ← bit_tested bm i; f (negb b)).
Proof using Type.
  intros Hi. unfold shl_one, bit_tested. destruct (Z.ltb_spec i 16); simpl.
  - by rewrite land_shiftl_one_testbit by lia.
  - destruct overflow_checks; [done|]. simpl.
    by rewrite land_shiftl_one_testbit by (apply Z.mod_pos_bound; lia).
Qed.

Lemma prepare_config_eq info cfg :
  0 ≤ sf cfg → 0 ≤ bw_as_u8 (bw cfg) → prepare_config info (LoRa cfg) = prepared info cfg.
Proof using Type.
  intros Hsf Hbw. unfold prepare_config, prepare_lora_config, prepared.
  rewrite Z.gtb_ltb. destruct (decide _) as [Hf|Hf].
  - rewrite !(proj2 (Z.ltb_ge _ _)) by lia. cbn [orb].
    rewrite (mask_test _ _ (λ b, if b then _ else _)) by done.
    destruct (bit_tested (supported_sf_bitmap info) _) as [[]|]; [|done..]. cbn [mbind option_bind negb].
    rewrite (mask_test _ _ (λ b, if b then _ else _)) by done.
    destruct (bit_tested (supported_bw_bitmap info) _) as [[]|]; [|done..].
    simpl. by rewrite clamp_tx_power_spec.
  - destruct (Z.ltb_spec (freq_hz cfg) (freq_min_hz info)); [done|].
    destruct (Z.ltb_spec (freq_max_hz info) (freq_hz cfg)); [done|lia].
Qed.

Lemma supported_sf_lt info cfg :
  info_wf info → cfg_wf cfg → supported info cfg →
  0 ≤ sf cfg < 16 ∧ 0 ≤ bw_as_u8 (bw cfg) < 16.
Proof using Type.
  intros [Hs Hb] [[Hs0 ?] [Hb0 ?]] (_ & Hsf & Hbw). split; (split; [done|]).
  - destruct (Z.lt_ge_cases (sf cfg) 16); [done|].
    by rewrite u16_testbit_high in Hsf.
  - destruct (Z.lt_ge_cases (bw_as_u8 (bw cfg)) 16); [done|].
    by rewrite u16_testbit_high in Hbw.
Qed.

Lemma supported_with_tx_power info cfg p :
  supported info (with_tx_power cfg p) ↔ supported info cfg.
Proof using Type. done. Qed.
End config.

(** ** Properties *)

(** C15: [prepare_config] decides by the capability bits.  A modulation other than LoRa is
    accepted as it is, whatever the device reports.  For a LoRa config (with [u8] bit
    numbers) the result is [prepared], in both build profiles: the frequency, then the
    spreading factor's bit, then the bandwidth's decide, with the panic or the wrapped
    bit number from 16 on.  In particular, where both bit numbers are below 16, it is
    accepted precisely when the device advertises its frequency, spreading factor and
    bandwidth, with only the transmit power changed, to the device's clamp of it, and
    refused with [ConfigNotSupported] otherwise. *)
Theorem prepare_config_exact `{Wire} oc info m :
  match m with
  | OtherMod _ => prepare_config oc info m = Some (Ok m)
  | LoRa cfg =>
      cfg_wf cfg →
      prepare_config oc info m = prepared oc info cfg ∧
      (sf cfg < 16 → bw_as_u8 (bw cfg) < 16 →
       if decide (supported info cfg) then
         prepare_config oc info m =
           Some (Ok (LoRa (with_tx_power cfg (clamped info (tx_power_dbm cfg)))))
       else ∃ reason, prepare_config oc info m = Some (Err (ConfigNotSupported reason)))
  end.
Proof.
  destruct m as [cfg|m]; [|done]. intros [[Hsf _] [Hbw _]].
  split; [by apply prepare_config_eq|]. intros Hsf16 Hbw16. rewrite prepare_config_eq by done.
  unfold prepared, bit_tested. rewrite !(proj2 (Z.ltb_lt _ _)) by done. cbn [mbind option_bind].
  destruct (decide (supported _ _)) as [(Hf & Hs & Hb)|Hns].
  - by rewrite decide_True, Hs, Hb by done.
  - destruct (decide _) as [Hf|]; [|eauto].
    destruct (Z.testbit _ (sf cfg)) eqn:Hs; [|eauto].
    destruct (Z.testbit _ (bw_as_u8 _)) eqn:Hb; [|eauto]. by destruct Hns.
Qed.

Lemma prepare_config_exact_witness :
  prepare_config false demo_info (LoRa demo_config) = prepared false demo_info demo_config ∧
  prepared false demo_info demo_config = Some (Ok (LoRa demo_config)).
Proof.
  split; [|reflexivity].
  apply (prepare_config_exact false demo_info (LoRa demo_config)).
  split; unfold is_uint; simpl; lia.
Defined.

(** The config handed to [SET_CONFIG] never exceeds the device's power range,
    whatever power was asked for, and preparing it again changes nothing. *)
Theorem prepare_config_power_in_range `{Wire} oc info cfg cfg' :
  tx_power_min_dbm info ≤ tx_power_max_dbm info →
  prepare_config oc info (LoRa cfg) = Some (Ok (LoRa cfg')) →
  tx_power_min_dbm info ≤ tx_power_dbm cfg' ≤ tx_power_max_dbm info ∧
  freq_min_hz info ≤ freq_hz cfg' ≤ freq_max_hz info ∧
  prepare_config oc info (LoRa cfg') = Some (Ok (LoRa cfg')).
Proof.
  intros Hle. unfold prepare_config, prepare_lora_config.
  destruct (_ || _) eqn:Hf; [done|]. simpl.
  destruct (shl_one oc 16 (sf cfg)) as [m|] eqn:Hm; [|done]. simpl.
  destruct (Z.land _ m =? 0) eqn:Hs; [done|].
  destruct (shl_one oc 16 (bw_as_u8 _)) as [m'|] eqn:Hm'; [|done]. simpl.
  destruct (Z.land _ m' =? 0) eqn:Hb; [done|]. intros [= <-].
  rewrite !clamp_tx_power_spec. simpl. rewrite Hf, Hm. simpl. rewrite Hs, Hm'. simpl.
  rewrite Hb. simpl. rewrite clamped_idem by done.
  split_and!; [by apply clamped_range..| | |done]; rewrite Z.gtb_ltb in Hf; zbool; lia.
Qed.

Lemma prepare_config_power_in_range_witness :
  -9 ≤ 20 ≤ 20 ∧ 863000000 ≤ 910525000 ≤ 928000000 ∧
  prepare_config true demo_info (LoRa demo_config) = Some (Ok (LoRa demo_config)).
Proof.
  apply (prepare_config_power_in_range true demo_info (with_tx_power demo_config 30) demo_config);
    [simpl; lia|reflexivity].
Defined.

(** Every field within the width of its Rust type. *)
Record cfg_typed `{Wire} (cfg : LoRaConfig) : Prop := {
  ty_freq : is_uint 32 (freq_hz cfg);
  ty_sf : is_uint 8 (sf cfg);
  ty_preamble : is_uint 16 (preamble_len cfg);
  ty_sync : is_uint 16 (sync_word cfg);
  ty_power : is_sint 8 (tx_power_dbm cfg);
}.

(** C29: Validation is well typed: for a configuration and a device report whose fields
    fit their machine types, whatever [prepare_config] returns is a configuration of
    the same modulation whose fields fit theirs, clamped power included, also when
    the device reports an empty power range, in builds with and without overflow
    checks; and only the power can differ from what was asked for. *)
Theorem prepare_config_well_typed `{Wire} oc info cfg m :
  is_sint 8 (tx_power_min_dbm info) → is_sint 8 (tx_power_max_dbm info) → cfg_typed cfg →
  prepare_config oc info (LoRa cfg) = Some (Ok m) →
  ∃ cfg', m = LoRa cfg' ∧ cfg_typed cfg' ∧ cfg' = with_tx_power cfg (tx_power_dbm cfg') ∧
          (tx_power_dbm cfg' = tx_power_dbm cfg ∨ tx_power_dbm cfg' = tx_power_min_dbm info ∨
           tx_power_dbm cfg' = tx_power_max_dbm info).
Proof.
  intros Hmin Hmax [Hf Hs Hp Hw Ht]. unfold prepare_config, prepare_lora_config.
  destruct (_ || _); [done|]. simpl.
  destruct (shl_one oc 16 (sf cfg)) as [sm|]; [|done]. simpl. destruct (Z.land _ sm =? 0); [done|].
  destruct (shl_one oc 16 (bw_as_u8 _)) as [bm|]; [|done]. simpl. destruct (Z.land _ bm =? 0); [done|].
  intros [= <-]. eexists. split; [done|]. rewrite clamp_tx_power_spec. simpl.
  assert (clamped info (tx_power_dbm cfg) = tx_power_dbm cfg ∨
          clamped info (tx_power_dbm cfg) = tx_power_min_dbm info ∨
          clamped info (tx_power_dbm cfg) = tx_power_max_dbm info) as Hc.
  { unfold clamped. destruct (_ <? _); [by auto|]. lia. }
  split_and!; [|done|done]. split; try done. simpl. by destruct Hc as [->|[->| ->]].
Qed.

Lemma prepare_config_well_typed_witness :
  ∃ cfg', LoRa demo_config = LoRa cfg' ∧ cfg_typed cfg' ∧
          cfg' = with_tx_power demo_config (tx_power_dbm cfg') ∧
          (tx_power_dbm cfg' = tx_power_dbm demo_config ∨
           tx_power_dbm cfg' = tx_power_min_dbm demo_info ∨
           tx_power_dbm cfg' = tx_power_max_dbm demo_info).
Proof.
  apply (prepare_config_well_typed true demo_info demo_config);
    [unfold is_sint; simpl; lia..|split; unfold is_uint, is_sint; simpl; lia|reflexivity].
Defined.

(** C30: What a spreading factor of 16 or more does, for a frequency in range.
    With overflow checks the shift panics.  Without them the shift amount wraps,
    so the config is judged by the bit of [sf mod 16]: it is accepted although
    no device can advertise it. *)
Theorem prepare_config_sf_overflow `{Wire} info cfg :
  info_wf info → freq_min_hz info ≤ freq_hz cfg ≤ freq_max_hz info → 16 ≤ sf cfg →
  ¬ supported info cfg ∧
  prepare_config true info (LoRa cfg) = None ∧
  (0 ≤ bw_as_u8 (bw cfg) < 16 →
   Z.testbit (supported_sf_bitmap info) (sf cfg mod 16) = true →
   Z.testbit (supported_bw_bitmap info) (bw_as_u8 (bw cfg)) = true →
   prepare_config false info (LoRa cfg) =
     Some (Ok (LoRa (with_tx_power cfg (clamped info (tx_power_dbm cfg)))))).
Proof.
  intros [Hwf _] Hf Hsf. split_and!.
  - intros (_ & Hs & _). by rewrite u16_testbit_high in Hs.
  - unfold prepare_config, prepare_lora_config, shl_one.
    rewrite Z.gtb_ltb, !(proj2 (Z.ltb_ge _ _)) by lia. simpl.
    by rewrite (proj2 (Z.ltb_ge (sf cfg) 16)) by lia.
  - intros Hbw Hs Hb. unfold prepare_config, prepare_lora_config, shl_one.
    rewrite Z.gtb_ltb, !(proj2 (Z.ltb_ge _ _)) by lia. simpl.
    rewrite (proj2 (Z.ltb_ge (sf cfg) 16)), (proj2 (Z.ltb_lt (bw_as_u8 _) 16)) by lia.
    simpl. rewrite !land_shiftl_one_testbit by (try apply Z.mod_pos_bound; lia).
    by rewrite Hs, Hb, clamp_tx_power_spec.
Qed.

Definition sf23_config : LoRaConfig := {|
  freq_hz := 910525000; sf := 23; bw := 6; cr := tt; preamble_len := 16;
  sync_word := 5156; tx_power_dbm := 20; header_mode := tt; payload_crc := true;
  iq_invert := false |}.

Lemma prepare_config_sf_overflow_witness :
  ¬ supported demo_info sf23_config ∧
  prepare_config true demo_info (LoRa sf23_config) = None ∧
  prepare_config false demo_info (LoRa sf23_config) = Some (Ok (LoRa sf23_config)).
Proof.
  destruct (prepare_config_sf_overflow demo_info sf23_config) as (H1 & H2 & H3);
    [by split; vm_compute|simpl; lia|simpl; lia|].
  split_and!; [done|done|]. apply H3; [simpl; lia|done|done].
Defined.

(** the rejection message of an unsupported spreading factor names exactly
    the spreading factors whose capability bit is set. *)
Theorem sf_rejection_lists_supported `{Wire} oc info cfg :
  freq_min_hz info ≤ freq_hz cfg ≤ freq_max_hz info → 0 ≤ sf cfg < 16 →
  Z.testbit (supported_sf_bitmap info) (sf cfg) = false →
  ∃ sfs, (∀ i, i ∈ sfs ↔ 0 ≤ i < 16 ∧ Z.testbit (supported_sf_bitmap info) i = true) ∧
    prepare_config oc info (LoRa cfg) = Some (Err (ConfigNotSupported
      ("SF" +:+ show_z (sf cfg) +:+ " not supported by this device (supports SF" +:+
       show_list sfs +:+ ")"))).
Proof.
  intros Hf Hsf Hs. exists (supported_sfs info). split.
  - intros i. apply elem_of_supported_sfs.
  - unfold prepare_config, prepare_lora_config, shl_one.
    rewrite Z.gtb_ltb, !(proj2 (Z.ltb_ge _ _)) by lia. simpl.
    rewrite (proj2 (Z.ltb_lt (sf cfg) 16)) by lia. simpl.
    by rewrite land_shiftl_one_testbit, Hs by lia.
Qed.

Definition sf5_config : LoRaConfig := {|
  freq_hz := 915000000; sf := 4; bw := 6; cr := tt; preamble_len := 16;
  sync_word := 5156; tx_power_dbm := 14; header_mode := tt; payload_crc := true;
  iq_invert := false |}.

Lemma sf_rejection_lists_supported_witness :
  ∃ sfs, (∀ i, i ∈ sfs ↔ 0 ≤ i < 16 ∧ Z.testbit 8160 i = true) ∧
    prepare_config true demo_info (LoRa sf5_config) = Some (Err (ConfigNotSupported
      ("SF" +:+ show_z 4 +:+ " not supported by this device (supports SF" +:+
       show_list sfs +:+ ")"))).
Proof.
  apply (sf_rejection_lists_supported true demo_info sf5_config); [simpl; lia..|reflexivity].
Defined.
