(* ===== verification/Retry.v ===== *)
(** * The transmit retry policy ([src/retry.rs], and the delay arithmetic of
    [Dongle::tx_with_retry] in [src/dongle.rs])

    [RetryPolicy], its default, the jitter sample and the attempt log.  The delay
    floor is multiplied in [f32]: [f32] is the IEEE binary32 format of the
    Standard Library's [SpecFloat], so rounding, overflow to infinity, NaN and the
    saturating cast back to [u32] are the ones of the code. *)

From Stdlib Require Import SpecFloat.
From S2P Require Import Prelude Runtime Errors Protocol.
Local Open Scope Z_scope.

(** ** f32 *)

Definition f32 := spec_float.
Definition f32_of_u32 (z : Z) : f32 := binary_normalize 24 128 z 0 false.
Definition f32_mul : f32 → f32 → f32 := SFmul 24 128.

(** [x as u32]: truncates toward zero, saturates, NaN becomes 0. *)
Definition u32_of_f32 (x : f32) : Z :=
  match x with
  | S754_finite false m e => Z.min (2 ^ 32 - 1) (Z.shiftl (Zpos m) e)
  | S754_infinity false => 2 ^ 32 - 1
  | _ => 0
  end.

Definition f32_one : f32 := S754_finite false 8388608 (-23).
Definition f32_two : f32 := S754_finite false 8388608 (-22).

(** ** The policy *)

(** Durations are in milliseconds. *)
Record RetryPolicy := {
  max_attempts : Z;
  backoff_ms_min : Z;
  backoff_ms_max : Z;
  backoff_multiplier : f32;
  backoff_cap_ms : Z;
  per_attempt_timeout : Z;
  skip_cad : bool;
}.

Definition default_policy : RetryPolicy := {|
  max_attempts := 3;
  backoff_ms_min := 20;
  backoff_ms_max := 100;
  backoff_multiplier := f32_two;
  backoff_cap_ms := 500;
  per_attempt_timeout := 5000;
  skip_cad := false |}.

(** The ranges of the field types [u8] and [u32]. *)
Record policy_wf (p : RetryPolicy) : Prop := {
  wf_attempts : is_uint 8 (max_attempts p);
  wf_min : is_uint 32 (backoff_ms_min p);
  wf_max : is_uint 32 (backoff_ms_max p);
  wf_cap : is_uint 32 (backoff_cap_ms p);
}.

(** [rand::rng().random_range(0..=hi)], an effect of the caller's programs. *)
Class Random (E : Type → Type) := random_range_incl : Z → prog E Z.

Definition spread (p : RetryPolicy) : Z :=
  saturating_sub (backoff_ms_max p) (backoff_ms_min p).

Definition jitter_ms {E} `{Random E} (p : RetryPolicy) : prog E Z :=
  if spread p =? 0 then Ret 0 else random_range_incl (spread p).

(** [delay_ms = (delay_ms as f32 * policy.backoff_multiplier) as u32;
     delay_ms = delay_ms.min(policy.backoff_cap_ms)] *)
Definition next_delay_ms (p : RetryPolicy) (delay_ms : Z) : Z :=
  Z.min (u32_of_f32 (f32_mul (f32_of_u32 delay_ms) (backoff_multiplier p)))
        (backoff_cap_ms p).

(** The delay floor before the [n+1]-th retry. *)
Fixpoint delay_floor (p : RetryPolicy) (n : nat) : Z :=
  match n with
  | O => backoff_ms_min p
  | S n => next_delay_ms p (delay_floor p n)
  end.

(** ** The attempt log *)

Section outcome.
Context `{WireTypes}.

Record TxAttempt := {
  attempt : Z;
  att_result : ClientResult TxDonePayload;
  elapsed : Z;
}.

Record TxOutcome := {
  final_airtime_us : Z;
  attempts : list TxAttempt;
}.

(** [self.attempts.len() as u8] *)
Definition attempts_used (o : TxOutcome) : Z :=
  as_uint 8 (Z.of_nat (length (attempts o))).

Definition had_retries (o : TxOutcome) : bool :=
  bool_decide (1 < length (attempts o))%nat.
End outcome.

(** ** Lemmas *)

Lemma u32_of_f32_range x : 0 ≤ u32_of_f32 x < 2 ^ 32.
Proof.
  destruct x as [|[]| |[] m e]; simpl; try lia.
  assert (0 ≤ Z.shiftl (Zpos m) e) by (rewrite Z.shiftl_nonneg; lia). lia.
Qed.

Lemma next_delay_range p d :
  0 ≤ backoff_cap_ms p → 0 ≤ next_delay_ms p d ≤ backoff_cap_ms p.
Proof.
  intros Hc. unfold next_delay_ms.
  pose proof (u32_of_f32_range (f32_mul (f32_of_u32 d) (backoff_multiplier p))). lia.
Qed.

Lemma delay_floor_range p n :
  policy_wf p → 0 ≤ delay_floor p n ≤ Z.max (backoff_ms_min p) (backoff_cap_ms p).
Proof.
  intros [_ [??] _ [??]]. destruct n as [|n]; simpl; [lia|].
  pose proof (next_delay_range p (delay_floor p n)). lia.
Qed.

(** *** Exactness of [f32] doubling below 2^24 *)

Lemma digits2_iter_xO (d n : positive) :
  Zpos (digits2_pos (Pos.iter xO d n)) = Zpos n + Zpos (digits2_pos d).
Proof.
  induction n as [|n IH] using Pos.peano_ind; simpl; [lia|].
  rewrite Pos.iter_succ. simpl. lia.
Qed.

Lemma iter_xO_value (d n : positive) : Zpos (Pos.iter xO d n) = Zpos d * 2 ^ Zpos n.
Proof.
  induction n as [|n IH] using Pos.peano_ind; [simpl; lia|].
  rewrite Pos.iter_succ, Pos2Z.inj_succ, Z.pow_succ_r by lia. lia.
Qed.

Lemma digits2_bound (d : positive) :
  2 ^ (Zpos (digits2_pos d) - 1) ≤ Zpos d < 2 ^ Zpos (digits2_pos d).
Proof.
  induction d as [d IH|d IH|]; cbn [digits2_pos]; [| |simpl; lia];
    rewrite Pos2Z.inj_succ, Z.pow_succ_r by lia;
    replace (Z.succ (Zpos (digits2_pos d)) - 1) with (Z.succ (Zpos (digits2_pos d) - 1)) by lia;
    rewrite Z.pow_succ_r by lia; lia.
Qed.

(** A 24-digit mantissa with an exponent in range is already rounded. *)
Lemma shr_fexp_id (m : positive) (e : Z) :
  Zpos (digits2_pos m) = 24 → -149 ≤ e →
  shr_fexp 24 128 (Zpos m) e loc_Exact = (Build_shr_record (Zpos m) false false, e).
Proof.
  intros Hm He. unfold shr_fexp, fexp, emin. cbn [Zdigits2]. rewrite Hm.
  match goal with |- context [Z.max ?a ?b - ?c] =>
    replace (Z.max a b - c) with 0 by lia end.
  done.
Qed.

Lemma round_aux_id (m : positive) (e : Z) :
  Zpos (digits2_pos m) = 24 → -149 ≤ e ≤ 104 →
  binary_round_aux 24 128 false (Zpos m) e loc_Exact = S754_finite false m e.
Proof.
  intros Hm He. unfold binary_round_aux. rewrite shr_fexp_id by lia.
  cbn [shr_m loc_of_shr_record round_nearest_even]. rewrite shr_fexp_id by lia.
  cbn [shr_m]. by rewrite (proj2 (Z.leb_le e (128 - 24))) by lia.
Qed.

(** [d as f32] for a positive [d] of at most 24 bits. *)
Lemma f32_of_u32_exact (d : positive) :
  Zpos d < 2 ^ 24 →
  ∃ m, f32_of_u32 (Zpos d) = S754_finite false m (Zpos (digits2_pos d) - 24) ∧
       Zpos (digits2_pos m) = 24 ∧ Zpos m = Zpos d * 2 ^ (24 - Zpos (digits2_pos d)) ∧
       Zpos (digits2_pos d) ≤ 24.
Proof.
  intros Hd. pose proof (digits2_bound d) as [Hlo _].
  assert (Hk : Zpos (digits2_pos d) - 1 < 24).
  { apply (Z.pow_lt_mono_r_iff 2); lia. }
  set (k := Zpos (digits2_pos d)) in *.
  unfold f32_of_u32, binary_normalize, binary_round, shl_align, fexp, emin. fold k.
  replace (Z.max (k + 0 - 24) (3 - 128 - 24) - 0) with (k - 24) by lia.
  replace (Z.max (k + 0 - 24) (3 - 128 - 24)) with (k - 24) by lia.
  destruct (k - 24) as [|p|p] eqn:Hp; [exists d|lia|exists (Pos.iter xO d p)].
  - rewrite round_aux_id by lia. split_and!; [done|lia| |lia].
    replace (24 - k) with 0 by lia. lia.
  - assert (Hdig : Zpos (digits2_pos (Pos.iter xO d p)) = 24).
    { rewrite digits2_iter_xO. fold k. lia. }
    rewrite round_aux_id by lia. split_and!; [done|done| |lia].
    rewrite iter_xO_value. f_equal. f_equal. lia.
Qed.

Lemma f32_double_mantissa (m : positive) (e : Z) :
  Zpos (digits2_pos m) = 24 → -23 ≤ e ≤ 0 →
  f32_mul (S754_finite false m e) f32_two = S754_finite false m (e + 1).
Proof.
  intros Hm He. unfold f32_mul, f32_two, SFmul. rewrite !Pos.mul_xO_r, Pos.mul_1_r.
  cbn [xorb]. unfold binary_round_aux at 1, shr_fexp at 1, fexp, emin.
  cbn [Zdigits2 digits2_pos]. rewrite !Pos2Z.inj_succ, Hm.
  match goal with |- context [Z.max ?a ?b - ?c] =>
    replace (Z.max a b - c) with 23 by lia end.
  unfold shr. cbn [SpecFloat.iter_pos shr_1 shr_record_of_loc orb loc_of_shr_record round_nearest_even shr_m].
  replace (e + -22 + 23) with (e + 1) by lia. rewrite shr_fexp_id by lia.
  cbn [shr_m]. by rewrite (proj2 (Z.leb_le (e + 1) (128 - 24))) by lia.
Qed.

Lemma u32_double_exact d :
  0 ≤ d < 2 ^ 24 → u32_of_f32 (f32_mul (f32_of_u32 d) f32_two) = 2 * d.
Proof.
  intros [H0 Hd]. destruct d as [|d|d]; [done| |lia].
  destruct (f32_of_u32_exact d Hd) as (m & -> & Hm & Hv & Hk).
  set (k := Zpos (digits2_pos d)) in *. assert (1 ≤ k) by lia.
  rewrite f32_double_mantissa by lia. unfold u32_of_f32. rewrite Hv.
  assert (Z.shiftl (Zpos d * 2 ^ (24 - k)) (k - 24 + 1) = 2 * Zpos d) as ->; [|lia].
  destruct (decide (k = 24)) as [->|Hk'].
  - rewrite Z.shiftl_mul_pow2 by lia. simpl. lia.
  - rewrite <- (Z.opp_involutive (k - 24 + 1)), Z.shiftl_opp_r, Z.shiftr_div_pow2 by lia.
    replace (24 - k) with (Z.succ (- (k - 24 + 1))) by lia.
    rewrite Z.pow_succ_r, Z.mul_assoc by lia. rewrite Z.div_mul by (apply Z.pow_nonzero; lia).
    lia.
Qed.

(** ** Properties *)

(** C26: with the doubling multiplier of the default policy the backoff floor
    before the [n+1]-th retry is exactly the minimum times [2^n], cut off at the
    cap: the [f32] product never rounds, for any minimum and cap below [2^24] ms. *)
Theorem exponential_backoff p n :
  backoff_multiplier p = f32_two →
  0 ≤ backoff_ms_min p < 2 ^ 24 → 0 ≤ backoff_cap_ms p < 2 ^ 24 → (0 < n)%nat →
  delay_floor p n = Z.min (backoff_ms_min p * 2 ^ Z.of_nat n) (backoff_cap_ms p).
Proof.
  intros Hm Hmin Hcap Hn. induction n as [|n IH]; [lia|]. simpl delay_floor.
  unfold next_delay_ms. rewrite Hm, Nat2Z.inj_succ, Z.pow_succ_r by lia.
  destruct n as [|n].
  - simpl. rewrite u32_double_exact by lia. lia.
  - rewrite IH by lia. set (t := backoff_ms_min p * 2 ^ Z.of_nat (S n)) in *.
    assert (0 ≤ t) by (apply Z.mul_nonneg_nonneg; [lia|apply Z.pow_nonneg; lia]).
    rewrite u32_double_exact by lia. lia.
Qed.

Lemma exponential_backoff_witness :
  delay_floor default_policy 4 = Z.min (20 * 2 ^ Z.of_nat 4) 500.
Proof. apply (exponential_backoff default_policy 4); [done|simpl; lia..]. Defined.

(** C32: Whatever the multiplier is (negative, infinite, NaN), every wait between
    two attempts is at most the larger of the initial floor and the cap plus the
    jitter spread, so the [u64] sum of the code cannot overflow; and from the
    second retry on the floor is at most the cap. *)
Theorem backoff_bounded p n j :
  policy_wf p → 0 ≤ j ≤ spread p →
  0 ≤ delay_floor p n + j ≤ Z.max (backoff_ms_min p) (backoff_cap_ms p) + spread p ∧
  is_uint 64 (delay_floor p n + j) ∧
  delay_floor p (S n) ≤ backoff_cap_ms p.
Proof.
  intros Hwf Hj. pose proof (delay_floor_range p n Hwf).
  destruct Hwf as [_ [??] [??] [??]].
  pose proof (saturating_sub_spec (backoff_ms_max p) (backoff_ms_min p)).
  unfold spread in *. unfold is_uint in *. split_and!; try lia.
  simpl. by apply next_delay_range.
Qed.

Lemma backoff_bounded_witness :
  0 ≤ delay_floor default_policy 1 + 80 ≤ Z.max 20 500 + 80 ∧
  is_uint 64 (delay_floor default_policy 1 + 80) ∧
  delay_floor default_policy 2 ≤ 500.
Proof.
  apply (backoff_bounded default_policy 1 80); [|vm_compute; by split].
  split; unfold is_uint; simpl; lia.
Defined.
