(* ===== verification/Session.v ===== *)
(** * The session layer ([src/session.rs])

    One [Session] multiplexes commands over a byte stream: it allocates tags,
    keeps the map of outstanding commands, and a reader task routes inbound
    frames to the command with the frame's tag or to the event queues.

    Every critical section, channel operation and I/O call of the source is one
    effect of [sessE]; [sess_do] is what it does to the shared state [Sess].  The
    [async fn]s are programs over these effects, statement by statement.  The
    environment's choices ([sess_choice]) cover I/O results, what the peer sends,
    whether a timer has expired, and the iteration order of a [HashMap].

    The oneshot channels are kept in the state as [Chan]s that know where their
    sender is: held by a task, stored in the pending map, or gone. *)

From stdpp Require Import functions.
From S2P Require Import Prelude Runtime Errors Protocol.
Local Open Scope Z_scope.

(** ** Data *)

Section data.
Context `{WireTypes}.

Inductive SessionResponse :=
| REmpty
| RInfo (i : Info)
| RSetConfig (r : SetConfigResult)
| RTxDone (td : TxDonePayload)
| RErr (e : ClientError).

Record Pending := {
  cmd_type : Z;
  waker : nat;
}.

(** Where the sending half of a oneshot channel is. *)
Inductive sender_loc := HeldBy (i : nat) | InMap | Gone.

Record Chan := {
  ch_tag : Z;                           (** the command it was made for *)
  ch_cmd : Z;
  ch_sender : sender_loc;
  ch_value : option SessionResponse;    (** what was sent, if anything *)
  ch_owner : nat;                       (** the task that made it and awaits it *)
  ch_listening : bool;                  (** whether the receiver is still alive *)
}.

Inductive lock_id := WriterLock | RxLock | ErrLock.

Record Sess := {
  next_tag : Z;
  pending : gmap Z Pending;
  next_chan : nat;
  chans : gmap nat Chan;
  rx_queue : list RxPayload;
  err_queue : list ClientError;
  senders_alive : bool;                 (** the reader's ends of the two queues *)
  closed : bool;
  reader_handle : bool;
  reader_aborted : bool;
  reader_tid : nat;
  locks : lock_id → option nat;
  wire_out : list (nat * byte);         (** bytes written, each with the task writing it *)
  wire_in : list (list byte);           (** chunks read from it *)
}.
End data.

#[export] Instance lock_id_eq_dec : EqDecision lock_id.
Proof. solve_decision. Defined.
#[export] Instance sender_loc_eq_dec : EqDecision sender_loc.
Proof. solve_decision. Defined.
#[export] Instance Pending_eq_dec : EqDecision Pending.
Proof. solve_decision. Defined.

(** ** Effects *)

Section effects.
Context `{WireTypes}.

Inductive await_result :=
| Responded (r : SessionResponse)
| RecvError
| Elapsed.

Inductive sessE : Type → Type :=
| LoadClosed : sessE bool
| StoreClosed : sessE unit
| AllocTag : sessE Z
| NewOneshot (tag cmd : Z) : sessE nat
| PendingInsert (tag : Z) (p : Pending) : sessE unit
| PendingRemove (tag : Z) : sessE (option Pending)
| PendingTake : sessE (list (Z * Pending))
| DropWaker (w : nat) : sessE unit
| WakerSend (w : nat) (r : SessionResponse) : sessE unit
| AwaitResponse (w : nat) (timeout : Z) : sessE await_result
| DropReceiver (w : nat) : sessE unit
| LockMutex (l : lock_id) : sessE unit
| UnlockMutex (l : lock_id) : sessE unit
| WriteSome (bs : list byte) : sessE (result nat io_error)
| Flush : sessE (result unit io_error)
| TransportRead : sessE (result (list byte) io_error)
| RxSend (rx : RxPayload) : sessE unit
| ErrSend (e : ClientError) : sessE unit
| RxRecv (timeout : option Z) : sessE (option RxPayload)
| ErrTryRecv : sessE (option ClientError)
| DropEventSenders : sessE unit
| TakeReaderHandle : sessE bool
| AbortReader : sessE unit.

Inductive sess_choice :=
| CDefault
| CElapsed                              (** the timer has expired *)
| CChunk (n : nat)                      (** how much one write accepts *)
| CIoError (e : io_error)
| CRead (bs : list byte)                (** what one read returns; [[]] is EOF *)
| COrder (l : list (Z * Pending)).      (** iteration order of the taken map *)

(** *** State updates *)

Definition with_next_tag (t : Z) (s : Sess) : Sess := {|
  next_tag := t; pending := pending s; next_chan := next_chan s; chans := chans s;
  rx_queue := rx_queue s; err_queue := err_queue s; senders_alive := senders_alive s;
  closed := closed s; reader_handle := reader_handle s; reader_aborted := reader_aborted s;
  reader_tid := reader_tid s; locks := locks s; wire_out := wire_out s;
  wire_in := wire_in s |}.

Definition with_map (m : gmap Z Pending) (cs : gmap nat Chan) (s : Sess) : Sess := {|
  next_tag := next_tag s; pending := m; next_chan := next_chan s; chans := cs;
  rx_queue := rx_queue s; err_queue := err_queue s; senders_alive := senders_alive s;
  closed := closed s; reader_handle := reader_handle s; reader_aborted := reader_aborted s;
  reader_tid := reader_tid s; locks := locks s; wire_out := wire_out s;
  wire_in := wire_in s |}.

Definition with_next_chan (n : nat) (s : Sess) : Sess := {|
  next_tag := next_tag s; pending := pending s; next_chan := n; chans := chans s;
  rx_queue := rx_queue s; err_queue := err_queue s; senders_alive := senders_alive s;
  closed := closed s; reader_handle := reader_handle s; reader_aborted := reader_aborted s;
  reader_tid := reader_tid s; locks := locks s; wire_out := wire_out s;
  wire_in := wire_in s |}.

Definition with_queues (rx : list RxPayload) (er : list ClientError) (alive : bool)
    (s : Sess) : Sess := {|
  next_tag := next_tag s; pending := pending s; next_chan := next_chan s; chans := chans s;
  rx_queue := rx; err_queue := er; senders_alive := alive;
  closed := closed s; reader_handle := reader_handle s; reader_aborted := reader_aborted s;
  reader_tid := reader_tid s; locks := locks s; wire_out := wire_out s;
  wire_in := wire_in s |}.

Definition with_flags (cl rh ra : bool) (s : Sess) : Sess := {|
  next_tag := next_tag s; pending := pending s; next_chan := next_chan s; chans := chans s;
  rx_queue := rx_queue s; err_queue := err_queue s; senders_alive := senders_alive s;
  closed := cl; reader_handle := rh; reader_aborted := ra;
  reader_tid := reader_tid s; locks := locks s; wire_out := wire_out s;
  wire_in := wire_in s |}.

Definition with_locks (lk : lock_id → option nat) (s : Sess) : Sess := {|
  next_tag := next_tag s; pending := pending s; next_chan := next_chan s; chans := chans s;
  rx_queue := rx_queue s; err_queue := err_queue s; senders_alive := senders_alive s;
  closed := closed s; reader_handle := reader_handle s; reader_aborted := reader_aborted s;
  reader_tid := reader_tid s; locks := lk; wire_out := wire_out s;
  wire_in := wire_in s |}.

Definition with_wire (o : list (nat * byte)) (i : list (list byte)) (s : Sess) : Sess := {|
  next_tag := next_tag s; pending := pending s; next_chan := next_chan s; chans := chans s;
  rx_queue := rx_queue s; err_queue := err_queue s; senders_alive := senders_alive s;
  closed := closed s; reader_handle := reader_handle s; reader_aborted := reader_aborted s;
  reader_tid := reader_tid s; locks := locks s; wire_out := o;
  wire_in := i |}.

(** The bytes [bs] as task [i] writes them. *)
Definition stamp (i : nat) (bs : list byte) : list (nat * byte) := (λ b, (i, b)) <$> bs.
#[global] Arguments stamp : simpl never.

(** *** Channels *)

Definition chan_with_sender (l : sender_loc) (c : Chan) : Chan := {|
  ch_tag := ch_tag c; ch_cmd := ch_cmd c; ch_sender := l; ch_value := ch_value c;
  ch_owner := ch_owner c; ch_listening := ch_listening c |}.

Definition chan_unlisten (c : Chan) : Chan := {|
  ch_tag := ch_tag c; ch_cmd := ch_cmd c; ch_sender := ch_sender c; ch_value := ch_value c;
  ch_owner := ch_owner c; ch_listening := false |}.

(** [waker.send(r)] consumes the sender; the value is lost if the receiver has
    been dropped. *)
Definition chan_send (r : SessionResponse) (c : Chan) : Chan := {|
  ch_tag := ch_tag c; ch_cmd := ch_cmd c; ch_sender := Gone;
  ch_value := if ch_listening c then Some r else ch_value c;
  ch_owner := ch_owner c; ch_listening := ch_listening c |}.

Definition set_sender (w : nat) (l : sender_loc) (cs : gmap nat Chan) : gmap nat Chan :=
  alter (chan_with_sender l) w cs.

(** [alloc_tag]: the tag to use, and the next one (a wrapping [u16] that skips 0). *)
Definition alloc_tag (t : Z) : Z * Z :=
  let t' := wrapping_add 16 t 1 in
  (t, if t' =? 0 then 1 else t').

(** [map.insert(tag, p)]: the waker of a replaced entry is dropped. *)
Definition map_insert (tag : Z) (p : Pending) (s : Sess) : Sess :=
  let cs := match pending s !! tag with
            | Some old => set_sender (waker old) Gone (chans s)
            | None => chans s
            end in
  with_map (<[tag := p]> (pending s)) (set_sender (waker p) InMap cs) s.

Definition map_take (i : nat) (l : list (Z * Pending)) (s : Sess) : Sess :=
  with_map ∅ (foldr (λ tp cs, set_sender (waker tp.2) (HeldBy i) cs) (chans s) l) s.

(** [let mut buf = [0u8; 256]] in [reader_loop]. *)
Definition read_buf_size : nat := 256.

Definition valid_order (l : list (Z * Pending)) (m : gmap Z Pending) : bool :=
  bool_decide (list_to_map l = m ∧ NoDup l.*1).

Definition sess_do (X : Type) (i : nat) (c : sess_choice) (e : sessE X) (s : Sess) :
    option (X * Sess) :=
  match e in sessE X return option (X * Sess) with
  | LoadClosed => Some (closed s, s)
  | StoreClosed => Some (tt, with_flags true (reader_handle s) (reader_aborted s) s)
  | AllocTag =>
      let '(tag, next) := alloc_tag (next_tag s) in Some (tag, with_next_tag next s)
  | NewOneshot tag cmd =>
      let w := next_chan s in
      let ch := {| ch_tag := tag; ch_cmd := cmd; ch_sender := HeldBy i; ch_value := None;
                   ch_owner := i; ch_listening := true |} in
      Some (w, with_next_chan (S w) (with_map (pending s) (<[w := ch]> (chans s)) s))
  | PendingInsert tag p => Some (tt, map_insert tag p s)
  | PendingRemove tag =>
      match pending s !! tag with
      | Some p => Some (Some p, with_map (delete tag (pending s))
                                  (set_sender (waker p) (HeldBy i) (chans s)) s)
      | None => Some (None, s)
      end
  | PendingTake =>
      let l := match c with COrder l => l | _ => map_to_list (pending s) end in
      if valid_order l (pending s) then Some (l, map_take i l s) else None
  | DropWaker w => Some (tt, with_map (pending s) (set_sender w Gone (chans s)) s)
  | WakerSend w r => Some (tt, with_map (pending s) (alter (chan_send r) w (chans s)) s)
  | AwaitResponse w _ =>
      match chans s !! w with
      | None => None
      | Some ch =>
          let done r := Some (r, with_map (pending s)
                        (alter (chan_unlisten) w (chans s)) s) in
          match ch_value ch, ch_sender ch, c with
          | Some r, _, _ => done (Responded r)
          | None, Gone, _ => done RecvError
          | None, _, CElapsed => done Elapsed
          | None, _, _ => None
          end
      end
  | DropReceiver w =>
      Some (tt, with_map (pending s) (alter (chan_unlisten) w (chans s)) s)
  | LockMutex l =>
      match locks s l with
      | None => Some (tt, with_locks (<[l := Some i]> (locks s)) s)
      | Some _ => None
      end
  | UnlockMutex l => Some (tt, with_locks (<[l := None]> (locks s)) s)
  | WriteSome bs =>
      match c with
      | CIoError e => Some (Err e, s)
      | CChunk n => Some (Ok (min n (length bs)),
                          with_wire (wire_out s ++ stamp i (take n bs)) (wire_in s) s)
      | _ => Some (Ok (length bs), with_wire (wire_out s ++ stamp i bs) (wire_in s) s)
      end
  | Flush => match c with CIoError e => Some (Err e, s) | _ => Some (Ok tt, s) end
  | TransportRead =>
      match c with
      | CRead [] => Some (Ok [], s)
      | CRead bs =>
          if (length bs <=? read_buf_size)%nat then
            Some (Ok bs, with_wire (wire_out s) (wire_in s ++ [bs]) s)
          else None
      | CIoError e => Some (Err e, s)
      | _ => None
      end
  | RxSend rx =>
      Some (tt, with_queues (rx_queue s ++ [rx]) (err_queue s) (senders_alive s) s)
  | ErrSend e =>
      Some (tt, with_queues (rx_queue s) (err_queue s ++ [e]) (senders_alive s) s)
  | RxRecv timeout =>
      match rx_queue s, senders_alive s, timeout, c with
      | rx :: q, _, _, _ => Some (Some rx, with_queues q (err_queue s) (senders_alive s) s)
      | [], false, _, _ => Some (None, s)
      | [], true, Some _, CElapsed => Some (None, s)
      | [], true, _, _ => None
      end
  | ErrTryRecv =>
      match err_queue s with
      | e :: q => Some (Some e, with_queues (rx_queue s) q (senders_alive s) s)
      | [] => Some (None, s)
      end
  | DropEventSenders => Some (tt, with_queues (rx_queue s) (err_queue s) false s)
  | TakeReaderHandle => Some (reader_handle s, with_flags (closed s) false (reader_aborted s) s)
  | AbortReader => Some (tt, with_flags (closed s) (reader_handle s) true s)
  end.

(** A dropped task drops the wakers and receivers it holds and releases its
    locks; dropping the reader also drops the senders of the two event queues. *)
Definition chan_drop_task (i : nat) (c : Chan) : Chan := {|
  ch_tag := ch_tag c; ch_cmd := ch_cmd c;
  ch_sender := match ch_sender c with
               | HeldBy j => if decide (i = j) then Gone else HeldBy j
               | l => l
               end;
  ch_value := ch_value c;
  ch_owner := ch_owner c;
  ch_listening := if decide (i = ch_owner c) then false else ch_listening c |}.

Definition sess_drop (i : nat) (s : Sess) : Sess :=
  with_locks (λ l, if decide (locks s l = Some i) then None else locks s l)
    (with_queues (rx_queue s) (err_queue s)
       (if decide (reader_tid s = i) then false else senders_alive s)
       (with_map (pending s) (chan_drop_task i <$> chans s) s)).

#[export] Instance sess_sem : Sem sessE Sess :=
  {| choice := sess_choice; do_eff := sess_do; on_drop := sess_drop |}.

Lemma stamp_app i bs bs' : stamp i (bs ++ bs') = stamp i bs ++ stamp i bs'.
Proof using Type. apply fmap_app. Qed.

(** The state [Session::spawn] builds, for a reader task [rt]. *)
Definition spawn_state (rt : nat) : Sess := {|
  next_tag := 1; pending := ∅; next_chan := 0; chans := ∅; rx_queue := []; err_queue := [];
  senders_alive := true; closed := false; reader_handle := true; reader_aborted := false;
  reader_tid := rt; locks := λ _, None; wire_out := []; wire_in := [] |}.
End effects.

(** ** The functions of the session *)

Section session.
Context `{Wire}.

Definition describe_cmd (type_id : Z) : string :=
  if type_id =? TYPE_PING then "PING"
  else if type_id =? TYPE_GET_INFO then "GET_INFO"
  else if type_id =? TYPE_SET_CONFIG then "SET_CONFIG"
  else if type_id =? TYPE_TX then "TX"
  else if type_id =? TYPE_RX_START then "RX_START"
  else if type_id =? TYPE_RX_STOP then "RX_STOP"
  else "command".

Definition write_frame (type_id tag : Z) (payload : list byte) :
    prog sessE (ClientResult unit) :=
  match encode_frame type_id tag payload with
  | Err e => Ret (Err (EncodeFailed (encode_error_debug e)))
  | Ok wire =>
      trigger (LockMutex WriterLock) ;;
      r ← write_all WriteSome wire;
      match r with
      | Err e => trigger (UnlockMutex WriterLock) ;; Ret (Err (Io e))
      | Ok _ =>
          r ← trigger Flush;
          trigger (UnlockMutex WriterLock) ;;
          Ret (map_err Io r)
      end
  end.

(** [self.pending.lock().await.remove(&tag);]: the removed entry, and with it its
    waker, is dropped. *)
Definition remove_pending (tag : Z) : prog sessE unit :=
  old ← trigger (PendingRemove tag);
  match old with
  | Some p => trigger (DropWaker (waker p))
  | None => Ret tt
  end.

Definition send_command (type_id : Z) (payload : list byte) (timeout : Z) :
    prog sessE (ClientResult SessionResponse) :=
  is_closed ← trigger LoadClosed;
  if (is_closed : bool) then Ret (Err (TransportClosed "session closed"))
  else
    tag ← trigger AllocTag;
    rx ← trigger (NewOneshot tag type_id);
    trigger (PendingInsert tag {| cmd_type := type_id; waker := rx |}) ;;
    w ← write_frame type_id tag payload;
    match w with
    | Err e =>
        remove_pending tag ;;
        trigger (DropReceiver rx) ;;
        Ret (Err e)
    | Ok _ =>
        r ← trigger (AwaitResponse rx timeout);
        match r with
        | Responded resp => Ret (Ok resp)
        | RecvError => remove_pending tag ;; Ret (Err ReaderExited)
        | Elapsed => remove_pending tag ;; Ret (Err (TimedOut (describe_cmd type_id)))
        end
    end.

Definition recv_rx (timeout : Z) : prog sessE (option RxPayload) :=
  trigger (LockMutex RxLock) ;;
  rx ← trigger (RxRecv (Some timeout));
  trigger (UnlockMutex RxLock) ;;
  Ret rx.

Definition next_rx : prog sessE (option RxPayload) :=
  trigger (LockMutex RxLock) ;;
  rx ← trigger (RxRecv None);
  trigger (UnlockMutex RxLock) ;;
  Ret rx.

Definition drain_async_errors : prog sessE (list ClientError) :=
  trigger (LockMutex ErrLock) ;;
  out ← loop (λ out,
    e ← trigger ErrTryRecv;
    match e with
    | Some e => Ret (inl (out ++ [e]))
    | None => Ret (inr out)
    end) [];
  trigger (UnlockMutex ErrLock) ;;
  Ret out.

(** [for (_tag, p) in pending { let _ = p.waker.send(..); }] *)
Definition wake_all (msg : string) (l : list (Z * Pending)) : prog sessE unit :=
  prog_for l (λ tp, trigger (WakerSend (waker tp.2) (RErr (TransportClosed msg)))).

Definition close : prog sessE unit :=
  trigger StoreClosed ;;
  pending ← trigger PendingTake;
  wake_all "session closed" pending ;;
  h ← trigger TakeReaderHandle;
  if (h : bool) then trigger AbortReader else Ret tt.

(** *** Inbound frames *)

(** The response a tagged frame resolves a command with (the last [match] of
    [dispatch]). *)
Definition response_for (cmd_type type_id : Z) (payload : list byte) : SessionResponse :=
  if type_id =? TYPE_OK then
    match OkPayload_parse_for cmd_type payload with
    | Ok OkEmpty => REmpty
    | Ok (OkInfo i) => RInfo i
    | Ok (OkSetConfig r) => RSetConfig r
    | Err _ => RErr (BadFrame "OK payload did not parse for command context")
    end
  else if type_id =? TYPE_ERR then
    match decode_err_payload payload with
    | Ok code => RErr (from_wire code)
    | Err _ => RErr (BadFrame "bad ERR payload")
    end
  else if type_id =? TYPE_TX_DONE then
    match TxDonePayload_decode payload with
    | Ok td => RTxDone td
    | Err _ => RErr (BadFrame "bad TX_DONE payload")
    end
  else RErr (BadFrame ("unexpected tagged frame type 0x" +:+ show_hex 2 type_id)).

Definition dispatch_async (type_id : Z) (payload : list byte) : prog sessE unit :=
  if type_id =? TYPE_RX then
    match RxPayload_decode payload with
    | Ok rx => trigger (RxSend rx)
    | Err _ => trigger (ErrSend (BadFrame "bad RX payload"))
    end
  else if type_id =? TYPE_ERR then
    match decode_err_payload payload with
    | Ok code => trigger (ErrSend (from_wire code))
    | Err _ => trigger (ErrSend (BadFrame "bad async ERR payload"))
    end
  else Ret tt.

Definition dispatch (type_id tag : Z) (payload : list byte) : prog sessE unit :=
  if tag =? 0 then dispatch_async type_id payload
  else
    found ← trigger (PendingRemove tag);
    match found with
    | None => Ret tt
    | Some p =>
        if (cmd_type p =? TYPE_TX) && (type_id =? TYPE_OK) then
          trigger (PendingInsert tag p)
        else
          trigger (WakerSend (waker p) (response_for (cmd_type p) type_id payload))
    end.

(** One element of [works]. *)
Definition handle_work (w : FrameResult) : prog sessE unit :=
  match w with
  | FrameOk type_id tag payload => dispatch type_id tag payload
  | FrameErr => trigger (ErrSend (BadFrame "inbound frame failed CRC or COBS"))
  end.

Definition reader_body (decoder : FrameDecoder) : prog sessE (FrameDecoder + unit) :=
  is_closed ← trigger LoadClosed;
  if (is_closed : bool) then Ret (inr tt)
  else
    r ← trigger TransportRead;
    match r with
    | Ok [] => Ret (inr tt)
    | Err _ => Ret (inr tt)
    | Ok buf =>
        let '(decoder, works) := decoder_feed decoder buf in
        prog_for works handle_work ;;
        Ret (inl decoder)
    end.

Definition reader_loop : prog sessE unit :=
  loop reader_body decoder_new ;;
  pending ← trigger PendingTake;
  wake_all "reader exited" pending ;;
  trigger DropEventSenders.
End session.

(** ** The typed command helpers

    They only use [send_command], so they are written over any effects that
    provide it: the client of this interface sees a command as one step. *)

Class SendCommand `{WireTypes} (E : Type → Type) :=
  send_command_eff : Z → list byte → Z → prog E (ClientResult SessionResponse).

#[export] Instance sess_send_command `{Wire} : SendCommand sessE := send_command.

Section helpers.
Context `{Wire} {E : Type → Type} `{!SendCommand E}.
(** [{other:?}] in the messages for a response of the wrong shape. *)
Variable response_debug : SessionResponse → string.

Definition unexpected {A} (cmd : string) (other : SessionResponse) : ClientResult A :=
  Err (Other ("unexpected " +:+ cmd +:+ " response: " +:+ response_debug other)).

Definition ping (timeout : Z) : prog E (ClientResult unit) :=
  r ←? send_command_eff TYPE_PING [] timeout;
  Ret match r with
      | REmpty => Ok tt
      | RErr e => Err e
      | other => unexpected "PING" other
      end.

Definition get_info (timeout : Z) : prog E (ClientResult Info) :=
  r ←? send_command_eff TYPE_GET_INFO [] timeout;
  Ret match r with
      | RInfo i => Ok i
      | RErr e => Err e
      | other => unexpected "GET_INFO" other
      end.

Definition set_config (modulation : Modulation) (timeout : Z) :
    prog E (ClientResult SetConfigResult) :=
  match encode_set_config modulation with
  | Err e => Ret (Err (EncodeFailed (encode_error_debug e)))
  | Ok payload =>
      r ←? send_command_eff TYPE_SET_CONFIG payload timeout;
      Ret match r with
          | RSetConfig r => Ok r
          | RErr e => Err e
          | other => unexpected "SET_CONFIG" other
          end
  end.

Definition rx_start (timeout : Z) : prog E (ClientResult unit) :=
  r ←? send_command_eff TYPE_RX_START [] timeout;
  Ret match r with
      | REmpty => Ok tt
      | RErr e => Err e
      | other => unexpected "RX_START" other
      end.

Definition rx_stop (timeout : Z) : prog E (ClientResult unit) :=
  r ←? send_command_eff TYPE_RX_STOP [] timeout;
  Ret match r with
      | REmpty => Ok tt
      | RErr e => Err e
      | other => unexpected "RX_STOP" other
      end.

(** [payload[1..1 + data.len()]] on a [[u8; MAX_PAYLOAD_FIELD]] panics when the
    data does not fit. *)
Definition transmit (data : list byte) (skip_cad : bool) (timeout : Z) :
    prog E (ClientResult TxDonePayload) :=
  match data with
  | [] => Ret (Err Length)
  | _ =>
      if (1 + length data <=? MAX_PAYLOAD_FIELD)%nat then
        r ←? send_command_eff TYPE_TX (tx_flags_as_byte skip_cad :: data) timeout;
        Ret match r with
            | RTxDone td =>
                match td_result td with
                | Transmitted => Ok td
                | TxChannelBusy => Err ChannelBusy
                | TxCancelled => Err Cancelled
                end
            | RErr e => Err e
            | other => unexpected "TX" other
            end
      else Panic "range end index out of range for slice"
  end.
End helpers.
