(* ===== verification/SessionInv.v ===== *)
(** * The session under every interleaving

    The invariant of the shared state of a session ([sess_inv]), what a task may
    assume of the others ([rely]), and for each function of [Session.v] a Hoare
    triple over them.  [rg_adequacy] turns the triples into statements about all
    reachable states of any pool of tasks, cancellations included. *)

From stdpp Require Import functions.
From S2P Require Import Prelude Runtime Errors Protocol Session.
Local Open Scope Z_scope.

Section inv.
Context `{Wire}.

(** Every frame the decoder has produced from the bytes read so far. *)
Definition feed_step (df : FrameDecoder * list FrameResult) (chunk : list byte) :
    FrameDecoder * list FrameResult :=
  let '(d, fs) := df in
  let '(d', fs') := decoder_feed d chunk in (d', fs ++ fs').

Definition feed_all (chunks : list (list byte)) : FrameDecoder * list FrameResult :=
  foldl feed_step (decoder_new, []) chunks.

Definition frames_received (s : Sess) : list FrameResult := (feed_all (wire_in s)).2.

(** The responses a command with this tag and type may be resolved with, when
    the session's closed flag is [cl] and the frames received so far are [fs]. *)
Inductive legit (cl : bool) (fs : list FrameResult) (tag cmd : Z) : SessionResponse → Prop :=
| legit_closed :
    cl = true → legit cl fs tag cmd (RErr (TransportClosed "session closed"))
| legit_reader_exited :
    legit cl fs tag cmd (RErr (TransportClosed "reader exited"))
| legit_frame ty pl :
    FrameOk ty tag pl ∈ fs →
    (cmd = TYPE_TX → ty ≠ TYPE_OK) →
    legit cl fs tag cmd (response_for cmd ty pl).

Record sess_inv (s : Sess) : Prop := {
  inv_tag : 1 ≤ next_tag s < 2 ^ 16;
  inv_fresh w c : chans s !! w = Some c → (w < next_chan s)%nat;
  inv_ch_tag w c : chans s !! w = Some c → 1 ≤ ch_tag c < 2 ^ 16;
  (** every pending entry is the sender of the channel made for it *)
  inv_map tag p : pending s !! tag = Some p →
    ∃ c, chans s !! waker p = Some c ∧ ch_tag c = tag ∧ ch_cmd c = cmd_type p ∧
         ch_sender c = InMap;
  inv_in_map w c : chans s !! w = Some c → ch_sender c = InMap →
    pending s !! ch_tag c = Some {| cmd_type := ch_cmd c; waker := w |};
  inv_unsent w c : chans s !! w = Some c → ch_sender c ≠ Gone → ch_value c = None;
  inv_legit w c r : chans s !! w = Some c → ch_value c = Some r →
    legit (closed s) (frames_received s) (ch_tag c) (ch_cmd c) r;
}.

(** What the steps of the other tasks may do to one channel, seen from task [i]. *)
Record chan_rely (i : nat) (c c' : Chan) : Prop := {
  cr_tag : ch_tag c' = ch_tag c;
  cr_cmd : ch_cmd c' = ch_cmd c;
  cr_owner : ch_owner c' = ch_owner c;
  cr_gone : ch_sender c = Gone → ch_sender c' = Gone;
  cr_value r : ch_value c = Some r → ch_value c' = Some r;
  cr_held : ch_sender c = HeldBy i ↔ ch_sender c' = HeldBy i;
  (** once out of the map, the entry of a command other than TX stays out *)
  cr_out : ch_owner c = i → ch_cmd c ≠ TYPE_TX → ch_sender c ≠ InMap → ch_sender c' ≠ InMap;
}.

Record rely (i : nat) (s s' : Sess) : Prop := {
  r_chans w c : chans s !! w = Some c → ∃ c', chans s' !! w = Some c' ∧ chan_rely i c c';
  r_new w c' : chans s !! w = None → chans s' !! w = Some c' →
    ch_sender c' ≠ HeldBy i ∧ ch_owner c' ≠ i;
  r_closed : closed s = true → closed s' = true;
  r_reader : reader_tid s' = reader_tid s;
  r_wire : wire_in s `prefix_of` wire_in s';
  r_wire_reader : reader_tid s = i → wire_in s' = wire_in s;
}.

#[global] Instance chan_rely_preorder i : PreOrder (chan_rely i).
Proof using Type.
  split.
  - intros c. by split.
  - intros c1 c2 c3 [] []. split; try congruence; try tauto; intros; auto.
    apply cr_out1; [congruence..|auto].
Qed.

#[global] Instance rely_preorder i : PreOrder (rely i).
Proof using Type.
  split.
  - intros s. split; try done; [|congruence]. intros w c Hc. by exists c.
  - intros s1 s2 s3 H1 H2. split.
    + intros w c Hc. destruct (r_chans _ _ _ H1 w c Hc) as (c2 & Hc2 & ?).
      destruct (r_chans _ _ _ H2 w c2 Hc2) as (c3 & ? & ?). exists c3.
      split; [done|]. by transitivity c2.
    + intros w c3 Hn Hc3. destruct (chans s2 !! w) as [c2|] eqn:Hc2.
      * destruct (r_new _ _ _ H1 w c2 Hn Hc2) as [? ?].
        destruct (r_chans _ _ _ H2 w c2 Hc2) as (c & Hc & [ ]). simplify_eq.
        split; [tauto|congruence].
      * by apply (r_new _ _ _ H2 w).
    + destruct H1, H2. auto.
    + destruct H1, H2. congruence.
    + destruct H1, H2. by transitivity (wire_in s2).
    + intros Hr. rewrite (r_wire_reader _ _ _ H2), (r_wire_reader _ _ _ H1); [done..|].
      by rewrite (r_reader _ _ _ H1).
Qed.

Lemma feed_all_snoc chunks ch d fs :
  decoder_feed (feed_all chunks).1 ch = (d, fs) →
  feed_all (chunks ++ [ch]) = (d, (feed_all chunks).2 ++ fs).
Proof using Type.
  intros Hf. unfold feed_all in *. rewrite foldl_app. simpl.
  destruct (foldl _ _ chunks) as [d0 fs0]. simpl in *. by rewrite Hf.
Qed.

Lemma feed_all_prefix l k :
  l `prefix_of` k → (feed_all l).2 `prefix_of` (feed_all k).2.
Proof using Type.
  intros [k' ->]. induction k' as [|ch k' IH] using rev_ind.
  - by rewrite app_nil_r.
  - rewrite app_assoc. destruct (decoder_feed (feed_all (l ++ k')).1 ch) as [d fs] eqn:Hd.
    rewrite (feed_all_snoc _ _ _ _ Hd). simpl. by apply prefix_app_r.
Qed.

Lemma legit_mono cl cl' fs fs' tag cmd r :
  (cl = true → cl' = true) → fs `prefix_of` fs' →
  legit cl fs tag cmd r → legit cl' fs' tag cmd r.
Proof using Type.
  intros Hcl [k ->] []; constructor; auto. by apply elem_of_app; left.
Qed.

(** *** Assertions *)

(** The channel [w] was made by task [i] for a command; these facts never change. *)
Definition chan_info (i w : nat) (tag cmd : Z) (s : Sess) : Prop :=
  ∃ c, chans s !! w = Some c ∧ ch_owner c = i ∧ ch_tag c = tag ∧ ch_cmd c = cmd.

(** What was sent over channel [w], for good. *)
Definition value_at (w : nat) (r : SessionResponse) (s : Sess) : Prop :=
  ∃ c, chans s !! w = Some c ∧ ch_value c = Some r.

(** Task [i] holds the sender of channel [w]. *)
Definition held (i w : nat) (tag cmd : Z) (s : Sess) : Prop :=
  ∃ c, chans s !! w = Some c ∧ ch_sender c = HeldBy i ∧ ch_tag c = tag ∧ ch_cmd c = cmd.

(** Task [i] holds no sender but those of [ws]. *)
Definition holds_only (i : nat) (ws : list nat) (s : Sess) : Prop :=
  ∀ w c, chans s !! w = Some c → ch_sender c = HeldBy i → w ∈ ws.

Definition wakers (l : list (Z * Pending)) : list nat := (λ tp, waker tp.2) <$> l.

(** Task [i] holds exactly the senders of the entries [l]. *)
Record holds (i : nat) (l : list (Z * Pending)) (s : Sess) : Prop := {
  h_nodup : NoDup (wakers l);
  h_all t p : (t, p) ∈ l → held i (waker p) t (cmd_type p) s;
  h_only : holds_only i (wakers l) s;
}.

(** The channels task [i] has made are among [ws]. *)
Definition owns (i : nat) (ws : list nat) (s : Sess) : Prop :=
  ∀ w c, chans s !! w = Some c → ch_owner c = i → w ∈ ws.

(** The entry of the (non-TX) command of channel [w] is not in the map. *)
Definition parked (i w : nat) (s : Sess) : Prop :=
  ∃ c, chans s !! w = Some c ∧ ch_owner c = i ∧
       (ch_cmd c ≠ TYPE_TX → ch_sender c ≠ InMap).

(** It is out of the map for good: the task that made it does not hold it. *)
Definition out (i w : nat) (s : Sess) : Prop :=
  ∃ c, chans s !! w = Some c ∧ ch_owner c = i ∧
       (ch_cmd c ≠ TYPE_TX → ch_sender c ≠ InMap ∧ ch_sender c ≠ HeldBy i).

Definition legit_now (tag cmd : Z) (r : SessionResponse) (s : Sess) : Prop :=
  legit (closed s) (frames_received s) tag cmd r.

Definition received (fs : list FrameResult) (s : Sess) : Prop :=
  ∀ f, f ∈ fs → f ∈ frames_received s.

(** The reader task [i] has fed everything that was read to its decoder. *)
Definition decoder_at (i : nat) (d : FrameDecoder) (s : Sess) : Prop :=
  reader_tid s = i ∧ (feed_all (wire_in s)).1 = d.

Abbreviation Stable := (Runtime.Stable sess_inv rely).
Abbreviation spec := (Runtime.spec sess_inv rely).
Abbreviation Guar := (Runtime.Guar rely).

#[global] Instance chan_info_stable i j w tag cmd : Stable i (chan_info j w tag cmd).
Proof using Type.
  intros s s' (c & Hc & ? & ? & ?) Hr _.
  destruct (r_chans _ _ _ Hr w c Hc) as (c' & ? & []). exists c'.
  split_and!; [done|tauto || congruence..].
Qed.
#[global] Instance value_at_stable i w r : Stable i (value_at w r).
Proof using Type.
  intros s s' (c & Hc & Hv) Hr _. destruct (r_chans _ _ _ Hr w c Hc) as (c' & ? & []).
  exists c'. auto.
Qed.
#[global] Instance held_stable i w tag cmd : Stable i (held i w tag cmd).
Proof using Type.
  intros s s' (c & Hc & ? & ? & ?) Hr _.
  destruct (r_chans _ _ _ Hr w c Hc) as (c' & ? & []). exists c'.
  split_and!; [done|tauto || congruence..].
Qed.
#[global] Instance holds_only_stable i ws : Stable i (holds_only i ws).
Proof using Type.
  intros s s' Hh Hr _ w c' Hc' Hs. destruct (chans s !! w) as [c|] eqn:Hc.
  - destruct (r_chans _ _ _ Hr w c Hc) as (c2 & ? & []). simplify_eq. apply (Hh w c); tauto.
  - by destruct (r_new _ _ _ Hr w c' Hc Hc').
Qed.
#[global] Instance holds_stable i l : Stable i (holds i l).
Proof using Type.
  intros s s' [] ??. split; [done|intros t p Hq; apply (held_stable i _ _ _ s); auto|].
  by apply (holds_only_stable i _ s).
Qed.
#[global] Instance owns_stable i ws : Stable i (owns i ws).
Proof using Type.
  intros s s' Ho Hr _ w' c' Hc' Hi. destruct (chans s !! w') as [c|] eqn:Hc.
  - destruct (r_chans _ _ _ Hr w' c Hc) as (c2 & ? & []). simplify_eq. by apply (Ho w' c).
  - by destruct (r_new _ _ _ Hr w' c' Hc Hc').
Qed.
#[global] Instance parked_stable i w : Stable i (parked i w).
Proof using Type.
  intros s s' (c & Hc & ? & Hout) Hr _.
  destruct (r_chans _ _ _ Hr w c Hc) as (c' & ? & []). exists c'.
  split_and!; [done|congruence|]. intros. apply cr_out0; [done|congruence|]. apply Hout. congruence.
Qed.
#[global] Instance out_stable i w : Stable i (out i w).
Proof using Type.
  intros s s' (c & Hc & ? & Hout) Hr _.
  destruct (r_chans _ _ _ Hr w c Hc) as (c' & ? & []). exists c'.
  split_and!; [done|congruence|]. rewrite cr_cmd0. intros Hne. destruct (Hout Hne).
  split; [by apply cr_out0|tauto].
Qed.
#[global] Instance closed_stable i : Stable i (λ s, closed s = true).
Proof using Type. intros s s' Hs Hr _. by apply Hr. Qed.
#[global] Instance legit_now_stable i tag cmd r : Stable i (legit_now tag cmd r).
Proof using Type.
  intros s s' Hl Hr _. eapply legit_mono; [|apply feed_all_prefix|done]; apply Hr.
Qed.
#[global] Instance received_stable i fs : Stable i (received fs).
Proof using Type.
  intros s s' Hl Hr _ f Hf. destruct (feed_all_prefix _ _ (r_wire _ _ _ Hr)) as [k Hk].
  unfold frames_received. rewrite Hk. apply elem_of_app. left. by apply Hl.
Qed.
#[global] Instance decoder_at_stable i d : Stable i (decoder_at i d).
Proof using Type.
  intros s s' [Hi Hd] Hr _. split; [by rewrite (r_reader _ _ _ Hr)|].
  by rewrite (r_wire_reader _ _ _ Hr).
Qed.

Inductive effect_kind := KNew | KInsert | KOther.

(** What an own effect of task [i] other than a read preserves.  A sender that is
    not in the map stays where it is or is dropped, except that an insert
    ([KInsert]) puts one that the task holds into the map; only [KNew] makes a
    channel. *)
Record keeps (b : effect_kind) (i : nat) (s s' : Sess) : Prop := {
  k_chans w c : chans s !! w = Some c → ∃ c', chans s' !! w = Some c' ∧
    ch_tag c' = ch_tag c ∧ ch_cmd c' = ch_cmd c ∧ ch_owner c' = ch_owner c ∧
    (ch_sender c ≠ InMap →
       ch_sender c' = ch_sender c ∨ ch_sender c' = Gone ∨
       (b = KInsert ∧ ch_sender c = HeldBy i ∧ ch_sender c' = InMap));
  k_new w : b ≠ KNew → chans s !! w = None → chans s' !! w = None;
  k_closed : closed s = true → closed s' = true;
  k_reader : reader_tid s' = reader_tid s;
  k_wire : wire_in s' = wire_in s;
}.

Class Framed (b : effect_kind) (i : nat) (A : Sess → Prop) : Prop :=
  framed s s' : A s → keeps b i s s' → A s'.

#[global] Instance pure_framed b i φ : Framed b i (λ _, φ).
Proof using Type. by intros s s' ?. Qed.
#[global] Instance and_framed b i A B :
  Framed b i A → Framed b i B → Framed b i (λ s, A s ∧ B s).
Proof using Type. intros HA HB s s' [??] ?. split; eapply framed; eauto. Qed.
#[global] Instance or_framed b i A B :
  Framed b i A → Framed b i B → Framed b i (λ s, A s ∨ B s).
Proof using Type. intros HA HB s s' [?|?] ?; [left|right]; eapply framed; eauto. Qed.
#[global] Instance exist_framed {X} b i (A : X → Sess → Prop) :
  (∀ x, Framed b i (A x)) → Framed b i (λ s, ∃ x, A x s).
Proof using Type. intros HA s s' [x ?] ?. exists x. eapply framed; eauto. Qed.
#[global] Instance decoder_at_framed b i j d : Framed b i (decoder_at j d).
Proof using Type. intros s s' [??] []. split; congruence. Qed.
#[global] Instance received_framed b i fs : Framed b i (received fs).
Proof using Type. intros s s' Hs []. unfold received, frames_received. by rewrite k_wire0. Qed.
#[global] Instance legit_now_framed b i tag cmd r : Framed b i (legit_now tag cmd r).
Proof using Type.
  intros s s' Hs []. eapply legit_mono; [done| |done]. unfold frames_received.
  by rewrite k_wire0.
Qed.
#[global] Instance closed_framed b i : Framed b i (λ s, closed s = true).
Proof using Type. intros s s' Hs []. auto. Qed.
#[global] Instance chan_info_framed b i j w tag cmd : Framed b i (chan_info j w tag cmd).
Proof using Type.
  intros s s' (c & Hc & ? & ? & ?) []. destruct (k_chans0 w c Hc) as (c' & ? & ? & ? & ? & _).
  exists c'. split_and!; congruence.
Qed.
#[global] Instance parked_framed i w : Framed KOther i (parked i w).
Proof using Type.
  intros s s' (c & Hc & ? & Ho) []. destruct (k_chans0 w c Hc) as (c' & ? & ? & Hcmd & ? & Hs).
  exists c'. split_and!; [done|congruence|]. rewrite Hcmd. intros Hne.
  destruct Hs as [->|[->|[? _]]]; auto.
Qed.
Lemma owns_kept b i ws s s' : b ≠ KNew → owns i ws s → keeps b i s s' → owns i ws s'.
Proof using Type.
  intros Hb Ho [] w' c' Hc' <-. destruct (chans s !! w') as [c|] eqn:Hc.
  - destruct (k_chans0 w' c Hc) as (c2 & ? & _ & _ & ? & _). simplify_eq. by apply (Ho w' c).
  - by rewrite k_new0 in Hc'.
Qed.
#[global] Instance owns_framed_insert i ws : Framed KInsert i (owns i ws).
Proof using Type. intros s s' ? ?. by apply (owns_kept KInsert i ws s). Qed.
#[global] Instance owns_framed_other i ws : Framed KOther i (owns i ws).
Proof using Type. intros s s' ? ?. by apply (owns_kept KOther i ws s). Qed.
#[global] Instance out_framed b i w : Framed b i (out i w).
Proof using Type.
  intros s s' (c & Hc & ? & Ho) []. destruct (k_chans0 w c Hc) as (c' & ? & ? & Hcmd & ? & Hs).
  exists c'. split_and!; [done|congruence|]. rewrite Hcmd. intros Hne.
  destruct (Ho Hne). destruct Hs as [->|[->|(? & ? & _)]]; done.
Qed.

(** *** Updates of the channels *)

(** A channel update that leaves the pending map right. *)
Record good_change (cl : bool) (fs : list FrameResult) (c c' : Chan) : Prop := {
  gc_tag : ch_tag c' = ch_tag c;
  gc_cmd : ch_cmd c' = ch_cmd c;
  gc_in_map : ch_sender c' = InMap ↔ ch_sender c = InMap;
  gc_unsent : ch_sender c' ≠ Gone → ch_value c' = None;
  gc_legit r : ch_value c' = Some r → legit cl fs (ch_tag c) (ch_cmd c) r;
}.

Lemma inv_pointwise s cs :
  sess_inv s →
  (∀ w c', cs !! w = Some c' → ∃ c, chans s !! w = Some c ∧
     good_change (closed s) (frames_received s) c c') →
  (∀ w c, chans s !! w = Some c → is_Some (cs !! w)) →
  sess_inv (with_map (pending s) cs s).
Proof using Type.
  intros [] Hcs Hdom. split; simpl; [done|..].
  - intros w c' Hc'. destruct (Hcs w c' Hc') as (c & ? & _). eauto.
  - intros w c' Hc'. destruct (Hcs w c' Hc') as (c & ? & []). rewrite gc_tag0. eauto.
  - intros tag p Hp. destruct (inv_map0 tag p Hp) as (c & Hc & ? & ? & ?).
    destruct (Hdom _ _ Hc) as [c' Hc']. exists c'.
    destruct (Hcs _ _ Hc') as (c2 & ? & []). simplify_eq. split_and!; [done|congruence|congruence|tauto].
  - intros w c' Hc' Hm. destruct (Hcs w c' Hc') as (c & ? & []).
    rewrite gc_tag0, gc_cmd0. apply inv_in_map0; [done|tauto].
  - intros w c' Hc' Hg. destruct (Hcs w c' Hc') as (c & ? & []). auto.
  - intros w c' r Hc' Hr. destruct (Hcs w c' Hc') as (c & ? & []).
    rewrite gc_tag0, gc_cmd0. auto.
Qed.

Lemma inv_alter s f w :
  sess_inv s →
  (∀ c, chans s !! w = Some c → good_change (closed s) (frames_received s) c (f c)) →
  sess_inv (with_map (pending s) (alter f w (chans s)) s).
Proof using Type.
  intros Hi Hf. apply inv_pointwise; [done|..].
  - intros w' c'. rewrite lookup_alter. case_decide as Hw.
    + subst w'. destruct (chans s !! w) as [c|]; [|done]. simpl. intros [= <-]. eauto.
    + intros Hc. exists c'. split; [done|]. destruct Hi. split; eauto.
  - intros w' c Hc. rewrite lookup_alter. case_decide; subst; rewrite Hc; eauto.
Qed.

Lemma guar_chans i s m cs :
  (∀ w c, chans s !! w = Some c →
     ∃ c', cs !! w = Some c' ∧ ∀ j, i ≠ j → chan_rely j c c') →
  (∀ w, chans s !! w = None → cs !! w = None) →
  Guar i s (with_map m cs s).
Proof using Type.
  intros Hcs Hn j Hij. split; simpl; try done.
  - intros w c Hc. destruct (Hcs w c Hc) as (c' & ? & ?). eauto.
  - intros w c' Hc. by rewrite Hn.
Qed.

Lemma guar_alter i s m f w :
  (∀ c, chans s !! w = Some c → ∀ j, i ≠ j → chan_rely j c (f c)) →
  Guar i s (with_map m (alter f w (chans s)) s).
Proof using Type.
  intros Hf. apply guar_chans.
  - intros w' c Hc. rewrite lookup_alter. case_decide.
    + subst. rewrite Hc. simpl. eauto.
    + exists c. split; [done|]. intros j _. done.
  - intros w' Hc. rewrite lookup_alter. case_decide; [|done]. subst. by rewrite Hc.
Qed.

(** Effects that change neither the map nor a channel nor the bytes read. *)
Lemma rely_same j s s' :
  chans s' = chans s → (closed s = true → closed s' = true) → reader_tid s' = reader_tid s →
  wire_in s' = wire_in s → rely j s s'.
Proof using Type.
  intros Hc Hcl Hr Hw. split; try done.
  - intros w c. rewrite Hc. intros ?. by exists c.
  - intros w c'. rewrite Hc. congruence.
  - by rewrite Hw.
Qed.

Lemma inv_same s s' :
  sess_inv s → 1 ≤ next_tag s' < 2 ^ 16 → chans s' = chans s → pending s' = pending s →
  next_chan s' = next_chan s → (closed s = true → closed s' = true) →
  wire_in s `prefix_of` wire_in s' → sess_inv s'.
Proof using Type.
  intros [] Ht Hc Hp Hn Hcl Hw. split; rewrite ?Hc, ?Hp, ?Hn; try done.
  intros w c r ??. eapply legit_mono; [done|by apply feed_all_prefix|eauto].
Qed.

Lemma keeps_alter b i s f w :
  (∀ c, chans s !! w = Some c →
     ch_tag (f c) = ch_tag c ∧ ch_cmd (f c) = ch_cmd c ∧ ch_owner (f c) = ch_owner c ∧
     (ch_sender c ≠ InMap → ch_sender (f c) = ch_sender c ∨ ch_sender (f c) = Gone)) →
  keeps b i s (with_map (pending s) (alter f w (chans s)) s).
Proof using Type.
  intros Hf. split; simpl; try done.
  - intros w' c Hc. rewrite lookup_alter. case_decide.
    + subst. rewrite Hc. eexists. split; [done|]. destruct (Hf c Hc) as (? & ? & ? & Hs).
      split_and!; [done..|]. intros Hn. destruct (Hs Hn); auto.
    + exists c. split_and!; auto.
  - intros w' _ Hn. rewrite lookup_alter. case_decide; [subst|done]. by rewrite Hn.
Qed.

Lemma elem_of_wakers (l : list (Z * Pending)) w :
  w ∈ wakers l ↔ ∃ t p, (t, p) ∈ l ∧ w = waker p.
Proof using Type.
  unfold wakers. rewrite list_elem_of_fmap. split.
  - intros ([t p] & -> & ?). by exists t, p.
  - intros (t & p & ? & ->). by exists (t, p).
Qed.

(** *** Holding senders *)

Lemma wakers_nodup_cons t p (l : list (Z * Pending)) :
  NoDup (wakers ((t, p) :: l)) ↔ (waker p ∉ wakers l) ∧ NoDup (wakers l).
Proof using Type. apply NoDup_cons. Qed.

Lemma holds_head i t p l s :
  holds i ((t, p) :: l) s → held i (waker p) t (cmd_type p) s.
Proof using Type. intros []. apply h_all0. by left. Qed.

Lemma holds_pop i t p l s s' :
  holds i ((t, p) :: l) s →
  (∀ w c', chans s' !! w = Some c' → ch_sender c' = HeldBy i →
     w ≠ waker p ∧ ∃ c, chans s !! w = Some c ∧ ch_sender c = HeldBy i) →
  (∀ w c, w ≠ waker p → chans s !! w = Some c → ch_sender c = HeldBy i →
     chans s' !! w = Some c) →
  holds i l s'.
Proof using Type.
  intros [Hnd Hall Honly] Hback Hfwd. apply wakers_nodup_cons in Hnd as [Hp Hnd]. split; [done|..].
  - intros t' q Hq. destruct (Hall t' q) as (c & Hc & ?); [by right|].
    exists c. split; [|done]. apply Hfwd; [|done|tauto].
    intros E. apply Hp. rewrite <- E. apply elem_of_wakers. eauto.
  - intros w c' Hc' Hs. destruct (Hback w c' Hc' Hs) as (Hne & c & Hc & Hsc).
    specialize (Honly w c Hc Hsc). apply elem_of_cons in Honly as [|]; done.
Qed.

Lemma holds_push i s s' t p l :
  holds i l s → held i (waker p) t (cmd_type p) s' →
  (∀ c, chans s !! waker p = Some c → ch_sender c ≠ HeldBy i) →
  (∀ w, w ≠ waker p → chans s' !! w = chans s !! w) →
  holds i ((t, p) :: l) s'.
Proof using Type.
  intros [Hnd Hall Honly] Hp Hn Hsame.
  assert (∀ t' q, (t', q) ∈ l → waker q ≠ waker p) as Hne.
  { intros t' q Hq E. destruct (Hall t' q Hq) as (c & Hc & Hs & _).
    apply (Hn c); [by rewrite <- E|done]. }
  split.
  - apply wakers_nodup_cons. split; [|done]. intros (t' & q & Hq & E)%elem_of_wakers.
    by apply (Hne t' q Hq).
  - intros t' q [[= <- <-]|Hq]%elem_of_cons; [done|].
    destruct (Hall t' q Hq) as (c & ?). exists c. rewrite Hsame; [done|by eapply Hne].
  - intros w c Hc Hs. destruct (decide (w = waker p)) as [->|Hw]; [by left|].
    right. rewrite Hsame in Hc by done. by apply (Honly w c).
Qed.

Lemma alloc_tag_range t :
  1 ≤ t < 2 ^ 16 → (alloc_tag t).1 = t ∧ 1 ≤ (alloc_tag t).2 < 2 ^ 16.
Proof using Type.
  intros Ht. unfold alloc_tag, wrapping_add. change (2 ^ 16) with 65536 in *. simpl.
  split; [done|].
  destruct (Z.eqb_spec ((t + 1) mod 65536) 0) as [E|E]; [lia|].
  pose proof (Z.mod_pos_bound (t + 1) 65536). lia.
Qed.
End inv.
