(* ===== verification/SessionSpec.v ===== *)
(** * Hoare triples of the session's effects and functions

    One triple per effect of [Session.v] that the invariant depends on, then one
    per function: [send_command], [dispatch], [reader_loop], [close]. *)

From stdpp Require Import functions.
From S2P Require Import Prelude Runtime Errors Protocol Session SessionInv.
Local Open Scope Z_scope.

Abbreviation Stable := (Runtime.Stable sess_inv rely).
Abbreviation spec := (Runtime.spec sess_inv rely).
Abbreviation Guar := (Runtime.Guar rely).

Section updates.
Context `{Wire}.

(** *** Taking a sender out of the map, putting one in *)

Lemma set_sender_lookup w l cs w' :
  set_sender w l cs !! w' =
  if decide (w = w') then chan_with_sender l <$> cs !! w' else cs !! w'.
Proof using Type. unfold set_sender. rewrite lookup_alter. case_decide; by subst. Qed.

Lemma inv_remove i s tag p :
  sess_inv s → pending s !! tag = Some p →
  sess_inv (with_map (delete tag (pending s)) (set_sender (waker p) (HeldBy i) (chans s)) s).
Proof using Type.
  intros Hi Hp. destruct (inv_map s Hi tag p Hp) as (c & Hc & Ht & Hcmd & Hs).
  split; simpl; [by destruct Hi|..].
  - intros w c'. rewrite set_sender_lookup. case_decide; [subst|by apply inv_fresh].
    rewrite Hc. intros _. by eapply inv_fresh.
  - intros w c'. rewrite set_sender_lookup. case_decide; [subst|by apply inv_ch_tag].
    rewrite Hc. intros [= <-]. simpl. by eapply inv_ch_tag.
  - intros tag' p' [Hne Hp']%lookup_delete_Some.
    destruct (inv_map s Hi tag' p' Hp') as (c' & Hc' & ? & ? & ?).
    exists c'. rewrite set_sender_lookup. case_decide as Hw; [|done].
    rewrite Hw in Hc. congruence.
  - intros w c'. rewrite set_sender_lookup. case_decide as Hw.
    + subst. rewrite Hc. by intros [= <-].
    + intros Hc' Hm. pose proof (inv_in_map s Hi w c' Hc' Hm) as Hq.
      apply lookup_delete_Some. split; [|done]. intros ->. by simplify_eq.
  - intros w c'. rewrite set_sender_lookup. case_decide; [subst|by apply inv_unsent].
    rewrite Hc. intros [= <-] _. simpl. eapply inv_unsent; [done..|congruence].
  - intros w c' r. rewrite set_sender_lookup. case_decide; [subst|by apply (inv_legit s Hi)].
    rewrite Hc. intros [= <-]. simpl. by eapply (inv_legit s Hi).
Qed.

Lemma guar_remove i s tag p m :
  sess_inv s → pending s !! tag = Some p →
  Guar i s (with_map m (set_sender (waker p) (HeldBy i) (chans s)) s).
Proof using Type.
  intros Hi Hp. apply guar_alter. intros c Hc j Hij.
  destruct (inv_map s Hi tag p Hp) as (c' & ? & ? & ? & ?). simplify_eq.
  split; simpl; try done; [congruence|]. split; congruence.
Qed.

(** The sender of the entry an insert replaces is dropped. *)
Definition insert_chans (tag : Z) (p : Pending) (s : Sess) : gmap nat Chan :=
  chans (map_insert tag p s).

Lemma insert_chans_lookup i tag p s w c :
  sess_inv s → held i (waker p) tag (cmd_type p) s → chans s !! w = Some c →
  insert_chans tag p s !! w =
    Some (if decide (w = waker p) then chan_with_sender InMap c
          else if decide (ch_sender c = InMap ∧ ch_tag c = tag) then chan_with_sender Gone c
          else c).
Proof using Type.
  intros Hi (c0 & Hc0 & Hs0 & Ht0 & Hcmd0) Hc. unfold insert_chans, map_insert. simpl.
  assert (ch_sender c = InMap ∧ ch_tag c = tag →
          pending s !! tag = Some {| cmd_type := ch_cmd c; waker := w |}) as Hin.
  { intros [Hm <-]. by apply (inv_in_map s Hi). }
  rewrite set_sender_lookup.
  destruct (pending s !! tag) as [old|] eqn:Hold.
  - destruct (inv_map s Hi tag old Hold) as (c1 & Hc1 & Ht1 & _ & Hs1).
    rewrite set_sender_lookup, Hc.
    destruct (decide (waker p = w)) as [<-|Hne].
    + destruct (decide (waker old = waker p)); [congruence|]. by destruct (decide _).
    + destruct (decide (w = waker p)); [congruence|].
      destruct (decide (waker old = w)) as [<-|Hne']; destruct (decide (_ ∧ _)) as [Hm|Hm].
      * done.
      * destruct Hm. split; congruence.
      * specialize (Hin Hm). by simplify_eq.
      * done.
  - rewrite Hc. destruct (decide (waker p = w)) as [<-|Hne].
    + by destruct (decide _).
    + destruct (decide (w = waker p)); [congruence|].
      destruct (decide _) as [Hm|]; [|done]. by specialize (Hin Hm).
Qed.

Lemma insert_chans_None tag p s w :
  chans s !! w = None → insert_chans tag p s !! w = None.
Proof using Type.
  intros Hn. unfold insert_chans, map_insert. simpl. rewrite set_sender_lookup.
  destruct (pending s !! tag); rewrite ?set_sender_lookup, ?Hn; by repeat case_decide.
Qed.

Lemma insert_chans_inv i tag p s w c' :
  sess_inv s → held i (waker p) tag (cmd_type p) s → insert_chans tag p s !! w = Some c' →
  ∃ c, chans s !! w = Some c ∧ ch_tag c' = ch_tag c ∧ ch_cmd c' = ch_cmd c ∧
       ch_value c' = ch_value c ∧ ch_owner c' = ch_owner c ∧
       ((w = waker p ∧ ch_sender c' = InMap ∧ ch_sender c = HeldBy i) ∨
        (w ≠ waker p ∧ ch_tag c = tag ∧ ch_sender c = InMap ∧ ch_sender c' = Gone) ∨
        (w ≠ waker p ∧ ch_sender c' = ch_sender c ∧ (ch_sender c = InMap → ch_tag c ≠ tag))).
Proof using Type.
  intros Hi Hh Hc'. destruct (chans s !! w) as [c|] eqn:Hc.
  - rewrite (insert_chans_lookup i) with (c := c) in Hc' by done. injection Hc' as <-.
    exists c. destruct Hh as (c0 & Hc0 & ?). split; [done|].
    repeat case_decide; simpl; split_and!; auto.
    + left. subst. split_and!; [done..|]. simplify_eq. tauto.
    + right. left. tauto.
    + right. right. tauto.
  - by rewrite insert_chans_None in Hc'.
Qed.

Lemma inv_insert i tag p s :
  sess_inv s → held i (waker p) tag (cmd_type p) s → sess_inv (map_insert tag p s).
Proof using Type.
  intros Hi Hh. pose proof (insert_chans_inv i tag p s) as Hins.
  assert (chans (map_insert tag p s) = insert_chans tag p s) as Hch by done.
  split; rewrite ?Hch.
  - by destruct Hi.
  - intros w c' Hc'. destruct (Hins w c') as (c & Hc & _); [done..|]. by eapply (inv_fresh s Hi).
  - intros w c' Hc'. destruct (Hins w c') as (c & Hc & -> & _); [done..|].
    by eapply (inv_ch_tag s Hi).
  - intros t q. simpl. intros [[<- <-]|[Hne Hq]]%lookup_insert_Some.
    + destruct Hh as (c0 & Hc0 & ? & ? & ?). eexists.
      rewrite (insert_chans_lookup i) with (c := c0) by (done || by exists c0).
      rewrite decide_True by done. by split_and!.
    + destruct (inv_map s Hi t q Hq) as (c & Hc & ? & ? & ?). exists c.
      rewrite (insert_chans_lookup i) with (c := c) by done.
      destruct Hh as (c0 & Hc0 & ? & ? & ?).
      destruct (decide (waker q = waker p)); [congruence|].
      by destruct (decide _) as [[??]|]; [congruence|].
  - intros w c' Hc' Hm. simpl. destruct (Hins w c') as (c & Hc & -> & -> & _ & _ & Hw); [done..|].
    destruct Hw as [(-> & _ & Hs)|[(?&?&?&?)|(? & ? & Hne)]]; [|congruence|].
    + destruct Hh as (c0 & Hc0 & ? & ? & Hcmd). simplify_eq. rewrite lookup_insert_eq, Hcmd.
      by destruct p.
    + rewrite lookup_insert_ne; [|intros ->; apply Hne; congruence].
      apply inv_in_map; [done..|congruence].
  - intros w c' Hc' Hg. destruct (Hins w c') as (c & Hc & _ & _ & -> & _ & Hw); [done..|].
    apply (inv_unsent s Hi w c Hc). destruct Hw as [(? & ? & ->)|[(?&?&?&?)|(? & <- & ?)]]; done.
  - intros w c' r Hc'. destruct (Hins w c') as (c & Hc & -> & -> & -> & _); [done..|].
    by apply (inv_legit s Hi w).
Qed.

(** Putting a sender back is allowed to the task that made the channel, and for
    TX. *)
Lemma guar_insert i tag p s :
  sess_inv s → held i (waker p) tag (cmd_type p) s →
  chan_info i (waker p) tag (cmd_type p) s ∨ cmd_type p = TYPE_TX →
  Guar i s (map_insert tag p s).
Proof using Type.
  intros Hi Hh Ho. unfold map_insert. apply guar_chans; fold (insert_chans tag p s).
  - intros w c Hc. eexists. split; [by apply (insert_chans_lookup i)|].
    intros j Hij. destruct Hh as (c0 & Hc0 & ? & ? & ?).
    destruct (decide (w = waker p)) as [->|]; [|destruct (decide _) as [[Hm _]|]; [|done]].
    + simplify_eq. split; simpl; try done; [congruence|split; congruence|].
      intros <- Hn. destruct Ho as [(c' & ? & ? & _)|?]; congruence.
    + split; simpl; try done. rewrite Hm. done.
  - intros w Hc. by apply (insert_chans_None tag p s).
Qed.

(** *** Taking the whole map *)

Lemma take_lookup i (l : list (Z * Pending)) cs w :
  foldr (λ tp cs, set_sender (waker tp.2) (HeldBy i) cs) cs l !! w =
  if decide (w ∈ wakers l) then chan_with_sender (HeldBy i) <$> cs !! w else cs !! w.
Proof using Type.
  induction l as [|[t p] l IH]; simpl.
  - done.
  - rewrite set_sender_lookup, IH. destruct (decide (waker p = w)) as [<-|Hne].
    + rewrite (decide_True (P := waker p ∈ waker p :: wakers l)) by (by left).
      destruct (decide _); [|done]. by destruct (cs !! waker p).
    + assert (w ∈ waker p :: wakers l ↔ w ∈ wakers l) as Hiff.
      { rewrite elem_of_cons. split; [by intros [->|]|by right]. }
      destruct (decide (w ∈ wakers l)); destruct (decide (w ∈ _ :: _)); tauto.
Qed.

Lemma valid_order_spec l m :
  valid_order l m = true → NoDup l.*1 ∧ ∀ t p, (t, p) ∈ l ↔ m !! t = Some p.
Proof using Type.
  intros [Hl Hn]%bool_decide_eq_true. split; [done|]. intros t p. rewrite <- Hl. split.
  - by apply elem_of_list_to_map_1.
  - apply elem_of_list_to_map_2.
Qed.

Lemma inv_take i l s :
  sess_inv s → valid_order l (pending s) = true → sess_inv (map_take i l s).
Proof using Type.
  intros Hi [Hnd Hl]%valid_order_spec.
  assert (∀ w c', chans (map_take i l s) !! w = Some c' →
    ∃ c, chans s !! w = Some c ∧ ch_tag c' = ch_tag c ∧ ch_cmd c' = ch_cmd c ∧
      ch_value c' = ch_value c ∧ ch_sender c' ≠ InMap ∧
      (ch_sender c' ≠ Gone → ch_sender c ≠ Gone)) as Hch.
  { intros w c'. unfold map_take. simpl. rewrite take_lookup.
    destruct (decide _) as [(t & p & Htp & ->)%elem_of_wakers|Hn].
    - apply Hl, (inv_map s Hi) in Htp as (c & Hc & ? & ? & ?). rewrite Hc.
      intros [= <-]. exists c. split_and!; simpl; congruence.
    - intros Hc. exists c'. split_and!; try done. intros Hm. apply Hn.
      apply elem_of_wakers. eexists _, _. rewrite Hl. split; [by eapply (inv_in_map s Hi)|done]. }
  split; simpl; [by destruct Hi|..]; intros w c.
  - intros (c0 & Hc & _)%Hch. by eapply (inv_fresh s Hi).
  - intros (c0 & Hc & -> & _)%Hch. by eapply (inv_ch_tag s Hi).
  - done.
  - by intros (c0 & Hc & _ & _ & _ & ? & _)%Hch.
  - intros (c0 & Hc & _ & _ & -> & _ & Hg)%Hch ?. eapply (inv_unsent s Hi); eauto.
  - intros r (c0 & Hc & -> & -> & -> & _)%Hch. by eapply (inv_legit s Hi).
Qed.

Lemma guar_take i l s :
  sess_inv s → valid_order l (pending s) = true → Guar i s (map_take i l s).
Proof using Type.
  intros Hi [Hnd Hl]%valid_order_spec. apply guar_chans.
  - intros w c Hc. rewrite take_lookup, Hc.
    destruct (decide _) as [(t & p & Htp & ->)%elem_of_wakers|Hn]; [|by exists c].
    eexists. split; [done|]. intros j Hij.
    apply Hl, (inv_map s Hi) in Htp as (c' & ? & ? & ? & ?). simplify_eq.
    split; simpl; try done; [congruence|split; congruence].
  - intros w Hc. rewrite take_lookup, Hc. by destruct (decide _).
Qed.

(** *** New channels, dropped tasks *)

Definition new_chan (i : nat) (tag cmd : Z) : Chan := {|
  ch_tag := tag; ch_cmd := cmd; ch_sender := HeldBy i; ch_value := None; ch_owner := i;
  ch_listening := true |}.

Definition add_chan (i : nat) (tag cmd : Z) (s : Sess) : Sess :=
  with_next_chan (S (next_chan s))
    (with_map (pending s) (<[next_chan s := new_chan i tag cmd]> (chans s)) s).

Lemma fresh_chan s : sess_inv s → chans s !! next_chan s = None.
Proof using Type.
  intros Hi. destruct (chans s !! next_chan s) as [c|] eqn:Hc; [|done].
  pose proof (inv_fresh s Hi _ _ Hc). lia.
Qed.

Lemma inv_add_chan i tag cmd s :
  sess_inv s → 1 ≤ tag < 2 ^ 16 → sess_inv (add_chan i tag cmd s).
Proof using Type.
  intros Hi Ht. pose proof (fresh_chan s Hi) as Hn.
  split; simpl; [by destruct Hi|..]; intros w c.
  - intros [[<- <-]|[_ Hc]]%lookup_insert_Some; [lia|].
    pose proof (inv_fresh s Hi _ _ Hc). lia.
  - intros [[<- <-]|[_ Hc]]%lookup_insert_Some; [done|]. by eapply (inv_ch_tag s Hi).
  - intros Hp. destruct (inv_map s Hi w c Hp) as (c0 & Hc & ?). exists c0.
    rewrite lookup_insert_ne; [done|]. intros Hw. congruence.
  - intros [[<- <-]|[_ Hc]]%lookup_insert_Some; [done|]. by apply (inv_in_map s Hi).
  - intros [[<- <-]|[_ Hc]]%lookup_insert_Some; [done|]. by eapply (inv_unsent s Hi).
  - intros r [[<- <-]|[_ Hc]]%lookup_insert_Some; [done|]. by eapply (inv_legit s Hi).
Qed.

Lemma guar_add_chan i tag cmd s : sess_inv s → Guar i s (add_chan i tag cmd s).
Proof using Type.
  intros Hi j Hij. pose proof (fresh_chan s Hi) as Hn. split; simpl; try done.
  - intros w c Hc. exists c. rewrite lookup_insert_ne by congruence. done.
  - intros w c' Hw [[<- <-]|[_ Hc]]%lookup_insert_Some; [|congruence].
    simpl. split; congruence.
Qed.

Lemma inv_drop i s : sess_inv s → sess_inv (sess_drop i s).
Proof using Type.
  intros Hi. apply (inv_same (with_map (pending s) (chan_drop_task i <$> chans s) s)); try done.
  - apply inv_pointwise; [done|..].
    + intros w c'. rewrite lookup_fmap. destruct (chans s !! w) as [c|] eqn:Hc; [|done].
      intros [= <-]. exists c. split; [done|]. split; simpl; try done.
      * destruct (ch_sender c); [case_decide|..]; done.
      * intros Hg. eapply (inv_unsent s Hi); [done|]. intros E. by rewrite E in Hg.
      * intros r. by eapply (inv_legit s Hi).
    + intros w c Hc. rewrite lookup_fmap, Hc. by eexists.
  - by destruct Hi.
Qed.

Lemma guar_drop i s : Guar i s (sess_drop i s).
Proof using Type.
  intros j Hij. split; simpl; try done.
  - intros w c Hc. rewrite lookup_fmap, Hc. eexists. split; [done|].
    split; simpl; try done.
    + by intros ->.
    + destruct (ch_sender c) as [k| |]; [|done..]. case_decide; [subst|done]. split; congruence.
    + intros _ _. destruct (ch_sender c); [case_decide|..]; done.
  - intros w c'. rewrite lookup_fmap. by intros ->.
Qed.
End updates.

(** ** Triples of the effects *)

Section effects.
Context `{Wire}.

(** Effects that touch neither the map, nor the channels, nor the bytes read. *)
Definition neutral {X} (e : sessE X) : bool :=
  match e with
  | AllocTag | NewOneshot _ _ | PendingInsert _ _ | PendingRemove _ | PendingTake
  | DropWaker _ | WakerSend _ _ | AwaitResponse _ _ | DropReceiver _ | TransportRead => false
  | _ => true
  end.

Lemma neutral_do {X} i c (e : sessE X) s x s' :
  neutral e = true → sess_do X i c e s = Some (x, s') →
  chans s' = chans s ∧ pending s' = pending s ∧ next_chan s' = next_chan s ∧
  next_tag s' = next_tag s ∧ reader_tid s' = reader_tid s ∧ wire_in s' = wire_in s ∧
  (closed s = true → closed s' = true).
Proof using Type.
  destruct e; simpl; try done; intros _ Hd; repeat case_match; simplify_eq; by split_and!.
Qed.

Lemma spec_neutral {X} i (e : sessE X) (A : Sess → Prop) `{!Stable i A} :
  neutral e = true → spec i A (trigger e) (λ _, A).
Proof using Type.
  intros He. apply spec_trigger; [intros; apply _..|]. intros s c x s' HI HA Hd.
  destruct (neutral_do i c e s x s' He Hd) as (?&?&?&Ht&?&Hw&?).
  assert (∀ j, rely j s s') as Hr by (intros j; by apply rely_same).
  assert (sess_inv s') as HI'.
  { eapply inv_same; try done; [|by rewrite Hw]. rewrite Ht. apply HI. }
  split_and!; [done|intros j _; apply Hr|]. by eapply stable.
Qed.

(** The effects on the map and the channels: [A] is framed. *)
Lemma spec_effect b {X} i (e : sessE X) (A P : Sess → Prop) (Q : X → Sess → Prop)
    `{!Stable i A} `{!Framed b i A} `{!Stable i P} `{!∀ x, Stable i (Q x)} :
  (∀ s c x s', sess_inv s → P s → sess_do X i c e s = Some (x, s') →
     sess_inv s' ∧ Guar i s s' ∧ keeps b i s s' ∧ Q x s') →
  spec i (λ s, A s ∧ P s) (trigger e) (λ x s, A s ∧ Q x s).
Proof using Type.
  intros He. apply spec_trigger; [intros; apply _..|]. intros s c x s' HI [HA HP] Hd.
  destruct (He s c x s' HI HP Hd) as (?&?&?&?). split_and!; [done..| |done].
  by eapply framed.
Qed.

Lemma spec_alloc_tag i (A : Sess → Prop) `{!Stable i A} :
  spec i A (trigger AllocTag) (λ t s, A s ∧ 1 ≤ t < 2 ^ 16).
Proof using Type.
  apply spec_trigger; [intros; apply _..|]. intros s c t s' HI HA [= <- <-].
  destruct (alloc_tag_range (next_tag s)) as [_ ?]; [apply HI|].
  assert (∀ j, rely j s (with_next_tag (alloc_tag (next_tag s)).2 s)) as Hr
    by (intros j; by apply rely_same).
  assert (sess_inv (with_next_tag (alloc_tag (next_tag s)).2 s)) by by apply (inv_same s).
  split_and!; [done|intros j _; apply Hr|by eapply stable|apply HI..].
Qed.

Lemma spec_new i tag cmd l ws (A : Sess → Prop) `{!Stable i A} `{!Framed KNew i A} :
  1 ≤ tag < 2 ^ 16 →
  spec i (λ s, A s ∧ holds i l s ∧ owns i ws s) (trigger (NewOneshot tag cmd))
    (λ w s, A s ∧ holds i ((tag, {| cmd_type := cmd; waker := w |}) :: l) s ∧
            chan_info i w tag cmd s ∧ owns i (w :: ws) s).
Proof using Type.
  intros Ht. apply (spec_effect KNew _ _ A (λ s, _ ∧ _) (λ w s, _ ∧ _ ∧ _)); [intros; apply _..|].
  intros s c w s' HI [Hh Hno] [= <- <-]. fold (new_chan i tag cmd). fold (add_chan i tag cmd s).
  pose proof (fresh_chan s HI) as Hn. split_and!.
  - by apply inv_add_chan.
  - by apply guar_add_chan.
  - split; simpl; try done. intros w c' Hc. exists c'.
    rewrite lookup_insert_ne by congruence. split_and!; auto.
  - apply (holds_push i s); simpl; [done|..].
    + exists (new_chan i tag cmd). simpl. by rewrite lookup_insert_eq.
    + congruence.
    + intros w Hw. by rewrite lookup_insert_ne.
  - exists (new_chan i tag cmd). simpl. by rewrite lookup_insert_eq.
  - intros w c'. simpl. intros [[<- <-]|[_ Hc]]%lookup_insert_Some; [by left|]. intros Ho.
    right. by apply (Hno w c').
Qed.

Lemma spec_insert i tag p l (A : Sess → Prop) `{!Stable i A} `{!Framed KInsert i A} :
  spec i (λ s, A s ∧ holds i ((tag, p) :: l) s ∧
               (chan_info i (waker p) tag (cmd_type p) s ∨ cmd_type p = TYPE_TX))
    (trigger (PendingInsert tag p)) (λ _ s, A s ∧ holds i l s).
Proof using Type.
  apply (spec_effect KInsert _ _ A (λ s, _ ∧ _) (λ _, holds i l)); [intros; apply _..|]. intros s c [] s' HI [Hh Ho] [= <-].
  pose proof (holds_head i tag p l s Hh) as Hp. split_and!.
  - by apply (inv_insert i).
  - by apply guar_insert.
  - split; try done; [|intros w _; apply (insert_chans_None tag p s)].
    intros w ch Hc. eexists. split; [by apply (insert_chans_lookup i)|].
    repeat case_decide; simpl; split_and!; auto. intros Hn. right. right.
    subst. destruct Hp as (c' & ? & ? & _). by simplify_eq.
  - apply (holds_pop i tag p l s); [done|..].
    + intros w c' Hc' Hs. destruct (insert_chans_inv i tag p s w c') as (ch & ? & _ & _ & _ & _ & Hw);
        [done..|]. destruct Hw as [(?&?&?)|[(?&?&?&?)|(?&?&?)]]; [congruence..|].
      split; [done|]. exists ch. split; congruence.
    + intros w ch Hw Hc Hs. change (insert_chans tag p s !! w = Some ch).
      rewrite (insert_chans_lookup i) with (c := ch) by done.
      rewrite decide_False by done. rewrite decide_False; [done|]. intros [? _]. congruence.
Qed.

(** What a task holds after [PendingRemove tag] has answered [r]. *)
Definition removed (tag : Z) (r : option Pending) (l : list (Z * Pending)) :
    list (Z * Pending) :=
  match r with Some p => (tag, p) :: l | None => l end.

Lemma remove_do i c tag s r s' l :
  sess_inv s → holds i l s → sess_do _ i c (PendingRemove tag) s = Some (r, s') →
  sess_inv s' ∧ Guar i s s' ∧ keeps KOther i s s' ∧
  holds i (removed tag r l) s' ∧
  ∀ w c', chans s' !! w = Some c' → ch_tag c' = tag → ch_sender c' ≠ InMap.
Proof using Type.
  intros HI Hh. simpl. destruct (pending s !! tag) as [p|] eqn:Hp; intros [= <- <-].
  - destruct (inv_map s HI tag p Hp) as (c0 & Hc & Ht & Hcmd & Hs). split_and!.
    + by apply inv_remove.
    + by eapply guar_remove.
    + split; simpl; try done;
        [|by intros w _ Hn; rewrite set_sender_lookup, Hn; case_decide].
      intros w c' Hc'. rewrite set_sender_lookup, Hc'.
      case_decide; [subst; rewrite Hc in Hc'; simplify_eq|].
      * eexists. split; [done|]. split_and!; simpl; [done..|congruence].
      * exists c'. split_and!; auto.
    + apply (holds_push i s); simpl; [done|..].
      * eexists. simpl. rewrite set_sender_lookup, decide_True, Hc by done.
        by split_and!.
      * congruence.
      * intros w Hw. simpl. by rewrite set_sender_lookup, decide_False.
    + intros w c'. simpl. rewrite set_sender_lookup. case_decide.
      * subst. rewrite Hc. intros [= <-]. done.
      * intros Hc' <- Hm. pose proof (inv_in_map s HI w c' Hc' Hm). by simplify_eq.
  - split_and!; [done|intros j _; reflexivity|..|done|].
    + split; try done. intros w c' Hc. exists c'. split_and!; auto.
    + intros w c' Hc' <- Hm. pose proof (inv_in_map s HI w c' Hc' Hm). by simplify_eq.
Qed.

Lemma spec_remove i tag l (A : Sess → Prop) `{!Stable i A} `{!Framed KOther i A} :
  spec i (λ s, A s ∧ holds i l s) (trigger (PendingRemove tag))
    (λ r s, A s ∧ holds i (removed tag r l) s).
Proof using Type.
  apply (spec_effect KOther _ _ A (holds i l) (λ r, holds i (removed tag r l))); [apply _..|].
  intros s c r s' HI Hh Hd. edestruct remove_do as (?&?&?&?&_); by eauto.
Qed.

Lemma spec_remove_own i w tag cmd l (A : Sess → Prop) `{!Stable i A} `{!Framed KOther i A} :
  spec i (λ s, A s ∧ holds i l s ∧ chan_info i w tag cmd s) (trigger (PendingRemove tag))
    (λ r s, A s ∧ holds i (removed tag r l) s ∧
            parked i w s).
Proof using Type.
  apply (spec_effect KOther _ _ A (λ s, _ ∧ _) (λ r s, _ ∧ _)); [apply _..|].
  intros s c r s' HI [Hh Hi] Hd. edestruct remove_do as (?&?&Hk&?&Hn); [done..|].
  split_and!; [done..|].
  destruct (chan_info_framed _ _ _ _ _ _ _ _ Hi Hk) as (c' & ? & ? & ? & ?).
  exists c'. split_and!; eauto.
Qed.

(** Consuming a held sender: dropping it or sending through it. *)
Lemma spec_consume i t p l (e : sessE unit) (f : Chan → Chan) (A P : Sess → Prop)
    `{!Stable i A} `{!Framed KOther i A} `{!Stable i P} :
  (∀ s c, sess_do _ i c e s =
     Some (tt, with_map (pending s) (alter f (waker p) (chans s)) s)) →
  (∀ s c, sess_inv s → P s → ch_tag c = t → ch_cmd c = cmd_type p → ch_value c = None →
     good_change (closed s) (frames_received s) (chan_with_sender Gone c) (f c) ∧
     ch_sender (f c) = Gone ∧ ch_owner (f c) = ch_owner c) →
  spec i (λ s, A s ∧ holds i ((t, p) :: l) s ∧ P s) (trigger e) (λ _ s, A s ∧ holds i l s).
Proof using Type.
  intros He Hf.
  apply (spec_effect KOther _ _ A (λ s, _ ∧ _) (λ _, holds i l)); [intros; apply _..|].
  intros s c [] s' HI [Hh HP] Hd. rewrite He in Hd. injection Hd as <-.
  destruct (holds_head i t p l s Hh) as (c0 & Hc0 & Hs0 & Ht & Hcmd).
  assert (ch_value c0 = None) as Hv by (eapply (inv_unsent s HI); [done|congruence]).
  destruct (Hf s c0 HI HP Ht Hcmd Hv) as ([Hft Hfc Hfm Hfu Hfl] & Hfs & Hfo). simpl in *.
  split_and!.
  - apply inv_alter; [done|]. intros c1 ?. simplify_eq. split; try done.
    rewrite Hfs, Hs0. done.
  - apply guar_alter. intros c1 ? j Hij. simplify_eq. split; try done.
    + congruence.
    + rewrite Hfs, Hs0. split; congruence.
    + by rewrite Hfs.
  - apply keeps_alter. intros c1 ?. simplify_eq. auto.
  - apply (holds_pop i t p l s); [done|..]; simpl; intros w c1.
    + rewrite lookup_alter. case_decide.
      * subst. rewrite Hc0. simpl. intros [= <-]. congruence.
      * intros ? ?. split; [done|]. by exists c1.
    + intros Hw ??. by rewrite lookup_alter_ne.
Qed.

Lemma spec_drop_waker i t p l (A : Sess → Prop) `{!Stable i A} `{!Framed KOther i A} :
  spec i (λ s, A s ∧ holds i ((t, p) :: l) s) (trigger (DropWaker (waker p)))
    (λ _ s, A s ∧ holds i l s).
Proof using Type.
  eapply spec_conseq.
  - eapply (spec_consume i t p l _ (chan_with_sender Gone) A (λ _, True)); [done|].
    intros s c _ _ _ _ Hv. split; [|done]. split; simpl; try done. by rewrite Hv.
  - intros s _ [??]. done.
Qed.

Lemma spec_send i t p l r (A : Sess → Prop) `{!Stable i A} `{!Framed KOther i A} :
  spec i (λ s, A s ∧ holds i ((t, p) :: l) s ∧ legit_now t (cmd_type p) r s)
    (trigger (WakerSend (waker p) r)) (λ _ s, A s ∧ holds i l s).
Proof using Type.
  apply (spec_consume i t p l _ (chan_send r) A (legit_now t (cmd_type p) r)); [done|].
  intros s c _ Hl Ht Hcmd Hv. split; [|done]. split; simpl; try done.
  rewrite Hv, Ht, Hcmd. destruct (ch_listening c); [|done]. by intros r' [= <-].
Qed.

(** The receiving end: waiting on it or dropping it. *)
Lemma unlisten_ok i w l s :
  sess_inv s → holds i l s →
  let s' := with_map (pending s) (alter chan_unlisten w (chans s)) s in
  sess_inv s' ∧ Guar i s s' ∧ keeps KOther i s s' ∧ holds i l s'.
Proof using Type.
  intros HI [Hnd Hall Honly] s'. subst s'. split_and!.
  - apply inv_alter; [done|]. intros c Hc. split; simpl; try done.
    + by apply (inv_unsent s HI w).
    + intros r. by apply (inv_legit s HI w).
  - apply guar_alter. intros c Hc j Hij. by split.
  - apply keeps_alter. intros c _. split_and!; auto.
  - split; [done|..].
    + intros t p Hp. destruct (Hall t p Hp) as (c & Hc & ?).
      destruct (decide (w = waker p)) as [->|Hw].
      * eexists. simpl. rewrite lookup_alter_eq, Hc. done.
      * exists c. simpl. by rewrite lookup_alter_ne.
    + intros w' c. simpl. rewrite lookup_alter. case_decide; [subst w'|apply Honly].
      destruct (chans s !! w) as [c'|] eqn:Hc; [|done].
      intros [= <-] Hs. by apply (Honly w c').
Qed.

Lemma spec_drop_receiver i w l (A : Sess → Prop) `{!Stable i A} `{!Framed KOther i A} :
  spec i (λ s, A s ∧ holds i l s) (trigger (DropReceiver w)) (λ _ s, A s ∧ holds i l s).
Proof using Type.
  apply (spec_effect KOther _ _ A (holds i l) (λ _, holds i l)); [intros; apply _..|].
  intros s c [] s' HI Hh [= <-]. by apply unlisten_ok.
Qed.

(** What the answer of an await says. *)
Definition awaited (i w : nat) (tag cmd : Z) (r : await_result) (s : Sess) : Prop :=
  match r with
  | Responded resp => (legit_now tag cmd resp s ∧ value_at w resp s) ∧ out i w s
  | RecvError => out i w s
  | Elapsed => True
  end.

#[global] Instance awaited_stable i w tag cmd r : Stable i (awaited i w tag cmd r).
Proof using Type.
  destruct r; intros s s' Hs Hr HI; simpl in *; [destruct Hs; split| |done].
  - destruct H1. split; [by apply (legit_now_stable i _ _ _ s)|by apply (value_at_stable i w r s)].
  - by apply (out_stable i w s).
  - by apply (out_stable i w s).
Qed.

Lemma spec_await i w tag cmd t l (A : Sess → Prop) `{!Stable i A} `{!Framed KOther i A} :
  spec i (λ s, A s ∧ holds i l s ∧ chan_info i w tag cmd s) (trigger (AwaitResponse w t))
    (λ r s, A s ∧ holds i l s ∧ awaited i w tag cmd r s).
Proof using Type.
  apply (spec_effect KOther _ _ A (λ s, _ ∧ _) (λ r s, _ ∧ _)); [apply _..|].
  intros s c r s' HI [Hh (ch & Hc & Ho & Ht & Hcmd)]. simpl. rewrite Hc.
  assert (∀ r', ch_sender ch = Gone ∨ r' = Elapsed →
    (∀ resp, r' = Responded resp → legit_now tag cmd resp s ∧ ch_value ch = Some resp) →
    Some (r', with_map (pending s) (alter chan_unlisten w (chans s)) s) = Some (r, s') →
    sess_inv s' ∧ Guar i s s' ∧ keeps KOther i s s' ∧ holds i l s' ∧ awaited i w tag cmd r s')
    as Hdone.
  { intros r' Hg Hl [= <- <-].
    destruct (unlisten_ok i w l s HI Hh) as (HI' & HG & Hk & Hh'). split_and!; try done.
    assert (ch_sender ch = Gone →
      out i w (with_map (pending s) (alter chan_unlisten w (chans s)) s)) as Hout.
    { intros Hgone. eexists. simpl. rewrite lookup_alter_eq, Hc. split; [done|].
      split; [done|]. intros _. simpl. by rewrite Hgone. }
    destruct Hg as [Hg| ->]; [|done]. destruct r' as [resp| |]; simpl; auto.
    destruct (Hl resp eq_refl) as [? Hv]. split; [|auto]. split; [done|].
    exists (chan_unlisten ch). simpl. by rewrite lookup_alter_eq, Hc. }
  destruct (ch_value ch) as [resp|] eqn:Hv.
  - apply Hdone.
    + left. destruct (decide (ch_sender ch = Gone)) as [|Hn]; [done|].
      rewrite (inv_unsent s HI w ch Hc Hn) in Hv. done.
    + intros resp' [= <-]. split; [|done]. subst. by eapply (inv_legit s HI).
  - destruct (ch_sender ch); [|destruct c; try done; apply Hdone; auto..]; try done.
    destruct c; try done; apply Hdone; auto; done.
Qed.

Lemma spec_take i (A : Sess → Prop) `{!Stable i A} `{!Framed KOther i A} :
  spec i (λ s, A s ∧ holds i [] s) (trigger PendingTake) (λ l s, A s ∧ holds i l s).
Proof using Type.
  apply (spec_effect KOther _ _ A (holds i []) (λ l, holds i l)); [intros; apply _..|].
  intros s c l s' HI [_ _ Honly]. simpl.
  generalize (match c with COrder l => l | _ => map_to_list (pending s) end). intros l'.
  destruct (valid_order l' (pending s)) eqn:Hv; [|done]. intros [= <- <-].
  pose proof (valid_order_spec _ _ Hv) as [Hnd Hl].
  assert (∀ t p, (t, p) ∈ l' → ∃ c, chans s !! waker p = Some c ∧ ch_tag c = t ∧
            ch_cmd c = cmd_type p ∧ ch_sender c = InMap) as Hin.
  { intros t p Htp%Hl. by apply (inv_map s HI). }
  split_and!; [by apply inv_take|by apply guar_take|..].
  - split; simpl; try done;
      [|by intros w _ Hn; rewrite take_lookup, Hn; destruct (decide _)].
    intros w ch Hc. rewrite take_lookup, Hc.
    destruct (decide _) as [(t & p & Htp & ->)%elem_of_wakers|].
    + eexists. split; [done|]. split_and!; try done.
      destruct (Hin t p Htp) as (? & ? & _ & _ & ?). congruence.
    + exists ch. split_and!; auto.
  - split.
    + clear Hv Hl. induction l' as [|[t p] l' IH]; [by constructor|].
      apply wakers_nodup_cons. simpl in Hnd. apply NoDup_cons in Hnd as [Ht Hnd].
      split; [|apply IH; [done|intros t' q Hq; apply Hin; by right]].
      intros (t' & q & Hq & E)%elem_of_wakers. apply Ht.
      destruct (Hin t p) as (c1 & Hc1 & Ht1 & _); [by left|].
      destruct (Hin t' q) as (c2 & Hc2 & Ht2 & _); [by right|].
      rewrite E in Hc1. simplify_eq. apply list_elem_of_fmap. by exists (ch_tag c1, q).
    + intros t p Htp. destruct (Hin t p Htp) as (c1 & Hc1 & ? & ? & _).
      eexists. simpl. rewrite take_lookup, decide_True, Hc1; [done|].
      apply elem_of_wakers. eauto.
    + intros w ch. simpl. rewrite take_lookup. destruct (decide _); [done|].
      intros Hc Hs. pose proof (Honly w ch Hc Hs) as Hnil. by apply elem_of_nil in Hnil.
Qed.

(** What the reader knows after a read that answered [r]. *)
Definition read_result (i : nat) (d : FrameDecoder) (r : result (list byte) io_error)
    (s : Sess) : Prop :=
  match r with
  | Ok [] | Err _ => True
  | Ok buf => decoder_at i (decoder_feed d buf).1 s ∧ received (decoder_feed d buf).2 s
  end.

#[global] Instance read_result_stable i d r : Stable i (read_result i d r).
Proof using Type.
  intros s s' Hs Hr HI. destruct r as [[|b bs]|]; simpl in *; try done. destruct Hs. split.
  - by apply (decoder_at_stable i _ s).
  - by apply (received_stable i _ s).
Qed.

Lemma spec_read i d l :
  spec i (λ s, decoder_at i d s ∧ holds i l s) (trigger TransportRead)
    (λ r s, read_result i d r s ∧ holds i l s).
Proof using Type.
  apply (spec_trigger _ _ _ (λ s, _ ∧ _) _ (λ r s, _ ∧ _)).
  intros s c r s' HI [[Hrt Hd] Hh] Hdo. simpl in Hdo.
  destruct c as [| | |e|buf|]; try done.
  - injection Hdo as <- <-. split_and!; try done. intros j _. reflexivity.
  - destruct buf as [|b buf].
    { injection Hdo as <- <-. split_and!; try done. intros j _. reflexivity. }
    destruct (_ <=? _)%nat; [|done]. injection Hdo as <- <-.
    destruct (decoder_feed d (b :: buf)) as [d' fs] eqn:Hf.
    assert (feed_all (wire_in s ++ [b :: buf]) = (d', frames_received s ++ fs)) as Hfa.
    { apply feed_all_snoc. by rewrite Hd. }
    split_and!.
    + eapply inv_same; try done; [apply HI|by apply prefix_app_r].
    + intros j Hij. split; simpl; try done.
      * intros w ch ?. by exists ch.
      * congruence.
      * by apply prefix_app_r.
      * congruence.
    + simpl. rewrite Hf. simpl. split.
      * split; [done|]. simpl. by rewrite Hfa.
      * intros f Hfin. unfold frames_received. simpl. rewrite Hfa. simpl.
        apply elem_of_app. by right.
    + destruct Hh. by split.
Qed.
End effects.

(** ** Triples of the functions *)

(** The next statement of a program, by the triple [t]. *)
Tactic Notation "spec_step" uconstr(t) := eapply spec_bind; [apply _|apply t; first [apply _|done]|].

Section functions.
Context `{Wire}.

(** The reason a frame may not have been written. *)
Definition write_failure (type_id tag : Z) (payload : list byte) (e : ClientError) : Prop :=
  (∃ io, e = Io io) ∨
  (∃ ee, encode_frame type_id tag payload = Err ee ∧
         e = EncodeFailed (encode_error_debug ee)).

Lemma spec_write_all i bs (A : Sess → Prop) `{!Stable i A} :
  spec i A (write_all WriteSome bs) (λ _, A).
Proof using Type.
  apply write_all_ind; [intros; by apply spec_ret|]. intros bs' k Hk.
  change (Vis (WriteSome bs') k) with (trigger (WriteSome bs') ≫= k).
  by spec_step (spec_neutral i (WriteSome bs')).
Qed.

Lemma spec_write_frame i ty tag pl (A : Sess → Prop) `{!Stable i A} :
  spec i A (write_frame ty tag pl)
    (λ r s, A s ∧ match r with Ok _ => True | Err e => write_failure ty tag pl e end).
Proof using Type.
  unfold write_frame. destruct (encode_frame ty tag pl) as [wire|ee] eqn:Henc.
  - spec_step (spec_neutral i (LockMutex WriterLock)). intros [].
    spec_step spec_write_all. intros [[]|io].
    + spec_step (spec_neutral i Flush). intros r.
      spec_step (spec_neutral i (UnlockMutex WriterLock)). intros [].
      apply spec_ret; [done|]. intros s _ HA. split; [done|]. destruct r; [done|].
      left. by eexists.
    + spec_step (spec_neutral i (UnlockMutex WriterLock)). intros [].
      apply spec_ret; [done|]. intros s _ HA. split; [done|]. left. by eexists.
  - apply spec_ret; [done|]. intros s _ HA. split; [done|]. right. by eexists.
Qed.

(** *** The reader *)

Lemma spec_dispatch_async i ty pl (A : Sess → Prop) `{!Stable i A} :
  spec i A (dispatch_async ty pl) (λ _, A).
Proof using Type.
  unfold dispatch_async.
  repeat case_match; by first [apply spec_neutral | apply spec_ret].
Qed.

Lemma spec_dispatch i ty tag pl (A : Sess → Prop)
    `{!Stable i A} `{!∀ k, Framed k i A} :
  spec i (λ s, A s ∧ holds i [] s ∧ received [FrameOk ty tag pl] s) (dispatch ty tag pl)
    (λ _ s, A s ∧ holds i [] s).
Proof using Type.
  unfold dispatch. destruct (Z.eqb_spec tag 0).
  - eapply spec_conseq; [apply (spec_dispatch_async i ty pl (λ s, A s ∧ holds i [] s))|].
    by intros s _ (?&?&_).
  - eapply spec_bind; [apply _| |].
    + eapply spec_conseq;
        [apply (spec_remove i tag [] (λ s, A s ∧ received [FrameOk ty tag pl] s))|].
      by intros s _ (?&?&?).
    + intros [p|]; simpl; [|by apply spec_ret; [apply _|intros s _ [[??]?]]].
      destruct ((cmd_type p =? TYPE_TX) && (ty =? TYPE_OK)) eqn:Htx.
      * eapply spec_conseq; [by apply spec_insert|]. intros s _ [[??]?].
        split_and!; [done..|]. right. lia.
      * eapply spec_conseq; [by apply spec_send|]. intros s _ [[? Hrec]?].
        split_and!; [done..|]. apply legit_frame; [by apply Hrec, list_elem_of_here|lia].
Qed.

Lemma spec_handle_work i w (A : Sess → Prop) `{!Stable i A} `{!∀ k, Framed k i A} :
  spec i (λ s, A s ∧ holds i [] s ∧ received [w] s) (handle_work w)
    (λ _ s, A s ∧ holds i [] s).
Proof using Type.
  destruct w; simpl; [by apply spec_dispatch|].
  eapply spec_conseq; [by apply (spec_neutral i _ (λ s, A s ∧ holds i [] s))|].
  by intros s _ (?&?&_).
Qed.

Lemma received_app fs fs' s : received (fs ++ fs') s ↔ received fs s ∧ received fs' s.
Proof using Type.
  unfold received. setoid_rewrite elem_of_app. split.
  - intros Hf. split; auto.
  - intros [??] f [|]; auto.
Qed.

(** A loop over taken entries that sends each of them the same notice. *)
Lemma spec_wake_all i msg l (A : Sess → Prop) `{!Stable i A} `{!Framed KOther i A} :
  (∀ s tag cmd, A s → legit_now tag cmd (RErr (TransportClosed msg)) s) →
  spec i (λ s, A s ∧ holds i l s) (wake_all msg l) (λ _ s, A s ∧ holds i [] s).
Proof using Type.
  intros Hl. unfold wake_all.
  apply (spec_for _ _ _ i _ (λ l s, A s ∧ holds i l s)); [intros; apply _|].
  intros [t p] l'. eapply spec_conseq; [by apply spec_send|].
  intros s _ [HA ?]. split_and!; [done..|]. by apply Hl.
Qed.

Lemma spec_reader_body i d :
  spec i (λ s, decoder_at i d s ∧ holds i [] s) (reader_body d)
    (λ r s, match r with inl d' => decoder_at i d' s ∧ holds i [] s
                       | inr _ => True ∧ holds i [] s end).
Proof using Type.
  unfold reader_body. spec_step (spec_neutral i LoadClosed). intros [].
  { by apply spec_ret; [apply _|intros s _ [_ ?]]. }
  spec_step spec_read. intros [buf|e]; simpl.
  - destruct buf as [|b bs]; [by apply spec_ret; [apply _|]|].
    destruct (decoder_feed d (b :: bs)) as [d' works]. simpl.
    eapply spec_bind; [apply _| |].
    + eapply spec_conseq.
      * apply (spec_for _ _ _ i handle_work
          (λ ws s, (decoder_at i d' s ∧ received ws s) ∧ holds i [] s) works).
        intros w ws. eapply spec_conseq.
        -- apply (spec_handle_work i w (λ s, decoder_at i d' s ∧ received ws s)).
        -- intros s _ [[? Hr] ?]. apply (received_app [w] ws) in Hr as [??]. by split_and!.
      * by intros s _ [[??]?].
    + intros []. apply spec_ret; [apply _|]. by intros s _ [[??]?].
  - by apply spec_ret; [apply _|].
Qed.

Lemma spec_reader_loop i :
  spec i (λ s, decoder_at i decoder_new s ∧ holds i [] s) reader_loop
    (λ _ s, holds i [] s).
Proof using Type.
  unfold reader_loop. eapply spec_bind; [apply _| |].
  - apply (spec_loop _ _ _ i _ (λ d s, decoder_at i d s ∧ holds i [] s) _
      (λ _ s, True ∧ holds i [] s)); [intros; apply _..|]. apply spec_reader_body.
  - intros []. spec_step (spec_take i (λ _, True)). intros l.
    eapply spec_bind; [apply _| |].
    + apply (spec_wake_all i "reader exited" l (λ _, True)). intros. constructor.
    + intros []. eapply spec_conseq; [by apply (spec_neutral i _ (holds i []))|].
      by intros s _ [_ ?].
Qed.

(** *** The clients *)

Lemma spec_close i (A : Sess → Prop) `{!Stable i A} `{!Framed KOther i A} :
  spec i (λ s, A s ∧ holds i [] s) close
    (λ _ s, (A s ∧ closed s = true) ∧ holds i [] s).
Proof using Type.
  unfold close. eapply (spec_bind _ _ _ i _ _ _ (λ _ s, (A s ∧ closed s = true) ∧ holds i [] s)).
  - apply (spec_trigger _ _ _ (λ s, _ ∧ _) _ (λ _ s, (_ ∧ _) ∧ _)).
    intros s c [] s' HI [HA Hh] [= <-].
    assert (∀ j, rely j s (with_flags true (reader_handle s) (reader_aborted s) s)) as Hr
      by (intros j; by apply rely_same).
    assert (sess_inv (with_flags true (reader_handle s) (reader_aborted s) s)) as HI'
      by (apply (inv_same s); try done; apply HI).
    split_and!; [done|by intros j _|by eapply stable|done|by apply (holds_stable i [] s)].
  - intros []. spec_step spec_take. intros l.
    eapply spec_bind; [apply _| |].
    { apply spec_wake_all; [apply _..|]. intros s tag cmd [_ Hcl]. by apply legit_closed. }
    intros []. spec_step (spec_neutral i TakeReaderHandle). intros [].
    + apply spec_neutral; [apply _|done].
    + apply spec_ret; [apply _|done].
Qed.

Lemma spec_recv i timeout (A : Sess → Prop) `{!Stable i A} :
  spec i A (rx ← (trigger (LockMutex RxLock) ;; trigger (RxRecv timeout));
            trigger (UnlockMutex RxLock) ;; Ret rx) (λ _, A).
Proof using Type.
  eapply spec_bind; [apply _| |].
  - spec_step (spec_neutral i (LockMutex RxLock)). intros [].
    by apply (spec_neutral i (RxRecv timeout)).
  - intros rx. spec_step (spec_neutral i (UnlockMutex RxLock)). intros []. by apply spec_ret.
Qed.

Lemma spec_recv_rx i timeout (A : Sess → Prop) `{!Stable i A} :
  spec i A (recv_rx timeout) (λ _, A).
Proof using Type. apply spec_recv. done. Qed.

Lemma spec_next_rx i (A : Sess → Prop) `{!Stable i A} : spec i A next_rx (λ _, A).
Proof using Type. apply spec_recv. done. Qed.

Lemma spec_drain i (A : Sess → Prop) `{!Stable i A} : spec i A drain_async_errors (λ _, A).
Proof using Type.
  unfold drain_async_errors. spec_step (spec_neutral i (LockMutex ErrLock)). intros [].
  eapply spec_bind; [apply _| |].
  - apply (spec_loop _ _ _ _ _ (λ _, A)); [apply _..|]. intros out.
    spec_step (spec_neutral i ErrTryRecv). intros [e|]; by apply spec_ret.
  - intros out. spec_step (spec_neutral i (UnlockMutex ErrLock)). intros [].
    by apply spec_ret.
Qed.

(** *** Sending a command *)

(** A command's own entry is out of the map once [remove_pending] returns. *)
Lemma spec_remove_pending i w tag cmd (A : Sess → Prop) `{!Stable i A} `{!Framed KOther i A} :
  spec i (λ s, A s ∧ holds i [] s ∧ chan_info i w tag cmd s) (remove_pending tag)
    (λ _ s, A s ∧ holds i [] s ∧ out i w s).
Proof using Type.
  assert (∀ s, holds i [] s → parked i w s → out i w s) as Hout.
  { intros s [_ _ Honly] (c & Hc & ? & Hp). exists c. split_and!; [done..|]. intros Hne.
    split; [auto|]. intros Hs. pose proof (Honly w c Hc Hs) as Hnil. by apply elem_of_nil in Hnil. }
  unfold remove_pending. spec_step spec_remove_own. intros [p|]; simpl.
  - eapply spec_post; [eapply spec_conseq|].
    + apply (spec_drop_waker i tag p [] (λ s, A s ∧ parked i w s)).
    + by intros s _ (?&?&?).
    + intros [] s _ [[??]?]. split_and!; auto.
  - apply spec_ret; [apply _|]. intros s _ (?&?&?). split_and!; auto.
Qed.

(** What a finished call of [send_command] by task [i] says: unless the session
    was closed, [i] has made one more channel [w] than [ws], for a tag that is not 0,
    its entry is out of the map, and the result is about that tag. *)
Definition sent (i : nat) (ws : list nat) (type_id : Z) (payload : list byte)
    (r : ClientResult SessionResponse) (w : nat) (tag : Z) (s : Sess) : Prop :=
  (chan_info i w tag type_id s ∧ owns i (w :: ws) s ∧ out i w s) ∧ 1 ≤ tag < 2 ^ 16 ∧
  match r with
  | Ok resp => legit_now tag type_id resp s ∧ value_at w resp s
  | Err e => write_failure type_id tag payload e ∨ e = ReaderExited ∨
             e = TimedOut (describe_cmd type_id)
  end.

Definition send_result (i : nat) (ws : list nat) (type_id : Z) (payload : list byte)
    (r : ClientResult SessionResponse) (s : Sess) : Prop :=
  (r = Err (TransportClosed "session closed") ∧ closed s = true ∧ owns i ws s) ∨
  ∃ w tag, sent i ws type_id payload r w tag s.

#[global] Instance sent_stable i ws ty pl r w tag : Stable i (sent i ws ty pl r w tag).
Proof using Type. unfold sent. destruct r; apply _. Qed.
#[global] Instance send_result_stable i ws ty pl r : Stable i (send_result i ws ty pl r).
Proof using Type. unfold send_result. apply _. Qed.

Lemma spec_load_closed i (A : Sess → Prop) `{!Stable i A} :
  spec i A (trigger LoadClosed) (λ b s, A s ∧ (b = true → closed s = true)).
Proof using Type.
  apply spec_trigger; [apply _..|]. intros s c b s' HI HA [= <- <-].
  split_and!; try done. intros j _. reflexivity.
Qed.

(** The channel a call of [send_command] has made. *)
Definition mine (i w : nat) (ws : list nat) (tag cmd : Z) (s : Sess) : Prop :=
  1 ≤ tag < 2 ^ 16 ∧ chan_info i w tag cmd s ∧ owns i (w :: ws) s.

#[global] Instance mine_stable i w ws tag cmd : Stable i (mine i w ws tag cmd).
Proof using Type. unfold mine. apply _. Qed.
#[global] Instance mine_framed_insert i w ws tag cmd : Framed KInsert i (mine i w ws tag cmd).
Proof using Type. unfold mine. apply _. Qed.
#[global] Instance mine_framed i w ws tag cmd : Framed KOther i (mine i w ws tag cmd).
Proof using Type. unfold mine. apply _. Qed.

(** The error returns after the entry has been inserted. *)
Lemma spec_abandon i ty pl w ws tag (e : ClientError) :
  write_failure ty tag pl e ∨ e = ReaderExited ∨ e = TimedOut (describe_cmd ty) →
  spec i (λ s, mine i w ws tag ty s ∧ holds i [] s)
    (remove_pending tag ;; Ret (Err e))
    (λ r s, holds i [] s ∧ send_result i ws ty pl r s).
Proof using Type.
  intros He. eapply spec_bind; [apply _| |].
  - eapply spec_conseq; [apply (spec_remove_pending i w tag ty (mine i w ws tag ty))|].
    intros s _ [Hm ?]. pose proof Hm as (_ & ? & _). by split_and!.
  - intros []. apply spec_ret; [apply _|]. intros s _ ((?&?&?)&?&?). split; [done|].
    right. exists w, tag. split_and!; try done; lia.
Qed.

Lemma spec_send_command i ws ty pl timeout :
  spec i (λ s, owns i ws s ∧ holds i [] s) (send_command ty pl timeout)
    (λ r s, holds i [] s ∧ send_result i ws ty pl r s).
Proof using Type.
  unfold send_command. spec_step spec_load_closed. intros [].
  { apply spec_ret; [apply _|]. intros s _ [[??]?]. split; [done|]. left. auto. }
  spec_step spec_alloc_tag. intros tag. eapply spec_bind; [apply _| |].
  { intros n s HI [[[Hno Hh] _] Ht].
    apply (spec_new i tag ty [] ws (λ _, 1 ≤ tag < 2 ^ 16) Ht n s HI). done. }
  intros w. eapply spec_bind; [apply _| |].
  { eapply spec_conseq; [apply (spec_insert i tag _ [] (mine i w ws tag ty))|].
    intros s _ (?&?&?&?). split_and!; try done. by left. }
  intros []. spec_step spec_write_frame. intros [[]|e].
  - eapply spec_bind; [apply _| |].
    { eapply spec_conseq; [apply (spec_await i w tag ty timeout [] (mine i w ws tag ty))|].
      intros s _ [[Hm ?] _]. pose proof Hm as (_ & ? & _). by split_and!. }
    intros [resp| |]; simpl.
    + apply spec_ret; [apply _|]. intros s _ ((?&?&?)&?&[??]&?). split; [done|].
      right. exists w, tag. split_and!; try done; lia.
    + eapply spec_conseq; [apply (spec_abandon i ty pl w ws tag); auto|]. by intros s _ (?&?&_).
    + eapply spec_conseq; [apply (spec_abandon i ty pl w ws tag); auto|]. by intros s _ (?&?&_).
  - eapply spec_bind; [apply _| |].
    { eapply spec_conseq.
      - apply (spec_remove_pending i w tag ty (λ s, write_failure ty tag pl e ∧ mine i w ws tag ty s)).
      - intros s _ [[Hm ?] ?]. pose proof Hm as (_ & ? & _). by split_and!. }
    intros []. eapply spec_bind; [apply _| |].
    { eapply spec_conseq.
      - apply (spec_drop_receiver i w []
          (λ s, (write_failure ty tag pl e ∧ mine i w ws tag ty s) ∧ out i w s)).
      - by intros s _ ((?&?)&?&?). }
    intros []. apply spec_ret; [apply _|]. intros s _ [[(?&?&?&?)?]?]. split; [done|].
    right. exists w, tag. split_and!; try done; [lia..|by left].
Qed.
End functions.
