(* ===== verification/SessionPool.v ===== *)
(** * A session shared by any number of callers

    The pool runs the reader task of a session and any number of calls of its
    methods over the session's state, in any interleaving, with any call or the
    reader dropped at any point.  The triples of [SessionSpec.v] give the
    properties of all its reachable configurations; concrete schedules show the
    behaviours that depend on the interleaving. *)

From stdpp Require Import functions.
From S2P Require Import Prelude Runtime Errors Protocol Session SessionInv SessionSpec.
Local Open Scope Z_scope.

Section pool.
Context `{Wire}.

(** A call of one of [Session]'s methods, and what it returned. *)
Inductive call :=
| CSend (type_id : Z) (payload : list byte) (timeout : Z)
| CRecvRx (timeout : Z)
| CNextRx
| CDrain
| CClose.

Inductive reply :=
| RepDone
| RepResponse (r : ClientResult SessionResponse)
| RepRx (rx : option RxPayload)
| RepErrors (es : list ClientError).

Definition run_call (c : call) : prog sessE reply :=
  match c with
  | CSend ty pl t => r ← send_command ty pl t; Ret (RepResponse r)
  | CRecvRx t => rx ← recv_rx t; Ret (RepRx rx)
  | CNextRx => rx ← next_rx; Ret (RepRx rx)
  | CDrain => es ← drain_async_errors; Ret (RepErrors es)
  | CClose => close ;; Ret RepDone
  end.

(** [Session::spawn] and then the [calls]: task 0 is the reader, task [S k] the
    call [calls !! k]. *)
Definition session_pool (calls : list call) : conf sessE Sess reply :=
  Conf (map_seq 0 ((reader_loop ;; Ret RepDone) :: (run_call <$> calls))) (spawn_state 0).

(** *** The invariant *)

Definition call_result (calls : list call) (i : nat) (r : reply) (s : Sess) : Prop :=
  holds i [] s ∧
  match i with
  | O => True
  | S k => match calls !! k, r with
           | Some (CSend ty pl _), RepResponse r => send_result i [] ty pl r s
           | Some CClose, _ => closed s = true
           | _, _ => True
           end
  end.

Lemma spawn_inv : sess_inv (spawn_state 0).
Proof using Type. by split; simpl. Qed.

Lemma spawn_holds i : holds i [] (spawn_state 0).
Proof using Type.
  split; [constructor|intros t p Hn; by apply elem_of_nil in Hn|by intros w c].
Qed.

Lemma spec_run_call calls k c :
  calls !! k = Some c →
  spec (S k) (λ s, owns (S k) [] s ∧ holds (S k) [] s) (run_call c) (call_result calls (S k)).
Proof using Type.
  intros Hc. unfold call_result. rewrite Hc.
  destruct c as [ty pl t|t| | |]; cbv beta iota delta [run_call].
  - refine (spec_map _ _ _ (S k) _ _ RepResponse
      (λ r s, holds (S k) [] s ∧ send_result (S k) [] ty pl r s) _ _ _);
      [by apply spec_send_command|by intros r s _ ?].
  - eapply spec_conseq; [|by intros s _ [_ Hh]; exact Hh].
    refine (spec_map _ _ _ (S k) _ _ RepRx (λ _, holds (S k) []) _ _ _);
      [apply spec_recv_rx; apply _|by intros r s _ ?].
  - eapply spec_conseq; [|by intros s _ [_ Hh]; exact Hh].
    refine (spec_map _ _ _ (S k) _ _ RepRx (λ _, holds (S k) []) _ _ _);
      [apply spec_next_rx; apply _|by intros r s _ ?].
  - eapply spec_conseq; [|by intros s _ [_ Hh]; exact Hh].
    refine (spec_map _ _ _ (S k) _ _ RepErrors (λ _, holds (S k) []) _ _ _);
      [apply spec_drain; apply _|by intros r s _ ?].
  - eapply spec_conseq with (P' := λ s, True ∧ holds (S k) [] s); [|by intros s _ [_ Hh]].
    refine (spec_map _ _ _ (S k) _ _ (λ _, RepDone)
      (λ _ s, (True ∧ closed s = true) ∧ holds (S k) [] s) _ _ _);
      [apply (spec_close _ (λ _, True))|by intros r s _ [[_ ?]?]].
Qed.

Lemma session_pool_safe calls :
  pool_safe sess_inv rely (call_result calls) (session_pool calls).
Proof using Type.
  split; [apply spawn_inv|]. intros i p Hp n.
  apply lookup_map_seq_Some in Hp as [_ Hp]. rewrite Nat.sub_0_r in Hp.
  pose proof spawn_inv as HI. pose proof (spawn_holds i) as Hh.
  apply lookup_cons_Some in Hp as [[-> <-]|[Hi Hp]].
  - refine (spec_map _ _ _ 0 _ reader_loop (λ _, RepDone) (λ _, holds 0 []) _
      (spec_reader_loop 0) _ n _ HI _); [|done].
    by intros [] s _ ?.
  - destruct i as [|k]; [lia|]. replace (S k - 1)%nat with k in Hp by lia.
    rewrite list_lookup_fmap in Hp. destruct (calls !! k) as [c|] eqn:Hc; [|done].
    injection Hp as <-. apply (spec_run_call calls k c Hc n); [done|]. split; [|done].
    by intros w ch.
Qed.

Lemma session_drop_ok i s : sess_inv s → sess_inv (on_drop i s) ∧ Guar i s (on_drop i s).
Proof using Type. intros HI. split; [by apply inv_drop|apply guar_drop]. Qed.

Lemma session_reachable calls cf :
  reachable (session_pool calls) cf → pool_safe sess_inv rely (call_result calls) cf.
Proof using Type.
  apply (rg_adequacy sess_inv rely _ session_drop_ok), session_pool_safe.
Qed.

(** What a finished call says of the state it left. *)
Lemma finished_call calls cf k c r :
  reachable (session_pool calls) cf → calls !! k = Some c →
  tasks cf !! S k = Some (Ret r) → call_result calls (S k) r (shared cf).
Proof using Type.
  intros Hr%session_reachable _ Ht. by apply (pool_safe_result _ _ _ _ _ _ _ Hr Ht).
Qed.

(** *** Properties of every interleaving *)

(** Whatever the interleaving, a [send_command] that returned a response got
    one that belongs to it: the call made exactly one channel, for a tag that is
    not 0, and the response is what an inbound frame with that very tag decodes to
    for that command type (for TX never an OK frame), or the notice of a closed
    session or an exited reader. *)
Theorem response_correlated calls cf k ty pl t resp :
  reachable (session_pool calls) cf → calls !! k = Some (CSend ty pl t) →
  tasks cf !! S k = Some (Ret (RepResponse (Ok resp))) →
  ∃ w c, chans (shared cf) !! w = Some c ∧ ch_owner c = S k ∧
    (∀ w' c', chans (shared cf) !! w' = Some c' → ch_owner c' = S k → w' = w) ∧
    ch_cmd c = ty ∧ 1 ≤ ch_tag c < 2 ^ 16 ∧
    legit (closed (shared cf)) (frames_received (shared cf)) (ch_tag c) ty resp.
Proof using Type.
  intros Hr Hk Ht. pose proof (finished_call _ _ _ _ _ Hr Hk Ht) as [_ Hs].
  simpl in Hs. rewrite Hk in Hs.
  destruct Hs as [[? _]|(w & tag & ((c & ? & ? & <- & ?) & Ho & _) & ? & ? & _)]; [done|].
  exists w, c. split_and!; try done; try lia.
  intros w' c' ??. by apply list_elem_of_singleton, (Ho w' c').
Qed.

(** A TX is resolved by TX_DONE or an error only: however the device's frames
    arrive, the intermediate OK never completes a [send_command] of type TX. *)
Theorem tx_never_resolved_by_ok calls cf k pl t resp :
  reachable (session_pool calls) cf → calls !! k = Some (CSend TYPE_TX pl t) →
  tasks cf !! S k = Some (Ret (RepResponse (Ok resp))) →
  (∃ td, resp = RTxDone td) ∨ (∃ e, resp = RErr e).
Proof using Type.
  intros Hr Hk Ht. pose proof (finished_call _ _ _ _ _ Hr Hk Ht) as [_ Hs].
  simpl in Hs. rewrite Hk in Hs.
  destruct Hs as [[? _]|(w & tag & _ & _ & Hl & _)]; [done|].
  destruct Hl as [| |ty' pl' _ Hne]; [by eauto..|]. specialize (Hne eq_refl).
  unfold response_for. rewrite (proj2 (Z.eqb_neq _ _) Hne).
  repeat case_match; eauto.
Qed.

(** A [send_command] that returned an error failed in one of the ways the code
    names: the session was closed, its own frame could not be encoded or written,
    its waker was dropped, or its timer expired (with the command's name). *)
Theorem send_errors_classified calls cf k ty pl t e :
  reachable (session_pool calls) cf → calls !! k = Some (CSend ty pl t) →
  tasks cf !! S k = Some (Ret (RepResponse (Err e))) →
  (e = TransportClosed "session closed" ∧ closed (shared cf) = true) ∨
  (∃ tag, 1 ≤ tag < 2 ^ 16 ∧ write_failure ty tag pl e) ∨
  e = ReaderExited ∨ e = TimedOut (describe_cmd ty).
Proof using Type.
  intros Hr Hk Ht. pose proof (finished_call _ _ _ _ _ Hr Hk Ht) as [_ Hs].
  simpl in Hs. rewrite Hk in Hs.
  destruct Hs as [(? & ? & _)|(w & tag & _ & ? & [?|?])]; [left; by simplify_eq|eauto|auto].
Qed.

(** C13: No stale entries: once a [send_command] of a type other than TX has returned,
    with whatever result, no entry of the pending map is its own. *)
Theorem no_stale_entry calls cf k ty pl t r tag p c :
  reachable (session_pool calls) cf → calls !! k = Some (CSend ty pl t) → ty ≠ TYPE_TX →
  tasks cf !! S k = Some (Ret (RepResponse r)) →
  pending (shared cf) !! tag = Some p → chans (shared cf) !! waker p = Some c →
  ch_owner c ≠ S k.
Proof using Type.
  intros Hr Hk Hty Ht Hp Hc Ho.
  pose proof (finished_call _ _ _ _ _ Hr Hk Ht) as [_ Hs]. simpl in Hs. rewrite Hk in Hs.
  destruct Hs as [(_ & _ & Hno)|(w & tag' & ((c1 & Hc1 & _ & _ & Hcmd) & Honly & (c2 & Hc2 & _ & Hout)) & _)].
  - pose proof (Hno _ _ Hc Ho) as Hnil. by apply elem_of_nil in Hnil.
  - pose proof (Honly _ _ Hc Ho) as E%list_elem_of_singleton. rewrite E in Hc. simplify_eq.
    destruct (Hout Hty) as [Hm _]. apply Hm.
    apply session_reachable in Hr as [HI _].
    destruct (inv_map _ HI tag p Hp) as (c3 & Hc3 & _ & _ & ?). by simplify_eq.
Qed.

(** C10: The pending map and the oneshot channels agree in every reachable state:
    an entry is stored under the tag its command was given, a non-zero 16-bit
    number, with that command's type, its channel is unanswered, and no two
    entries share a channel; and no finished call, nor the finished reader, still
    holds a waker. *)
Theorem pending_map_consistent calls cf :
  reachable (session_pool calls) cf →
  (∀ tag p, pending (shared cf) !! tag = Some p →
     1 ≤ tag < 2 ^ 16 ∧
     (∃ c, chans (shared cf) !! waker p = Some c ∧ ch_tag c = tag ∧
           ch_cmd c = cmd_type p ∧ ch_sender c = InMap ∧ ch_value c = None) ∧
     (∀ tag' p', pending (shared cf) !! tag' = Some p' → waker p' = waker p → tag' = tag)) ∧
  (∀ w c i r, chans (shared cf) !! w = Some c → tasks cf !! i = Some (Ret r) →
     ch_sender c ≠ HeldBy i).
Proof using Type.
  intros Hr. pose proof (session_reachable _ _ Hr) as Hsafe. destruct Hsafe as [HI Hts].
  split.
  - intros tag p Hp. destruct (inv_map _ HI tag p Hp) as (c & Hc & Htag & ? & Hm).
    split; [by rewrite <- Htag; eapply (inv_ch_tag _ HI)|]. split.
    + exists c. split_and!; try done. eapply (inv_unsent _ HI); [done|by rewrite Hm].
    + intros tag' p' Hp' E. destruct (inv_map _ HI tag' p' Hp') as (c' & Hc' & ? & _).
      rewrite E in Hc'. congruence.
  - intros w c i r Hc Ht Hs.
    destruct (pool_safe_result _ _ _ _ _ _ _ (conj HI Hts) Ht) as [[_ _ Honly] _].
    pose proof (Honly w c Hc Hs) as Hnil. by apply elem_of_nil in Hnil.
Qed.

(** After a [close] has returned, the session stays closed, and a command that
    starts then is refused without touching the shared state. *)
Theorem closed_refuses_commands calls cf j k r ty pl t ch :
  reachable (session_pool calls) cf →
  calls !! j = Some CClose → tasks cf !! S j = Some (Ret r) →
  tasks cf !! S k = Some (run_call (CSend ty pl t)) →
  step (Run (S k) ch) cf =
    Some (Conf (<[S k := Ret (RepResponse (Err (TransportClosed "session closed")))]> (tasks cf))
               (shared cf)).
Proof using Type.
  intros Hr Hj Ht Hk. pose proof (finished_call _ _ _ _ _ Hr Hj Ht) as [_ Hs].
  simpl in Hs. rewrite Hj in Hs. simpl. rewrite Hk. simpl. by rewrite Hs.
Qed.
End pool.

(** ** Concrete schedules *)

(** Task [i] performs its next [n] steps; the reader performs them until it reads
    and gets [bs]; task [i] sees its timer expire. *)
Definition runs (i n : nat) : list (label sessE Sess) := replicate n (Run i CDefault).
Definition reads (bs : list byte) : list (label sessE Sess) := [Run 0 (CRead bs)].
Definition expires (i : nat) : list (label sessE Sess) := [Run i CElapsed].

(** A PING answered by an OK frame. *)
Definition ping_calls : list call := [CSend 1 [] 2000].
Definition ping_answered : list (label sessE Sess) :=
  runs 1 8 ++ runs 0 2 ++ reads [x80; x01] ++ runs 0 2 ++ runs 1 1.

(** A TX acknowledged with OK and completed by TX_DONE. *)
Definition tx_calls : list call := [CSend 4 [x00; x68] 2000].
Definition tx_done : list (label sessE Sess) :=
  runs 1 8 ++ runs 0 2 ++ reads [x80; x01] ++ runs 0 4 ++ reads [x82; x01; x00] ++
  runs 0 2 ++ runs 1 1.

(** A PING whose timer expires. *)
Definition ping_expired : list (label sessE Sess) := runs 1 8 ++ expires 1 ++ runs 1 2.

Lemma response_correlated_witness :
  ∃ w c, let s := shared (after ping_answered (session_pool ping_calls)) in
    chans s !! w = Some c ∧ ch_owner c = 1%nat ∧
    (∀ w' c', chans s !! w' = Some c' → ch_owner c' = 1%nat → w' = w) ∧
    ch_cmd c = 1 ∧ 1 ≤ ch_tag c < 2 ^ 16 ∧
    legit (closed s) (frames_received s) (ch_tag c) 1 REmpty.
Proof.
  apply (response_correlated ping_calls (after ping_answered (session_pool ping_calls)) 0 1 []
           2000 REmpty (after_reachable _ _)); vm_compute; reflexivity.
Defined.

Lemma tx_never_resolved_by_ok_witness :
  let resp := RTxDone {| td_result := Transmitted; airtime_us := 7777 |} in
  (∃ td, resp = RTxDone td) ∨ (∃ e, resp = RErr e).
Proof.
  apply (tx_never_resolved_by_ok tx_calls (after tx_done (session_pool tx_calls)) 0 [x00; x68]
           2000 _ (after_reachable _ _)); vm_compute; reflexivity.
Defined.

Lemma send_errors_classified_witness :
  (TimedOut "PING" = TransportClosed "session closed" ∧
     closed (shared (after ping_expired (session_pool ping_calls))) = true) ∨
  (∃ tag, 1 ≤ tag < 2 ^ 16 ∧ write_failure 1 tag [] (TimedOut "PING")) ∨
  TimedOut "PING" = ReaderExited ∨ TimedOut "PING" = TimedOut (describe_cmd 1).
Proof.
  apply (send_errors_classified ping_calls (after ping_expired (session_pool ping_calls)) 0 1 []
           2000 _ (after_reachable _ _)); vm_compute; reflexivity.
Defined.

(** Of two commands the first expires; the second's entry stays. *)
Definition two_calls : list call := [CSend 1 [] 2000; CSend 2 [] 2000].
Definition first_expires : list (label sessE Sess) :=
  runs 1 8 ++ runs 2 8 ++ expires 1 ++ runs 1 2.

Lemma no_stale_entry_witness : 2%nat ≠ 1%nat.
Proof.
  set (cf := after first_expires (session_pool two_calls)).
  set (c := {| ch_tag := 2; ch_cmd := 2; ch_sender := InMap; ch_value := None; ch_owner := 2;
               ch_listening := true |}).
  apply (no_stale_entry two_calls cf 0 1 [] 2000 (Err (TimedOut "PING")) 2
           {| cmd_type := 2; waker := 1 |} c (after_reachable _ _));
    [reflexivity|done|vm_compute; reflexivity..].
Defined.

Lemma pending_map_consistent_witness :
  let cf := after first_expires (session_pool two_calls) in
  (∀ tag p, pending (shared cf) !! tag = Some p →
     1 ≤ tag < 2 ^ 16 ∧
     (∃ c, chans (shared cf) !! waker p = Some c ∧ ch_tag c = tag ∧
           ch_cmd c = cmd_type p ∧ ch_sender c = InMap ∧ ch_value c = None) ∧
     (∀ tag' p', pending (shared cf) !! tag' = Some p' → waker p' = waker p → tag' = tag)) ∧
  (∀ w c i r, chans (shared cf) !! w = Some c → tasks cf !! i = Some (Ret r) →
     ch_sender c ≠ HeldBy i).
Proof. apply (pending_map_consistent two_calls), after_reachable. Defined.

Definition close_calls : list call := [CClose; CSend 1 [] 2000].

Lemma closed_refuses_commands_witness :
  let cf := after (runs 1 4) (session_pool close_calls) in
  step (Run 2 CDefault) cf =
    Some (Conf (<[2%nat := Ret (RepResponse (Err (TransportClosed "session closed")))]> (tasks cf))
               (shared cf)).
Proof.
  apply (closed_refuses_commands close_calls _ 0 1 RepDone 1 [] 2000 CDefault (after_reachable _ _));
    reflexivity.
Defined.

(** *** Races *)

(** A race of [dispatch] leaks a TX slot: if the timer of a TX expires after the
    reader has taken its entry out for an intermediate OK and before it is put
    back, the call returns the timeout while its entry stays in the map with nobody
    listening. *)
Theorem tx_entry_can_leak :
  ∃ cf, reachable (session_pool tx_calls) cf ∧
    tasks cf !! 1%nat = Some (Ret (RepResponse (Err (TimedOut "TX")))) ∧
    pending (shared cf) !! 1 = Some {| cmd_type := TYPE_TX; waker := 0 |} ∧
    ch_listening <$> chans (shared cf) !! 0%nat = Some false.
Proof.
  exists (after (runs 1 8 ++ runs 0 2 ++ reads [x80; x01] ++ runs 0 1 ++ expires 1 ++
                 runs 1 1 ++ runs 0 1) (session_pool tx_calls)).
  split; [apply after_reachable|]. split_and!; vm_compute; reflexivity.
Qed.

(** A command sent after the reader has seen the end of the stream is not failed
    fast: the session is not marked closed, so the command is written and only its
    timer ends it. *)
Theorem command_after_reader_exit_times_out :
  ∃ cf cf', reachable (session_pool ping_calls) cf ∧
    tasks cf !! 0%nat = Some (Ret RepDone) ∧ closed (shared cf) = false ∧
    tasks cf !! 1%nat = Some (run_call (CSend 1 [] 2000)) ∧ reachable cf cf' ∧
    (∀ c, c ≠ CElapsed → step (Run 1 c) cf' = None) ∧
    option_bind _ _ (λ cf', tasks cf' !! 1%nat)
      (run_labels (expires 1 ++ runs 1 2) cf') =
      Some (Ret (RepResponse (Err (TimedOut "PING")))).
Proof.
  set (cf := after (runs 0 2 ++ reads [] ++ runs 0 2) (session_pool ping_calls)).
  exists cf, (after (runs 1 8) cf). split_and!; [apply after_reachable|reflexivity..| | |].
  - apply after_reachable.
  - intros c Hc. destruct c; try done; vm_compute; reflexivity.
  - vm_compute; reflexivity.
Qed.

(** [close] misses a command that had passed the closed check before it but
    inserts its entry after the map was taken: when [close] has returned and the
    reader is aborted, the command is still waiting and only its timer ends it. *)
Theorem close_misses_late_command :
  ∃ cf, reachable (session_pool [CClose; CSend 1 [] 2000]) cf ∧
    tasks cf !! 1%nat = Some (Ret RepDone) ∧ reader_aborted (shared cf) = true ∧
    pending (shared cf) !! 1 = Some {| cmd_type := 1; waker := 0 |} ∧
    (∀ c, c ≠ CElapsed → step (Run 2 c) cf = None) ∧
    option_bind _ _ (λ cf', tasks cf' !! 2%nat) (run_labels (expires 2 ++ runs 2 2) cf) =
      Some (Ret (RepResponse (Err (TimedOut "PING")))).
Proof.
  exists (after (runs 2 1 ++ runs 1 4 ++ [Cancel 0] ++ runs 2 7)
            (session_pool [CClose; CSend 1 [] 2000])).
  split_and!; [apply after_reachable|vm_compute; reflexivity..| |].
  - intros c Hc. destruct c; try done; vm_compute; reflexivity.
  - vm_compute; reflexivity.
Qed.

(** The timeout of [recv_rx] does not cover its wait for the queue's lock: while
    a [next_rx] waits for a packet, no step of a [recv_rx] is possible, not even
    the expiry of its timer. *)
Theorem recv_rx_blocks_behind_next_rx :
  ∃ cf, reachable (session_pool [CNextRx; CRecvRx 100]) cf ∧
    tasks cf !! 2%nat = Some (run_call (CRecvRx 100)) ∧
    ∀ c, step (Run 2 c) cf = None.
Proof.
  exists (after (runs 1 1) (session_pool [CNextRx; CRecvRx 100])).
  split_and!; [apply after_reachable|reflexivity|].
  intros c. destruct c; vm_compute; reflexivity.
Qed.
