(* ===== verification/SessionWire.v ===== *)
(** * What a session writes to its transport

    The writer's mutex keeps frames whole: in every interleaving the bytes of one
    call are contiguous on the wire and a prefix of one frame of that call, and
    the whole frame once the call has got past its write.  The proof is a second
    rely/guarantee argument, over the bytes written, the owner of the writer's
    mutex and the tags of the channels. *)

From stdpp Require Import functions.
From S2P Require Import Prelude Runtime Errors Protocol Session SessionInv SessionSpec SessionPool.
Local Open Scope Z_scope.

Section wire.
Context `{Wire}.

(** The bytes of task [i] in [l] are [seg], in one piece. *)
Definition contig (i : nat) (seg : list byte) (l : list (nat * byte)) : Prop :=
  ∃ pre post, l = pre ++ stamp i seg ++ post ∧ (i ∉ pre.*1) ∧ (i ∉ post.*1).

Lemma not_in_stamp i j bs : i ≠ j → i ∉ (stamp j bs).*1.
Proof using Type.
  intros Hij. unfold stamp. rewrite <- list_fmap_compose. intros (b & -> & _)%list_elem_of_fmap. done.
Qed.

Lemma contig_app i seg l l' : contig i seg l → i ∉ l'.*1 → contig i seg (l ++ l').
Proof using Type.
  intros (pre & post & -> & ? & ?) Hl. exists pre, (post ++ l').
  rewrite fmap_app, elem_of_app, <- !app_assoc. split_and!; [done..|tauto].
Qed.

Lemma contig_absent i l : i ∉ l.*1 → contig i [] l.
Proof using Type.
  intros Hl. exists l, []. split_and!; [by rewrite app_nil_r|done|apply not_elem_of_nil].
Qed.

(** The task that made a channel, and the tag it was made for. *)
Definition static (c : Chan) : nat * Z := (ch_owner c, ch_tag c).

(** What the steps of the other tasks may do, seen from task [i]. *)
Record wire_rely (i : nat) (s s' : Sess) : Prop := {
  wr_lock : locks s WriterLock = Some i ↔ locks s' WriterLock = Some i;
  wr_held : locks s WriterLock = Some i → wire_out s' = wire_out s;
  wr_out : ∃ l, wire_out s' = wire_out s ++ l ∧ i ∉ l.*1;
  wr_chan w x : static <$> chans s !! w = Some x → static <$> chans s' !! w = Some x;
}.

#[global] Instance wire_rely_preorder i : PreOrder (wire_rely i).
Proof using Type.
  split.
  - intros s. split; [done..| |eauto]. exists []. rewrite app_nil_r. split; [done|apply not_elem_of_nil].
  - intros s1 s2 s3 [L1 H1 (l1 & E1 & N1) C1] [L2 H2 (l2 & E2 & N2) C2]. split.
    + by rewrite L1.
    + intros Hl. rewrite H2 by tauto. auto.
    + exists (l1 ++ l2). rewrite E2, E1, app_assoc, fmap_app, elem_of_app. split; [done|tauto].
    + auto.
Qed.

(** The frames task [i] may write. *)
Variable writes : nat → list byte → Prop.

Record wire_inv (s : Sess) : Prop := {
  wi_tag : 1 ≤ next_tag s < 2 ^ 16;
  wi_fresh w c : chans s !! w = Some c → (w < next_chan s)%nat;
  wi_contig i : ∃ seg, (contig i seg (wire_out s)) ∧
    (seg = [] ∨ ∃ w, writes i w ∧ seg `prefix_of` w);
}.

Abbreviation Stable := (Runtime.Stable wire_inv wire_rely).
Abbreviation spec := (Runtime.spec wire_inv wire_rely).
Abbreviation Guar := (Runtime.Guar wire_rely).

(** *** Assertions of a task *)

(** Nothing of task [i] is on the wire, and it does not hold the mutex. *)
Definition unwritten (i : nat) (s : Sess) : Prop :=
  locks s WriterLock ≠ Some i ∧ i ∉ (wire_out s).*1.

(** Task [i] holds the mutex and has written [bs], the last bytes on the wire. *)
Definition writing (i : nat) (bs : list byte) (s : Sess) : Prop :=
  locks s WriterLock = Some i ∧
  ∃ pre, wire_out s = pre ++ stamp i bs ∧ i ∉ pre.*1.

(** All of [w] is on the wire in one piece. *)
Definition written (i : nat) (w : list byte) (s : Sess) : Prop :=
  locks s WriterLock ≠ Some i ∧ contig i w (wire_out s).

(** Task [i] has stopped writing. *)
Definition given_up (i : nat) (s : Sess) : Prop := locks s WriterLock ≠ Some i.

(** Task [i] has made a channel for [tag]. *)
Definition tagged (i : nat) (tag : Z) (s : Sess) : Prop :=
  ∃ w, static <$> chans s !! w = Some (i, tag).

#[global] Instance unwritten_stable i : Stable i (unwritten i).
Proof using Type.
  intros s s' [Hl Hi] [L _ (l & E & ?) _] _. split; [by rewrite <- L|].
  rewrite E, fmap_app, elem_of_app. tauto.
Qed.
#[global] Instance writing_stable i bs : Stable i (writing i bs).
Proof using Type. intros s s' [Hl Hw] [L H1 _ _] _. split; [by rewrite <- L|by rewrite H1]. Qed.
#[global] Instance written_stable i w : Stable i (written i w).
Proof using Type.
  intros s s' [Hl Hw] [L _ (l & E & ?) _] _. split; [by rewrite <- L|].
  rewrite E. by apply contig_app.
Qed.
#[global] Instance given_up_stable i : Stable i (given_up i).
Proof using Type. intros s s' Hl [L _ _ _] _. unfold given_up. by rewrite <- L. Qed.
#[global] Instance tagged_stable i tag : Stable i (tagged i tag).
Proof using Type.
  intros s s' [w Hc] [_ _ _ C] _. exists w. auto.
Qed.

(** *** Triples *)

(** Effects that neither write nor touch the writer's mutex. *)
Definition silent (X : Type) (e : sessE X) : Prop :=
  match e with
  | WriteSome _ | LockMutex WriterLock | UnlockMutex WriterLock => False
  | _ => True
  end.

Lemma static_alter f w (cs : gmap nat Chan) w' :
  (∀ c, static (f c) = static c) → static <$> alter f w cs !! w' = static <$> cs !! w'.
Proof using Type.
  intros Hf. rewrite lookup_alter. case_decide; [subst|done].
  destruct (cs !! w') as [c|]; simpl; [by rewrite Hf|done].
Qed.

Lemma static_insert tag p s w :
  static <$> chans (map_insert tag p s) !! w = static <$> chans s !! w.
Proof using Type.
  unfold map_insert, set_sender. simpl. rewrite static_alter by done.
  destruct (pending s !! tag); [by rewrite static_alter|done].
Qed.

Lemma static_take i l s w : static <$> chans (map_take i l s) !! w = static <$> chans s !! w.
Proof using Type.
  unfold map_take. simpl. induction l as [|[t p] l IH]; [done|].
  simpl. unfold set_sender. by rewrite static_alter.
Qed.

(** The channels only grow, by channels that are new. *)
Definition chans_grow (s s' : Sess) : Prop :=
  (∀ w x, static <$> chans s !! w = Some x → static <$> chans s' !! w = Some x) ∧
  (∀ w c, chans s' !! w = Some c → (w < next_chan s')%nat).

Lemma chans_same s s' :
  wire_inv s → next_chan s' = next_chan s →
  (∀ w, static <$> chans s' !! w = static <$> chans s !! w) → chans_grow s s'.
Proof using Type.
  intros HI Hn Hs. split; [intros w x; by rewrite Hs|]. intros w c Hc. rewrite Hn.
  specialize (Hs w). rewrite Hc in Hs. destruct (chans s !! w) as [c'|] eqn:E; [|done].
  by eapply wi_fresh.
Qed.

Lemma chans_new i tag cmd s :
  wire_inv s → chans_grow s (add_chan i tag cmd s).
Proof using Type.
  intros HI. split; simpl.
  - intros w x Hw. rewrite lookup_insert_ne; [done|]. intros <-.
    destruct (chans s !! next_chan s) as [c|] eqn:Hc; [|done].
    pose proof (wi_fresh _ HI _ _ Hc). lia.
  - intros w c [[<- _]|[_ Hc]]%lookup_insert_Some; [lia|].
    pose proof (wi_fresh _ HI _ _ Hc). lia.
Qed.

Lemma silent_do {X} i c (e : sessE X) s x s' :
  silent X e → wire_inv s → sess_do X i c e s = Some (x, s') →
  wire_out s' = wire_out s ∧ locks s' WriterLock = locks s WriterLock ∧
  1 ≤ next_tag s' < 2 ^ 16 ∧ chans_grow s s'.
Proof using Type.
  intros He HI. pose proof (wi_tag _ HI) as Ht.
  pose proof (chans_same s s HI eq_refl (λ _, eq_refl)) as Hg.
  destruct e; simpl in He |- *; intros Hd; repeat case_match; simplify_eq; try done;
    split_and!; simpl; try done; try (by apply chans_same; [done..|intros; by apply static_alter]);
    try (by apply chans_new); try (by apply chans_same; [done..|intros; apply static_insert]);
    try (by apply chans_same; [done..|intros; apply static_take]).
  all: try lia; pose proof (alloc_tag_range _ Ht) as [_ Ha]; unfold alloc_tag in Ha; simpl in Ha;
    case_match; simplify_eq; lia.
Qed.

(** Assertions about the bytes, the mutex and the tags only. *)
Class Quiet (A : Sess → Prop) : Prop :=
  quiet s s' : A s → wire_out s' = wire_out s → locks s' WriterLock = locks s WriterLock →
    (∀ w x, static <$> chans s !! w = Some x → static <$> chans s' !! w = Some x) → A s'.

#[global] Instance pure_quiet φ : Quiet (λ _, φ).
Proof using Type. by intros s s' ?. Qed.
#[global] Instance and_quiet A B : Quiet A → Quiet B → Quiet (λ s, A s ∧ B s).
Proof using Type. intros HA HB s s' [??] ???. split; eapply quiet; eauto. Qed.
#[global] Instance exist_quiet {X} (A : X → Sess → Prop) :
  (∀ x, Quiet (A x)) → Quiet (λ s, ∃ x, A x s).
Proof using Type. intros HA s s' [x ?] ???. exists x. eapply quiet; eauto. Qed.
#[global] Instance unwritten_quiet i : Quiet (unwritten i).
Proof using Type. intros s s' [??] E L _. split; congruence. Qed.
#[global] Instance writing_quiet i bs : Quiet (writing i bs).
Proof using Type. intros s s' [??] E L _. split; [congruence|by rewrite E]. Qed.
#[global] Instance written_quiet i bs : Quiet (written i bs).
Proof using Type. intros s s' [??] E L _. split; [congruence|by rewrite E]. Qed.
#[global] Instance given_up_quiet i : Quiet (given_up i).
Proof using Type. intros s s' ? E L _. unfold given_up. congruence. Qed.
#[global] Instance tagged_quiet i tag : Quiet (tagged i tag).
Proof using Type. intros s s' [w ?] _ _ Hc. exists w. auto. Qed.

Lemma silent_step {X} i c (e : sessE X) s x s' (A : Sess → Prop) `{!Quiet A} :
  silent X e → wire_inv s → A s → sess_do X i c e s = Some (x, s') →
  wire_inv s' ∧ Guar i s s' ∧ A s'.
Proof using Type.
  intros He HI HA Hd. destruct (silent_do i c e s x s' He HI Hd) as (E & L & Ht & Hc & Hf).
  split_and!.
  - split; [done|done|]. rewrite E. apply HI.
  - intros j _. split; [by rewrite L|done| |done]. exists [].
    rewrite E, app_nil_r. split; [done|apply not_elem_of_nil].
  - by eapply quiet.
Qed.

Lemma spec_silent {X} i (p : prog sessE X) (A : Sess → Prop) `{!Stable i A} `{!Quiet A} :
  uses silent p → spec i A p (λ _, A).
Proof using Type.
  apply spec_uses; [apply _..|]. intros Y e s c x s' ???. by apply (silent_step i c e s x s' A).
Qed.

Lemma spec_alloc i (A : Sess → Prop) `{!Stable i A} `{!Quiet A} :
  spec i A (trigger AllocTag) (λ t s, A s ∧ 1 ≤ t < 2 ^ 16).
Proof using Type.
  apply spec_trigger; [apply _..|]. intros s c t s' HI HA Hd.
  destruct (silent_step i c AllocTag s t s' A I HI HA Hd) as (?&?&?). pose proof (wi_tag _ HI).
  injection Hd as <- <-. split_and!; try done; lia.
Qed.

Lemma spec_new_tag i tag cmd (A : Sess → Prop) `{!Stable i A} `{!Quiet A} :
  spec i A (trigger (NewOneshot tag cmd)) (λ _ s, A s ∧ tagged i tag s).
Proof using Type.
  apply spec_trigger; [apply _..|]. intros s c w s' HI HA Hd.
  destruct (silent_step i c (NewOneshot tag cmd) s w s' A I HI HA Hd) as (?&?&?). split_and!; try done.
  injection Hd as <- <-. exists (next_chan s). simpl. by rewrite lookup_insert_eq.
Qed.

(** *** The writer's mutex *)

(** A step of task [i] that writes [bs] and leaves the mutex to [l]. *)
Lemma write_step i bs l s s' :
  wire_inv s → wire_out s' = wire_out s ++ stamp i bs → locks s' WriterLock = l →
  (locks s WriterLock = None ∨ locks s WriterLock = Some i) → (l = None ∨ l = Some i) →
  next_tag s' = next_tag s → next_chan s' = next_chan s → chans s' = chans s →
  (∃ seg, contig i seg (wire_out s') ∧ (seg = [] ∨ ∃ w, writes i w ∧ seg `prefix_of` w)) →
  wire_inv s' ∧ Guar i s s'.
Proof using Type.
  intros HI E El Hl Hl' Et En Ec Hseg. split.
  - split; [rewrite Et; apply HI|rewrite Ec, En; apply HI|]. intros j.
    destruct (decide (i = j)) as [<-|Hij]; [done|].
    destruct (wi_contig s HI j) as (seg & Hs & ?). exists seg. split; [|done].
    rewrite E. apply contig_app; [done|]. by apply not_in_stamp.
  - intros j Hij. split.
    + rewrite El. destruct Hl as [->| ->], Hl' as [->| ->]; split; congruence.
    + intros Hj. destruct Hl; congruence.
    + exists (stamp i bs). split; [done|]. by apply not_in_stamp.
    + by rewrite Ec.
Qed.

Lemma writing_contig i bs s : writing i bs s → contig i bs (wire_out s).
Proof using Type.
  intros (_ & pre & -> & ?). exists pre, []. rewrite app_nil_r. split_and!; [done..|apply not_elem_of_nil].
Qed.

Lemma spec_lock_writer i tag :
  spec i (λ s, unwritten i s ∧ tagged i tag s) (trigger (LockMutex WriterLock))
    (λ _ s, writing i [] s ∧ tagged i tag s).
Proof using Type.
  apply spec_trigger; [apply _..|]. intros s c [] s' HI [[Hl Hw] Hch] Hd. simpl in Hd.
  destruct (locks s WriterLock) as [j|] eqn:HL; [done|]. injection Hd as <-.
  set (s' := with_locks _ s). destruct (write_step i [] (Some i) s s') as [HI' HG];
    [done|by rewrite app_nil_r|done|by left|by right|done..| |].
  - exists []. split; [by apply contig_absent|by left].
  - split_and!; [done..| |done]. split; [done|]. exists (wire_out s). simpl.
    by rewrite app_nil_r.
Qed.

Lemma spec_unlock_writer i bs tag :
  spec i (λ s, writing i bs s ∧ tagged i tag s) (trigger (UnlockMutex WriterLock))
    (λ _ s, written i bs s ∧ tagged i tag s).
Proof using Type.
  apply spec_trigger; [apply _..|]. intros s c [] s' HI [Hw Hch] [= <-].
  pose proof Hw as [Hl _]. pose proof (writing_contig i bs s Hw) as Hc.
  set (s' := with_locks _ s). destruct (write_step i [] None s s') as [HI' HG];
    [done|by rewrite app_nil_r|done|by right|by left|done..| |].
  - simpl. destruct (wi_contig s HI i) as (seg & ?). by exists seg.
  - split_and!; [done..| |done]. split; [done|]. done.
Qed.

Lemma spec_write_some i w bs tag b bs' :
  writes i w → w = bs ++ b :: bs' →
  spec i (λ s, writing i bs s ∧ tagged i tag s) (trigger (WriteSome (b :: bs')))
    (λ r s, match r with
            | Ok n => writing i (bs ++ take n (b :: bs')) s
            | Err _ => writing i bs s
            end ∧ tagged i tag s).
Proof using Type.
  intros Hw ->. apply spec_trigger; [apply _..|intros [] ; apply _|].
  intros s c r s' HI [Hwr Hch] Hd.
  assert (∃ n, r = Ok n ∧ s' = with_wire (wire_out s ++ stamp i (take n (b :: bs'))) (wire_in s) s ∨
               (∃ e, r = Err e) ∧ s' = s) as (n & Hn).
  { simpl in Hd. destruct c as [| |n|e| |]; simplify_eq;
      try (exists (S (length bs')); left; split; [done|]; by rewrite take_ge by done).
    - exists (n `min` S (length bs'))%nat. left. split; [done|]. do 3 f_equal.
      by rewrite <- take_take, (take_ge (b :: bs') (S _)) by done.
    - exists 0%nat. right. eauto. }
  destruct Hn as [[-> ->]|[[e ->] ->]].
  2:{ split_and!; [done|intros j _; reflexivity|done|done]. }
  pose proof Hwr as (Hl & pre & Ho & Hpre).
  assert (writing i (bs ++ take n (b :: bs')) (with_wire (wire_out s ++ stamp i (take n (b :: bs')))
            (wire_in s) s)) as Hwr'.
  { split; [done|]. exists pre. simpl. by rewrite Ho, stamp_app, app_assoc. }
  destruct (write_step i (take n (b :: bs')) (Some i) s (with_wire (wire_out s ++
    stamp i (take n (b :: bs'))) (wire_in s) s)) as [HI' HG];
    [done|done|done|by right|by right|done..| |by split_and!].
  exists (bs ++ take n (b :: bs')). split; [by apply writing_contig|]. right.
  eexists. split; [done|]. apply prefix_app. apply prefix_take.
Qed.

(** *** Functions *)

(** The next statement, made of silent effects. *)
Ltac silent_step :=
  eapply spec_bind; [apply _|apply spec_silent; [apply _..|solve_uses]|].

(** What [write_all w] has written when it returns [r]. *)
Definition wrote (i : nat) (w : list byte) (r : result unit io_error) (s : Sess) : Prop :=
  match r with Ok _ => writing i w s | Err _ => ∃ bs, writing i bs s end.

#[global] Instance wrote_stable i w r : Stable i (wrote i w r).
Proof using Type. destruct r; apply _. Qed.
#[global] Instance wrote_quiet i w r : Quiet (wrote i w r).
Proof using Type. destruct r; apply _. Qed.

Lemma spec_write_all_wire i w tag :
  writes i w →
  spec i (λ s, writing i [] s ∧ tagged i tag s) (write_all WriteSome w)
    (λ r s, wrote i w r s ∧ tagged i tag s).
Proof using Type.
  intros Hw. enough (∀ rest bs, w = bs ++ rest →
    spec i (λ s, writing i bs s ∧ tagged i tag s) (write_all WriteSome rest)
      (λ r s, wrote i w r s ∧ tagged i tag s)) as H' by by apply (H' w []).
  intros rest. induction (write_all_writes WriteSome rest) as [|rest k zero Hne He Hz _ IH];
    intros bs E.
  - apply spec_ret; [apply _|]. intros s _ [? ?]. split; [|done]. by rewrite E, app_nil_r.
  - destruct rest as [|b rest]; [done|].
    change (Vis (WriteSome (b :: rest)) k) with (trigger (WriteSome (b :: rest)) ≫= k).
    eapply spec_bind;
      [apply _|by apply (spec_write_some i w bs tag b rest)|].
    intros [[|n]|e]; rewrite ?Hz, ?He.
    + apply spec_ret; [apply _|]. intros s _ [? ?]. split; [by eexists|done].
    + apply IH. by rewrite <- app_assoc, take_drop.
    + apply spec_ret; [apply _|]. intros s _ [? ?]. split; [by eexists|done].
Qed.

(** What a call's frame has become when the call has a result. *)
Definition frame_fate (ty : Z) (pl : list byte) (i : nat) {A} (r : ClientResult A) (s : Sess) :
    Prop :=
  match r with
  | Err (TransportClosed _) | Err (EncodeFailed _) => unwritten i s
  | Err (Io _) => given_up i s
  | _ => ∃ tag w, 1 ≤ tag < 2 ^ 16 ∧ encode_frame ty tag pl = Ok w ∧
                  written i w s ∧ tagged i tag s
  end.

#[global] Instance frame_fate_stable ty pl i {A} (r : ClientResult A) : Stable i (frame_fate ty pl i r).
Proof using Type. destruct r as [|[]]; apply _. Qed.
#[global] Instance frame_fate_quiet ty pl i {A} (r : ClientResult A) : Quiet (frame_fate ty pl i r).
Proof using Type. destruct r as [|[]]; apply _. Qed.

Lemma spec_write_frame_wire i ty tag pl :
  1 ≤ tag < 2 ^ 16 → (∀ w, encode_frame ty tag pl = Ok w → writes i w) →
  spec i (λ s, unwritten i s ∧ tagged i tag s) (write_frame ty tag pl)
    (λ r s, frame_fate ty pl i r s ∧ ∀ e, r = Err e → (∃ io, e = Io io) ∨ ∃ m, e = EncodeFailed m).
Proof using Type.
  intros Htag Hw. unfold write_frame. destruct (encode_frame ty tag pl) as [w|ee] eqn:Henc.
  2:{ apply spec_ret; [apply _|]. intros s _ [? _]. split; [done|]. intros e [= <-]. eauto. }
  specialize (Hw w eq_refl).
  eapply spec_bind; [apply _|apply spec_lock_writer|]. intros [].
  eapply spec_bind; [apply _|by apply spec_write_all_wire|]. intros r.
  destruct r as [[]|io].
  - silent_step.
    intros r. eapply spec_bind; [apply _|apply (spec_unlock_writer i w tag)|]. intros []. apply spec_ret; [apply _|]. intros s _ [Hwr ?]. destruct r as [[]|io]; simpl.
    + split; [|done]. exists tag, w. auto.
    + split; [apply Hwr|]. intros e [= <-]. eauto.
  - eapply spec_bind with (R := λ _, given_up i); [apply _| |].
    { intros n s HI [[bs ?] ?].
      eapply safe_post; [by apply (spec_unlock_writer i bs tag)|]. by intros [] s' _ [[? _] _]. }
    intros []. apply spec_ret; [apply _|]. intros s _ ?. split; [done|]. intros e [= <-]. eauto.
Qed.

Lemma silent_remove_pending tag : uses silent (remove_pending tag).
Proof using Type. unfold remove_pending. solve_uses. Qed.

Lemma spec_send_command_wire i ty pl timeout :
  (∀ tag w, 1 ≤ tag < 2 ^ 16 → encode_frame ty tag pl = Ok w → writes i w) →
  spec i (unwritten i) (send_command ty pl timeout) (frame_fate ty pl i).
Proof using Type.
  intros Hw. unfold send_command. silent_step. intros [].
  { by apply spec_ret; [apply _|]. }
  eapply spec_bind; [apply _|apply spec_alloc; apply _|]. intros tag.
  intros n s HI [Hun Htag]. revert n s HI Hun.
  enough (spec i (unwritten i)
    (rx ← trigger (NewOneshot tag ty);
     trigger (PendingInsert tag {| cmd_type := ty; waker := rx |}) ;;
     w ← write_frame ty tag pl;
     match w with
     | Err e => remove_pending tag ;; trigger (DropReceiver rx) ;; Ret (Err e)
     | Ok _ =>
         r ← trigger (AwaitResponse rx timeout);
         match r with
         | Responded resp => Ret (Ok resp)
         | RecvError => remove_pending tag ;; Ret (Err ReaderExited)
         | Elapsed => remove_pending tag ;; Ret (Err (TimedOut (describe_cmd ty)))
         end
     end) (frame_fate ty pl i)) as Hs by (intros n s ??; by apply Hs).
  eapply spec_bind; [apply _|apply spec_new_tag; apply _|]. intros rx. silent_step. intros [].
  eapply spec_bind; [apply _|by apply spec_write_frame_wire; eauto|]. intros r.
  assert (∀ e, e = ReaderExited ∨ (∃ m, e = TimedOut m) →
    spec i (λ s, frame_fate ty pl i (Ok ()) s) (remove_pending tag ;; Ret (Err e))
      (frame_fate (A := SessionResponse) ty pl i)) as Hlate.
  { intros e He. eapply spec_bind; [apply _|apply spec_silent; [apply _..|apply silent_remove_pending]|].
    intros []. apply spec_ret; [apply _|]. intros s _ ?. by destruct He as [->|[m ->]]. }
  destruct r as [[]|e].
  - eapply spec_conseq; [|by intros s _ [Hf _]; exact Hf]. silent_step.
    intros [resp| |]; [by apply spec_ret; [apply _|]|apply Hlate; eauto..].
  - eapply spec_bind; [apply _|apply spec_silent; [apply _..|apply silent_remove_pending]|]. intros [].
    silent_step. intros []. apply spec_ret; [apply _|]. intros s _ [Hf He].
    by destruct (He e eq_refl) as [[? ->]|[? ->]].
Qed.

(** The reader and the other calls write nothing. *)
Lemma silent_dispatch ty tag pl : uses silent (dispatch ty tag pl).
Proof using Type. unfold dispatch, dispatch_async. solve_uses. Qed.

Lemma silent_for {X} (f : X → prog sessE unit) l :
  (∀ x, uses silent (f x)) → uses silent (prog_for l f).
Proof using Type. intros Hf. induction l; simpl; [constructor|by apply uses_bind]. Qed.

Lemma silent_reader : uses silent reader_loop.
Proof using Type.
  unfold reader_loop, loop, wake_all. apply uses_bind.
  - constructor; [|constructor]. intros d. unfold reader_body.
    apply uses_bind; [by apply uses_trigger|]. intros []; [constructor|].
    apply uses_bind; [by apply uses_trigger|]. intros [[|b bs]|]; [constructor| |constructor].
    destruct (decoder_feed d (b :: bs)) as [d' works].
    apply uses_bind; [|constructor]. apply silent_for. intros [ty tag pl|]; [apply silent_dispatch|].
    by apply uses_trigger.
  - intros []. apply uses_bind; [by apply uses_trigger|]. intros l.
    apply uses_bind; [|intros; by apply uses_trigger]. apply silent_for. intros. by apply uses_trigger.
Qed.

Lemma silent_close : uses silent close.
Proof using Type.
  unfold close, wake_all. apply uses_bind; [by apply uses_trigger|]. intros [].
  apply uses_bind; [by apply uses_trigger|]. intros l.
  apply uses_bind; [|solve_uses]. apply silent_for. intros. by apply uses_trigger.
Qed.
End wire.

(** ** Every interleaving *)

Section pool.
Context `{Wire}.

(** The frames a task of [session_pool calls] may write. *)
Definition call_writes (calls : list call) (i : nat) (w : list byte) : Prop :=
  ∃ k ty pl t tag, i = S k ∧ calls !! k = Some (CSend ty pl t) ∧ 1 ≤ tag < 2 ^ 16 ∧
                   encode_frame ty tag pl = Ok w.

Definition wire_result (calls : list call) (i : nat) (r : reply) (s : Sess) : Prop :=
  match i, r with
  | S k, RepResponse r =>
      ∀ ty pl t, calls !! k = Some (CSend ty pl t) → frame_fate ty pl (S k) r s
  | _, _ => True
  end.

Lemma spawn_wire_inv calls : wire_inv (call_writes calls) (spawn_state 0).
Proof using Type.
  split; simpl; [done|done|]. intros i. exists []. split; [|by left].
  apply contig_absent, not_elem_of_nil.
Qed.

Lemma spec_run_call_wire calls k c :
  calls !! k = Some c →
  Runtime.spec (wire_inv (call_writes calls)) wire_rely (S k) (unwritten (S k)) (run_call c)
    (wire_result calls (S k)).
Proof using Type.
  intros Hc. destruct c as [ty pl t|t| | |]; cbv beta iota delta [run_call].
  - eapply spec_bind; [apply _| |].
    + apply spec_send_command_wire. intros tag w ??. by exists k, ty, pl, t, tag.
    + intros r. apply spec_ret; [apply _|]. intros s _ Hf ty' pl' t' Hc'. simpl in *. by simplify_eq.
  - eapply spec_post with (Q := λ r _, ∃ rx, r = RepRx rx); [|by intros r s _ [rx ->]].
    eapply spec_bind; [apply _| |].
    + apply (spec_silent _ _ _ (unwritten (S k))). unfold recv_rx. solve_uses.
    + intros rx. apply spec_ret; [apply _|]. by eexists.
  - eapply spec_post with (Q := λ r _, ∃ rx, r = RepRx rx); [|by intros r s _ [rx ->]].
    eapply spec_bind; [apply _| |].
    + apply (spec_silent _ _ _ (unwritten (S k))). unfold next_rx. solve_uses.
    + intros rx. apply spec_ret; [apply _|]. by eexists.
  - eapply spec_post with (Q := λ r _, ∃ es, r = RepErrors es); [|by intros r s _ [rx ->]].
    eapply spec_bind; [apply _| |].
    + apply (spec_silent _ _ _ (unwritten (S k))). unfold drain_async_errors, loop. solve_uses.
    + intros es. apply spec_ret; [apply _|]. by eexists.
  - eapply spec_post with (Q := λ r _, r = RepDone); [|by intros r s _ ->].
    eapply spec_bind; [apply _| |].
    + apply (spec_silent _ _ _ (unwritten (S k))), silent_close.
    + intros []. by apply spec_ret; [apply _|].
Qed.

Lemma session_pool_wire_safe calls :
  pool_safe (wire_inv (call_writes calls)) wire_rely (wire_result calls) (session_pool calls).
Proof using Type.
  split; [apply spawn_wire_inv|]. intros i p Hp n.
  apply lookup_map_seq_Some in Hp as [_ Hp]. rewrite Nat.sub_0_r in Hp.
  pose proof (spawn_wire_inv calls) as HI.
  apply lookup_cons_Some in Hp as [[-> <-]|[Hi Hp]].
  - eapply safe_post with (Q := λ _ _, True); [|by intros [] s _ _].
    apply (spec_silent (call_writes calls) 0 _ (λ _, True)); [|done|done].
    apply uses_bind; [apply silent_reader|]. constructor.
  - destruct i as [|k]; [lia|]. replace (S k - 1)%nat with k in Hp by lia.
    rewrite list_lookup_fmap in Hp. destruct (calls !! k) as [c|] eqn:Hc; [|done].
    injection Hp as <-. apply (spec_run_call_wire calls k c Hc n); [done|].
    split; simpl; [done|apply not_elem_of_nil].
Qed.

Lemma wire_drop_ok calls i s :
  wire_inv (call_writes calls) s →
  wire_inv (call_writes calls) (on_drop i s) ∧ Runtime.Guar wire_rely i s (on_drop i s).
Proof using Type.
  intros [Ht Hf Hc].
  assert (∀ w, static <$> chans (sess_drop i s) !! w = static <$> chans s !! w) as Hst.
  { intros w. simpl. rewrite lookup_fmap. by destruct (chans s !! w). }
  split.
  - split; [done| |done]. intros w c. simpl. rewrite lookup_fmap.
    destruct (chans s !! w) eqn:E; [|done]. intros _. by eapply Hf.
  - intros j Hij. split; simpl; [|done| |by intros w x; rewrite Hst].
    + case_decide; [split; congruence|done].
    + exists []. rewrite app_nil_r. split; [done|apply not_elem_of_nil].
Qed.

Lemma session_wire_reachable calls cf :
  reachable (session_pool calls) cf →
  pool_safe (wire_inv (call_writes calls)) wire_rely (wire_result calls) cf.
Proof using Type.
  apply (rg_adequacy _ _ _ (wire_drop_ok calls)), session_pool_wire_safe.
Qed.

(** *** The wire as a sequence of frames *)

Lemma contig_cons_ne i j b seg l : contig j seg ((i, b) :: l) → j ≠ i → contig j seg l.
Proof using Type.
  intros (pre & post & E & Hpre & Hpost) Hij. destruct pre as [|x pre].
  - destruct seg as [|b' seg]; [|unfold stamp in E; simpl in E; congruence]. simpl in E. subst post.
    apply contig_absent. intros Hj. apply Hpost. rewrite fmap_cons. by right.
  - injection E as <- ->. exists pre, post. rewrite fmap_cons, not_elem_of_cons in Hpre. tauto.
Qed.

Lemma contig_stamp_ne i j bs seg l : contig j seg (stamp i bs ++ l) → j ≠ i → contig j seg l.
Proof using Type.
  induction bs as [|b bs IH]; [done|]. intros Hc Hij. apply IH; [|done].
  by apply (contig_cons_ne i j b).
Qed.

Lemma contig_cons i b seg l :
  contig i seg ((i, b) :: l) → ∃ seg' post, seg = b :: seg' ∧ l = stamp i seg' ++ post ∧ i ∉ post.*1.
Proof using Type.
  intros (pre & post & E & Hpre & Hpost). destruct pre as [|x pre].
  - destruct seg as [|b' seg].
    + simpl in E. subst post. exfalso. apply Hpost. rewrite fmap_cons. by left.
    + unfold stamp in E. simpl in E. injection E as -> ->. by exists seg, post.
  - injection E as <- ->. exfalso. apply Hpre. rewrite fmap_cons. by left.
Qed.

(** Bytes of which each task's are in one piece are a sequence of pieces. *)
Lemma contig_segments l :
  (∀ i, ∃ seg, contig i seg l) →
  ∃ segs : list (nat * list byte), l = concat ((λ x, stamp x.1 x.2) <$> segs) ∧ NoDup segs.*1 ∧
    ∀ i seg, (i, seg) ∈ segs → seg ≠ [] ∧ contig i seg l.
Proof using Type.
  induction l as [l IH] using (induction_ltof1 _ length). intros Hl. destruct l as [|[i b] l].
  { exists []. split_and!; [done|constructor|]. intros i seg Hin. by apply elem_of_nil in Hin. }
  destruct (Hl i) as [seg Hi]. pose proof Hi as (seg' & post & -> & -> & Hpost)%contig_cons.
  change ((i, b) :: stamp i seg' ++ post) with (stamp i (b :: seg') ++ post) in *.
  destruct (IH post) as (segs & -> & Hnd & Hs).
  - unfold ltof, stamp. rewrite length_app, length_fmap. simpl. lia.
  - intros j. destruct (decide (j = i)) as [->|Hij]; [exists []; by apply contig_absent|].
    destruct (Hl j) as [segj Hj]. exists segj. by eapply contig_stamp_ne.
  - assert (i ∉ segs.*1) as Hni.
    { intros ([i' seg] & -> & Hin)%list_elem_of_fmap. destruct (Hs i' seg Hin) as [Hne (pre & po & E & _)].
      apply Hpost. rewrite E, !fmap_app, !elem_of_app. right. left. destruct seg; [done|].
      unfold stamp. rewrite !fmap_cons. by left. }
    exists ((i, b :: seg') :: segs). split_and!; [done|by constructor|].
    intros j seg [[= -> ->]|Hin]%elem_of_cons; [done|]. destruct (Hs j seg Hin) as [? (pre & po & E & ? & ?)].
    split; [done|]. assert (j ≠ i) as Hji.
    { intros ->. apply Hni, list_elem_of_fmap. by exists (i, seg). }
    exists (stamp i (b :: seg') ++ pre), po. rewrite E, fmap_app, elem_of_app, <- !app_assoc.
    pose proof (not_in_stamp j i (b :: seg') Hji). split_and!; [done|tauto|done].
Qed.

Lemma filter_absent i (l : list (nat * byte)) : i ∉ l.*1 → filter (λ x, x.1 = i) l = [].
Proof using Type.
  induction l as [|x l IH]; [done|]. rewrite fmap_cons, not_elem_of_cons. intros [??].
  rewrite filter_cons_False by congruence. auto.
Qed.

Lemma contig_bytes i seg l : contig i seg l → (filter (λ x, x.1 = i) l).*2 = seg.
Proof using Type.
  intros (pre & post & -> & Hpre & Hpost).
  rewrite !filter_app, (filter_absent i pre), (filter_absent i post), app_nil_r by done. simpl.
  induction seg as [|b seg IH]; [done|]. unfold stamp in *. rewrite fmap_cons.
  by rewrite filter_cons_True, fmap_cons, IH.
Qed.

Lemma contig_unique i seg seg' l : contig i seg l → contig i seg' l → seg = seg'.
Proof using Type. intros <-%contig_bytes <-%contig_bytes. done. Qed.

(** A call that wrote something and did not fail with an I/O error wrote a whole
    frame. *)
Lemma frame_fate_whole ty pl i (r : ClientResult SessionResponse) seg s :
  contig i seg (wire_out s) → seg ≠ [] → frame_fate ty pl i r s →
  (∃ io, r = Err (Io io)) ∨
  ∃ tag w, 1 ≤ tag < 2 ^ 16 ∧ encode_frame ty tag pl = Ok w ∧ seg = w.
Proof using Type.
  intros Hc Hne Hf. assert (i_absent : unwritten i s → False).
  { intros [_ Habs]. by rewrite (contig_unique _ _ _ _ Hc (contig_absent _ _ Habs)) in Hne. }
  destruct r as [|[]]; simpl in Hf; try (by destruct (i_absent Hf)); eauto;
    destruct Hf as (tag' & w' & ? & ? & [_ Hc'] & _); right; exists tag', w';
    (split_and!; [tauto..|done|by apply (contig_unique i _ _ (wire_out s))]).
Qed.

(** C9: What is on the wire, in every interleaving with any cancellations: a sequence
    of pieces, each by one call and at most one per call, each the beginning of a
    frame of that call under a tag that is not 0; never are two frames mixed.  The
    piece of a call that has returned is the whole frame, unless the call failed
    with an I/O error. *)
Theorem wire_is_frames calls cf :
  reachable (session_pool calls) cf →
  ∃ segs : list (nat * list byte),
    wire_out (shared cf) = concat ((λ x, stamp x.1 x.2) <$> segs) ∧ NoDup segs.*1 ∧
    ∀ i seg, (i, seg) ∈ segs →
      ∃ k ty pl t tag w, i = S k ∧ calls !! k = Some (CSend ty pl t) ∧ 1 ≤ tag < 2 ^ 16 ∧
        encode_frame ty tag pl = Ok w ∧ seg `prefix_of` w ∧
        ∀ r, tasks cf !! S k = Some (Ret (RepResponse r)) → (∀ io, r ≠ Err (Io io)) → seg = w.
Proof using Type.
  intros Hr. pose proof (session_wire_reachable _ _ Hr) as Hsafe.
  pose proof Hsafe as [HI _].
  destruct (contig_segments (wire_out (shared cf))) as (segs & E & Hnd & Hs).
  { intros i. destruct (wi_contig _ _ HI i) as (seg & ? & _). by exists seg. }
  exists segs. split_and!; [done..|]. intros i seg Hin. destruct (Hs i seg Hin) as [Hne Hc].
  destruct (wi_contig _ _ HI i) as (seg' & Hc' & [->|(w & Hw & Hp)]);
    [by rewrite (contig_unique _ _ _ _ Hc Hc') in Hne|].
  rewrite <- (contig_unique _ _ _ _ Hc Hc') in Hp. clear seg' Hc'.
  destruct Hw as (k & ty & pl & t & tag & -> & Hk & Ht & He).
  assert (∀ r, tasks cf !! S k = Some (Ret (RepResponse r)) → frame_fate ty pl (S k) r (shared cf)) as Hfate.
  { intros r Hret. by apply (pool_safe_result _ _ _ _ _ _ _ Hsafe Hret) in Hk. }
  assert ((∃ r, tasks cf !! S k = Some (Ret (RepResponse r))) ∨
          ∀ r, tasks cf !! S k ≠ Some (Ret (RepResponse r))) as [[r Hret]|Hno].
  { destruct (tasks cf !! S k) as [[[]| | |]|]; eauto. }
  - destruct (frame_fate_whole ty pl (S k) r seg (shared cf) Hc Hne (Hfate r Hret)) as [[io ->]|(tag' & w' & ? & ? & ->)].
    + exists k, ty, pl, t, tag, w. split_and!; try done; try lia.
      intros r Hr' Hio. rewrite Hret in Hr'. simplify_eq. by destruct (Hio io).
    + exists k, ty, pl, t, tag', w'. split_and!; try done; lia.
  - exists k, ty, pl, t, tag, w. split_and!; try done; try lia. intros r Hr'. by destruct (Hno r).
Qed.

(** C6: A command and its response: whatever the interleaving, a [send_command] that
    returned a response has made exactly one channel, for a tag that is not 0, has
    written the whole frame of the command under that tag in one piece, once, and
    the response is what an inbound frame with the same tag decodes to for that
    command type (for TX never an OK frame), or the notice of a closed session or
    an exited reader. *)
Theorem request_response calls cf k ty pl t resp :
  reachable (session_pool calls) cf → calls !! k = Some (CSend ty pl t) →
  tasks cf !! S k = Some (Ret (RepResponse (Ok resp))) →
  ∃ w c frame, chans (shared cf) !! w = Some c ∧ ch_owner c = S k ∧
    (∀ w' c', chans (shared cf) !! w' = Some c' → ch_owner c' = S k → w' = w) ∧
    ch_cmd c = ty ∧ 1 ≤ ch_tag c < 2 ^ 16 ∧
    encode_frame ty (ch_tag c) pl = Ok frame ∧ contig (S k) frame (wire_out (shared cf)) ∧
    legit (closed (shared cf)) (frames_received (shared cf)) (ch_tag c) ty resp.
Proof using Type.
  intros Hr Hk Ht. pose proof (session_wire_reachable _ _ Hr) as Hsafe.
  pose proof (pool_safe_result _ _ _ _ _ _ _ Hsafe Ht ty pl t Hk) as
    (tag & frame & _ & He & [_ Hc] & w' & Hw').
  destruct (response_correlated _ _ _ _ _ _ _ Hr Hk Ht) as (w & c & Hch & Ho & Honly & ? & ? & ?).
  destruct (chans (shared cf) !! w') as [c'|] eqn:Hc'; [|done]. simpl in Hw'.
  unfold static in Hw'. injection Hw' as Ho' Htag.
  pose proof (Honly w' c' Hc' Ho') as ->. simplify_eq.
  exists w, c', frame. split_and!; try done; lia.
Qed.
End pool.

Lemma request_response_witness :
  ∃ w c frame, let s := shared (after ping_answered (session_pool ping_calls)) in
    chans s !! w = Some c ∧ ch_owner c = 1%nat ∧
    (∀ w' c', chans s !! w' = Some c' → ch_owner c' = 1%nat → w' = w) ∧
    ch_cmd c = 1 ∧ 1 ≤ ch_tag c < 2 ^ 16 ∧
    encode_frame 1 (ch_tag c) [] = Ok frame ∧ contig 1 frame (wire_out s) ∧
    legit (closed s) (frames_received s) (ch_tag c) 1 REmpty.
Proof.
  apply (request_response ping_calls (after ping_answered (session_pool ping_calls)) 0 1 []
           2000 REmpty (after_reachable _ _)); vm_compute; reflexivity.
Defined.

Lemma wire_is_frames_witness :
  let cf := after first_expires (session_pool two_calls) in
  ∃ segs : list (nat * list byte),
    wire_out (shared cf) = concat ((λ x, stamp x.1 x.2) <$> segs) ∧ NoDup segs.*1 ∧
    ∀ i seg, (i, seg) ∈ segs →
      ∃ k ty pl t tag w, i = S k ∧ two_calls !! k = Some (CSend ty pl t) ∧ 1 ≤ tag < 2 ^ 16 ∧
        encode_frame ty tag pl = Ok w ∧ seg `prefix_of` w ∧
        ∀ r, tasks cf !! S k = Some (Ret (RepResponse r)) → (∀ io, r ≠ Err (Io io)) → seg = w.
Proof. apply wire_is_frames, after_reachable. Defined.

(** The first call is dropped after one byte of its frame; the second then runs. *)
Definition dropped_write : list (label sessE Sess) :=
  runs 1 5 ++ [Run 1 (CChunk 1); Cancel 1] ++ runs 2 8.

(** C36: Dropping a call while it writes tears its frame: the mutex is released with
    the frame cut short, and the next command's frame follows the fragment without
    a delimiter between them. *)
Theorem cancelled_write_tears_frame :
  ∃ cf w1 w2, reachable (session_pool two_calls) cf ∧
    encode_frame 1 1 [] = Ok w1 ∧ encode_frame 2 2 [] = Ok w2 ∧
    (1 < length w1)%nat ∧
    (wire_out (shared cf)).*2 = take 1 w1 ++ w2 ∧
    ∃ p, tasks cf !! 2%nat = Some (Vis (AwaitResponse 1 2000) p).
Proof.
  exists (after dropped_write (session_pool two_calls)).
  eexists _, _. split_and!; [apply after_reachable|reflexivity|reflexivity|vm_compute; lia|vm_compute; reflexivity|].
  eexists. vm_compute. reflexivity.
Qed.
