(* ===== verification/SessionLive.v ===== *)
(** * Progress of a session

    The functions of the session follow a discipline of locks, stated as a type system
    on programs: at most one mutex is held, between its lock and its unlock only the
    operation it protects is done, and only channels that exist are awaited.  Steps
    preserve it, and it gives deadlock freedom of every pool of callers. *)

From stdpp Require Import functions.
From S2P Require Import Prelude Runtime Locks Errors Protocol Session SessionInv SessionSpec SessionPool SessionWire.
Local Open Scope Z_scope.

Section discipline.
Context `{Wire}.

(** What may be done while [h] is held. *)
Definition allowed (h : option lock_id) {X} (e : sessE X) : Prop :=
  match e with
  | LockMutex _ | UnlockMutex _ | NewOneshot _ _ | AwaitResponse _ _ => False
  | WriteSome _ | Flush => h = Some WriterLock
  | RxRecv _ => h = Some RxLock
  | ErrTryRecv => h = Some ErrLock
  | _ => h = None
  end.

(** [disc Q K h p]: program [p] keeps the discipline from a point where it holds [h]
    and the channels [K] exist; it returns at points with [Q]. *)
Inductive disc {A} (Q : option lock_id → A → Prop) (K : list nat) (h : option lock_id) :
    prog sessE A → Prop :=
| disc_ret a : Q h a → disc Q K h (Ret a)
| disc_lock l k : h = None → disc Q K (Some l) (k tt) → disc Q K h (Vis (LockMutex l) k)
| disc_unlock l k : h = Some l → disc Q K None (k tt) → disc Q K h (Vis (UnlockMutex l) k)
| disc_new tag cmd k :
    h = None → (∀ w, disc Q (w :: K) h (k w)) → disc Q K h (Vis (NewOneshot tag cmd) k)
| disc_await w t k :
    h = None → w ∈ K → (∀ r, disc Q K h (k r)) → disc Q K h (Vis (AwaitResponse w t) k)
| disc_eff {X} (e : sessE X) k : allowed h e → (∀ x, disc Q K h (k x)) → disc Q K h (Vis e k)
| disc_loop {S B} (body : S → prog sessE (S + B)) l k :
    (∀ l, disc (λ h' _, h' = h) K h (body l)) → (∀ b, disc Q K h (k b)) →
    disc Q K h (Loop body l k).

Lemma disc_weaken {A} (Q : option lock_id → A → Prop) K K' h p :
  K ⊆ K' → disc Q K h p → disc Q K' h p.
Proof using Type.
  intros HK Hp. revert K' HK.
  induction Hp as [A Q K h a|A Q K h l k ? _ IH|A Q K h l k ? _ IH|A Q K h tag cmd k ? _ IH
    |A Q K h w t k ? Hw _ IH|A Q K h X e k He _ IH|A Q K h S B body l k _ IHb _ IHk]; intros K' HK.
  - by apply disc_ret.
  - apply disc_lock; auto.
  - apply disc_unlock; auto.
  - apply disc_new; [done|]. intros w. apply IH. set_solver.
  - apply disc_await; auto.
  - apply disc_eff; auto.
  - apply disc_loop; auto.
Qed.

Lemma disc_bind {A B} (Q : option lock_id → A → Prop) (R : option lock_id → B → Prop) K h p f :
  disc Q K h p → (∀ K' h' a, K ⊆ K' → Q h' a → disc R K' h' (f a)) → disc R K h (prog_bind p f).
Proof using Type.
  intros Hp. revert B R f.
  induction Hp as [A Q K h a|A Q K h l k ? _ IH|A Q K h l k ? _ IH|A Q K h tag cmd k ? _ IH
    |A Q K h w t k ? Hw _ IH|A Q K h X e k He _ IH|A Q K h S B' body l k Hb _ _ IHk];
    intros B R f Hf; simpl.
  - by apply Hf.
  - apply disc_lock; auto.
  - apply disc_unlock; auto.
  - apply disc_new; [done|]. intros w. apply IH. intros K' h' a HK. apply Hf. set_solver.
  - apply disc_await; auto.
  - apply disc_eff; auto.
  - apply disc_loop; [exact Hb|auto].
Qed.

(** A part that keeps what is held. *)
Lemma disc_seq {A B} (R : option lock_id → B → Prop) K h (p : prog sessE A) f :
  disc (λ h' _, h' = h) K h p → (∀ a, disc R K h (f a)) → disc R K h (p ≫= f).
Proof using Type.
  intros Hp Hf. eapply disc_bind; [exact Hp|]. intros K' h' a HK ->. by eapply disc_weaken.
Qed.

Lemma disc_for {X} K h (l : list X) f :
  (∀ x, disc (λ h' _, h' = h) K h (f x)) → disc (λ h' _, h' = h) K h (prog_for l f).
Proof using Type.
  intros Hf. induction l as [|x l IH]; [by apply disc_ret|]. simpl. by apply disc_seq.
Qed.

(** ** The functions keep the discipline *)

(** One constructor per statement; calls are left to the caller of the tactic. *)
Ltac disc_step :=
  first [progress intros|apply disc_ret; done|apply disc_lock; [done|]|apply disc_unlock; [done|]
        |apply disc_new; [done|]|apply disc_await; [done|set_solver|]|apply disc_eff; [done|]
        |progress cbn [trigger mbind prog_mbind prog_bind]|case_match].
Ltac disc_run := repeat disc_step.

Abbreviation keeps h := (λ h' _, h' = (h : option lock_id)).

Lemma disc_write_all K bs : disc (keeps (Some WriterLock)) K (Some WriterLock) (write_all WriteSome bs).
Proof using Type.
  apply write_all_ind; intros; [by apply disc_ret|by apply disc_eff].
Qed.

Lemma disc_write_frame K ty tag pl : disc (keeps None) K None (write_frame ty tag pl).
Proof using Type.
  unfold write_frame. destruct (encode_frame _ _ _); [|by apply disc_ret].
  apply disc_lock; [done|]. apply disc_seq; [apply disc_write_all|]. disc_run.
Qed.

Lemma disc_remove_pending K tag : disc (keeps None) K None (remove_pending tag).
Proof using Type. unfold remove_pending. disc_run. Qed.

Lemma disc_send_command K ty pl t : disc (keeps None) K None (send_command ty pl t).
Proof using Type.
  unfold send_command. apply disc_eff; [done|]. intros []; [by apply disc_ret|].
  apply disc_eff; [done|]. intros tag. apply disc_new; [done|]. intros w.
  apply disc_eff; [done|]. intros []. apply disc_seq; [apply disc_write_frame|].
  intros [[]|e]; [|apply disc_seq; [apply disc_remove_pending|]; disc_run].
  apply disc_await; [done|set_solver|]. intros [resp| |]; [by apply disc_ret|..];
    (apply disc_seq; [apply disc_remove_pending|]; disc_run).
Qed.

Lemma disc_recv_rx K t : disc (keeps None) K None (recv_rx t).
Proof using Type. unfold recv_rx. disc_run. Qed.
Lemma disc_next_rx K : disc (keeps None) K None next_rx.
Proof using Type. unfold next_rx. disc_run. Qed.

Lemma disc_drain K : disc (keeps None) K None drain_async_errors.
Proof using Type.
  unfold drain_async_errors, loop. apply disc_lock; [done|]. apply disc_loop; disc_run.
Qed.

Lemma disc_wake_all K msg l : disc (keeps None) K None (wake_all msg l).
Proof using Type. apply disc_for. disc_run. Qed.

Lemma disc_close K : disc (keeps None) K None close.
Proof using Type.
  unfold close. apply disc_eff; [done|]. intros []. apply disc_eff; [done|]. intros l.
  apply disc_seq; [apply disc_wake_all|]. disc_run.
Qed.

Lemma disc_handle_work K w : disc (keeps None) K None (handle_work w).
Proof using Type. unfold handle_work, dispatch, dispatch_async. disc_run. Qed.

Lemma disc_reader_loop K : disc (keeps None) K None reader_loop.
Proof using Type.
  unfold reader_loop, loop. apply disc_seq.
  - apply disc_loop; [|disc_run]. intros d. unfold reader_body. apply disc_eff; [done|].
    intros []; [by apply disc_ret|]. apply disc_eff; [done|]. intros [[|b bs]|e]; try by apply disc_ret.
    destruct (decoder_feed d _) as [d' works]. apply disc_seq; [apply disc_for, disc_handle_work|].
    disc_run.
  - intros []. apply disc_eff; [done|]. intros l. apply disc_seq; [apply disc_wake_all|]. disc_run.
Qed.

Lemma disc_run_call K c : disc (keeps None) K None (run_call c).
Proof using Type.
  destruct c; apply disc_seq; try (intros; by apply disc_ret).
  - apply disc_send_command.
  - apply disc_recv_rx.
  - apply disc_next_rx.
  - apply disc_drain.
  - apply disc_close.
Qed.
End discipline.

(** ** Preservation *)

Section preservation.
Context `{Wire}.

Definition exists_chan (s : Sess) (w : nat) : Prop := is_Some (chans s !! w).

(** The mutexes an effect of task [i] takes or gives back. *)
Definition locks_after (i : nat) {X} (e : sessE X) (lk : lock_id → option nat) : lock_id → option nat :=
  match e with
  | LockMutex l => <[l := Some i]> lk
  | UnlockMutex l => <[l := None]> lk
  | _ => lk
  end.

Lemma exists_static (s s' : Sess) w :
  static <$> chans s' !! w = static <$> chans s !! w → exists_chan s w → exists_chan s' w.
Proof using Type.
  intros Hs [c Hc]. unfold exists_chan in *. rewrite Hc in Hs. by destruct (chans s' !! w).
Qed.

Lemma do_frame {X} i c (e : sessE X) s x s' :
  sess_do X i c e s = Some (x, s') →
  (∀ w, exists_chan s w → exists_chan s' w) ∧ locks s' = locks_after i e (locks s) ∧
  match e with LockMutex l => locks s l = None | _ => True end.
Proof using Type.
  destruct e; simpl; intros Hd; repeat case_match; simplify_eq/=; split_and!; try done;
    intros w0; try (by apply exists_static, static_alter); try (by apply exists_static, static_insert);
    try (by apply exists_static, static_take).
  intros Hw. unfold exists_chan. simpl. destruct (decide (next_chan s = w0)) as [->|Hne];
    [by rewrite lookup_insert_eq|by rewrite lookup_insert_ne].
Qed.

(** A new channel exists. *)
Lemma new_exists i c tag cmd s w s' :
  sess_do _ i c (NewOneshot tag cmd) s = Some (w, s') → exists_chan s' w.
Proof using Type. intros [= <- <-]. unfold exists_chan. simpl. by rewrite lookup_insert_eq. Qed.

(** What a task's program and the state say of each other. *)
Definition keeper {A} (s : Sess) (i : nat) (p : prog sessE A) : Prop :=
  ∃ K h, disc (λ h' _, h' = None) K h p ∧ (∀ w, w ∈ K → exists_chan s w) ∧
         ∀ l, locks s l = Some i ↔ h = Some l.

Lemma keeper_step {A} i c (p p' : prog sessE A) s s' :
  keeper s i p → step_prog i c p s = Some (p', s') →
  keeper s' i p' ∧ (∀ w, exists_chan s w → exists_chan s' w) ∧
  ∀ j l, i ≠ j → locks s' l = Some j ↔ locks s l = Some j.
Proof using Type.
  intros (K & h & Hd & HK & Hl) Hst.
  destruct Hd as [a HQ|l k -> Hd|l k -> Hd|tag cmd k -> Hd|w t k -> Hw Hd|X e k Hal Hd|S B body l k Hb Hk];
    cbn [step_prog] in Hst; [done|..].
  6:{ injection Hst as <- <-. split; [|done]. exists K, h. split_and!; [|done|done].
      apply disc_seq; [apply Hb|]. intros [l'|b]; [by apply disc_loop|apply Hk]. }
  all: match type of Hst with context [do_eff ?i ?c ?e ?s] =>
         destruct (do_eff i c e s) as [[x s1]|] eqn:Hdo; [|done]; injection Hst as <- <-;
         destruct (do_frame i c e s x s1 Hdo) as (Hch & Hlk & Hnone) end;
    rewrite Hlk; cbn [locks_after].
  - assert (∀ j l', (<[l:=Some i]> (locks s) : lock_id → option nat) l' = Some j ↔
              (if decide (l = l') then i = j else locks s l' = Some j)) as Hins.
    { intros j l'. destruct (decide (l = l')) as [<-|Hne];
        [rewrite fn_lookup_insert; split; congruence|by rewrite fn_lookup_insert_ne]. }
    split_and!; [|done|].
    + destruct x. exists K, (Some l). split_and!; [done|auto|]. intros l'. rewrite Hlk. cbn [locks_after].
      rewrite Hins. destruct (decide (l = l')) as [->|Hne]; [done|]. rewrite Hl. split; congruence.
    + intros j l' Hij. rewrite Hins. destruct (decide (l = l')) as [<-|]; [|done].
      rewrite Hnone. split; congruence.
  - assert (locks s l = Some i) as Hown by by apply Hl.
    assert (∀ j l', (<[l:=None]> (locks s) : lock_id → option nat) l' = Some j ↔
              l ≠ l' ∧ locks s l' = Some j) as Hins.
    { intros j l'. destruct (decide (l = l')) as [<-|Hne];
        [rewrite fn_lookup_insert; split; [done|tauto]|rewrite fn_lookup_insert_ne by done; tauto]. }
    split_and!; [|done|].
    + destruct x. exists K, None. split_and!; [done|auto|]. intros l'. rewrite Hlk. cbn [locks_after].
      rewrite Hins, Hl. split; [intros [? ?]; congruence|done].
    + intros j l' Hij. rewrite Hins. split; [tauto|]. intros Hj. split; [|done]. intros <-. congruence.
  - split_and!; [|done|done]. exists (x :: K), None. split_and!; [done| |by rewrite Hlk].
    intros w [->|Hw]%elem_of_cons; [exact (new_exists i c tag cmd s x s1 Hdo)|auto].
  - split_and!; [|done|done]. exists K, None. split_and!; [done|auto|by rewrite Hlk].
  - assert (locks_after i e (locks s) = locks s) as E by by destruct e.
    rewrite E in *. split_and!; [|done|done]. exists K, h. split_and!; [done|auto|by rewrite Hlk].
Qed.
End preservation.

(** ** Deadlock freedom *)

Section progress.
Context `{Wire}.

(** In a pool the tasks keep the discipline, and mutexes are held by tasks that are
    there. *)
Record orderly (cf : conf sessE Sess reply) : Prop := {
  ord_keeper i p : tasks cf !! i = Some p → keeper (shared cf) i p;
  ord_owner l i : locks (shared cf) l = Some i → is_Some (tasks cf !! i);
}.

Lemma keeper_others {A} (s s' : Sess) j (p : prog sessE A) :
  (∀ w, exists_chan s w → exists_chan s' w) → (∀ l, locks s' l = Some j ↔ locks s l = Some j) →
  keeper s j p → keeper s' j p.
Proof using Type.
  intros Hch Hlk (K & h & Hd & HK & Hl). exists K, h. split_and!; [done|auto|].
  intros l. by rewrite Hlk.
Qed.

Lemma orderly_step cf l cf' : orderly cf → step l cf = Some cf' → orderly cf'.
Proof using Type.
  intros [Hk Ho] Hst. destruct l as [i c|i]; simpl in Hst;
    destruct (tasks cf !! i) as [p|] eqn:Hp; try done; simpl in Hst.
  - destruct (step_prog i c p (shared cf)) as [[p' s']|] eqn:Hs; [|done]. injection Hst as <-.
    destruct (keeper_step _ _ _ _ _ _ (Hk i p Hp) Hs) as (Hki & Hch & Hlk). split; simpl.
    + intros j q. destruct (decide (i = j)) as [<-|Hij]; [rewrite lookup_insert_eq; by intros [= <-]|].
      rewrite lookup_insert_ne by done. intros Hq. eapply keeper_others; [done| |by apply Hk].
      intros l. by apply Hlk.
    + intros l j Hl. destruct (decide (i = j)) as [<-|Hij]; [by rewrite lookup_insert_eq|].
      rewrite lookup_insert_ne by done. apply (Ho l). by apply Hlk.
  - assert (cf' = Conf (delete i (tasks cf)) (on_drop i (shared cf))) as -> by (by destruct p; simplify_eq).
    assert (∀ l j, locks (on_drop i (shared cf)) l = Some j ↔ i ≠ j ∧ locks (shared cf) l = Some j) as Hlk.
    { intros l j. simpl. case_decide; [split; [done|intros [??]; congruence]|]. split; [|tauto].
      intros Hj. split; [intros <-|]; done. }
    split; cbn [tasks shared].
    + intros j q [Hij Hq]%lookup_delete_Some. eapply keeper_others; [| |by apply Hk].
      * intros w. apply exists_static. simpl. rewrite lookup_fmap. by destruct (chans (shared cf) !! w).
      * intros l. rewrite Hlk. tauto.
    + intros l j [Hij Hj]%Hlk. rewrite lookup_delete_ne by done. by apply (Ho l).
Qed.

Lemma orderly_reachable calls cf : reachable (session_pool calls) cf → orderly cf.
Proof using Type.
  induction 1 as [|cf l cf' _ IH Hst]; [|by eapply orderly_step].
  split; [|done]. intros i p Hp. apply lookup_map_seq_Some in Hp as [_ Hp].
  exists [], None. split_and!; [|by intros w Hw%elem_of_nil|done].
  rewrite Nat.sub_0_r in Hp. apply lookup_cons_Some in Hp as [[_ <-]|[_ Hp]].
  - apply disc_seq; [apply disc_reader_loop|]. intros. by apply disc_ret.
  - rewrite list_lookup_fmap in Hp. destruct (calls !! _); [|done]. injection Hp as <-.
    apply disc_run_call.
Qed.

(** *** Progress *)

Definition can_step (cf : conf sessE Sess reply) (i : nat) : Prop :=
  ∃ c, is_Some (step (Run i c) cf).

(** What a task waits for: a mutex, or a packet without a timeout ([next_rx]). *)
Definition awaits_lock {A} (p : prog sessE A) : option lock_id :=
  match p with Vis e _ => match e with LockMutex l => Some l | _ => None end | _ => None end.
Definition awaits_packet {A} (p : prog sessE A) : bool :=
  match p with Vis e _ => match e with RxRecv None => true | _ => false end | _ => false end.

Definition waits_for_packet (cf : conf sessE Sess reply) (i : nat) : Prop :=
  rx_queue (shared cf) = [] ∧ senders_alive (shared cf) = true ∧
  ∃ p, tasks cf !! i = Some p ∧ awaits_packet p = true.

(** An effect other than taking a mutex can happen, or is the wait for a packet. *)
Lemma enabled {A X} i (e : sessE X) h s (k : X → prog sessE A) :
  allowed h e → (∃ c x s', sess_do X i c e s = Some (x, s')) ∨
  awaits_packet (Vis e k) = true ∧ rx_queue s = [] ∧ senders_alive s = true.
Proof using Type.
  destruct e as [| | | | |tag| | | | | | | | | | | | |timeout| | | |]; simpl; try done; intros Hal;
    try (by left; exists CDefault; do 2 eexists); try (by left; exists (CRead []); do 2 eexists).
  - left. exists CDefault. destruct (pending s !! tag); eauto.
  - left. exists CDefault. unfold valid_order. rewrite bool_decide_eq_true_2; [eauto|].
    split; [apply list_to_map_to_list|apply NoDup_fst_map_to_list].
  - destruct (rx_queue s) as [|rx q]; [|left; exists CDefault; eauto].
    destruct (senders_alive s); [|left; exists CDefault; eauto].
    destruct timeout; [left; exists CElapsed; eauto|by right].
  - left. exists CDefault. destruct (err_queue s); eauto.
Qed.

(** A task that keeps the discipline has returned, can go on, or waits for a mutex or
    for a packet. *)
Lemma keeper_progress cf i p :
  tasks cf !! i = Some p → keeper (shared cf) i p →
  (∃ r, p = Ret r) ∨ can_step cf i ∨
  (awaits_packet p = true ∧ waits_for_packet cf i ∧ locks (shared cf) RxLock = Some i) ∨
  ∃ l j, awaits_lock p = Some l ∧ locks (shared cf) l = Some j ∧ j ≠ i.
Proof using Type.
  intros Hp (K & h & Hd & HK & Hl).
  assert (∀ c p' s', step_prog i c p (shared cf) = Some (p', s') → can_step cf i) as Hcan.
  { intros c p' s' Hs. exists c. simpl. rewrite Hp. simpl. by rewrite Hs. }
  destruct Hd as [a HQ|l k -> Hd|l k -> Hd|tag cmd k -> Hd|w t k -> Hw Hd|X e k Hal Hd|S B body l k Hb Hk].
  - left. eauto.
  - destruct (locks (shared cf) l) as [j|] eqn:Hj.
    + do 3 right. exists l, j. split_and!; [done|done|]. intros ->. by apply Hl in Hj.
    + right. left. eapply (Hcan CDefault). simpl. by rewrite Hj.
  - right. left. by eapply (Hcan CDefault).
  - right. left. by eapply (Hcan CDefault).
  - right. left. destruct (HK w Hw) as [ch Hch].
    destruct (ch_value ch) as [v|] eqn:Hv; [|destruct (ch_sender ch) eqn:Hs];
      (eapply (Hcan CElapsed); simpl; by rewrite Hch, Hv, ?Hs).
  - destruct (enabled i e h (shared cf) k Hal) as [(c & x & s' & Hdo)|(Hap & Hq & Hs)].
    + right. left. eapply (Hcan c). simpl. by rewrite Hdo.
    + do 2 right. left. split_and!; [done| |].
      * split_and!; [done|done|]. by eexists.
      * apply Hl. by destruct e as [| | | | | | | | | | | | | | | | | |[]| | | |].
  - right. left. by eapply (Hcan CDefault).
Qed.

(** C14: No deadlock: in every interleaving with any cancellations, a call of the session
    (or its reader) that has not returned can go on, or waits for a packet without a
    timeout, or waits for a mutex whose holder is another running task that can itself
    go on or, for the receiver's mutex only, waits for a packet. *)
Theorem session_progress calls cf i p :
  reachable (session_pool calls) cf → tasks cf !! i = Some p →
  (∃ r, p = Ret r) ∨ can_step cf i ∨ waits_for_packet cf i ∨
  ∃ l j q, awaits_lock p = Some l ∧ locks (shared cf) l = Some j ∧ j ≠ i ∧
    tasks cf !! j = Some q ∧ (can_step cf j ∨ l = RxLock ∧ waits_for_packet cf j).
Proof using Type.
  intros [Hk Ho]%orderly_reachable Hp.
  destruct (keeper_progress cf i p Hp (Hk i p Hp)) as [?|[?|[(_ & ? & _)|(l & j & Hl & Hj & Hij)]]]; auto.
  do 3 right. destruct (Ho l j Hj) as [q Hq]. exists l, j, q. split_and!; [done..|].
  destruct (Hk j q Hq) as (K & h & Hd & HK & Hlk). pose proof (proj1 (Hlk l) Hj) as ->.
  destruct (keeper_progress cf j q Hq (Hk j q Hq)) as [[r ->]|[?|[(_ & ? & Hrx)|(l' & j' & Hal & _)]]].
  - inversion Hd. congruence.
  - by left.
  - right. split; [|done]. apply Hlk in Hrx. congruence.
  - exfalso. destruct Hd as [| | | | |X e k Hal'|]; try done. by destruct e.
Qed.
End progress.

(** Two commands, the first in the middle of its write. *)
Lemma session_progress_witness :
  let cf := after (runs 1 6 ++ runs 2 5) (session_pool two_calls) in
  ∃ p, tasks cf !! 2%nat = Some p ∧
    ((∃ r, p = Ret r) ∨ can_step cf 2 ∨ waits_for_packet cf 2 ∨
     ∃ l j q, awaits_lock p = Some l ∧ locks (shared cf) l = Some j ∧ j ≠ 2%nat ∧
       tasks cf !! j = Some q ∧ (can_step cf j ∨ l = RxLock ∧ waits_for_packet cf j)).
Proof.
  eexists. split; [vm_compute; reflexivity|].
  apply (session_progress two_calls); [apply after_reachable|vm_compute; reflexivity].
Defined.

(** ** What a timeout does not cover

    The timeout of a command starts when its frame has been written. *)

Section stall.
Context `{Wire}.

(** While the task that holds the writer's mutex makes no progress (its transport does
    not accept bytes), a command that waits for the mutex stays where it is, whatever
    else happens and however much time passes. *)
Theorem stalled_write_blocks calls cf ls cf' i j k :
  reachable (session_pool calls) cf →
  tasks cf !! i = Some (Vis (LockMutex WriterLock) k) → locks (shared cf) WriterLock = Some j →
  run_labels ls cf = Some cf' → Forall (λ l, ¬ moves j (Some l) ∧ l ≠ Cancel i) ls →
  tasks cf' !! i = Some (Vis (LockMutex WriterLock) k).
Proof using Type.
  intros Ho%orderly_reachable Hi Hj Hrun Hls. revert cf Ho Hi Hj Hrun.
  induction Hls as [|l ls [Hm Hc] _ IH]; intros cf Ho Hi Hj; simpl; [by intros [= <-]|].
  destruct (step l cf) as [c1|] eqn:Hst; [|done]. simpl. apply IH; [by eapply orderly_step|..];
    destruct Ho as [Hk _], l as [i' c|i']; simpl in Hst, Hm;
    destruct (tasks cf !! i') as [p|] eqn:Hp; try done; simpl in Hst.
  - destruct (step_prog i' c p (shared cf)) as [[p' s']|] eqn:Hs; [|done]. injection Hst as <-. simpl.
    destruct (decide (i = i')) as [<-|]; [|by rewrite lookup_insert_ne].
    rewrite Hi in Hp. injection Hp as <-. simpl in Hs. by rewrite Hj in Hs.
  - assert (c1 = Conf (delete i' (tasks cf)) (on_drop i' (shared cf))) as -> by (by destruct p; simplify_eq).
    simpl. rewrite lookup_delete_ne; [done|]. by intros ->.
  - destruct (step_prog i' c p (shared cf)) as [[p' s']|] eqn:Hs; [|done]. injection Hst as <-. simpl.
    destruct (keeper_step _ _ _ _ _ _ (Hk i' p Hp) Hs) as (_ & _ & Hlk). by apply Hlk.
  - assert (c1 = Conf (delete i' (tasks cf)) (on_drop i' (shared cf))) as -> by (by destruct p; simplify_eq).
    simpl. rewrite decide_False; [done|]. rewrite Hj. congruence.
Qed.
End stall.
