(* ===== verification/SessionLocks.v ===== *)
(** * The session's functions and the mutexes

    The discipline of [Locks.v] for the functions of [Session.v], inside any larger
    semantics that has the session's effects among its own: the writer's mutex comes
    last, so that a caller may hold another one across a command. *)

From stdpp Require Import functions.
From S2P Require Import Prelude Runtime Locks Errors Protocol Session SessionInv SessionSpec SessionPool SessionWire SessionLive.
Local Open Scope Z_scope.

(** The mutexes that are ranked: a caller's own, held across the await of a command (the
    dongle's [rx_started]), and the session's writer. *)
Inductive client_lock := RxGuard | Writer.
#[export] Instance client_lock_eq_dec : EqDecision client_lock.
Proof. solve_decision. Defined.

Section kinds.
Context `{Wire}.

Definition sess_kind {X} (e : sessE X) : lock_kind client_lock X :=
  match e in sessE X return lock_kind client_lock X with
  | LockMutex WriterLock => Takes Writer
  | LockMutex _ | RxRecv None | TransportRead => Blocks true
  | UnlockMutex WriterLock => Gives Writer
  | NewOneshot _ _ => Makes id
  | AwaitResponse w _ => Needs w
  | _ => Plain
  end.

Lemma sess_kind_owner {X} i c (e : sessE X) s x s' :
  sess_do X i c e s = Some (x, s') →
  locks s' WriterLock = owner_after i (sess_kind e) (λ _, locks s WriterLock) Writer ∧
  match sess_kind e with
  | Takes l | Touches l => l = Writer ∧ locks s WriterLock = None
  | Gives l => l = Writer
  | _ => True
  end.
Proof using Type.
  intros Hd. destruct (do_frame i c e s x s' Hd) as (_ & -> & Hf).
  destruct e as [| | | | | | | | | | |[]|[]| | | | | |[]| | | |]; simpl; try done;
    rewrite ?decide_True by done; split; try done;
    first [by rewrite fn_lookup_insert|by rewrite fn_lookup_insert_ne].
Qed.

Lemma sess_enabled {X} i (e : sessE X) s :
  match sess_kind e with
  | Takes _ | Touches _ => locks s WriterLock = None
  | Needs w => exists_chan s w
  | Blocks _ => False
  | _ => True
  end → ∃ c, is_Some (sess_do X i c e s).
Proof using Type.
  destruct e as [| | | | |tag| | |w r|w t|w|[]|[]|bs| | | | |[t|]| | | |]; simpl; try done; intros Hf;
    try (by exists CDefault; eexists); try (by exists CDefault; rewrite Hf; eexists).
  - exists CDefault. destruct (pending s !! tag); by eexists.
  - exists CDefault. unfold valid_order. rewrite bool_decide_eq_true_2; [by eexists|].
    split; [apply list_to_map_to_list|apply NoDup_fst_map_to_list].
  - exists CElapsed. destruct Hf as [ch ->]. destruct (ch_value ch); [by eexists|].
    destruct (ch_sender ch); by eexists.
  - exists CElapsed. destruct (rx_queue s); [|by eexists]. destruct (senders_alive s); by eexists.
  - exists CDefault. destruct (err_queue s); by eexists.
Qed.

(** A channel that is known stays. *)
Lemma sess_known {X} i c (e : sessE X) s x s' w :
  sess_do X i c e s = Some (x, s') → w ∈ known_after (sess_kind e) x [] ∨ exists_chan s w →
  exists_chan s' w.
Proof using Type.
  intros Hd Hw. destruct (do_frame _ _ _ _ _ _ Hd) as (Hmono & _). destruct Hw as [Hw|?]; [|auto].
  destruct e as [| | | | | | | | | | |[]|[]| | | | | |[]| | | |]; simpl in Hw; try by apply elem_of_nil in Hw.
  apply list_elem_of_singleton in Hw as ->. by eapply new_exists.
Qed.

Lemma sess_kind_guard {X} (e : sessE X) :
  match sess_kind e with Takes l | Gives l | Touches l => l = Writer | _ => True end.
Proof using Type. by destruct e as [| | | | | | | | | | |[]|[]| | | | | |[]| | | |]. Qed.
End kinds.

(** What may be held while the writer's mutex is taken. *)
Definition low (h : list client_lock) : Prop := Writer ∉ h.

Lemma low_nil : low [].
Proof using Type. apply not_elem_of_nil. Qed.
Lemma low_guard : low [RxGuard].
Proof using Type. unfold low. set_solver. Qed.

(** ** The functions keep the discipline *)

(** The session's effects are among those of [F], and so are its mutexes. *)
Class SessInside `{Wire} {F : Type → Type} {St : Type} `{LockSem F St client_lock}
    (into : ∀ X, sessE X → F X) : Prop := {
  inside_kind X (e : sessE X) : kind (into X e) = sess_kind e;
  inside_rank : (rank RxGuard < rank Writer)%nat;
}.

Section embedded.
Context `{Wire} {F : Type → Type} {St : Type} `{LockSem F St client_lock}.
Context (into : ∀ X, sessE X → F X) {inside : SessInside into}.

Abbreviation keeps h := (λ h' _, h' = (h : list client_lock)).

Lemma tame_eff {A X} b (R : list client_lock → A → Prop) K h (e : sessE X) k :
  may b K h (sess_kind e) →
  (∀ x, tame b R (known_after (sess_kind e) x K) (held_after (sess_kind e) h) (translate into (k x))) →
  tame b R K h (translate into (Vis e k)).
Proof using inside. intros Hm Hk. apply tame_vis; rewrite inside_kind; [exact Hm|exact Hk]. Qed.

Lemma tame_put_bind {A B} b (R : list client_lock → B → Prop) K h (p : prog sessE A) f :
  tame b (keeps h) K h (translate into p) → (∀ a, tame b R K h (translate into (f a))) → tame b R K h (translate into (p ≫= f)).
Proof using Type.
  intros Hp Hf. eapply tame_peq; [|symmetry; apply translate_bind]. by apply tame_seq.
Qed.

(** Effects one by one. *)
Ltac tame_steps :=
  repeat first
    [progress intros|by apply tame_ret|apply tame_eff; [first [done|set_solver]|]
    |progress cbn [trigger mbind prog_mbind prog_bind sess_kind
                   known_after held_after tail]
    |case_match].

Lemma may_take b K h : low h → may b K h (Takes Writer : lock_kind client_lock unit).
Proof using inside. intros Hh [] Hl; [exact inside_rank|done]. Qed.

Lemma tame_write_all b K h bs : tame b (keeps h) K h (translate into (write_all WriteSome bs)).
Proof using inside.
  apply (write_all_ind WriteSome (λ p, tame b (keeps h) K h (translate into p))); intros;
    [by apply tame_ret|by apply tame_eff].
Qed.

Lemma tame_write_frame b K h ty tag pl : low h → tame b (keeps h) K h (translate into (write_frame ty tag pl)).
Proof using inside.
  intros Hh. unfold write_frame. destruct (encode_frame _ _ _); [|by apply tame_ret].
  cbn [trigger mbind prog_mbind prog_bind]. apply tame_eff; [by apply may_take|].
  intros []. apply tame_put_bind; [apply tame_write_all|]. tame_steps.
Qed.

Lemma tame_remove_pending b K h tag : tame b (keeps h) K h (translate into (remove_pending tag)).
Proof using inside. unfold remove_pending. tame_steps. Qed.

Lemma tame_send_command b K h ty pl t : low h → tame b (keeps h) K h (translate into (send_command ty pl t)).
Proof using inside.
  intros Hh. unfold send_command. cbn [trigger mbind prog_mbind prog_bind].
  apply tame_eff; [done|]. intros []; [by apply tame_ret|].
  apply tame_eff; [done|]. intros tag. apply tame_eff; [done|]. intros w.
  apply tame_eff; [done|]. intros []. apply tame_put_bind; [by apply tame_write_frame|].
  intros [[]|e]; [|apply tame_put_bind; [apply tame_remove_pending|]; tame_steps].
  cbn [trigger mbind prog_mbind prog_bind].
  apply tame_eff; [simpl; set_solver|]. intros [resp| |]; [by apply tame_ret|..];
    (apply tame_put_bind; [apply tame_remove_pending|]; tame_steps).
Qed.

Lemma tame_put_for {X} b K h (l : list X) f :
  (∀ x, tame b (keeps h) K h (translate into (f x))) → tame b (keeps h) K h (translate into (prog_for l f)).
Proof using inside.
  intros Hf. induction l as [|x l IH]; [by apply tame_ret|]. simpl. by apply tame_put_bind.
Qed.

Lemma tame_wake_all b K h msg l : tame b (keeps h) K h (translate into (wake_all msg l)).
Proof using inside. apply tame_put_for. intros. tame_steps. Qed.

Lemma tame_close b K h : tame b (keeps h) K h (translate into Session.close).
Proof using inside.
  unfold Session.close. cbn [trigger mbind prog_mbind prog_bind].
  apply tame_eff; [done|]. intros []. apply tame_eff; [done|]. intros l.
  apply tame_put_bind; [apply tame_wake_all|]. tame_steps.
Qed.

(** Those that may wait: not prompt, and nothing may be held. *)
Lemma tame_next_rx K : tame false (keeps []) K [] (translate into Session.next_rx).
Proof using inside. unfold Session.next_rx. tame_steps. Qed.
Lemma tame_recv_rx K t : tame false (keeps []) K [] (translate into (recv_rx t)).
Proof using inside. unfold recv_rx. tame_steps. Qed.

Lemma tame_drain K : tame false (keeps []) K [] (translate into Session.drain_async_errors).
Proof using inside.
  unfold Session.drain_async_errors, loop. cbn [trigger mbind prog_mbind prog_bind].
  apply tame_eff; [done|]. intros []. apply tame_loop; [done|done|tame_steps..].
  apply (tame_eff _ _ _ _ (UnlockMutex ErrLock) (λ _, Ret _)); [done|]. intros. by apply tame_ret.
Qed.

Lemma tame_handle_work K w : tame false (keeps []) K [] (translate into (handle_work w)).
Proof using inside. unfold handle_work, dispatch, dispatch_async. tame_steps. Qed.

Lemma tame_reader_loop K : tame false (keeps []) K [] (translate into reader_loop).
Proof using inside.
  unfold reader_loop. apply tame_put_bind.
  - unfold loop. cbn [translate]. apply tame_loop; [done|done| |tame_steps]. intros d.
    unfold reader_body. cbn [trigger mbind prog_mbind prog_bind].
    apply tame_eff; [done|]. intros []; [by apply tame_ret|].
    apply tame_eff; [done|]. intros [[|x bs]|e]; try by apply tame_ret.
    destruct (decoder_feed d _) as [d' works]. apply tame_put_bind; [|by intros; apply tame_ret].
    apply tame_put_for, tame_handle_work.
  - intros []. cbn [trigger mbind prog_mbind prog_bind]. apply tame_eff; [done|]. intros l.
    apply tame_put_bind; [apply tame_wake_all|]. tame_steps.
Qed.
End embedded.
