(* ===== verification/SessionSeq.v ===== *)
(** * What each function of the session does by itself

    Runs of a single task against the session's state ([eval]), for every outcome
    of the I/O ([oracle]): the code refines one-step specifications on the state,
    and its loops terminate. *)

From stdpp Require Import functions.
From S2P Require Import Prelude Runtime Errors Protocol Session SessionInv SessionSpec SessionPool.
Local Open Scope Z_scope.

Section handlers.
Context `{Wire}.

(** The effects whose outcome the environment decides. *)
Definition is_io {X} (e : sessE X) : bool :=
  match e with
  | WriteSome _ | Flush | TransportRead | AwaitResponse _ _ | RxRecv _ => true
  | _ => false
  end.

(** Task [i] runs alone; each I/O effect takes its outcome from a list. *)
Definition oracle (i : nat) (X : Type) (e : sessE X) (cs : list sess_choice * Sess) :
    option (X * (list sess_choice * Sess)) :=
  if is_io e then
    '(x, s) ← sess_do X i (hd CDefault cs.1) e cs.2; Some (x, (tl cs.1, s))
  else
    '(x, s) ← sess_do X i CDefault e cs.2; Some (x, (cs.1, s)).
End handlers.

(** ** Tags *)

Section tags.

(** The tag after [n] allocations from [t]. *)
Fixpoint tag_after (n : nat) (t : Z) : Z :=
  match n with O => t | S n => tag_after n (alloc_tag t).2 end.

Lemma alloc_tag_next t : 1 ≤ t < 2 ^ 16 → (alloc_tag t).2 = t mod 65535 + 1.
Proof using Type.
  intros Ht. change (2 ^ 16) with 65536 in Ht. unfold alloc_tag, wrapping_add.
  change (2 ^ 16) with 65536. simpl.
  destruct (decide (t = 65535)) as [->|Hne]; [done|].
  rewrite !Z.mod_small by lia. destruct (Z.eqb_spec (t + 1) 0); lia.
Qed.

Lemma tag_after_closed n t :
  1 ≤ t < 2 ^ 16 → tag_after n t = (t - 1 + Z.of_nat n) mod 65535 + 1.
Proof using Type.
  change (2 ^ 16) with 65536. revert t. induction n as [|n IH]; intros t Ht; cbn [tag_after].
  - rewrite Z.mod_small; lia.
  - rewrite alloc_tag_next by (change (2 ^ 16) with 65536; lia).
    pose proof (Z.mod_pos_bound t 65535). rewrite IH by lia.
    replace (t mod 65535 + 1 - 1 + Z.of_nat n) with (t mod 65535 + Z.of_nat n) by lia.
    rewrite Zplus_mod_idemp_l. f_equal. f_equal. lia.
Qed.

(** Tags: every allocated tag is a non-zero 16-bit number, any 65535 consecutive
    allocations are pairwise distinct (the window in which a response could be
    delivered to another command is never shorter), and then they repeat. *)
Theorem tags_distinct_in_window t i j :
  1 ≤ t < 2 ^ 16 → (i < j)%nat →
  1 ≤ tag_after i t < 2 ^ 16 ∧
  (tag_after i t = tag_after j t ↔ (65535 | Z.of_nat (j - i))).
Proof using Type.
  intros Ht Hij. rewrite !tag_after_closed by done. change (2 ^ 16) with 65536 in *.
  pose proof (Z.mod_pos_bound (t - 1 + Z.of_nat i) 65535).
  split; [lia|]. rewrite Nat2Z.inj_sub by lia. split.
  - intros E. apply Z.mod_divide; [done|].
    replace (Z.of_nat j - Z.of_nat i) with ((t - 1 + Z.of_nat j) - (t - 1 + Z.of_nat i)) by lia.
    rewrite Zminus_mod. replace ((t - 1 + Z.of_nat j) mod 65535)
      with ((t - 1 + Z.of_nat i) mod 65535) by lia. by rewrite Z.sub_diag.
  - intros [k Hk]. replace (t - 1 + Z.of_nat j) with (t - 1 + Z.of_nat i + k * 65535) by lia.
    by rewrite Z_mod_plus_full.
Qed.

Lemma tags_distinct_in_window_witness :
  1 ≤ tag_after 0 65535 < 2 ^ 16 ∧
  (tag_after 0 65535 = tag_after 1 65535 ↔ (65535 | Z.of_nat (1 - 0))).
Proof. apply tags_distinct_in_window; lia. Defined.
End tags.

(** ** Inbound frames *)

Section frames.
Context `{Wire}.

(** What one inbound frame does to the session. *)
Definition frame_spec (ty tag : Z) (pl : list byte) (s : Sess) : Sess :=
  if tag =? 0 then
    if ty =? TYPE_RX then
      match RxPayload_decode pl with
      | Ok rx => with_queues (rx_queue s ++ [rx]) (err_queue s) (senders_alive s) s
      | Err _ => with_queues (rx_queue s) (err_queue s ++ [BadFrame "bad RX payload"])
                   (senders_alive s) s
      end
    else if ty =? TYPE_ERR then
      let e := match decode_err_payload pl with
               | Ok code => from_wire code
               | Err _ => BadFrame "bad async ERR payload"
               end in
      with_queues (rx_queue s) (err_queue s ++ [e]) (senders_alive s) s
    else s
  else
    match pending s !! tag with
    | None => s
    | Some p =>
        if (cmd_type p =? TYPE_TX) && (ty =? TYPE_OK) then s
        else with_map (delete tag (pending s))
               (alter (chan_send (response_for (cmd_type p) ty pl)) (waker p) (chans s)) s
    end.

Lemma set_sender_send r w l (cs : gmap nat Chan) :
  alter (chan_send r) w (set_sender w l cs) = alter (chan_send r) w cs.
Proof using Type.
  apply map_eq. intros w'. unfold set_sender. rewrite !lookup_alter.
  destruct (decide (w = w')); [|done].
  rewrite decide_True by done. by destruct (cs !! w).
Qed.

(** Putting an entry back right after taking it out changes nothing. *)
Lemma reinsert_id i tag p s :
  sess_inv s → pending s !! tag = Some p →
  map_insert tag p (with_map (delete tag (pending s))
                     (set_sender (waker p) (HeldBy i) (chans s)) s) = s.
Proof using Type.
  intros HI Hp. destruct (inv_map s HI tag p Hp) as (c & Hc & _ & _ & Hm).
  unfold map_insert. simpl. rewrite lookup_delete_eq.
  rewrite insert_delete_eq, insert_id by done.
  replace (set_sender (waker p) InMap (set_sender (waker p) (HeldBy i) (chans s)))
    with (chans s); [by destruct s|].
  apply map_eq. intros w. rewrite !set_sender_lookup. case_decide; [subst|done].
  rewrite Hc. simpl. f_equal. destruct c. simpl in *. by subst.
Qed.

Lemma eval_dispatch i n cs ty tag pl s :
  sess_inv s →
  eval (oracle i) n (dispatch ty tag pl) (cs, s) = Done tt (cs, frame_spec ty tag pl s).
Proof using Type.
  intros HI. unfold dispatch, dispatch_async, frame_spec.
  destruct (tag =? 0); [by repeat case_match|].
  simpl. unfold oracle at 1. simpl. destruct (pending s !! tag) as [p|] eqn:Hp; [|done].
  simpl. destruct ((cmd_type p =? TYPE_TX) && (ty =? TYPE_OK)); simpl.
  - by rewrite reinsert_id.
  - by rewrite set_sender_send.
Qed.

(** C17: [dispatch] on every inbound frame: asynchronous frames go to the queues (a
    payload that does not decode becomes an error there), other tag-0 types and
    tags nobody waits for are ignored, the OK of a TX leaves the entry as it is,
    and any other tagged frame takes its entry out and answers exactly its waker. *)
Theorem dispatch_refines i n cs ty tag pl s :
  sess_inv s →
  eval (oracle i) n (dispatch ty tag pl) (cs, s) = Done tt (cs, frame_spec ty tag pl s).
Proof using Type. by apply eval_dispatch. Qed.

Definition work_spec (w : FrameResult) (s : Sess) : Sess :=
  match w with
  | FrameOk ty tag pl => frame_spec ty tag pl s
  | FrameErr => with_queues (rx_queue s)
      (err_queue s ++ [BadFrame "inbound frame failed CRC or COBS"]) (senders_alive s) s
  end.

Definition works_spec (ws : list FrameResult) (s : Sess) : Sess :=
  foldl (λ s w, work_spec w s) s ws.

(** What happens to the commands still in the map when the session ends: each gets
    the notice [msg], and the map is empty. *)
Definition notify_all (msg : string) (s : Sess) : Sess :=
  with_map ∅
    ((λ c, if decide (ch_sender c = InMap) then chan_send (RErr (TransportClosed msg)) c else c)
       <$> chans s) s.

Definition reader_exit (s : Sess) : Sess :=
  let s := notify_all "reader exited" s in with_queues (rx_queue s) (err_queue s) false s.

Lemma eval_handle_work i n cs w s :
  sess_inv s → eval (oracle i) n (handle_work w) (cs, s) = Done tt (cs, work_spec w s).
Proof using Type. intros HI. destruct w; [by apply eval_dispatch|done]. Qed.

Lemma inv_work w s :
  sess_inv s → w ∈ frames_received s → sess_inv (work_spec w s).
Proof using Type.
  assert (∀ rx er al, sess_inv s → sess_inv (with_queues rx er al s)) as Hq.
  { intros rx er al HI. by apply (inv_same s); try done; apply HI. }
  intros HI Hw. destruct w as [ty tag pl|]; [|by apply Hq]. simpl. unfold frame_spec.
  destruct (tag =? 0); [repeat case_match; auto|].
  destruct (pending s !! tag) as [p|] eqn:Hp; [|done].
  destruct ((cmd_type p =? TYPE_TX) && (ty =? TYPE_OK)) eqn:Htx; [done|].
  rewrite <- (set_sender_send _ _ (HeldBy 0)).
  destruct (inv_map s HI tag p Hp) as (c & Hc & Ht & Hcmd & _).
  pose proof (inv_alter _ (chan_send (response_for (cmd_type p) ty pl)) (waker p)
                (inv_remove 0 s tag p HI Hp)) as Halter.
  unfold with_map in *. simpl in Halter. apply Halter. clear Halter.
  intros c'. rewrite set_sender_lookup, decide_True, Hc by done. intros [= <-].
  assert (legit (closed s) (frames_received s) (ch_tag c) (ch_cmd c)
            (response_for (cmd_type p) ty pl)) as Hl.
  { rewrite Hcmd, Ht. apply legit_frame; [done|]. lia. }
  assert (ch_value c = None) as Hv.
  { destruct (inv_map s HI tag p Hp) as (c2 & ? & _ & _ & Hm). simplify_eq.
    eapply (inv_unsent s HI); [done|congruence]. }
  split; simpl; try done. rewrite Hv. intros r. destruct (ch_listening c); [|done].
  by intros [= <-].
Qed.

Lemma work_wire w s :
  wire_in (work_spec w s) = wire_in s ∧ closed (work_spec w s) = closed s ∧
  wire_out (work_spec w s) = wire_out s.
Proof using Type.
  destruct w as [ty tag pl|]; [|done]. simpl. unfold frame_spec. by repeat case_match.
Qed.

Lemma works_wire ws s :
  wire_in (works_spec ws s) = wire_in s ∧ closed (works_spec ws s) = closed s ∧
  wire_out (works_spec ws s) = wire_out s.
Proof using Type.
  revert s. induction ws as [|w ws IH]; intros s; [done|]. simpl.
  destruct (IH (work_spec w s)) as (-> & -> & ->). apply work_wire.
Qed.

Lemma eval_works i n cs ws s :
  sess_inv s → (∀ w, w ∈ ws → w ∈ frames_received s) →
  eval (oracle i) n (prog_for ws handle_work) (cs, s) = Done tt (cs, works_spec ws s) ∧
  sess_inv (works_spec ws s).
Proof using Type.
  revert s. induction ws as [|w ws IH]; intros s HI Hws; [done|].
  cbn [prog_for]. rewrite eval_bind, eval_handle_work by done. simpl.
  apply IH.
  - apply inv_work; [done|]. apply Hws. by left.
  - intros w' Hw'. unfold frames_received. rewrite (proj1 (work_wire w s)). apply Hws. by right.
Qed.

Lemma foldl_send_lookup r (l : list (Z * Pending)) (cs : gmap nat Chan) w :
  NoDup (wakers l) →
  foldl (λ cs tp, alter (chan_send r) (waker tp.2) cs) cs l !! w =
  if decide (w ∈ wakers l) then chan_send r <$> cs !! w else cs !! w.
Proof using Type.
  revert cs. induction l as [|[t p] l IH]; intros cs; [done|].
  intros [Hp Hnd]%wakers_nodup_cons. cbn [foldl]. rewrite IH by done. simpl.
  rewrite lookup_alter.
  destruct (decide (w ∈ wakers l)) as [Hw|Hw];
    destruct (decide (w ∈ waker p :: wakers l)) as [Hw'|Hw'];
    rewrite ?elem_of_cons in Hw'; case_decide; subst; try tauto; try done.
  destruct Hw' as [->|]; done.
Qed.

Lemma eval_wake_all i n cs msg l s :
  eval (oracle i) n (wake_all msg l) (cs, s) =
  Done tt (cs, with_map (pending s)
    (foldl (λ cs tp, alter (chan_send (RErr (TransportClosed msg))) (waker tp.2) cs)
       (chans s) l) s).
Proof using Type.
  revert s. induction l as [|tp l IH]; intros s; [by destruct s|].
  unfold wake_all. cbn [prog_for]. rewrite eval_bind. cbn [eval trigger oracle is_io].
  simpl. apply IH.
Qed.

(** Taking the map and answering its entries. *)
Lemma eval_notify i n cs msg s :
  sess_inv s →
  eval (oracle i) n (l ← trigger PendingTake; wake_all msg l) (cs, s) =
  Done tt (cs, notify_all msg s).
Proof using Type.
  intros HI. rewrite eval_bind, eval_trigger. unfold oracle at 1. simpl.
  assert (valid_order (map_to_list (pending s)) (pending s) = true) as Hv.
  { apply bool_decide_eq_true. split; [by rewrite list_to_map_to_list|].
    apply NoDup_fst_map_to_list. }
  rewrite Hv. simpl. rewrite eval_wake_all. f_equal. f_equal.
  unfold map_take, notify_all. simpl.
  set (l := map_to_list (pending s)).
  assert (∀ w c, chans s !! w = Some c → w ∈ wakers l ↔ ch_sender c = InMap) as Hw.
  { intros w c Hc. rewrite elem_of_wakers. unfold l. setoid_rewrite elem_of_map_to_list.
    split.
    - intros (t & p & Hp & ->). destruct (inv_map s HI t p Hp) as (c' & ? & _ & _ & ?). congruence.
    - intros Hm. eexists _, _. by split; [by apply (inv_in_map s HI)|]. }
  assert (NoDup (wakers l)) as Hnd.
  { apply NoDup_fmap_2_strong; [|apply NoDup_map_to_list].
    intros [t p] [t' p'] Hp%elem_of_map_to_list Hp'%elem_of_map_to_list E. simpl in *.
    destruct (inv_map s HI t p Hp) as (c & Hc & ? & Hcmd & _).
    destruct (inv_map s HI t' p' Hp') as (c' & Hc' & ? & Hcmd' & _).
    rewrite E in Hc. by simplify_eq. }
  unfold with_map. simpl. f_equal. apply map_eq. intros w.
  rewrite foldl_send_lookup, take_lookup, lookup_fmap by done.
  destruct (chans s !! w) as [c|] eqn:Hc.
  - destruct (decide (w ∈ wakers l)) as [Hin|Hin]; simpl;
      rewrite (Hw w c Hc) in Hin; by rewrite ?decide_True, ?decide_False by done.
  - by destruct (decide (w ∈ wakers l)).
Qed.

Lemma eval_notify_then {A} i n cs msg s (k : prog sessE A) :
  sess_inv s →
  eval (oracle i) n (l ← trigger PendingTake; (wake_all msg l ;; k)) (cs, s) =
  eval (oracle i) n k (cs, notify_all msg s).
Proof using Type.
  intros HI. pose proof (eval_notify i n cs msg s HI) as Hn. rewrite eval_bind in *.
  destruct (eval _ _ (trigger PendingTake) _) as [l s'|m s'|s'|s']; try done. simpl in *.
  by rewrite eval_bind, Hn.
Qed.

(** C23: [close] from any state: the session is marked closed, every outstanding
    command whose caller still listens is answered with "session closed" and no
    other channel is touched, the map is empty, and the reader task, if its handle
    was still there, is aborted. *)
Theorem close_refines i n cs s :
  sess_inv s →
  eval (oracle i) n close (cs, s) =
  Done tt (cs, with_flags true false (reader_handle s || reader_aborted s)
                 (notify_all "session closed" s)).
Proof using Type.
  intros HI.
  assert (sess_inv (with_flags true (reader_handle s) (reader_aborted s) s)) as HI'
    by (apply (inv_same s); try done; apply HI).
  etrans; [apply (eval_notify_then i n cs "session closed" _ _ HI')|].
  simpl. by destruct (reader_handle s).
Qed.

(** What one read of the reader does. *)
Definition readable (bs : list byte) : Prop := bs ≠ [] ∧ (length bs ≤ read_buf_size)%nat.

Definition got (bs : list byte) (s : Sess) : Sess := with_wire (wire_out s) (wire_in s ++ [bs]) s.

Lemma inv_got bs s : sess_inv s → sess_inv (got bs s).
Proof using Type. intros HI. apply (inv_same s); try done; [apply HI|by apply prefix_app_r]. Qed.

Lemma eval_reader_read i n cs d bs s :
  sess_inv s → closed s = false → (feed_all (wire_in s)).1 = d → readable bs →
  eval (oracle i) n (reader_body d) (CRead bs :: cs, s) =
  Done (inl (decoder_feed d bs).1) (cs, works_spec (decoder_feed d bs).2 (got bs s)).
Proof using Type.
  intros HI Hcl Hd [Hne Hlen]. unfold reader_body.
  simpl. unfold oracle at 1. simpl. rewrite Hcl. simpl.
  destruct bs as [|b bs]; [done|]. apply Nat.leb_le in Hlen. rewrite Hlen. simpl.
  destruct (decoder_feed d (b :: bs)) as [d' ws] eqn:Hf.
  destruct (eval_works i n cs ws (got (b :: bs) s)) as [Hw _].
  - by apply inv_got.
  - intros w Hw. unfold frames_received, got. simpl.
    rewrite (feed_all_snoc _ _ d' ws) by (by rewrite Hd). simpl. apply elem_of_app. by right.
  - rewrite eval_bind. unfold got, oracle in Hw. by rewrite Hw.
Qed.

(** How the stream ends: end of file or a read error. *)
Definition stream_end (c : sess_choice) : Prop := c = CRead [] ∨ ∃ e, c = CIoError e.

Lemma eval_reader_end i n c cs d s :
  closed s = false → stream_end c →
  eval (oracle i) n (reader_body d) (c :: cs, s) = Done (inr tt) (cs, s).
Proof using Type.
  intros Hcl Hc. unfold reader_body. simpl. unfold oracle at 1. simpl. rewrite Hcl. simpl.
  by destruct Hc as [->|[e ->]].
Qed.

Lemma frame_spec_wire ty tag pl o i s :
  frame_spec ty tag pl (with_wire o i s) = with_wire o i (frame_spec ty tag pl s).
Proof using Type. unfold frame_spec. simpl. by repeat case_match. Qed.

Lemma works_spec_wire ws o i s :
  works_spec ws (with_wire o i s) = with_wire o i (works_spec ws s).
Proof using Type.
  revert s. induction ws as [|w ws IH]; intros s; [done|]. simpl. rewrite <- IH. f_equal.
  destruct w; [apply frame_spec_wire|done].
Qed.

Lemma works_spec_app ws ws' s : works_spec (ws ++ ws') s = works_spec ws' (works_spec ws s).
Proof using Type. apply foldl_app. Qed.

(** The reader's loop over a whole stream. *)
Lemma iterate_reader i n m c chunks cs s :
  sess_inv s → closed s = false → Forall readable chunks → stream_end c →
  (length chunks < m)%nat →
  let fed := feed_all (wire_in s ++ chunks) in
  ∃ s', iterate (λ d, eval (oracle i) n (reader_body d)) m (feed_all (wire_in s)).1
          ((CRead <$> chunks) ++ c :: cs, s) = Done tt (cs, s') ∧
    sess_inv s' ∧
    fed.2 = (feed_all (wire_in s)).2 ++ drop (length (feed_all (wire_in s)).2) fed.2 ∧
    s' = with_wire (wire_out s) (wire_in s ++ chunks)
           (works_spec (drop (length (feed_all (wire_in s)).2) fed.2) s).
Proof using Type.
  revert m s. induction chunks as [|bs chunks IH]; intros m s HI Hcl Hch Hc Hm;
    (destruct m as [|m]; [simpl in Hm; lia|]); cbn [fmap list_fmap app iterate].
  - rewrite eval_reader_end by done. simpl. exists s. rewrite app_nil_r, drop_all.
    split_and!; [done..|by rewrite app_nil_r|]. by destruct s.
  - apply Forall_cons in Hch as [Hbs Hch].
    rewrite eval_reader_read by done. cbn [outcome_bind].
    destruct (decoder_feed (feed_all (wire_in s)).1 bs) as [d' ws] eqn:Hf. simpl.
    pose proof (feed_all_snoc _ _ _ _ Hf) as Hfa.
    set (s1 := works_spec ws (got bs s)).
    destruct (works_wire ws (got bs s)) as (Hw1 & Hw2 & Hw3). fold s1 in Hw1, Hw2, Hw3.
    destruct (IH m s1) as (s' & Hit & HI' & Hfed & ->).
    + apply eval_works with (i := i) (n := n) (cs := cs); [by apply inv_got|].
      intros w Hw. unfold frames_received, got. simpl. rewrite Hfa. simpl.
      apply elem_of_app. by right.
    + by rewrite Hw2.
    + done.
    + done.
    + simpl in Hm. lia.
    + rewrite Hw1 in *. unfold got in Hit, Hfed at 1 2 3 4, HI' |- *. cbn [wire_in with_wire] in *.
      rewrite Hfa in *. cbn [fst snd] in *.
      rewrite <- app_assoc in *. cbn [app] in *.
      eexists. split; [exact Hit|]. split; [exact HI'|].
      set (rest := drop (length ((feed_all (wire_in s)).2 ++ ws)) (feed_all (wire_in s ++ bs :: chunks)).2) in *.
      rewrite Hfed, <- app_assoc, drop_app_length. split; [done|].
      rewrite Hw3, works_spec_app. unfold s1, got. by rewrite !works_spec_wire.
Qed.

(** C16: [reader_loop] over a whole inbound stream, however it is cut into reads and
    whether it ends by end of file or by an error: it terminates, handles every
    frame the decoder finds in the concatenated input exactly once and in order,
    then answers the commands that are still outstanding with "reader exited" and
    closes its ends of the event queues. *)
Theorem reader_loop_refines i fuel c chunks cs s :
  sess_inv s → closed s = false → wire_in s = [] → Forall readable chunks → stream_end c →
  (length chunks < fuel)%nat →
  eval (oracle i) fuel reader_loop ((CRead <$> chunks) ++ c :: cs, s) =
  Done tt (cs, reader_exit (with_wire (wire_out s) chunks (works_spec (feed_all chunks).2 s))).
Proof using Type.
  intros HI Hcl Hw Hch Hc Hf. unfold reader_loop. rewrite eval_bind.
  destruct (iterate_reader i fuel fuel c chunks cs s HI Hcl Hch Hc Hf) as (s' & Hit & HI' & _ & ->).
  rewrite Hw in *. simpl in *. rewrite Hit. simpl. rewrite drop_0 in *.
  etrans; [apply (eval_notify_then i fuel cs "reader exited" _ _ HI')|]. done.
Qed.
End frames.

Lemma dispatch_refines_witness :
  eval (oracle 0) 0 (dispatch 131 0 [x68]) ([], spawn_state 0) =
    Done tt ([], frame_spec 131 0 [x68] (spawn_state 0)).
Proof. apply (dispatch_refines 0 0 [] 131 0 [x68]), spawn_inv. Defined.

(** A session with one PING outstanding. *)
Definition ping_pending : Sess := shared (after (runs 1 8) (session_pool ping_calls)).

Lemma ping_pending_inv : sess_inv ping_pending.
Proof. eapply session_reachable, after_reachable. Qed.

Lemma close_refines_witness :
  eval (oracle 1) 0 close ([], ping_pending) =
  Done tt ([], with_flags true false true (notify_all "session closed" ping_pending)).
Proof. apply (close_refines 1 0 [] ping_pending), ping_pending_inv. Defined.

Lemma reader_loop_refines_witness :
  eval (oracle 0) 2 reader_loop ((CRead <$> [[x80; x01]]) ++ CRead [] :: [], ping_pending) =
  Done tt ([], reader_exit (with_wire (wire_out ping_pending) [[x80; x01]]
                 (works_spec (feed_all [[x80; x01]]).2 ping_pending))).
Proof.
  apply (reader_loop_refines 0 2 (CRead []) [[x80; x01]] [] ping_pending);
    [apply ping_pending_inv|reflexivity|reflexivity| |by left|simpl; lia].
  constructor; [split; [done|unfold read_buf_size; simpl; lia]|constructor].
Defined.
