(* ===== verification/SessionTags.v ===== *)
(** * One command does not disturb another

    A session gives each command a tag and files its waker under it.  As long as the
    numbers last (65535 of them), tags name commands: a call touches no entry and no
    channel but its own, whatever it does and wherever it is dropped.  One command
    more, while an old one is still outstanding, and both fail. *)

From S2P Require Import Prelude Runtime Errors Protocol Session SessionInv SessionSpec SessionPool SessionWire SessionSeq.
Local Open Scope Z_scope.

Section ownership.
Context `{Wire}.

(** How far a command is: no tag yet, a tag, a tag and the channel made for it. *)
Inductive stage := Ready | Given (tag : Z) | Opened (tag : Z) (w : nat).

(** [minds Q g p]: from stage [g], program [p] allocates at most one tag and one
    channel, files and removes entries under that tag only, and touches no other
    channel, if what it finds under its tag is its own entry. *)
Inductive minds {A} (Q : stage → A → Prop) (g : stage) : prog sessE A → Prop :=
| minds_ret a : Q g a → minds Q g (Ret a)
| minds_panic m : minds Q g (Panic m)
| minds_alloc k : g = Ready → (∀ t, minds Q (Given t) (k t)) → minds Q g (Vis AllocTag k)
| minds_new t cmd k :
    g = Given t → (∀ w, minds Q (Opened t w) (k w)) → minds Q g (Vis (NewOneshot t cmd) k)
| minds_insert t w cmd k :
    g = Opened t w → minds Q g (k tt) →
    minds Q g (Vis (PendingInsert t {| cmd_type := cmd; waker := w |}) k)
| minds_remove t w k :
    g = Opened t w → minds Q g (k None) →
    (∀ cmd, minds Q g (k (Some {| cmd_type := cmd; waker := w |}))) →
    minds Q g (Vis (PendingRemove t) k)
| minds_drop t w k : g = Opened t w → minds Q g (k tt) → minds Q g (Vis (DropWaker w) k)
| minds_await t w n k :
    g = Opened t w → (∀ r, minds Q g (k r)) → minds Q g (Vis (AwaitResponse w n) k)
| minds_unlisten t w k : g = Opened t w → minds Q g (k tt) → minds Q g (Vis (DropReceiver w) k)
| minds_eff {X} (e : sessE X) k :
    neutral e = true → (∀ x, minds Q g (k x)) → minds Q g (Vis e k)
| minds_loop {S B} (body : S → prog sessE (S + B)) l k :
    (∀ l, minds (λ g' _, g' = g) g (body l)) → (∀ b, minds Q g (k b)) →
    minds Q g (Loop body l k).

Lemma minds_bind {A B} (R : stage → A → Prop) (Q : stage → B → Prop) g p f :
  minds R g p → (∀ g' a, R g' a → minds Q g' (f a)) → minds Q g (p ≫= f).
Proof using Type.
  intros Hp. unfold mbind, prog_mbind. revert B Q f.
  induction Hp as [A R g a|A R g m|A R g k Hg _ IH|A R g t cmd k Hg _ IH|A R g t w cmd k Hg _ IH
    |A R g t w k Hg _ IH1 _ IH2|A R g t w k Hg _ IH|A R g t w n k Hg _ IH|A R g t w k Hg _ IH
    |A R g X e k He _ IH|A R g S B' body l k Hb _ _ IH]; intros B Q f Hf; simpl.
  - by apply Hf.
  - apply minds_panic.
  - apply minds_alloc; auto.
  - apply minds_new; auto.
  - eapply minds_insert; [exact Hg|auto].
  - eapply minds_remove; [exact Hg|auto..].
  - eapply minds_drop; [exact Hg|auto].
  - eapply minds_await; [exact Hg|auto].
  - eapply minds_unlisten; [exact Hg|auto].
  - apply minds_eff; auto.
  - apply minds_loop; [exact Hb|auto].
Qed.

(** A part that leaves the stage as it is. *)
Lemma minds_seq {A B} (Q : stage → B → Prop) g (p : prog sessE A) f :
  minds (λ g' _, g' = g) g p → (∀ a, minds Q g (f a)) → minds Q g (p ≫= f).
Proof using Type. intros Hp Hf. eapply minds_bind; [exact Hp|]. by intros ? a ->. Qed.

(** *** The callers *)

Lemma minds_write_frame g ty tag pl : minds (λ g' _, g' = g) g (write_frame ty tag pl).
Proof using Type.
  unfold write_frame. destruct (encode_frame _ _ _); [|by apply minds_ret].
  apply minds_eff; [done|]. intros []. apply minds_seq.
  - apply write_all_ind; intros; [by apply minds_ret|by apply minds_eff].
  - intros [u|e]; repeat (apply minds_eff; [done|]; intros ?); by apply minds_ret.
Qed.

Lemma minds_remove_pending t w : minds (λ g' _, g' = Opened t w) (Opened t w) (remove_pending t).
Proof using Type.
  eapply minds_remove; [done|by apply minds_ret|]. intros cmd.
  eapply minds_drop; [done|]. by apply minds_ret.
Qed.

Lemma minds_send_command ty pl n : minds (λ _ _, True) Ready (send_command ty pl n).
Proof using Type.
  apply minds_eff; [done|]. intros []; [by apply minds_ret|].
  apply minds_alloc; [done|]. intros t. apply minds_new; [done|]. intros w.
  eapply minds_insert; [done|]. apply minds_seq; [apply minds_write_frame|]. intros [u|e].
  - eapply minds_await; [done|]. intros [r| |]; [by apply minds_ret|..];
      (apply minds_seq; [apply minds_remove_pending|]; intros; by apply minds_ret).
  - apply minds_seq; [apply minds_remove_pending|]. intros [].
    eapply minds_unlisten; [done|]. by apply minds_ret.
Qed.

(** *** The other tasks *)

Definition no_new_tag {X} (e : sessE X) : Prop :=
  match e with AllocTag | NewOneshot _ _ => False | _ => True end.

(** The tasks that run a command. *)
Definition is_send (calls : list call) (i : nat) : bool :=
  match i with
  | O => false
  | S k => match calls !! k with Some (CSend _ _ _) => true | _ => false end
  end.

(** A command minds its own entry; the other calls and the reader make no tags. *)
Definition kept (calls : list call) (i : nat) (g : stage) (p : prog sessE reply) : Prop :=
  if is_send calls i then minds (λ _ _, True) g p else uses (@no_new_tag) p.

Lemma plain_reader_loop : uses (@no_new_tag) (reader_loop ;; Ret RepDone).
Proof using Type.
  unfold reader_loop, reader_body, handle_work, dispatch, dispatch_async, wake_all, loop. solve_uses.
Qed.

Lemma kept_call calls k c : calls !! k = Some c → kept calls (S k) Ready (run_call c).
Proof using Type.
  intros Hk. unfold kept. simpl. rewrite Hk.
  destruct c; try (unfold run_call, recv_rx, next_rx, drain_async_errors, close, wake_all, loop; solve_uses; fail).
  eapply minds_bind; [apply minds_send_command|]. intros. by apply minds_ret.
Qed.
End ownership.

(** ** What the tags are worth *)

Section numbering.
Context `{Wire}.

Definition chan_id (s : Sess) (w : nat) : option (nat * Z) := static <$> chans s !! w.

(** The tags given out so far, each to one task: as long as they are fewer than
    65535, the next one is new. *)
Record numbering (G : gmap nat Z) (s : Sess) : Prop := {
  nm_next : next_tag s = Z.of_nat (size G) mod 65535 + 1;
  nm_range i t : G !! i = Some t → 1 ≤ t ≤ Z.of_nat (size G);
  nm_inj i j t : G !! i = Some t → G !! j = Some t → i = j;
  nm_chan w i t : chan_id s w = Some (i, t) → G !! i = Some t;
  nm_one w w' i t t' : chan_id s w = Some (i, t) → chan_id s w' = Some (i, t') → w = w';
}.

(** What the stage of task [i] says of the state. *)
Definition stage_ok (G : gmap nat Z) (s : Sess) (i : nat) (g : stage) : Prop :=
  match g with
  | Ready => G !! i = None
  | Given t => G !! i = Some t ∧ ∀ w t', chan_id s w ≠ Some (i, t')
  | Opened t w => chan_id s w = Some (i, t)
  end.

(** Task [i] holds no waker but those of the channels it made. *)
Definition holds_own (i : nat) (s : Sess) : Prop :=
  ∀ w c, chans s !! w = Some c → ch_sender c = HeldBy i → ch_owner c = i.

(** A step that changes no channel and no entry of the tasks other than [i]. *)
Record untouched (i : nat) (s s' : Sess) : Prop := {
  ut_chan w c : chans s !! w = Some c → ch_owner c ≠ i → chans s' !! w = Some c;
  ut_entry tag p c : pending s !! tag = Some p → chans s !! waker p = Some c → ch_owner c ≠ i →
    pending s' !! tag = Some p;
}.

Lemma untouched_same i s s' : chans s' = chans s → pending s' = pending s → untouched i s s'.
Proof using Type. intros Hc Hp. split; [by rewrite Hc|by rewrite Hp]. Qed.

(** A change of the one channel [w], which is task [i]'s. *)
Lemma untouched_alter i s w t f m :
  chan_id s w = Some (i, t) →
  (∀ tag p c, pending s !! tag = Some p → chans s !! waker p = Some c → ch_owner c ≠ i →
     m !! tag = Some p) →
  untouched i s (with_map m (alter f w (chans s)) s).
Proof using Type.
  intros Hw Hm. split; simpl; [|exact Hm]. intros w' c Hc Ho.
  rewrite lookup_alter_ne; [done|]. intros <-. unfold chan_id in Hw. rewrite Hc in Hw.
  by injection Hw.
Qed.

(** What a task finds under its tag is its own entry. *)
Lemma own_entry G s i t w p :
  sess_inv s → numbering G s → chan_id s w = Some (i, t) → pending s !! t = Some p →
  waker p = w.
Proof using Type.
  intros HI Hn Hw Hp. destruct (inv_map s HI t p Hp) as (c & Hc & Ht & _).
  assert (chan_id s (waker p) = Some (ch_owner c, t)) as Hid by (unfold chan_id; by rewrite Hc, <- Ht).
  assert (ch_owner c = i) as Ho.
  { apply (nm_inj G s Hn _ _ t); by eapply nm_chan. }
  rewrite Ho in Hid. by apply (nm_one G s Hn _ _ i t t).
Qed.

(** Nobody else has an entry under a task's tag. *)
Lemma other_entry G s i t w tag p c :
  sess_inv s → numbering G s → chan_id s w = Some (i, t) → pending s !! tag = Some p →
  chans s !! waker p = Some c → ch_owner c ≠ i → t ≠ tag.
Proof using Type.
  intros HI Hn Hw Hp Hc Ho ->. rewrite (own_entry G s i tag w p) in Hc by done.
  unfold chan_id in Hw. rewrite Hc in Hw. by injection Hw.
Qed.

Lemma chan_id_same {X} i c (e : sessE X) s x s' :
  no_new_tag e → sess_do X i c e s = Some (x, s') →
  next_tag s' = next_tag s ∧ ∀ w, chan_id s' w = chan_id s w.
Proof using Type.
  destruct e; simpl; intros Hok Hd; try done; repeat case_match; simplify_eq/=; split; try done;
    intros w0; unfold chan_id; simpl;
    try (by apply static_alter); try (by apply static_insert); try (by apply static_take).
Qed.

Lemma numbering_same G s s' :
  next_tag s' = next_tag s → (∀ w, chan_id s' w = chan_id s w) → numbering G s → numbering G s'.
Proof using Type.
  intros Hn Hc []. split; [congruence|done..| |].
  - intros w i t. rewrite Hc. apply nm_chan0.
  - intros w w' i t t'. rewrite !Hc. apply nm_one0.
Qed.

Lemma stage_ok_same G s s' i g :
  (∀ w, chan_id s' w = chan_id s w) → stage_ok G s i g → stage_ok G s' i g.
Proof using Type.
  intros Hc. destruct g as [|t|t w]; simpl; [done| |by rewrite Hc].
  intros [? Hno]. split; [done|]. intros w t'. rewrite Hc. apply Hno.
Qed.

(** *** Each effect *)

Lemma alloc_fresh G s i :
  numbering G s → G !! i = None → Z.of_nat (size G) < 65535 →
  next_tag s = Z.of_nat (size G) + 1 ∧
  numbering (<[i := next_tag s]> G) (with_next_tag (alloc_tag (next_tag s)).2 s).
Proof using Type.
  intros [] Hi Hsz. assert (next_tag s = Z.of_nat (size G) + 1) as E
    by (rewrite nm_next0, Z.mod_small; lia).
  split; [done|]. assert (∀ j t, G !! j = Some t → t ≠ next_tag s) as Hnew.
  { intros j t Hj%nm_range0. lia. }
  assert (size (<[i := next_tag s]> G) = S (size G)) as Hsize by by apply map_size_insert_None.
  split; rewrite ?Hsize.
  - cbn [next_tag with_next_tag]. rewrite alloc_tag_next by lia. by rewrite E, Nat2Z.inj_succ.
  - intros j t [[<- <-]|[_ Hj%nm_range0]]%lookup_insert_Some; lia.
  - intros j k t [[<- <-]|[_ Hj]]%lookup_insert_Some [[<- Hk]|[_ Hk]]%lookup_insert_Some; try done.
    + by apply Hnew in Hk.
    + rewrite <- Hk in Hj. by apply Hnew in Hj.
    + by eapply nm_inj0.
  - intros w j t Hw. pose proof (nm_chan0 w j t Hw). by rewrite lookup_insert_ne by congruence.
  - exact nm_one0.
Qed.

Lemma chan_id_new s i tag cmd w :
  sess_inv s →
  chan_id (add_chan i tag cmd s) w = if decide (w = next_chan s) then Some (i, tag) else chan_id s w.
Proof using Type.
  intros HI. unfold chan_id, add_chan, new_chan. simpl.
  case_decide as Hw; [by rewrite Hw, lookup_insert_eq|by rewrite lookup_insert_ne].
Qed.

Lemma new_numbered G s i tag cmd :
  sess_inv s → numbering G s → stage_ok G s i (Given tag) → numbering G (add_chan i tag cmd s).
Proof using Type.
  intros HI [] [Hi Hno]. split; [done..| |].
  - intros w j t. rewrite chan_id_new by done. case_decide; [by intros [= <- <-]|apply nm_chan0].
  - intros w w' j t t'. rewrite !chan_id_new by done. repeat case_decide; subst; try done.
    + intros [= <- <-] Hw. by apply Hno in Hw.
    + intros Hw [= <- <-]. by apply Hno in Hw.
    + apply nm_one0.
Qed.

Lemma stage_ok_new G s i tag cmd j g :
  sess_inv s → i ≠ j → stage_ok G s j g → stage_ok G (add_chan i tag cmd s) j g.
Proof using Type.
  intros HI Hij. destruct g as [|t|t w]; simpl; [done|..].
  - intros [Hj Hno]. split; [done|]. intros w t'. rewrite chan_id_new by done.
    case_decide; [congruence|apply Hno].
  - rewrite chan_id_new by done. case_decide as Hw; [|done]. subst. unfold chan_id.
    by rewrite (fresh_chan s HI).
Qed.

Lemma alter_alter {A} (f g : A → A) w (m : gmap nat A) :
  alter f w (alter g w m) = alter (f ∘ g) w m.
Proof using Type.
  apply map_eq. intros w'. destruct (decide (w = w')) as [<-|Hne].
  - rewrite !lookup_alter_eq. by destruct (m !! w).
  - by rewrite !lookup_alter_ne by done.
Qed.

(** The own effects of a command. *)
Lemma insert_untouched G s i t w cmd :
  sess_inv s → numbering G s → chan_id s w = Some (i, t) →
  untouched i s (map_insert t {| cmd_type := cmd; waker := w |} s).
Proof using Type.
  intros HI Hn Hw. unfold map_insert. simpl.
  assert (∀ tag p c, pending s !! tag = Some p → chans s !! waker p = Some c → ch_owner c ≠ i →
    <[t := {| cmd_type := cmd; waker := w |}]> (pending s) !! tag = Some p) as Hm.
  { intros tag p c Hp Hc Ho. rewrite lookup_insert_ne; [done|]. by eapply other_entry. }
  destruct (pending s !! t) as [old|] eqn:Hold; [|by apply (untouched_alter i s w t)].
  rewrite (own_entry G s i t w old) by done. unfold set_sender. rewrite alter_alter.
  by apply (untouched_alter i s w t).
Qed.

Lemma remove_untouched G s i t w p :
  sess_inv s → numbering G s → chan_id s w = Some (i, t) → pending s !! t = Some p →
  untouched i s (with_map (delete t (pending s)) (set_sender (waker p) (HeldBy i) (chans s)) s).
Proof using Type.
  intros HI Hn Hw Hp. rewrite (own_entry G s i t w p) by done.
  apply (untouched_alter i s w t); [done|]. intros tag q c Hq Hc Ho.
  rewrite lookup_delete_ne; [done|]. by eapply other_entry.
Qed.

Lemma alter_untouched i s w t f :
  chan_id s w = Some (i, t) → untouched i s (with_map (pending s) (alter f w (chans s)) s).
Proof using Type. intros Hw. by apply (untouched_alter i s w t). Qed.

(** *** A step of a command *)

(** What a step of task [i] from [s], with the tags [G] given out, leads to. *)
Definition advances {A} (Q : stage → A → Prop) (G : gmap nat Z) (i : nat) (s : Sess)
    (p' : prog sessE A) (s' : Sess) : Prop :=
  ∃ G' g', (dom G' ⊆ {[i]} ∪ dom G) ∧ numbering G' s' ∧ stage_ok G' s' i g' ∧ minds Q g' p' ∧
    untouched i s s' ∧ ∀ j g0, i ≠ j → stage_ok G s j g0 → stage_ok G' s' j g0.

Lemma advances_same {A X} (Q : stage → A → Prop) G g i c (e : sessE X) s x s' p' :
  numbering G s → stage_ok G s i g → no_new_tag e → sess_do X i c e s = Some (x, s') →
  minds Q g p' → untouched i s s' → advances Q G i s p' s'.
Proof using Type.
  intros Hn Hg He Hd ??. destruct (chan_id_same i c e s x s' He Hd) as [Hnt Hid].
  exists G, g. split_and!; [set_solver|by eapply numbering_same|by eapply stage_ok_same|done..|].
  intros j g0 _. by apply stage_ok_same.
Qed.

Lemma advances_alloc {A} (Q : stage → A → Prop) G i s p' :
  numbering G s → G !! i = None → Z.of_nat (size G) < 65535 →
  minds Q (Given (next_tag s)) p' → advances Q G i s p' (with_next_tag (alloc_tag (next_tag s)).2 s).
Proof using Type.
  intros Hn Hg Hsz Hp. destruct (alloc_fresh G s i Hn Hg Hsz) as [E Hn'].
  exists (<[i := next_tag s]> G), (Given (next_tag s)).
  split_and!; [set_solver|exact Hn'| |exact Hp|by apply untouched_same|].
  - split; [apply lookup_insert_eq|]. intros w t' Hw. apply (nm_chan G s Hn) in Hw. congruence.
  - intros j [|t|t w] Hij; simpl; [|intros [??]; split; [|done]|done]; by rewrite lookup_insert_ne.
Qed.

Lemma advances_new {A} (Q : stage → A → Prop) G i tag cmd s p' :
  sess_inv s → numbering G s → stage_ok G s i (Given tag) → minds Q (Opened tag (next_chan s)) p' →
  advances Q G i s p' (add_chan i tag cmd s).
Proof using Type.
  intros HI Hn Hg Hp. exists G, (Opened tag (next_chan s)).
  split_and!; [set_solver|by apply new_numbered| |exact Hp| |].
  - simpl. by rewrite chan_id_new, decide_True.
  - pose proof (fresh_chan s HI) as Hf. split; [|done]. intros w ch Hc _. simpl.
    rewrite lookup_insert_ne by congruence. done.
  - intros j g0 Hij. by apply stage_ok_new.
Qed.

Lemma minds_step {A} (Q : stage → A → Prop) G g i c p p' s s' :
  sess_inv s → numbering G s → stage_ok G s i g → (G !! i = None → Z.of_nat (size G) < 65535) →
  minds Q g p → step_prog i c p s = Some (p', s') → advances Q G i s p' s'.
Proof using Type.
  intros HI Hn Hg Hsz Hp Hst.
  assert (∀ X (e : sessE X) x s1 p1, no_new_tag e → sess_do X i c e s = Some (x, s1) →
    minds Q g p1 → untouched i s s1 → advances Q G i s p1 s1) as Hsame by (intros; by eapply advances_same).
  destruct Hp as [a HQ|m|k -> Hk|t cmd k -> Hk|t w cmd k -> Hk|t w k -> Hk1 Hk2|t w k -> Hk
    |t w n k -> Hk|t w k -> Hk|X e k He Hk|S B body l k Hb Hk]; try done.
  - injection Hst as <- <-. apply advances_alloc; auto.
  - injection Hst as <- <-. by apply advances_new.
  - injection Hst as <- <-.
    apply (Hsame _ (PendingInsert t {| cmd_type := cmd; waker := w |}) tt); [done|done|exact Hk|].
    by eapply insert_untouched.
  - cbn [step_prog do_eff sess_sem sess_do] in Hst.
    assert (sess_do _ i c (PendingRemove t) s = match pending s !! t with
      | Some p => Some (Some p, with_map (delete t (pending s)) (set_sender (waker p) (HeldBy i) (chans s)) s)
      | None => Some (None, s) end) as Hd by done.
    destruct (pending s !! t) as [p|] eqn:Hpe; injection Hst as <- <-; (eapply Hsame; [|exact Hd| |]; [done|..]).
    + pose proof (own_entry G s i t w p HI Hn Hg Hpe) as E. destruct p as [cmd w']. simpl in E.
      rewrite E. apply Hk2.
    + by eapply remove_untouched.
    + exact Hk1.
    + by apply untouched_same.
  - injection Hst as <- <-. apply (Hsame _ (DropWaker w) tt); [done|done|exact Hk|].
    by apply (alter_untouched i s w t).
  - cbn [step_prog do_eff sess_sem] in Hst.
    destruct (sess_do _ i c (AwaitResponse w n) s) as [[x s1]|] eqn:Hd; [|done]. injection Hst as <- <-.
    eapply Hsame; [|exact Hd|apply Hk|]; [done|].
    simpl in Hd. repeat case_match; simplify_eq; by apply (alter_untouched i s w t).
  - injection Hst as <- <-. apply (Hsame _ (DropReceiver w) tt); [done|done|exact Hk|].
    by apply (alter_untouched i s w t).
  - cbn [step_prog do_eff sess_sem] in Hst.
    destruct (sess_do _ i c e s) as [[x s1]|] eqn:Hd; [|done]. injection Hst as <- <-.
    eapply Hsame; [|exact Hd|apply Hk|]; [by destruct e|].
    destruct (neutral_do i c e s x s1 He Hd) as (? & ? & _). by apply untouched_same.
  - injection Hst as <- <-. exists G, g. split_and!; [set_solver|done..| |by apply untouched_same|done].
    apply minds_seq; [apply Hb|]. intros [l'|b]; [by apply minds_loop|apply Hk].
Qed.
End numbering.

(** ** Every interleaving *)

Section pool.
Context `{Wire}.

Definition task_of (l : label sessE Sess) : nat := match l with Run i _ => i | Cancel i => i end.

(** The step of one task is in the rely of the others. *)
Lemma reachable_guar calls cf l cf' :
  reachable (session_pool calls) cf → step l cf = Some cf' →
  Guar (task_of l) (shared cf) (shared cf').
Proof using Type.
  intros [HI Hs]%session_reachable Hst.
  destruct l as [i c|i]; simpl in Hst |- *; destruct (tasks cf !! i) as [p|] eqn:Hp; try done; simpl in Hst.
  - destruct (step_prog (E := sessE) i c p (shared cf)) as [[p' s']|] eqn:Hsp; [|done]. injection Hst as <-.
    destruct (Hs i p Hp 1%nat (shared cf)) as [_ Hi]; [reflexivity|done|].
    by destruct (Hi c p' s' Hsp) as (_ & HG & _).
  - assert (cf' = Conf (delete i (tasks cf)) (on_drop i (shared cf))) as -> by (by destruct p; simplify_eq).
    apply guar_drop.
Qed.

Lemma holds_own_other i j s s' : Guar i s s' → i ≠ j → holds_own j s → holds_own j s'.
Proof using Type.
  intros HG Hij Hh w c' Hc' Hs. destruct (chans s !! w) as [c|] eqn:Hc.
  - destruct (r_chans _ _ _ (HG j Hij) w c Hc) as (c2 & ? & Hr). simplify_eq.
    rewrite (cr_owner _ _ _ Hr). apply (Hh w c Hc). by apply (cr_held _ _ _ Hr).
  - by destruct (r_new _ _ _ (HG j Hij) w c' Hc Hc').
Qed.

Lemma holds_own_self i s s' : Guar i s s' → untouched i s s' → holds_own i s → holds_own i s'.
Proof using Type.
  intros HG Hu Hh w c' Hc' Hs. destruct (decide (ch_owner c' = i)) as [|Hne]; [done|].
  destruct (chans s !! w) as [c|] eqn:Hc.
  - destruct (r_chans _ _ _ (HG (S i) ltac:(lia)) w c Hc) as (c2 & ? & Hr). simplify_eq.
    destruct (decide (ch_owner c = i)) as [Ho|Ho]; [by rewrite (cr_owner _ _ _ Hr)|].
    pose proof (ut_chan _ _ _ Hu w c Hc Ho). simplify_eq. by apply (Hh w).
  - by destruct (r_new _ _ _ (HG (ch_owner c') ltac:(done)) w c' Hc Hc').
Qed.

(** A dropped command leaves the others alone. *)
Lemma drop_untouched i s : holds_own i s → untouched i s (sess_drop i s).
Proof using Type.
  intros Hh. split; [|done]. intros w c Hc Ho. simpl. rewrite lookup_fmap, Hc. simpl. f_equal.
  unfold chan_drop_task. rewrite decide_False by congruence.
  destruct c as [t cmd [j| |] v o ln]; try done. simpl in *. rewrite decide_False; [done|].
  intros ->. by apply Ho, (Hh w _ Hc).
Qed.

Lemma chan_id_drop i s w : chan_id (sess_drop i s) w = chan_id s w.
Proof using Type. unfold chan_id. simpl. rewrite lookup_fmap. by destruct (chans s !! w). Qed.

Lemma untagged_step {A} i c (p p' : prog sessE A) s s' :
  uses (@no_new_tag _) p → step_prog i c p s = Some (p', s') →
  uses (@no_new_tag _) p' ∧ next_tag s' = next_tag s ∧ ∀ w, chan_id s' w = chan_id s w.
Proof using Type.
  destruct 1 as [a|X e k He Hk|S B body l k Hb Hk|m]; try done.
  - simpl. destruct (sess_do X i c e s) as [[x s1]|] eqn:Hd; [|done]. intros [= <- <-].
    split; [done|]. by eapply chan_id_same.
  - intros [= <- <-]. split; [|done]. apply uses_bind; [done|]. intros [l'|b]; [by constructor|done].
Qed.

Record numbered (calls : list call) (G : gmap nat Z) (cf : conf sessE Sess reply) : Prop := {
  nd_dom : dom G ⊆ set_seq 1 (length calls);
  nd_numbering : numbering G (shared cf);
  nd_holds i : is_send calls i = true → holds_own i (shared cf);
  nd_tasks i p : tasks cf !! i = Some p →
    ∃ g, kept calls i g p ∧ (is_send calls i = true → stage_ok G (shared cf) i g);
}.

Lemma holds_kept calls i s s' :
  Guar i s s' → (is_send calls i = true → untouched i s s') →
  (∀ j, is_send calls j = true → holds_own j s) → ∀ j, is_send calls j = true → holds_own j s'.
Proof using Type.
  intros HG Hu Hh j Hj. destruct (decide (i = j)) as [<-|Hij].
  - exact (holds_own_self i _ _ HG (Hu Hj) (Hh i Hj)).
  - exact (holds_own_other i j _ _ HG Hij (Hh j Hj)).
Qed.

Lemma send_index calls i : is_send calls i = true → i ∈ (set_seq 1 (length calls) : gset nat).
Proof using Type.
  intros Hi. apply elem_of_set_seq. destruct i as [|k]; [done|]. simpl in Hi.
  destruct (calls !! k) eqn:Hk; [|done]. apply lookup_lt_Some in Hk. lia.
Qed.

(** As long as a call of the pool has no tag, there is one left. *)
Lemma numbered_budget calls (G : gmap nat Z) i :
  Z.of_nat (length calls) < 2 ^ 16 → dom G ⊆ (set_seq 1 (length calls) : gset nat) →
  is_send calls i = true → G !! i = None → Z.of_nat (size G) < 65535.
Proof using Type.
  change (2 ^ 16) with 65536. intros Hlen Hdom Hin%send_index HG.
  assert (size ({[i]} ∪ dom G) ≤ size (set_seq 1 (length calls) : gset nat))%nat as Hsz
    by (apply subseteq_size; set_solver).
  rewrite size_union, size_singleton, size_set_seq, size_dom in Hsz; [lia|].
  apply not_elem_of_dom in HG. set_solver.
Qed.

(** The steps of the pool: of a command, of another task, of the runtime dropping one. *)
Lemma numbered_command calls G cf i c p p' s' :
  Z.of_nat (length calls) < 2 ^ 16 → sess_inv (shared cf) → numbered calls G cf →
  Guar i (shared cf) s' → is_send calls i = true → tasks cf !! i = Some p →
  step_prog (E := sessE) i c p (shared cf) = Some (p', s') →
  (∃ G', numbered calls G' (Conf (<[i := p']> (tasks cf)) s')) ∧ untouched i (shared cf) s'.
Proof using Type.
  intros Hlen HI [Hdom Hn Hh Ht] HG Hi Hp Hs. destruct (Ht i p Hp) as (g & Hk & Hg).
  unfold kept in Hk. rewrite Hi in Hk.
  destruct (minds_step _ G g i c p p' _ s' HI Hn (Hg Hi)
    ltac:(by eapply numbered_budget) Hk Hs) as (G' & g' & HD & Hn' & Hg' & Hk' & Hu & Hot).
  split; [|done]. exists G'. split; cbn [tasks shared]; [|done|by eapply holds_kept|].
  - etrans; [exact HD|]. apply union_subseteq. split; [|done].
    by apply singleton_subseteq_l, send_index.
  - intros j q [[<- <-]|[Hij Hq]]%lookup_insert_Some.
    + exists g'. unfold kept. by rewrite Hi.
    + destruct (Ht j q Hq) as (gj & ? & ?). exists gj. auto.
Qed.

Lemma numbered_other calls G cf i c p p' s' :
  numbered calls G cf → Guar i (shared cf) s' → is_send calls i = false → tasks cf !! i = Some p →
  step_prog (E := sessE) i c p (shared cf) = Some (p', s') →
  numbered calls G (Conf (<[i := p']> (tasks cf)) s').
Proof using Type.
  intros [Hdom Hn Hh Ht] HG Hi Hp Hs. destruct (Ht i p Hp) as (g & Hk & _).
  unfold kept in Hk. rewrite Hi in Hk. destruct (untagged_step i c p p' _ s' Hk Hs) as (Hk' & Hnt & Hid).
  split; cbn [tasks shared]; [done|by eapply numbering_same|eapply holds_kept; [exact HG|congruence|done]|].
  intros j q [[<- <-]|[Hij Hq]]%lookup_insert_Some.
  - exists g. unfold kept. by rewrite Hi.
  - destruct (Ht j q Hq) as (gj & ? & ?). exists gj. split; [done|]. intros Hj.
    eapply stage_ok_same; eauto.
Qed.

Lemma numbered_drop calls G cf i :
  numbered calls G cf → numbered calls G (Conf (delete i (tasks cf)) (sess_drop i (shared cf))).
Proof using All.
  intros [Hdom Hn Hh Ht]. split; cbn [tasks shared]; [done|..].
  - eapply numbering_same, Hn; [done|apply chan_id_drop].
  - eapply holds_kept; [apply guar_drop|intros; by apply drop_untouched, Hh|done].
  - intros j q [_ Hq]%lookup_delete_Some. destruct (Ht j q Hq) as (gj & ? & ?). exists gj. split; [done|].
    intros Hj. eapply stage_ok_same; [apply chan_id_drop|auto].
Qed.

Lemma numbered_step calls G cf l cf' :
  Z.of_nat (length calls) < 2 ^ 16 → reachable (session_pool calls) cf → numbered calls G cf →
  step l cf = Some cf' →
  (∃ G', numbered calls G' cf') ∧
  (is_send calls (task_of l) = true → untouched (task_of l) (shared cf) (shared cf')).
Proof using Type.
  intros Hlen Hr HN Hst. pose proof (reachable_guar calls cf l cf' Hr Hst) as HG.
  apply session_reachable in Hr as [HI _].
  destruct l as [i c|i]; simpl in Hst, HG |- *; destruct (tasks cf !! i) as [p|] eqn:Hp; try done; simpl in Hst.
  - destruct (step_prog (E := sessE) i c p (shared cf)) as [[p' s']|] eqn:Hs; [|done]. injection Hst as <-.
    destruct (is_send calls i) eqn:Hi.
    + destruct (numbered_command calls G cf i c p p' s') as [? ?]; auto.
    + split; [|done]. exists G. by apply (numbered_other calls G cf i c p).
  - assert (cf' = Conf (delete i (tasks cf)) (on_drop i (shared cf))) as -> by (by destruct p; simplify_eq).
    split; [exists G; by apply numbered_drop|]. intros Hi. by apply drop_untouched, (nd_holds _ _ _ HN).
Qed.

Lemma numbered_reachable calls cf :
  Z.of_nat (length calls) < 2 ^ 16 → reachable (session_pool calls) cf → ∃ G, numbered calls G cf.
Proof using Type.
  intros Hlen. induction 1 as [|cf l cf' Hr [G IH] Hst]; [|by eapply numbered_step].
  exists ∅. split; [set_solver| |by intros i _ w c|].
  - by split.
  - intros i p Hp. exists Ready. split; [|done]. apply lookup_map_seq_Some in Hp as [_ Hp].
    rewrite Nat.sub_0_r in Hp. destruct i as [|k]; simpl in Hp.
    + injection Hp as <-. apply plain_reader_loop.
    + rewrite list_lookup_fmap in Hp. destruct (calls !! k) as [c|] eqn:Hk; [|done].
      injection Hp as <-. by apply kept_call.
Qed.

Lemma numbered_unique calls G cf w w' c c' :
  numbered calls G cf → chans (shared cf) !! w = Some c → chans (shared cf) !! w' = Some c' →
  ch_tag c = ch_tag c' → w = w'.
Proof using Type.
  intros HG Hc Hc' Htag. pose proof (nd_numbering _ _ _ HG) as Hn.
  assert (chan_id (shared cf) w = Some (ch_owner c, ch_tag c)) as Hw by (unfold chan_id; by rewrite Hc).
  assert (chan_id (shared cf) w' = Some (ch_owner c', ch_tag c)) as Hw'
    by (unfold chan_id; by rewrite Hc', Htag).
  pose proof (nm_inj _ _ Hn _ _ _ (nm_chan _ _ Hn _ _ _ Hw) (nm_chan _ _ Hn _ _ _ Hw')) as Ho.
  rewrite <- Ho in Hw'. by eapply nm_one.
Qed.

(** C7: Commands do not disturb each other: in a session of at most 65535 calls no two
    commands ever share a tag, and a step of one [send_command], whatever it does and
    also when it is dropped, changes no channel and no entry of the pending map that
    belongs to another. *)
Theorem commands_isolated calls cf :
  Z.of_nat (length calls) < 2 ^ 16 → reachable (session_pool calls) cf →
  (∀ w w' c c', chans (shared cf) !! w = Some c → chans (shared cf) !! w' = Some c' →
     ch_tag c = ch_tag c' → w = w') ∧
  (∀ l cf', is_send calls (task_of l) = true → step l cf = Some cf' →
     untouched (task_of l) (shared cf) (shared cf')).
Proof using Type.
  intros Hlen Hr. destruct (numbered_reachable calls cf Hlen Hr) as [G HG]. split.
  - intros w w' c c' Hc Hc'. by apply (numbered_unique calls G cf w w' c c').
  - intros l cf' Hl Hst. by apply (numbered_step calls G cf l cf').
Qed.
End pool.

Lemma commands_isolated_witness :
  let cf := after first_expires (session_pool two_calls) in
  Z.of_nat (length two_calls) < 2 ^ 16 ∧ length (map_to_list (chans (shared cf))) = 2%nat ∧
  (∀ w w' c c', chans (shared cf) !! w = Some c → chans (shared cf) !! w' = Some c' →
     ch_tag c = ch_tag c' → w = w') ∧
  (∀ l cf', is_send two_calls (task_of l) = true → step l cf = Some cf' →
     untouched (task_of l) (shared cf) (shared cf')).
Proof.
  split; [done|]. split; [vm_compute; reflexivity|].
  apply (commands_isolated two_calls (after first_expires (session_pool two_calls)));
    [done|apply after_reachable].
Defined.

(** ** One command too many *)

(** The two commands of interest, and [n] more. *)
Definition many_calls (n : nat) : list call :=
  CSend 1 [] 2000 :: CSend 2 [] 2000 :: replicate n (CSend 1 [] 2000).

Definition plain (n : nat) : list (choice sessE) := replicate n CDefault.

(** Of the commands from [k] on, [n] are given their tags. *)
Lemma tags_pass c0 n k (m : gmap nat (prog sessE reply)) s :
  undropped c0 (Conf m s) → closed s = false →
  (∀ j, (k ≤ j < k + n)%nat → m !! j = Some (run_call (CSend 1 [] 2000))) →
  ∃ m', undropped c0 (Conf m' (with_next_tag (tag_after n (next_tag s)) s)) ∧
    ∀ j, (j < k)%nat → m' !! j = m !! j.
Proof.
  revert k m s. induction n as [|n IH]; intros k m s Hr Hcl Hm.
  - exists m. split; [|done]. by destruct s.
  - assert (m !! k = Some (run_call (CSend 1 [] 2000))) as Hk by (apply Hm; lia).
    eapply (solo_undropped _ _ k (plain 2)) in Hr; [|exact Hk|]; cycle 1.
    { unfold run_call, send_command. simpl. rewrite Hcl. reflexivity. }
    cbn [tasks] in Hr. apply (IH (S k)) in Hr as (m' & Hr & Hm'); [|done|].
    + exists m'. split; [exact Hr|]. intros j Hj. rewrite Hm' by lia. by rewrite lookup_insert_ne by lia.
    + intros j Hj. rewrite lookup_insert_ne by lia. apply Hm. lia.
Qed.

(** The first command in flight; then, the numbers used up, the second's insertion. *)
Definition first_sent : prog sessE reply * Sess :=
  default (Panic "", spawn_state 0) (solo 1 (plain 8) (run_call (CSend 1 [] 2000)) (spawn_state 0)).
Definition second_sent : prog sessE reply * Sess :=
  default (Panic "", spawn_state 0)
    (solo 2 (plain 8) (run_call (CSend 2 [] 2000)) (with_next_tag 1 first_sent.2)).

(** The tags have wrapped around while the first command waits. *)
Lemma wrapped n :
  Z.of_nat n = 65534 →
  ∃ m, undropped (session_pool (many_calls n)) (Conf m (with_next_tag 1 first_sent.2)) ∧
    m !! 1%nat = Some first_sent.1 ∧ m !! 2%nat = Some (run_call (CSend 2 [] 2000)) ∧
    m !! 0%nat = Some (reader_loop ;; Ret RepDone).
Proof.
  intros Hn.
  assert (∀ k c, many_calls n !! k = Some c →
    tasks (session_pool (many_calls n)) !! S k = Some (run_call c)) as Htask.
  { intros k c Hk. cbn [tasks session_pool]. by rewrite lookup_map_seq_0, lookup_cons, list_lookup_fmap, Hk. }
  assert (undropped (session_pool (many_calls n)) (session_pool (many_calls n))) as Hr by apply within_refl.
  eapply (solo_undropped _ _ 1 (plain 8) _ first_sent.1 first_sent.2) in Hr;
    [|by apply Htask|vm_compute; reflexivity].
  apply (tags_pass _ n 3) in Hr as (m & Hr & Hm); [|vm_compute; reflexivity|].
  2:{ intros j Hj. rewrite lookup_insert_ne by lia. destruct j as [|j]; [lia|]. apply Htask.
      destruct j as [|[|j]]; try lia. unfold many_calls. simpl. apply lookup_replicate_2. lia. }
  assert (tag_after n (next_tag first_sent.2) = 1) as E.
  { assert (next_tag first_sent.2 = 2) as -> by (vm_compute; reflexivity).
    rewrite tag_after_closed, Hn by lia. reflexivity. }
  rewrite E in Hr. exists m. split; [exact Hr|].
  rewrite !Hm by lia. rewrite lookup_insert_eq, !lookup_insert_ne by lia. split_and!; [done|by apply Htask|].
  cbn [tasks session_pool]. by rewrite lookup_map_seq_0.
Qed.

(** C37: The bound is exact: with 65536 calls, of which one is still outstanding when the
    tags wrap around, the command that gets its tag again evicts its entry, even if no
    task is dropped; the first command fails with [ReaderExited] although the reader is
    there and the session open, and cleaning up removes the second's entry, so that it
    fails the same way. *)
Theorem tag_reuse_fails_both :
  let calls := many_calls (Z.to_nat 65534) in
  Z.of_nat (length calls) = 2 ^ 16 ∧
  ∃ cf, undropped (session_pool calls) cf ∧
    tasks cf !! 1%nat = Some (Ret (RepResponse (Err ReaderExited))) ∧
    tasks cf !! 2%nat = Some (Ret (RepResponse (Err ReaderExited))) ∧
    tasks cf !! 0%nat = Some (reader_loop ;; Ret RepDone) ∧ closed (shared cf) = false.
Proof.
  assert (Z.of_nat (Z.to_nat 65534) = 65534) as Hn by by apply Z2Nat.id.
  revert Hn. generalize (Z.to_nat 65534). intros n Hn. split.
  { unfold many_calls. cbn [length]. rewrite length_replicate, !Nat2Z.inj_succ, Hn. done. }
  destruct (wrapped n Hn) as (m & Hr & H1 & H2 & H3).
  eapply (solo_undropped _ _ 2 (plain 8) _ second_sent.1 second_sent.2) in Hr;
    [|exact H2|vm_compute; reflexivity].
  eapply (solo_undropped _ _ 1 (plain 3)) in Hr;
    [|cbn [tasks]; rewrite lookup_insert_ne by done; exact H1|vm_compute; reflexivity].
  eapply (solo_undropped _ _ 2 (plain 2)) in Hr;
    [|cbn [tasks]; rewrite lookup_insert_ne by done; apply lookup_insert_eq|vm_compute; reflexivity].
  eexists. split; [exact Hr|]. cbn [tasks]. split_and!; [| |by rewrite !lookup_insert_ne|reflexivity].
  - by rewrite lookup_insert_ne, lookup_insert_eq.
  - by rewrite lookup_insert_eq.
Qed.
