(* ===== verification/SessionAnswers.v ===== *)
(** * No waker is lost

    A command that waits is told something: as long as tags are not used twice and
    neither the reader nor a [close] is dropped, no waker goes away without an answer,
    so that [ReaderExited] is never returned. *)

From S2P Require Import Prelude Runtime Errors Protocol Session SessionInv SessionSpec SessionPool SessionWire SessionSeq SessionTags.
Local Open Scope Z_scope.

Section waiting.
Context `{Wire}.

(** *** A command *)

(** No channel yet, listening on one, done with it. *)
Inductive phase := Before | Listening (w : nat) | After.

(** [heeds Q ph p]: from phase [ph], program [p] returns with [Q], if the channel it
    listens on does not close without an answer. *)
Inductive heeds {A} (Q : phase → A → Prop) (ph : phase) : prog sessE A → Prop :=
| heeds_ret a : Q ph a → heeds Q ph (Ret a)
| heeds_new t cmd k :
    (∀ w, heeds Q (Listening w) (k w)) → heeds Q ph (Vis (NewOneshot t cmd) k)
| heeds_insert t w cmd k :
    ph = Listening w → heeds Q ph (k tt) →
    heeds Q ph (Vis (PendingInsert t {| cmd_type := cmd; waker := w |}) k)
| heeds_await w n k :
    ph = Listening w → (∀ r, r ≠ RecvError → heeds Q After (k r)) →
    heeds Q ph (Vis (AwaitResponse w n) k)
| heeds_eff {X} (e : sessE X) k :
    neutral e = true → (∀ x, heeds Q ph (k x)) → heeds Q ph (Vis e k)
| heeds_alloc k : (∀ t, heeds Q ph (k t)) → heeds Q ph (Vis AllocTag k)
| heeds_after {X} (e : sessE X) k : (∀ x, heeds Q After (k x)) → heeds Q ph (Vis e k)
| heeds_loop {S B} (R : B → Prop) (body : S → prog sessE (S + B)) l k :
    (∀ l, heeds (λ ph' r, ph' = ph ∧ match r with inl _ => True | inr b => R b end) ph (body l)) →
    (∀ b, R b → heeds Q ph (k b)) → heeds Q ph (Loop body l k).

Lemma heeds_bind {A B} (R : phase → A → Prop) (Q : phase → B → Prop) ph p f :
  heeds R ph p → (∀ ph' a, R ph' a → heeds Q ph' (f a)) → heeds Q ph (p ≫= f).
Proof using Type.
  intros Hp. unfold mbind, prog_mbind. revert B Q f.
  induction Hp as [A R ph a|A R ph t cmd k _ IH|A R ph t w cmd k Hw _ IH|A R ph w n k Hw _ IH
    |A R ph X e k He _ IH|A R ph k _ IH|A R ph X e k _ IH|A R ph S B' T body l k Hb _ _ IH];
    intros B Q f Hf; simpl.
  - by apply Hf.
  - apply heeds_new; auto.
  - eapply heeds_insert; [exact Hw|auto].
  - eapply heeds_await; [exact Hw|auto].
  - apply heeds_eff; auto.
  - apply heeds_alloc; auto.
  - apply heeds_after; auto.
  - eapply heeds_loop; [exact Hb|auto].
Qed.

(** Errors that are not the loss of a waker. *)
Definition answered {A} (r : ClientResult A) : Prop := r ≠ Err ReaderExited.

Lemma answered_err {A B} e : answered (Err e : ClientResult A) → answered (Err e : ClientResult B).
Proof using Type. intros Ha [= ->]. by apply Ha. Qed.

Lemma heeds_write_frame ph ty tag pl :
  heeds (λ ph' r, ph' = ph ∧ answered r) ph (write_frame ty tag pl).
Proof using Type.
  unfold write_frame. destruct (encode_frame _ _ _); [|by apply heeds_ret].
  apply heeds_eff; [done|]. intros []. eapply (heeds_bind (λ ph' _, ph' = ph)).
  - apply write_all_ind; intros; [by apply heeds_ret|by apply heeds_eff].
  - intros ph' [u|e] ->; (apply heeds_eff; [done|]); intros r.
    + apply heeds_eff; [done|]. intros _. apply heeds_ret. split; [done|]. by destruct r.
    + by apply heeds_ret.
Qed.

Lemma heeds_remove_pending tag : heeds (λ ph _, ph = After) After (remove_pending tag).
Proof using Type.
  apply heeds_after. intros [p|]; [apply heeds_after; intros []|]; by apply heeds_ret.
Qed.

Lemma heeds_send_command ty pl n : heeds (λ _ r, answered r) Before (send_command ty pl n).
Proof using Type.
  apply heeds_eff; [done|]. intros []; [by apply heeds_ret|].
  apply heeds_alloc. intros t. apply heeds_new. intros w. eapply heeds_insert; [done|].
  eapply heeds_bind; [apply heeds_write_frame|]. intros ph [u|e] [-> Hr].
  - eapply heeds_await; [done|]. intros [r| |] Hne; [by apply heeds_ret|done|].
    eapply heeds_bind; [apply heeds_remove_pending|]. intros ph _ ->. by apply heeds_ret.
  - apply heeds_after. intros [p|]; [apply heeds_after; intros []|];
      (apply heeds_after; intros []; by apply heeds_ret, (answered_err (A := unit))).
Qed.

(** *** The other tasks *)

(** What they do to entries and channels: take, answer; an entry is put back only
    where it was just taken. *)
Definition bystander {X} (e : sessE X) : bool :=
  match e with
  | WakerSend _ _ | PendingTake | TransportRead => true
  | e => neutral e
  end.

Inductive returns {A} (h : option (Z * Pending)) : prog sessE A → Prop :=
| returns_ret a : returns h (Ret a)
| returns_remove t (k : option Pending → prog sessE A) :
    (∀ r, returns (pair t <$> r) (k r)) → returns h (Vis (PendingRemove t) k)
| returns_insert t p k :
    h = Some (t, p) → returns None (k tt) → returns h (Vis (PendingInsert t p) k)
| returns_eff {X} (e : sessE X) k :
    bystander e = true → (∀ x, returns None (k x)) → returns h (Vis e k)
| returns_loop {S B} (body : S → prog sessE (S + B)) l k :
    (∀ l, returns None (body l)) → (∀ b, returns None (k b)) → returns h (Loop body l k).

Lemma returns_weaken {A} h (p : prog sessE A) : returns None p → returns h p.
Proof using Type.
  intros Hp. remember None as h0 eqn:Hh. destruct Hp as [a|t k Hk|t p k E Hk|X e k He Hk|S B body l k Hb Hk].
  - apply returns_ret.
  - by apply returns_remove.
  - congruence.
  - by apply returns_eff.
  - by apply returns_loop.
Qed.

Lemma returns_bind {A B} h (p : prog sessE A) (f : A → prog sessE B) :
  returns h p → (∀ a, returns None (f a)) → returns h (p ≫= f).
Proof using Type.
  intros Hp. unfold mbind, prog_mbind. revert B f.
  induction Hp as [A h a|A h t k _ IH|A h t p k Hh _ IH|A h X e k He _ IH|A h S B' body l k Hb _ _ IH];
    intros B f Hf; simpl.
  - by apply returns_weaken.
  - apply returns_remove; auto.
  - apply returns_insert; auto.
  - apply returns_eff; auto.
  - apply returns_loop; auto.
Qed.

Lemma returns_for {X} (l : list X) f :
  (∀ x, returns None (f x)) → returns None (prog_for l f).
Proof using Type. intros Hf. induction l; simpl; [by apply returns_ret|by apply returns_bind]. Qed.

Lemma returns_wake_all msg l : returns None (wake_all msg l).
Proof using Type. apply returns_for. intros x. apply returns_eff; [done|]. intros []. by apply returns_ret. Qed.

Lemma returns_handle_work w : returns None (handle_work w).
Proof using Type.
  destruct w as [ty tag pl|]; simpl; [|apply returns_eff; [done|]; intros []; by apply returns_ret].
  unfold dispatch, dispatch_async. destruct (tag =? 0).
  - repeat case_match; try (apply returns_eff; [done|]; intros []); by apply returns_ret.
  - apply returns_remove. intros [p|]; simpl; [|by apply returns_ret]. case_match.
    + apply returns_insert; [done|]. by apply returns_ret.
    + apply returns_eff; [done|]. intros []. by apply returns_ret.
Qed.

Lemma returns_reader_loop : returns None reader_loop.
Proof using Type.
  unfold reader_loop, loop. apply returns_bind.
  - apply returns_loop; [|intros; by apply returns_ret]. intros d. unfold reader_body.
    apply returns_eff; [done|]. intros []; [by apply returns_ret|].
    apply returns_eff; [done|]. intros [[|b bs]|e]; try by apply returns_ret.
    destruct (decoder_feed d _) as [d' works]. apply returns_bind; [|intros; by apply returns_ret].
    apply returns_for, returns_handle_work.
  - intros []. apply returns_eff; [done|]. intros l. apply returns_bind; [apply returns_wake_all|].
    intros []. apply returns_eff; [done|]. intros []. by apply returns_ret.
Qed.

Lemma returns_call c : (∀ ty pl t, c ≠ CSend ty pl t) → returns None (run_call c).
Proof using Type.
  assert (∀ {X} (e : sessE X), neutral e = true → returns None (trigger e)) as He.
  { intros X e He. apply returns_eff; [by destruct e|]. intros. by apply returns_ret. }
  intros Hc. destruct c as [ty pl t|t| | |]; [by destruct (Hc ty pl t)| | | |];
    (apply returns_bind; [|intros; by apply returns_ret]).
  - repeat (apply returns_bind; [by apply He|intros]). by apply returns_ret.
  - repeat (apply returns_bind; [by apply He|intros]). by apply returns_ret.
  - apply returns_bind; [by apply He|]. intros []. apply returns_bind.
    + apply returns_loop; [|intros; by apply returns_ret]. intros l.
      apply returns_bind; [by apply He|]. intros []; by apply returns_ret.
    + intros l. apply returns_bind; [by apply He|]. intros. by apply returns_ret.
  - apply returns_bind; [by apply He|]. intros []. apply returns_eff; [done|]. intros l.
    apply returns_bind; [apply returns_wake_all|]. intros []. apply returns_bind; [by apply He|].
    intros []; [by apply He|by apply returns_ret].
Qed.
End waiting.

(** ** What the steps keep *)

Section steps.
Context `{Wire}.

(** Channel [c] of task [i] is listened to, and not closed without an answer. *)
Record live (i : nat) (c : Chan) : Prop := {
  lv_owner : ch_owner c = i;
  lv_listening : ch_listening c = true;
  lv_answer : ch_sender c = Gone → is_Some (ch_value c);
}.

Definition live_at (i w : nat) (s : Sess) : Prop := ∃ c, chans s !! w = Some c ∧ live i c.

Definition phase_ok (i : nat) (s : Sess) (ph : phase) : Prop :=
  match ph with Listening w => live_at i w s | _ => True end.

Definition hold_ok (i : nat) (s : Sess) (h : option (Z * Pending)) : Prop :=
  match h with Some (t, p) => held i (waker p) t (cmd_type p) s | None => True end.

(** Only an entry with the tag of a channel is about that channel. *)
Definition unique_tags (s : Sess) : Prop :=
  ∀ w w' c c', chans s !! w = Some c → chans s !! w' = Some c' → ch_tag c = ch_tag c' → w = w'.

Lemma live_same i w s s' : chans s' = chans s → live_at i w s → live_at i w s'.
Proof using Type. unfold live_at. by intros ->. Qed.

Lemma live_alter i w w' f s m :
  (∀ c, live i c → live i (f c)) → live_at i w s → live_at i w (with_map m (alter f w' (chans s)) s).
Proof using Type.
  intros Hf (c & Hc & Hl). unfold live_at. simpl. destruct (decide (w' = w)) as [->|Hne].
  - rewrite lookup_alter_eq, Hc. eexists. split; [done|]. auto.
  - rewrite lookup_alter_ne by done. eauto.
Qed.

Lemma live_sender i c l : l ≠ Gone → live i c → live i (chan_with_sender l c).
Proof using Type. intros Hl []. by split. Qed.

Lemma live_send i c r : live i c → live i (chan_send r c).
Proof using Type. intros [? Hl ?]. split; simpl; try done. rewrite Hl. eauto. Qed.

(** The own steps of a command. *)
Lemma insert_live i w t cmd s :
  live_at i w s → live_at i w (map_insert t {| cmd_type := cmd; waker := w |} s).
Proof using Type.
  intros (c & Hc & [Ho Hl Ha]). unfold live_at, map_insert. simpl. rewrite set_sender_lookup, decide_True by done.
  assert (∃ c1, match pending s !! t with
    | Some old => set_sender (waker old) Gone (chans s) | None => chans s end !! w = Some c1 ∧
    ch_owner c1 = i ∧ ch_listening c1 = true) as (c1 & -> & ? & ?).
  { destruct (pending s !! t) as [old|]; [|by exists c]. rewrite set_sender_lookup.
    case_decide; [rewrite Hc; by eexists|by exists c]. }
  eexists. split; [done|]. by split.
Qed.

Lemma heeds_step {A} (Q : phase → A → Prop) ph i c p p' s s' :
  heeds Q ph p → phase_ok i s ph → step_prog i c p s = Some (p', s') →
  ∃ ph', heeds Q ph' p' ∧ phase_ok i s' ph'.
Proof using Type.
  intros Hp Hok Hst.
  destruct Hp as [a HQ|t cmd k Hk|t w cmd k -> Hk|w n k -> Hk|X e k He Hk|k Hk|X e k Hk|S B R body l k Hb Hk];
    try done.
  - injection Hst as <- <-. eexists. split; [apply Hk|]. eexists. simpl.
    rewrite lookup_insert_eq. split; [done|]. by split.
  - injection Hst as <- <-. eexists. split; [exact Hk|]. by apply insert_live.
  - destruct Hok as (ch & Hch & [Ho Hl Ha]). cbn [step_prog do_eff sess_sem sess_do] in Hst.
    rewrite Hch in Hst. exists After. split; [|done].
    repeat case_match; simplify_eq/=; try (by apply Hk). by destruct (Ha eq_refl).
  - cbn [step_prog do_eff sess_sem] in Hst. destruct (sess_do X i c e s) as [[x s1]|] eqn:Hd; [|done].
    injection Hst as <- <-. exists ph. split; [apply Hk|]. destruct (neutral_do i c e s x s1 He Hd) as (Hc & _).
    destruct ph as [|w|]; [done| |done]. by eapply live_same.
  - injection Hst as <- <-. exists ph. split; [apply Hk|]. by destruct ph.
  - cbn [step_prog do_eff sess_sem] in Hst. destruct (sess_do X i c e s) as [[x s1]|] eqn:Hd; [|done].
    injection Hst as <- <-. by exists After.
  - injection Hst as <- <-. exists ph. split; [|done]. eapply heeds_bind; [apply Hb|].
    intros ph' [l'|b] [-> Hr]; [by eapply heeds_loop|by apply Hk].
Qed.

(** The steps of the other tasks. *)
Lemma bystander_live {X} i c (e : sessE X) s x s' j w :
  bystander e = true → sess_do X i c e s = Some (x, s') → live_at j w s → live_at j w s'.
Proof using Type.
  intros He Hd Hl.
  assert (neutral e = true → live_at j w s') as Hneutral.
  { intros Hn. destruct (neutral_do i c e s x s' Hn Hd) as (Hc & _). by eapply live_same. }
  destruct e; try done; try (by apply Hneutral); simpl in Hd.
  - assert (∀ l, live_at j w (map_take i l s)) as Htake.
    { intros l. destruct Hl as (ch & Hch & Hl). unfold live_at. simpl.
      rewrite take_lookup, Hch. case_decide; eexists; (split; [done|]); [by apply live_sender|done]. }
    repeat case_match; simplify_eq; apply Htake.
  - injection Hd as <- <-. apply live_alter; [|done]. intros ch. apply live_send.
  - repeat case_match; simplify_eq; done.
Qed.

Lemma remove_live i c t s r s' j w :
  sess_do _ i c (PendingRemove t) s = Some (r, s') → live_at j w s → live_at j w s'.
Proof using Type.
  simpl. destruct (pending s !! t) as [p|]; intros [= <- <-]; [|done].
  apply live_alter. intros ch. by apply live_sender.
Qed.

(** An entry that is put back finds its place free. *)
Lemma free_slot i s t p :
  sess_inv s → unique_tags s → held i (waker p) t (cmd_type p) s → pending s !! t = None.
Proof using Type.
  intros HI Hu (c & Hc & Hs & Ht & _). destruct (pending s !! t) as [old|] eqn:Hp; [|done].
  destruct (inv_map s HI t old Hp) as (c' & Hc' & Ht' & _ & Hs').
  assert (waker old = waker p) as E by (eapply Hu; [exact Hc'|exact Hc|congruence]).
  rewrite E in Hc'. congruence.
Qed.

Lemma put_back_live i s t p j w :
  sess_inv s → unique_tags s → held i (waker p) t (cmd_type p) s →
  live_at j w s → live_at j w (map_insert t p s).
Proof using Type.
  intros HI Hu Hh. unfold map_insert. rewrite (free_slot i s t p HI Hu Hh).
  apply live_alter. intros ch. by apply live_sender.
Qed.

Lemma removed_held i c t s r s' :
  sess_inv s → sess_do _ i c (PendingRemove t) s = Some (r, s') → hold_ok i s' (pair t <$> r).
Proof using Type.
  intros HI. simpl. destruct (pending s !! t) as [p|] eqn:Hp; intros [= <- <-]; [|done].
  destruct (inv_map s HI t p Hp) as (ch & Hch & ? & ? & _). eexists. simpl.
  rewrite set_sender_lookup, decide_True, Hch by done. by split_and!.
Qed.

Lemma returns_step {A} h i c (p p' : prog sessE A) s s' :
  sess_inv s → unique_tags s → returns h p → hold_ok i s h → step_prog i c p s = Some (p', s') →
  (∃ h', returns h' p' ∧ hold_ok i s' h') ∧ ∀ j w, live_at j w s → live_at j w s'.
Proof using Type.
  intros HI Hu Hp Hok Hst. destruct Hp as [a|t k Hk|t q k -> Hk|X e k He Hk|S B body l k Hb Hk]; try done.
  - cbn [step_prog do_eff sess_sem] in Hst.
    destruct (sess_do _ i c (PendingRemove t) s) as [[r s1]|] eqn:Hd; [|done]. injection Hst as <- <-.
    split; [exists (pair t <$> r); split; [apply Hk|by eapply removed_held]|].
    intros j w. by eapply remove_live.
  - injection Hst as <- <-. split; [by exists None|]. intros j w. by eapply put_back_live.
  - cbn [step_prog do_eff sess_sem] in Hst. destruct (sess_do X i c e s) as [[x s1]|] eqn:Hd; [|done].
    injection Hst as <- <-. split; [exists None; split; [apply Hk|done]|].
    intros j w. by eapply bystander_live.
  - injection Hst as <- <-. split; [|done]. exists None. split; [|done]. apply returns_bind; [apply Hb|].
    intros [l'|b]; [by apply returns_loop|apply Hk].
Qed.

Lemma held_other i j w t cmd s s' : Guar i s s' → i ≠ j → held j w t cmd s → held j w t cmd s'.
Proof using Type.
  intros HG Hij (c & Hc & Hs & ? & ?).
  destruct (r_chans _ _ _ (HG j Hij) w c Hc) as (c' & ? & Hr). exists c'.
  split_and!; [done|by apply (cr_held _ _ _ Hr)|rewrite (cr_tag _ _ _ Hr); done|rewrite (cr_cmd _ _ _ Hr); done].
Qed.

Lemma live_untouched i j w s s' : i ≠ j → untouched i s s' → live_at j w s → live_at j w s'.
Proof using Type.
  intros Hij Hu (c & Hc & Hl). exists c. split; [|done]. apply (ut_chan _ _ _ Hu w c Hc).
  rewrite (lv_owner _ _ Hl). congruence.
Qed.
End steps.

(** ** Every run that spares the reader and [close] *)

Section pool.
Context `{Wire}.

Definition not_lost (r : reply) : Prop :=
  match r with RepResponse r => answered r | _ => True end.

(** The tasks that take part in nobody else's answer: commands, and calls that listen to
    the two queues. *)
Definition listens (calls : list call) (i : nat) : bool :=
  match i with
  | O => false
  | S k => match calls !! k with Some (CRecvRx _ | CNextRx | CDrain) => true | _ => false end
  end.
Definition outsider (calls : list call) (i : nat) : bool := is_send calls i || listens calls i.

Definition is_neutral (X : Type) (e : sessE X) : Prop := neutral e = true.

(** A task is at a point where it waits for an answer that will come, or holds at most
    the entry it is about to put back; a listener holds none. *)
Definition attentive_task (calls : list call) (s : Sess) (i : nat) (p : prog sessE reply) : Prop :=
  if is_send calls i then ∃ ph, heeds (λ _, not_lost) ph p ∧ phase_ok i s ph
  else (∃ h, returns h p ∧ hold_ok i s h) ∧
       (listens calls i = true → uses is_neutral p ∧ holds_only i [] s).

Definition attentive (calls : list call) (cf : conf sessE Sess reply) : Prop :=
  ∀ i p, tasks cf !! i = Some p → attentive_task calls (shared cf) i p.

Lemma attentive_start calls : attentive calls (session_pool calls).
Proof using Type.
  intros i p Hp. apply lookup_map_seq_Some in Hp as [_ Hp]. rewrite Nat.sub_0_r in Hp.
  unfold attentive_task. apply lookup_cons_Some in Hp as [[-> <-]|[Hi Hp]].
  - split; [|done]. exists None. split; [|done].
    apply returns_bind; [apply returns_reader_loop|]. intros. by apply returns_ret.
  - destruct i as [|k]; [lia|]. replace (S k - 1)%nat with k in Hp by lia. rewrite list_lookup_fmap in Hp. destruct (calls !! k) as [c|] eqn:Hk; [|done]. injection Hp as <-.
    simpl. rewrite Hk. destruct c as [ty pl t|t| | |].
    + exists Before. split; [|done]. eapply heeds_bind; [apply heeds_send_command|].
      intros ph r Hr. by apply heeds_ret.
    + split; [exists None; split; [by apply returns_call|done]|]. intros _.
      split; [unfold run_call, recv_rx, next_rx, drain_async_errors, loop; solve_uses|by intros w c].
    + split; [exists None; split; [by apply returns_call|done]|]. intros _.
      split; [unfold run_call, recv_rx, next_rx, drain_async_errors, loop; solve_uses|by intros w c].
    + split; [exists None; split; [by apply returns_call|done]|]. intros _.
      split; [unfold run_call, recv_rx, next_rx, drain_async_errors, loop; solve_uses|by intros w c].
    + split; [exists None; split; [by apply returns_call|done]|]. discriminate.
Qed.

(** A task that does not move is where it was. *)
Lemma attentive_other calls i j q s s' :
  attentive_task calls s j q → Guar i s s' → i ≠ j → (∀ w, live_at j w s → live_at j w s') →
  attentive_task calls s' j q.
Proof using Type.
  intros Ha HG Hij Hlive. unfold attentive_task in *. destruct (is_send calls j).
  - destruct Ha as (ph & ? & Hph). exists ph. split; [done|]. destruct ph; [done|by apply Hlive|done].
  - destruct Ha as [(h & ? & Hh) Hl]. split.
    + exists h. split; [done|]. destruct h as [[t e]|]; [|done]. by eapply held_other.
    + intros Hls. destruct (Hl Hls) as [? Ho]. split; [done|]. intros w c' Hc' Hs.
      destruct (chans s !! w) as [c|] eqn:Hc; [|by destruct (r_new _ _ _ (HG j Hij) w c' Hc Hc')].
      destruct (r_chans _ _ _ (HG j Hij) w c Hc) as (c2 & ? & Hr). simplify_eq.
      apply (Ho w c Hc). by apply (cr_held _ _ _ Hr).
Qed.

Lemma neutral_step {A} i c (p p' : prog sessE A) s s' :
  uses is_neutral p → step_prog i c p s = Some (p', s') → uses is_neutral p' ∧ chans s' = chans s.
Proof using Type.
  destruct 1 as [a|X e k He Hk|S B body l k Hb Hk|m]; try done.
  - cbn [step_prog do_eff sess_sem]. destruct (sess_do X i c e s) as [[x s1]|] eqn:Hd; [|done]. intros [= <- <-].
    split; [done|]. by eapply neutral_do.
  - intros [= <- <-]. split; [|done]. apply uses_bind; [done|]. intros [l'|b]; [by constructor|done].
Qed.

(** A task's own step. *)
Lemma attentive_move calls i c p p' s s' :
  sess_inv s → unique_tags s → attentive_task calls s i p →
  step_prog (E := sessE) i c p s = Some (p', s') →
  attentive_task calls s' i p' ∧ (is_send calls i = false → ∀ j w, live_at j w s → live_at j w s').
Proof using Type.
  intros HI Hu Ha Hs. unfold attentive_task in *. destruct (is_send calls i).
  - destruct Ha as (ph & Hph & Hok). split; [by eapply heeds_step|done].
  - destruct Ha as [(h & Hh & Hok) Hl].
    destruct (returns_step h i c p p' s s' HI Hu Hh Hok Hs) as [? ?]. split; [|done]. split; [done|].
    intros Hls. destruct (Hl Hls) as [Hp Ho]. destruct (neutral_step i c p p' s s' Hp Hs) as [? E].
    split; [done|]. intros w ch. rewrite E. apply Ho.
Qed.

Lemma attentive_step calls cf l cf' :
  Z.of_nat (length calls) < 2 ^ 16 → reachable (session_pool calls) cf →
  allows (outsider calls) l = true → attentive calls cf → step l cf = Some cf' → attentive calls cf'.
Proof using Type.
  intros Hlen Hr Hl Ha Hst. destruct (numbered_reachable calls cf Hlen Hr) as [G HN].
  pose proof (reachable_guar calls cf _ cf' Hr Hst) as HG.
  destruct (numbered_step calls G cf _ cf' Hlen Hr HN Hst) as [_ Hu].
  apply session_reachable in Hr as [HI _].
  destruct l as [i c|i]; simpl in Hst, HG, Hu, Hl; destruct (tasks cf !! i) as [p|] eqn:Hp; try done; simpl in Hst.
  - destruct (step_prog (E := sessE) i c p (shared cf)) as [[p' s']|] eqn:Hs; [|done]. injection Hst as <-.
    simpl in HG, Hu. destruct (attentive_move calls i c p p' _ s' HI) as [Hi Hlive];
      [intros w1 w2 c1 c2; by apply (numbered_unique calls G cf)|by apply Ha|done|].
    intros j q. cbn [tasks shared]. intros [[<- <-]|[Hij Hq]]%lookup_insert_Some; [done|].
    eapply attentive_other; [by apply Ha|exact HG|done|]. intros w.
    destruct (is_send calls i); [apply (live_untouched i); [done|by apply Hu]|by apply Hlive].
  - assert (cf' = Conf (delete i (tasks cf)) (on_drop i (shared cf))) as -> by (by destruct p; simplify_eq).
    assert (holds_own i (shared cf)) as Hown.
    { destruct (is_send calls i) eqn:Hsend; [by apply (nd_holds _ _ _ HN)|].
      unfold outsider in Hl. rewrite Hsend in Hl. pose proof (Ha i p Hp) as Hi.
      unfold attentive_task in Hi. rewrite Hsend in Hi. destruct Hi as [_ Hi].
      destruct (Hi Hl) as [_ Ho]. intros w ch Hch Hs. by pose proof (Ho w ch Hch Hs) as ?%elem_of_nil. }
    intros j q. cbn [tasks shared]. intros [Hij Hq]%lookup_delete_Some. eapply attentive_other; [by apply Ha|exact HG|done|].
    intros w. apply (live_untouched i); [done|by apply drop_untouched].
Qed.

Lemma attentive_dropping calls cf :
  Z.of_nat (length calls) < 2 ^ 16 → dropping (outsider calls) (session_pool calls) cf → attentive calls cf.
Proof using Type.
  intros Hlen. induction 1 as [|cf l cf' Hr IH Hl Hst]; [apply attentive_start|].
  eapply attentive_step; [done|by eapply within_reachable|done..].
Qed.

(** C8: No answer is lost: in a session of at most 65535 calls, as long as neither the
    reader nor a [close] is dropped (commands and listeners may be), a [send_command]
    that fails was refused by a closed session, could not encode or write its frame, or
    saw its timer expire; [ReaderExited], the loss of the waker, never happens. *)
Theorem no_answer_lost calls cf k ty pl t e :
  Z.of_nat (length calls) < 2 ^ 16 → dropping (outsider calls) (session_pool calls) cf →
  calls !! k = Some (CSend ty pl t) →
  tasks cf !! S k = Some (Ret (RepResponse (Err e))) →
  (e = TransportClosed "session closed" ∧ closed (shared cf) = true) ∨
  (∃ tag, 1 ≤ tag < 2 ^ 16 ∧ write_failure ty tag pl e) ∨ e = TimedOut (describe_cmd ty).
Proof using Type.
  intros Hlen Hr Hk Ht.
  assert (e ≠ ReaderExited) as Hne.
  { pose proof (attentive_dropping calls cf Hlen Hr _ _ Ht) as Ha. unfold attentive_task in Ha.
    simpl in Ha. rewrite Hk in Ha.
    destruct Ha as (ph & Hph & _). inversion Hph as [a Ha| | | | | | |]. intros ->. by apply Ha. }
  apply within_reachable in Hr.
  pose proof (finished_call _ _ _ _ _ Hr Hk Ht) as [_ Hs]. simpl in Hs. rewrite Hk in Hs.
  destruct Hs as [(? & ? & _)|(w & tag & _ & ? & [?|[?|?]])]; [left; by simplify_eq|eauto|done|auto].
Qed.
End pool.

(** A PING is dropped while it waits; the timer of the next one expires. *)
Definition one_dropped : list (label sessE Sess) :=
  runs 1 8 ++ [Cancel 1] ++ runs 2 8 ++ expires 2 ++ runs 2 2.

Lemma no_answer_lost_witness :
  let cf := after one_dropped (session_pool two_calls) in
  (TimedOut "GET_INFO" = TransportClosed "session closed" ∧ closed (shared cf) = true) ∨
  (∃ tag, 1 ≤ tag < 2 ^ 16 ∧ write_failure 2 tag [] (TimedOut "GET_INFO")) ∨
  TimedOut "GET_INFO" = TimedOut (describe_cmd 2).
Proof.
  apply (no_answer_lost two_calls (after one_dropped (session_pool two_calls)) 1 2 [] 2000
           (TimedOut "GET_INFO"));
    [done|by apply after_within|done|vm_compute; reflexivity].
Defined.

(** The condition is needed: [close] aborts the reader at whichever [await] it is.  Here
    it has taken the entry of a TX at its intermediate OK and waits for the lock to put it
    back: [close] finds an empty map, the entry is dropped with the reader, and the TX
    fails with [ReaderExited] instead of the notice of [close]. *)
Theorem abort_drops_waker :
  ∃ cf, reachable (session_pool [CSend TYPE_TX [x00] 2000; CClose]) cf ∧
    tasks cf !! 2%nat = Some (Ret RepDone) ∧ reader_aborted (shared cf) = true ∧
    tasks cf !! 1%nat = Some (Ret (RepResponse (Err ReaderExited))).
Proof.
  exists (after (runs 1 8 ++ runs 0 2 ++ reads [x80; x01] ++ runs 0 1 ++ runs 2 4 ++ [Cancel 0] ++ runs 1 2)
            (session_pool [CSend TYPE_TX [x00] 2000; CClose])).
  split_and!; [apply after_reachable|vm_compute; reflexivity..].
Qed.
