(* ===== verification/Discovery.v ===== *)
(** * USB device discovery ([src/discovery.rs])

    The choice of the serial port among those the operating system lists, and the
    polling loop that waits for one.  The listing ([tokio_serial]) and the timer are
    an interface, [SerialScan]; a port is seen through its name and USB ids. *)

From S2P Require Import Prelude Runtime Errors Protocol.
Local Open Scope Z_scope.

(** [tokio_serial::SerialPortInfo]: its [port_name], and the [vid] and [pid] when
    its [port_type] is [UsbPort]. *)
Class SerialPorts := {
  SerialPortInfo : Type;
  port_name : SerialPortInfo → string;
  usb_ids : SerialPortInfo → option (Z * Z);
}.

Section find.
Context `{SerialPorts}.

Definition USB_VID : Z := 4617.    (* 0x1209 *)
Definition USB_PID : Z := 22337.   (* 0x5741 *)

Definition BRIDGE_VID_PIDS : list (Z * Z) := [
  (4292, 60000);    (* 0x10C4, 0xEA60 *)
  (6790, 21972);    (* 0x1A86, 0x55D4 *)
  (6790, 29986);    (* 0x1A86, 0x7522 *)
  (6790, 29987);    (* 0x1A86, 0x7523 *)
  (1027, 24577)].   (* 0x0403, 0x6001 *)

(** Milliseconds. *)
Definition USB_SETTLE : Z := 300.
Definition POLL_INTERVAL : Z := 500.

Definition is_native (p : SerialPortInfo) : bool :=
  match usb_ids p with
  | Some (vid, pid) => (vid =? USB_VID) && (pid =? USB_PID)
  | None => false
  end.

Definition is_bridge (p : SerialPortInfo) : bool :=
  match usb_ids p with
  | Some ids => bool_decide (ids ∈ BRIDGE_VID_PIDS)
  | None => false
  end.

(** [find_port], given what [available_ports()] answered. *)
Definition find_port {X} (available : result (list SerialPortInfo) X) : option string :=
  match available with
  | Err _ => None
  | Ok ports =>
      match List.find is_native ports with
      | Some p => Some (port_name p)
      | None => port_name <$> List.find is_bridge ports
      end
  end.
End find.

(** ** The polling loop *)

Class SerialScan `{SerialPorts} (E : Type → Type) := {
  available_ports : prog E (result (list SerialPortInfo) io_error);
  sleep_ms : Z → prog E unit;
}.

Definition wait_body `{SerialScan E} (_ : unit) : prog E (unit + string) :=
  ports ← available_ports;
  match find_port ports with
  | Some port => sleep_ms USB_SETTLE ;; Ret (inr port)
  | None => sleep_ms POLL_INTERVAL ;; Ret (inl tt)
  end.

Definition wait_for_device `{SerialScan E} : prog E string := loop wait_body tt.

(** ** Properties *)

Section find_properties.
Context `{SerialPorts}.

(** [find_port] prefers a board with the native USB id wherever it is in the
    list; without one it takes the first known USB-UART bridge; it answers nothing
    exactly when no port is either. *)
Theorem find_port_prefers_native {X} ports :
  match @find_port _ X (Ok ports) with
  | Some name =>
      ∃ l p r, ports = l ++ p :: r ∧ port_name p = name ∧
        ((is_native p = true ∧ Forall (λ q, is_native q = false) l) ∨
         (is_bridge p = true ∧ Forall (λ q, is_bridge q = false) l ∧
          Forall (λ q, is_native q = false) ports))
  | None => Forall (λ q, is_native q = false ∧ is_bridge q = false) ports
  end.
Proof using Type.
  assert (∀ f : SerialPortInfo → bool, match List.find f ports with
    | Some p => ∃ l r, ports = l ++ p :: r ∧ f p = true ∧ Forall (λ q, f q = false) l
    | None => Forall (λ q, f q = false) ports end) as Hfind.
  { intros f. induction ports as [|q ports IH]; simpl; [constructor|].
    destruct (f q) eqn:Hq; [by exists [], ports; repeat constructor|].
    destruct (List.find f ports) as [p|].
    - destruct IH as (l & r & -> & ? & ?). exists (q :: l), r. by repeat constructor.
    - by constructor. }
  simpl. pose proof (Hfind is_native) as Hn. pose proof (Hfind is_bridge) as Hb.
  destruct (List.find is_native ports) as [p|].
  - destruct Hn as (l & r & -> & ? & ?). exists l, p, r. split_and!; [done..|]. by left.
  - destruct (List.find is_bridge ports) as [p|]; simpl.
    + destruct Hb as (l & r & Heq & ? & ?). exists l, p, r. split_and!; [done..|]. by right.
    + apply Forall_forall. intros q Hq. rewrite Forall_forall in Hn, Hb. auto.
Qed.
End find_properties.

Section wait.
Context `{SerialScan E} {St : Type} (h : ∀ X, E X → St → option (X * St)).
(** A machine whose ports change with time. *)
Context (now : St → Z) (at_time : Z → St → St).
Context (ports : Z → result (list SerialPortInfo) io_error).
Hypothesis now_at : ∀ t s, now (at_time t s) = t.
Hypothesis at_at : ∀ t t' s, at_time t (at_time t' s) = at_time t s.
Hypothesis scan_ok : ∀ n s, eval h n available_ports s = Done (ports (now s)) s.
Hypothesis sleep_ok : ∀ n ms s, eval h n (sleep_ms ms) s = Done tt (at_time (now s + ms) s).

Lemma eval_wait_body n s :
  eval h n (wait_body tt) s =
  match find_port (ports (now s)) with
  | Some port => Done (inr port) (at_time (now s + USB_SETTLE) s)
  | None => Done (inl tt) (at_time (now s + POLL_INTERVAL) s)
  end.
Proof using scan_ok sleep_ok.
  unfold wait_body. rewrite eval_bind, scan_ok. cbn [outcome_bind].
  destruct (find_port _); by rewrite eval_bind, sleep_ok.
Qed.

Lemma wait_iterate n m k s :
  (∀ j : nat, (j < k)%nat → find_port (ports (now s + POLL_INTERVAL * Z.of_nat j)) = None) →
  iterate (λ l, eval h n (wait_body l)) (S k + m) tt s =
  match find_port (ports (now s + POLL_INTERVAL * Z.of_nat k)) with
  | Some port => Done port (at_time (now s + POLL_INTERVAL * Z.of_nat k + USB_SETTLE) s)
  | None => iterate (λ l, eval h n (wait_body l)) m tt
              (at_time (now s + POLL_INTERVAL * Z.of_nat k + POLL_INTERVAL) s)
  end.
Proof using now_at at_at scan_ok sleep_ok.
  revert s. induction k as [|k IH]; intros s Hk; cbn [Nat.add iterate]; rewrite eval_wait_body.
  - replace (now s + POLL_INTERVAL * Z.of_nat 0) with (now s) by lia.
    by destruct (find_port (ports (now s))).
  - assert (find_port (ports (now s)) = None) as ->.
    { rewrite <- (Hk O) by lia. do 2 f_equal. lia. }
    specialize (IH (at_time (now s + POLL_INTERVAL) s)). rewrite now_at, !at_at in IH.
    replace (now s + POLL_INTERVAL + POLL_INTERVAL * Z.of_nat k)
      with (now s + POLL_INTERVAL * Z.of_nat (S k)) in IH by lia.
    cbn [outcome_bind]. apply IH.
    intros j Hj. rewrite <- (Hk (S j)) by lia. do 2 f_equal. lia.
Qed.

(** [wait_for_device] polls every 500 ms and returns the port of the first poll
    that finds one, 300 ms after it: with the device found at poll [k] it is back
    after exactly [500 * k + 300] ms. *)
Theorem wait_for_device_returns fuel k port s :
  (∀ j : nat, (j < k)%nat → find_port (ports (now s + POLL_INTERVAL * Z.of_nat j)) = None) →
  find_port (ports (now s + POLL_INTERVAL * Z.of_nat k)) = Some port →
  (k < fuel)%nat →
  eval h fuel wait_for_device s =
  Done port (at_time (now s + POLL_INTERVAL * Z.of_nat k + USB_SETTLE) s).
Proof using now_at at_at scan_ok sleep_ok.
  intros Hk Hp Hf. unfold wait_for_device, loop. cbn [eval].
  generalize fuel at 1. intros n. replace fuel with (S k + (fuel - S k))%nat by lia.
  by rewrite wait_iterate, Hp.
Qed.
End wait.
