(* ===== verification/Endpoint.v ===== *)
(** * Endpoints and labels ([src/connect.rs], [src/dongle.rs])

    The TCP endpoint syntax of [DONGLORA_MUX_TCP], the places a mux socket may be,
    and [TransportKind] with its label.  Strings are the bytes of their UTF-8
    encoding; every character the code looks for is ASCII. *)

From S2P Require Import Prelude Runtime Errors Protocol.
Local Open Scope Z_scope.

(** ** Rust's string functions *)

(** [s.rsplit_once(c)]. *)
Fixpoint rsplit_once (c : ascii) (s : string) : option (string * string) :=
  match s with
  | EmptyString => None
  | String a s =>
      match rsplit_once c s with
      | Some (l, r) => Some (String a l, r)
      | None => if Ascii.eqb a c then Some (EmptyString, s) else None
      end
  end.

Definition digit_value (c : ascii) : option Z :=
  let n := Z.of_nat (nat_of_ascii c) in
  if (48 <=? n) && (n <=? 57) then Some (n - 48) else None.

(** The digits of an unsigned [w]-bit number, with checked arithmetic. *)
Fixpoint parse_digits (w acc : Z) (s : string) : option Z :=
  match s with
  | EmptyString => Some acc
  | String c s =>
      match digit_value c with
      | Some d =>
          let acc' := acc * 10 + d in
          if acc' <? 2 ^ w then parse_digits w acc' s else None
      | None => None
      end
  end.

(** [s.parse::<u16>()]: one leading [+] is allowed, and there must be a digit. *)
Definition parse_u16 (s : string) : option Z :=
  match s with
  | EmptyString => None
  | String c t =>
      if Ascii.eqb c "+" then match t with EmptyString => None | _ => parse_digits 16 0 t end
      else parse_digits 16 0 s
  end.

(** ** TCP endpoints *)

Definition parse_tcp_endpoint (addr : string) : option (string * Z) :=
  match rsplit_once ":" addr with
  | Some (h, p) =>
      let host := if String.eqb h "" then "localhost"%string else h in
      port ← parse_u16 p; Some (host, port)
  | None => port ← parse_u16 addr; Some ("localhost"%string, port)
  end.

(** [format!("{host}:{port}")] *)
Definition format_endpoint (host : string) (port : Z) : string :=
  host +:+ ":" +:+ show_z port.

(** ** The mux socket *)

Section socket.
(** [std::env::var(..).ok()] and [Path::new(..).exists()]. *)
Context (env_var : string → option string) (exists_ : string → bool).

Definition fallback_socket : string := "/tmp/donglora-mux.sock".

Definition default_socket_path : string :=
  match env_var "DONGLORA_MUX" with
  | Some env => env
  | None =>
      match env_var "XDG_RUNTIME_DIR" with
      | Some xdg => xdg +:+ "/donglora/mux.sock"
      | None => fallback_socket
      end
  end.

Definition find_mux_socket : option string :=
  match env_var "DONGLORA_MUX" with
  | Some env => if exists_ env then Some env else None
  | None =>
      let tmp := if exists_ fallback_socket then Some fallback_socket else None in
      match env_var "XDG_RUNTIME_DIR" with
      | Some xdg =>
          let p := xdg +:+ "/donglora/mux.sock" in
          if exists_ p then Some p else tmp
      | None => tmp
      end
  end.
End socket.

(** ** [TransportKind] *)

Inductive TransportKind :=
| Serial (path : string)
| MuxUnix (path : string)
| MuxTcp (endpoint : string).

#[export] Instance TransportKind_eq_dec : EqDecision TransportKind.
Proof. solve_decision. Defined.

(** The pieces of a path between slashes. *)
Fixpoint split_slash (s : string) : list string :=
  match s with
  | EmptyString => [""%string]
  | String a s =>
      if Ascii.eqb a "/" then ""%string :: split_slash s
      else match split_slash s with
           | w :: ws => String a w :: ws
           | [] => [String a EmptyString]
           end
  end.

(** [Path::file_name] on Unix: the last component, empty pieces and [.] not being
    components, unless it is [..]. *)
Definition file_name (path : string) : option string :=
  match last (List.filter (λ w, negb (String.eqb w "" || String.eqb w ".")) (split_slash path)) with
  | Some w => if String.eqb w ".." then None else Some w
  | None => None
  end.

Definition short_label (k : TransportKind) : string :=
  match k with
  | Serial p => default p (file_name p)
  | MuxUnix _ => "mux:unix"
  | MuxTcp _ => "mux:tcp"
  end.

Definition is_mux (k : TransportKind) : bool :=
  match k with MuxUnix _ | MuxTcp _ => true | Serial _ => false end.

(** ** Lemmas *)

Lemma rsplit_once_none c s : rsplit_once c s = None ↔ c ∉ list_ascii_of_string s.
Proof.
  induction s as [|a s IH]; simpl.
  - split; [intros _ Hn; by apply elem_of_nil in Hn|done].
  - destruct (rsplit_once c s) as [[l r]|].
    + split; [done|]. intros Hn. exfalso. destruct IH as [_ IH].
      enough (Some (l, r) = None) by done. apply IH. intros Hin. apply Hn. by right.
    + destruct (Ascii.eqb_spec a c) as [->|Hne].
      * split; [done|]. intros Hn. exfalso. apply Hn. by left.
      * split; [|done]. intros _ [->|Hin]%elem_of_cons; [done|]. by apply (proj1 IH).
Qed.

Lemma rsplit_once_app c h p :
  c ∉ list_ascii_of_string p → rsplit_once c (h +:+ String c p) = Some (h, p).
Proof.
  intros Hp. induction h as [|a h IH]; simpl.
  - rewrite (proj2 (rsplit_once_none c p) Hp). by rewrite Ascii.eqb_refl.
  - by rewrite IH.
Qed.

Lemma parse_digits_range w acc s n :
  0 ≤ acc < 2 ^ w → parse_digits w acc s = Some n → 0 ≤ n < 2 ^ w.
Proof.
  revert acc. induction s as [|c s IH]; intros acc Hacc; simpl; [by intros [= <-]|].
  unfold digit_value. destruct ((48 <=? _) && _) eqn:Hd; [|done].
  destruct (Z.ltb_spec (acc * 10 + (Z.of_nat (nat_of_ascii c) - 48)) (2 ^ w)); [|done].
  apply IH. lia.
Qed.

Lemma digit_char (d : N) :
  (d < 10)%N → digit_value (pretty_N_char d) = Some (Z.of_N d) ∧
  pretty_N_char d ≠ ":"%char ∧ pretty_N_char d ≠ "+"%char.
Proof.
  intros Hd.
  assert (d = 0 ∨ d = 1 ∨ d = 2 ∨ d = 3 ∨ d = 4 ∨ d = 5 ∨ d = 6 ∨ d = 7 ∨ d = 8 ∨ d = 9)%N as Hc
    by lia.
  by repeat destruct Hc as [->|Hc]; [..|subst].
Qed.

(** Reading back the decimal digits of [x]. *)
Lemma parse_pretty_go w (x : N) s :
  Z.of_N x < 2 ^ w → (0 < x)%N →
  parse_digits w 0 (pretty_N_go x s) = parse_digits w (Z.of_N x) s.
Proof.
  revert s. induction (N.lt_wf_0 x) as [x _ IH]. intros s Hx H0.
  rewrite pretty_N_go_step by done.
  pose proof (N.div_mod x 10 ltac:(done)). pose proof (N.mod_lt x 10 ltac:(done)).
  destruct (digit_char (x `mod` 10)) as (Hd & _ & _); [lia|].
  assert (Z.of_N (x `div` 10) * 10 + Z.of_N (x `mod` 10) = Z.of_N x) as Hxv by lia.
  destruct (decide (x `div` 10 = 0)%N) as [Hz|Hnz].
  - rewrite Hz, pretty_N_go_0. simpl. rewrite Hd.
    rewrite Hz in Hxv. replace (0 * 10 + Z.of_N (x `mod` 10)) with (Z.of_N x) by lia.
    by rewrite (proj2 (Z.ltb_lt _ _) Hx).
  - assert (x `div` 10 < x)%N as Hlt by (apply N.div_lt; lia).
    rewrite IH; [|done|lia|lia]. simpl. rewrite Hd, Hxv.
    by rewrite (proj2 (Z.ltb_lt _ _) Hx).
Qed.

Lemma pretty_go_chars (x : N) s c :
  c ∈ list_ascii_of_string (pretty_N_go x s) →
  c ∈ list_ascii_of_string s ∨ (c ≠ ":"%char ∧ c ≠ "+"%char).
Proof.
  revert s. induction (N.lt_wf_0 x) as [x _ IH]. intros s.
  destruct (decide (x = 0)%N) as [->|Hx].
  - rewrite pretty_N_go_0. by left.
  - rewrite pretty_N_go_step by lia. intros [Hc|Hc]%IH; [|by right|apply N.div_lt; lia].
    simpl in Hc. apply elem_of_cons in Hc as [->|]; [|by left]. right.
    pose proof (N.mod_lt x 10 ltac:(done)). by apply digit_char; lia.
Qed.

Lemma show_z_chars p c :
  0 ≤ p → c ∈ list_ascii_of_string (show_z p) → c ≠ ":"%char ∧ c ≠ "+"%char.
Proof.
  intros Hp. destruct p as [|p|p]; [|..|lia].
  - change (show_z 0) with "0"%string. simpl. by intros ->%list_elem_of_singleton.
  - change (show_z (Zpos p)) with (pretty_N_go (Npos p) ""). intros [Hc|]%pretty_go_chars; [by apply elem_of_nil in Hc|done].
Qed.

Lemma parse_u16_show p : 0 ≤ p < 2 ^ 16 → parse_u16 (show_z p) = Some p.
Proof.
  intros Hp. destruct p as [|p|p]; [done| |lia].
  assert (show_z (Zpos p) = pretty_N_go (Npos p) "") as Hs by done.
  assert (parse_digits 16 0 (show_z (Zpos p)) = Some (Zpos p)) as Hparse.
  { rewrite Hs, parse_pretty_go by lia. done. }
  pose proof (show_z_chars (Zpos p)) as Hch.
  destruct (show_z (Zpos p)) as [|c s] eqn:E; [done|]. unfold parse_u16.
  destruct (Ascii.eqb_spec c "+"); [|done]. subst. by destruct (Hch "+"%char); [lia|left|].
Qed.

(** ** Properties *)

(** C28: Endpoints round-trip: what [connect] records as the transport's endpoint,
    "host:port", parses back to the same host and port, for every non-empty host
    (one with colons too, as in "[::1]") and every port; an empty host or a bare
    port means localhost. *)
Theorem tcp_endpoint_roundtrip host port :
  0 ≤ port < 2 ^ 16 →
  parse_tcp_endpoint (format_endpoint host port) =
    Some (if String.eqb host "" then "localhost"%string else host, port) ∧
  parse_tcp_endpoint (show_z port) = Some ("localhost"%string, port).
Proof.
  intros Hp. assert (":"%char ∉ list_ascii_of_string (show_z port)) as Hn.
  { intros Hin. by destruct (show_z_chars port ":"%char); [lia|..]. }
  unfold parse_tcp_endpoint, format_endpoint.
  change (":" +:+ show_z port) with (String ":" (show_z port)). split.
  - by rewrite rsplit_once_app, parse_u16_show.
  - by rewrite (proj2 (rsplit_once_none _ _) Hn), parse_u16_show.
Qed.

Lemma tcp_endpoint_roundtrip_witness :
  parse_tcp_endpoint (format_endpoint "[::1]" 5741) = Some ("[::1]"%string, 5741) ∧
  parse_tcp_endpoint (show_z 5741) = Some ("localhost"%string, 5741).
Proof. apply (tcp_endpoint_roundtrip "[::1]" 5741). lia. Defined.

(** Every endpoint that parses has a non-empty host and a 16-bit port: larger
    ports, signs other than one plus, and empty ports are rejected. *)
Theorem tcp_endpoint_valid addr host port :
  parse_tcp_endpoint addr = Some (host, port) → host ≠ ""%string ∧ 0 ≤ port < 2 ^ 16.
Proof.
  assert (∀ s n, parse_u16 s = Some n → 0 ≤ n < 2 ^ 16) as Hr.
  { intros [|c s] n; [done|]. unfold parse_u16. destruct (Ascii.eqb c "+").
    - destruct s; [done|]. apply parse_digits_range. lia.
    - apply parse_digits_range. lia. }
  unfold parse_tcp_endpoint. destruct (rsplit_once ":" addr) as [[h p]|].
  - destruct (parse_u16 p) as [n|] eqn:Hn; [|done]. intros [= <- <-]. split; [|by eapply Hr].
    by destruct (String.eqb_spec h "").
  - destruct (parse_u16 addr) as [n|] eqn:Hn; [|done]. intros [= <- <-]. split; [done|by eapply Hr].
Qed.

Lemma tcp_endpoint_valid_witness : "localhost"%string ≠ ""%string ∧ 0 ≤ 99 < 2 ^ 16.
Proof. apply (tcp_endpoint_valid ":+99"). reflexivity. Defined.

(** [find_mux_socket] answers only sockets that exist; its answer is
    [default_socket_path] or, when [DONGLORA_MUX] is not set and the socket under
    [XDG_RUNTIME_DIR] does not exist, the one in /tmp; and whenever the default
    path exists, it is the answer. *)
Theorem find_mux_socket_spec env_var exists_ :
  match find_mux_socket env_var exists_ with
  | Some p => exists_ p = true ∧
      (p = default_socket_path env_var ∨
       (p = fallback_socket ∧ env_var "DONGLORA_MUX" = None ∧
        exists_ (default_socket_path env_var) = false))
  | None => exists_ (default_socket_path env_var) = false
  end.
Proof.
  unfold find_mux_socket, default_socket_path. repeat case_match; simplify_eq; auto.
Qed.

Lemma split_slash_app d name :
  "/"%char ∉ list_ascii_of_string name →
  ∃ w ws, split_slash (d +:+ String "/" name) = w :: ws ++ [name].
Proof.
  intros Hn. assert (split_slash name = [name]) as Hname.
  { induction name as [|a s IH]; [done|]. cbn [split_slash]. simpl in Hn.
    apply not_elem_of_cons in Hn as [Ha Hs]. rewrite IH by done.
    destruct (Ascii.eqb_spec a "/"); [by subst|done]. }
  induction d as [|a d (w & ws & IH)]; simpl.
  - exists ""%string, []. by rewrite Hname.
  - rewrite IH. destruct (Ascii.eqb a "/").
    + by exists ""%string, (w :: ws).
    + by exists (String a w), ws.
Qed.

(** The label of a serial port is its file name: for a path "dir/name" it is
    "name", whatever the directory. *)
Theorem serial_label_is_file_name d name :
  "/"%char ∉ list_ascii_of_string name →
  name ≠ ""%string → name ≠ "."%string → name ≠ ".."%string →
  short_label (Serial (d +:+ "/" +:+ name)) = name.
Proof.
  intros Hn H0 H1 H2. unfold short_label, file_name.
  change ("/" +:+ name) with (String "/" name).
  destruct (split_slash_app d name Hn) as (w & ws & ->).
  rewrite app_comm_cons, List.filter_app. simpl List.filter at 2.
  rewrite (proj2 (String.eqb_neq _ _) H0), (proj2 (String.eqb_neq _ _) H1). simpl.
  by rewrite last_snoc, (proj2 (String.eqb_neq _ _) H2).
Qed.

Lemma serial_label_is_file_name_witness : short_label (Serial "/dev/ttyACM0") = "ttyACM0"%string.
Proof.
  apply (serial_label_is_file_name "/dev" "ttyACM0"); [|done..].
  apply (bool_decide_unpack _). vm_compute. done.
Defined.
