(* ===== verification/Dongle.v ===== *)
(** * The dongle ([src/dongle.rs])

    The operations of [Dongle] over the session's interface: open check, write
    timestamps, automatic recovery of the radio configuration, transmit retries,
    lazy start of reception, the keepalive task, and [close].  A command of the
    session is one effect here ([SendCommand]), its method's result one step; the
    mutex-protected cells of [Inner] are the fields of [Dng].

    Durations and instants are in milliseconds. *)

From S2P Require Import Prelude Runtime Errors Protocol Retry Session.
Local Open Scope Z_scope.

(** ** State and effects *)

Section data.
Context `{WireTypes}.

Record Dng := {
  d_now : Z;                              (** [Instant::now()] *)
  d_closed : bool;
  applied_config : option Modulation;
  rx_started : bool;
  rx_locked : bool;                       (** [rx_started]'s mutex is held *)
  last_write_at : Z;
  keepalive_handle : bool;                (** the handle is still in its slot *)
  keepalive_aborted : bool;
  session_closed : bool;
  sent : list (Z * list byte);            (** the commands sent, oldest first *)
  waits : list Z;                         (** the sleeps, oldest first *)
  async_errors : list ClientError;        (** the session's queue of them *)
}.

Inductive dongE : Type → Type :=
| DSend (type_id : Z) (payload : list byte) (timeout : Z) : dongE (ClientResult SessionResponse)
| DRecvRx (timeout : option Z) : dongE (option RxPayload)
| DSessionDrain : dongE (list ClientError)
| DSessionClose : dongE unit
| DClosed : dongE bool
| DSwapClosed : dongE bool                (** lock, read, set, unlock *)
| DConfig : dongE (option Modulation)
| DSetConfig (m : Modulation) : dongE unit
| DRxStarted : dongE bool                 (** lock, read, unlock *)
| DSetRxStarted (b : bool) : dongE unit   (** lock, write, unlock *)
| DLockRx : dongE bool                    (** lock, read, keep the guard *)
| DWriteRx (b : bool) : dongE unit        (** write through the guard *)
| DUnlockRx : dongE unit                  (** drop the guard *)
| DLastWrite : dongE Z
| DMarkWrite : dongE unit
| DNow : dongE Z
| DSleep (ms : Z) : dongE unit
| DRandom (hi : Z) : dongE Z
| DUpgrade : dongE bool                   (** [weak.upgrade()] is some *)
| DTakeKeepalive : dongE bool
| DAbortKeepalive : dongE unit.

#[export] Instance dong_send : SendCommand dongE :=
  λ ty pl t, trigger (DSend ty pl t).
#[export] Instance dong_random : Random dongE := λ hi, trigger (DRandom hi).
End data.

(** ** Operations *)

Section dongle.
Context `{Wire}.
(** [{other:?}] of a session response. *)
Variable response_debug : SessionResponse → string.

Definition KEEPALIVE_INTERVAL : Z := 500.

Definition check_open : prog dongE (ClientResult unit) :=
  c ← trigger DClosed;
  Ret (if (c : bool) then Err (TransportClosed "dongle closed") else Ok tt).

Definition mark_write : prog dongE unit := trigger DMarkWrite.

Definition reapply_config : prog dongE (ClientResult unit) :=
  cfg ← trigger DConfig;
  cfg ←? Ret (ok_or cfg NotConfigured);
  result ←? set_config response_debug cfg 2000;
  trigger (DSetConfig (sc_current result)) ;;
  Ret (Ok tt).

Definition recover_and_retry_tx (data : list byte) (skip_cad : bool) (timeout : Z) :
    prog dongE (ClientResult TxDonePayload) :=
  do? reapply_config;
  transmit response_debug data skip_cad timeout.

Definition tx_with_timeout (data : list byte) (skip_cad : bool) (timeout : Z) :
    prog dongE (ClientResult TxDonePayload) :=
  do? check_open;
  mark_write ;;
  r ← transmit response_debug data skip_cad timeout;
  match r with
  | Err NotConfigured => recover_and_retry_tx data skip_cad timeout
  | other => Ret other
  end.

Definition tx (data : list byte) : prog dongE (ClientResult TxDonePayload) :=
  tx_with_timeout data false 10000.

(** One iteration of the attempts loop; the state is the attempt number, the
    delay floor and the attempts so far. *)
Definition retry_body (data : list byte) (policy : RetryPolicy)
    (st : Z * Z * list TxAttempt) :
    prog dongE ((Z * Z * list TxAttempt) + ClientResult TxOutcome) :=
  let '(attempt_num, delay_ms, attempts) := st in
  if max_attempts policy <? attempt_num then
    Ret (inr (Err (Other "tx_with_retry exited without result")))
  else
    mark_write ;;
    started ← trigger DNow;
    result ← transmit response_debug data (skip_cad policy) (per_attempt_timeout policy);
    ended ← trigger DNow;
    let elapsed := ended - started in
    match result with
    | Ok td =>
        Ret (inr (Ok {|
          final_airtime_us := airtime_us td;
          attempts := attempts ++
            [{| attempt := attempt_num; att_result := Ok td; elapsed := elapsed |}] |}))
    | Err e =>
        let attempts := attempts ++
          [{| attempt := attempt_num; att_result := Err (clone_kind e); elapsed := elapsed |}] in
        if negb (is_retryable e) || (attempt_num =? max_attempts policy) then Ret (inr (Err e))
        else
          jitter ← jitter_ms policy;
          trigger (DSleep (delay_ms + jitter)) ;;
          Ret (inl (attempt_num + 1, next_delay_ms policy delay_ms, attempts))
    end.

Definition tx_with_retry (data : list byte) (policy : RetryPolicy) :
    prog dongE (ClientResult TxOutcome) :=
  do? check_open;
  loop (retry_body data policy) (1, backoff_ms_min policy, []).

Definition rx_start : prog dongE (ClientResult unit) :=
  do? check_open;
  mark_write ;;
  started ← trigger DLockRx;
  if (started : bool) then trigger DUnlockRx ;; Ret (Ok tt)
  else
    r ← Session.rx_start response_debug 2000;
    match r with
    | Err NotConfigured =>
        trigger DUnlockRx ;;
        do? reapply_config;
        do? Session.rx_start response_debug 2000;
        trigger (DSetRxStarted true) ;;
        Ret (Ok tt)
    | Err e => trigger DUnlockRx ;; Ret (Err e)
    | Ok _ => trigger (DWriteRx true) ;; trigger DUnlockRx ;; Ret (Ok tt)
    end.

Definition rx_stop : prog dongE (ClientResult unit) :=
  do? check_open;
  mark_write ;;
  do? Session.rx_stop response_debug 2000;
  trigger (DSetRxStarted false) ;;
  Ret (Ok tt).

(** [recv] is [recv_with (Some timeout)], [next_rx] is [recv_with None]: they
    differ in the session call at the end. *)
Definition recv_with (timeout : option Z) : prog dongE (option RxPayload) :=
  o ← check_open;
  if is_err o then Ret None
  else
    started ← trigger DRxStarted;
    failed ← (if (started : bool) then Ret false
              else r ← rx_start; Ret (is_err r));
    if (failed : bool) then Ret None
    else trigger (DRecvRx timeout).

Definition recv (timeout : Z) : prog dongE (option RxPayload) := recv_with (Some timeout).
Definition next_rx : prog dongE (option RxPayload) := recv_with None.

Definition set_config (modulation : Modulation) : prog dongE (ClientResult unit) :=
  do? check_open;
  mark_write ;;
  result ←? Session.set_config response_debug modulation 2000;
  trigger (DSetConfig (sc_current result)) ;;
  trigger (DSetRxStarted false) ;;
  Ret (Ok tt).

Definition ping : prog dongE (ClientResult unit) :=
  do? check_open;
  mark_write ;;
  Session.ping response_debug 2000.

Definition config : prog dongE (option Modulation) := trigger DConfig.

Definition drain_async_errors : prog dongE (list ClientError) := trigger DSessionDrain.

Definition abort_keepalive : prog dongE unit :=
  h ← trigger DTakeKeepalive;
  if (h : bool) then trigger DAbortKeepalive else Ret tt.

Definition close : prog dongE unit :=
  was ← trigger DSwapClosed;
  if (was : bool) then Ret tt
  else abort_keepalive ;; trigger DSessionClose.

(** [impl Drop for Dongle]. *)
Definition drop_dongle : prog dongE unit := abort_keepalive.

(** One iteration of the keepalive task. *)
Definition keepalive_body (_ : unit) : prog dongE (unit + unit) :=
  trigger (DSleep KEEPALIVE_INTERVAL) ;;
  alive ← trigger DUpgrade;
  if negb alive then Ret (inr tt)
  else
    c ← trigger DClosed;
    if (c : bool) then Ret (inr tt)
    else
      last ← trigger DLastWrite;
      now ← trigger DNow;
      if now - last <? KEEPALIVE_INTERVAL then Ret (inl tt)
      else
        r ← Session.ping response_debug 2000;
        match r with
        | Ok _ => trigger DMarkWrite ;; Ret (inl tt)
        | Err NotConfigured =>
            cfg ← trigger DConfig;
            match cfg with
            | Some m =>
                r ← Session.set_config response_debug m 2000;
                match r with
                | Ok _ => trigger DMarkWrite ;; Ret (inl tt)
                | Err _ => Ret (inl tt)
                end
            | None => Ret (inl tt)
            end
        | Err _ => Ret (inl tt)
        end.

Definition keepalive_task : prog dongE unit := loop keepalive_body tt.

(** What [Dongle::new] starts from. *)
Definition new_dongle (applied : option Modulation) (keepalive : bool) (now : Z) : Dng := {|
  d_now := now; d_closed := false; applied_config := applied; rx_started := false;
  rx_locked := false; last_write_at := now; keepalive_handle := keepalive;
  keepalive_aborted := false; session_closed := false; sent := []; waits := [];
  async_errors := [] |}.
End dongle.

(** ** A dongle and its surroundings

    The device answers a command from the history of commands; the other callers
    of the dongle appear as the instants of their last writes. *)

Section env.
Context `{Wire}.

Record Env := {
  device : list (Z * list byte) → Z → list byte → ClientResult SessionResponse;
  latency : list (Z * list byte) → Z;
  draw : list Z → Z → Z;                  (** the random source *)
  air : Z → option RxPayload;             (** what [recv_rx] gives at an instant *)
  alive : Z → bool;                       (** whether a [Dongle] still exists *)
  host_write : Z → Z;                     (** the last other write up to an instant *)
}.
Variable env : Env.

Definition dng_sent (cmd : Z * list byte) (s : Dng) : Dng := {|
  d_now := d_now s + latency env (sent s); d_closed := d_closed s;
  applied_config := applied_config s; rx_started := rx_started s; rx_locked := rx_locked s;
  last_write_at := last_write_at s; keepalive_handle := keepalive_handle s;
  keepalive_aborted := keepalive_aborted s; session_closed := session_closed s;
  sent := sent s ++ [cmd]; waits := waits s; async_errors := async_errors s |}.

Definition dng_cells (c : bool) (cfg : option Modulation) (rx lk : bool) (w : Z) (s : Dng) :
    Dng := {|
  d_now := d_now s; d_closed := c; applied_config := cfg; rx_started := rx; rx_locked := lk;
  last_write_at := w; keepalive_handle := keepalive_handle s;
  keepalive_aborted := keepalive_aborted s; session_closed := session_closed s;
  sent := sent s; waits := waits s; async_errors := async_errors s |}.

Definition dng_wait (ms : Z) (s : Dng) : Dng := {|
  d_now := d_now s + ms; d_closed := d_closed s; applied_config := applied_config s;
  rx_started := rx_started s; rx_locked := rx_locked s; last_write_at := last_write_at s;
  keepalive_handle := keepalive_handle s; keepalive_aborted := keepalive_aborted s;
  session_closed := session_closed s; sent := sent s; waits := waits s ++ [ms];
  async_errors := async_errors s |}.

Definition dng_tasks (kh ka sc : bool) (s : Dng) : Dng := {|
  d_now := d_now s; d_closed := d_closed s; applied_config := applied_config s;
  rx_started := rx_started s; rx_locked := rx_locked s; last_write_at := last_write_at s;
  keepalive_handle := kh; keepalive_aborted := ka; session_closed := sc;
  sent := sent s; waits := waits s; async_errors := async_errors s |}.

Definition dng_drained (s : Dng) : Dng := {|
  d_now := d_now s; d_closed := d_closed s; applied_config := applied_config s;
  rx_started := rx_started s; rx_locked := rx_locked s; last_write_at := last_write_at s;
  keepalive_handle := keepalive_handle s; keepalive_aborted := keepalive_aborted s;
  session_closed := session_closed s; sent := sent s; waits := waits s; async_errors := [] |}.

Definition dng_config (m : Modulation) (s : Dng) : Dng :=
  dng_cells (d_closed s) (Some m) (rx_started s) (rx_locked s) (last_write_at s) s.
Definition dng_rx (b lk : bool) (s : Dng) : Dng :=
  dng_cells (d_closed s) (applied_config s) b lk (last_write_at s) s.
Definition dng_mark (s : Dng) : Dng :=
  dng_cells (d_closed s) (applied_config s) (rx_started s) (rx_locked s) (d_now s) s.

Definition dng_do (X : Type) (e : dongE X) (s : Dng) : option (X * Dng) :=
  match e in dongE X return option (X * Dng) with
  | DSend ty pl _ =>
      if session_closed s then Some (Err (TransportClosed "session closed"), s)
      else Some (device env (sent s) ty pl, dng_sent (ty, pl) s)
  | DRecvRx _ => Some (air env (d_now s), s)
  | DSessionDrain => Some (async_errors s, dng_drained s)
  | DSessionClose => Some (tt, dng_tasks (keepalive_handle s) (keepalive_aborted s) true s)
  | DClosed => Some (d_closed s, s)
  | DSwapClosed => Some (d_closed s,
      dng_cells true (applied_config s) (rx_started s) (rx_locked s) (last_write_at s) s)
  | DConfig => Some (applied_config s, s)
  | DSetConfig m => Some (tt, dng_config m s)
  | DRxStarted => if rx_locked s then None else Some (rx_started s, s)
  | DSetRxStarted b => if rx_locked s then None else Some (tt, dng_rx b false s)
  | DLockRx => if rx_locked s then None else Some (rx_started s, dng_rx (rx_started s) true s)
  | DWriteRx b => Some (tt, dng_rx b (rx_locked s) s)
  | DUnlockRx => Some (tt, dng_rx (rx_started s) false s)
  | DLastWrite => Some (Z.max (last_write_at s) (host_write env (d_now s)), s)
  | DMarkWrite => Some (tt, dng_mark s)
  | DNow => Some (d_now s, s)
  | DSleep ms => Some (tt, dng_wait ms s)
  | DRandom hi => Some (draw env (waits s) hi, s)
  | DUpgrade => Some (alive env (d_now s), s)
  | DTakeKeepalive => Some (keepalive_handle s,
      dng_tasks false (keepalive_aborted s) (session_closed s) s)
  | DAbortKeepalive => Some (tt, dng_tasks (keepalive_handle s) true (session_closed s) s)
  end.
End env.

(** ** Results of the session's helpers *)

Section results.
Context `{Wire} (env : Env) (response_debug : SessionResponse → string).

(** What [transmit] makes of the answer to its TX. *)
Definition tx_answer (r : ClientResult SessionResponse) : ClientResult TxDonePayload :=
  match r with
  | Ok (RTxDone td) =>
      match td_result td with
      | Transmitted => Ok td
      | TxChannelBusy => Err ChannelBusy
      | TxCancelled => Err Cancelled
      end
  | Ok (RErr e) => Err e
  | Ok other => unexpected response_debug "TX" other
  | Err e => Err e
  end.

Definition fits (data : list byte) : Prop :=
  data ≠ [] ∧ (1 + length data ≤ MAX_PAYLOAD_FIELD)%nat.

Definition tx_command (skip : bool) (data : list byte) : Z * list byte :=
  (TYPE_TX, tx_flags_as_byte skip :: data).

Definition answer (s : Dng) (cmd : Z * list byte) : ClientResult SessionResponse :=
  device env (sent s) cmd.1 cmd.2.

Lemma eval_transmit n data skip t s :
  fits data → session_closed s = false →
  eval (dng_do env) n (transmit response_debug data skip t) s =
  Done (tx_answer (answer s (tx_command skip data))) (dng_sent env (tx_command skip data) s).
Proof using Type.
  intros [Hne Hlen] Hs. unfold transmit. destruct data as [|b data]; [done|].
  rewrite (proj2 (Nat.leb_le _ _) Hlen). simpl. rewrite Hs. unfold answer, tx_command. simpl.
  by destruct (device _ _ _ _) as [[]|].
Qed.

(** What [set_config] makes of the answer to SET_CONFIG. *)
Definition config_answer (r : ClientResult SessionResponse) : ClientResult SetConfigResult :=
  match r with
  | Ok (RSetConfig c) => Ok c
  | Ok (RErr e) => Err e
  | Ok other => unexpected response_debug "SET_CONFIG" other
  | Err e => Err e
  end.

Definition empty_answer (cmd : string) (r : ClientResult SessionResponse) : ClientResult unit :=
  match r with
  | Ok REmpty => Ok tt
  | Ok (RErr e) => Err e
  | Ok other => unexpected response_debug cmd other
  | Err e => Err e
  end.

Lemma eval_set_config n m t pl s :
  encode_set_config m = Ok pl → session_closed s = false →
  eval (dng_do env) n (Session.set_config response_debug m t) s =
  Done (config_answer (answer s (TYPE_SET_CONFIG, pl))) (dng_sent env (TYPE_SET_CONFIG, pl) s).
Proof using Type.
  intros Hm Hs. unfold Session.set_config. rewrite Hm. simpl. rewrite Hs. unfold answer. simpl.
  by destruct (device _ _ _ _) as [[]|].
Qed.

Lemma eval_rx_start n t s :
  session_closed s = false →
  eval (dng_do env) n (Session.rx_start response_debug t) s =
  Done (empty_answer "RX_START" (answer s (TYPE_RX_START, [])))
       (dng_sent env (TYPE_RX_START, []) s).
Proof using Type.
  intros Hs. simpl. rewrite Hs. unfold answer. simpl. by destruct (device _ _ _ _) as [[]|].
Qed.

Lemma eval_ping n t s :
  session_closed s = false →
  eval (dng_do env) n (Session.ping response_debug t) s =
  Done (empty_answer "PING" (answer s (TYPE_PING, []))) (dng_sent env (TYPE_PING, []) s).
Proof using Type.
  intros Hs. simpl. rewrite Hs. unfold answer. simpl. by destruct (device _ _ _ _) as [[]|].
Qed.
End results.
