(* ===== verification/DongleSpec.v ===== *)
(** * Correctness of the dongle's operations

    Each operation of [Dongle.v] run against every device ([Env]): transmit with
    retries, recovery of the configuration, reception, closing, and the keepalive
    task. *)

From S2P Require Import Prelude Runtime Errors Protocol Retry Session Dongle.
Local Open Scope Z_scope.

Section spec.
Context `{Wire} (env : Env) (response_debug : SessionResponse → string).
Let ev {A} (n : nat) (p : prog dongE A) (s : Dng) := eval (dng_do env) n p s.

(** The two lines every operation starts with. *)
Lemma eval_open {A} n (q : prog dongE (ClientResult A)) s :
  eval (dng_do env) n (do? check_open; q) s =
  if d_closed s then Done (Err (TransportClosed "dongle closed")) s else eval (dng_do env) n q s.
Proof using Type. rewrite eval_try_bind. simpl. by destruct (d_closed s). Qed.

Lemma eval_mark {A} n (q : prog dongE A) s :
  eval (dng_do env) n (mark_write ;; q) s = eval (dng_do env) n q (dng_mark s).
Proof using Type. done. Qed.

(** The recovery of the configuration. *)
Lemma eval_reapply n s :
  session_closed s = false →
  (∀ m, applied_config s = Some m → is_err (encode_set_config m) = false) →
  eval (dng_do env) n (reapply_config response_debug) s =
  match applied_config s with
  | None => Done (Err NotConfigured) s
  | Some m =>
      match encode_set_config m with
      | Err _ => Done (Err NotConfigured) s
      | Ok pl =>
          let s1 := dng_sent env (TYPE_SET_CONFIG, pl) s in
          match config_answer response_debug (answer env s (TYPE_SET_CONFIG, pl)) with
          | Err e => Done (Err e) s1
          | Ok c => Done (Ok tt) (dng_config (sc_current c) s1)
          end
      end
  end.
Proof using Type.
  intros Hs Henc. unfold reapply_config. rewrite eval_bind, eval_trigger. cbn [dng_do outcome_bind].
  rewrite eval_try_bind. cbn [eval outcome_bind].
  destruct (applied_config s) as [m|]; [|done]. cbn [ok_or].
  specialize (Henc m eq_refl). destruct (encode_set_config m) as [pl|] eqn:Hpl; [|done].
  rewrite eval_try_bind, (eval_set_config _ _ _ _ _ pl) by done. cbn [outcome_bind].
  by destruct (config_answer _ _).
Qed.

(** ** One transmit *)

Lemma tx_answer_ok r td :
  tx_answer response_debug r = Ok td → r = Ok (RTxDone td) ∧ td_result td = Transmitted.
Proof using Type.
  destruct r as [[]|]; simpl; try done. destruct (td_result td0) eqn:E; intros [= <-]. done.
Qed.

(** C24: [transmit]: empty data is refused with [Length] and data that does not fit
    the payload field panics, both before anything is sent; otherwise one TX
    command with the CAD flag and the data is sent, and the call succeeds exactly
    when the device reports that very transmission as done. *)
Theorem transmit_functional n data skip t s :
  session_closed s = false →
  match data with
  | [] => eval (dng_do env) n (transmit response_debug data skip t) s = Done (Err Length) s
  | _ =>
      if (1 + length data <=? MAX_PAYLOAD_FIELD)%nat then
        ∃ r, eval (dng_do env) n (transmit response_debug data skip t) s =
               Done r (dng_sent env (tx_command skip data) s) ∧
             ∀ td, r = Ok td ↔ answer env s (tx_command skip data) = Ok (RTxDone td) ∧
                               td_result td = Transmitted
      else ∃ msg, eval (dng_do env) n (transmit response_debug data skip t) s = Panicked msg s
  end.
Proof using Type.
  intros Hs. destruct data as [|b data]; [done|].
  destruct (_ <=? _)%nat eqn:Hlen.
  - eexists. split; [apply eval_transmit; [split; [done|by apply Nat.leb_le]|done]|].
    intros td. split; [apply tx_answer_ok|]. intros [-> Ht]. simpl. by rewrite Ht.
  - unfold transmit. rewrite Hlen. by eexists.
Qed.

(** ** Transmit with retries *)

Section retry.
Context (data : list byte) (p : RetryPolicy).
Hypothesis Hfits : fits data.
Hypothesis Hwf : policy_wf p.
(** [random_range(0..=hi)] answers a number of that range. *)
Hypothesis Hdraw : ∀ ws hi, 0 ≤ hi → 0 ≤ draw env ws hi ≤ hi.

(** A run that starts after [j] failed attempts [atts] and makes [c] more. *)
Record retry_run (j : nat) (atts : list TxAttempt) (c : nat) (r : ClientResult TxOutcome)
    (s s' : Dng) : Prop := {
  rr_sent : sent s' = sent s ++ replicate c (tx_command (skip_cad p) data);
  rr_some : (0 < c)%nat;
  rr_max : Z.of_nat (j + c) ≤ max_attempts p;
  rr_waits : ∃ ws, waits s' = waits s ++ ws ∧ S (length ws) = c ∧
    ∀ i w, ws !! i = Some w → delay_floor p (j + i) ≤ w ≤ delay_floor p (j + i) + spread p;
  rr_cells : applied_config s' = applied_config s ∧ rx_started s' = rx_started s;
  rr_result :
    match r with
    | Ok o => ∃ new td, attempts o = atts ++ new ∧ length new = c ∧
        td_result td = Transmitted ∧ final_airtime_us o = airtime_us td ∧
        ∀ i a, new !! i = Some a → attempt a = Z.of_nat (S (j + i)) ∧
          (S i = c → att_result a = Ok td) ∧
          ((S i < c)%nat → ∃ e, att_result a = Err e ∧ is_retryable e = true)
    | Err e => is_retryable e = true → Z.of_nat (j + c) = max_attempts p
    end;
}.

Lemma eval_jitter n s :
  ∃ w, eval (dng_do env) n (jitter_ms p) s = Done w s ∧ 0 ≤ w ≤ spread p.
Proof using Hdraw.
  unfold jitter_ms. destruct (Z.eqb_spec (spread p) 0) as [E|E].
  - exists 0. split; [done|]. lia.
  - simpl. eexists. split; [done|]. apply Hdraw. unfold spread, saturating_sub. lia.
Qed.

(** One attempt: the loop ends, or it goes on after a retryable error. *)
Lemma eval_retry_body n j atts s :
  session_closed s = false → Z.of_nat (S j) ≤ max_attempts p →
  ∃ e el s1, sent s1 = sent s ++ [tx_command (skip_cad p) data] ∧
    session_closed s1 = false ∧
    applied_config s1 = applied_config s ∧ rx_started s1 = rx_started s ∧
    ((∃ td, eval (dng_do env) n
              (retry_body response_debug data p (Z.of_nat (S j), delay_floor p j, atts)) s =
            Done (inr (Ok {| final_airtime_us := airtime_us td;
              attempts := atts ++ [{| attempt := Z.of_nat (S j); att_result := Ok td;
                                      elapsed := el |}] |})) s1 ∧
            td_result td = Transmitted ∧ waits s1 = waits s) ∨
     (eval (dng_do env) n
        (retry_body response_debug data p (Z.of_nat (S j), delay_floor p j, atts)) s =
        Done (inr (Err e)) s1 ∧ waits s1 = waits s ∧
        (is_retryable e = true → Z.of_nat (S j) = max_attempts p)) ∨
     (∃ w, eval (dng_do env) n
        (retry_body response_debug data p (Z.of_nat (S j), delay_floor p j, atts)) s =
        Done (inl (Z.of_nat (S (S j)), delay_floor p (S j), atts ++
          [{| attempt := Z.of_nat (S j); att_result := Err (clone_kind e); elapsed := el |}])) s1 ∧
        is_retryable e = true ∧ Z.of_nat (S j) < max_attempts p ∧
        waits s1 = waits s ++ [delay_floor p j + w] ∧ 0 ≤ w ≤ spread p)).
Proof using Hfits Hdraw.
  intros Hs Hj. unfold retry_body.
  rewrite (proj2 (Z.ltb_ge _ _)) by lia.
  set (cmd := tx_command (skip_cad p) data). set (s0 := dng_mark s).
  set (s1 := dng_sent env cmd s0).
  assert (∀ {A} (k : Z → ClientResult TxDonePayload → Z → prog dongE A),
    eval (dng_do env) n (mark_write ;; started ← trigger DNow;
      result ← transmit response_debug data (skip_cad p) (per_attempt_timeout p);
      ended ← trigger DNow; k started result ended) s =
    eval (dng_do env) n (k (d_now s0) (tx_answer response_debug (answer env s0 cmd)) (d_now s1)) s1)
    as Hev.
  { intros A k. simpl. fold s0. change (prog_bind ?a ?b) with (a ≫= b).
    rewrite eval_bind, eval_transmit by done. done. }
  rewrite Hev. clear Hev.
  destruct (tx_answer response_debug (answer env s0 cmd)) as [td|e] eqn:Ha.
  - exists Busy, (d_now s1 - d_now s0), s1. split_and!; [done..|].
    left. exists td. split_and!; [done| |done]. by apply tx_answer_ok in Ha as [_ ?].
  - destruct (negb (is_retryable e) || (Z.of_nat (S j) =? max_attempts p)) eqn:Hstop.
    + exists e, 0, s1. split_and!; [done..|]. right. left. split_and!; [done|done|]. intros Hr.
      rewrite Hr in Hstop. simpl in Hstop. by apply Z.eqb_eq.
    + apply orb_false_iff in Hstop as [Hr Hlast]. apply Z.eqb_neq in Hlast.
      destruct (eval_jitter n s1) as (w & Hw & Hwr).
      exists e, (d_now s1 - d_now s0), (dng_wait (delay_floor p j + w) s1).
      split_and!; [done..|]. right. right. exists w. split_and!; try lia; [|by destruct (is_retryable e)|done].
      rewrite eval_bind, Hw. cbn [outcome_bind]. rewrite eval_bind. 
      replace (Z.of_nat (S (S j))) with (Z.of_nat (S j) + 1) by lia. done.
Qed.

(** One more failed attempt in front of a run. *)
Lemma retry_run_cons j atts c r s s1 s' e el w :
  is_retryable e = true → 0 ≤ w ≤ spread p →
  sent s1 = sent s ++ [tx_command (skip_cad p) data] →
  applied_config s1 = applied_config s → rx_started s1 = rx_started s →
  waits s1 = waits s ++ [delay_floor p j + w] →
  retry_run (S j) (atts ++ [{| attempt := Z.of_nat (S j); att_result := Err (clone_kind e);
                              elapsed := el |}]) c r s1 s' →
  retry_run j atts (S c) r s s'.
Proof using Type.
  intros He Hw Hsent Hcfg Hrx Hwaits [Rs Rc Rm (ws & Rw & Rl & Rb) [Ra Rx] Rr]. split.
  - rewrite Rs, Hsent, <- app_assoc. done.
  - lia.
  - lia.
  - exists ((delay_floor p j + w) :: ws). rewrite Rw, Hwaits, <- app_assoc.
    split_and!; [done|simpl; lia|]. intros [|i] w'; simpl.
    + intros [= <-]. rewrite Nat.add_0_r. lia.
    + intros Hi%Rb. by rewrite Nat.add_succ_r.
  - split; congruence.
  - destruct r as [o|e']; [|intros Hre; specialize (Rr Hre); lia].
    destruct Rr as (new & td & -> & <- & ? & ? & Hnew). eexists (_ :: new), td.
    rewrite <- app_assoc. split_and!; [done..|]. intros [|i] a; simpl.
    + intros [= <-]. simpl. split_and!; [lia|lia|]. intros _. exists (clone_kind e).
      split; [done|]. by rewrite (proj1 (clone_kind_spec e)).
    + intros Hi. destruct (Hnew i a Hi) as (-> & Hok & Herr).
      split_and!; [f_equal; lia|intros; apply Hok; lia|intros; apply Herr; lia].
Qed.

Lemma retry_iterate n m j atts s fuel :
  session_closed s = false → Z.of_nat (j + m) = max_attempts p → (0 < m)%nat →
  (m ≤ fuel)%nat →
  ∃ c r s', iterate (λ l, eval (dng_do env) n (retry_body response_debug data p l)) fuel
              (Z.of_nat (S j), delay_floor p j, atts) s = Done r s' ∧
            retry_run j atts c r s s'.
Proof using Hfits Hdraw.
  revert j atts s fuel. induction m as [|m IH]; [lia|]. intros j atts s fuel Hs Hj _ Hf.
  destruct fuel as [|fuel]; [lia|]. cbn [iterate].
  destruct (eval_retry_body n j atts s Hs) as (e & el & s1 & Hsent & Hs1 & Hcfg & Hrx & Hcases);
    [lia|].
  destruct Hcases as [(td & Hev & Ht & Hw)|[(Hev & Hw & Hlast)|(w & Hev & He & Hlt & Hw & Hwr)]];
    rewrite Hev; cbn [outcome_bind].
  - exists 1%nat. do 2 eexists. split; [done|]. split; [done|lia|lia| |done|].
    + exists []. by rewrite app_nil_r.
    + exists [{| attempt := Z.of_nat (S j); att_result := Ok td; elapsed := el |}], td.
      split_and!; [done..|]. intros [|i] a; simpl; [|done]. intros [= <-]. simpl.
      split_and!; [lia|done|lia].
  - exists 1%nat. do 2 eexists. split; [done|]. split; [done|lia|lia| |done|].
    + exists []. by rewrite app_nil_r.
    + intros Hr. specialize (Hlast Hr). lia.
  - destruct (IH (S j) (atts ++ [{| attempt := Z.of_nat (S j); att_result := Err (clone_kind e);
      elapsed := el |}]) s1 fuel) as (c & r & s' & Hit & Hrun); [done|lia..|].
    exists (S c), r, s'. split; [exact Hit|]. by eapply retry_run_cons.
Qed.

(** C11: [tx_with_retry] on an open dongle, for every device and random source: it
    terminates after between 1 and [max_attempts] TX commands, all identical; it
    waits once between two attempts, each time between the backoff floor and the
    floor plus the jitter spread; success reports the attempts made, numbered from
    1, all retryable failures but the last one, which the device transmitted; a
    retryable error is returned only when the attempts are used up; and the
    configuration and reception state are left alone. *)
Theorem tx_with_retry_spec n s :
  d_closed s = false → session_closed s = false → 1 ≤ max_attempts p →
  max_attempts p ≤ Z.of_nat n →
  ∃ c r s', eval (dng_do env) n (tx_with_retry response_debug data p) s = Done r s' ∧
            retry_run 0 [] c r s s'.
Proof using Hfits Hdraw.
  intros Ho Hs Hmax Hn.
  destruct (retry_iterate n (Z.to_nat (max_attempts p)) 0 [] s n Hs) as (c & r & s' & Hit & Hrun);
    [lia..|].
  exists c, r, s'. split; [|done]. unfold tx_with_retry. rewrite eval_open, Ho. unfold loop. cbn [eval].
  change (iterate _ n _ s) with (iterate (λ l, eval (dng_do env) n (retry_body response_debug data p l))
    n (Z.of_nat 1, delay_floor p 0, []) s). by rewrite Hit.
Qed.
End retry.

(** A policy of zero attempts reaches the end the code calls unreachable: nothing
    is sent and the call fails with the "exited without result" error. *)
Theorem tx_with_retry_zero_attempts n data p s :
  d_closed s = false → max_attempts p = 0 →
  eval (dng_do env) (S n) (tx_with_retry response_debug data p) s =
  Done (Err (Other "tx_with_retry exited without result")) s.
Proof using Type.
  intros Ho Hp. unfold tx_with_retry. rewrite eval_open, Ho. simpl. by rewrite Hp.
Qed.

(** ** Transmit with recovery *)

Lemma eval_tx n data skip t s :
  fits data → d_closed s = false → session_closed s = false →
  (∀ m, applied_config s = Some m → is_err (encode_set_config m) = false) →
  let cmd := tx_command skip data in
  let s1 := dng_mark s in
  let r1 := tx_answer response_debug (answer env s1 cmd) in
  let s2 := dng_sent env cmd s1 in
  eval (dng_do env) n (tx_with_timeout response_debug data skip t) s =
  match r1, applied_config s with
  | Err NotConfigured, None => Done (Err NotConfigured) s2
  | Err NotConfigured, Some m =>
      match encode_set_config m with
      | Err _ => Done r1 s2
      | Ok pl =>
          let s3 := dng_sent env (TYPE_SET_CONFIG, pl) s2 in
          match config_answer response_debug (answer env s2 (TYPE_SET_CONFIG, pl)) with
          | Err e => Done (Err e) s3
          | Ok c =>
              let s4 := dng_config (sc_current c) s3 in
              Done (tx_answer response_debug (answer env s4 cmd)) (dng_sent env cmd s4)
          end
      end
  | _, _ => Done r1 s2
  end.
Proof using Type.
  intros Hfits Ho Hs Henc cmd s1 r1 s2.
  assert (eval (dng_do env) n (tx_with_timeout response_debug data skip t) s =
    eval (dng_do env) n (match r1 with
      | Err NotConfigured => recover_and_retry_tx response_debug data skip t
      | other => Ret other end) s2) as ->.
  { unfold tx_with_timeout. by rewrite eval_open, Ho, eval_mark, eval_bind, eval_transmit. }
  destruct r1 as [td|[]] eqn:Hr1; try done.
  unfold recover_and_retry_tx. rewrite eval_try_bind, eval_reapply by done.
  change (applied_config s2) with (applied_config s).
  destruct (applied_config s) as [m|] eqn:Hm; [|done].
  specialize (Henc m eq_refl). destruct (encode_set_config m) as [pl|]; [|done]. cbn zeta.
  destruct (config_answer _ _) as [c|e]; [|done]. cbn [outcome_bind].
  by rewrite eval_transmit.
Qed.

(** [tx_with_timeout] on an open dongle: one TX; if the device says it is not
    configured and a configuration is cached, that configuration is sent and the TX
    is repeated once, whatever the second answer is; the cache then holds what the
    device echoed.  Every other answer is the call's result. *)
Theorem tx_recovers_once n data skip t s :
  fits data → d_closed s = false → session_closed s = false →
  (∀ m, applied_config s = Some m → is_err (encode_set_config m) = false) →
  let cmd := tx_command skip data in
  let s1 := dng_mark s in
  let r1 := tx_answer response_debug (answer env s1 cmd) in
  let s2 := dng_sent env cmd s1 in
  eval (dng_do env) n (tx_with_timeout response_debug data skip t) s =
  match r1, applied_config s with
  | Err NotConfigured, None => Done (Err NotConfigured) s2
  | Err NotConfigured, Some m =>
      match encode_set_config m with
      | Err _ => Done r1 s2
      | Ok pl =>
          let s3 := dng_sent env (TYPE_SET_CONFIG, pl) s2 in
          match config_answer response_debug (answer env s2 (TYPE_SET_CONFIG, pl)) with
          | Err e => Done (Err e) s3
          | Ok c =>
              let s4 := dng_config (sc_current c) s3 in
              Done (tx_answer response_debug (answer env s4 cmd)) (dng_sent env cmd s4)
          end
      end
  | _, _ => Done r1 s2
  end.
Proof using Type. apply eval_tx. Qed.

(** ** Reception, configuration, closing *)

(** A closed dongle refuses every operation before it touches anything: nothing
    is sent, no timestamp and no flag changes. *)
Theorem closed_dongle_refuses n s data skip t p m timeout :
  d_closed s = true →
  let closed {A} : outcome (ClientResult A) Dng :=
    Done (Err (TransportClosed "dongle closed")) s in
  eval (dng_do env) n (tx_with_timeout response_debug data skip t) s = closed ∧
  eval (dng_do env) n (tx_with_retry response_debug data p) s = closed ∧
  eval (dng_do env) n (rx_start response_debug) s = closed ∧
  eval (dng_do env) n (rx_stop response_debug) s = closed ∧
  eval (dng_do env) n (set_config response_debug m) s = closed ∧
  eval (dng_do env) n (ping response_debug) s = closed ∧
  eval (dng_do env) n (recv_with response_debug timeout) s = Done None s.
Proof using Type.
  intros Hc. cbv zeta. unfold tx_with_timeout, tx_with_retry, rx_start, rx_stop, set_config, ping.
  rewrite !eval_open, Hc. split_and!; try done.
  unfold recv_with. simpl. by rewrite Hc.
Qed.

(** What [rx_start] does on an open dongle. *)
Definition rx_start_spec (s : Dng) : ClientResult unit * Dng :=
  let s1 := dng_mark s in
  if rx_started s then (Ok tt, dng_rx true false s1)
  else
    let start s := (empty_answer response_debug "RX_START" (answer env s (TYPE_RX_START, [])),
                    dng_sent env (TYPE_RX_START, []) s) in
    match start s1 with
    | (Ok _, s2) => (Ok tt, dng_rx true false s2)
    | (Err NotConfigured, s2) =>
        match applied_config s with
        | None => (Err NotConfigured, s2)
        | Some m =>
            match encode_set_config m with
            | Err _ => (Err NotConfigured, s2)
            | Ok pl =>
                let s3 := dng_sent env (TYPE_SET_CONFIG, pl) s2 in
                match config_answer response_debug (answer env s2 (TYPE_SET_CONFIG, pl)) with
                | Err e => (Err e, s3)
                | Ok c =>
                    match start (dng_config (sc_current c) s3) with
                    | (Ok _, s4) => (Ok tt, dng_rx true false s4)
                    | (Err e, s4) => (Err e, s4)
                    end
                end
            end
        end
    | (Err e, s2) => (Err e, s2)
    end.

Lemma answer_rx s b lk cmd : answer env (dng_rx b lk s) cmd = answer env s cmd.
Proof using Type. done. Qed.

Lemma eval_dongle_rx_start n s :
  d_closed s = false → session_closed s = false → rx_locked s = false →
  (∀ m, applied_config s = Some m → is_err (encode_set_config m) = false) →
  eval (dng_do env) n (rx_start response_debug) s =
  Done (rx_start_spec s).1 (rx_start_spec s).2.
Proof using Type.
  intros Ho Hs Hl Henc. unfold rx_start. rewrite eval_open, Ho, eval_mark, eval_bind, eval_trigger.
  unfold rx_start_spec. cbn [dng_do]. change (rx_locked (dng_mark s)) with (rx_locked s).
  rewrite Hl. cbn [outcome_bind]. change (rx_started (dng_mark s)) with (rx_started s).
  destruct (rx_started s) eqn:Hrx.
  - simpl. unfold dng_rx, dng_mark, dng_cells. simpl. by rewrite ?Hrx.
  - rewrite eval_bind, eval_rx_start by done. cbn [outcome_bind]. rewrite answer_rx.
    assert (∀ s0, rx_started s0 = false → rx_locked s0 = false →
      dng_rx false false (dng_sent env (TYPE_RX_START, []) (dng_rx false true s0)) =
      dng_sent env (TYPE_RX_START, []) s0) as Hunlock.
    { intros [] H1 H2. simpl in *. by subst. }
    destruct (empty_answer _ _ _) as [[]|e].
    + done.
    + destruct e; try (simpl; by rewrite Hunlock by done).
      rewrite eval_bind, eval_trigger. cbn [dng_do outcome_bind].
      change (rx_started (dng_sent env (TYPE_RX_START, []) (dng_rx false true (dng_mark s)))) with false.
      rewrite Hunlock by done.
      rewrite eval_try_bind, eval_reapply by done.
      change (applied_config (dng_sent env (TYPE_RX_START, []) (dng_mark s))) with (applied_config s).
      destruct (applied_config s) as [m|] eqn:Hm; [|done].
      specialize (Henc m eq_refl). destruct (encode_set_config m) as [pl|]; [|done]. cbn zeta.
      destruct (config_answer _ _) as [c|e]; [|done]. cbn [outcome_bind].
      rewrite eval_try_bind, eval_rx_start by done. cbn [outcome_bind].
      destruct (empty_answer _ _ _) as [[]|e]; [|done].
      simpl. by rewrite Hl.
Qed.

(** C27: [rx_start]: no command when reception is already on; otherwise RX_START,
    with one recovery of the cached configuration and one more RX_START when the
    device is not configured.  It always releases the flag's lock, and the flag is
    on afterwards exactly when the call succeeded. *)
Theorem rx_start_refines n s :
  d_closed s = false → session_closed s = false → rx_locked s = false →
  (∀ m, applied_config s = Some m → is_err (encode_set_config m) = false) →
  eval (dng_do env) n (rx_start response_debug) s =
    Done (rx_start_spec s).1 (rx_start_spec s).2 ∧
  rx_locked (rx_start_spec s).2 = false ∧
  rx_started (rx_start_spec s).2 = negb (is_err (rx_start_spec s).1) ∧
  (rx_started s = true → sent (rx_start_spec s).2 = sent s).
Proof using Type.
  intros Ho Hs Hl Henc. split; [by apply eval_dongle_rx_start|].
  unfold rx_start_spec. destruct (rx_started s) eqn:Hrx; [done|].
  repeat (case_match; simplify_eq/=); done.
Qed.

(** C34: [recv] and [next_rx] on an open dongle start reception when it is off, give
    up without waiting when that fails, and otherwise return what the session's
    queue gives. *)
Theorem recv_starts_lazily n s timeout :
  d_closed s = false → session_closed s = false → rx_locked s = false →
  (∀ m, applied_config s = Some m → is_err (encode_set_config m) = false) →
  eval (dng_do env) n (recv_with response_debug timeout) s =
  if rx_started s then Done (air env (d_now s)) s
  else
    let '(r, s1) := rx_start_spec s in
    Done (if is_err r then None else air env (d_now s1)) s1.
Proof using Type.
  intros Ho Hs Hl Henc.
  assert (eval (dng_do env) n check_open s = Done (Ok tt) s) as Hopen by (simpl; by rewrite Ho).
  unfold recv_with. rewrite eval_bind, Hopen. cbn [outcome_bind is_err].
  rewrite eval_bind, eval_trigger. cbn [dng_do]. rewrite Hl. cbn [outcome_bind].
  rewrite eval_bind. destruct (rx_started s) eqn:Hrx; [done|].
  rewrite eval_bind, eval_dongle_rx_start by done.
  by destruct (rx_start_spec s) as [[u|e] s1].
Qed.

(** C33: [set_config] caches what the device echoed, not what was asked for, and marks
    reception as stopped; a failed call changes neither. *)
Theorem set_config_caches_echo n s m pl :
  d_closed s = false → session_closed s = false → rx_locked s = false →
  encode_set_config m = Ok pl →
  let s1 := dng_sent env (TYPE_SET_CONFIG, pl) (dng_mark s) in
  eval (dng_do env) n (set_config response_debug m) s =
  match config_answer response_debug (answer env (dng_mark s) (TYPE_SET_CONFIG, pl)) with
  | Ok c => Done (Ok tt) (dng_rx false false (dng_config (sc_current c) s1))
  | Err e => Done (Err e) s1
  end.
Proof using Type.
  intros Ho Hs Hl Hpl s1. unfold set_config. rewrite eval_open, Ho, eval_mark.
  rewrite eval_try_bind, (eval_set_config _ _ _ _ _ pl) by done. cbn [outcome_bind].
  destruct (config_answer _ _) as [c|]; [|done]. simpl. by rewrite Hl.
Qed.

(** [close] marks the dongle closed, aborts the keepalive task if its handle is
    still there, and closes the session; calling it again changes nothing. *)
Theorem close_idempotent n s :
  d_closed s = false →
  ∃ s', eval (dng_do env) n close s = Done tt s' ∧
    d_closed s' = true ∧ session_closed s' = true ∧ keepalive_handle s' = false ∧
    (keepalive_handle s = true → keepalive_aborted s' = true) ∧ sent s' = sent s ∧
    eval (dng_do env) n close s' = Done tt s'.
Proof using Type.
  intros Ho. unfold close, abort_keepalive. simpl. rewrite Ho. simpl.
  by destruct (keepalive_handle s); eexists; split_and!.
Qed.

(** ** The keepalive task *)

(** The last write the keepalive task sees when it wakes. *)
Definition last_write (s : Dng) : Z := Z.max (last_write_at s) (host_write env (d_now s)).

Definition awake (s : Dng) : Prop :=
  d_closed s = false ∧ session_closed s = false ∧ alive env (d_now s) = true.

(** A round of the keepalive task: it wakes after the interval in [s1], and pings
    when nothing has been written for an interval. *)
Lemma eval_keepalive_body n s :
  let s1 := dng_wait KEEPALIVE_INTERVAL s in
  awake s1 →
  eval (dng_do env) n (keepalive_body response_debug tt) s =
  if d_now s1 - last_write s1 <? KEEPALIVE_INTERVAL then Done (inl tt) s1
  else
    let s2 := dng_sent env (TYPE_PING, []) s1 in
    match empty_answer response_debug "PING" (answer env s1 (TYPE_PING, [])) with
    | Ok _ => Done (inl tt) (dng_mark s2)
    | Err NotConfigured =>
        match applied_config s with
        | Some m =>
            eval (dng_do env) n
              (r ← Session.set_config response_debug m 2000;
               match r with
               | Ok _ => trigger DMarkWrite ;; Ret (inl tt)
               | Err _ => Ret (inl tt)
               end) s2
        | None => Done (inl tt) s2
        end
    | Err _ => Done (inl tt) s2
    end.
Proof using Type.
  intros s1 (Hc & Hs & Ha). unfold keepalive_body.
  rewrite eval_bind, eval_trigger. cbn [dng_do outcome_bind]. fold s1.
  rewrite eval_bind, eval_trigger. cbn [dng_do outcome_bind]. rewrite Ha. cbn [negb].
  rewrite eval_bind, eval_trigger. cbn [dng_do outcome_bind]. rewrite Hc.
  do 2 (rewrite eval_bind, eval_trigger; cbn [dng_do outcome_bind]). fold (last_write s1).
  destruct (_ <? _); [done|]. rewrite eval_bind, eval_ping by done. cbn [outcome_bind].
  destruct (empty_answer _ _ _) as [[]|[]]; try done.
  rewrite eval_bind, eval_trigger. cbn [dng_do outcome_bind].
  change (applied_config (dng_sent env (TYPE_PING, []) s1)) with (applied_config s).
  by destruct (applied_config s).
Qed.

Lemma take_sent (l k : list (Z * list byte)) c :
  take (S (length l)) ((l ++ [c]) ++ k) = l ++ [c].
Proof using Type. rewrite take_app_length'; [done|]. rewrite length_app. simpl. lia. Qed.

(** A write, of a caller or of the keepalive, less than an interval old. *)
Definition recent (s : Dng) : Prop := d_now s - last_write s < KEEPALIVE_INTERVAL.

(** A round sends the PING first, and counts as a write if it is answered. *)
Definition pinged (s s1 s' : Dng) : Prop :=
  take (S (length (sent s))) (sent s') = sent s ++ [(TYPE_PING, [])] ∧
  (empty_answer response_debug "PING" (answer env s1 (TYPE_PING, [])) = Ok tt → recent s').

Lemma recent_mark s : recent (dng_mark s).
Proof using Type. unfold recent, last_write, KEEPALIVE_INTERVAL. simpl. lia. Qed.

(** A round that finds no recent write. *)
Lemma keepalive_pings n s :
  let s1 := dng_wait KEEPALIVE_INTERVAL s in
  awake s1 → ¬ recent s1 →
  ∃ s', eval (dng_do env) n (keepalive_body response_debug tt) s = Done (inl tt) s' ∧ pinged s s1 s'.
Proof using Type.
  intros s1 Ha Hge. unfold pinged. rewrite eval_keepalive_body by done. fold s1.
  rewrite (proj2 (Z.ltb_ge _ _)) by (unfold recent in Hge; lia). cbv zeta.
  pose proof (take_sent (sent s) [] (TYPE_PING, [])) as Hnil. rewrite app_nil_r in Hnil.
  destruct (empty_answer _ _ _) as [[]|e]; [eexists; split_and!; [done|exact Hnil|by intros _; apply recent_mark]|].
  destruct e; try (eexists; split_and!; [done|exact Hnil|done]).
  destruct (applied_config s) as [m|]; [|eexists; split_and!; [done|exact Hnil|done]].
  rewrite eval_bind. destruct (encode_set_config m) as [pl|e] eqn:Hpl.
  - rewrite (eval_set_config _ _ _ _ _ pl) by (done || apply Ha). cbn [outcome_bind].
    destruct (config_answer _ _); (eexists; split_and!; [done|apply (take_sent (sent s))|done]).
  - unfold Session.set_config. rewrite Hpl. simpl. eexists; split_and!; [done|exact Hnil|done].
Qed.

(** C31: Every round of the keepalive either ends the task, or finds a write less than an
    interval old, or sends a PING.  It sleeps one interval; then it ends exactly when
    the dongle is gone or closed; if it finds a write less than 500 ms old it does
    nothing and that write is still recent when it ends; otherwise the first thing it
    sends is a PING, and that is less than 1000 ms after the last write if a write was
    recent when the round began, as one is when the dongle is made, after a round that
    did nothing and after a PING that was answered.  A PING that is not answered counts
    for nothing: the next round begins at once. *)
Theorem keepalive_gap n s :
  (∀ t t', t ≤ t' → host_write env t ≤ host_write env t') →
  let s1 := dng_wait KEEPALIVE_INTERVAL s in
  let round := eval (dng_do env) n (keepalive_body response_debug tt) s in
  (alive env (d_now s1) = false ∨ d_closed s = true → round = Done (inr tt) s1) ∧
  (awake s1 → recent s1 → round = Done (inl tt) s1) ∧
  (awake s1 → ¬ recent s1 →
   ∃ s', round = Done (inl tt) s' ∧ pinged s s1 s' ∧
     KEEPALIVE_INTERVAL ≤ d_now s1 - last_write s1 ∧
     (recent s → d_now s1 - last_write s1 < 2 * KEEPALIVE_INTERVAL)) ∧
  ∀ applied now, recent (new_dongle applied true now).
Proof using Type.
  intros Hmono s1 round. subst round. split_and!.
  - intros Hend. unfold keepalive_body.
    rewrite eval_bind, eval_trigger. cbn [dng_do outcome_bind]. fold s1.
    rewrite eval_bind, eval_trigger. cbn [dng_do outcome_bind].
    destruct (alive env (d_now s1)) eqn:Ha; [|done]. cbn [negb].
    destruct Hend as [?|Hc]; [done|].
    rewrite eval_bind, eval_trigger. cbn [dng_do outcome_bind].
    change (d_closed s1) with (d_closed s). by rewrite Hc.
  - intros Ha Hr. rewrite eval_keepalive_body by done. fold s1.
    by rewrite (proj2 (Z.ltb_lt _ _) Hr).
  - intros Ha Hr. destruct (keepalive_pings n s Ha Hr) as (s' & ? & ?). exists s'.
    split_and!; [done|done|unfold recent in Hr; lia|]. intros Hs.
    assert (host_write env (d_now s) ≤ host_write env (d_now s1)).
    { apply Hmono. simpl. unfold KEEPALIVE_INTERVAL. lia. }
    unfold recent, last_write in *. change (last_write_at s1) with (last_write_at s) in *.
    change (d_now s1) with (d_now s + KEEPALIVE_INTERVAL) in *. unfold KEEPALIVE_INTERVAL in *. lia.
  - intros applied now. unfold recent, last_write, KEEPALIVE_INTERVAL. simpl. lia.
Qed.

(** ** Recovery and reception *)

Lemma eval_recv_on n s timeout :
  d_closed s = false → rx_locked s = false → rx_started s = true →
  eval (dng_do env) n (recv_with response_debug timeout) s = Done (air env (d_now s)) s.
Proof using Type.
  intros Ho Hl Hrx. unfold recv_with, check_open. simpl. rewrite Ho. simpl. by rewrite Hl, Hrx.
Qed.

(** C40: Automatic recovery forgets reception: whatever the device and the dongle's state,
    when reception counts as started and a TX is refused for want of a configuration,
    and the cached one is re-applied (which stops reception in the device), [tx] sends
    TX, SET_CONFIG and TX and leaves the flag on, whatever the second TX's answer; and
    any number of [recv] or [next_rx] calls after it send nothing, no RX_START either,
    and leave the dongle as it is. *)
Theorem tx_recovery_leaves_rx_flag n data skip t s m pl c :
  fits data → d_closed s = false → session_closed s = false → rx_locked s = false →
  rx_started s = true → applied_config s = Some m → encode_set_config m = Ok pl →
  let cmd := tx_command skip data in
  let s2 := dng_sent env cmd (dng_mark s) in
  tx_answer response_debug (answer env (dng_mark s) cmd) = Err NotConfigured →
  config_answer response_debug (answer env s2 (TYPE_SET_CONFIG, pl)) = Ok c →
  ∃ r s', eval (dng_do env) n (tx_with_timeout response_debug data skip t) s = Done r s' ∧
    sent s' = sent s ++ [cmd; (TYPE_SET_CONFIG, pl); cmd] ∧ rx_started s' = true ∧
    ∀ timeouts : list (option Z),
      eval (dng_do env) n (prog_for timeouts (λ timeout, recv_with response_debug timeout ;; Ret tt)) s' =
        Done tt s'.
Proof using Type.
  intros Hfits Ho Hs Hl Hrx Hm Hpl cmd s2 Hr1 Hc.
  eexists _, _. split_and!.
  - rewrite eval_tx, Hm, Hpl by (try done; intros m' Hm'; rewrite Hm in Hm'; by injection Hm' as <-; rewrite Hpl).
    cbn zeta. fold cmd. rewrite Hr1. fold s2. rewrite Hc. reflexivity.
  - simpl. by rewrite <- !app_assoc.
  - exact Hrx.
  - intros timeouts. induction timeouts as [|timeout timeouts IH]; [done|]. cbn [prog_for].
    rewrite !eval_bind, eval_recv_on by done. exact IH.
Qed.
End spec.

(** ** Concrete devices *)

Definition no_debug {A} (_ : A) : string := "".

(** A device that forgets its configuration once: it answers the first TX and the
    first RX_START with ENOTCONFIGURED until it has been configured. *)
Definition forgetful (hist : list (Z * list byte)) (ty : Z) (pl : list byte) :
    ClientResult SessionResponse :=
  let configured := existsb (λ c, c.1 =? 3) hist in
  if ty =? 3 then Ok (RSetConfig demo_set_config)
  else if ty =? 4 then
    if configured then Ok (RTxDone {| td_result := Transmitted; airtime_us := 7777 |})
    else Ok (RErr NotConfigured)
  else if ty =? 5 then if configured then Ok REmpty else Ok (RErr NotConfigured)
  else Ok REmpty.

(** A device whose channel is busy for the first two attempts. *)
Definition busy_twice (hist : list (Z * list byte)) (ty : Z) (pl : list byte) :
    ClientResult SessionResponse :=
  if (length hist <? 2)%nat then Ok (RTxDone {| td_result := TxChannelBusy; airtime_us := 0 |})
  else Ok (RTxDone {| td_result := Transmitted; airtime_us := 7777 |}).

Definition demo_env (dev : list (Z * list byte) → Z → list byte → ClientResult SessionResponse)
    (writes : Z → Z) : Env := {|
  device := dev; latency := λ _, 10; draw := λ ws hi, Z.min hi 30; air := λ _, None;
  alive := λ _, true; host_write := writes |}.

Definition fenv := demo_env forgetful (λ _, 0).
Definition benv := demo_env busy_twice (λ _, 0).
Definition configured : Dng := new_dongle (Some (LoRa demo_config)) true 0.

Lemma demo_fits : fits [x68].
Proof. split; [done|simpl; lia]. Qed.

Lemma transmit_functional_witness :
  ∃ r, eval (dng_do fenv) 0 (transmit no_debug [x68] false 0) configured =
         Done r (dng_sent fenv (tx_command false [x68]) configured) ∧
       ∀ td, r = Ok td ↔ answer fenv configured (tx_command false [x68]) = Ok (RTxDone td) ∧
                         td_result td = Transmitted.
Proof. exact (transmit_functional fenv no_debug 0 [x68] false 0 configured eq_refl). Defined.

Lemma tx_with_retry_spec_witness :
  ∃ c r s', eval (dng_do benv) 3 (tx_with_retry no_debug [x68] default_policy) configured =
              Done r s' ∧ retry_run [x68] default_policy 0 [] c r configured s'.
Proof.
  apply (tx_with_retry_spec benv no_debug [x68] default_policy demo_fits);
    [simpl; lia|reflexivity|reflexivity|simpl; lia|simpl; lia].
Defined.

Lemma tx_with_retry_zero_attempts_witness :
  let p := {| max_attempts := 0; backoff_ms_min := 20; backoff_ms_max := 100;
              backoff_multiplier := f32_two; backoff_cap_ms := 500;
              per_attempt_timeout := 5000; skip_cad := false |} in
  eval (dng_do fenv) 1 (tx_with_retry no_debug [x68] p) configured =
  Done (Err (Other "tx_with_retry exited without result")) configured.
Proof. intros p. apply (tx_with_retry_zero_attempts fenv no_debug 0 [x68] p); reflexivity. Defined.

Lemma tx_recovers_once_witness :
  let s2 := dng_sent fenv (tx_command false [x68]) (dng_mark configured) in
  let s4 := dng_config (LoRa demo_config) (dng_sent fenv (3, [x00]) s2) in
  eval (dng_do fenv) 0 (tx_with_timeout no_debug [x68] false 0) configured =
  Done (tx_answer no_debug (answer fenv s4 (tx_command false [x68])))
       (dng_sent fenv (tx_command false [x68]) s4).
Proof.
  apply (tx_recovers_once fenv no_debug 0 [x68] false 0 configured demo_fits);
    [reflexivity|reflexivity|]. intros m _. reflexivity.
Defined.

Definition closed_dongle : Dng :=
  dng_cells true (Some (LoRa demo_config)) false false 0 configured.

Lemma closed_dongle_refuses_witness :
  eval (dng_do fenv) 0 (ping no_debug) closed_dongle =
  Done (Err (TransportClosed "dongle closed")) closed_dongle.
Proof.
  apply (closed_dongle_refuses fenv no_debug 0 closed_dongle [x68] false 0 default_policy
           (LoRa demo_config) None). reflexivity.
Defined.

Lemma rx_start_refines_witness :
  rx_started (rx_start_spec fenv no_debug configured).2 = true.
Proof.
  exact (proj1 (proj2 (proj2 (rx_start_refines fenv no_debug 0 configured eq_refl eq_refl eq_refl
           (λ m _, eq_refl))))).
Defined.

Lemma recv_starts_lazily_witness :
  eval (dng_do fenv) 0 (recv_with no_debug (Some 100)) configured =
  let '(r, s1) := rx_start_spec fenv no_debug configured in
  Done (if is_err r then None else air fenv (d_now s1)) s1.
Proof.
  apply (recv_starts_lazily fenv no_debug 0 configured (Some 100));
    [reflexivity|reflexivity|reflexivity|intros m _; reflexivity].
Defined.

Lemma set_config_caches_echo_witness :
  let s1 := dng_sent fenv (3, [x00]) (dng_mark configured) in
  eval (dng_do fenv) 0 (set_config no_debug (LoRa demo_config)) configured =
  Done (Ok tt) (dng_rx false false (dng_config (LoRa demo_config) s1)).
Proof.
  exact (set_config_caches_echo fenv no_debug 0 configured (LoRa demo_config) [x00]
           eq_refl eq_refl eq_refl eq_refl).
Defined.

Lemma close_idempotent_witness :
  ∃ s', eval (dng_do fenv) 0 close configured = Done tt s' ∧
    d_closed s' = true ∧ session_closed s' = true ∧ keepalive_handle s' = false ∧
    (keepalive_handle configured = true → keepalive_aborted s' = true) ∧
    sent s' = sent configured ∧ eval (dng_do fenv) 0 close s' = Done tt s'.
Proof. apply (close_idempotent fenv 0 configured). reflexivity. Defined.

(** Another caller writes 1 ms after the keepalive task went to sleep. *)
Definition genv := demo_env forgetful (λ t, if t <? 1 then 0 else 1).

Lemma keepalive_gap_witness :
  let s := dng_wait KEEPALIVE_INTERVAL configured in
  let s1 := dng_wait KEEPALIVE_INTERVAL s in
  recent genv s ∧ ¬ recent genv s1 ∧
  ∃ s', eval (dng_do genv) 0 (keepalive_body no_debug tt) s = Done (inl tt) s' ∧ pinged genv no_debug s s1 s' ∧
    KEEPALIVE_INTERVAL ≤ d_now s1 - last_write genv s1 ∧
    (recent genv s → d_now s1 - last_write genv s1 < 2 * KEEPALIVE_INTERVAL).
Proof.
  split; [vm_compute; reflexivity|]. split; [by vm_compute|].
  apply (keepalive_gap genv no_debug 0 (dng_wait KEEPALIVE_INTERVAL configured)); [|done|by vm_compute].
  intros t t' Ht. simpl. destruct (Z.ltb_spec t 1), (Z.ltb_spec t' 1); lia.
Defined.

(** The bound of [keepalive_gap] is reached up to 1 ms: a write 1 ms after the
    task went to sleep is followed by the next PING 999 ms later, all but the whole
    inactivity period of the device. *)
Theorem keepalive_gap_tight :
  let s1 := dng_wait KEEPALIVE_INTERVAL configured in
  let s2 := dng_wait KEEPALIVE_INTERVAL s1 in
  eval (dng_do genv) 0 (keepalive_body no_debug tt) configured = Done (inl tt) s1 ∧
  (∃ s3, eval (dng_do genv) 0 (keepalive_body no_debug tt) s1 = Done (inl tt) s3 ∧
         sent s3 = [(TYPE_PING, [])]) ∧
  d_now s2 - last_write genv s2 = 999.
Proof. split_and!; [reflexivity| |reflexivity]. eexists. split; reflexivity. Qed.

Lemma tx_recovery_leaves_rx_flag_witness :
  let s := dng_rx true false configured in
  ∃ r s', eval (dng_do fenv) 0 (tx_with_timeout no_debug [x68] false 10000) s = Done r s' ∧
    sent s' = sent s ++ [tx_command false [x68]; (3, [x00]); tx_command false [x68]] ∧
    rx_started s' = true ∧
    ∀ timeouts : list (option Z),
      eval (dng_do fenv) 0 (prog_for timeouts (λ timeout, recv_with no_debug timeout ;; Ret tt)) s' =
        Done tt s'.
Proof.
  apply (tx_recovery_leaves_rx_flag fenv no_debug 0 [x68] false 10000 (dng_rx true false configured)
           (LoRa demo_config) [x00] demo_set_config demo_fits); reflexivity.
Defined.
