(* ===== verification/DonglePool.v ===== *)
(** * A dongle shared by any number of callers

    The operations of [Dongle.v] and the keepalive task as the tasks of a pool over
    the mutex-protected cells of [Inner], in any interleaving and with any task
    dropped at any point.  A command of the session is one step here, with any
    answer; [DongleLink.v] shows that the pool over the real session refines this
    one. *)

From S2P Require Import Prelude Runtime Errors Protocol Retry Session Dongle.
Local Open Scope Z_scope.

Section data.
Context `{WireTypes}.

(** [Inner] but for its session, and the keepalive's handle.  [c_log] lists the
    commands that have returned, with the task and the answer, and [c_reads] what each
    look at the cached configuration has found, with the task. *)
Record Cells := {
  c_now : Z;
  c_closed : bool;
  c_config : option Modulation;
  c_rx : bool;                            (** the value of [rx_started] *)
  c_rx_owner : option nat;                (** the task that holds its mutex *)
  c_last_write : Z;
  c_handle : bool;
  c_aborted : bool;
  c_log : list (nat * (Z * list byte) * ClientResult SessionResponse);
  c_reads : list (nat * option Modulation);
}.

(** The environment's part in a step: the clock, the answers of the session and of
    the random source, and whether the [Dongle] still exists. *)
Record dchoice := {
  dc_now : Z;
  dc_reply : ClientResult SessionResponse;
  dc_rx : option RxPayload;
  dc_drained : list ClientError;
  dc_random : Z;
  dc_alive : bool;
}.

Definition c_set (now : Z) (closed : bool) (cfg : option Modulation) (rx : bool)
    (owner : option nat) (last : Z) (s : Cells) : Cells := {|
  c_now := now; c_closed := closed; c_config := cfg; c_rx := rx; c_rx_owner := owner;
  c_last_write := last; c_handle := c_handle s; c_aborted := c_aborted s; c_log := c_log s; c_reads := c_reads s |}.

Definition c_tick (now : Z) (s : Cells) : Cells :=
  c_set (Z.max (c_now s) now) (c_closed s) (c_config s) (c_rx s) (c_rx_owner s) (c_last_write s) s.
Definition c_set_config (m : Modulation) (s : Cells) : Cells :=
  c_set (c_now s) (c_closed s) (Some m) (c_rx s) (c_rx_owner s) (c_last_write s) s.
Definition c_set_rx (b : bool) (owner : option nat) (s : Cells) : Cells :=
  c_set (c_now s) (c_closed s) (c_config s) b owner (c_last_write s) s.

Definition c_task (handle aborted : bool) (s : Cells) : Cells := {|
  c_now := c_now s; c_closed := c_closed s; c_config := c_config s; c_rx := c_rx s;
  c_rx_owner := c_rx_owner s; c_last_write := c_last_write s; c_handle := handle;
  c_aborted := aborted; c_log := c_log s; c_reads := c_reads s |}.

Definition c_answer (x : nat * (Z * list byte) * ClientResult SessionResponse) (s : Cells) :
    Cells := {|
  c_now := c_now s; c_closed := c_closed s; c_config := c_config s; c_rx := c_rx s;
  c_rx_owner := c_rx_owner s; c_last_write := c_last_write s; c_handle := c_handle s;
  c_aborted := c_aborted s; c_log := c_log s ++ [x]; c_reads := c_reads s |}.

Definition c_read (i : nat) (s : Cells) : Cells := {|
  c_now := c_now s; c_closed := c_closed s; c_config := c_config s; c_rx := c_rx s;
  c_rx_owner := c_rx_owner s; c_last_write := c_last_write s; c_handle := c_handle s;
  c_aborted := c_aborted s; c_log := c_log s; c_reads := c_reads s ++ [(i, c_config s)] |}.

(** An effect at an instant.  A sleep or a timer may end at any time. *)
Definition cells_step (X : Type) (i : nat) (c : dchoice) (e : dongE X) (s : Cells) :
    option (X * Cells) :=
  match e in dongE X return option (X * Cells) with
  | DSend ty pl _ => Some (dc_reply c, c_answer (i, (ty, pl), dc_reply c) s)
  | DRecvRx _ => Some (dc_rx c, s)
  | DSessionDrain => Some (dc_drained c, s)
  | DSessionClose => Some (tt, s)
  | DClosed => Some (c_closed s, s)
  | DSwapClosed => Some (c_closed s,
      c_set (c_now s) true (c_config s) (c_rx s) (c_rx_owner s) (c_last_write s) s)
  | DConfig => Some (c_config s, c_read i s)
  | DSetConfig m => Some (tt, c_set_config m s)
  | DRxStarted => match c_rx_owner s with None => Some (c_rx s, s) | Some _ => None end
  | DSetRxStarted b =>
      match c_rx_owner s with None => Some (tt, c_set_rx b None s) | Some _ => None end
  | DLockRx =>
      match c_rx_owner s with
      | None => Some (c_rx s, c_set_rx (c_rx s) (Some i) s)
      | Some _ => None
      end
  | DWriteRx b => Some (tt, c_set_rx b (c_rx_owner s) s)
  | DUnlockRx => Some (tt, c_set_rx (c_rx s) None s)
  | DLastWrite => Some (c_last_write s, s)
  | DMarkWrite => Some (tt,
      c_set (c_now s) (c_closed s) (c_config s) (c_rx s) (c_rx_owner s) (c_now s) s)
  | DNow => Some (c_now s, s)
  | DSleep _ => Some (tt, s)
  | DRandom _ => Some (dc_random c, s)
  | DUpgrade => Some (dc_alive c, s)
  | DTakeKeepalive => Some (c_handle s, c_task false (c_aborted s) s)
  | DAbortKeepalive => Some (tt, c_task (c_handle s) true s)
  end.

Definition cells_do (X : Type) (i : nat) (c : dchoice) (e : dongE X) (s : Cells) :
    option (X * Cells) := cells_step X i c e (c_tick (dc_now c) s).

(** A dropped task releases the guard of [rx_started]. *)
Definition cells_drop (i : nat) (s : Cells) : Cells :=
  c_set_rx (c_rx s) (if decide (c_rx_owner s = Some i) then None else c_rx_owner s) s.

#[export] Instance cells_sem : Sem dongE Cells :=
  {| choice := dchoice; do_eff := cells_do; on_drop := cells_drop |}.

Definition new_cells (applied : option Modulation) (keepalive : bool) (now : Z) : Cells := {|
  c_now := now; c_closed := false; c_config := applied; c_rx := false; c_rx_owner := None;
  c_last_write := now; c_handle := keepalive; c_aborted := false; c_log := []; c_reads := [] |}.
End data.

(** ** The pool *)

Section pool.
Context `{Wire}.
Variable response_debug : SessionResponse → string.

(** A call of one of [Dongle]'s methods, and what it returned. *)
Inductive op :=
| OTx (data : list byte) (skip_cad : bool) (timeout : Z)
| OTxRetry (data : list byte) (policy : RetryPolicy)
| ORxStart
| ORxStop
| ORecv (timeout : option Z)
| OSetConfig (m : Modulation)
| OPing
| OConfig
| ODrain
| OClose
| ODrop.

Inductive op_reply :=
| PUnit (r : ClientResult unit)
| PTx (r : ClientResult TxDonePayload)
| POutcome (r : ClientResult TxOutcome)
| PRx (rx : option RxPayload)
| PConfig (m : option Modulation)
| PErrors (es : list ClientError)
| PNone.

Definition run_op (o : op) : prog dongE op_reply :=
  match o with
  | OTx data skip t => r ← tx_with_timeout response_debug data skip t; Ret (PTx r)
  | OTxRetry data p => r ← tx_with_retry response_debug data p; Ret (POutcome r)
  | ORxStart => r ← rx_start response_debug; Ret (PUnit r)
  | ORxStop => r ← rx_stop response_debug; Ret (PUnit r)
  | ORecv t => rx ← recv_with response_debug t; Ret (PRx rx)
  | OSetConfig m => r ← set_config response_debug m; Ret (PUnit r)
  | OPing => r ← ping response_debug; Ret (PUnit r)
  | OConfig => m ← config; Ret (PConfig m)
  | ODrain => es ← drain_async_errors; Ret (PErrors es)
  | OClose => close ;; Ret PNone
  | ODrop => drop_dongle ;; Ret PNone
  end.

(** Task 0 is the keepalive, task [S k] the operation [ops !! k]. *)
Definition dongle_tasks (keepalive : bool) (ops : list op) : list (prog dongE op_reply) :=
  (if keepalive then keepalive_task response_debug ;; Ret PNone else Ret PNone) :: (run_op <$> ops).

Definition dongle_pool (applied : option Modulation) (keepalive : bool) (now : Z)
    (ops : list op) : conf dongE Cells op_reply :=
  Conf (map_seq 0 (dongle_tasks keepalive ops)) (new_cells applied keepalive now).
End pool.

(** ** The invariant of the cells *)

Section inv.
Context `{Wire}.
Variable response_debug : SessionResponse → string.

(** The device has answered a SET_CONFIG with [r]. *)
Definition echoed (r : SetConfigResult) (s : Cells) : Prop :=
  ∃ i pl, (i, (TYPE_SET_CONFIG, pl), Ok (RSetConfig r)) ∈ c_log s.

(** The device has acknowledged an RX_START. *)
Definition rx_acknowledged (s : Cells) : Prop :=
  ∃ i, (i, (TYPE_RX_START, []), Ok REmpty) ∈ c_log s.

(** The initial configuration, or one the device has echoed. *)
Definition known_config (applied cfg : option Modulation) (s : Cells) : Prop :=
  cfg = applied ∨ ∃ r, echoed r s ∧ cfg = Some (sc_current r).

(** Such is the cached configuration, and was whenever a task looked at it; and
    reception counts as started only after the device has acknowledged it. *)
Definition cells_inv (applied : option Modulation) (s : Cells) : Prop :=
  known_config applied (c_config s) s ∧ (c_rx s = true → rx_acknowledged s) ∧
  ∀ i cfg, (i, cfg) ∈ c_reads s → known_config applied cfg s.

Lemma known_config_log applied cfg s s' :
  known_config applied cfg s → c_log s `prefix_of` c_log s' → known_config applied cfg s'.
Proof using Type.
  intros [?|(r & (i & pl & Hin) & ?)] L; [by left|]. right. exists r. split; [|done].
  exists i, pl. by eapply elem_of_prefix.
Qed.

Record cells_rely (i : nat) (s s' : Cells) : Prop := {
  cl_owner : c_rx_owner s = Some i ↔ c_rx_owner s' = Some i;
  cl_log : c_log s `prefix_of` c_log s';
}.

#[global] Instance cells_rely_preorder i : PreOrder (cells_rely i).
Proof using Type.
  split; [by split|]. intros s1 s2 s3 [O1 L1] [O2 L2]. split; [by rewrite O1|by transitivity (c_log s2)].
Qed.

Variable applied : option Modulation.
Abbreviation Stable := (Runtime.Stable (cells_inv applied) cells_rely).
Abbreviation spec := (Runtime.spec (cells_inv applied) cells_rely).
Abbreviation Guar := (Runtime.Guar cells_rely).

Definition guard (b : bool) (i : nat) (s : Cells) : Prop :=
  if b then c_rx_owner s = Some i else c_rx_owner s ≠ Some i.

#[global] Instance guard_stable b i : Stable i (guard b i).
Proof using Type. intros s s' Hg [O _] _. unfold guard in *. destruct b; tauto. Qed.
#[global] Instance echoed_stable i r : Stable i (echoed r).
Proof using Type.
  intros s s' (j & pl & Hin) [_ L] _. exists j, pl. by eapply elem_of_prefix.
Qed.

#[global] Instance rx_acknowledged_stable i : Stable i rx_acknowledged.
Proof using Type. intros s s' [j Hin] [_ L] _. exists j. by eapply elem_of_prefix. Qed.

(** Effects other than those on [rx_started]'s guard and the cached configuration, and
    those that set [rx_started]. *)
Definition plain (X : Type) (e : dongE X) : Prop :=
  match e with
  | DSetConfig _ | DLockRx | DUnlockRx | DSetRxStarted true | DWriteRx true => False
  | _ => True
  end.

Lemma inv_log s s' :
  cells_inv applied s → c_config s' = c_config s → c_log s `prefix_of` c_log s' →
  (c_rx s' = true → c_rx s = true) →
  (∀ x, x ∈ c_reads s' → x ∈ c_reads s ∨ x.2 = c_config s) → cells_inv applied s'.
Proof using Type.
  intros (Hi & Hrx & Hreads) Hc Hp Hrx' Hr'. split_and!.
  - rewrite Hc. by eapply known_config_log.
  - intros [i Hin]%Hrx'%Hrx. exists i. by eapply elem_of_prefix.
  - intros i cfg [?|E]%Hr'; (eapply known_config_log; [|done]); [by eapply Hreads|].
    simpl in E. by subst.
Qed.

Lemma plain_do {X} i c (e : dongE X) s x s' :
  plain X e → cells_do X i c e s = Some (x, s') →
  c_rx_owner s' = c_rx_owner s ∧ c_config s' = c_config s ∧ c_log s `prefix_of` c_log s' ∧
  (c_rx s' = true → c_rx s = true) ∧
  ∀ x, x ∈ c_reads s' → x ∈ c_reads s ∨ x.2 = c_config s.
Proof using Type.
  unfold cells_do. destruct e; simpl; try done; intros He Hd; repeat case_match; simplify_eq/=;
    split_and!; try done; try (by apply prefix_app_r); intros x; rewrite ?elem_of_app; auto.
  intros [?|E%list_elem_of_singleton]; subst; auto.
Qed.

(** Assertions kept by a task's own plain effects. *)
Class Kept (i : nat) (A : Cells → Prop) : Prop :=
  kept s s' : A s → c_rx_owner s' = c_rx_owner s → c_log s `prefix_of` c_log s' → A s'.
#[global] Instance guard_kept b i : Kept i (guard b i).
Proof using Type. intros s s' Hg O _. unfold guard in *. by rewrite O. Qed.
#[global] Instance echoed_kept i r : Kept i (echoed r).
Proof using Type. intros s s' (j & pl & Hin) _ L. exists j, pl. by eapply elem_of_prefix. Qed.
#[global] Instance rx_acknowledged_kept i : Kept i rx_acknowledged.
Proof using Type. intros s s' [j Hin] _ L. exists j. by eapply elem_of_prefix. Qed.
#[global] Instance and_kept i A B : Kept i A → Kept i B → Kept i (λ s, A s ∧ B s).
Proof using Type. intros HA HB s s' [??] ??. split; eapply kept; eauto. Qed.
#[global] Instance exist_kept {X} i (A : X → Cells → Prop) :
  (∀ x, Kept i (A x)) → Kept i (λ s, ∃ x, A x s).
Proof using Type. intros HA s s' [x ?] ??. exists x. by eapply (HA x). Qed.
#[global] Instance forall_kept {X} i (A : X → Cells → Prop) :
  (∀ x, Kept i (A x)) → Kept i (λ s, ∀ x, A x s).
Proof using Type. intros HA s s' HAs ?? x. by eapply (HA x). Qed.
#[global] Instance impl_kept i (φ : Prop) A : Kept i A → Kept i (λ s, φ → A s).
Proof using Type. intros HA s s' HAs ?? Hφ. by eapply HA; [apply HAs| |]. Qed.
#[global] Instance pure_kept i φ : Kept i (λ _, φ).
Proof using Type. by intros s s' ?. Qed.

Lemma plain_step {X} i c (e : dongE X) s x s' (A : Cells → Prop) `{!Kept i A} :
  plain X e → cells_inv applied s → A s → cells_do X i c e s = Some (x, s') →
  cells_inv applied s' ∧ Guar i s s' ∧ A s'.
Proof using Type.
  intros He HI HA Hd. destruct (plain_do i c e s x s' He Hd) as (O & C & L & R & D).
  split_and!; [by eapply inv_log|intros j _; split; [by rewrite O|done]|by eapply kept].
Qed.

Lemma spec_plain {X} i (p : prog dongE X) (A : Cells → Prop) `{!Stable i A} `{!Kept i A} :
  uses plain p → spec i A p (λ _, A).
Proof using Type.
  apply spec_uses; [apply _..|]. intros Y e s c x s' ???. by apply (plain_step i c e s x s' A).
Qed.

(** Task [i]'s command was answered with [resp]. *)
Definition answered (i : nat) (cmd : Z * list byte) (resp : SessionResponse) (s : Cells) : Prop :=
  (i, cmd, Ok resp) ∈ c_log s.

#[global] Instance answered_stable i j cmd resp : Stable i (answered j cmd resp).
Proof using Type. intros s s' Hin [_ L] _. by eapply elem_of_prefix. Qed.
#[global] Instance answered_kept i j cmd resp : Kept i (answered j cmd resp).
Proof using Type. intros s s' Hin _ L. by eapply elem_of_prefix. Qed.

(** What a call of a session's helper says, for the results [f] of the answers. *)
Definition result_of {A} (i : nat) (cmd : Z * list byte) (f : A → SessionResponse)
    (r : ClientResult A) (s : Cells) : Prop := ∀ a, r = Ok a → answered i cmd (f a) s.

#[global] Instance result_of_stable {A} i j cmd (f : A → SessionResponse) r :
  Stable i (result_of j cmd f r).
Proof using Type. unfold result_of. apply _. Qed.

Lemma spec_reply_to i ty pl t (A : Cells → Prop) `{!Stable i A} `{!Kept i A} :
  spec i A (trigger (DSend ty pl t)) (λ r s, A s ∧ result_of i (ty, pl) id r s).
Proof using Type.
  apply spec_trigger; [apply _..|]. intros s c r s' HI HA Hd.
  destruct (plain_step i c (DSend ty pl t) s r s' A I HI HA Hd) as (?&?&?).
  split_and!; [done..|]. intros resp ->. injection Hd as Hr <-. unfold answered. simpl.
  apply elem_of_app. right. rewrite Hr. by left.
Qed.

(** A helper: one command, its answer judged by [f]. *)
Lemma spec_helper {B} i ty pl t (g : SessionResponse → ClientResult B) (f : B → SessionResponse)
    (A : Cells → Prop) `{!Stable i A} `{!Kept i A} :
  (∀ resp b, g resp = Ok b → resp = f b) →
  spec i A (try_bind (trigger (DSend ty pl t)) (λ resp, Ret (g resp)))
    (λ r s, A s ∧ result_of i (ty, pl) f r s).
Proof using Type.
  intros Hg. eapply spec_bind; [apply _|by apply spec_reply_to|].
  intros [resp|e]; (apply spec_ret; [apply _|]); intros s _ [HA Hin]; (split; [done|]); intros b; [|done].
  intros Hb. rewrite <- (Hg resp b Hb). by apply Hin.
Qed.

(** A SET_CONFIG that succeeds has been echoed. *)
Lemma spec_set_config_cmd i m t (A : Cells → Prop) `{!Stable i A} `{!Kept i A} :
  spec i A (Session.set_config response_debug m t)
    (λ r s, A s ∧ ∀ c, r = Ok c → ∃ pl, encode_set_config m = Ok pl ∧
                                    answered i (TYPE_SET_CONFIG, pl) (RSetConfig c) s).
Proof using Type.
  unfold Session.set_config. destruct (encode_set_config m) as [pl|]; [|by apply spec_ret; [apply _|]].
  eapply spec_post; [apply (spec_helper i _ _ _ _ RSetConfig A); intros [] b Hb; unfold unexpected in Hb; by simplify_eq|].
  intros r s _ [HA Hr]. split; [done|]. intros c Hc. exists pl. split; [done|]. by apply Hr.
Qed.

Lemma spec_ping_cmd i t (A : Cells → Prop) `{!Stable i A} `{!Kept i A} :
  spec i A (Session.ping response_debug t)
    (λ r s, A s ∧ result_of i (TYPE_PING, []) (λ _, REmpty) r s).
Proof using Type. apply (spec_helper i); [apply _..|]. by intros []. Qed.

Lemma spec_rx_start_cmd i t (A : Cells → Prop) `{!Stable i A} `{!Kept i A} :
  spec i A (Session.rx_start response_debug t)
    (λ r s, A s ∧ (r = Ok tt → rx_acknowledged s)).
Proof using Type.
  eapply spec_post; [apply (spec_helper i TYPE_RX_START [] t _ (λ _ : unit, REmpty) A); by intros []|].
  intros r s _ [? Hr]. split; [done|]. intros ->. exists i. by apply (Hr tt).
Qed.

Lemma spec_rx_stop_cmd i t (A : Cells → Prop) `{!Stable i A} `{!Kept i A} :
  spec i A (Session.rx_stop response_debug t)
    (λ r s, A s ∧ result_of i (TYPE_RX_STOP, []) (λ _, REmpty) r s).
Proof using Type. apply (spec_helper i); [apply _..|]. by intros []. Qed.

(** The device has reported [td] for the transmission [cmd] of task [i]. *)
Definition transmitted (i : nat) (cmd : Z * list byte) (td : TxDonePayload) (s : Cells) : Prop :=
  td_result td = Transmitted ∧ answered i cmd (RTxDone td) s.

#[global] Instance transmitted_stable i j cmd td : Stable i (transmitted j cmd td).
Proof using Type. unfold transmitted. apply _. Qed.
#[global] Instance transmitted_kept i j cmd td : Kept i (transmitted j cmd td).
Proof using Type. unfold transmitted. apply _. Qed.

Lemma spec_transmit i data skip t (A : Cells → Prop) `{!Stable i A} `{!Kept i A} :
  spec i A (transmit response_debug data skip t)
    (λ r s, A s ∧ ∀ td, r = Ok td → transmitted i (tx_command skip data) td s).
Proof using Type.
  unfold transmit. destruct data as [|b data]; [by apply spec_ret; [apply _|]|].
  destruct (_ <=? _)%nat; [|apply spec_panic].
  eapply spec_post with (Q := λ r s, (A s ∧ ∀ td, r = Ok td → td_result td = Transmitted) ∧
    result_of i (tx_command skip (b :: data)) RTxDone r s).
  - eapply spec_bind; [apply _|by apply spec_reply_to|].
    intros [[| | |td|]|e]; try (by apply spec_ret; [apply _|intros s _ [??]]).
    destruct (td_result td) eqn:Htd; apply spec_ret; try apply _; intros s _ [HA Hin];
      (split; [split; [done|]|]); intros td' [= <-]; [done|]. by apply Hin.
  - intros r s _ [[HA Hok] Hin]. split; [done|]. intros td Htd. split; [by apply Hok|by apply Hin].
Qed.

Lemma spec_cache i m r (A : Cells → Prop) `{!Stable i A} `{!Kept i A} :
  spec i (λ s, A s ∧ ∀ c, (Ok r : ClientResult SetConfigResult) = Ok c → ∃ pl,
      encode_set_config m = Ok pl ∧ answered i (TYPE_SET_CONFIG, pl) (RSetConfig c) s)
    (trigger (DSetConfig (sc_current r)))
    (λ _ s, A s ∧ ∃ pl, encode_set_config m = Ok pl ∧ answered i (TYPE_SET_CONFIG, pl) (RSetConfig r) s).
Proof using Type.
  apply spec_trigger; [apply _..|]. intros s c [] s' HI [HA He] [= <-].
  destruct (He r eq_refl) as (pl & Hpl & Hin). split_and!.
  - destruct HI as (_ & Hrx & Hreads). split_and!; [|done|done].
    right. exists r. split; [|done]. by exists i, pl.
  - intros j _. by split.
  - by eapply kept.
  - exists pl. split; [done|]. exact Hin.
Qed.

(** Reception counts as started once it has been acknowledged. *)
Lemma spec_set_started i (e : dongE unit) (A : Cells → Prop) `{!Stable i A} `{!Kept i A} :
  e = DSetRxStarted true ∨ e = DWriteRx true →
  spec i (λ s, A s ∧ rx_acknowledged s) (trigger e) (λ _ s, A s ∧ rx_acknowledged s).
Proof using Type.
  intros He. apply spec_trigger; [apply _..|]. intros s c [] s' (HI & Hrx & Hreads) [HA Hack] Hd.
  assert (c_rx_owner s' = c_rx_owner s ∧ c_config s' = c_config s ∧ c_log s' = c_log s ∧
          c_reads s' = c_reads s) as (O & C & L & D).
  { unfold cells_do in Hd. destruct He as [-> | ->]; simpl in Hd; unfold cells_do in Hd; simpl in Hd;
      [destruct (c_rx_owner s) eqn:E|]; by simplify_eq/=. }
  assert (rx_acknowledged s') as Hack' by (unfold rx_acknowledged; by rewrite L).
  split_and!; [|intros j _; split; [by rewrite O|by rewrite L]|eapply kept; [done..|by rewrite L]|done].
  split_and!; [|done|].
  - rewrite C. eapply known_config_log; [done|by rewrite L].
  - rewrite D. intros j cfg Hin. eapply known_config_log; [by eapply Hreads|by rewrite L].
Qed.

Lemma spec_lock_rx i :
  spec i (guard false i) (trigger DLockRx)
    (λ b s, guard true i s ∧ (b = true → rx_acknowledged s)).
Proof using Type.
  apply spec_trigger; [apply _..|]. intros s c x s' HI Hg Hd. unfold cells_do in Hd. simpl in *.
  unfold cells_do in Hd. simpl in Hd. destruct (c_rx_owner s) as [j|] eqn:HO; [done|].
  injection Hd as <- <-. split_and!; [apply (inv_log s); auto| |done|apply HI].
  intros j Hij. split; [|done]. simpl. rewrite HO. split; congruence.
Qed.

Lemma spec_unlock_rx i (φ : Prop) :
  spec i (λ s, guard true i s ∧ (φ → rx_acknowledged s)) (trigger DUnlockRx)
    (λ _ s, guard false i s ∧ (φ → rx_acknowledged s)).
Proof using Type.
  apply spec_trigger; [apply _..|]. intros s c x s' HI [Hg Hack] [= <- <-]. simpl in *.
  split_and!; [apply (inv_log s); auto| |done|done].
  intros j Hij. split; [|done]. simpl. rewrite Hg. split; congruence.
Qed.

Ltac plain_step :=
  eapply spec_bind; [apply _|apply spec_plain; [apply _..|solve_uses]|].

Lemma spec_reapply i : spec i (guard false i) (reapply_config response_debug) (λ _, guard false i).
Proof using Type.
  unfold reapply_config. plain_step. intros cfg. plain_step.
  intros [m|e]; [|by apply spec_ret; [apply _|]].
  eapply spec_bind; [apply _|apply spec_set_config_cmd; apply _|].
  intros [r|e]; [|by apply spec_ret; [apply _|intros s _ [? _]]].
  eapply spec_bind; [apply _|apply spec_cache; apply _|]. intros [].
  by apply spec_ret; [apply _|intros s _ [? _]].
Qed.

Lemma spec_tx i data skip t :
  spec i (guard false i) (tx_with_timeout response_debug data skip t)
    (λ r s, guard false i s ∧ ∀ td, r = Ok td → transmitted i (tx_command skip data) td s).
Proof using Type.
  unfold tx_with_timeout, check_open, mark_write. plain_step.
  intros [[]|e]; [|by apply spec_ret; [apply _|]]. plain_step. intros [].
  eapply spec_bind; [apply _|apply spec_transmit; apply _|].
  intros [td|e]; [by apply spec_ret; [apply _|]|].
  destruct e; try (by apply spec_ret; [apply _|]).
  unfold recover_and_retry_tx. eapply spec_bind; [apply _| |].
  { eapply spec_conseq; [apply spec_reapply|]. by intros s _ [? _]. }
  intros [[]|e]; [|by apply spec_ret; [apply _|]]. apply spec_transmit; apply _.
Qed.

(** Leaving [rx_start] with its guard held. *)
Lemma spec_rx_leave i (r : ClientResult unit) :
  spec i (λ s, guard true i s ∧ (r = Ok tt → rx_acknowledged s)) (trigger DUnlockRx ;; Ret r)
    (λ r s, guard false i s ∧ (r = Ok tt → rx_acknowledged s)).
Proof using Type.
  eapply spec_bind; [apply _|apply (spec_unlock_rx i (r = Ok tt))|]. intros []. by apply spec_ret; [apply _|].
Qed.

Lemma spec_rx_start i :
  spec i (guard false i) (rx_start response_debug)
    (λ r s, guard false i s ∧ (r = Ok tt → rx_acknowledged s)).
Proof using Type.
  unfold rx_start, check_open, mark_write. plain_step.
  intros [[]|e]; [|by apply spec_ret; [apply _|]]. plain_step. intros [].
  eapply spec_bind; [apply _|apply spec_lock_rx|]. intros [].
  { eapply spec_conseq; [apply spec_rx_leave|]. intros s _ [? Hack]. auto. }
  eapply spec_bind; [apply _|eapply spec_conseq; [apply (spec_rx_start_cmd i 2000 (guard true i))|by intros s _ [? _]]|].
  intros [[]|e].
  { eapply spec_bind; [apply _|eapply spec_conseq; [apply (spec_set_started i (DWriteRx true) (guard true i)); by right|]|].
    - intros s _ [? Hack]. auto.
    - intros []. eapply spec_conseq; [apply spec_rx_leave|]. intros s _ [??]. auto. }
  destruct e; try (eapply spec_conseq; [apply spec_rx_leave|by intros s _ [??]]).
  eapply spec_bind; [apply _|eapply spec_conseq; [apply (spec_unlock_rx i False)|by intros s _ [??]]|]. intros [].
  eapply spec_bind; [apply _|eapply spec_conseq; [apply spec_reapply|by intros s _ [??]]|].
  intros [[]|e]; [|by apply spec_ret; [apply _|]].
  eapply spec_bind; [apply _|apply (spec_rx_start_cmd i 2000 (guard false i))|].
  intros [[]|e]; [|by apply spec_ret; [apply _|]].
  eapply spec_bind; [apply _|eapply spec_conseq; [apply (spec_set_started i (DSetRxStarted true) (guard false i)); by left|]|].
  - intros s _ [? Hack]. auto.
  - intros []. apply spec_ret; [apply _|]. intros s _ [??]. auto.
Qed.

Lemma spec_set_config_op i m :
  spec i (guard false i) (set_config response_debug m)
    (λ r s, guard false i s ∧ (r = Ok tt → ∃ c pl, encode_set_config m = Ok pl ∧
                                 answered i (TYPE_SET_CONFIG, pl) (RSetConfig c) s)).
Proof using Type.
  unfold set_config, check_open, mark_write. plain_step.
  intros [[]|e]; [|by apply spec_ret; [apply _|]]. plain_step. intros [].
  eapply spec_bind; [apply _|apply spec_set_config_cmd; apply _|].
  intros [r|e]; [|by apply spec_ret; [apply _|intros s _ [? _]]].
  eapply spec_bind; [apply _|apply spec_cache; apply _|]. intros []. plain_step. intros [].
  apply spec_ret; [apply _|]. intros s _ [? (pl & ? & ?)]. split; [done|]. by exists r, pl.
Qed.

Lemma spec_ping_op i :
  spec i (guard false i) (ping response_debug)
    (λ r s, guard false i s ∧ result_of i (TYPE_PING, []) (λ _, REmpty) r s).
Proof using Type.
  unfold ping, check_open, mark_write. plain_step.
  intros [[]|e]; [|by apply spec_ret; [apply _|]]. plain_step. intros []. apply spec_ping_cmd; apply _.
Qed.

Lemma spec_rx_stop_op i :
  spec i (guard false i) (rx_stop response_debug)
    (λ r s, guard false i s ∧ result_of i (TYPE_RX_STOP, []) (λ _, REmpty) r s).
Proof using Type.
  unfold rx_stop, check_open, mark_write. plain_step.
  intros [[]|e]; [|by apply spec_ret; [apply _|]]. plain_step. intros [].
  eapply spec_bind; [apply _|apply spec_rx_stop_cmd; apply _|].
  intros [[]|e]; [|by apply spec_ret; [apply _|intros s _ [? _]]]. plain_step. intros [].
  apply spec_ret; [apply _|]. intros s _ [? Hr]. split; [done|]. intros [] _. by apply (Hr tt).
Qed.

(** A retried TX that succeeds ends with a transmission the device has reported. *)
Definition outcome_ok (i : nat) (data : list byte) (p : RetryPolicy) (r : ClientResult TxOutcome)
    (s : Cells) : Prop :=
  ∀ o, r = Ok o → ∃ td, transmitted i (tx_command (skip_cad p) data) td s ∧
                        final_airtime_us o = airtime_us td.

#[global] Instance outcome_ok_stable i data p r : Stable i (outcome_ok i data p r).
Proof using Type. unfold outcome_ok. apply _. Qed.

Lemma spec_retry i data p :
  spec i (guard false i) (tx_with_retry response_debug data p)
    (λ r s, guard false i s ∧ outcome_ok i data p r s).
Proof using Type.
  unfold tx_with_retry, check_open. plain_step. intros [[]|e]; [|by apply spec_ret; [apply _|]].
  apply (spec_loop _ _ _ i _ (λ _, guard false i)); [apply _..|]. intros [[n d] atts].
  unfold retry_body, mark_write. destruct (_ <? n); [by apply spec_ret; [apply _|]|].
  plain_step. intros []. plain_step. intros started.
  eapply spec_bind; [apply _|apply spec_transmit; apply _|]. intros res.
  plain_step. intros ended. destruct res as [td|e].
  - apply spec_ret; [apply _|]. intros s _ [Hg Ht]. split; [done|]. intros o [= <-]. exists td.
    split; [by apply Ht|done].
  - destruct (negb _ || _); [by apply spec_ret; [apply _|intros s _ [? _]]|].
    eapply spec_bind; [apply _|apply spec_plain; [apply _..|unfold jitter_ms; solve_uses]|].
    intros j. plain_step. intros []. by apply spec_ret; [apply _|intros s _ [? _]].
Qed.

Lemma spec_recv_op i t : spec i (guard false i) (recv_with response_debug t) (λ _, guard false i).
Proof using Type.
  unfold recv_with, check_open. plain_step. intros o.
  destruct (is_err o); [by apply spec_ret; [apply _|]|]. plain_step. intros b.
  eapply (spec_bind _ _ _ i _ _ _ (λ _, guard false i)).
  - destruct b; [by apply spec_ret; [apply _|]|].
    eapply spec_bind; [apply _|apply spec_rx_start|]. intros r.
    by apply spec_ret; [apply _|intros s _ [? _]].
  - intros []; [by apply spec_ret; [apply _|]|]. apply spec_plain; [apply _..|solve_uses].
Qed.

(** What an operation's result says: success is the device's answer. *)
Definition op_result (i : nat) (o : op) (r : op_reply) (s : Cells) : Prop :=
  match o, r with
  | OTx data skip _, PTx (Ok td) => transmitted i (tx_command skip data) td s
  | OTxRetry data p, POutcome r => outcome_ok i data p r s
  | OSetConfig m, PUnit (Ok tt) => ∃ c pl, encode_set_config m = Ok pl ∧
      answered i (TYPE_SET_CONFIG, pl) (RSetConfig c) s
  | OPing, PUnit (Ok tt) => answered i (TYPE_PING, []) REmpty s
  | ORxStop, PUnit (Ok tt) => answered i (TYPE_RX_STOP, []) REmpty s
  | ORxStart, PUnit (Ok tt) => rx_acknowledged s
  | _, _ => True
  end.

Lemma spec_reply {A} i (o : op) (p : prog dongE A) (f : A → op_reply) (Q : A → Cells → Prop)
    `{!∀ a, Stable i (Q a)} :
  spec i (guard false i) p Q → (∀ a s, Q a s → guard false i s ∧ op_result i o (f a) s) →
  spec i (guard false i) (r ← p; Ret (f r)) (λ r s, guard false i s ∧ op_result i o r s).
Proof using Type.
  intros Hp HQ. eapply spec_bind; [apply _|exact Hp|]. intros r. apply spec_ret; [apply _|auto].
Qed.

Lemma spec_op i o :
  spec i (guard false i) (run_op response_debug o)
    (λ r s, guard false i s ∧ op_result i o r s).
Proof using Type.
  destruct o as [data skip t|data p| | |t|m| | | | |]; unfold run_op;
    [refine (spec_reply _ _ _ _ _ (spec_tx i data skip t) _);
       intros [td|] s [? Ht]; (split; [done|]); [by apply Ht|done]
    |by refine (spec_reply _ _ _ _ _ (spec_retry i data p) _)
    |refine (spec_reply _ _ _ _ _ (spec_rx_start i) _); intros [[]|] s [? Hr]; (split; [done|]);
       [by apply Hr|done]
    |refine (spec_reply _ _ _ _ _ (spec_rx_stop_op i) _); intros [[]|] s [? Hr]; (split; [done|]);
       [by apply (Hr tt)|done]
    |by refine (spec_reply _ _ _ _ (λ _, guard false i) (spec_recv_op i t) _)
    |refine (spec_reply _ _ _ _ _ (spec_set_config_op i m) _); intros [[]|] s [? Hr];
       (split; [done|]); [by apply Hr|done]
    |refine (spec_reply _ _ _ _ _ (spec_ping_op i) _); intros [[]|] s [? Hr]; (split; [done|]);
       [by apply (Hr tt)|done]
    |apply (spec_reply _ _ _ _ (λ _, guard false i)); [|done]..].
  all: apply spec_plain; [apply _..|].
  all: unfold config, drain_async_errors, close, drop_dongle, abort_keepalive; solve_uses.
Qed.

Lemma spec_keepalive i :
  spec i (guard false i) (keepalive_task response_debug) (λ _, guard false i).
Proof using Type.
  apply spec_plain; [apply _..|]. unfold keepalive_task, loop, keepalive_body, Session.ping,
    Session.set_config. solve_uses.
Qed.
End inv.

(** ** Every interleaving *)

Section all.
Context `{Wire}.
Variable response_debug : SessionResponse → string.

Lemma cells_inv_new applied ka now : cells_inv applied (new_cells applied ka now).
Proof using Type. split_and!; [by left|done|]. intros i cfg Hin. by apply elem_of_nil in Hin. Qed.

Lemma cells_drop_ok applied i s :
  cells_inv applied s → cells_inv applied (on_drop i s) ∧ Guar cells_rely i s (on_drop i s).
Proof using Type.
  intros HI. split; [apply (inv_log applied s); auto|]. intros j Hij. split; [|done]. simpl.
  case_decide; [|done]. split; congruence.
Qed.

(** What a finished task says. *)
Definition pool_result (ops : list op) (i : nat) (r : op_reply) (s : Cells) : Prop :=
  guard false i s ∧
  match i with
  | O => True
  | S k => ∀ o, ops !! k = Some o → op_result i o r s
  end.

Lemma dongle_pool_safe applied ka now ops :
  pool_safe (cells_inv applied) cells_rely (pool_result ops)
    (dongle_pool response_debug applied ka now ops).
Proof using Type.
  split; [by apply cells_inv_new|]. intros i p Hp n.
  apply lookup_map_seq_Some in Hp as [_ Hp]. rewrite Nat.sub_0_r in Hp.
  pose proof (cells_inv_new applied ka now) as HI.
  apply lookup_cons_Some in Hp as [[-> <-]|[Hi Hp]].
  - apply (safe_post _ _ n 0 _ (λ _, guard false 0)); [|by intros r s _ Hg].
    destruct ka.
    + refine (spec_map _ _ _ 0 _ _ (λ _, PNone) _ _ (spec_keepalive _ applied 0) _ n _ HI _); [by intros a s _ Hg|done].
    + by apply safe_ret; intros s1 [O _] _; simpl in *; rewrite <- O.
  - destruct i as [|k]; [lia|]. replace (S k - 1)%nat with k in Hp by lia.
    rewrite list_lookup_fmap in Hp. destruct (ops !! k) as [o|] eqn:Ho; [|done].
    injection Hp as <-.
    eapply safe_post; [by apply (spec_op response_debug applied (S k) o n)|].
    intros r s _ [? ?]. split; [done|]. intros o' Ho'. by simplify_eq.
Qed.

(** The configuration kept for recovery is always one the device has confirmed:
    whatever calls run side by side with the keepalive and whichever are dropped,
    the cache holds the configuration the dongle was made with or the one the
    device echoed to some SET_CONFIG. *)
Theorem config_cache_is_echoed applied ka now ops cf :
  reachable (dongle_pool response_debug applied ka now ops) cf →
  c_config (shared cf) = applied ∨
  ∃ i pl r, (i, (TYPE_SET_CONFIG, pl), Ok (RSetConfig r)) ∈ c_log (shared cf) ∧
            c_config (shared cf) = Some (sc_current r).
Proof using Type.
  intros Hr. destruct (rg_adequacy _ _ _ (cells_drop_ok applied) _ _ _
    (dongle_pool_safe applied ka now ops) Hr) as [[[?|(r & (i & pl & ?) & ?)] _] _]; eauto 6.
Qed.

Lemma cells_owner X i c (e : dongE X) s x s' :
  do_eff i c e s = Some (x, s') →
  c_rx_owner s' = c_rx_owner s ∨ c_rx_owner s' = None ∨ c_rx_owner s' = Some i.
Proof using Type.
  simpl. unfold cells_do. destruct e; simpl; intros Hd; repeat case_match; simplify_eq/=; auto.
Qed.

(** The guard of [rx_started] belongs to a task of the pool. *)
Lemma rx_owner_is_task applied ka now ops cf i :
  reachable (dongle_pool response_debug applied ka now ops) cf →
  c_rx_owner (shared cf) = Some i → is_Some (tasks cf !! i).
Proof using Type.
  intros Hr. revert i. induction Hr as [|cf l cf' Hr IH Hst]; [done|]. intros i Hi.
  destruct l as [j c|j]; simpl in Hst; destruct (tasks cf !! j) as [p|] eqn:Hj; try done; simpl in Hst.
  - destruct (step_prog j c p (shared cf)) as [[p' s']|] eqn:Hs; [|done].
    injection Hst as <-. simpl in *. destruct (decide (i = j)) as [->|Hij];
      [by rewrite lookup_insert_eq; eexists|]. rewrite lookup_insert_ne by done. apply IH.
    destruct p as [a|X e k|S B body l k|m]; simpl in Hs; try done.
    + destruct (cells_do X j c e (shared cf)) as [[x s1]|] eqn:He; [|done]. injection Hs as <- <-.
      destruct (cells_owner X j c e _ x s1 He) as [E|[E|E]]; congruence.
    + by injection Hs as <- <-.
  - assert (cf' = Conf (delete j (tasks cf)) (on_drop j (shared cf))) as -> by (by destruct p; simplify_eq).
    simpl in *. case_decide; [done|]. rewrite lookup_delete_ne by congruence. by apply IH.
Qed.

(** C20: The mutex of [rx_started], which [rx_start] holds while it waits for the
    device, is only ever held by a call that is still running: every way out of an
    operation, errors and cancellation included, releases it. *)
Theorem rx_mutex_released applied ka now ops cf i :
  reachable (dongle_pool response_debug applied ka now ops) cf →
  c_rx_owner (shared cf) = Some i → ∃ p, tasks cf !! i = Some p ∧ ∀ r, p ≠ Ret r.
Proof using Type.
  intros Hr Hi. destruct (rx_owner_is_task _ _ _ _ _ _ Hr Hi) as [p Hp].
  exists p. split; [done|]. intros r ->.
  pose proof (rg_adequacy _ _ _ (cells_drop_ok applied) _ _ _ (dongle_pool_safe applied ka now ops) Hr)
    as Hsafe.
  by destruct (pool_safe_result _ _ _ _ _ _ _ Hsafe Hp).
Qed.
End all.

(** ** Races *)

(** A session response of any kind, for the messages. *)
Definition any_debug `{WireTypes} (_ : SessionResponse) : string := "response".

(** The step of task [i] at the instant [now], in which a command is answered with [r]. *)
Definition does (i : nat) (now : Z) (r : SessionResponse) : label dongE Cells :=
  Run i {| dc_now := now; dc_reply := Ok r; dc_rx := None; dc_drained := []; dc_random := 0;
           dc_alive := true |}.
Definition goes (i n : nat) : list (label dongE Cells) := replicate n (does i 0 REmpty).

Definition low_power : LoRaConfig := {|
  freq_hz := 910525000; sf := 7; bw := 6; cr := tt; preamble_len := 16; sync_word := 5156;
  tx_power_dbm := 2; header_mode := tt; payload_crc := true; iq_invert := false |}.

(** The device applies a SET_CONFIG and echoes [cfg]. *)
Definition echo (cfg : LoRaConfig) : SessionResponse :=
  RSetConfig {| sc_result := tt; sc_owner := tt; sc_current := LoRa cfg |}.

Definition set_config_answered (i : nat) (cfg : LoRaConfig) : list (label dongE Cells) :=
  goes i 2 ++ [does i 0 (echo cfg)].

(** The keepalive's PING is refused, it takes the cached configuration; a
    [set_config] runs to its end; the keepalive sends what it took. *)
Definition keepalive_reverts : list (label dongE Cells) :=
  goes 0 5 ++ [does 0 600 REmpty; does 0 600 (RErr NotConfigured)] ++ goes 0 1 ++
  set_config_answered 1 low_power ++ goes 1 2 ++ [does 0 600 (echo demo_config)] ++ goes 0 1.

(** Two calls are answered in one order and update the cache in the other. *)
Definition cache_misordered : list (label dongE Cells) :=
  set_config_answered 1 low_power ++ set_config_answered 2 demo_config ++ goes 2 2 ++ goes 1 2.

(** C39: The cache may miss the configuration the device has: the recovery of the
    keepalive re-sends the configuration it read before a [set_config] that has
    succeeded meanwhile, without caching it again; and two concurrent [set_config]s
    can cache their results in the other order than the device applied them.  In
    both runs every call has succeeded, the device's last confirmed configuration
    is [demo_config], and the cache says [low_power]. *)
Theorem cache_can_miss_last_config :
  let keeper := dongle_pool any_debug (Some (LoRa demo_config)) true 0 [OSetConfig (LoRa low_power)] in
  let two := dongle_pool any_debug None false 0 [OSetConfig (LoRa low_power); OSetConfig (LoRa demo_config)] in
  Forall (λ start, ∃ cf, reachable start cf ∧
      tasks cf !! 1%nat = Some (Ret (PUnit (Ok tt))) ∧
      (∃ i pl, last (c_log (shared cf)) = Some (i, (TYPE_SET_CONFIG, pl), Ok (echo demo_config))) ∧
      c_config (shared cf) = Some (LoRa low_power))
    [keeper; two].
Proof.
  intros keeper two. repeat constructor;
    [exists (after keepalive_reverts keeper)|exists (after cache_misordered two)];
    (split_and!; [apply after_reachable|vm_compute; reflexivity|eexists _, _; vm_compute; reflexivity
      |vm_compute; reflexivity]).
Qed.

Lemma config_cache_is_echoed_witness :
  let cf := after cache_misordered (dongle_pool any_debug None false 0
              [OSetConfig (LoRa low_power); OSetConfig (LoRa demo_config)]) in
  c_config (shared cf) = None ∨
  ∃ i pl r, (i, (TYPE_SET_CONFIG, pl), Ok (RSetConfig r)) ∈ c_log (shared cf) ∧
            c_config (shared cf) = Some (sc_current r).
Proof.
  apply (config_cache_is_echoed any_debug None false 0
           [OSetConfig (LoRa low_power); OSetConfig (LoRa demo_config)]), after_reachable.
Defined.

Lemma rx_mutex_released_witness :
  ∃ p, tasks (after (goes 1 3) (dongle_pool any_debug None false 0 [ORxStart])) !! 1%nat = Some p ∧
       ∀ r, p ≠ Ret r.
Proof.
  apply (rx_mutex_released any_debug None false 0 [ORxStart] _ 1 (after_reachable _ _)).
  reflexivity.
Defined.
