(* ===== verification/DongleLink.v ===== *)
(** * The dongle over its session

    The whole client at work: the operations of [Dongle.v] and the keepalive task,
    each command of theirs a run of [Session]'s functions, beside the session's
    reader, all over one shared state.  [link] puts the session's programs in the
    place of the session effects.  What the linked pool does to the dongle's cells the
    pool of [DonglePool.v], where a command is one step with any answer, does too
    ([client_simulated]), so what holds of the cells there holds here. *)

From S2P Require Import Prelude Runtime Errors Protocol Retry Session SessionInv SessionSpec SessionPool Dongle DonglePool.
Local Open Scope Z_scope.

(** ** Linking *)

Section link.
Context `{Wire}.

(** [Commit e x] marks the instant at which the session effect [e] has returned
    [x]; it only extends the log. *)
Inductive linkE : Type → Type :=
| SessOp {X} (e : sessE X) : linkE X
| CellOp {X} (e : dongE X) : linkE X
| Commit {X} (e : dongE X) (x : X) : linkE unit.

Definition lift {A} (p : prog sessE A) : prog linkE A := translate (@SessOp) p.

(** The session's function behind an effect, if it is one of the session's. *)
Definition session_prog {X} (e : dongE X) : option (prog sessE X) :=
  match e in dongE X return option (prog sessE X) with
  | DSend ty pl t => Some (send_command ty pl t)
  | DRecvRx (Some t) => Some (recv_rx t)
  | DRecvRx None => Some Session.next_rx
  | DSessionDrain => Some Session.drain_async_errors
  | DSessionClose => Some Session.close
  | _ => None
  end.

Definition link_eff {X A} (e : dongE X) (k : X → prog linkE A) : prog linkE A :=
  match session_prog e with
  | Some q => prog_bind (lift q) (λ x, Vis (Commit e x) (λ _, k x))
  | None => Vis (CellOp e) k
  end.

Fixpoint link {A} (p : prog dongE A) : prog linkE A :=
  match p with
  | Ret a => Ret a
  | Vis e k => link_eff e (λ x, link (k x))
  | Loop body s k => Loop (λ s, link (body s)) s (λ b, link (k b))
  | Panic m => Panic m
  end.

(** The choice with which the effect [e] returns [x]. *)
Definition answering {X} (e : dongE X) (x : X) (c : dchoice) : dchoice :=
  match e in dongE X return X → dchoice with
  | DSend _ _ _ => λ r, {| dc_now := dc_now c; dc_reply := r; dc_rx := dc_rx c;
      dc_drained := dc_drained c; dc_random := dc_random c; dc_alive := dc_alive c |}
  | DRecvRx _ => λ rx, {| dc_now := dc_now c; dc_reply := dc_reply c; dc_rx := rx;
      dc_drained := dc_drained c; dc_random := dc_random c; dc_alive := dc_alive c |}
  | DSessionDrain => λ es, {| dc_now := dc_now c; dc_reply := dc_reply c; dc_rx := dc_rx c;
      dc_drained := es; dc_random := dc_random c; dc_alive := dc_alive c |}
  | _ => λ _, c
  end x.

Definition link_do (X : Type) (i : nat) (c : sess_choice * dchoice) (e : linkE X)
    (s : Sess * Cells) : option (X * (Sess * Cells)) :=
  match e in linkE X return option (X * (Sess * Cells)) with
  | SessOp e => '(x, s') ← sess_do _ i c.1 e s.1; Some (x, (s', s.2))
  | CellOp e => '(x, c') ← cells_do _ i c.2 e s.2; Some (x, (s.1, c'))
  | Commit e x => '(_, c') ← cells_do _ i (answering e x c.2) e s.2; Some (tt, (s.1, c'))
  end.

#[export] Instance link_sem : Sem linkE (Sess * Cells) :=
  {| choice := sess_choice * dchoice; do_eff := link_do;
     on_drop := λ i s, (sess_drop i s.1, cells_drop i s.2) |}.

Variable response_debug : SessionResponse → string.

(** The client: the keepalive, the operations, and the session's reader, whose task
    comes last. *)
Definition reader_at (ops : list op) : nat := S (length ops).
Definition client_pool (applied : option Modulation) (keepalive : bool) (now : Z)
    (ops : list op) : conf linkE (Sess * Cells) op_reply :=
  Conf (map_seq 0 ((link <$> dongle_tasks response_debug keepalive ops) ++
                   [lift (reader_loop ;; Ret PNone)]))
       (spawn_state (reader_at ops), new_cells applied keepalive now).
End link.

(** ** The linked pool refines the dongle's pool *)

Section simulation.
Context `{Wire}.

Definition is_sess (X : Type) (e : linkE X) : Prop :=
  match e with SessOp _ => True | _ => False end.

(** [linked p c]: the linked program [c] is at the point where [p] is, or inside
    the run of the session's function that [p] waits for. *)
Inductive linked {A} : prog dongE A → prog linkE A → Prop :=
| lk_ret a : linked (Ret a) (Ret a)
| lk_cell {X} (e : dongE X) k k' :
    (∀ x, linked (k x) (k' x)) → linked (Vis e k) (Vis (CellOp e) k')
| lk_run {X} (e : dongE X) k (q : prog linkE X) k' c :
    is_Some (session_prog e) → uses is_sess q → (∀ x, linked (k x) (k' x)) →
    peq (prog_bind q (λ x, Vis (Commit e x) (λ _, k' x))) c → linked (Vis e k) c
| lk_loop {S B} (body : S → prog dongE (S + B)) body' l k k' :
    (∀ l, linked (body l) (body' l)) → (∀ b, linked (k b) (k' b)) →
    linked (Loop body l k) (Loop body' l k')
| lk_panic m : linked (Panic m) (Panic m).

Lemma uses_lift {A} (p : prog sessE A) : uses is_sess (lift p).
Proof using Type. unfold lift. induction p; by constructor. Qed.

Lemma linked_link {A} (p : prog dongE A) : linked p (link p).
Proof using Type.
  induction p as [A a|A X e k IH|A S B body IHb l k IHk|A m]; simpl; try by constructor.
  unfold link_eff. destruct (session_prog e) as [q|] eqn:Hq; [|by constructor].
  by eapply lk_run; [by eexists|apply uses_lift|exact IH|].
Qed.

Lemma linked_bind {A B} (p : prog dongE A) c (f : A → prog dongE B) g :
  linked p c → (∀ a, linked (f a) (g a)) → linked (prog_bind p f) (prog_bind c g).
Proof using Type.
  intros Hp Hf.
  induction Hp as [A a|A X e k k' _ IH|A X e k q k' c He Hq _ IH Hc
    |A S B' body body' l k k' Hb _ _ IH|A m];
    simpl; [done|by constructor; auto| |by constructor; auto|by constructor].
  eapply (lk_run e _ q); [done|done|intros x; by apply IH|].
  etrans; [|apply peq_bind; [exact Hc|done]]. symmetry. by apply peq_bind_assoc.
Qed.

Lemma linked_ret {A} (p : prog dongE A) r : linked p (Ret r) → p = Ret r.
Proof using Type.
  remember (Ret r) as c eqn:Ec. destruct 1 as [a|X e k k' Hk|X e k q k' c He Hq Hk Hc|S B body body' l k k' Hb Hk|m]; try congruence.
  subst c. symmetry in Hc. apply peq_inv in Hc. by destruct q.
Qed.

Lemma linked_peq {A} (p : prog dongE A) c c' : linked p c → peq c c' → linked p c'.
Proof using Type.
  intros Hp. revert c'.
  induction Hp as [A a|A X e k k' _ IH|A X e k q k' c He Hq Hk _ Hc
    |A S B' body body' l k k' Hb _ _ IH|A m]; intros c' Hcc.
  - apply peq_inv in Hcc as ->. constructor.
  - apply peq_inv in Hcc as (k2 & -> & ?). constructor. auto.
  - eapply lk_run; [done..|]. by etrans.
  - apply peq_inv in Hcc as (k2 & -> & ?). constructor; auto.
  - apply peq_inv in Hcc as ->. constructor.
Qed.

Lemma answering_spec {X} i (e : dongE X) x y c s s' :
  is_Some (session_prog e) → cells_do X i (answering e x c) e s = Some (y, s') → y = x.
Proof using Type.
  intros [q Hq]. unfold cells_do. destruct e; try done; simpl; intros Hd; simplify_eq; [done..|].
  by destruct x.
Qed.

(** A task's step: the dongle's program makes the same step, or none while a
    session function runs. *)
Lemma linked_step {A} i ch (p : prog dongE A) c c' s s' :
  linked p c → step_prog i ch c s = Some (c', s') →
  (linked p c' ∧ s'.2 = s.2) ∨
  ∃ chd p', step_prog i chd p s.2 = Some (p', s'.2) ∧ linked p' c'.
Proof using Type.
  intros Hp. destruct Hp as [a|X e k k' Hk|X e k q k' c He Hq Hk Hc|S B body body' l k k' Hb Hk|m];
    simpl; try done.
  - intros Hs. right. exists ch.2. destruct (cells_do X i ch.2 e s.2) as [[x c1]|]; [|done].
    simplify_eq/=. eauto.
  - intros Hs. symmetry in Hc. destruct (step_prog_peq _ _ _ _ _ _ _ Hc Hs) as (c1 & Hst & Hc1).
    clear Hs Hc. symmetry in Hc1. destruct Hq as [x|Y e0 f He0 Hf|S B body l f Hb Hf|m]; try done; simpl in Hst.
    + right. exists (answering e x ch.2). destruct (cells_do _ _ _ _ _) as [[y cs]|] eqn:Hd; [|done].
      pose proof (answering_spec _ _ _ _ _ _ _ He Hd) as ->. simplify_eq/=.
      eexists. split; [done|]. by eapply linked_peq.
    + left. destruct e0; try done. simpl in Hst. destruct (sess_do _ _ _ _ _) as [[y s1]|]; [|done].
      simplify_eq/=. split; [|done]. by eapply lk_run.
    + left. simplify_eq. split; [|done]. eapply (lk_run e k (prog_bind (body l)
        (λ r, match r with inl l' => Loop body l' f | inr b => f b end))); [done| |exact Hk|].
      * apply uses_bind; [done|]. intros [l'|b]; [by constructor|done].
      * etrans; [|exact Hc1]. apply peq_bind_assoc. by intros [l'|b].
  - intros [= <- <-]. right. exists (ch.2). eexists. split; [done|].
    apply linked_bind; [done|]. intros [l'|b]; [by constructor|done].
Qed.

(** A task of session effects only leaves the cells alone. *)
Lemma sess_step {A} i ch (q q' : prog linkE A) s s' :
  uses is_sess q → step_prog i ch q s = Some (q', s') → uses is_sess q' ∧ s'.2 = s.2.
Proof using Type.
  intros [x|Y e0 f He0 Hf|S B body l f Hb Hf|m] Hst; try done; simpl in Hst.
  - destruct e0; try done. simpl in Hst. destruct (sess_do _ _ _ _ _) as [[y s1]|]; [|done].
    simplify_eq/=. auto.
  - simplify_eq. split; [|done]. apply uses_bind; [done|]. intros [l'|b]; [by constructor|done].
Qed.

(** The two pools in step; [r] is the reader's task, which the dongle's pool lacks. *)
Record client_sim (r : nat) (cf : conf linkE (Sess * Cells) op_reply)
    (cfa : conf dongE Cells op_reply) : Prop := {
  sim_cells : shared cfa = (shared cf).2;
  sim_reader : tasks cfa !! r = None;
  sim_sess c : tasks cf !! r = Some c → uses is_sess c;
  sim_none i : i ≠ r → tasks cf !! i = None → tasks cfa !! i = None;
  sim_some i c : i ≠ r → tasks cf !! i = Some c → ∃ p, tasks cfa !! i = Some p ∧ linked p c;
}.

Lemma sim_run r cf cfa i ch c c' s' :
  client_sim r cf cfa → tasks cf !! i = Some c → step_prog i ch c (shared cf) = Some (c', s') →
  ∃ cfa', (cfa' = cfa ∨ ∃ l, step l cfa = Some cfa') ∧
    client_sim r (Conf (<[i := c']> (tasks cf)) s') cfa'.
Proof using Type.
  intros [Hc Hr Hss Hn Hs] Hi Hst. destruct (decide (i = r)) as [->|Hir].
  - destruct (sess_step _ _ _ _ _ _ (Hss c Hi) Hst) as [Hu E]. exists cfa. split; [by left|].
    split; simpl; [congruence|done|..].
    + intros c1. rewrite lookup_insert_eq. by intros [= <-].
    + intros j Hj. rewrite lookup_insert_ne by done. auto.
    + intros j c1 Hj. rewrite lookup_insert_ne by done. auto.
  - destruct (Hs i c Hir Hi) as (p & Hp & Hl).
    destruct (linked_step _ _ _ _ _ _ _ Hl Hst) as [[Hl' E]|(chd & p' & Hstep & Hl')].
    + exists cfa. split; [by left|]. split; simpl; [congruence|done|..].
      * intros c1. rewrite lookup_insert_ne by done. auto.
      * intros j Hj. destruct (decide (j = i)) as [->|]; [by rewrite lookup_insert_eq|].
        rewrite lookup_insert_ne by done. auto.
      * intros j c1 Hj. destruct (decide (j = i)) as [->|].
        { rewrite lookup_insert_eq. intros [= <-]. eauto. }
        rewrite lookup_insert_ne by done. auto.
    + exists (Conf (<[i := p']> (tasks cfa)) s'.2). split.
      { right. exists (Run i chd). simpl. rewrite Hp. simpl. by rewrite Hc, Hstep. }
      split; simpl; [done| | | |].
      * by rewrite lookup_insert_ne.
      * intros c1. rewrite lookup_insert_ne by done. auto.
      * intros j Hj. destruct (decide (j = i)) as [->|]; [by rewrite lookup_insert_eq|].
        rewrite !lookup_insert_ne by done. auto.
      * intros j c1 Hj. destruct (decide (j = i)) as [->|].
        { rewrite !lookup_insert_eq. intros [= <-]. eauto. }
        rewrite !lookup_insert_ne by done. auto.
Qed.

Lemma sim_cancel r cf cfa i c :
  client_sim r cf cfa → c_rx_owner (shared cfa) ≠ Some r → tasks cf !! i = Some c →
  (∀ a, c ≠ Ret a) →
  ∃ cfa', (cfa' = cfa ∨ ∃ l, step l cfa = Some cfa') ∧
    client_sim r (Conf (delete i (tasks cf)) (on_drop i (shared cf))) cfa'.
Proof using Type.
  intros [Hc Hr Hss Hn Hs] Hown Hi Hret. destruct (decide (i = r)) as [->|Hir].
  - exists cfa. split; [by left|]. split; simpl; [|done|..].
    + rewrite <- Hc. unfold cells_drop. rewrite decide_False by done. by destruct (shared cfa).
    + intros c1. by rewrite lookup_delete_eq.
    + intros j Hj. rewrite lookup_delete_ne by done. auto.
    + intros j c1 Hj. rewrite lookup_delete_ne by done. auto.
  - destruct (Hs i c Hir Hi) as (p & Hp & Hl).
    exists (Conf (delete i (tasks cfa)) (on_drop i (shared cfa))). split.
    { right. exists (Cancel i). simpl. rewrite Hp. simpl. destruct Hl; try done. by destruct (Hret a). }
    split; simpl; [by rewrite Hc|by rewrite lookup_delete_ne|..].
    + intros c1. rewrite lookup_delete_ne by done. auto.
    + intros j Hj. destruct (decide (j = i)) as [->|]; [by rewrite !lookup_delete_eq|].
      rewrite !lookup_delete_ne by done. auto.
    + intros j c1 Hj. destruct (decide (j = i)) as [->|]; [by rewrite !lookup_delete_eq|].
      rewrite !lookup_delete_ne by done. auto.
Qed.
End simulation.

(** ** The whole client *)

Section client.
Context `{Wire}.
Variable response_debug : SessionResponse → string.

Lemma client_sim_start applied ka now ops :
  client_sim (reader_at ops) (client_pool response_debug applied ka now ops)
    (dongle_pool response_debug applied ka now ops).
Proof using Type.
  assert (length (dongle_tasks response_debug ka ops) = reader_at ops) as Hlen.
  { unfold dongle_tasks, reader_at. simpl. by rewrite length_fmap. }
  unfold client_pool, dongle_pool. split; cbn [shared tasks fst snd]; [done|..].
  - apply lookup_map_seq_None. right. rewrite Hlen. lia.
  - intros c. rewrite lookup_map_seq_Some, Nat.sub_0_r, lookup_app_r; rewrite length_fmap, Hlen; [|done].
    rewrite Nat.sub_diag. intros [_ [= <-]]. apply @uses_lift.
  - intros i Hi. rewrite !lookup_map_seq_None, length_app, length_fmap, Hlen. cbn [length]. lia.
  - intros i c Hi. rewrite lookup_map_seq_Some, Nat.sub_0_r. intros [_ Hc].
    destruct (decide (i < reader_at ops)%nat) as [Hlt|Hge].
    + rewrite lookup_app_l in Hc by (rewrite length_fmap, Hlen; done).
      rewrite list_lookup_fmap in Hc. destruct (_ !! i) as [p|] eqn:Hp; [|done].
      injection Hc as <-. exists p. split; [|apply linked_link].
      apply lookup_map_seq_Some. rewrite Nat.sub_0_r. split; [lia|done].
    + apply lookup_lt_Some in Hc. rewrite length_app, length_fmap, Hlen in Hc. cbn [length] in Hc. lia.
Qed.

Lemma client_simulated applied ka now ops cf :
  reachable (client_pool response_debug applied ka now ops) cf →
  ∃ cfa, reachable (dongle_pool response_debug applied ka now ops) cfa ∧
    shared cfa = (shared cf).2 ∧
    ∀ i r, i ≠ reader_at ops → tasks cf !! i = Some (Ret r) → tasks cfa !! i = Some (Ret r).
Proof using Type.
  intros Hr.
  assert (∃ cfa, reachable (dongle_pool response_debug applied ka now ops) cfa ∧
    client_sim (reader_at ops) cf cfa) as (cfa & Hra & Hsim).
  { induction Hr as [|cf l cf' Hr (cfa & Hra & Hsim) Hst];
      [eexists; split; [apply reach_refl|apply client_sim_start]|].
    assert (∃ cfa', (cfa' = cfa ∨ ∃ l, step l cfa = Some cfa') ∧
      client_sim (reader_at ops) cf' cfa') as (cfa' & [->|[l' Hl']] & Hsim'); [|by eauto..|].
    2:{ exists cfa'. split; [by eapply reach_step|done]. }
    destruct l as [i ch|i]; simpl in Hst; destruct (tasks cf !! i) as [c|] eqn:Hi; try done; simpl in Hst.
    - destruct (step_prog i ch c (shared cf)) as [[c' s']|] eqn:Hs; [|done]. injection Hst as <-.
      by eapply sim_run.
    - assert (∀ a, c ≠ Ret a) as Hret by (by intros a ->).
      assert (cf' = Conf (delete i (tasks cf)) (on_drop i (shared cf))) as -> by (by destruct c; simplify_eq).
      eapply sim_cancel; [done| |done..]. intros Hown.
      destruct (rx_owner_is_task _ _ _ _ _ _ _ Hra Hown) as [p Hp].
      by rewrite (sim_reader _ _ _ Hsim) in Hp. }
  exists cfa. split_and!; [done|by apply Hsim|]. intros i r Hi Ht.
  destruct (sim_some _ _ _ Hsim i _ Hi Ht) as (p & Hp & Hl). rewrite Hp. f_equal.
  by apply linked_ret.
Qed.
End client.
