(* ===== verification/ConfigTests.v ===== *)
(** * The tests of config validation

    The unit tests of [src/connect.rs] ([mod tests]) on the model of
    [prepare_config]: each test is the boolean of its assertions. *)

From S2P Require Import Prelude Errors Protocol Config.
Local Open Scope Z_scope.

(** [str::contains]. *)
Fixpoint contains (s sub : string) : bool :=
  String.prefix sub s ||
  match s with EmptyString => false | String _ s => contains s sub end.

Section tests.
Context `{Wire, !WireNames}.
Variable overflow_checks : bool.
(** [RadioChipId::Sx1262.as_u16()], [cap::LORA] and the FSK configuration. *)
Context (sx1262 cap_lora : Z) (fsk : OtherModulation).

Definition info (tx_min tx_max freq_min freq_max sf_bm bw_bm : Z) : Info := {|
  proto_major := 1; proto_minor := 0; fw_major := 0; fw_minor := 0; fw_patch := 0;
  radio_chip_id := sx1262; capability_bitmap := cap_lora; supported_sf_bitmap := sf_bm;
  supported_bw_bitmap := bw_bm; max_payload_bytes := 255; rx_queue_capacity := 32;
  tx_queue_capacity := 1; freq_min_hz := freq_min; freq_max_hz := freq_max;
  tx_power_min_dbm := tx_min; tx_power_max_dbm := tx_max; mcu_uid_len := 0; mcu_uid := [];
  radio_uid_len := 0; radio_uid := [] |}.

Definition lora (freq sf_ : Z) (bw_ : LoRaBandwidth) (power : Z) : LoRaConfig := {|
  freq_hz := freq; sf := sf_; bw := bw_; cr := Cr4_5; preamble_len := 8;
  sync_word := 13380; tx_power_dbm := power; header_mode := Explicit;
  payload_crc := true; iq_invert := false |}.

Definition SUB_GHZ_ALL_SF : Z := 8160.   (** 0x1FE0 *)
Definition SX127X_SF : Z := 8128.        (** 0x1FC0 *)
Definition SUB_GHZ_BW : Z := 1023.       (** 0x03FF *)

(** [prepare_config(..).unwrap()] is a LoRa configuration with [check]. *)
Definition expect_lora (i : Info) (cfg : LoRaConfig) (check : LoRaConfig → bool) : bool :=
  match prepare_config overflow_checks i (LoRa cfg) with
  | Some (Ok (LoRa out)) => check out
  | _ => false
  end.

(** [prepare_config(..).unwrap_err()] names [word]. *)
Definition expect_rejected (i : Info) (cfg : LoRaConfig) (word : string) : bool :=
  match prepare_config overflow_checks i (LoRa cfg) with
  | Some (Err (ConfigNotSupported reason)) => contains reason word
  | _ => false
  end.

Definition tx_power_above_max_clamps_down : bool :=
  expect_lora (info (-9) 20 863000000 928000000 SUB_GHZ_ALL_SF SUB_GHZ_BW)
    (lora 915000000 7 Khz125 30)
    (λ out, (tx_power_dbm out =? 20) && (freq_hz out =? 915000000)).

Definition tx_power_below_min_clamps_up : bool :=
  expect_lora (info 2 20 863000000 928000000 SUB_GHZ_ALL_SF SUB_GHZ_BW)
    (lora 915000000 7 Khz125 (-30)) (λ out, tx_power_dbm out =? 2).

Definition tx_power_in_range_unchanged : bool :=
  expect_lora (info (-9) 22 863000000 928000000 SUB_GHZ_ALL_SF SUB_GHZ_BW)
    (lora 915000000 7 Khz125 17) (λ out, tx_power_dbm out =? 17).

Definition freq_out_of_range_rejected : bool :=
  expect_rejected (info (-9) 22 863000000 928000000 SUB_GHZ_ALL_SF SUB_GHZ_BW)
    (lora 300000000 7 Khz125 14) "frequency".

Definition sf5_rejected_on_sx127x_bitmap : bool :=
  expect_rejected (info 2 20 863000000 1020000000 SX127X_SF SUB_GHZ_BW)
    (lora 915000000 5 Khz125 14) "SF5".

Definition bw_not_in_bitmap_rejected : bool :=
  expect_rejected (info (-9) 22 863000000 928000000 SUB_GHZ_ALL_SF SUB_GHZ_BW)
    (lora 915000000 7 Khz200 14) "bandwidth".

Definition non_lora_modulation_passes_through : bool :=
  match prepare_config overflow_checks
          (info (-9) 22 863000000 928000000 SUB_GHZ_ALL_SF SUB_GHZ_BW) (OtherMod fsk) with
  | Some (Ok (OtherMod _)) => true
  | _ => false
  end.

Definition config_tests : list bool := [
  tx_power_above_max_clamps_down; tx_power_below_min_clamps_up; tx_power_in_range_unchanged;
  freq_out_of_range_rejected; sf5_rejected_on_sx127x_bitmap; bw_not_in_bitmap_rejected;
  non_lora_modulation_passes_through].

(** *** The assertions, for any bandwidth that is a bit of the mask *)

Lemma expect_lora_accepted i cfg check :
  freq_min_hz i ≤ freq_hz cfg ≤ freq_max_hz i → 0 ≤ sf cfg < 16 → 0 ≤ bw_as_u8 (bw cfg) < 16 →
  Z.testbit (supported_sf_bitmap i) (sf cfg) = true →
  Z.testbit (supported_bw_bitmap i) (bw_as_u8 (bw cfg)) = true →
  expect_lora i cfg check = check (with_tx_power cfg (clamped i (tx_power_dbm cfg))).
Proof using Type.
  intros Hf Hs Hb Hsf Hbw. unfold expect_lora. rewrite prepare_config_eq by lia.
  unfold prepared, bit_tested. rewrite !(proj2 (Z.ltb_lt _ 16)) by lia. simpl.
  by rewrite decide_True, Hsf, Hbw by done.
Qed.

Lemma expect_rejected_spec i cfg word :
  0 ≤ sf cfg < 16 → 0 ≤ bw_as_u8 (bw cfg) < 16 →
  expect_rejected i cfg word =
    if decide (freq_min_hz i ≤ freq_hz cfg ≤ freq_max_hz i) then
      if Z.testbit (supported_sf_bitmap i) (sf cfg) then
        if Z.testbit (supported_bw_bitmap i) (bw_as_u8 (bw cfg)) then false
        else contains (bw_reason i cfg) word
      else contains (sf_reason i cfg) word
    else contains (freq_reason i cfg) word.
Proof using Type.
  intros Hs Hb. unfold expect_rejected. rewrite prepare_config_eq by lia.
  unfold prepared, bit_tested. rewrite !(proj2 (Z.ltb_lt _ 16)) by lia. simpl.
  destruct (decide _); [|done]. by do 2 (destruct (Z.testbit _ _); [|done]).
Qed.

(** The model passes the repository's tests of [prepare_config], in builds with and
    without overflow checks, for any wire crate in which 125 kHz is one of the
    sub-GHz bandwidths (bits 0 to 9) and 200 kHz is bit 10. *)
Theorem config_tests_pass :
  0 ≤ bw_as_u8 Khz125 ≤ 9 → bw_as_u8 Khz200 = 10 → Forall (eq true) config_tests.
Proof using Type.
  intros H125 H200.
  assert (Z.testbit SUB_GHZ_BW (bw_as_u8 Khz125) = true) as Hbw.
  { change SUB_GHZ_BW with (Z.ones 10). apply Z.ones_spec_low. lia. }
  unfold config_tests. rewrite !Forall_cons, Forall_nil. split_and!; [symmetry..|done].
  1-3: etrans; [apply expect_lora_accepted; simpl; try done; lia|reflexivity].
  - unfold freq_out_of_range_rejected. by rewrite expect_rejected_spec by (simpl; lia).
  - unfold sf5_rejected_on_sx127x_bitmap. by rewrite expect_rejected_spec by (simpl; lia).
  - unfold bw_not_in_bitmap_rejected. rewrite expect_rejected_spec by (simpl; rewrite ?H200; lia).
    cbn [bw lora]. by rewrite H200.
  - done.
Qed.
End tests.

#[export] Instance demo_names : WireNames := {
  Khz62 := 6; Khz125 := 7; Khz200 := 10; Cr4_5 := tt; Explicit := tt; Applied := tt; Mine := tt;
  Ota := tt; code_eqb _ _ := true; owner_eqb _ _ := true }.

Lemma config_tests_pass_witness : Forall (eq true) (config_tests true 18 1 tt).
Proof. apply config_tests_pass; simpl; lia. Defined.
