(* ===== verification/Client.v ===== *)
(** * The whole client

    The session's triples hold of its functions inside the client, and the
    simulation of [DongleLink.v] carries over what the dongle's pool guarantees;
    together: what an operation's result says about the frames on the wire. *)

From S2P Require Import Prelude Runtime Errors Protocol Retry Session SessionInv SessionSpec SessionPool Dongle DonglePool DongleLink.
Local Open Scope Z_scope.

Section inv.
Context `{Wire}.

(** The channel [w] is task [i]'s own, made for a command of type [ty] under [tag]. *)
Definition own_command (i w : nat) (tag ty : Z) (s : Sess) : Prop :=
  1 ≤ tag < 2 ^ 16 ∧ chan_info i w tag ty s.

(** What the answer to a command of task [i] says about the session: a response is
    what was sent over the command's own channel, and it is legitimate for the tag of
    that channel; an error that is not the session's being closed is about that tag
    too. *)
Definition reply_ok (i : nat) (ty : Z) (pl : list byte) (r : ClientResult SessionResponse)
    (s : Sess) : Prop :=
  match r with
  | Ok resp => ∃ w tag, own_command i w tag ty s ∧ value_at w resp s ∧ legit_now tag ty resp s
  | Err e =>
      (e = TransportClosed "session closed" ∧ closed s = true) ∨
      ∃ w tag, own_command i w tag ty s ∧
        (write_failure ty tag pl e ∨ e = ReaderExited ∨ e = TimedOut (describe_cmd ty))
  end.

#[global] Instance own_command_stable j i w tag ty :
  Runtime.Stable sess_inv rely j (own_command i w tag ty).
Proof using Type. unfold own_command. apply _. Qed.
#[global] Instance reply_ok_stable j i ty pl r :
  Runtime.Stable sess_inv rely j (reply_ok i ty pl r).
Proof using Type. unfold reply_ok. destruct r; apply _. Qed.

Definition client_inv (s : Sess * Cells) : Prop :=
  sess_inv s.1 ∧ ∀ i ty pl r, (i, (ty, pl), r) ∈ c_log s.2 → reply_ok i ty pl r s.1.

Definition client_rely (i : nat) (s s' : Sess * Cells) : Prop := rely i s.1 s'.1.

#[global] Instance client_rely_preorder i : PreOrder (client_rely i).
Proof using Type.
  split; [intros s; apply (rely_preorder i)|]. intros s1 s2 s3 H1 H2. exact (@transitivity _ (rely i) _ s1.1 s2.1 s3.1 H1 H2).
Qed.

Abbreviation Stable := (Runtime.Stable client_inv client_rely).
Abbreviation cspec := (Runtime.spec client_inv client_rely).

(** *** The session's triples inside the client *)

Lemma lift_bind {A B} (p : prog sessE A) (f : A → prog sessE B) :
  peq (lift (prog_bind p f)) (prog_bind (lift p) (λ a, lift (f a))).
Proof using Type. apply translate_bind. Qed.

(** A step of the session keeps what the log says. *)
Lemma client_inv_step i s c s' :
  client_inv (s, c) → sess_inv s' → Guar i s s' → client_inv (s', c).
Proof using Type.
  intros [_ Hl] HI HG. split; [done|]. intros j ty pl r Hin.
  eapply (reply_ok_stable (S i)); [by apply Hl|apply HG; lia|done].
Qed.

Lemma lift_step X i (c : sess_choice * dchoice) (e : sessE X) t x t' :
  link_do X i c (SessOp e) t = Some (x, t') →
  sess_do X i c.1 e t.1 = Some (x, t'.1) ∧
  (client_inv t → sess_inv t'.1 → Guar i t.1 t'.1 → client_inv t' ∧ Runtime.Guar client_rely i t t').
Proof using Type.
  destruct t as [s1 c1]. simpl. intros Hd. destruct (sess_do X i c.1 e s1) as [[y s']|]; [|done].
  simplify_eq/=. split; [done|]. intros HI HI' HG. split; [by eapply client_inv_step|exact HG].
Qed.

Lemma spec_lift {A} i (P : Sess → Prop) (p : prog sessE A) Q :
  Runtime.spec sess_inv rely i P p Q → cspec i (λ s, P s.1) (lift p) (λ a s, Q a s.1).
Proof using Type.
  apply (@spec_translate _ _ _ _ sess_sem link_sem (@SessOp _) fst (λ c : sess_choice * dchoice, c.1));
    [apply _|by intros ? []|done|exact lift_step].
Qed.

#[global] Instance lift_stable i (P : Sess → Prop) :
  Runtime.Stable sess_inv rely i P → Stable i (λ s, P s.1).
Proof using Type. apply (translate_stable fst); [by intros ? []|done]. Qed.

(** *** A task of the client *)

(** It holds no sender; the channels it has made are known. *)
Definition idle (i : nat) (s : Sess) : Prop := holds i [] s ∧ ∃ ws, owns i ws s.

(** What the session tells task [i] when its effect [e] has returned [x]. *)
Definition commit_ok (i : nat) {X} (e : dongE X) (x : X) (s : Sess) : Prop :=
  match e in dongE X return X → Prop with
  | DSend ty pl _ => λ r, reply_ok i ty pl r s
  | _ => λ _, True
  end x.

#[global] Instance idle_stable i : Runtime.Stable sess_inv rely i (idle i).
Proof using Type. unfold idle. apply _. Qed.
#[global] Instance commit_stable i {X} (e : dongE X) x : Runtime.Stable sess_inv rely i (commit_ok i e x).
Proof using Type. intros s s' Hs Hr HI. destruct e; simpl in *; try done. by eapply reply_ok_stable. Qed.

Lemma spec_session_prog i {X} (e : dongE X) q :
  session_prog e = Some q →
  Runtime.spec sess_inv rely i (idle i) q (λ x s, idle i s ∧ commit_ok i e x s).
Proof using Type.
  destruct e as [ty pl t|[t|]| | | | | | | | | | | | | | | | | | |]; simpl; try done; intros [= <-];
    try (eapply spec_post; [apply spec_recv_rx, _|done]);
    try (eapply spec_post; [apply spec_next_rx, _|done]);
    try (eapply spec_post; [apply spec_drain, _|done]).
  - intros n s HI [Hh [ws Ho]].
    eapply safe_post; [by apply (spec_send_command i ws ty pl t n s HI)|].
    intros r s' _ [Hh' Hr]. destruct Hr as [(-> & ? & ?)|(w & tag & (? & ? & _) & ? & Hr)].
    + split; [by split; [|exists ws]|]. by left.
    + split; [by split; [|exists (w :: ws)]|].
      destruct r as [resp|e]; simpl; [destruct Hr|right]; by exists w, tag.
  - intros n s HI [Hh [ws Ho]].
    eapply safe_post; [by apply (spec_close i (owns i ws) n s HI)|].
    intros [] s' _ [[? _] ?]. split; [|done]. split; [done|]. by exists ws.
Qed.

(** An effect on the cells, and the return of one of the session's. *)
Lemma cell_log {X} i c (e : dongE X) s x s' :
  session_prog e = None → cells_do X i c e s = Some (x, s') → c_log s' = c_log s.
Proof using Type.
  unfold cells_do. destruct e as [|[]| | | | | | | | | | | | | | | | | | |]; simpl; try done;
    intros _ Hd; repeat case_match; by simplify_eq/=.
Qed.

Lemma commit_log {X} i c (e : dongE X) s x y s' ss :
  is_Some (session_prog e) → commit_ok i e x ss → cells_do X i (answering e x c) e s = Some (y, s') →
  ∀ j ty pl r, (j, (ty, pl), r) ∈ c_log s' → (j, (ty, pl), r) ∈ c_log s ∨ reply_ok j ty pl r ss.
Proof using Type.
  intros [q Hq]. unfold cells_do.
  destruct e as [ty pl t|[]| | | | | | | | | | | | | | | | | | |]; simpl in *; try done;
    intros Hok Hd j ty' pl' r; simplify_eq/=; auto.
  rewrite elem_of_app, list_elem_of_singleton. intros [?|[= -> -> -> ->]]; auto.
Qed.

Lemma client_inv_cells s c c' i :
  client_inv (s, c) →
  (∀ j ty pl r, (j, (ty, pl), r) ∈ c_log c' → (j, (ty, pl), r) ∈ c_log c ∨ reply_ok j ty pl r s) →
  client_inv (s, c') ∧ Runtime.Guar client_rely i (s, c) (s, c').
Proof using Type.
  intros [HI Hl] Hc. split; [split; [done|]|intros j _; apply (rely_preorder j)].
  intros j ty pl r [?|?]%Hc; [by eapply Hl|done].
Qed.

(** The client's programs keep the session's invariant and log only legitimate
    answers. *)
Lemma spec_link i {A} (p : prog dongE A) :
  cspec i (λ s, idle i s.1) (link p) (λ _ s, idle i s.1).
Proof using Type.
  induction p as [A a|A X e k IH|A S B body IHb l k IHk|A m]; simpl.
  - by apply spec_ret; [apply _|].
  - unfold link_eff. destruct (session_prog e) as [q|] eqn:Hq.
    + eapply (spec_bind _ _ _ i); [apply spec_lift, (spec_session_prog i e q Hq)|].
      intros x. refine (spec_bind _ _ _ i _ (trigger (Commit e x)) _ (λ _ s, idle i s.1) _ _ _);
        [|intros []; apply IH].
      apply spec_trigger; [apply _..|]. intros [s c] ch [] [s' c'] HI [Hid Hok] Hd. simpl in *.
      destruct (cells_do _ _ _ _ _) as [[y cs]|] eqn:Hc; [|done]. simplify_eq/=.
      destruct (client_inv_cells s' c c' i HI) as [??]; [|done].
      by eapply commit_log.
    + refine (spec_bind _ _ _ i _ (trigger (CellOp e)) _ (λ _ s, idle i s.1) _ _ IH).
      apply spec_trigger; [apply _..|]. intros [s c] ch x [s' c'] HI Hid Hd. simpl in *.
      destruct (cells_do _ _ _ _ _) as [[y cs]|] eqn:Hc; [|done]. simplify_eq/=.
      destruct (client_inv_cells s' c c' i HI) as [??]; [|done].
      intros j ty pl r. rewrite (cell_log _ _ _ _ _ _ Hq Hc). auto.
  - refine (spec_bind _ _ _ i _ (loop (λ l, link (body l)) l) _ (λ _ s, idle i s.1) _ _ IHk).
    apply (spec_loop _ _ _ i _ (λ _ s, idle i s.1)); [apply _..|]. intros l'.
    eapply spec_post; [apply IHb|]. by intros [].
  - apply spec_panic.
Qed.

Lemma client_drop_ok i s :
  client_inv s → client_inv (on_drop i s) ∧ Runtime.Guar client_rely i s (on_drop i s).
Proof using Type.
  destruct s as [s c]. intros [HI Hl].
  assert (Runtime.Guar client_rely i (s, c) (sess_drop i s, cells_drop i c)) as HG.
  { intros j Hj. by apply guar_drop. }
  split; [|done]. split; [by apply inv_drop|]. intros j ty pl r Hin.
  eapply (reply_ok_stable (S i)); [by apply Hl|apply HG; lia|by apply inv_drop].
Qed.
End inv.

(** ** Every interleaving of the client *)

Section pool.
Context `{Wire}.
Variable response_debug : SessionResponse → string.

Lemma spawn_sess_inv r : sess_inv (spawn_state r).
Proof using Type. by split; simpl. Qed.

Lemma client_pool_safe applied ka now ops :
  pool_safe client_inv client_rely (λ _ _ _, True)
    (client_pool response_debug applied ka now ops).
Proof using Type.
  assert (client_inv (spawn_state (reader_at ops), new_cells applied ka now)) as HI.
  { split; [apply spawn_sess_inv|]. intros ???? Hin. by apply elem_of_nil in Hin. }
  assert (∀ i, idle i (spawn_state (reader_at ops))) as Hid.
  { intros i. split; [|by exists []; intros w c].
    split; [constructor|intros t p Hin; by apply elem_of_nil in Hin|by intros w c]. }
  split; [done|]. intros i p Hp n.
  apply lookup_map_seq_Some in Hp as [_ Hp]. rewrite Nat.sub_0_r in Hp.
  apply lookup_app_Some in Hp as [Hp|[Hlen Hp]].
  - rewrite list_lookup_fmap in Hp. destruct (_ !! i) as [q|]; [|done]. injection Hp as <-.
    eapply safe_post; [by apply (spec_link i q n)|done].
  - assert (length (link <$> dongle_tasks response_debug ka ops) = reader_at ops) as Hl.
    { rewrite length_fmap. unfold dongle_tasks, reader_at. simpl. by rewrite length_fmap. }
    rewrite Hl in *. apply list_lookup_singleton_Some in Hp as [Hi <-].
    assert (i = reader_at ops) as -> by lia.
    eapply safe_post; [eapply (spec_lift _ _ _ (λ _ _, True)); [|done|]|done].
    + refine (spec_map _ _ _ _ _ reader_loop (λ _, PNone) (λ _, holds (reader_at ops) []) _
        (spec_reader_loop (reader_at ops)) _); done.
    + simpl. split; [|apply Hid]. done.
Qed.

Lemma client_reachable applied ka now ops cf :
  reachable (client_pool response_debug applied ka now ops) cf → client_inv (shared cf).
Proof using Type.
  intros Hr. by destruct (rg_adequacy _ _ _ client_drop_ok _ _ _ (client_pool_safe applied ka now ops) Hr).
Qed.

(** C12: The session under the client: in every state of the whole client, whatever
    the operations, the keepalive and the reader do side by side and whichever are
    dropped, the pending map is consistent with the channels, and every command
    that has returned a response got the value sent over the very channel that its
    task made for it, which a frame received under the channel's tag decodes to or
    which notifies a closed session or an exited reader; one that has failed found
    the session closed, could not encode or write its frame, lost its waker or timed
    out. *)
Theorem client_replies_legit applied ka now ops cf :
  reachable (client_pool response_debug applied ka now ops) cf →
  sess_inv (shared cf).1 ∧
  ∀ i ty pl r, (i, (ty, pl), r) ∈ c_log (shared cf).2 → reply_ok i ty pl r (shared cf).1.
Proof using Type. apply client_reachable. Qed.

(** What the frames received say for an answer of each kind. *)
Lemma response_tx_done cmd ty pl td :
  response_for cmd ty pl = RTxDone td → ty = TYPE_TX_DONE ∧ TxDonePayload_decode pl = Ok td.
Proof using Type. unfold response_for. intros Hr. repeat case_match; simplify_eq. split; [lia|done]. Qed.

Lemma response_empty cmd ty pl :
  response_for cmd ty pl = REmpty → ty = TYPE_OK ∧ OkPayload_parse_for cmd pl = Ok OkEmpty.
Proof using Type. unfold response_for. intros Hr. repeat case_match; simplify_eq. split; [lia|done]. Qed.

Lemma response_set_config cmd ty pl c :
  response_for cmd ty pl = RSetConfig c → ty = TYPE_OK ∧ OkPayload_parse_for cmd pl = Ok (OkSetConfig c).
Proof using Type. unfold response_for. intros Hr. repeat case_match; simplify_eq. split; [lia|done]. Qed.

(** A frame of this type whose payload satisfies [P] has come under a command's tag. *)
Definition came (fs : list FrameResult) (ty : Z) (P : list byte → Prop) : Prop :=
  ∃ tag pl, 1 ≤ tag < 2 ^ 16 ∧ FrameOk ty tag pl ∈ fs ∧ P pl.

(** It has come under the tag of a command of task [i] itself, of type [cmd], which was
    completed by that. *)
Definition came_for (i : nat) (cmd ty : Z) (P : list byte → Prop) (s : Sess) : Prop :=
  ∃ w tag pl, own_command i w tag cmd s ∧ value_at w (response_for cmd ty pl) s ∧
    FrameOk ty tag pl ∈ frames_received s ∧ P pl.

Lemma answered_came_for i ty pl resp s ty' (P : list byte → Prop) :
  reply_ok i ty pl (Ok resp) s → (∀ e, resp ≠ RErr e) →
  (∀ ty1 pl1, response_for ty ty1 pl1 = resp → ty1 = ty' ∧ P pl1) →
  came_for i ty ty' P s.
Proof using Type.
  intros (w & tag & Ho & Hv & Hl) Hne HP. exists w, tag. inversion Hl as [Hc E|E|ty1 pl1 Hf Htx E];
    [by destruct (Hne _ (eq_sym E))|by destruct (Hne _ (eq_sym E))|].
  destruct (HP ty1 pl1 E) as [-> ?]. exists pl1. by rewrite E.
Qed.

Lemma answered_came i ty pl resp s ty' (P : list byte → Prop) :
  reply_ok i ty pl (Ok resp) s → (∀ e, resp ≠ RErr e) →
  (∀ ty1 pl1, response_for ty ty1 pl1 = resp → ty1 = ty' ∧ P pl1) →
  came (frames_received s) ty' P.
Proof using Type.
  intros Hr Hne HP. destruct (answered_came_for i ty pl resp s ty' P Hr Hne HP)
    as (w & tag & pl' & [? _] & _ & ? & ?). by exists tag, pl'.
Qed.

(** What the success of task [i]'s operation says: the frame that came for a command of
    its own.  A reception may have been started by another task, whose RX_START was
    acknowledged then. *)
Definition confirmed (i : nat) (o : op) (r : op_reply) (s : Sess) : Prop :=
  match o, r with
  | OTx _ _ _, PTx (Ok td) =>
      td_result td = Transmitted ∧
      came_for i TYPE_TX TYPE_TX_DONE (λ pl, TxDonePayload_decode pl = Ok td) s
  | OTxRetry _ _, POutcome (Ok out) =>
      ∃ td, td_result td = Transmitted ∧ airtime_us td = final_airtime_us out ∧
            came_for i TYPE_TX TYPE_TX_DONE (λ pl, TxDonePayload_decode pl = Ok td) s
  | OSetConfig _, PUnit (Ok _) =>
      ∃ c, came_for i TYPE_SET_CONFIG TYPE_OK
             (λ pl, OkPayload_parse_for TYPE_SET_CONFIG pl = Ok (OkSetConfig c)) s
  | OPing, PUnit (Ok _) =>
      came_for i TYPE_PING TYPE_OK (λ pl, OkPayload_parse_for TYPE_PING pl = Ok OkEmpty) s
  | ORxStop, PUnit (Ok _) =>
      came_for i TYPE_RX_STOP TYPE_OK (λ pl, OkPayload_parse_for TYPE_RX_STOP pl = Ok OkEmpty) s
  | ORxStart, PUnit (Ok _) =>
      ∃ j, came_for j TYPE_RX_START TYPE_OK
             (λ pl, OkPayload_parse_for TYPE_RX_START pl = Ok OkEmpty) s
  | _, _ => True
  end.

Lemma result_confirmed i o r s c :
  client_inv (s, c) → op_result i o r c → confirmed i o r s.
Proof using Type.
  intros [_ Hl] Ho.
  assert (∀ j ty pl resp ty' P, answered j (ty, pl) resp c → (∀ e, resp ≠ RErr e) →
    (∀ ty1 pl1, response_for ty ty1 pl1 = resp → ty1 = ty' ∧ P pl1) →
    came_for j ty ty' P s) as Hcame.
  { intros j ty pl resp ty' P Hin. apply (answered_came_for j ty pl). by apply (Hl j). }
  destruct o, r as [[[]|]|[td|]|[out|]| | | |]; simpl in *; try done.
  - destruct Ho as [? Hin]. split; [done|]. apply (Hcame _ _ _ _ _ _ Hin); [done|intros ??; apply response_tx_done].
  - destruct (Ho out eq_refl) as (td & [? Hin] & ?). exists td. split_and!; [done|done|].
    apply (Hcame _ _ _ _ _ _ Hin); [done|intros ??; apply response_tx_done].
  - destruct Ho as [j Hin]. exists j. apply (Hcame _ _ _ _ _ _ Hin); [done|intros ??; apply response_empty].
  - apply (Hcame _ _ _ _ _ _ Ho); [done|intros ??; apply response_empty].
  - destruct Ho as (r & pl & _ & Hin). exists r.
    apply (Hcame _ _ _ _ _ _ Hin); [done|intros ??; apply response_set_config].
  - apply (Hcame _ _ _ _ _ _ Ho); [done|intros ??; apply response_empty].
Qed.

(** From the device to the caller: whatever else the client is doing (recovery
    from NOT_CONFIGURED, the keepalive, other calls, cancellations), an operation
    that has returned success was confirmed by a frame received under the tag of a
    command that it sent itself: for [tx] and [tx_with_retry] a TX_DONE with the result
    "transmitted" whose payload the caller holds, for [set_config] an OK that echoes a
    configuration, for [ping] and [rx_stop] an empty OK; for [rx_start] an RX_START was
    so confirmed, its own or that of the call that had started reception. *)
Theorem success_is_confirmed applied ka now ops cf k o r :
  reachable (client_pool response_debug applied ka now ops) cf →
  ops !! k = Some o → tasks cf !! S k = Some (Ret r) →
  confirmed (S k) o r (shared cf).1.
Proof using Type.
  intros Hr Hk Ht.
  destruct (client_simulated response_debug applied ka now ops cf Hr) as (cfa & Hra & Hc & Hres).
  assert (S k ≠ reader_at ops) as Hne.
  { apply lookup_lt_Some in Hk. unfold reader_at. lia. }
  pose proof (rg_adequacy _ _ _ (cells_drop_ok applied) _ _ _
    (dongle_pool_safe response_debug applied ka now ops) Hra) as Hsafe.
  destruct (pool_safe_result _ _ _ _ _ _ _ Hsafe (Hres _ _ Hne Ht)) as [_ Hop].
  apply (result_confirmed (S k) o r _ (shared cf).2); [|rewrite <- Hc; by apply Hop].
  pose proof (client_reachable _ _ _ _ _ Hr) as HI. by destruct (shared cf).
Qed.
End pool.

(** ** A concrete run *)

(** What the cells' part of a step needs when no session effect returns. *)
Definition any_choice : dchoice := {|
  dc_now := 0; dc_reply := Ok REmpty; dc_rx := None; dc_drained := []; dc_random := 0;
  dc_alive := true |}.
Definition steps (i n : nat) : list (label linkE (Sess * Cells)) :=
  replicate n (Run i (CDefault, any_choice)).
Definition receives (i : nat) (bs : list byte) : list (label linkE (Sess * Cells)) :=
  [Run i (CRead bs, any_choice)].

(** One TX: the command's frame is written, the reader gets OK and then TX_DONE. *)
Definition tx_ops : list op := [OTx [x68] false 2000].
Definition tx_run : list (label linkE (Sess * Cells)) :=
  steps 1 10 ++ steps 2 2 ++ receives 2 [x80; x01] ++ steps 2 4 ++ receives 2 [x82; x01; x00] ++
  steps 2 2 ++ steps 1 2.

Lemma client_replies_legit_witness :
  let cf := after tx_run (client_pool any_debug None false 0 tx_ops) in
  sess_inv (shared cf).1 ∧
  ∀ i ty pl r, (i, (ty, pl), r) ∈ c_log (shared cf).2 → reply_ok i ty pl r (shared cf).1.
Proof. apply (client_replies_legit any_debug None false 0 tx_ops), after_reachable. Defined.

Lemma success_is_confirmed_witness :
  confirmed 1 (OTx [x68] false 2000) (PTx (Ok {| td_result := Transmitted; airtime_us := 7777 |}))
    (shared (after tx_run (client_pool any_debug None false 0 tx_ops))).1.
Proof.
  apply (success_is_confirmed any_debug None false 0 tx_ops
           (after tx_run (client_pool any_debug None false 0 tx_ops)) 0);
    [apply after_reachable|reflexivity|vm_compute; reflexivity].
Defined.
