(* ===== verification/ClientLive.v ===== *)
(** * Liveness of the whole client

    The discipline of [Locks.v] for the client of [DongleLink.v]: the mutex of
    [rx_started], held across the await of RX_START, comes before the writer's, held
    while a frame is written.  The mutexes of the two event queues are not part of it:
    [next_rx] holds one for as long as no packet comes, and waiting for them counts as
    waiting for the outside, as reading the transport does. *)

From stdpp Require Import functions.
From S2P Require Import Prelude Runtime Locks Errors Protocol Retry Session SessionInv SessionSpec SessionPool SessionWire SessionLive SessionLocks Dongle DonglePool DongleLink Client.
Local Open Scope Z_scope.

(** ** The mutexes of the client *)

Section locks.
Context `{Wire}.

Definition cell_kind {X Y} (e : dongE X) : lock_kind client_lock Y :=
  match e with
  | DLockRx => Takes RxGuard
  | DUnlockRx => Gives RxGuard
  | DRxStarted | DSetRxStarted _ => Touches RxGuard
  | _ => Plain
  end.

Definition link_kind (X : Type) (e : linkE X) : lock_kind client_lock X :=
  match e in linkE X return lock_kind client_lock X with
  | SessOp e => sess_kind e
  | CellOp e => cell_kind e
  | Commit e _ => cell_kind e
  end.

(** What the cells' part of a step needs when no session effect returns. *)
Definition idle_choice : dchoice := {|
  dc_now := 0; dc_reply := Ok REmpty; dc_rx := None; dc_drained := []; dc_random := 0;
  dc_alive := true |}.

Definition client_owner (s : Sess * Cells) (l : client_lock) : option nat :=
  match l with RxGuard => c_rx_owner s.2 | Writer => locks s.1 WriterLock end.

Lemma cell_kind_owner {X} i c (e : dongE X) s x s' :
  cells_do X i c e s = Some (x, s') →
  c_rx_owner s' = owner_after i (cell_kind (Y := X) e) (λ _, c_rx_owner s) RxGuard ∧
  match cell_kind (Y := X) e with
  | Takes l | Touches l => l = RxGuard ∧ c_rx_owner s = None
  | Gives l => l = RxGuard
  | _ => True
  end.
Proof using Type.
  unfold cells_do. destruct e; simpl; intros Hd; repeat case_match; simplify_eq/=; try done;
    by rewrite ?decide_True.
Qed.

Lemma cell_enabled {X} i (e : dongE X) s :
  match cell_kind (Y := X) e with Takes l | Touches l => c_rx_owner s = None | _ => True end →
  ∀ c, is_Some (cells_do X i c e s).
Proof using Type. unfold cells_do. destruct e; simpl; intros Hf c; rewrite ?Hf; by eexists. Qed.

Lemma link_owner {X} i c (e : linkE X) s x s' l :
  link_do X i c e s = Some (x, s') → client_owner s' l = owner_after i (link_kind X e) (client_owner s) l.
Proof using Type.
  destruct c as [cs cd], s as [s c]. destruct e as [Y e|Y e|Y e y]; simpl; intros Hd;
    (destruct (sess_do _ _ _ _ _) as [[z s1]|] eqn:He || destruct (cells_do _ _ _ _ _) as [[z s1]|] eqn:He);
    simplify_eq/=.
  - destruct (sess_kind_owner _ _ _ _ _ _ He) as [Ho Hk].
    destruct l; simpl; [|by rewrite Ho; destruct (sess_kind e)].
    destruct (sess_kind e); try done; simpl; [by destruct Hk as [-> _]|by subst].
  - destruct (cell_kind_owner _ _ _ _ _ _ He) as [Ho Hk].
    destruct l; simpl; [by rewrite Ho; destruct (cell_kind e)|by destruct e].
  - destruct (cell_kind_owner _ _ _ _ _ _ He) as [Ho Hk].
    destruct l; simpl; [rewrite Ho|]; by destruct e.
Qed.

Lemma link_free {X} i c (e : linkE X) s x s' :
  link_do X i c e s = Some (x, s') →
  match link_kind X e with Takes l | Touches l => client_owner s l = None | _ => True end.
Proof using Type.
  destruct c as [cs cd], s as [s c]. destruct e as [Y e|Y e|Y e y]; simpl; intros Hd;
    (destruct (sess_do _ _ _ _ _) as [[z s1]|] eqn:He || destruct (cells_do _ _ _ _ _) as [[z s1]|] eqn:He);
    simplify_eq/=.
  - destruct (sess_kind_owner _ _ _ _ _ _ He) as [Ho Hk].
    destruct (sess_kind e); try done; by destruct Hk as [-> ?].
  - destruct (cell_kind_owner _ _ _ _ _ _ He) as [Ho Hk]. destruct e; try done; by destruct Hk.
  - destruct (cell_kind_owner _ _ _ _ _ _ He) as [Ho Hk]. destruct e; try done; by destruct Hk.
Qed.

Lemma link_enabled {X} i (e : linkE X) s :
  match link_kind X e with
  | Takes l | Touches l => client_owner s l = None
  | Needs w => exists_chan s.1 w
  | Blocks _ => False
  | _ => True
  end → ∃ c, is_Some (link_do X i c e s).
Proof using Type.
  destruct s as [s c]. intros Hf. destruct e as [Y e|Y e|Y e y]; simpl in *.
  - destruct (sess_enabled i e s) as (cs & [x s'] & Hd).
    { destruct e as [| | | | | | | | | | |[]|[]| | | | | |[]| | | |]; try done. }
    exists (cs, idle_choice). simpl. rewrite Hd. by eexists.
  - exists (CDefault, idle_choice). simpl.
    destruct (cell_enabled i e c) with idle_choice as [[x c'] ->]; [|by eexists]. by destruct e.
  - exists (CDefault, idle_choice). simpl.
    destruct (cell_enabled i e c) with (answering e y idle_choice) as [[x c'] ->]; [|by eexists]. by destruct e.
Qed.

Lemma link_known {X} i c (e : linkE X) s x s' w :
  link_do X i c e s = Some (x, s') → w ∈ known_after (link_kind X e) x [] ∨ exists_chan s.1 w →
  exists_chan s'.1 w.
Proof using Type.
  destruct c as [cs cd], s as [s c]. destruct e as [Y e|Y e|Y e y]; simpl; intros Hd Hw;
    (destruct (sess_do _ _ _ _ _) as [[z s1]|] eqn:He || destruct (cells_do _ _ _ _ _) as [[z s1]|] eqn:He);
    simplify_eq/=.
  - by eapply sess_known.
  - destruct Hw as [Hw|?]; [|done]. destruct e; by apply elem_of_nil in Hw.
  - destruct Hw as [Hw|?]; [|done]. destruct e; by apply elem_of_nil in Hw.
Qed.

#[export] Instance client_locks : LockSem linkE (Sess * Cells) client_lock.
Proof using Type.
  refine {|
    kind := link_kind; owner := client_owner; known s w := exists_chan s.1 w;
    some_choice := ((CDefault, idle_choice) : @choice linkE _ link_sem);
    rank l := match l with RxGuard => 0%nat | Writer => 1%nat end; max_rank := 2 |}.
  - intros []; lia.
  - intros X i c e s x s' l Hd. exact (link_owner i c e s x s' l Hd).
  - intros X i c e s x s' Hd. exact (link_free i c e s x s' Hd).
  - intros X i e s Hf. exact (link_enabled i e s Hf).
  - intros X i c e s x s' w Hd Hw. exact (link_known i c e s x s' w Hd Hw).
  - intros i [s c] l j. simpl. destruct l; simpl; case_decide; naive_solver.
  - intros i [s c] w. simpl. apply exists_static. simpl. rewrite lookup_fmap. by destruct (chans s !! w).
Defined.

#[export] Instance sess_in_client : SessInside (@SessOp _).
Proof using Type. split; [done|simpl; lia]. Qed.
End locks.

(** ** The dongle's operations keep the discipline *)

Section dongle.
Context `{Wire}.
Variable response_debug : SessionResponse → string.

Abbreviation keeps h := (λ h' _, h' = (h : list client_lock)).

Lemma link_bind {A B} (p : prog dongE A) (f : A → prog dongE B) :
  peq (link (prog_bind p f)) (prog_bind (link p) (λ a, link (f a))).
Proof using Type.
  revert f. induction p as [A a|A X e k IH|A S B' body _ s k IH|A m]; intros f; simpl;
    [reflexivity| |by constructor|by constructor].
  unfold link_eff. destruct (session_prog e) as [q|]; simpl; [|by constructor].
  symmetry. apply peq_bind_assoc. intros x. simpl. constructor. intros _. symmetry. apply IH.
Qed.

Lemma tame_link_bind {A B} b (R : list client_lock → B → Prop) K h (p : prog dongE A) f :
  tame b (keeps h) K h (link p) → (∀ a, tame b R K h (link (f a))) → tame b R K h (link (p ≫= f)).
Proof using Type.
  intros Hp Hf. eapply tame_peq; [|symmetry; apply link_bind]. by apply tame_seq.
Qed.

Lemma tame_link_try {A B X} b K h (p : prog dongE (result A X)) (f : A → prog dongE (result B X)) :
  tame b (keeps h) K h (link p) → (∀ a, tame b (keeps h) K h (link (f a))) →
  tame b (keeps h) K h (link (try_bind p f)).
Proof using Type. intros Hp Hf. apply tame_link_bind; [done|]. intros [a|e]; [apply Hf|by apply tame_ret]. Qed.

(** A call of the session. *)
Lemma tame_session {X A} b (R : list client_lock → A → Prop) K h (e : dongE X) q k :
  session_prog e = Some q → tame b (keeps h) K h (lift q) → (∀ x, tame b R K h (link (k x))) →
  tame b R K h (link (Vis e k)).
Proof using Type.
  intros Hq Ht Hk. simpl. unfold link_eff. rewrite Hq. apply tame_seq; [done|]. intros x.
  assert (cell_kind (Y := unit) e = Plain) as Hc by by destruct e.
  apply tame_vis; simpl; rewrite Hc; [done|]. intros y. apply Hk.
Qed.

Lemma tame_send b K h ty pl t : low h → tame b (keeps h) K h (link (trigger (DSend ty pl t))).
Proof using Type.
  intros Hh. eapply tame_session; [done|by apply (tame_send_command (@SessOp _))|]. intros. by apply tame_ret.
Qed.

(** Statement by statement; the commands of the session are left to [tame_send]. *)
Ltac tame_ops :=
  repeat first
    [progress intros|by apply tame_ret|by apply tame_panic|apply tame_send; by first [apply low_nil|apply low_guard]
    |apply tame_link_try|apply tame_vis; [first [done|set_solver]|]
    |progress cbn [link link_eff session_prog trigger mbind prog_mbind prog_bind link_kind cell_kind
                   known_after held_after tail]
    |case_match].

(** The commands of the session, as the dongle sends them. *)
Lemma tame_ping_cmd b K h t : low h → tame b (keeps h) K h (link (Session.ping response_debug t)).
Proof using Type. intros Hh. apply tame_link_try; [by apply tame_send|]. tame_ops. Qed.
Lemma tame_rx_start_cmd b K h t : low h → tame b (keeps h) K h (link (Session.rx_start response_debug t)).
Proof using Type. intros Hh. apply tame_link_try; [by apply tame_send|]. tame_ops. Qed.
Lemma tame_rx_stop_cmd b K h t : low h → tame b (keeps h) K h (link (Session.rx_stop response_debug t)).
Proof using Type. intros Hh. apply tame_link_try; [by apply tame_send|]. tame_ops. Qed.
Lemma tame_set_config_cmd b K h m t :
  low h → tame b (keeps h) K h (link (Session.set_config response_debug m t)).
Proof using Type.
  intros Hh. unfold Session.set_config. destruct (encode_set_config m); [|by apply tame_ret].
  apply tame_link_try; [by apply tame_send|]. tame_ops.
Qed.

(** [transmit] can panic, so nothing may be held. *)
Lemma tame_transmit b K data skip t : tame b (keeps []) K [] (link (transmit response_debug data skip t)).
Proof using Type.
  unfold transmit. destruct data as [|x data]; [by apply tame_ret|]. case_match; [|by apply tame_panic].
  apply tame_link_try; [apply tame_send, low_nil|]. tame_ops.
Qed.

Lemma tame_check_open b K : tame b (keeps []) K [] (link check_open).
Proof using Type. unfold check_open. tame_ops. Qed.

Lemma tame_reapply b K : tame b (keeps []) K [] (link (reapply_config response_debug)).
Proof using Type.
  unfold reapply_config. cbn [link link_eff session_prog trigger mbind prog_mbind prog_bind].
  apply tame_vis; [done|]. intros cfg. apply tame_link_try; [by apply tame_ret|]. intros m.
  apply tame_link_try; [apply tame_set_config_cmd, low_nil|]. tame_ops.
Qed.

Lemma tame_tx b K data skip t :
  tame b (keeps []) K [] (link (tx_with_timeout response_debug data skip t)).
Proof using Type.
  unfold tx_with_timeout. apply tame_link_try; [apply tame_check_open|]. intros _.
  apply tame_link_bind; [unfold mark_write; tame_ops|]. intros [].
  apply tame_link_bind; [apply tame_transmit|]. intros [td|[]]; try by apply tame_ret.
  unfold recover_and_retry_tx. apply tame_link_try; [apply tame_reapply|]. intros _. apply tame_transmit.
Qed.

Lemma tame_retry b K data policy :
  tame b (keeps []) K [] (link (tx_with_retry response_debug data policy)).
Proof using Type.
  unfold tx_with_retry. apply tame_link_try; [apply tame_check_open|]. intros _. unfold loop. cbn [link].
  apply (tame_measure _ _ _ _ (λ st, Z.to_nat (max_attempts policy - st.1.1)));
    [|intros; by apply tame_ret].
  intros [[att delay] atts]. unfold retry_body. case_match; [by apply tame_ret|].
  apply tame_link_bind; [unfold mark_write; tame_ops|]. intros [].
  cbn [link link_eff session_prog trigger mbind prog_mbind prog_bind].
  apply tame_vis; [done|]. intros started. apply tame_link_bind; [apply tame_transmit|]. intros [td|e];
    cbn [link link_eff session_prog trigger mbind prog_mbind prog_bind]; (apply tame_vis; [done|]; intros ended);
    [by apply tame_ret|].
  case_match; [by apply tame_ret|].
  apply tame_link_bind; [unfold jitter_ms, random_range_incl, dong_random; tame_ops|]. intros jitter.
  cbn [link link_eff session_prog trigger mbind prog_mbind prog_bind].
  apply tame_vis; [done|]. intros []. apply tame_ret. split; [done|]. simpl. lia.
Qed.

Lemma tame_rx_start b K : tame b (keeps []) K [] (link (rx_start response_debug)).
Proof using Type.
  unfold rx_start. apply tame_link_try; [apply tame_check_open|]. intros _.
  apply tame_link_bind; [unfold mark_write; tame_ops|]. intros [].
  cbn [link link_eff session_prog trigger mbind prog_mbind prog_bind].
  apply tame_vis; [intros l Hl; by apply elem_of_nil in Hl|]. intros []; [tame_ops|].
  apply tame_link_bind; [apply tame_rx_start_cmd, low_guard|]. intros [[]|e]; [tame_ops|].
  destruct e; try by tame_ops.
  cbn [link link_eff session_prog trigger mbind prog_mbind prog_bind].
  apply tame_vis; [done|]. intros []. apply tame_link_try; [apply tame_reapply|]. intros _.
  apply tame_link_try; [apply tame_rx_start_cmd, low_nil|]. tame_ops.
Qed.

Lemma tame_abort_keepalive b K : tame b (keeps []) K [] (link abort_keepalive).
Proof using Type. unfold abort_keepalive. tame_ops. Qed.

(** Whether an operation waits for nothing but the device's answers: [recv] and [next_rx]
    wait for packets (and for each other), and draining can go on as long as the
    reader queues errors. *)
Definition prompt_op (o : op) : bool :=
  match o with ORecv _ | ODrain => false | _ => true end.

Lemma tame_run_op K o : tame (prompt_op o) (keeps []) K [] (link (run_op response_debug o)).
Proof using Type.
  destruct o as [data skip t|data policy| | |t|m| | | | |]; simpl prompt_op; cbn [run_op];
    apply tame_link_bind; try (intros; by apply tame_ret).
  - apply tame_tx.
  - apply tame_retry.
  - apply tame_rx_start.
  - unfold rx_stop. apply tame_link_try; [apply tame_check_open|]. intros _.
    apply tame_link_bind; [unfold mark_write; tame_ops|]. intros [].
    apply tame_link_try; [apply tame_rx_stop_cmd, low_nil|]. tame_ops.
  - unfold recv_with. apply tame_link_bind; [apply tame_check_open|]. intros [[]|e]; [|by apply tame_ret].
    cbn [link link_eff session_prog trigger mbind prog_mbind prog_bind is_err].
    apply tame_vis; [intros l Hl; by apply elem_of_nil in Hl|]. intros started. apply tame_link_bind.
    { destruct started; [by apply tame_ret|]. apply tame_link_bind; [apply tame_rx_start|].
      intros. by apply tame_ret. }
    intros []; [by apply tame_ret|]. destruct t as [t|];
      (eapply tame_session; [done|first [apply (tame_recv_rx (@SessOp _))|apply (tame_next_rx (@SessOp _))]|intros; by apply tame_ret]).
  - unfold set_config. apply tame_link_try; [apply tame_check_open|]. intros _.
    apply tame_link_bind; [unfold mark_write; tame_ops|]. intros [].
    apply tame_link_try; [apply tame_set_config_cmd, low_nil|]. tame_ops.
  - unfold ping. apply tame_link_try; [apply tame_check_open|]. intros _.
    apply tame_link_bind; [unfold mark_write; tame_ops|]. intros [].
    apply tame_ping_cmd, low_nil.
  - unfold config. tame_ops.
  - eapply tame_session; [done|apply (tame_drain (@SessOp _))|intros; by apply tame_ret].
  - unfold close. cbn [link link_eff session_prog trigger mbind prog_mbind prog_bind].
    apply tame_vis; [done|]. intros []; [by apply tame_ret|].
    apply tame_link_bind; [apply tame_abort_keepalive|]. intros [].
    eapply tame_session; [done|apply (tame_close (@SessOp _))|intros; by apply tame_ret].
  - apply tame_abort_keepalive.
Qed.

Lemma tame_keepalive K : tame false (keeps []) K [] (link (keepalive_task response_debug)).
Proof using Type.
  unfold keepalive_task, loop. cbn [link]. apply tame_loop; [done|done| |intros; by apply tame_ret].
  intros []. unfold keepalive_body. cbn [link link_eff session_prog trigger mbind prog_mbind prog_bind].
  apply tame_vis; [done|]. intros []. apply tame_vis; [done|]. intros []; [|by apply tame_ret]. cbn [negb].
  cbn [link link_eff session_prog trigger mbind prog_mbind prog_bind].
  apply tame_vis; [done|]. intros []; [by apply tame_ret|].
  cbn [link link_eff session_prog trigger mbind prog_mbind prog_bind].
  apply tame_vis; [done|]. intros last. apply tame_vis; [done|]. intros now. case_match; [by apply tame_ret|].
  apply tame_link_bind; [apply tame_ping_cmd, low_nil|]. intros [[]|[]]; try by tame_ops.
  cbn [link link_eff session_prog trigger mbind prog_mbind prog_bind].
  apply tame_vis; [done|]. intros [m|]; [|by apply tame_ret].
  apply tame_link_bind; [apply tame_set_config_cmd, low_nil|]. tame_ops.
Qed.
End dongle.

(** ** Fair runs of the client *)

Section client.
Context `{Wire}.
Variable response_debug : SessionResponse → string.

(** Task [S k] is the operation [ops !! k]. *)
Definition prompt_task (ops : list op) (i : nat) : bool :=
  match i with
  | O => false
  | S k => if ops !! k is Some o then prompt_op o else false
  end.

Lemma client_tamed applied ka now ops :
  tamed (prompt_task ops) (client_pool response_debug applied ka now ops).
Proof using Type.
  split; [|intros [] i Hi; done].
  intros i p Hp. exists [], []. split; [|split; [by intros w ?%elem_of_nil|intros []; by rewrite elem_of_nil|constructor]].
  apply lookup_map_seq_Some in Hp as [_ Hp]. rewrite Nat.sub_0_r in Hp.
  apply lookup_app_Some in Hp as [Hp|[Hlen Hp]].
  - rewrite list_lookup_fmap in Hp. destruct (dongle_tasks _ _ _ !! i) as [q|] eqn:Hq; [|done].
    injection Hp as <-. destruct i as [|k]; simpl in Hq.
    + injection Hq as <-. destruct ka; [|by apply tame_ret].
      refine (tame_link_bind _ _ _ _ (keepalive_task response_debug) (λ _, Ret PNone) (tame_keepalive _ _) _).
      intros. by apply tame_ret.
    + rewrite list_lookup_fmap in Hq. simpl. destruct (ops !! k) as [o|]; [|done]. injection Hq as <-.
      apply tame_run_op.
  - rewrite length_fmap in *. unfold dongle_tasks in *. simpl in Hlen. rewrite length_fmap in Hlen.
    apply list_lookup_singleton_Some in Hp as [Hi <-]. destruct i as [|k]; [simpl in Hlen; lia|].
    unfold prompt_task. rewrite (proj2 (lookup_ge_None ops k)) by lia.
    refine (tame_put_bind (@SessOp _) _ _ _ _ reader_loop (λ _, Ret PNone) (tame_reader_loop _ _) _).
    intros. by apply tame_ret.
Qed.

(** Every call of the dongle comes back: in every fair run of the whole client, with
    any operations side by side, the keepalive, the reader and any cancellations, each
    [tx], [tx_with_retry], [rx_start], [rx_stop], [set_config], [ping], [config] and
    [close] returns, panics or is dropped, from whatever instant on, even if the
    device never answers and packets never come. *)
Theorem operations_return applied ka now ops cf lab k o n :
  run_of (client_pool response_debug applied ka now ops) cf lab → fair cf lab →
  ops !! k = Some o → prompt_op o = true →
  ∃ m, (n ≤ m)%nat ∧ stopped (cf m) (S k).
Proof using Type.
  intros Hrun Hfair Ho Hp. eapply (prompt_stops (prompt_task ops)); [exact Hrun|exact Hfair|apply client_tamed|].
  simpl. by rewrite Ho.
Qed.
End client.

(** A TX answered with OK and TX_DONE; then the reader waits for bytes. *)
Definition tx_rest : list (label linkE (Sess * Cells)) := tx_run ++ steps 2 2.

Lemma operations_return_witness :
  run_of (client_pool any_debug None false 0 tx_ops)
    (rest_run tx_rest (client_pool any_debug None false 0 tx_ops)) (λ n, tx_rest !! n) ∧
  ∃ m, (0 ≤ m)%nat ∧ stopped (rest_run tx_rest (client_pool any_debug None false 0 tx_ops) m) 1.
Proof.
  destruct (rest_fair_run tx_rest (client_pool any_debug None false 0 tx_ops)) as [Hr Hf];
    [vm_compute; reflexivity|].
  split; [exact Hr|].
  by apply (operations_return any_debug None false 0 tx_ops _ _ 0 (OTx [x68] false 2000) 0 Hr Hf).
Defined.
