(* ===== verification/Traffic.v ===== *)
(** * The commands of an operation

    What one operation sends, in every interleaving with the others: a logic over the
    history of a task's own commands, their answers and its looks at the cached
    configuration, in which every other effect answers anything, and what it says of
    [tx] and [tx_with_retry] inside the whole client. *)

From S2P Require Import Prelude Runtime Errors Protocol Retry Session SessionPool Dongle DonglePool DongleLink Client.
Local Open Scope Z_scope.

(** Commands and their answers, oldest first. *)
Abbreviation exchanges := (list ((Z * list byte) * ClientResult SessionResponse)).

Section logic.
Context `{Wire}.

(** What a task has done: its commands, and what it found in the cache. *)
Record history := History { sends : exchanges; found : list (option Modulation) }.

Definition then_send (h : history) (cmd : Z * list byte) (r : ClientResult SessionResponse) : history :=
  History (sends h ++ [(cmd, r)]) (found h).
Definition then_look (h : history) (m : option Modulation) : history :=
  History (sends h) (found h ++ [m]).

(** The history of task [i]. *)
Definition own (i : nat) (s : Cells) : history := History
  (omap (λ x, if decide (x.1.1 = i) then Some (x.1.2, x.2) else None) (c_log s))
  (omap (λ x, if decide (x.1 = i) then Some x.2 else None) (c_reads s)).

Definition is_recorded {X} (e : dongE X) : bool :=
  match e with DSend _ _ _ | DConfig => true | _ => false end.

(** [conforms I Q h p]: program [p], with the history [h] behind it, keeps [I] of every
    history and returns with [Q]. *)
Inductive conforms (I : history → Prop) {A} (Q : history → A → Prop) (h : history) :
    prog dongE A → Prop :=
| cf_ret a : Q h a → conforms I Q h (Ret a)
| cf_panic m : conforms I Q h (Panic m)
| cf_send ty pl t k :
    (∀ r, I (then_send h (ty, pl) r)) → (∀ r, conforms I Q (then_send h (ty, pl) r) (k r)) →
    conforms I Q h (Vis (DSend ty pl t) k)
| cf_look k :
    (∀ m, I (then_look h m)) → (∀ m, conforms I Q (then_look h m) (k m)) →
    conforms I Q h (Vis DConfig k)
| cf_eff {X} (e : dongE X) k :
    is_recorded e = false → (∀ x, conforms I Q h (k x)) → conforms I Q h (Vis e k)
| cf_loop {S B} (J : S → history → Prop) (R : history → B → Prop)
    (body : S → prog dongE (S + B)) s k :
    J s h →
    (∀ s h, J s h → conforms I (λ h' r, match r with inl s' => J s' h' | inr b => R h' b end) h (body s)) →
    (∀ h b, R h b → conforms I Q h (k b)) → conforms I Q h (Loop body s k).

Lemma conforms_bind {A B} I (R : history → A → Prop) (Q : history → B → Prop) h p f :
  conforms I R h p → (∀ h a, R h a → conforms I Q h (f a)) → conforms I Q h (p ≫= f).
Proof using Type.
  intros Hp. unfold mbind, prog_mbind. revert B Q f.
  induction Hp as [A R h a|A R h m|A R h ty pl t k HI _ IH|A R h k HI _ IH
    |A R h X e k He _ IH|A R h S B' J R' body s k HJ Hb _ _ IHk]; intros B Q f Hf; simpl.
  - by apply Hf.
  - apply cf_panic.
  - apply cf_send; [done|]. intros r. by apply IH.
  - apply cf_look; [done|]. intros m. by apply IH.
  - apply cf_eff; [done|]. intros x. by apply IH.
  - eapply cf_loop; [exact HJ|exact Hb|]. intros h' b Hr. by apply (IHk h' b Hr).
Qed.

Lemma conforms_post {A} I (Q Q' : history → A → Prop) h p :
  conforms I Q h p → (∀ h a, Q h a → Q' h a) → conforms I Q' h p.
Proof using Type.
  intros Hp. revert Q'.
  induction Hp as [A Q h a|A Q h m|A Q h ty pl t k HI _ IH|A Q h k HI _ IH
    |A Q h X e k He _ IH|A Q h S B J R body s k HJ Hb _ _ IHk]; intros Q' HQ.
  - apply cf_ret. auto.
  - apply cf_panic.
  - apply cf_send; auto.
  - apply cf_look; auto.
  - apply cf_eff; auto.
  - eapply cf_loop; [exact HJ|exact Hb|]. intros h' b Hr. by apply (IHk h' b Hr).
Qed.

Lemma own_answer i j cmd r s :
  own j (c_answer (i, cmd, r) s) = if decide (i = j) then then_send (own j s) cmd r else own j s.
Proof using Type.
  unfold own, then_send. simpl. rewrite omap_app. simpl.
  case_decide; by rewrite ?app_nil_r.
Qed.

Lemma own_read i j s :
  own j (c_read i s) = if decide (i = j) then then_look (own j s) (c_config s) else own j s.
Proof using Type.
  unfold own, then_look. simpl. rewrite omap_app. simpl.
  case_decide; by rewrite ?app_nil_r.
Qed.

Lemma own_same {X} i j c (e : dongE X) s x s' :
  is_recorded e = false → cells_do X i c e s = Some (x, s') → own j s' = own j s.
Proof using Type.
  unfold cells_do, own. destruct e; simpl; try done; intros _ Hd; repeat case_match; by simplify_eq/=.
Qed.

(** The others' histories stay. *)
Lemma own_other {X} i j c (e : dongE X) s x s' :
  i ≠ j → cells_do X i c e s = Some (x, s') → own j s' = own j s.
Proof using Type.
  intros Hij Hd. destruct (is_recorded e) eqn:He; [|by eapply own_same].
  destruct e; try done; injection Hd as <- <-;
    rewrite ?own_answer, ?own_read, decide_False; done.
Qed.

Lemma step_other {A} i j c (p p' : prog dongE A) s s' :
  i ≠ j → step_prog i c p s = Some (p', s') → own j s' = own j s.
Proof using Type.
  intros Hij Hs. destruct p as [a|X e q|S B body l q|m]; simpl in Hs; try done; [|by injection Hs as <- <-].
  destruct (cells_do X i c e s) as [[x s1]|] eqn:Hd; [|done]. injection Hs as <- <-. by eapply own_other.
Qed.

Lemma conforms_step {A} I (Q : history → A → Prop) i c p p' s s' :
  conforms I Q (own i s) p → I (own i s) → step_prog i c p s = Some (p', s') →
  conforms I Q (own i s') p' ∧ I (own i s').
Proof using Type.
  intros Hp HI Hst. remember (own i s) as h eqn:Hh.
  destruct Hp as [a|m|ty pl t k HI' Hk|k HI' Hk|X e k He Hk|S B J R body l k HJ Hb Hk]; try done.
  - simpl in Hst. unfold cells_do in Hst. simpl in Hst. injection Hst as <- <-.
    rewrite own_answer, decide_True by done.
    change (own i (c_tick (dc_now c) s)) with (own i s). rewrite <- Hh. auto.
  - simpl in Hst. unfold cells_do in Hst. simpl in Hst. injection Hst as <- <-.
    rewrite own_read, decide_True by done.
    change (own i (c_tick (dc_now c) s)) with (own i s). rewrite <- Hh. auto.
  - simpl in Hst. destruct (cells_do X i c e s) as [[x s1]|] eqn:Hd; [|done]. injection Hst as <- <-.
    rewrite (own_same i i c e s x s1 He Hd), <- Hh. auto.
  - injection Hst as <- <-. rewrite <- Hh. split; [|done].
    apply (conforms_bind I (λ h' r, match r with inl s' => J s' h' | inr b => R h' b end)); [by apply Hb|].
    intros h' [s'|b] Hr; [by eapply cf_loop|by apply Hk].
Qed.
End logic.

(** ** Every interleaving *)

Section pool.
Context `{Wire}.
Variable response_debug : SessionResponse → string.

(** What holds of every operation by itself holds of its commands in the client, in
    every interleaving, also while it runs and when it is dropped. *)
Lemma dongle_conforms (I : op → history → Prop) (Q : op → history → op_reply → Prop) applied ka now ops cf :
  (∀ o, I o (History [] []) ∧ conforms (I o) (Q o) (History [] []) (run_op response_debug o)) →
  reachable (dongle_pool response_debug applied ka now ops) cf →
  ∀ k o, ops !! k = Some o →
    I o (own (S k) (shared cf)) ∧
    ∀ p, tasks cf !! S k = Some p → conforms (I o) (Q o) (own (S k) (shared cf)) p.
Proof using Type.
  intros Hops. induction 1 as [|cf l cf' _ IH Hst]; intros k o Ho.
  - destruct (Hops o) as [HI Hc]. split; [done|]. intros p Hp.
    apply lookup_map_seq_Some in Hp as [_ Hp]. rewrite Nat.sub_0_r in Hp. simpl in Hp.
    rewrite list_lookup_fmap, Ho in Hp. by injection Hp as <-.
  - destruct (IH k o Ho) as [HI Hc]. destruct l as [i c|i]; simpl in Hst;
      destruct (tasks cf !! i) as [p|] eqn:Hp; try done; simpl in Hst.
    + destruct (step_prog i c p (shared cf)) as [[p' s']|] eqn:Hs; [|done]. injection Hst as <-. simpl.
      destruct (decide (i = S k)) as [->|Hi].
      * destruct (conforms_step _ _ _ _ _ _ _ _ (Hc p Hp) HI Hs) as [? ?]. split; [done|].
        intros q. rewrite lookup_insert_eq. by intros [= <-].
      * rewrite (step_other i (S k) c p p' _ s' Hi Hs).
        split; [done|]. intros q. rewrite lookup_insert_ne by done. apply Hc.
    + assert (cf' = Conf (delete i (tasks cf)) (on_drop i (shared cf))) as -> by (by destruct p; simplify_eq).
      split; [done|]. simpl. intros q [_ Hq]%lookup_delete_Some. by apply Hc.
Qed.

Lemma client_conforms (I : op → history → Prop) (Q : op → history → op_reply → Prop) applied ka now ops cf k o :
  (∀ o, I o (History [] []) ∧ conforms (I o) (Q o) (History [] []) (run_op response_debug o)) →
  reachable (client_pool response_debug applied ka now ops) cf → ops !! k = Some o →
  I o (own (S k) (shared cf).2) ∧
  ∀ r, tasks cf !! S k = Some (Ret r) → Q o (own (S k) (shared cf).2) r.
Proof using Type.
  intros Hops Hr Ho.
  destruct (client_simulated response_debug applied ka now ops cf Hr) as (cfa & Hra & Hc & Hres).
  destruct (dongle_conforms I Q applied ka now ops cfa Hops Hra k o Ho) as [HI Hq].
  rewrite <- Hc. split; [done|]. intros r Hk.
  assert (S k ≠ reader_at ops) as Hne by (apply lookup_lt_Some in Ho; unfold reader_at; lia).
  specialize (Hq _ (Hres _ _ Hne Hk)). by inversion Hq.
Qed.
End pool.

(** ** Transmissions *)

Section transmissions.
Context `{Wire}.
Variable response_debug : SessionResponse → string.
Abbreviation tx_answer := (tx_answer response_debug).

Lemma conforms_any {A} h (p : prog dongE A) : conforms (λ _, True) (λ _ _, True) h p.
Proof using Type.
  revert h. induction p as [A a|A X e k IH|A S B body IHb s k IHk|A m]; intros h.
  - by apply cf_ret.
  - destruct (is_recorded e) eqn:He; [|by apply cf_eff].
    destruct e; try done; [by apply cf_send|by apply cf_look].
  - apply (cf_loop _ _ _ (λ _ _, True) (λ _ _, True)); [done| |done]. intros s' h' _.
    eapply conforms_post; [apply IHb|]. by intros ? [].
  - apply cf_panic.
Qed.

(** The transmission of [tx_with_timeout]: one TX; if it is refused for want of a
    configuration, one look at the cached configuration; what is found is sent, and if
    that is applied, the TX again. *)
Definition tx_history (data : list byte) (skip : bool) (h : history) : Prop :=
  let tx r := (tx_command skip data, r) in
  match h with
  | History [] [] => True
  | History [x1] [] => ∃ r1, x1 = tx r1
  | History [x1] [_] => ∃ r1, x1 = tx r1 ∧ tx_answer r1 = Err NotConfigured
  | History (x1 :: x2 :: rest) [Some m] => ∃ r1 pl r2,
      x1 = tx r1 ∧ tx_answer r1 = Err NotConfigured ∧
      encode_set_config m = Ok pl ∧ x2 = ((TYPE_SET_CONFIG, pl), r2) ∧
      (rest = [] ∨ ∃ c r3, r2 = Ok (RSetConfig c) ∧ rest = [tx r3])
  | _ => False
  end.

(** The result: that of the last TX, unless nothing was sent or recovery failed. *)
Definition tx_result (data : list byte) (h : history) (r : ClientResult TxDonePayload) : Prop :=
  match h with
  | History [] _ => r = Err (TransportClosed "dongle closed") ∨ data = [] ∧ r = Err Length
  | History [(_, r1)] [] => r = tx_answer r1 ∧ r ≠ Err NotConfigured
  | History [_] (None :: _) => r = Err NotConfigured
  | History [_] (Some m :: _) =>
      ∃ e, encode_set_config m = Err e ∧ r = Err (EncodeFailed (encode_error_debug e))
  | History [_; (_, r2)] _ => ∃ e, config_answer response_debug r2 = Err e ∧ r = Err e
  | History (_ :: _ :: (_, r3) :: _) _ => r = tx_answer r3
  end.

(** What [transmit] adds to a history. *)
Lemma conforms_transmit I h data skip t (Q : history → ClientResult TxDonePayload → Prop) :
  (∀ r, I (then_send h (tx_command skip data) r)) →
  (data = [] → Q h (Err Length)) →
  (data ≠ [] → ∀ r, Q (then_send h (tx_command skip data) r) (tx_answer r)) →
  conforms I Q h (transmit response_debug data skip t).
Proof using Type.
  intros HI Hnil Hq. unfold transmit. destruct data as [|b data]; [apply cf_ret; auto|].
  destruct (_ <=? _)%nat; [|apply cf_panic]. apply cf_send; [exact HI|]. intros r.
  specialize (Hq ltac:(done) r). destruct r as [[| | |td|e]|e]; simpl in *; try (by apply cf_ret).
Qed.

(** A first TX refused for want of a configuration, and what follows. *)
Lemma conforms_recovery data skip t r1 :
  data ≠ [] → tx_answer r1 = Err NotConfigured →
  conforms (tx_history data skip) (tx_result data) (History [(tx_command skip data, r1)] [])
    (recover_and_retry_tx response_debug data skip t).
Proof using Type.
  intros Hd Hr1.
  unfold recover_and_retry_tx, reapply_config, try_bind. cbn [trigger mbind prog_mbind prog_bind].
  apply cf_look; [intros m; by exists r1|]. intros [m|]; [|by apply cf_ret].
  cbn [ok_or mbind prog_mbind prog_bind]. unfold Session.set_config.
  destruct (encode_set_config m) as [pl|e] eqn:Hpl; [|by apply cf_ret; exists e].
  unfold try_bind. cbn [send_command_eff dong_send trigger mbind prog_mbind prog_bind].
  apply cf_send; [intros r; exists r1, pl, r; auto 6|].
  intros [[| |c| |e]|e]; try by apply cf_ret; eexists.
  cbn [mbind prog_mbind prog_bind trigger]. apply cf_eff; [done|]. intros [].
  cbn [mbind prog_mbind prog_bind].
  apply conforms_transmit; [|done|done].
  intros r. exists r1, pl, (Ok (RSetConfig c)). eauto 10.
Qed.

Lemma conforms_tx data skip t :
  conforms (tx_history data skip) (tx_result data) (History [] [])
    (tx_with_timeout response_debug data skip t).
Proof using Type.
  unfold tx_with_timeout, check_open, mark_write, try_bind. cbn [trigger mbind prog_mbind prog_bind].
  apply cf_eff; [done|]. intros []; [by apply cf_ret; left|]. apply cf_eff; [done|]. intros [].
  apply (conforms_bind _ (λ h r, (h = History [] [] ∧ data = [] ∧ r = Err Length) ∨
    data ≠ [] ∧ ∃ r1, h = History [(tx_command skip data, r1)] [] ∧ r = tx_answer r1)).
  { apply conforms_transmit; [intros r; by exists r|by left|]. intros ? r. right. split; [done|]. by exists r. }
  intros h r [(-> & ? & ->)|(Hd & r1 & -> & ->)]; [by apply cf_ret; right|].
  destruct (tx_answer r1) as [td|e] eqn:Hr1; [by apply cf_ret|].
  destruct e; try by apply cf_ret. by apply conforms_recovery.
Qed.

(** The transmissions of [tx_with_retry]: the same TX at most [max_attempts] times, all
    but the last one answered with an error that is worth a retry. *)
Definition retried (x : (Z * list byte) * ClientResult SessionResponse) : Prop :=
  ∃ e, tx_answer x.2 = Err e ∧ is_retryable e = true.

Record retry_exchanges (data : list byte) (p : RetryPolicy) (h : exchanges) : Prop := {
  rh_command : Forall (λ x, x.1 = tx_command (skip_cad p) data) h;
  rh_bound : Z.of_nat (length h) ≤ Z.max 0 (max_attempts p);
  rh_retried j x : h !! j = Some x → (S j < length h)%nat → retried x;
}.

(** It never looks at the configuration. *)
Definition retry_history (data : list byte) (p : RetryPolicy) (h : history) : Prop :=
  retry_exchanges data p (sends h) ∧ found h = [].

(** The attempts reported are the transmissions, numbered from 1. *)
Definition attempts_match (h : exchanges) (atts : list TxAttempt) : Prop :=
  attempt <$> atts = (Z.of_nat ∘ S) <$> seq 0 (length h) ∧
  att_result <$> atts = (λ x, match tx_answer x.2 with Ok td => Ok td | Err e => Err (clone_kind e) end) <$> h.

(** The result: that of the last attempt, which is the first one that is not worth a
    retry or the last one allowed; an error without any attempt has its own causes. *)
Definition retry_result (data : list byte) (p : RetryPolicy) (h : history)
    (r : ClientResult TxOutcome) : Prop :=
  match r with
  | Ok o => attempts_match (sends h) (attempts o) ∧
      ∃ x td, last (sends h) = Some x ∧ tx_answer x.2 = Ok td ∧ final_airtime_us o = airtime_us td
  | Err e =>
      (sends h = [] ∧ (e = TransportClosed "dongle closed" ∨ data = [] ∧ e = Length ∨
         max_attempts p ≤ 0 ∧ e = Other "tx_with_retry exited without result")) ∨
      ∃ x, last (sends h) = Some x ∧ tx_answer x.2 = Err e ∧
        (is_retryable e = false ∨ Z.of_nat (length (sends h)) = max_attempts p)
  end.

(** At the head of the loop: the attempts so far, all of them refused. *)
Definition retry_inv (data : list byte) (p : RetryPolicy) (st : Z * Z * list TxAttempt) (h : history) : Prop :=
  let '(n, _, atts) := st in
  n = Z.of_nat (S (length (sends h))) ∧ (sends h = [] ∨ n ≤ max_attempts p) ∧
  (data = [] → sends h = []) ∧
  retry_history data p h ∧ Forall retried (sends h) ∧ attempts_match (sends h) atts.

Lemma attempts_match_snoc h atts x n r el :
  attempts_match h atts → n = Z.of_nat (S (length h)) →
  r = match tx_answer x.2 with Ok td => Ok td | Err e => Err (clone_kind e) end →
  attempts_match (h ++ [x]) (atts ++ [{| attempt := n; att_result := r; elapsed := el |}]).
Proof using Type.
  intros [Hn Hr] -> ->. split; rewrite !fmap_app; [|by rewrite Hr].
  rewrite Hn, length_app, seq_app, fmap_app. done.
Qed.

Lemma retry_history_snoc data p h r :
  retry_history data p h → Forall retried (sends h) → Z.of_nat (S (length (sends h))) ≤ max_attempts p →
  retry_history data p (then_send h (tx_command (skip_cad p) data) r).
Proof using Type.
  intros [[Hc _ _] Hl] Hf Hm. split; [|done]. destruct h as [h l]. simpl in *. split.
  - apply Forall_app. split; [done|]. by constructor.
  - rewrite length_app. simpl. lia.
  - intros j x Hj Hlt. rewrite length_app in Hlt. simpl in Hlt.
    rewrite lookup_app_l in Hj by lia. by eapply Forall_lookup_1.
Qed.

Lemma conforms_retry data p :
  conforms (retry_history data p) (retry_result data p) (History [] [])
    (tx_with_retry response_debug data p).
Proof using Type.
  unfold tx_with_retry, check_open, try_bind. cbn [trigger mbind prog_mbind prog_bind].
  apply cf_eff; [done|]. intros []; [apply cf_ret; left; auto|]. cbn [loop].
  assert (retry_history data p (History [] [])) as Hnil by (split; [split; [done|simpl; lia|done]|done]).
  apply (cf_loop _ _ _ (retry_inv data p) (retry_result data p));
    [split_and!; try done; by left| |intros h r Hr; by apply cf_ret].
  intros [[n delay] atts] h (Hn & Hmax & Hdata & Hh & Hf & Ha). unfold retry_body, mark_write.
  destruct (max_attempts p <? n) eqn:Hlt.
  { apply cf_ret. left. destruct Hmax as [E|?]; [|lia]. rewrite E in Hn |- *. simpl in Hn.
    split; [done|]. right. right. split; [lia|done]. }
  cbn [trigger mbind prog_mbind prog_bind]. apply cf_eff; [done|]. intros [].
  apply cf_eff; [done|]. intros started. cbn [prog_bind].
  apply (conforms_bind _ (λ h' r, (h' = h ∧ data = [] ∧ r = Err Length) ∨
    ∃ r1, data ≠ [] ∧ h' = then_send h (tx_command (skip_cad p) data) r1 ∧ r = tx_answer r1)).
  { apply conforms_transmit; [intros r; apply retry_history_snoc; [done..|lia]|auto|eauto 7]. }
  intros h' res Hres. cbn [trigger mbind prog_mbind prog_bind]. apply cf_eff; [done|]. intros ended.
  cbn [prog_bind]. destruct Hres as [(-> & Hd & ->)|(r1 & Hd & -> & ->)].
  { apply cf_ret. left. auto. }
  pose proof (last_snoc (tx_command (skip_cad p) data, r1) (sends h)) as Hlast.
  pose proof (attempts_match_snoc (sends h) atts (tx_command (skip_cad p) data, r1) n
    (match tx_answer r1 with Ok td => Ok td | Err e => Err (clone_kind e) end) (ended - started) Ha Hn eq_refl) as Ham.
  destruct (tx_answer r1) as [td|e] eqn:Hr1.
  { apply cf_ret. split; [done|]. by eexists _, td. }
  assert (Z.of_nat (length (sends h ++ [(tx_command (skip_cad p) data, r1)])) = n) as Hlen
    by (rewrite length_app; simpl; lia).
  destruct (negb (is_retryable e) || (n =? max_attempts p)) eqn:Hstop.
  { apply cf_ret. right. eexists. split_and!; [done|done|].
    apply orb_true_iff in Hstop as [He%negb_true_iff|?]; [by left|right; simpl; lia]. }
  apply orb_false_iff in Hstop as [Hretry Hne]. apply negb_false_iff in Hretry.
  apply (conforms_bind _ (λ h' _, h' = then_send h (tx_command (skip_cad p) data) r1)).
  { unfold jitter_ms. case_match; [by apply cf_ret|]. unfold random_range_incl, dong_random.
    apply cf_eff; [done|]. intros x. by apply cf_ret. }
  intros h2 jitter ->. cbn [trigger mbind prog_mbind prog_bind]. apply cf_eff; [done|]. intros [].
  apply cf_ret. split_and!; [simpl; lia|right; lia|by intros ->| | |done].
  - apply retry_history_snoc; [done..|lia].
  - apply Forall_app. split; [done|]. constructor; [by exists e|done].
Qed.

(** ** The operations of the client *)

Definition op_history (o : op) (h : history) : Prop :=
  match o with
  | OTx data skip _ => tx_history data skip h
  | OTxRetry data p => retry_history data p h
  | _ => True
  end.

Definition op_verdict (o : op) (h : history) (r : op_reply) : Prop :=
  match o, r with
  | OTx data _ _, PTx r => tx_result data h r
  | OTxRetry data p, POutcome r => retry_result data p h r
  | OTx _ _ _, _ | OTxRetry _ _, _ => False
  | _, _ => True
  end.

Lemma conforms_op o :
  op_history o (History [] []) ∧
  conforms (op_history o) (op_verdict o) (History [] []) (run_op response_debug o).
Proof using Type.
  destruct o as [data skip t|data p| | |t|m| | | | |]; cbn [op_history op_verdict run_op];
    (split; [try done|]); try apply conforms_any.
  - eapply conforms_bind; [apply conforms_tx|]. intros h r Hr. by apply cf_ret.
  - split; [split; [done|simpl; lia|done]|done].
  - eapply conforms_bind; [apply conforms_retry|]. intros h r Hr. by apply cf_ret.
Qed.

Lemma own_found i m s : m ∈ found (own i s) → (i, m) ∈ c_reads s.
Proof using Type.
  simpl. intros ([j m'] & Hin & Hx)%list_elem_of_omap. case_decide; by simplify_eq/=.
Qed.

(** C5: What a transmission does on the wire, in every interleaving of the whole client.
    [tx] sends its TX; only when that is refused for want of a configuration it looks
    at the cached configuration, sends exactly what it has found there and, once that
    is applied, the TX again; its result is the last TX's, or the refusal, or the
    failed encoding or answer of the SET_CONFIG.  [tx_with_retry] sends the same TX at
    most [max_attempts] times, each but the last refused with a retryable error; its
    result is the last TX's, which was not worth a retry or the last one allowed, and
    the attempts it reports are its transmissions, one by one.  An error without any
    command is a closed dongle's, an empty payload's or an empty policy's.  The
    configuration found is the one the dongle was made with or one that the device
    has echoed to a SET_CONFIG. *)
Theorem transmissions_exact applied ka now ops cf k o :
  reachable (client_pool response_debug applied ka now ops) cf → ops !! k = Some o →
  let h := own (S k) (shared cf).2 in
  op_history o h ∧
  (∀ r, tasks cf !! S k = Some (Ret r) → op_verdict o h r) ∧
  ∀ m, m ∈ found h → m = applied ∨ ∃ j pl c,
    (j, (TYPE_SET_CONFIG, pl), Ok (RSetConfig c)) ∈ c_log (shared cf).2 ∧ m = Some (sc_current c).
Proof using Type.
  intros Hr Ho h.
  destruct (client_conforms response_debug op_history op_verdict applied ka now ops cf k o conforms_op Hr Ho).
  split_and!; [done|done|]. intros m Hm%own_found.
  destruct (client_simulated response_debug applied ka now ops cf Hr) as (cfa & Hra & Hc & _).
  destruct (rg_adequacy _ _ _ (cells_drop_ok applied) _ _ _
    (dongle_pool_safe response_debug applied ka now ops) Hra) as [(_ & _ & Hreads) _].
  rewrite Hc in Hreads. destruct (Hreads _ _ Hm) as [?|(c & (j & pl & ?) & ?)]; eauto 7.
Qed.
End transmissions.

(** A transmission that finds the channel busy once. *)
Definition busy_ops : list op := [OTxRetry [x68] default_policy].
Definition busy_run : list (label linkE (Sess * Cells)) :=
  steps 1 12 ++ steps 2 2 ++ receives 2 [x80; x01] ++ steps 2 4 ++ receives 2 [x82; x01; x01] ++
  steps 2 4 ++ steps 1 16 ++ receives 2 [x82; x02; x00] ++ steps 2 4 ++ steps 1 3.

(** One that is refused for want of a configuration; the cached one is re-applied. *)
Definition refused_ops : list op := [OTx [x68] false 10000].
Definition refused_run : list (label linkE (Sess * Cells)) :=
  steps 1 10 ++ steps 2 2 ++ receives 2 [x81; x01; x00] ++ steps 2 4 ++ steps 1 11 ++
  receives 2 [x80; x02] ++ steps 2 4 ++ steps 1 11 ++ receives 2 [x82; x03; x00] ++ steps 2 4 ++
  steps 1 2.

Lemma transmissions_exact_witness :
  let cf := after refused_run (client_pool any_debug (Some (LoRa demo_config)) false 0 refused_ops) in
  let h := own 1 (shared cf).2 in
  sends h = [(tx_command false [x68], Ok (RErr NotConfigured));
             ((TYPE_SET_CONFIG, [x00]), Ok (RSetConfig demo_set_config));
             (tx_command false [x68], Ok (RTxDone {| td_result := Transmitted; airtime_us := 7777 |}))] ∧
  found h = [Some (LoRa demo_config)] ∧
  op_history any_debug (OTx [x68] false 10000) h ∧
  (∀ r, tasks cf !! 1%nat = Some (Ret r) → op_verdict any_debug (OTx [x68] false 10000) h r) ∧
  ∀ m, m ∈ found h → m = Some (LoRa demo_config) ∨ ∃ j pl c,
    (j, (TYPE_SET_CONFIG, pl), Ok (RSetConfig c)) ∈ c_log (shared cf).2 ∧ m = Some (sc_current c).
Proof.
  split; [vm_compute; reflexivity|]. split; [vm_compute; reflexivity|].
  apply (transmissions_exact any_debug (Some (LoRa demo_config)) false 0 refused_ops (after refused_run _) 0
           (OTx [x68] false 10000)); [apply after_reachable|reflexivity].
Defined.

(** The retried one in figures. *)
Example busy_retried :
  let cf := after busy_run (client_pool any_debug None false 0 busy_ops) in
  length (sends (own 1 (shared cf).2)) = 2%nat ∧
  ∃ o, tasks cf !! 1%nat = Some (Ret (POutcome (Ok o))) ∧ length (attempts o) = 2%nat.
Proof. split; [vm_compute; reflexivity|]. eexists. split; vm_compute; reflexivity. Qed.
