(* ===== verification/Transport.v ===== *)
(** * Transports ([src/transport.rs])

    Opening the three transports, with the error of each, and the implementations of
    tokio's stream traits for them and for [AnyTransport].  The streams underneath
    (serial port, sockets) belong to tokio: their types, the calls that open them and
    their own trait implementations are parameters. *)

From S2P Require Import Prelude Runtime Errors Protocol.
Local Open Scope Z_scope.

(** ** Data *)

(** The streams of [tokio_serial] and [tokio::net], and a task's [Context]. *)
Class Streams := {
  SerialStream : Type;
  UnixStream : Type;
  TcpStream : Type;
  TaskContext : Type;
}.

Section data.
Context `{Streams}.

Record SerialTransport := { serial_inner : SerialStream }.
Record UnixSocketTransport := { unix_inner : UnixStream }.
Record TcpTransport := { tcp_inner : TcpStream }.

(** The variants [Serial], [Unix] and [Tcp]. *)
Inductive AnyTransport :=
| SerialT (t : SerialTransport)
| UnixT (t : UnixSocketTransport)
| TcpT (t : TcpTransport).
End data.

(** ** Opening *)

Class TransportIO `{Streams} (E : Type → Type) := {
  (** [tokio_serial::new(path, 115_200).open_native_async()] *)
  open_native_async : string → prog E (result SerialStream io_error);
  (** [UnixStream::connect(path)] *)
  unix_stream_connect : string → prog E (result UnixStream io_error);
  (** [timeout(t, TcpStream::connect(addr))]: [None] when the timer expired *)
  tcp_stream_connect : string → Z → prog E (option (result TcpStream io_error));
  set_nodelay : TcpStream → prog E (result unit io_error);
}.

Section opening.
Context `{TransportIO E}.

Definition SerialTransport_open (path : string) : prog E (ClientResult SerialTransport) :=
  r ← open_native_async path;
  Ret match r with
      | Ok inner => Ok {| serial_inner := inner |}
      | Err e => Err (Other ("failed to open serial port " +:+ path +:+ ": " +:+ io_display e))
      end.

Definition UnixSocketTransport_connect (path : string) :
    prog E (ClientResult UnixSocketTransport) :=
  r ← unix_stream_connect path;
  Ret match r with
      | Ok inner => Ok {| unix_inner := inner |}
      | Err e => Err (Other ("failed to connect to mux socket " +:+ path +:+ ": " +:+ io_display e))
      end.

Definition TcpTransport_connect (host : string) (port timeout : Z) :
    prog E (ClientResult TcpTransport) :=
  let addr := host +:+ ":" +:+ show_z port in
  stream ← tcp_stream_connect addr timeout;
  match stream with
  | None => Ret (Err (TimedOut "tcp connect"))
  | Some (Err e) =>
      Ret (Err (Other ("failed to connect to " +:+ addr +:+ ": " +:+ io_display e)))
  | Some (Ok stream) =>
      r ← set_nodelay stream;
      Ret match r with
          | Ok _ => Ok {| tcp_inner := stream |}
          | Err e => Err (Other ("failed to set TCP_NODELAY: " +:+ io_display e))
          end
  end.
End opening.

(** ** The stream traits *)

Inductive Poll (A : Type) :=
| PollReady (a : A)
| PollPending.
Arguments PollReady {A} a.
Arguments PollPending {A}.

(** [ReadBuf]: what has been read, and the room left. *)
Record ReadBuf := { filled : list byte; room : nat }.

(** [AsyncRead] and [AsyncWrite]: a call may change the stream (it keeps the task's
    waker when it is not ready). *)
Class AsyncRead `{Streams} (T : Type) :=
  poll_read : T → TaskContext → ReadBuf → Poll (result unit io_error) * T * ReadBuf.
Class AsyncWrite `{Streams} (T : Type) := {
  poll_write : T → TaskContext → list byte → Poll (result nat io_error) * T;
  poll_flush : T → TaskContext → Poll (result unit io_error) * T;
  poll_shutdown : T → TaskContext → Poll (result unit io_error) * T;
}.

(** A call on a part of a stream: the result, with the part put back. *)
Definition on_read {T U} (f : T → U) (x : Poll (result unit io_error) * T * ReadBuf) :
    Poll (result unit io_error) * U * ReadBuf := let '(p, t, b) := x in (p, f t, b).
Definition on_write {T U A} (f : T → U) (x : Poll A * T) : Poll A * U := let '(p, t) := x in (p, f t).

Section traits.
Context `{Streams}.
Context `{!AsyncRead SerialStream, !AsyncWrite SerialStream}.
Context `{!AsyncRead UnixStream, !AsyncWrite UnixStream}.
Context `{!AsyncRead TcpStream, !AsyncWrite TcpStream}.

Definition SerialTransport_poll_read (t : SerialTransport) (cx : TaskContext) (buf : ReadBuf) :
    Poll (result unit io_error) * SerialTransport * ReadBuf :=
  on_read Build_SerialTransport (poll_read (serial_inner t) cx buf).
Definition SerialTransport_poll_write (t : SerialTransport) (cx : TaskContext) (buf : list byte) :
    Poll (result nat io_error) * SerialTransport :=
  on_write Build_SerialTransport (poll_write (serial_inner t) cx buf).
Definition SerialTransport_poll_flush (t : SerialTransport) (cx : TaskContext) :
    Poll (result unit io_error) * SerialTransport :=
  on_write Build_SerialTransport (poll_flush (serial_inner t) cx).
Definition SerialTransport_poll_shutdown (t : SerialTransport) (cx : TaskContext) :
    Poll (result unit io_error) * SerialTransport :=
  on_write Build_SerialTransport (poll_shutdown (serial_inner t) cx).

#[export] Instance serial_async_read : AsyncRead SerialTransport := SerialTransport_poll_read.
#[export] Instance serial_async_write : AsyncWrite SerialTransport := {|
  poll_write := SerialTransport_poll_write; poll_flush := SerialTransport_poll_flush;
  poll_shutdown := SerialTransport_poll_shutdown |}.

Definition UnixSocketTransport_poll_read (t : UnixSocketTransport) (cx : TaskContext) (buf : ReadBuf) :
    Poll (result unit io_error) * UnixSocketTransport * ReadBuf :=
  on_read Build_UnixSocketTransport (poll_read (unix_inner t) cx buf).
Definition UnixSocketTransport_poll_write (t : UnixSocketTransport) (cx : TaskContext) (buf : list byte) :
    Poll (result nat io_error) * UnixSocketTransport :=
  on_write Build_UnixSocketTransport (poll_write (unix_inner t) cx buf).
Definition UnixSocketTransport_poll_flush (t : UnixSocketTransport) (cx : TaskContext) :
    Poll (result unit io_error) * UnixSocketTransport :=
  on_write Build_UnixSocketTransport (poll_flush (unix_inner t) cx).
Definition UnixSocketTransport_poll_shutdown (t : UnixSocketTransport) (cx : TaskContext) :
    Poll (result unit io_error) * UnixSocketTransport :=
  on_write Build_UnixSocketTransport (poll_shutdown (unix_inner t) cx).

#[export] Instance unix_async_read : AsyncRead UnixSocketTransport := UnixSocketTransport_poll_read.
#[export] Instance unix_async_write : AsyncWrite UnixSocketTransport := {|
  poll_write := UnixSocketTransport_poll_write; poll_flush := UnixSocketTransport_poll_flush;
  poll_shutdown := UnixSocketTransport_poll_shutdown |}.

Definition TcpTransport_poll_read (t : TcpTransport) (cx : TaskContext) (buf : ReadBuf) :
    Poll (result unit io_error) * TcpTransport * ReadBuf :=
  on_read Build_TcpTransport (poll_read (tcp_inner t) cx buf).
Definition TcpTransport_poll_write (t : TcpTransport) (cx : TaskContext) (buf : list byte) :
    Poll (result nat io_error) * TcpTransport :=
  on_write Build_TcpTransport (poll_write (tcp_inner t) cx buf).
Definition TcpTransport_poll_flush (t : TcpTransport) (cx : TaskContext) :
    Poll (result unit io_error) * TcpTransport :=
  on_write Build_TcpTransport (poll_flush (tcp_inner t) cx).
Definition TcpTransport_poll_shutdown (t : TcpTransport) (cx : TaskContext) :
    Poll (result unit io_error) * TcpTransport :=
  on_write Build_TcpTransport (poll_shutdown (tcp_inner t) cx).

#[export] Instance tcp_async_read : AsyncRead TcpTransport := TcpTransport_poll_read.
#[export] Instance tcp_async_write : AsyncWrite TcpTransport := {|
  poll_write := TcpTransport_poll_write; poll_flush := TcpTransport_poll_flush;
  poll_shutdown := TcpTransport_poll_shutdown |}.

Definition AnyTransport_poll_read (t : AnyTransport) (cx : TaskContext) (buf : ReadBuf) :
    Poll (result unit io_error) * AnyTransport * ReadBuf :=
  match t with
  | SerialT t => on_read SerialT (poll_read t cx buf)
  | UnixT t => on_read UnixT (poll_read t cx buf)
  | TcpT t => on_read TcpT (poll_read t cx buf)
  end.
Definition AnyTransport_poll_write (t : AnyTransport) (cx : TaskContext) (buf : list byte) :
    Poll (result nat io_error) * AnyTransport :=
  match t with
  | SerialT t => on_write SerialT (poll_write t cx buf)
  | UnixT t => on_write UnixT (poll_write t cx buf)
  | TcpT t => on_write TcpT (poll_write t cx buf)
  end.
Definition AnyTransport_poll_flush (t : AnyTransport) (cx : TaskContext) :
    Poll (result unit io_error) * AnyTransport :=
  match t with
  | SerialT t => on_write SerialT (poll_flush t cx)
  | UnixT t => on_write UnixT (poll_flush t cx)
  | TcpT t => on_write TcpT (poll_flush t cx)
  end.
Definition AnyTransport_poll_shutdown (t : AnyTransport) (cx : TaskContext) :
    Poll (result unit io_error) * AnyTransport :=
  match t with
  | SerialT t => on_write SerialT (poll_shutdown t cx)
  | UnixT t => on_write UnixT (poll_shutdown t cx)
  | TcpT t => on_write TcpT (poll_shutdown t cx)
  end.

#[export] Instance any_async_read : AsyncRead AnyTransport := AnyTransport_poll_read.
#[export] Instance any_async_write : AsyncWrite AnyTransport := {|
  poll_write := AnyTransport_poll_write; poll_flush := AnyTransport_poll_flush;
  poll_shutdown := AnyTransport_poll_shutdown |}.

(** ** Driving a stream *)

Inductive io_call :=
| IoRead (cx : TaskContext) (buf : ReadBuf)
| IoWrite (cx : TaskContext) (buf : list byte)
| IoFlush (cx : TaskContext)
| IoShutdown (cx : TaskContext).

Inductive io_reply :=
| RepRead (p : Poll (result unit io_error)) (buf : ReadBuf)
| RepWrite (p : Poll (result nat io_error))
| RepFlush (p : Poll (result unit io_error))
| RepShutdown (p : Poll (result unit io_error)).

Definition io_step `{!AsyncRead T, !AsyncWrite T} (t : T) (c : io_call) : io_reply * T :=
  match c with
  | IoRead cx buf => let '(p, t, buf) := poll_read t cx buf in (RepRead p buf, t)
  | IoWrite cx buf => let '(p, t) := poll_write t cx buf in (RepWrite p, t)
  | IoFlush cx => let '(p, t) := poll_flush t cx in (RepFlush p, t)
  | IoShutdown cx => let '(p, t) := poll_shutdown t cx in (RepShutdown p, t)
  end.

(** The calls in order, each on the stream the previous one left; a caller that
    chooses its next call from the replies so far. *)
Fixpoint io_run `{!AsyncRead T, !AsyncWrite T} (fuel : nat)
    (caller : list io_reply → option io_call) (seen : list io_reply) (t : T) :
    list io_reply * T :=
  match fuel with
  | O => (seen, t)
  | S fuel =>
      match caller seen with
      | None => (seen, t)
      | Some c => let '(r, t) := io_step t c in io_run fuel caller (seen ++ [r]) t
      end
  end.

(** A wrapper that forwards every call to what it wraps. *)
Class Forwards `{!AsyncRead T, !AsyncWrite T, !AsyncRead U, !AsyncWrite U} (f : T → U) : Prop :=
  forwards t c : io_step (f t) c = prod_map id f (io_step t c).

Lemma forwards_run `{Hf : Forwards T U f} fuel caller seen t :
  io_run fuel caller seen (f t) = prod_map id f (io_run fuel caller seen t).
Proof using Type.
  revert seen t. induction fuel as [|fuel IH]; intros seen t; simpl; [done|].
  destruct (caller seen) as [c|]; [|done]. rewrite Hf.
  destruct (io_step t c) as [r t']. apply IH.
Qed.

#[export] Instance forwards_compose `{Hf : Forwards T U f} `{!AsyncRead V, !AsyncWrite V}
    (g : U → V) : Forwards g → Forwards (g ∘ f).
Proof using Type. intros Hg t c. simpl. rewrite Hg, Hf. by destruct (io_step t c). Qed.

(** Unfold the wrapper's methods down to the wrapped stream's. *)
Ltac forward :=
  intros t []; cbv [io_step poll_read poll_write poll_flush poll_shutdown
    serial_async_read serial_async_write unix_async_read unix_async_write
    tcp_async_read tcp_async_write any_async_read any_async_write
    SerialTransport_poll_read SerialTransport_poll_write SerialTransport_poll_flush
    SerialTransport_poll_shutdown UnixSocketTransport_poll_read UnixSocketTransport_poll_write
    UnixSocketTransport_poll_flush UnixSocketTransport_poll_shutdown TcpTransport_poll_read
    TcpTransport_poll_write TcpTransport_poll_flush TcpTransport_poll_shutdown
    AnyTransport_poll_read AnyTransport_poll_write AnyTransport_poll_flush
    AnyTransport_poll_shutdown on_read on_write serial_inner unix_inner tcp_inner];
  repeat case_match; by simplify_eq/=.

#[export] Instance serial_forwards : Forwards Build_SerialTransport.
Proof using Type. forward. Qed.
#[export] Instance unix_forwards : Forwards Build_UnixSocketTransport.
Proof using Type. forward. Qed.
#[export] Instance tcp_forwards : Forwards Build_TcpTransport.
Proof using Type. forward. Qed.
#[export] Instance any_serial_forwards : Forwards SerialT.
Proof using Type. forward. Qed.
#[export] Instance any_unix_forwards : Forwards UnixT.
Proof using Type. forward. Qed.
#[export] Instance any_tcp_forwards : Forwards TcpT.
Proof using Type. forward. Qed.

(** C22: Type erasure is transparent: whatever a caller does with a transport (reads,
    writes, flushes and shutdowns in any order, each chosen from the replies so far,
    not-ready ones and errors included), it sees over [AnyTransport] exactly what it
    would see over the wrapped serial port or socket itself, and leaves that stream
    in the same state. *)
Theorem any_transport_transparent fuel caller
    (port : SerialStream) (sock : UnixStream) (tcp : TcpStream) :
  io_run fuel caller [] (SerialT {| serial_inner := port |}) =
    prod_map id (λ t, SerialT {| serial_inner := t |}) (io_run fuel caller [] port) ∧
  io_run fuel caller [] (UnixT {| unix_inner := sock |}) =
    prod_map id (λ t, UnixT {| unix_inner := t |}) (io_run fuel caller [] sock) ∧
  io_run fuel caller [] (TcpT {| tcp_inner := tcp |}) =
    prod_map id (λ t, TcpT {| tcp_inner := t |}) (io_run fuel caller [] tcp).
Proof using Type.
  split_and!; [exact (forwards_run (f := SerialT ∘ Build_SerialTransport) _ _ _ _)
    |exact (forwards_run (f := UnixT ∘ Build_UnixSocketTransport) _ _ _ _)
    |exact (forwards_run (f := TcpT ∘ Build_TcpTransport) _ _ _ _)].
Qed.
End traits.
