(* ===== verification/Connect.v ===== *)
(** * Connecting ([src/connect.rs])

    The choice of a transport (explicit port, TCP mux, Unix mux, USB serial), the
    process-wide preference for a mux once one was used, and [finalize]: the probe
    and initial configuration of the new session.  The model is of a Unix target
    ([cfg(unix)]).  The environment variables, the file system, the ports and the
    peers are effects of [connE]. *)

From S2P Require Import Prelude Runtime Errors Protocol Config Session Discovery Endpoint Transport.
Local Open Scope Z_scope.

Section data.
Context `{WireTypes, SerialPorts, Streams}.

Record ConnectOptions := {
  opt_port : option string;
  opt_timeout : option Z;
  opt_config : option Modulation;
  opt_auto_configure : bool;
  opt_keepalive : bool;
}.

(** The arguments [finalize] gives to [Dongle::new], the session aside. *)
Record Connected := {
  conn_info : Info;
  conn_kind : TransportKind;
  conn_applied : option Modulation;
  conn_keepalive : bool;
}.

(** [Dongle::info] and [Dongle::transport_kind]. *)
Definition info (c : Connected) : Info := conn_info c.
Definition transport_kind (c : Connected) : TransportKind := conn_kind c.

Inductive connE : Type → Type :=
| CEnvVar (name : string) : connE (option string)
| CExists (path : string) : connE bool
| CScan : connE (result (list SerialPortInfo) io_error)
| CSleep (ms : Z) : connE unit
| COpenSerial (path : string) : connE (result SerialStream io_error)
| CConnectUnix (path : string) : connE (result UnixStream io_error)
| CConnectTcp (addr : string) (timeout : Z) : connE (option (result TcpStream io_error))
| CNodelay (stream : TcpStream) : connE (result unit io_error)
| CLoadUsedMux : connE bool
| CStoreUsedMux : connE unit               (** [USED_MUX.store(true, ..)] *)
| CSpawn (t : AnyTransport) : connE unit   (** [Session::spawn(transport)] *)
| CClose : connE unit                      (** [session.close()]; no function of the file calls it *)
| CSend (type_id : Z) (payload : list byte) (timeout : Z) :
    connE (ClientResult SessionResponse).

#[export] Instance conn_transport : TransportIO connE := {|
  open_native_async p := trigger (COpenSerial p);
  unix_stream_connect p := trigger (CConnectUnix p);
  tcp_stream_connect a t := trigger (CConnectTcp a t);
  set_nodelay s := trigger (CNodelay s) |}.
#[export] Instance conn_scan : SerialScan connE := {|
  available_ports := trigger CScan;
  sleep_ms ms := trigger (CSleep ms) |}.
#[export] Instance conn_send : SendCommand connE := λ ty pl t, trigger (CSend ty pl t).

(** ** [ConnectOptions] *)

(** [#[derive(Default)]] *)
Definition options_default : ConnectOptions := {|
  opt_port := None; opt_timeout := None; opt_config := None; opt_auto_configure := false;
  opt_keepalive := false |}.

Definition options_new : ConnectOptions := {|
  opt_port := None; opt_timeout := None; opt_config := None; opt_auto_configure := false;
  opt_keepalive := true |}.

Definition with_port (p : string) (o : ConnectOptions) : ConnectOptions := {|
  opt_port := Some p; opt_timeout := opt_timeout o; opt_config := opt_config o;
  opt_auto_configure := opt_auto_configure o; opt_keepalive := opt_keepalive o |}.

Definition with_timeout (t : Z) (o : ConnectOptions) : ConnectOptions := {|
  opt_port := opt_port o; opt_timeout := Some t; opt_config := opt_config o;
  opt_auto_configure := opt_auto_configure o; opt_keepalive := opt_keepalive o |}.

Definition with_config (m : Modulation) (o : ConnectOptions) : ConnectOptions := {|
  opt_port := opt_port o; opt_timeout := opt_timeout o; opt_config := Some m;
  opt_auto_configure := true; opt_keepalive := opt_keepalive o |}.

Definition with_auto_configure (b : bool) (o : ConnectOptions) : ConnectOptions := {|
  opt_port := opt_port o; opt_timeout := opt_timeout o; opt_config := opt_config o;
  opt_auto_configure := b; opt_keepalive := opt_keepalive o |}.

Definition with_keepalive (b : bool) (o : ConnectOptions) : ConnectOptions := {|
  opt_port := opt_port o; opt_timeout := opt_timeout o; opt_config := opt_config o;
  opt_auto_configure := opt_auto_configure o; opt_keepalive := b |}.
End data.

(** ** The connect functions *)

Section connect.
Context `{Wire} `{SerialPorts} `{Streams}.
(** Builds with overflow checks, and [{other:?}] of a response. *)
Context (overflow_checks : bool) (response_debug : SessionResponse → string).

Definition DEFAULT_TIMEOUT : Z := 2000.

Definition finalize (transport : AnyTransport) (kind : TransportKind) (opts : ConnectOptions)
    (timeout : Z) : prog connE (ClientResult Connected) :=
  trigger (CSpawn transport) ;;
  do? ping response_debug timeout;
  info ←? get_info response_debug timeout;
  applied ←? (if opt_auto_configure opts then
                match opt_config opts with
                | Some m =>
                    match prepare_config overflow_checks info m with
                    | None => Panic "attempt to shift left with overflow"
                    | Some (Err e) => Ret (Err e)
                    | Some (Ok prepared) =>
                        result ←? set_config response_debug prepared timeout;
                        Ret (Ok (Some (sc_current result)))
                    end
                | None => Ret (Ok None)
                end
              else Ret (Ok None));
  Ret (Ok {| conn_info := info; conn_kind := kind; conn_applied := applied;
             conn_keepalive := opt_keepalive opts |}).

Definition try_tcp_env (timeout : Z) : prog connE (option (TcpTransport * string)) :=
  tcp ← trigger (CEnvVar "DONGLORA_MUX_TCP");
  match tcp with
  | None => Ret None
  | Some tcp =>
      match parse_tcp_endpoint tcp with
      | None => Ret None
      | Some (host, port) =>
          r ← TcpTransport_connect host port timeout;
          match r with
          | Ok t => Ret (Some (t, format_endpoint host port))
          | Err _ => Ret None
          end
      end
  end.

(** [default_socket_path] and [find_mux_socket] with their reads as effects. *)
Definition default_socket_path_io : prog connE string :=
  mux ← trigger (CEnvVar "DONGLORA_MUX");
  match mux with
  | Some env => Ret env
  | None =>
      xdg ← trigger (CEnvVar "XDG_RUNTIME_DIR");
      match xdg with
      | Some xdg => Ret (xdg +:+ "/donglora/mux.sock")
      | None => Ret fallback_socket
      end
  end.

Definition find_mux_socket_io : prog connE (option string) :=
  mux ← trigger (CEnvVar "DONGLORA_MUX");
  match mux with
  | Some env =>
      e ← trigger (CExists env);
      Ret (if (e : bool) then Some env else None)
  | None =>
      let tmp :=
        e ← trigger (CExists fallback_socket);
        Ret (if (e : bool) then Some fallback_socket else None) in
      xdg ← trigger (CEnvVar "XDG_RUNTIME_DIR");
      match xdg with
      | Some xdg =>
          let p := xdg +:+ "/donglora/mux.sock" in
          e ← trigger (CExists p);
          if (e : bool) then Ret (Some p) else tmp
      | None => tmp
      end
  end.

(** One round of the wait for a mux that restarts. *)
Definition sticky_body (path : string) (opts : ConnectOptions) (timeout : Z) (_ : unit) :
    prog connE (unit + ClientResult Connected) :=
  e ← trigger (CExists path);
  if (e : bool) then
    t ← UnixSocketTransport_connect path;
    match t with
    | Ok transport => r ← finalize (UnixT transport) (MuxUnix path) opts timeout; Ret (inr r)
    | Err e => Ret (inr (Err e))
    end
  else trigger (CSleep 500) ;; Ret (inl tt).

Definition connect_mux_sticky (opts : ConnectOptions) (timeout : Z) :
    prog connE (ClientResult Connected) :=
  tcp ← try_tcp_env timeout;
  match tcp with
  | Some (transport, endpoint) => finalize (TcpT transport) (MuxTcp endpoint) opts timeout
  | None =>
      path ← default_socket_path_io;
      loop (sticky_body path opts timeout) tt
  end.

Definition open_port (port : string) (opts : ConnectOptions) (timeout : Z) :
    prog connE (ClientResult Connected) :=
  transport ←? SerialTransport_open port;
  finalize (SerialT transport) (Serial port) opts timeout.

(** Connect to a Unix mux; the caller says whether that makes the mux sticky. *)
Definition open_mux (sticky : bool) (path : string) (opts : ConnectOptions) (timeout : Z) :
    prog connE (ClientResult Connected) :=
  transport ←? UnixSocketTransport_connect path;
  (if sticky then trigger CStoreUsedMux else Ret tt) ;;
  finalize (UnixT transport) (MuxUnix path) opts timeout.

Definition option_timeout (opts : ConnectOptions) : Z := default DEFAULT_TIMEOUT (opt_timeout opts).

Definition connect_with (opts : ConnectOptions) : prog connE (ClientResult Connected) :=
  let timeout := option_timeout opts in
  match opt_port opts with
  | Some port => open_port port opts timeout
  | None =>
      used ← trigger CLoadUsedMux;
      if (used : bool) then connect_mux_sticky opts timeout
      else
        tcp ← try_tcp_env timeout;
        match tcp with
        | Some (transport, endpoint) =>
            trigger CStoreUsedMux ;;
            finalize (TcpT transport) (MuxTcp endpoint) opts timeout
        | None =>
            mux ← find_mux_socket_io;
            match mux with
            | Some path => open_mux true path opts timeout
            | None =>
                ports ← available_ports;
                port ← (match find_port ports with
                        | Some p => Ret p
                        | None => wait_for_device
                        end);
                open_port port opts timeout
            end
        end
  end.

Definition connect : prog connE (ClientResult Connected) := connect_with options_new.

Definition try_connect_with (opts : ConnectOptions) : prog connE (ClientResult Connected) :=
  let timeout := option_timeout opts in
  match opt_port opts with
  | Some port => open_port port opts timeout
  | None =>
      used ← trigger CLoadUsedMux;
      if (used : bool) then
        mux ← find_mux_socket_io;
        match mux with
        | None => Ret (Err (Other "mux not available (waiting for restart)"))
        | Some path => open_mux false path opts timeout
        end
      else
        tcp ← try_tcp_env timeout;
        match tcp with
        | Some (transport, endpoint) =>
            trigger CStoreUsedMux ;;
            finalize (TcpT transport) (MuxTcp endpoint) opts timeout
        | None =>
            mux ← find_mux_socket_io;
            match mux with
            | Some path => open_mux true path opts timeout
            | None =>
                ports ← available_ports;
                match find_port ports with
                | None => Ret (Err (Other "no DongLoRa device found (no mux, no USB device)"))
                | Some port => open_port port opts timeout
                end
            end
        end
  end.

Definition try_connect : prog connE (ClientResult Connected) := try_connect_with options_new.

Definition connect_mux_auto_with (opts : ConnectOptions) : prog connE (ClientResult Connected) :=
  let timeout := option_timeout opts in
  tcp ← try_tcp_env timeout;
  match tcp with
  | Some (transport, endpoint) =>
      trigger CStoreUsedMux ;;
      finalize (TcpT transport) (MuxTcp endpoint) opts timeout
  | None =>
      mux ← find_mux_socket_io;
      match mux with
      | None => Ret (Err (Other "no mux socket found"))
      | Some path => open_mux true path opts timeout
      end
  end.

Definition connect_mux_auto : prog connE (ClientResult Connected) :=
  connect_mux_auto_with options_new.

Definition mux_unix_connect (path : string) : prog connE (ClientResult Connected) :=
  open_mux true path options_new DEFAULT_TIMEOUT.

Definition mux_tcp_connect (host : string) (port : Z) : prog connE (ClientResult Connected) :=
  transport ←? TcpTransport_connect host port DEFAULT_TIMEOUT;
  trigger CStoreUsedMux ;;
  finalize (TcpT transport) (MuxTcp (format_endpoint host port)) options_new DEFAULT_TIMEOUT.
End connect.
