(* ===== verification/ConnectSpec.v ===== *)
(** * Correctness of connecting

    The connect functions of [Connect.v] run in every environment ([CEnv]): which
    transport is chosen, what is never touched, what sticks, what is sent while
    connecting, and which calls can wait. *)

From S2P Require Import Prelude Runtime Errors Protocol Config Session Dongle Discovery Endpoint Transport Connect.
Local Open Scope Z_scope.

(** ** The environment of a process *)

Section world.
Context `{Wire} `{SerialPorts} `{Streams}.

(** What does not belong to the process: some of it changes with time. *)
Record CEnv := {
  env_var : string → option string;
  path_exists : Z → string → bool;
  ports : Z → result (list SerialPortInfo) io_error;
  serial_open : Z → string → result SerialStream io_error;
  unix_open : Z → string → result UnixStream io_error;
  tcp_open : Z → string → option (result TcpStream io_error);
  nodelay : TcpStream → result unit io_error;
  peer : AnyTransport → list (Z * list byte) → Z → list byte → ClientResult SessionResponse;
}.

Record CSt := {
  c_now : Z;
  used_mux : bool;
  tried_serial : list string;               (** serial ports opened, or tried *)
  tried_mux : list string;                  (** mux endpoints connected to, or tried *)
  session_on : option AnyTransport;
  commands : list (Z * list byte);          (** sent on the latest session *)
}.

Variable env : CEnv.

Definition c_at (t : Z) (s : CSt) : CSt := {|
  c_now := t; used_mux := used_mux s; tried_serial := tried_serial s;
  tried_mux := tried_mux s; session_on := session_on s; commands := commands s |}.

Definition c_try (serial mux : list string) (s : CSt) : CSt := {|
  c_now := c_now s; used_mux := used_mux s; tried_serial := tried_serial s ++ serial;
  tried_mux := tried_mux s ++ mux; session_on := session_on s; commands := commands s |}.

Definition c_stick (s : CSt) : CSt := {|
  c_now := c_now s; used_mux := true; tried_serial := tried_serial s;
  tried_mux := tried_mux s; session_on := session_on s; commands := commands s |}.

Definition c_session (t : option AnyTransport) (cmds : list (Z * list byte)) (s : CSt) : CSt := {|
  c_now := c_now s; used_mux := used_mux s; tried_serial := tried_serial s;
  tried_mux := tried_mux s; session_on := t; commands := cmds |}.

Definition conn_do (X : Type) (e : connE X) (s : CSt) : option (X * CSt) :=
  match e in connE X return option (X * CSt) with
  | CEnvVar name => Some (env_var env name, s)
  | CExists path => Some (path_exists env (c_now s) path, s)
  | CScan => Some (ports env (c_now s), s)
  | CSleep ms => Some (tt, c_at (c_now s + ms) s)
  | COpenSerial path => Some (serial_open env (c_now s) path, c_try [path] [] s)
  | CConnectUnix path => Some (unix_open env (c_now s) path, c_try [] [path] s)
  | CConnectTcp addr _ => Some (tcp_open env (c_now s) addr, c_try [] [addr] s)
  | CNodelay addr => Some (nodelay env addr, s)
  | CLoadUsedMux => Some (used_mux s, s)
  | CStoreUsedMux => Some (tt, c_stick s)
  | CSpawn t => Some (tt, c_session (Some t) [] s)
  | CClose => Some (tt, c_session None (commands s) s)
  | CSend ty pl _ =>
      match session_on s with
      | Some t => Some (peer env t (commands s) ty pl,
                        c_session (Some t) (commands s ++ [(ty, pl)]) s)
      | None => None
      end
  end.
End world.

(** ** What is never touched *)

Section safety.
Context `{Wire} `{SerialPorts} `{Streams} (oc : bool) (rd : SessionResponse → string).

(** Effects that have nothing to do with serial ports, or with a mux. *)
Definition no_serial (X : Type) (e : connE X) : Prop :=
  match e with COpenSerial _ | CScan => False | _ => True end.
Definition no_mux (X : Type) (e : connE X) : Prop :=
  match e with
  | CConnectUnix _ | CConnectTcp _ _ | CNodelay _ | CStoreUsedMux | CLoadUsedMux
  | CEnvVar _ | CExists _ | CScan | CSleep _ => False
  | _ => True
  end.

Lemma uses_transmit_cmd (ok : ∀ X, connE X → Prop) ty pl t :
  (∀ ty pl t, ok _ (CSend ty pl t)) → uses ok (send_command_eff (E := connE) ty pl t).
Proof using Type. intros Hok. by apply uses_trigger. Qed.

Lemma uses_finalize (ok : ∀ X, connE X → Prop) t k o tm :
  (∀ t, ok _ (CSpawn t)) → (∀ ty pl t, ok _ (CSend ty pl t)) →
  uses ok (finalize oc rd t k o tm).
Proof using Type.
  intros Hsp Hsend. unfold finalize.
  apply uses_bind; [by apply uses_trigger|]. intros _.
  apply uses_try_bind.
  { apply uses_try_bind; [by apply uses_trigger|]. intros []; constructor. }
  intros _. apply uses_try_bind.
  { apply uses_try_bind; [by apply uses_trigger|]. intros []; constructor. }
  intros info. apply uses_try_bind.
  - destruct (opt_auto_configure o); [|constructor].
    destruct (opt_config o) as [m|]; [|constructor].
    destruct (prepare_config oc info m) as [[m'|]|]; [|constructor..].
    apply uses_try_bind; [|intros; constructor]. unfold Session.set_config.
    destruct (encode_set_config m'); [|constructor].
    apply uses_try_bind; [by apply uses_trigger|]. intros []; constructor.
  - intros a. constructor.
Qed.

(** Programs built from the pieces above. *)
Ltac solve_conn := solve_uses_with ltac:(apply uses_finalize).

Lemma uses_try_tcp (ok : ∀ X, connE X → Prop) t :
  (∀ x, ok _ (CEnvVar x)) → (∀ a t, ok _ (CConnectTcp a t)) → (∀ a, ok _ (CNodelay a)) →
  uses ok (try_tcp_env t).
Proof using Type. intros. unfold try_tcp_env, TcpTransport_connect. solve_conn. Qed.

Lemma uses_find_mux (ok : ∀ X, connE X → Prop) :
  (∀ x, ok _ (CEnvVar x)) → (∀ p, ok _ (CExists p)) → uses ok find_mux_socket_io.
Proof using Type. intros. unfold find_mux_socket_io. solve_conn. Qed.

Lemma uses_open_mux (ok : ∀ X, connE X → Prop) b p o t :
  (∀ p, ok _ (CConnectUnix p)) → ok _ CStoreUsedMux →
  (∀ t, ok _ (CSpawn t)) → (∀ ty pl t, ok _ (CSend ty pl t)) →
  uses ok (open_mux oc rd b p o t).
Proof using Type. intros. unfold open_mux, UnixSocketTransport_connect. solve_conn. Qed.

Lemma uses_sticky (ok : ∀ X, connE X → Prop) o t :
  (∀ x, ok _ (CEnvVar x)) → (∀ p, ok _ (CExists p)) → (∀ ms, ok _ (CSleep ms)) →
  (∀ a t, ok _ (CConnectTcp a t)) → (∀ a, ok _ (CNodelay a)) → (∀ p, ok _ (CConnectUnix p)) →
  (∀ t, ok _ (CSpawn t)) → (∀ ty pl t, ok _ (CSend ty pl t)) →
  uses ok (connect_mux_sticky oc rd o t).
Proof using Type.
  intros. unfold connect_mux_sticky. apply uses_bind; [by apply uses_try_tcp|].
  intros [[tr ep]|]; [by apply uses_finalize|].
  unfold default_socket_path_io, sticky_body, UnixSocketTransport_connect. solve_conn.
Qed.

(** The serial ports tried so far stay the same through effects without serial. *)
Lemma no_serial_keeps (env : CEnv) n {A} (p : prog connE A) s :
  uses no_serial p →
  tried_serial (outcome_state (eval (conn_do env) n p s)) = tried_serial s ∧
  (used_mux s = true → used_mux (outcome_state (eval (conn_do env) n p s)) = true).
Proof using Type.
  intros Hp. apply (uses_eval no_serial (conn_do env) (λ s', tried_serial s' = tried_serial s ∧
    (used_mux s = true → used_mux s' = true))); [|done|done].
  intros X e s1 x s2 Hok [Hs Hu] Hd. destruct e; simpl in *; try done;
    repeat case_match; simplify_eq/=; rewrite ?app_nil_r; auto.
Qed.

(** The mux-only entry points ([connect_mux_auto], [connect_mux_auto_with],
    [mux_unix_connect], [mux_tcp_connect]) never list or open a serial port, in any
    environment and whatever fails. *)
Theorem mux_only_never_opens_serial (env : CEnv) n s opts path host port :
  let tried {A} (p : prog connE A) :=
    tried_serial (outcome_state (eval (conn_do env) n p s)) in
  tried (connect_mux_auto_with oc rd opts) = tried_serial s ∧
  tried (connect_mux_auto oc rd) = tried_serial s ∧
  tried (mux_unix_connect oc rd path) = tried_serial s ∧
  tried (mux_tcp_connect oc rd host port) = tried_serial s.
Proof using Type.
  assert (∀ opts, uses no_serial (connect_mux_auto_with oc rd opts)) as Hauto.
  { intros o. unfold connect_mux_auto_with. apply uses_bind; [by apply uses_try_tcp|].
    intros [[tr ep]|]; [solve_conn|]. apply uses_bind; [by apply uses_find_mux|].
    intros [p|]; [by apply uses_open_mux|constructor]. }
  cbv zeta. split_and!; apply no_serial_keeps; [apply Hauto..| |].
  - by apply uses_open_mux.
  - unfold mux_tcp_connect, TcpTransport_connect. solve_conn.
Qed.

(** C21: Once a mux has been used, neither [connect_with] nor [try_connect_with] falls
    back to a serial port (unless one is named), and the preference is never lost,
    also not across further calls that fail. *)
Theorem mux_is_sticky (env : CEnv) n s opts :
  used_mux s = true → opt_port opts = None →
  let s1 := outcome_state (eval (conn_do env) n (connect_with oc rd opts) s) in
  let s2 := outcome_state (eval (conn_do env) n (try_connect_with oc rd opts) s) in
  tried_serial s1 = tried_serial s ∧ used_mux s1 = true ∧
  tried_serial s2 = tried_serial s ∧ used_mux s2 = true.
Proof using Type.
  intros Hu Hp. cbv zeta. unfold connect_with, try_connect_with. rewrite Hp.
  rewrite !eval_bind, !eval_trigger. cbn [conn_do]. rewrite Hu. cbn [outcome_bind].
  assert (uses no_serial (connect_mux_sticky oc rd opts (option_timeout opts))) as Hu1
    by by apply uses_sticky.
  match goal with |- context [eval _ _ (find_mux_socket_io ≫= ?k) _] =>
    assert (uses no_serial (find_mux_socket_io ≫= k)) as Hu2 end.
  { apply uses_bind; [by apply uses_find_mux|].
    intros [p|]; [by apply uses_open_mux|constructor]. }
  destruct (no_serial_keeps env n _ s Hu1) as [-> Hk1]. destruct (no_serial_keeps env n _ s Hu2) as [-> Hk2].
  split_and!; auto.
Qed.

(** *** The pieces, run *)

Lemma eval_open_port (env : CEnv) n port o t s :
  eval (conn_do env) n (open_port oc rd port o t) s =
  match serial_open env (c_now s) port with
  | Ok st => eval (conn_do env) n
      (finalize oc rd (SerialT {| serial_inner := st |}) (Serial port) o t)
              (c_try [port] [] s)
  | Err e => Done (Err (Other ("failed to open serial port " +:+ port +:+ ": " +:+ io_display e)))
               (c_try [port] [] s)
  end.
Proof using Type.
  unfold open_port, SerialTransport_open. rewrite eval_try_bind, eval_bind.
  cbn [open_native_async conn_transport]. rewrite eval_trigger. cbn [conn_do outcome_bind eval].
  by destruct (serial_open env (c_now s) port).
Qed.

Lemma eval_open_mux (env : CEnv) n (b : bool) path o t s :
  eval (conn_do env) n (open_mux oc rd b path o t) s =
  match unix_open env (c_now s) path with
  | Ok st => eval (conn_do env) n
      (finalize oc rd (UnixT {| unix_inner := st |}) (MuxUnix path) o t)
              (let s1 := c_try [] [path] s in if b then c_stick s1 else s1)
  | Err e =>
      Done (Err (Other ("failed to connect to mux socket " +:+ path +:+ ": " +:+ io_display e)))
        (c_try [] [path] s)
  end.
Proof using Type.
  unfold open_mux, UnixSocketTransport_connect. rewrite eval_try_bind, eval_bind.
  cbn [unix_stream_connect conn_transport]. rewrite eval_trigger. cbn [conn_do outcome_bind eval].
  destruct (unix_open env (c_now s) path); [|done]. cbn [outcome_bind]. rewrite eval_bind.
  by destruct b.
Qed.

Lemma eval_find_mux (env : CEnv) n s :
  eval (conn_do env) n find_mux_socket_io s =
  Done (find_mux_socket (env_var env) (path_exists env (c_now s))) s.
Proof using Type.
  unfold find_mux_socket_io, find_mux_socket. simpl. destruct (env_var env _); [done|]. simpl.
  destruct (env_var env _); [|done]. simpl. by destruct (path_exists _ _ _).
Qed.

Lemma eval_default_path (env : CEnv) n s :
  eval (conn_do env) n default_socket_path_io s = Done (default_socket_path (env_var env)) s.
Proof using Type.
  unfold default_socket_path_io, default_socket_path. simpl.
  destruct (env_var env _); [done|]. simpl. by destruct (env_var env _).
Qed.

(** The TCP endpoint [try_tcp_env] tries, and whether it gets a connection. *)
Definition tcp_target (env : CEnv) : option (string * Z) :=
  tcp ← env_var env "DONGLORA_MUX_TCP"; parse_tcp_endpoint tcp.

Definition tcp_reachable (env : CEnv) (s : CSt) (addr : string) :
    option (TcpTransport * string) :=
  match tcp_open env (c_now s) addr with
  | Some (Ok st) => if is_err (nodelay env st) then None else Some ({| tcp_inner := st |}, addr)
  | _ => None
  end.

Lemma eval_try_tcp (env : CEnv) n t s :
  eval (conn_do env) n (try_tcp_env t) s =
  match tcp_target env with
  | None => Done None s
  | Some (host, port) =>
      let addr := format_endpoint host port in
      Done (tcp_reachable env s addr) (c_try [] [addr] s)
  end.
Proof using Type.
  unfold try_tcp_env, tcp_target. rewrite eval_bind, eval_trigger. cbn [conn_do outcome_bind].
  destruct (env_var env _) as [tcp|]; [|done]. simpl.
  destruct (parse_tcp_endpoint tcp) as [[host port]|]; [|done].
  unfold TcpTransport_connect, tcp_reachable. fold (format_endpoint host port). simpl.
  destruct (tcp_open _ _ _) as [[]|]; [|done..]. simpl. by destruct (nodelay _ _).
Qed.

(** An explicit port bypasses the mux: no mux endpoint is tried, the preference
    is not set, and only that port is opened. *)
Theorem explicit_port_bypasses_mux (env : CEnv) n s opts port :
  opt_port opts = Some port →
  let s1 := outcome_state (eval (conn_do env) n (connect_with oc rd opts) s) in
  let s2 := outcome_state (eval (conn_do env) n (try_connect_with oc rd opts) s) in
  tried_mux s1 = tried_mux s ∧ used_mux s1 = used_mux s ∧
  tried_serial s1 = tried_serial s ++ [port] ∧ s2 = s1.
Proof using Type.
  intros Hp. cbv zeta. unfold connect_with, try_connect_with. rewrite Hp.
  rewrite eval_open_port. destruct (serial_open env (c_now s) port) as [st|e].
  - set (s0 := c_try [port] [] s).
    set (ok := λ X (e : connE X), match e with CSpawn _ | CSend _ _ _ => True | _ => False end).
    assert (uses ok (finalize oc rd (SerialT {| serial_inner := st |}) (Serial port) opts (option_timeout opts)))
      as Hu by by apply uses_finalize.
    enough (let s' := outcome_state (eval (conn_do env) n (finalize oc rd (SerialT {| serial_inner := st |})
              (Serial port) opts (option_timeout opts)) s0) in
      tried_mux s' = tried_mux s0 ∧ used_mux s' = used_mux s0 ∧
      tried_serial s' = tried_serial s0) as (-> & -> & ->).
    + simpl. by rewrite app_nil_r.
    + apply (uses_eval ok (conn_do env) (λ s', tried_mux s' = tried_mux s0 ∧
        used_mux s' = used_mux s0 ∧ tried_serial s' = tried_serial s0)); [|exact Hu|done].
      intros X e s1 x s2 Hok Hs Hd. destruct e; simpl in *; try done;
        repeat case_match; simplify_eq/=; done.
  - simpl. by rewrite app_nil_r.
Qed.

(** ** Finalizing *)

Definition info_answer (r : ClientResult SessionResponse) : ClientResult Info :=
  match r with
  | Ok (RInfo i) => Ok i
  | Ok (RErr e) => Err e
  | Ok other => unexpected rd "GET_INFO" other
  | Err e => Err e
  end.

(** What [finalize] returns ([None]: it panics) and the commands it sends. *)
Definition finalize_spec (env : CEnv) (t : AnyTransport) (k : TransportKind) (o : ConnectOptions) :
    option (ClientResult Connected) * list (Z * list byte) :=
  let c1 := [(TYPE_PING, [])] in
  match empty_answer rd "PING" (peer env t [] TYPE_PING []) with
  | Err e => (Some (Err e), c1)
  | Ok _ =>
      let c2 := c1 ++ [(TYPE_GET_INFO, [])] in
      match info_answer (peer env t c1 TYPE_GET_INFO []) with
      | Err e => (Some (Err e), c2)
      | Ok info =>
          let conn applied := {| conn_info := info; conn_kind := k; conn_applied := applied;
                                 conn_keepalive := opt_keepalive o |} in
          match (if opt_auto_configure o then opt_config o else None) with
          | None => (Some (Ok (conn None)), c2)
          | Some m =>
              match prepare_config oc info m with
              | None => (None, c2)
              | Some (Err e) => (Some (Err e), c2)
              | Some (Ok m') =>
                  match encode_set_config m' with
                  | Err e => (Some (Err (EncodeFailed (encode_error_debug e))), c2)
                  | Ok pl =>
                      let c3 := c2 ++ [(TYPE_SET_CONFIG, pl)] in
                      match config_answer rd (peer env t c2 TYPE_SET_CONFIG pl) with
                      | Err e => (Some (Err e), c3)
                      | Ok r => (Some (Ok (conn (Some (sc_current r)))), c3)
                      end
                  end
              end
          end
      end
  end.

Lemma eval_finalize (env : CEnv) n t k o tm s :
  eval (conn_do env) n (finalize oc rd t k o tm) s =
  match finalize_spec env t k o with
  | (Some r, cmds) => Done r (c_session (Some t) cmds s)
  | (None, cmds) => Panicked "attempt to shift left with overflow" (c_session (Some t) cmds s)
  end.
Proof using Type.
  unfold finalize, finalize_spec. simpl.
  destruct (peer env t [] _ _) as [[| | | |]|]; try done; simpl.
  destruct (peer env t [_] _ _) as [[|info| | |]|]; try done; simpl.
  destruct (opt_auto_configure o); [|done]. destruct (opt_config o) as [m|]; [|done].
  destruct (prepare_config oc info m) as [[m'|]|]; [|done..].
  unfold Session.set_config. destruct (encode_set_config m') as [pl|]; [|done]. simpl.
  by destruct (peer env t [_; _] _ _) as [[]|].
Qed.

(** C18: [finalize] in every case: PING, then GET_INFO, then, only with a config and
    auto-configure on, SET_CONFIG with the config as [prepare_config] admits it for
    the device just queried; each step only after the previous one succeeded, the
    first failure is the result, and the dongle keeps the configuration the device
    echoed. *)
Theorem finalize_refines (env : CEnv) n t k o tm s :
  eval (conn_do env) n (finalize oc rd t k o tm) s =
  match finalize_spec env t k o with
  | (Some r, cmds) => Done r (c_session (Some t) cmds s)
  | (None, cmds) => Panicked "attempt to shift left with overflow" (c_session (Some t) cmds s)
  end.
Proof using Type. apply eval_finalize. Qed.

(** ** The order of the attempts *)

(** Connecting with what is there at the instant: TCP mux, Unix mux, USB. *)
Lemma eval_try_connect (env : CEnv) n s opts :
  opt_port opts = None → used_mux s = false →
  eval (conn_do env) n (try_connect_with oc rd opts) s =
  let fin t k s := eval (conn_do env) n (finalize oc rd t k opts (option_timeout opts)) s in
  let '(reached, s1) :=
    match tcp_target env with
    | Some (host, port) =>
        let addr := format_endpoint host port in
        (tcp_reachable env s addr, c_try [] [addr] s)
    | None => (None, s)
    end in
  match reached with
  | Some (tcp, addr) => fin (TcpT tcp) (MuxTcp addr) (c_stick s1)
  | None =>
      match find_mux_socket (env_var env) (path_exists env (c_now s)) with
      | Some path => eval (conn_do env) n (open_mux oc rd true path opts (option_timeout opts)) s1
      | None =>
          match find_port (ports env (c_now s)) with
          | Some port => eval (conn_do env) n (open_port oc rd port opts (option_timeout opts)) s1
          | None =>
              Done (Err (Other "no DongLoRa device found (no mux, no USB device)")) s1
          end
      end
  end.
Proof using Type.
  intros Hp Hu. unfold try_connect_with. rewrite Hp, eval_bind, eval_trigger.
  cbn [conn_do outcome_bind]. rewrite Hu, eval_bind, eval_try_tcp.
  assert (∀ s1, c_now s1 = c_now s →
    eval (conn_do env) n (
      mux ← find_mux_socket_io;
      match mux with
      | Some path => open_mux oc rd true path opts (option_timeout opts)
      | None =>
          ports ← available_ports;
          match find_port ports with
          | None => Ret (Err (Other "no DongLoRa device found (no mux, no USB device)"))
          | Some port => open_port oc rd port opts (option_timeout opts)
          end
      end) s1 =
    match find_mux_socket (env_var env) (path_exists env (c_now s)) with
    | Some path => eval (conn_do env) n (open_mux oc rd true path opts (option_timeout opts)) s1
    | None =>
        match find_port (ports env (c_now s)) with
        | Some port => eval (conn_do env) n (open_port oc rd port opts (option_timeout opts)) s1
        | None => Done (Err (Other "no DongLoRa device found (no mux, no USB device)")) s1
        end
    end) as Hrest.
  { intros s1 Hn. rewrite eval_bind, eval_find_mux, Hn. cbn [outcome_bind].
    destruct (find_mux_socket _ _); [done|]. rewrite eval_bind.
    cbn [available_ports conn_scan]. rewrite eval_trigger. cbn [conn_do outcome_bind].
    rewrite Hn. by destruct (find_port _). }
  destruct (tcp_target env) as [[host port]|]; [|by apply Hrest]. cbn [outcome_bind].
  destruct (tcp_reachable _ _ _) as [[]|]; [done|]. by apply Hrest.
Qed.

(** C25: [try_connect_with] in a process that has not used a mux tries, in this order
    and only after the earlier ones are not there: the TCP mux of
    [DONGLORA_MUX_TCP] (an unreachable one is skipped), the Unix mux socket
    [find_mux_socket] finds (a failure to connect to it is final), the USB port
    [find_port] finds; a mux becomes sticky once connected. *)
Theorem try_connect_order (env : CEnv) n s opts :
  opt_port opts = None → used_mux s = false →
  eval (conn_do env) n (try_connect_with oc rd opts) s =
  let fin t k s := eval (conn_do env) n (finalize oc rd t k opts (option_timeout opts)) s in
  let '(reached, s1) :=
    match tcp_target env with
    | Some (host, port) =>
        let addr := format_endpoint host port in
        (tcp_reachable env s addr, c_try [] [addr] s)
    | None => (None, s)
    end in
  match reached with
  | Some (tcp, addr) => fin (TcpT tcp) (MuxTcp addr) (c_stick s1)
  | None =>
      match find_mux_socket (env_var env) (path_exists env (c_now s)) with
      | Some path =>
          let s2 := c_try [] [path] s1 in
          match unix_open env (c_now s) path with
          | Ok st => fin (UnixT {| unix_inner := st |}) (MuxUnix path) (c_stick s2)
          | Err e => Done (Err (Other ("failed to connect to mux socket " +:+ path +:+ ": " +:+
                                       io_display e))) s2
          end
      | None =>
          match find_port (ports env (c_now s)) with
          | Some port =>
              let s2 := c_try [port] [] s1 in
              match serial_open env (c_now s) port with
              | Ok st => fin (SerialT {| serial_inner := st |}) (Serial port) s2
              | Err e => Done (Err (Other ("failed to open serial port " +:+ port +:+ ": " +:+
                                           io_display e))) s2
              end
          | None =>
              Done (Err (Other "no DongLoRa device found (no mux, no USB device)")) s1
          end
      end
  end.
Proof using Type.
  intros Hp Hu. rewrite eval_try_connect by done. cbv zeta.
  destruct (tcp_target env) as [[host port]|]; [destruct (tcp_reachable _ _ _) as [[]|]; [done|]|];
    (destruct (find_mux_socket _ _) as [path|];
      [by rewrite eval_open_mux|destruct (find_port _); [by rewrite eval_open_port|done]]).
Qed.

(** [try_connect_with] never waits: for every environment, options and process
    state it comes back (no loop is entered, nothing blocks, no sleep). *)
Theorem try_connect_never_waits (env : CEnv) s opts :
  ∃ s', c_now s' = c_now s ∧
    ((∃ r, eval (conn_do env) 0 (try_connect_with oc rd opts) s = Done r s') ∨
     (∃ m, eval (conn_do env) 0 (try_connect_with oc rd opts) s = Panicked m s')).
Proof using Type.
  assert (∀ t k s0, c_now s0 = c_now s → ∃ s', c_now s' = c_now s ∧
    ((∃ r, eval (conn_do env) 0 (finalize oc rd t k opts (option_timeout opts)) s0 = Done r s') ∨
     (∃ m, eval (conn_do env) 0 (finalize oc rd t k opts (option_timeout opts)) s0 =
           Panicked m s'))) as Hfin.
  { intros t k s0 Hn. rewrite eval_finalize.
    destruct (finalize_spec env t k opts) as [[r|] cmds]; eexists (c_session _ _ s0);
      (split; [done|]); eauto. }
  assert (∀ port s0, c_now s0 = c_now s → ∃ s', c_now s' = c_now s ∧
    ((∃ r, eval (conn_do env) 0 (open_port oc rd port opts (option_timeout opts)) s0 = Done r s') ∨
     (∃ m, eval (conn_do env) 0 (open_port oc rd port opts (option_timeout opts)) s0 =
           Panicked m s'))) as Hport.
  { intros port s0 Hn. rewrite eval_open_port. destruct (serial_open _ _ _); [by apply Hfin|].
    eexists. split; [|eauto]. done. }
  assert (∀ b path s0, c_now s0 = c_now s → ∃ s', c_now s' = c_now s ∧
    ((∃ r, eval (conn_do env) 0 (open_mux oc rd b path opts (option_timeout opts)) s0 = Done r s') ∨
     (∃ m, eval (conn_do env) 0 (open_mux oc rd b path opts (option_timeout opts)) s0 =
           Panicked m s'))) as Hmux.
  { intros b path s0 Hn. rewrite eval_open_mux. destruct (unix_open _ _ _).
    - apply Hfin. by destruct b.
    - eexists. split; [|eauto]. done. }
  destruct (opt_port opts) as [port|] eqn:Hp.
  { unfold try_connect_with. rewrite Hp. by apply Hport. }
  destruct (used_mux s) eqn:Hu.
  - unfold try_connect_with. rewrite Hp, eval_bind, eval_trigger. cbn [conn_do outcome_bind].
    rewrite Hu, eval_bind, eval_find_mux. cbn [outcome_bind].
    destruct (find_mux_socket _ _); [by apply Hmux|]. exists s. eauto.
  - rewrite eval_try_connect by done. cbv zeta.
    destruct (tcp_target env) as [[host port]|]; [destruct (tcp_reachable _ _ _) as [[]|]; [by apply Hfin|]|];
      (destruct (find_mux_socket _ _); [by apply Hmux|]; destruct (find_port _);
        [by apply Hport|eexists; split; [|eauto]; done]).
Qed.

(** ** Waiting for a mux that restarts *)

Lemma eval_sticky_body (env : CEnv) n path opts tm s :
  eval (conn_do env) n (sticky_body oc rd path opts tm tt) s =
  if path_exists env (c_now s) path then
    outcome_bind (eval (conn_do env) n (open_mux oc rd false path opts tm) s)
      (λ r s', Done (inr r) s')
  else Done (inl tt) (c_at (c_now s + 500) s).
Proof using Type.
  unfold sticky_body. rewrite eval_bind, eval_trigger. cbn [conn_do outcome_bind].
  destruct (path_exists _ _ _); [|done]. rewrite eval_open_mux.
  unfold UnixSocketTransport_connect. rewrite eval_bind, eval_bind.
  cbn [unix_stream_connect conn_transport]. rewrite eval_trigger. cbn [conn_do outcome_bind eval].
  destruct (unix_open _ _ _); [|done]. by rewrite eval_bind.
Qed.

Definition sticky_run (env : CEnv) (n m : nat) (path : string) (opts : ConnectOptions) (tm : Z)
    (s : CSt) : outcome (ClientResult Connected) CSt :=
  iterate (λ l, eval (conn_do env) n (sticky_body oc rd path opts tm l)) m tt s.

Lemma sticky_iterate (env : CEnv) n m path opts tm k s :
  (∀ j : nat, (j < k)%nat → path_exists env (c_now s + 500 * Z.of_nat j) path = false) →
  sticky_run env n (k + m) path opts tm s =
  sticky_run env n m path opts tm (c_at (c_now s + 500 * Z.of_nat k) s).
Proof using Type.
  revert s. induction k as [|k IH]; intros s Hk.
  - replace (c_at (c_now s + 500 * Z.of_nat 0) s) with s; [done|].
    destruct s. unfold c_at. simpl. f_equal. lia.
  - unfold sticky_run in *. cbn [Nat.add iterate]. rewrite eval_sticky_body.
    assert (path_exists env (c_now s) path = false) as ->.
    { rewrite <- (Hk O) by lia. f_equal. lia. }
    cbn [outcome_bind]. rewrite IH.
    + f_equal. unfold c_at. simpl. f_equal. lia.
    + intros j Hj. rewrite <- (Hk (S j)) by lia. simpl. f_equal. lia.
Qed.

Lemma eval_connect_sticky (env : CEnv) n s opts :
  used_mux s = true → opt_port opts = None → tcp_target env = None →
  eval (conn_do env) n (connect_with oc rd opts) s =
  sticky_run env n n (default_socket_path (env_var env)) opts (option_timeout opts) s.
Proof using Type.
  intros Hu Hp Ht. unfold connect_with. rewrite Hp, eval_bind, eval_trigger.
  cbn [conn_do outcome_bind]. rewrite Hu. unfold connect_mux_sticky.
  rewrite eval_bind, eval_try_tcp, Ht. cbn [outcome_bind]. rewrite eval_bind, eval_default_path.
  unfold sticky_run, loop. cbn [outcome_bind eval].
  by destruct (iterate _ _ _ _).
Qed.


(** It waits for that path only: while the default socket path does not exist the
    call never comes back, for any number of polls. *)
Theorem sticky_connect_waits_forever (env : CEnv) fuel s opts :
  used_mux s = true → opt_port opts = None → tcp_target env = None →
  (∀ t, path_exists env t (default_socket_path (env_var env)) = false) →
  eval (conn_do env) fuel (connect_with oc rd opts) s =
  OutOfFuel (c_at (c_now s + 500 * Z.of_nat fuel) s).
Proof using Type.
  intros Hu Hp Ht Hno. rewrite eval_connect_sticky by done.
  generalize fuel at 1. intros n.
  replace fuel with (fuel + 0)%nat at 1 by lia. rewrite sticky_iterate by done. done.
Qed.
End safety.

(** ** Concrete environments *)

#[export] Instance demo_ports : SerialPorts := {|
  SerialPortInfo := string * option (Z * Z); port_name := fst; usb_ids := snd |}.
(** A stream is the path or address it is open to. *)
#[export] Instance demo_streams : Streams := {|
  SerialStream := string; UnixStream := string; TcpStream := string; TaskContext := unit |}.

Definition demo_peer (t : AnyTransport) (hist : list (Z * list byte)) (ty : Z) (pl : list byte) :
    ClientResult SessionResponse :=
  if ty =? 2 then Ok (RInfo demo_info)
  else if ty =? 3 then Ok (RSetConfig demo_set_config)
  else Ok REmpty.

Definition silent_peer (t : AnyTransport) (hist : list (Z * list byte)) (ty : Z) (pl : list byte) :
    ClientResult SessionResponse := Err (TimedOut "PING").

(** Sockets at the paths [socks]; USB ports plugged in from instant 1000 on. *)
Definition demo_cenv (vars : string → option string) (socks : list string)
    (pr : AnyTransport → list (Z * list byte) → Z → list byte → ClientResult SessionResponse) :
    CEnv := {|
  env_var := vars;
  path_exists := λ _ p, bool_decide (p ∈ socks);
  ports := λ t, Ok (if t <? 1000 then [] else
             [("/dev/ttyUSB0"%string, Some (6790, 29987)); ("/dev/ttyACM0"%string, Some (4617, 22337))]);
  serial_open := λ _ p, Ok p;
  unix_open := λ _ p, Ok p;
  tcp_open := λ _ _, None;
  nodelay := λ _, Ok tt;
  peer := pr |}.

Definition no_vars (x : string) : option string := None.
Definition xdg_vars (x : string) : option string :=
  if String.eqb x "XDG_RUNTIME_DIR" then Some "/run/user/1000"%string else None.

Definition process (used : bool) : CSt := {|
  c_now := 0; used_mux := used; tried_serial := []; tried_mux := []; session_on := None;
  commands := [] |}.

Definition no_rd {A} (_ : A) : string := "".

Definition usb_env := demo_cenv no_vars [] demo_peer.
Definition tmp_env := demo_cenv xdg_vars [fallback_socket] demo_peer.

Lemma mux_is_sticky_witness :
  let s1 := outcome_state (eval (conn_do usb_env) 5 (connect_with true no_rd options_new) (process true)) in
  let s2 := outcome_state (eval (conn_do usb_env) 5 (try_connect_with true no_rd options_new) (process true)) in
  tried_serial s1 = [] ∧ used_mux s1 = true ∧ tried_serial s2 = [] ∧ used_mux s2 = true.
Proof. apply (mux_is_sticky true no_rd usb_env 5 (process true) options_new); reflexivity. Defined.

Lemma explicit_port_bypasses_mux_witness :
  let opts := with_port "/dev/ttyACM0" options_new in
  let s1 := outcome_state (eval (conn_do tmp_env) 0 (connect_with true no_rd opts) (process true)) in
  let s2 := outcome_state (eval (conn_do tmp_env) 0 (try_connect_with true no_rd opts) (process true)) in
  tried_mux s1 = [] ∧ used_mux s1 = true ∧ tried_serial s1 = [] ++ ["/dev/ttyACM0"%string] ∧ s2 = s1.
Proof.
  apply (explicit_port_bypasses_mux true no_rd tmp_env 0 (process true)
           (with_port "/dev/ttyACM0" options_new) "/dev/ttyACM0"). reflexivity.
Defined.

Lemma try_connect_order_witness :
  let opts := with_config (LoRa demo_config) options_new in
  let s := c_at 2000 (process false) in
  eval (conn_do usb_env) 0 (try_connect_with true no_rd opts) s =
  eval (conn_do usb_env) 0
    (finalize true no_rd (SerialT {| serial_inner := "/dev/ttyACM0" |}) (Serial "/dev/ttyACM0") opts 2000)
    (c_try ["/dev/ttyACM0"%string] [] s).
Proof.
  exact (try_connect_order true no_rd usb_env 0 (c_at 2000 (process false))
           (with_config (LoRa demo_config) options_new) eq_refl eq_refl).
Defined.


Lemma sticky_connect_waits_forever_witness :
  eval (conn_do tmp_env) 7 (connect_with true no_rd options_new) (process true) =
  OutOfFuel (c_at (500 * 7) (process true)).
Proof.
  apply (sticky_connect_waits_forever true no_rd tmp_env 7 (process true) options_new);
    reflexivity.
Defined.

Lemma wait_for_device_returns_witness :
  eval (conn_do usb_env) 3 (wait_for_device (E := connE)) (process false) =
  Done "/dev/ttyACM0"%string (c_at 1300 (process false)).
Proof.
  apply (wait_for_device_returns (conn_do usb_env) c_now c_at (ports usb_env)) with (k := 2%nat);
    try done; [|lia].
  intros j Hj. destruct j as [|[|j]]; [done|done|lia].
Defined.

(** The two connects of a process bound to the mux disagree about where it is:
    with the socket in /tmp and [XDG_RUNTIME_DIR] set, [try_connect] connects to it
    while [connect] waits for the other path without end. *)
Theorem sticky_connect_ignores_tmp_socket :
  (∃ c s', eval (conn_do tmp_env) 0 (try_connect true no_rd) (process true) = Done (Ok c) s' ∧
           conn_kind c = MuxUnix fallback_socket) ∧
  ∀ fuel, ∃ s', eval (conn_do tmp_env) fuel (connect true no_rd) (process true) = OutOfFuel s'.
Proof.
  split; [do 2 eexists; split; vm_compute; reflexivity|]. intros fuel.
  unfold connect. rewrite eval_connect_sticky by reflexivity.
  generalize fuel at 1. intros n. exists (c_at (500 * Z.of_nat fuel) (process true)).
  rewrite <- (Nat.add_0_r fuel) at 1. rewrite sticky_iterate by (intros; reflexivity).
  reflexivity.
Qed.

(** A mux is preferred from the moment its socket accepts the connection, not
    from the first successful connect: when the device behind it does not answer
    the probe, the connect fails and the next [try_connect] no longer looks for
    the USB device, also when the mux is gone. *)
Theorem failed_mux_probe_is_sticky :
  let mux := demo_cenv no_vars [fallback_socket] silent_peer in
  ∃ s1, eval (conn_do mux) 0 (try_connect true no_rd) (c_at 2000 (process false)) =
          Done (Err (TimedOut "PING")) s1 ∧ used_mux s1 = true ∧
    find_port (ports usb_env (c_now s1)) = Some "/dev/ttyACM0"%string ∧
    eval (conn_do usb_env) 0 (try_connect true no_rd) s1 =
      Done (Err (Other "mux not available (waiting for restart)")) s1.
Proof. eexists. split_and!; vm_compute; reflexivity. Qed.
