(* ===== verification/ConnectLink.v ===== *)
(** * Connecting over the real session

    The entry points of [Connect.v] with the session's functions in the place of the
    one-step commands, beside the reader that [Session::spawn] starts: what a successful
    connect says about the frames received.
    The environment (variables, file system, ports, peers, clock, the [USED_MUX] flag)
    answers anything here. *)

From S2P Require Import Prelude Runtime Errors Protocol Config Session SessionInv SessionSpec SessionPool Discovery Endpoint Transport Dongle DonglePool DongleLink Client Connect ConnectSpec.
Local Open Scope Z_scope.

(** ** Linking *)

Section link.
Context `{Wire} `{SerialPorts} `{Streams}.

(** [SpawnedC]: the reader task's start, once [Session::spawn] has been called. *)
Inductive clinkE : Type → Type :=
| SessC {X} (e : sessE X) : clinkE X
| EnvC {X} (e : connE X) : clinkE X
| SpawnC (t : AnyTransport) : clinkE unit
| SpawnedC : clinkE unit.

Definition clift {A} (p : prog sessE A) : prog clinkE A := translate (@SessC) p.

Definition clink_eff {X} (e : connE X) : prog clinkE X :=
  match e in connE X return prog clinkE X with
  | CSpawn t => trigger (SpawnC t)
  | CSend ty pl t => clift (send_command ty pl t)
  | CClose => clift Session.close
  | e => trigger (EnvC e)
  end.

Fixpoint clink {A} (p : prog connE A) : prog clinkE A :=
  match p with
  | Ret a => Ret a
  | Vis e k => prog_bind (clink_eff e) (λ x, clink (k x))
  | Loop body s k => Loop (λ s, clink (body s)) s (λ b, clink (k b))
  | Panic m => Panic m
  end.

(** The session to be spawned, and the transport it was spawned on. *)
Definition Linking : Type := Sess * option AnyTransport.

(** The environment's part: what the session's effects need, and an answer for every
    effect of connecting. *)
Definition clink_choice : Type := sess_choice * (∀ X, connE X → X).

Definition clink_do (X : Type) (i : nat) (c : clink_choice) (e : clinkE X) (s : Linking) :
    option (X * Linking) :=
  match e in clinkE X return option (X * Linking) with
  | SessC e => '(x, s') ← sess_do _ i c.1 e s.1; Some (x, (s', s.2))
  | EnvC e => Some (c.2 _ e, s)
  | SpawnC t => Some (tt, (s.1, Some t))
  | SpawnedC => if s.2 is Some _ then Some (tt, s) else None
  end.

#[export] Instance clink_sem : Sem clinkE Linking :=
  {| choice := clink_choice; do_eff := clink_do; on_drop := λ i s, (sess_drop i s.1, s.2) |}.

Context (overflow_checks : bool) (response_debug : SessionResponse → string).

(** A call of one of the entry points. *)
Inductive conn_call :=
| CConnect (opts : ConnectOptions)
| CTryConnect (opts : ConnectOptions)
| CMuxAuto (opts : ConnectOptions)
| CMuxUnix (path : string)
| CMuxTcp (host : string) (port : Z).

Definition run_conn (c : conn_call) : prog connE (ClientResult Connected) :=
  match c with
  | CConnect o => connect_with overflow_checks response_debug o
  | CTryConnect o => try_connect_with overflow_checks response_debug o
  | CMuxAuto o => connect_mux_auto_with overflow_checks response_debug o
  | CMuxUnix p => mux_unix_connect overflow_checks response_debug p
  | CMuxTcp h p => mux_tcp_connect overflow_checks response_debug h p
  end.

Definition call_options (c : conn_call) : ConnectOptions :=
  match c with CConnect o | CTryConnect o | CMuxAuto o => o | _ => options_new end.

(** Task 0 is the call, task 1 the reader of the session it spawns. *)
Definition connect_pool (c : conn_call) : conf clinkE Linking (option (ClientResult Connected)) :=
  Conf {[ 0%nat := (r ← clink (run_conn c); Ret (Some r));
          1%nat := (trigger SpawnedC ;; clift reader_loop ;; Ret None) ]}
    (spawn_state 1, None).
End link.

(** ** The session while connecting *)

Section specs.
Context `{Wire} `{SerialPorts} `{Streams}.
Context (oc : bool) (rd : SessionResponse → string).

Definition linking_inv (s : Linking) : Prop := sess_inv s.1.
Definition linking_rely (i : nat) (s s' : Linking) : Prop := rely i s.1 s'.1.

#[global] Instance linking_rely_preorder i : PreOrder (linking_rely i).
Proof using Type.
  split; [intros s; apply (rely_preorder i)|]. intros s1 s2 s3 H1' H2'.
  exact (@transitivity _ (rely i) _ s1.1 s2.1 s3.1 H1' H2').
Qed.

Abbreviation Stable := (Runtime.Stable linking_inv linking_rely).
Abbreviation lspec := (Runtime.spec linking_inv linking_rely).

Lemma clift_step X i (c : clink_choice) (e : sessE X) t x t' :
  clink_do X i c (SessC e) t = Some (x, t') →
  sess_do X i c.1 e t.1 = Some (x, t'.1) ∧
  (linking_inv t → sess_inv t'.1 → Guar i t.1 t'.1 →
   linking_inv t' ∧ Runtime.Guar linking_rely i t t').
Proof using Type.
  destruct t as [s1 o]. simpl. intros Hd. destruct (sess_do X i c.1 e s1) as [[y s']|]; [|done].
  by simplify_eq/=.
Qed.

Lemma spec_clift {A} i (P : Sess → Prop) (p : prog sessE A) Q :
  Runtime.spec sess_inv rely i P p Q → lspec i (λ s, P s.1) (clift p) (λ a s, Q a s.1).
Proof using Type.
  apply (@spec_translate _ _ _ _ sess_sem clink_sem (@SessC _ _ _) fst (λ c : clink_choice, c.1));
    [apply _|done|done|exact clift_step].
Qed.

#[global] Instance clift_stable i (P : Sess → Prop) :
  Runtime.Stable sess_inv rely i P → Stable i (λ s, P s.1).
Proof using Type. by apply (translate_stable fst). Qed.

(** *** Programs over connecting *)

(** Assertions about the session that no task invalidates. *)
Class Lasting (P : Sess → Prop) : Prop := lasting i : Runtime.Stable sess_inv rely i P.
#[global] Existing Instance lasting.

#[global] Instance lasting_pure φ : Lasting (λ _, φ).
Proof using Type. intros i. apply _. Qed.
#[global] Instance lasting_and P Q : Lasting P → Lasting Q → Lasting (λ s, P s ∧ Q s).
Proof using Type. intros HP HQ i. apply _. Qed.
#[global] Instance lasting_exist {X} (P : X → Sess → Prop) : (∀ x, Lasting (P x)) → Lasting (λ s, ∃ x, P x s).
Proof using Type. intros HP i. apply _. Qed.
#[global] Instance lasting_forall {X} (P : X → Sess → Prop) : (∀ x, Lasting (P x)) → Lasting (λ s, ∀ x, P x s).
Proof using Type. intros HP i. apply _. Qed.
#[global] Instance lasting_impl (φ : Prop) P : Lasting P → Lasting (λ s, φ → P s).
Proof using Type. intros HP i. apply _. Qed.
#[global] Instance lasting_reply i ty pl r : Lasting (reply_ok i ty pl r).
Proof using Type. intros j. apply _. Qed.
#[global] Instance lasting_came ty P : Lasting (λ s, came (frames_received s) ty P).
Proof using Type.
  intros i s s' (tag & pl & ? & Hin & ?) Hr _. exists tag, pl. split; [done|]. split; [|done].
  eapply elem_of_prefix; [exact Hin|]. apply feed_all_prefix, Hr.
Qed.

(** Task [me] runs [p] between commands. *)
Context (me : nat).
Definition lead {A} (P : Sess → Prop) (p : prog connE A) (Q : A → Sess → Prop) : Prop :=
  lspec me (λ s, idle me s.1 ∧ P s.1) (clink p) (λ a s, idle me s.1 ∧ Q a s.1).

Lemma clink_bind {A B} (p : prog connE A) (f : A → prog connE B) :
  peq (clink (prog_bind p f)) (prog_bind (clink p) (λ a, clink (f a))).
Proof using Type.
  revert f. induction p as [A a|A X e k IH|A S B' body _ s k IH|A m]; intros f; simpl;
    [reflexivity| |by constructor|by constructor].
  symmetry. apply peq_bind_assoc. intros x. symmetry. apply IH.
Qed.

Lemma lspec_peq {A} i P (p q : prog clinkE A) Q : peq p q → lspec i P p Q → lspec i P q Q.
Proof using Type. intros Hpq Hp n s HI HP. eapply safe_peq; [exact Hpq|by apply Hp]. Qed.

Lemma lead_bind {A B} P (p : prog connE A) (f : A → prog connE B) R Q :
  lead P p R → (∀ a, lead (R a) (f a) Q) → lead P (p ≫= f) Q.
Proof using Type.
  intros Hp Hf. eapply lspec_peq; [symmetry; apply clink_bind|]. eapply spec_bind; [apply _|exact Hp|exact Hf].
Qed.

Lemma lead_try {A B X} P (p : prog connE (result A X)) (f : A → prog connE (result B X)) R Q :
  lead P p R → (∀ a, lead (R (Ok a)) (f a) Q) → (∀ e s, R (Err e) s → Q (Err e) s) →
  (∀ r, Lasting (R r)) → lead P (try_bind p f) Q.
Proof using Type.
  intros Hp Hf He HR. eapply lead_bind; [exact Hp|]. intros [a|e]; [apply Hf|].
  apply spec_ret; [apply _|]. intros s _ [??]. auto.
Qed.

Lemma lead_ret {A} P (a : A) (Q : A → Sess → Prop) `{!Lasting P} : (∀ s, P s → Q a s) → lead P (Ret a) Q.
Proof using Type. intros HQ. apply spec_ret; [apply _|]. intros s _ [??]. auto. Qed.

Lemma lead_conseq {A} P P' (p : prog connE A) Q Q' :
  lead P' p Q' → (∀ s, P s → P' s) → (∀ a s, Q' a s → Q a s) → lead P p Q.
Proof using Type.
  intros Hp HP HQ. eapply spec_post; [eapply spec_conseq; [exact Hp|]|]; naive_solver.
Qed.

Lemma lead_send P ty pl t `{!Lasting P} :
  lead P (trigger (CSend ty pl t)) (λ r s, P s ∧ reply_ok me ty pl r s).
Proof using Type.
  apply (spec_bind _ _ _ me _ (clift (send_command ty pl t)) Ret (λ r s, idle me s.1 ∧ P s.1 ∧ reply_ok me ty pl r s.1)).
  - eapply spec_post; [apply (spec_frame _ _ me (S me) (λ s, idle me s.1) (λ s, P s.1)); [apply _|apply _|lia|]|].
    + apply (spec_clift me (idle me) _ (λ r s, idle me s ∧ reply_ok me ty pl r s)).
      by apply (spec_session_prog me (DSend ty pl t)).
    + naive_solver.
  - intros r. by apply spec_ret; [apply _|].
Qed.

Lemma lead_loop {S B} (J : S → Sess → Prop) (body : S → prog connE (S + B)) l Q
    `{!∀ l, Lasting (J l)} `{!∀ b, Lasting (Q b)} :
  (∀ l, lead (J l) (body l) (λ r s, match r with inl l' => J l' s | inr b => Q b s end)) →
  lead (J l) (loop body l) Q.
Proof using Type.
  intros Hb.
  apply (spec_bind _ _ _ me _ (loop (λ l, clink (body l)) l) Ret (λ b s, idle me s.1 ∧ Q b s.1));
    [|intros b; by apply spec_ret; [apply _|]].
  apply (spec_loop _ _ _ me _ (λ l s, idle me s.1 ∧ J l s.1)); [apply _..|]. intros l'.
  eapply spec_post; [apply Hb|]. by intros [].
Qed.

(** The rest of the environment answers anything. *)
Definition environment (X : Type) (e : connE X) : Prop :=
  match e with CSpawn _ | CClose | CSend _ _ _ => False | _ => True end.

Lemma lead_environment {A} P (p : prog connE A) `{!Lasting P} : uses environment p → lead P p (λ _, P).
Proof using Type.
  induction 1 as [A a|A X e k He _ IH|A S B body s k _ IHb _ IHk|A m].
  - by apply lead_ret.
  - refine (spec_bind _ _ _ me _ (clink_eff e) _ (λ _ s, idle me s.1 ∧ P s.1) _ _ IH).
    assert (clink_eff e = trigger (EnvC e)) as -> by by destruct e.
    apply spec_trigger; [apply _..|]. intros s c x s' HI HP [= _ <-]. split_and!; [done| |by apply HP..].
    intros j _. reflexivity.
  - refine (spec_bind _ _ _ me _ (loop (λ l, clink (body l)) s) _ (λ _ s, idle me s.1 ∧ P s.1) _ _ IHk).
    apply (spec_loop _ _ _ me _ (λ _ s, idle me s.1 ∧ P s.1)); [apply _..|]. intros l.
    eapply spec_post; [apply IHb|]. by intros [].
  - apply spec_panic.
Qed.

Lemma lead_spawn P t `{!Lasting P} : lead P (trigger (CSpawn t)) (λ _, P).
Proof using Type.
  refine (spec_bind _ _ _ me _ (trigger (SpawnC t)) _ (λ _ s, idle me s.1 ∧ P s.1) _ _ _);
    [|intros []; by apply spec_ret; [apply _|]].
  apply spec_trigger; [apply _..|]. intros s c x s' HI HP [= _ <-]. split_and!; [done| |by apply HP..].
  intros j _. apply (rely_preorder j).
Qed.

(** *** The helpers and [finalize] *)

Lemma lead_helper {B} P ty pl t (g : SessionResponse → ClientResult B) `{!Lasting P} :
  lead P (try_bind (trigger (CSend ty pl t)) (λ resp, Ret (g resp)))
    (λ r s, P s ∧ ∀ b, r = Ok b → ∃ resp, g resp = Ok b ∧ reply_ok me ty pl (Ok resp) s).
Proof using Type.
  eapply (lead_try _ _ _ (λ r s, P s ∧ reply_ok me ty pl r s)); [by apply lead_send| | |apply _].
  - intros resp. apply lead_ret; [apply _|]. intros s [??]. split; [done|]. eauto.
  - intros e s [??]. by split.
Qed.

(** A frame of type OK whose payload parses so for the command has come. *)
Definition got_ok (cmd : Z) (p : OkPayload) (s : Sess) : Prop :=
  came (frames_received s) TYPE_OK (λ pl, OkPayload_parse_for cmd pl = Ok p).

#[global] Instance got_ok_lasting cmd p : Lasting (got_ok cmd p).
Proof using Type. unfold got_ok. apply _. Qed.

Lemma response_info cmd ty pl i :
  response_for cmd ty pl = RInfo i → ty = TYPE_OK ∧ OkPayload_parse_for cmd pl = Ok (OkInfo i).
Proof using Type. unfold response_for. intros Hr. repeat case_match; simplify_eq. split; [lia|done]. Qed.

Lemma lead_ping P t `{!Lasting P} :
  lead P (Session.ping rd t) (λ r s, P s ∧ (r = Ok tt → got_ok TYPE_PING OkEmpty s)).
Proof using Type.
  eapply lead_conseq; [by apply (lead_helper P TYPE_PING [] t)|done|].
  intros r s [HP Hr]. split; [done|]. intros ->. destruct (Hr tt eq_refl) as ([] & ? & Hok); try done.
  eapply answered_came; [exact Hok|done|]. intros ??. apply response_empty.
Qed.

Lemma lead_get_info P t `{!Lasting P} :
  lead P (get_info rd t) (λ r s, P s ∧ ∀ i, r = Ok i → got_ok TYPE_GET_INFO (OkInfo i) s).
Proof using Type.
  eapply lead_conseq; [by apply (lead_helper P TYPE_GET_INFO [] t)|done|].
  intros r s [HP Hr]. split; [done|]. intros i ->. destruct (Hr i eq_refl) as ([] & ? & Hok); simplify_eq.
  eapply answered_came; [exact Hok|done|]. intros ??. apply response_info.
Qed.

Lemma lead_set_config P m t `{!Lasting P} :
  lead P (Session.set_config rd m t) (λ r s, P s ∧ ∀ c, r = Ok c → got_ok TYPE_SET_CONFIG (OkSetConfig c) s).
Proof using Type.
  unfold Session.set_config. destruct (encode_set_config m) as [pl|e]; [|by apply lead_ret; [apply _|]].
  eapply lead_conseq; [by apply (lead_helper P TYPE_SET_CONFIG pl t)|done|].
  intros r s [HP Hr]. split; [done|]. intros c ->. destruct (Hr c eq_refl) as ([] & ? & Hok); simplify_eq.
  eapply answered_came; [exact Hok|done|]. intros ??. apply response_set_config.
Qed.

(** What a dongle that [finalize] returns stands for: the device answered the probe,
    the information is the one it sent, and the configuration, if one was asked for,
    is the one it echoed to the prepared request. *)
Definition applied_ok (opts : ConnectOptions) (info : Info) (applied : option Modulation) (s : Sess) : Prop :=
  match (if opt_auto_configure opts then opt_config opts else None), applied with
  | None, None => True
  | Some m, Some current =>
      ∃ prepared r, prepare_config oc info m = Some (Ok prepared) ∧ sc_current r = current ∧
        got_ok TYPE_SET_CONFIG (OkSetConfig r) s
  | _, _ => False
  end.

Definition connected_ok (opts : ConnectOptions) (c : Connected) (s : Sess) : Prop :=
  got_ok TYPE_PING OkEmpty s ∧ got_ok TYPE_GET_INFO (OkInfo (conn_info c)) s ∧
  applied_ok opts (conn_info c) (conn_applied c) s ∧ conn_keepalive c = opt_keepalive opts.

#[global] Instance applied_ok_lasting opts info a : Lasting (applied_ok opts info a).
Proof using Type.
  unfold applied_ok. destruct (if opt_auto_configure opts then _ else _), a; apply _.
Qed.

#[global] Instance connected_ok_lasting opts c : Lasting (connected_ok opts c).
Proof using Type. unfold connected_ok. apply _. Qed.

Lemma lead_finalize P tr kd opts t `{!Lasting P} :
  lead P (finalize oc rd tr kd opts t) (λ r s, ∀ c, r = Ok c → connected_ok opts c s).
Proof using Type.
  unfold finalize. eapply lead_bind; [by apply lead_spawn|]. intros [].
  eapply lead_try; [by apply lead_ping| |done|apply _]. intros [].
  eapply lead_try; [apply lead_get_info; apply _| |done|apply _]. intros info.
  eapply (lead_try _ _ _ (λ r s, (got_ok TYPE_PING OkEmpty s ∧ got_ok TYPE_GET_INFO (OkInfo info) s) ∧
      ∀ a, r = Ok a → applied_ok opts info a s)).
  - unfold applied_ok. destruct (opt_auto_configure opts);
      [|apply lead_ret; [apply _|]; intros s [[_ ?] ?]; split; [by auto|by intros a [= <-]]].
    destruct (opt_config opts) as [m|];
      [|apply lead_ret; [apply _|]; intros s [[_ ?] ?]; split; [by auto|by intros a [= <-]]].
    destruct (prepare_config oc info m) as [[prepared|e]|] eqn:Hp;
      [|apply lead_ret; [apply _|]; intros s [[_ ?] ?]; split; [by auto|by intros a]|apply spec_panic].
    eapply lead_try; [apply lead_set_config; apply _| |intros e s [[[_ ?] ?] _]; split; [by auto|by intros a]|apply _]. intros result.
    apply lead_ret; [apply _|]. intros s [[[_ ?] ?] Hr]. split; [by auto|]. intros a [= <-].
    exists prepared, result. auto.
  - intros a. apply lead_ret; [apply _|]. intros s [[??] Ha] c [= <-]. split_and!; [done..|by apply Ha|done].
  - naive_solver.
  - apply _.
Qed.

(** *** The entry points *)

Definition connects (opts : ConnectOptions) (p : prog connE (ClientResult Connected)) : Prop :=
  lead (λ _, True) p (λ r s, ∀ c, r = Ok c → connected_ok opts c s).

Lemma connects_env {A} opts (p : prog connE A) f :
  uses environment p → (∀ a, connects opts (f a)) → connects opts (p ≫= f).
Proof using Type.
  intros Hp Hf. eapply lead_bind; [by apply lead_environment; [apply _|]|]. exact Hf.
Qed.

Lemma connects_try {A} opts (p : prog connE (ClientResult A)) f :
  uses environment p → (∀ a, connects opts (f a)) → connects opts (try_bind p f).
Proof using Type.
  intros Hp Hf. apply connects_env; [done|]. intros [a|e]; [apply Hf|].
  by apply lead_ret; [apply _|].
Qed.

Lemma connects_err opts e : connects opts (Ret (Err e)).
Proof using Type. by apply lead_ret; [apply _|]. Qed.

Lemma connects_finalize opts tr kd t : connects opts (finalize oc rd tr kd opts t).
Proof using Type. apply lead_finalize, _. Qed.

#[local] Hint Resolve connects_err connects_finalize : core.

Ltac env_uses := solve [done|solve_uses_with ltac:(first [apply uses_try_tcp|apply uses_find_mux])].

Lemma connects_open_port opts port t : connects opts (open_port oc rd port opts t).
Proof using Type. apply connects_try; [unfold SerialTransport_open; env_uses|auto]. Qed.

Lemma connects_open_mux opts b path t : connects opts (open_mux oc rd b path opts t).
Proof using Type.
  apply connects_try; [unfold UnixSocketTransport_connect; env_uses|]. intros tr.
  apply connects_env; [destruct b; env_uses|auto].
Qed.

Lemma connects_sticky opts t : connects opts (connect_mux_sticky oc rd opts t).
Proof using Type.
  unfold connect_mux_sticky. apply connects_env; [env_uses|]. intros [[tr ep]|]; [auto|].
  apply connects_env; [unfold default_socket_path_io; env_uses|]. intros path.
  apply (lead_loop (λ _ _, True)); [apply _|apply _|]. intros []. unfold sticky_body.
  eapply lead_bind; [by apply lead_environment; [apply _|env_uses]|]. intros [].
  - eapply lead_bind; [by apply lead_environment; [apply _|unfold UnixSocketTransport_connect; env_uses]|].
    intros [tr|e]; [|by apply lead_ret; [apply _|]].
    eapply lead_bind; [by apply lead_finalize, _|]. intros r. by apply lead_ret; [apply _|].
  - eapply lead_bind; [by apply lead_environment; [apply _|env_uses]|]. intros []. by apply lead_ret; [apply _|].
Qed.

#[local] Hint Resolve connects_open_port connects_open_mux connects_sticky : core.

Lemma connects_run c : connects (call_options c) (run_conn oc rd c).
Proof using Type.
  destruct c as [opts|opts|opts|path|host port]; cbn [run_conn call_options].
  - unfold connect_with. destruct (opt_port opts); [auto|].
    apply connects_env; [env_uses|]. intros []; [auto|].
    apply connects_env; [env_uses|]. intros [[tr ep]|]; [apply connects_env; [env_uses|auto]|].
    apply connects_env; [env_uses|]. intros [path|]; [auto|].
    apply connects_env; [env_uses|]. intros ports.
    apply connects_env; [|auto]. unfold wait_for_device, wait_body, loop. env_uses.
  - unfold try_connect_with. destruct (opt_port opts); [auto|].
    apply connects_env; [env_uses|]. intros [].
    + apply connects_env; [env_uses|]. intros [path|]; auto.
    + apply connects_env; [env_uses|]. intros [[tr ep]|]; [apply connects_env; [env_uses|auto]|].
      apply connects_env; [env_uses|]. intros [path|]; [auto|].
      apply connects_env; [env_uses|]. intros ports. destruct (find_port ports); auto.
  - unfold connect_mux_auto_with.
    apply connects_env; [env_uses|]. intros [[tr ep]|]; [apply connects_env; [env_uses|auto]|].
    apply connects_env; [env_uses|]. intros [path|]; auto.
  - apply connects_open_mux.
  - apply connects_try; [unfold TcpTransport_connect; env_uses|]. intros tr.
    apply connects_env; [env_uses|auto].
Qed.
End specs.

(** ** Every interleaving of connecting and the reader *)

Section pool.
Context `{Wire} `{SerialPorts} `{Streams}.
Context (oc : bool) (rd : SessionResponse → string).

(** What the tasks return with. *)
Definition conn_post (c : conn_call) (i : nat) (r : option (ClientResult Connected)) (s : Linking) : Prop :=
  match r with Some (Ok d) => connected_ok oc (call_options c) d s.1 | _ => True end.

Lemma linking_drop_ok i s :
  linking_inv s → linking_inv (on_drop i s) ∧ Runtime.Guar linking_rely i s (on_drop i s).
Proof using Type.
  destruct s as [s t]. intros HI. split; [by apply inv_drop|]. intros j Hj. by apply guar_drop.
Qed.

(** The reader's task, from its start on. *)
Lemma spec_spawned_reader i :
  Runtime.spec linking_inv linking_rely i (λ s, decoder_at i decoder_new s.1 ∧ holds i [] s.1)
    (trigger SpawnedC ;; clift reader_loop) (λ _ _, True).
Proof using Type.
  refine (spec_bind _ _ _ i (λ s, decoder_at i decoder_new s.1 ∧ holds i [] s.1) (trigger SpawnedC) _
    (λ _ s, decoder_at i decoder_new s.1 ∧ holds i [] s.1) _ _ _).
  - apply spec_trigger; [apply _..|]. intros s ch [] s' HI HP Hd. simpl in Hd.
    destruct s.2; [|done]. injection Hd as <-. split_and!; [done| |by apply HP..].
    intros j _. apply (rely_preorder j).
  - intros []. eapply spec_post; [apply (spec_clift i _ _ _ (spec_reader_loop i))|done].
Qed.

Lemma connect_pool_safe c : pool_safe linking_inv linking_rely (conn_post c) (connect_pool oc rd c).
Proof using Type.
  assert (∀ i, idle i (spawn_state 1)) as Hid.
  { intros i. split; [|by exists []; intros w ch].
    split; [constructor|intros t p Hin; by apply elem_of_nil in Hin|by intros w ch]. }
  split; [by apply spawn_sess_inv|]. intros i p.
  unfold connect_pool. cbn [tasks shared]. rewrite lookup_insert_Some, lookup_singleton_Some.
  intros [[<- <-]|[_ [<- <-]]] n.
  - refine (spec_bind _ _ _ 0 (λ s, idle 0 s.1 ∧ True) (clink (run_conn oc rd c)) _
      (λ r s, idle 0 s.1 ∧ ∀ d, r = Ok d → connected_ok oc (call_options c) d s.1) _
      (connects_run oc rd 0 c) _ n _ _ _); [|by apply spawn_sess_inv|by split].
    intros r. apply spec_ret; [apply _|]. intros s _ [_ Hr]. destruct r as [d|]; [by apply Hr|done].
  - refine (spec_bind _ _ _ 1 _ (trigger SpawnedC ;; clift reader_loop) _ (λ _ _, True) _
      (spec_spawned_reader 1) _ n _ _ _); [|by apply spawn_sess_inv|split; [done|apply Hid]].
    intros []. by apply spec_ret; [apply _|].
Qed.

(** C3: A dongle stands for a device that has answered: in every interleaving of a call
    of any entry point of [connect.rs] with the session's reader, whatever the
    environment answers, a call that returns a dongle has received, under a command's
    tag, an empty OK to its PING, an OK with exactly the dongle's information to its
    GET_INFO and, if a configuration was asked for, an OK to its SET_CONFIG that
    echoes the configuration the dongle starts with; [prepare_config] admitted the
    request for the information received. *)
Theorem connected_is_confirmed c cf d :
  reachable (connect_pool oc rd c) cf → tasks cf !! 0%nat = Some (Ret (Some (Ok d))) →
  connected_ok oc (call_options c) d (shared cf).1.
Proof using Type.
  intros Hr Ht. pose proof (rg_adequacy _ _ _ linking_drop_ok _ _ _ (connect_pool_safe c) Hr) as Hs.
  exact (pool_safe_result _ _ _ _ _ _ _ Hs Ht).
Qed.
End pool.

(** ** Concrete runs *)

(** A mux socket is there; nothing else is. *)
Definition demo_answers (X : Type) (e : connE X) : X :=
  match e in connE X return X with
  | CEnvVar _ => None
  | CExists _ => true
  | CScan => Ok []
  | CSleep _ => tt
  | COpenSerial p => Ok p
  | CConnectUnix p => Ok p
  | CConnectTcp _ _ => None
  | CNodelay _ => Ok tt
  | CLoadUsedMux => false
  | CStoreUsedMux | CSpawn _ | CClose => tt
  | CSend _ _ _ => Ok REmpty
  end.

Definition connecting (i n : nat) : list (label clinkE Linking) :=
  replicate n (Run i (CDefault, demo_answers)).
Definition arrives (bs : list byte) : list (label clinkE Linking) :=
  [Run 1%nat (CRead bs, demo_answers)].

Definition demo_call : conn_call := CTryConnect (with_config (LoRa demo_config) options_new).

(** PING, GET_INFO and SET_CONFIG are sent and answered. *)
Definition connect_run : list (label clinkE Linking) :=
  connecting 0 16 ++ connecting 1 3 ++ arrives [x80; x01] ++ connecting 1 4 ++ connecting 0 9 ++
  arrives [x80; x02] ++ connecting 1 4 ++ connecting 0 9 ++ arrives [x80; x03] ++ connecting 1 4 ++
  connecting 0 1.

Lemma connected_is_confirmed_witness :
  connected_ok true (call_options demo_call)
    {| conn_info := demo_info; conn_kind := MuxUnix fallback_socket;
       conn_applied := Some (LoRa demo_config); conn_keepalive := true |}
    (shared (after connect_run (connect_pool true any_debug demo_call))).1.
Proof.
  apply (connected_is_confirmed true any_debug demo_call
           (after connect_run (connect_pool true any_debug demo_call)));
    [apply after_reachable|vm_compute; reflexivity].
Defined.

(** The probe times out; the reader has been started and waits for bytes. *)
Definition silent_run : list (label clinkE Linking) :=
  connecting 0 16 ++ connecting 1 3 ++ [Run 0%nat (CElapsed, demo_answers)] ++ connecting 0 2.
