(* ===== verification/ConnectLive.v ===== *)
(** * Liveness of connecting

    The discipline of [Locks.v] for the entry points of [src/connect.rs] over the real
    session ([ConnectLink.v]): those that do not wait for a device or a mux to appear
    come back, whatever the device does; and what becomes of the reader of a session
    that a connect has spawned and given up. *)

From stdpp Require Import functions.
From S2P Require Import Prelude Runtime Locks Errors Protocol Config Session SessionInv SessionSpec SessionPool SessionWire SessionLive SessionLocks Discovery Endpoint Transport Dongle DonglePool DongleLink Connect ConnectSpec ConnectLink.
Local Open Scope Z_scope.

Section locks.
Context `{Wire} `{SerialPorts} `{Streams}.

Definition clink_kind (X : Type) (e : clinkE X) : lock_kind client_lock X :=
  match e in clinkE X return lock_kind client_lock X with
  | SessC e => sess_kind e
  | EnvC _ | SpawnC _ => Plain
  | SpawnedC => Blocks false
  end.

(** An environment in which nothing is found. *)
Definition nothing_found (X : Type) (e : connE X) : X :=
  match e in connE X return X with
  | CEnvVar _ => None
  | CExists _ => false
  | CScan => Ok []
  | CSleep _ => tt
  | COpenSerial _ | CConnectUnix _ => Err (IoError "not found")
  | CConnectTcp _ _ => None
  | CNodelay _ => Ok tt
  | CLoadUsedMux => false
  | CStoreUsedMux => tt
  | CSpawn _ | CClose => tt
  | CSend _ _ _ => Ok REmpty
  end.

Definition clink_owner (s : Linking) (l : client_lock) : option nat :=
  match l with RxGuard => None | Writer => locks s.1 WriterLock end.

(** A step is the session's, or leaves the session alone. *)
Lemma clink_do_inv {X} i c (e : clinkE X) s x s' :
  clink_do X i c e s = Some (x, s') →
  s'.1 = s.1 ∧ (clink_kind X e = Plain ∨ clink_kind X e = Blocks false) ∨
  ∃ e', clink_kind X e = sess_kind e' ∧ sess_do X i c.1 e' s.1 = Some (x, s'.1).
Proof using Type.
  destruct s as [s o]. destruct e as [Y e|Y e|t|]; simpl; intros Hd.
  - right. exists e. split; [done|]. by destruct (sess_do Y i c.1 e s) as [[y s1]|]; simplify_eq/=.
  - left. simplify_eq/=. auto.
  - left. simplify_eq/=. auto.
  - left. destruct o; simplify_eq/=. auto.
Qed.

Lemma clink_owner_after {X} i c (e : clinkE X) s x s' l :
  clink_do X i c e s = Some (x, s') → clink_owner s' l = owner_after i (clink_kind X e) (clink_owner s) l.
Proof using Type.
  intros [(E & Hk)|(e' & -> & Hd)]%clink_do_inv.
  - destruct l; simpl; [|rewrite E]; by destruct Hk as [-> | ->].
  - destruct (sess_kind_owner _ _ _ _ _ _ Hd) as [Ho Hk].
    destruct l; simpl; [|by rewrite Ho; destruct (sess_kind e')].
    destruct (sess_kind e'); try done; simpl; [by destruct Hk as [-> _]|by subst].
Qed.

Lemma clink_free {X} i c (e : clinkE X) s x s' :
  clink_do X i c e s = Some (x, s') →
  match clink_kind X e with Takes l | Touches l => clink_owner s l = None | _ => True end.
Proof using Type.
  intros [(E & [-> | ->])|(e' & -> & Hd)]%clink_do_inv; [done..|].
  destruct (sess_kind_owner _ _ _ _ _ _ Hd) as [_ Hk]. destruct (sess_kind e'); try done; by destruct Hk as [-> ?].
Qed.

Lemma clink_enabled {X} i (e : clinkE X) s :
  match clink_kind X e with
  | Takes l | Touches l => clink_owner s l = None
  | Needs w => exists_chan s.1 w
  | Blocks _ => False
  | _ => True
  end → ∃ c, is_Some (clink_do X i c e s).
Proof using Type.
  destruct s as [s o]. intros Hf. destruct e as [Y e|Y e|t|]; simpl in *.
  - destruct (sess_enabled i e s) as (c & [x s'] & Hd).
    { by destruct e as [| | | | | | | | | | |[]|[]| | | | | |[]| | | |]. }
    exists (c, nothing_found). simpl. rewrite Hd. by eexists.
  - exists (CDefault, nothing_found). by eexists.
  - exists (CDefault, nothing_found). by eexists.
  - done.
Qed.

Lemma clink_known {X} i c (e : clinkE X) s x s' w :
  clink_do X i c e s = Some (x, s') → w ∈ known_after (clink_kind X e) x [] ∨ exists_chan s.1 w →
  exists_chan s'.1 w.
Proof using Type.
  intros [(E & Hk)|(e' & -> & Hd)]%clink_do_inv Hw; [|by eapply sess_known].
  rewrite E. destruct Hw as [Hw|?]; [|done]. destruct Hk as [Hk|Hk]; rewrite Hk in Hw; by apply elem_of_nil in Hw.
Qed.

#[export] Instance clink_locks : LockSem clinkE Linking client_lock.
Proof using Type.
  refine {|
    kind := clink_kind; owner := clink_owner; known s w := exists_chan s.1 w;
    some_choice := ((CDefault, nothing_found) : @choice clinkE _ clink_sem);
    rank l := match l with RxGuard => 0%nat | Writer => 1%nat end; max_rank := 2 |}.
  - intros []; lia.
  - intros X i c e s x s' l Hd. exact (clink_owner_after i c e s x s' l Hd).
  - intros X i c e s x s' Hd. exact (clink_free i c e s x s' Hd).
  - intros X i e s Hf. exact (clink_enabled i e s Hf).
  - intros X i c e s x s' w Hd Hw. exact (clink_known i c e s x s' w Hd Hw).
  - intros i [s o] l j. simpl. destruct l; simpl; [|case_decide]; naive_solver.
  - intros i [s o] w. simpl. apply exists_static. simpl. rewrite lookup_fmap. by destruct (chans s !! w).
Defined.

#[export] Instance sess_in_connect : SessInside (@SessC _ _ _).
Proof using Type. split; [done|simpl; lia]. Qed.
End locks.

(** ** The entry points keep the discipline *)

Section connect.
Context `{Wire} `{SerialPorts} `{Streams}.
Context (oc : bool) (rd : SessionResponse → string).

(** Nothing is held between commands: one predicate for every program here. *)
Definition calm {A} (b : bool) (p : prog connE A) : Prop :=
  ∀ K, tame (E := clinkE) (L := client_lock) b (λ h _, h = []) K [] (clink p).

Lemma calm_ret {A} b (a : A) : calm b (Ret a).
Proof using Type. intros K. by apply tame_ret. Qed.
Lemma calm_panic {A} b m : calm (A := A) b (Panic m).
Proof using Type. intros K. by apply tame_panic. Qed.

Lemma calm_bind {A B} b (p : prog connE A) (f : A → prog connE B) :
  calm b p → (∀ a, calm b (f a)) → calm b (p ≫= f).
Proof using Type.
  intros Hp Hf K. eapply tame_peq; [|symmetry; apply clink_bind]. apply tame_seq; [apply Hp|].
  intros a. apply Hf.
Qed.

Lemma calm_try {A B X} b (p : prog connE (result A X)) (f : A → prog connE (result B X)) :
  calm b p → (∀ a, calm b (f a)) → calm b (try_bind p f).
Proof using Type. intros Hp Hf. apply calm_bind; [done|]. intros [a|e]; [done|apply calm_ret]. Qed.

Lemma calm_eff {X} b (e : connE X) : calm b (trigger e).
Proof using Type.
  intros K. destruct e as [| | | | | | | | | |t| |ty pl t];
    try (by apply tame_vis; [done|]; intros; apply tame_ret);
    cbn [trigger clink clink_eff]; (apply tame_seq; [|intros; by apply tame_ret]).
  - apply (tame_close (@SessC _ _ _)).
  - apply (tame_send_command (@SessC _ _ _)), low_nil.
Qed.

Ltac calm_steps :=
  repeat first
    [progress intros|apply calm_ret|apply calm_panic|apply calm_eff|apply calm_try|apply calm_bind|case_match].

Lemma calm_finalize b t k o tm : calm b (finalize oc rd t k o tm).
Proof using Type.
  unfold finalize, Session.ping, Session.get_info, Session.set_config, send_command_eff, conn_send. calm_steps.
Qed.

Lemma calm_open_port b p o tm : calm b (open_port oc rd p o tm).
Proof using Type.
  unfold open_port, SerialTransport_open, open_native_async, conn_transport.
  apply calm_try; [calm_steps|]. intros. apply calm_finalize.
Qed.

Lemma calm_open_mux b st p o tm : calm b (open_mux oc rd st p o tm).
Proof using Type.
  unfold open_mux, UnixSocketTransport_connect, unix_stream_connect, conn_transport.
  apply calm_try; [calm_steps|]. intros. apply calm_bind; [calm_steps|]. intros. apply calm_finalize.
Qed.

Lemma calm_tcp_connect b h p tm : calm b (TcpTransport_connect h p tm).
Proof using Type.
  unfold TcpTransport_connect, tcp_stream_connect, set_nodelay, conn_transport. calm_steps.
Qed.

Lemma calm_tcp_env b tm : calm b (try_tcp_env tm).
Proof using Type.
  unfold try_tcp_env. apply calm_bind; [calm_steps|]. intros [tcp|]; [|calm_steps].
  case_match; [|calm_steps]. case_match. apply calm_bind; [apply calm_tcp_connect|]. calm_steps.
Qed.

Lemma calm_find_mux b : calm b find_mux_socket_io.
Proof using Type. unfold find_mux_socket_io. calm_steps. Qed.

Lemma calm_sticky o tm : calm false (connect_mux_sticky oc rd o tm).
Proof using Type.
  unfold connect_mux_sticky. apply calm_bind; [apply calm_tcp_env|]. intros [[x e]|]; [apply calm_finalize|].
  apply calm_bind; [unfold default_socket_path_io; calm_steps|]. intros path K. unfold loop. cbn [clink].
  apply tame_loop; [done|done| |intros; by apply tame_ret]. intros u.
  apply calm_bind; [calm_steps|]. intros []; [|calm_steps]. apply calm_bind.
  { unfold UnixSocketTransport_connect, unix_stream_connect, conn_transport. calm_steps. }
  intros [x|e]; [|calm_steps]. apply calm_bind; [apply calm_finalize|]. calm_steps.
Qed.

Lemma calm_wait : calm false wait_for_device.
Proof using Type.
  unfold wait_for_device, loop. intros K. cbn [clink].
  apply tame_loop; [done|done| |intros; by apply tame_ret]. intros u.
  unfold wait_body, available_ports, sleep_ms, conn_scan. by apply calm_bind; calm_steps.
Qed.

(** Whether a call may wait for a device to be plugged in or a mux to be restarted. *)
Definition may_wait (c : conn_call) : bool :=
  match c with CConnect o => if opt_port o is Some _ then false else true | _ => false end.

Lemma calm_call c : calm (negb (may_wait c)) (run_conn oc rd c).
Proof using Type.
  destruct c as [o|o|o|p|h p]; simpl.
  - unfold connect_with. destruct (opt_port o) as [p|]; [apply calm_open_port|].
    apply calm_bind; [calm_steps|]. intros []; [apply calm_sticky|].
    apply calm_bind; [apply calm_tcp_env|]. intros [[x e]|].
    { apply calm_bind; [calm_steps|]. intros. apply calm_finalize. }
    apply calm_bind; [apply calm_find_mux|]. intros [path|]; [apply calm_open_mux|].
    apply calm_bind; [unfold available_ports, conn_scan; calm_steps|]. intros ports. apply calm_bind.
    { case_match; [calm_steps|apply calm_wait]. }
    intros port. apply calm_open_port.
  - unfold try_connect_with. destruct (opt_port o) as [p|]; [apply calm_open_port|].
    apply calm_bind; [calm_steps|]. intros [].
    { apply calm_bind; [apply calm_find_mux|]. intros [path|]; [apply calm_open_mux|calm_steps]. }
    apply calm_bind; [apply calm_tcp_env|]. intros [[x e]|].
    { apply calm_bind; [calm_steps|]. intros. apply calm_finalize. }
    apply calm_bind; [apply calm_find_mux|]. intros [path|]; [apply calm_open_mux|].
    apply calm_bind; [unfold available_ports, conn_scan; calm_steps|]. intros ports.
    case_match; [apply calm_open_port|calm_steps].
  - unfold connect_mux_auto_with. apply calm_bind; [apply calm_tcp_env|]. intros [[x e]|].
    { apply calm_bind; [calm_steps|]. intros. apply calm_finalize. }
    apply calm_bind; [apply calm_find_mux|]. intros [path|]; [apply calm_open_mux|calm_steps].
  - apply calm_open_mux.
  - unfold mux_tcp_connect. apply calm_try; [apply calm_tcp_connect|]. intros x.
    apply calm_bind; [calm_steps|]. intros. apply calm_finalize.
Qed.

(** ** Fair runs *)

Lemma connect_tamed c :
  tamed (λ i, bool_decide (i = 0%nat) && negb (may_wait c)) (connect_pool oc rd c).
Proof using Type.
  split; [|intros [] i Hi; done]. intros i p Hp. exists [], [].
  split; [|split; [by intros w ?%elem_of_nil|intros []; by rewrite elem_of_nil|constructor]].
  cbn [tasks connect_pool] in Hp. apply lookup_insert_Some in Hp as [[<- <-]|[Hi Hp]].
  - apply tame_seq; [apply calm_call|]. intros. by apply tame_ret.
  - apply lookup_singleton_Some in Hp as [<- <-].
    apply (tame_vis _ _ _ _ SpawnedC (λ _, clift reader_loop ;; Ret None)); [done|]. intros [].
    apply (tame_seq _ _ _ _ (clift reader_loop)); [|intros; by apply tame_ret].
    apply (tame_reader_loop (@SessC _ _ _)).
Qed.

(** C4: Connecting comes back: in every fair run of an entry point over the real session,
    beside its reader and with any cancellations, [try_connect_with],
    [connect_mux_auto_with], [mux_unix_connect], [mux_tcp_connect] and, when a port is
    given, [connect_with] return, panic or are dropped, whatever the device does. *)
Theorem connect_returns c cf lab n :
  run_of (connect_pool oc rd c) cf lab → fair cf lab → may_wait c = false →
  ∃ m, (n ≤ m)%nat ∧ stopped (cf m) 0.
Proof using Type.
  intros Hrun Hfair Hc. eapply prompt_stops; [exact Hrun|exact Hfair|apply connect_tamed|].
  simpl. by rewrite Hc.
Qed.
End connect.

(** A device that never answers: the probe times out and the call is back. *)
Lemma connect_returns_witness :
  let c0 := connect_pool true any_debug demo_call in
  run_of c0 (rest_run silent_run c0) (λ n, silent_run !! n) ∧
  ∃ m, (0 ≤ m)%nat ∧ stopped (rest_run silent_run c0 m) 0.
Proof.
  destruct (rest_fair_run silent_run (connect_pool true any_debug demo_call)) as [Hr Hf];
    [vm_compute; reflexivity|].
  split; [exact Hr|].
  by apply (connect_returns true any_debug demo_call _ _ 0 Hr Hf).
Defined.

(** ** What a failed connect leaves behind *)

Section leaves.
Context `{Wire} `{SerialPorts} `{Streams}.
Context (oc : bool) (rd : SessionResponse → string).

Definition never_closes (X : Type) (e : connE X) : Prop :=
  match e with CClose => False | _ => True end.

Lemma run_never_closes c : uses never_closes (run_conn oc rd c).
Proof using Type.
  destruct c; simpl; unfold connect_with, try_connect_with, connect_mux_auto_with, mux_tcp_connect,
    connect_mux_sticky, default_socket_path_io, sticky_body, open_port, open_mux,
    UnixSocketTransport_connect, SerialTransport_open, TcpTransport_connect, wait_for_device,
    wait_body, loop;
    solve_uses_with ltac:(first [by apply uses_finalize|by apply uses_try_tcp|by apply uses_find_mux]).
Qed.

(** Effects that do not close the session. *)
Definition keeps_open (X : Type) (e : clinkE X) : Prop :=
  match e with SessC StoreClosed | SessC TakeReaderHandle | SessC AbortReader => False | _ => True end.

(** The session is not closed and its reader neither detached nor aborted by it. *)
Definition left_open (s : Linking) : Prop :=
  closed s.1 = false ∧ reader_handle s.1 = true ∧ reader_aborted s.1 = false.

Lemma uses_clift {A} (p : prog sessE A) :
  uses (λ X e, keeps_open X (SessC e)) p → uses keeps_open (clift p).
Proof using Type. unfold clift. induction 1; by constructor. Qed.

Lemma uses_clink {A} (p : prog connE A) : uses never_closes p → uses keeps_open (clink p).
Proof using Type.
  induction 1 as [A a|A X e k He _ IH|A S B body s k _ IHb _ IHk|A m]; simpl; [constructor| |by constructor|constructor].
  apply (uses_bind keeps_open (clink_eff e)); [|done]. destruct e; try done; try by apply uses_trigger.
  apply uses_clift. unfold send_command, write_frame, remove_pending.
  solve_uses_with ltac:(apply uses_write_all).
Qed.

Lemma reader_keeps_open : uses keeps_open (clift reader_loop).
Proof using Type.
  apply uses_clift. unfold reader_loop, loop, reader_body, handle_work, dispatch, dispatch_async, wake_all.
  solve_uses.
Qed.

Lemma keeps_open_do {X} i ch (e : clinkE X) s x s' :
  keeps_open X e → left_open s → clink_do X i ch e s = Some (x, s') → left_open s'.
Proof using Type.
  intros Hok HI Hd. destruct s as [s t]. destruct e as [Y e|Y e|tr|]; simpl in Hd;
    [|by simplify_eq..|by destruct t; simplify_eq].
  destruct (sess_do _ _ _ _ _) as [[y s1]|] eqn:He; [|done]. simplify_eq/=.
  destruct e; simpl in He; try done; repeat case_match; by simplify_eq/=.
Qed.

Lemma connect_left_open c cf : reachable (connect_pool oc rd c) cf → left_open (shared cf).
Proof using Type.
  intros Hr.
  assert (∀ i : nat, PreOrder (λ _ _ : Linking, True)) as Hpre by by repeat split.
  assert (pool_safe left_open (λ _ _ _, True) (λ _ _ _, True) (connect_pool oc rd c)) as Hsafe.
  { split; [done|]. intros i p.
    unfold connect_pool. cbn [tasks shared]. rewrite lookup_insert_Some, lookup_singleton_Some.
    intros Hp n. eapply (safe_post _ (λ _ _ _, True) _ _ _ (λ _ _, True)); [|done].
    assert (uses keeps_open p) as Hu.
    { destruct Hp as [[<- <-]|[_ [<- <-]]].
      - apply (uses_bind keeps_open (clink (run_conn oc rd c))); [apply uses_clink, run_never_closes|constructor].
      - apply (uses_bind keeps_open (trigger SpawnedC)); [by apply uses_trigger|]. intros [].
        apply (uses_bind keeps_open (clift reader_loop)); [apply reader_keeps_open|constructor]. }
    eapply (spec_uses left_open (λ _ _ _, True) Hpre i keeps_open (λ _, True) p); [|exact Hu|done..].
    intros X e s ch x s' Hok HI _ Hd. split_and!; [exact (keeps_open_do i ch e s x s' Hok HI Hd)|done..]. }
  assert (∀ i s, left_open s → left_open (on_drop i s) ∧ Runtime.Guar (λ _ _ _, True) i s (on_drop i s))
    as Hdrop by by intros i [].
  by destruct (rg_adequacy _ _ Hpre Hdrop _ _ _ Hsafe Hr).
Qed.

(** *** The reader goes on *)

(** Programs that, while the session is not closed and every read brings bytes, return
    with [Q] only, do not panic, and wait for nothing but bytes and their start. *)
Inductive attends {A} (Q : A → Prop) : prog clinkE A → Prop :=
| at_ret a : Q a → attends Q (Ret a)
| at_start k : attends Q (k tt) → attends Q (Vis SpawnedC k)
| at_closed k : attends Q (k false) → attends Q (Vis (SessC LoadClosed) k)
| at_read k : (∀ b bs, attends Q (k (Ok (b :: bs)))) → attends Q (Vis (SessC TransportRead) k)
| at_eff {X} (e : sessE X) k :
    sess_kind e = Plain → (∀ x, attends Q (k x)) → attends Q (Vis (SessC e) k)
| at_loop {S B} (R : B → Prop) (body : S → prog clinkE (S + B)) s k :
    (∀ s, attends (λ r, match r with inl _ => True | inr b => R b end) (body s)) →
    (∀ b, R b → attends Q (k b)) → attends Q (Loop body s k).

Lemma attends_peq {A} (Q : A → Prop) p p' : attends Q p → peq p p' → attends Q p'.
Proof using Type.
  intros Hp. revert p'.
  induction Hp as [A Q a Ha|A Q k _ IH|A Q k _ IH|A Q k _ IH|A Q X e k He _ IH
    |A Q S B R body s k Hb _ IH]; intros p' Hpp.
  - apply peq_inv in Hpp as ->. by constructor.
  - apply peq_inv in Hpp as (k' & -> & ?). constructor. eauto.
  - apply peq_inv in Hpp as (k' & -> & ?). constructor. eauto.
  - apply peq_inv in Hpp as (k' & -> & ?). constructor. eauto.
  - apply peq_inv in Hpp as (k' & -> & ?). apply at_eff; eauto.
  - apply peq_inv in Hpp as (k' & -> & ?). eapply at_loop; [exact Hb|]. eauto.
Qed.

Lemma attends_bind {A B} (R : A → Prop) (Q : B → Prop) p f :
  attends R p → (∀ a, R a → attends Q (f a)) → attends Q (prog_bind p f).
Proof using Type.
  intros Hp. revert B Q f.
  induction Hp as [A R a Ha|A R k _ IH|A R k _ IH|A R k _ IH|A R X e k He _ IH
    |A R S B' R' body s k Hb _ IH]; intros B Q f Hf; simpl;
    [by apply Hf|constructor; auto..| |].
  - by apply at_eff; auto.
  - eapply at_loop; [exact Hb|]. auto.
Qed.

(** A part of the reader that only has effects that do not wait, and what follows. *)
Lemma attends_put {A B} (Q : B → Prop) (p : prog sessE A) (f : A → prog sessE B) :
  attends (λ _, True) (clift p) → (∀ a, attends Q (clift (f a))) → attends Q (clift (p ≫= f)).
Proof using Type.
  intros Hp Hf. eapply attends_peq; [|symmetry; apply translate_bind].
  eapply attends_bind; [exact Hp|]. intros a _. apply Hf.
Qed.

(** Its statements one by one. *)
Ltac attends_steps :=
  repeat first
    [progress intros|by apply at_ret|apply at_eff; [done|]
    |progress cbn [trigger mbind prog_mbind prog_bind translate clift]|case_match].

Lemma attends_works l : attends (λ _, True) (clift (prog_for l handle_work)).
Proof using Type.
  induction l as [|w l IH]; [by apply at_ret|]. apply attends_put; [|done].
  unfold handle_work, dispatch, dispatch_async, clift. attends_steps.
Qed.

(** The reader never comes out of its loop. *)
Lemma attends_reader :
  attends (λ _, False) (trigger SpawnedC ;; clift reader_loop ;; Ret (None : option (ClientResult Connected))).
Proof using Type.
  apply at_start. unfold reader_loop, loop, clift. cbn [translate mbind prog_mbind prog_bind].
  apply (at_loop _ (λ _, False)); [|done]. intros d.
  unfold reader_body. apply at_closed, at_read. intros b bs.
  destruct (decoder_feed d (b :: bs)) as [d' works].
  apply (attends_put _ (prog_for works handle_work) (λ _, Ret (inl d'))); [apply attends_works|].
  intros. by apply at_ret.
Qed.

(** The reader is not dropped, and its reads bring bytes. *)
Definition reads_on (l : label clinkE Linking) : bool :=
  match l with
  | Cancel i => negb (i =? 1)%nat
  | Run i (c, _) => negb (i =? 1)%nat || match c with CRead [] | CIoError _ => false | _ => true end
  end.

Lemma attends_step {A} (Q : A → Prop) ch p p' s s' :
  attends Q p → closed s.1 = false → reads_on (Run 1 ch) = true →
  step_prog 1 ch p s = Some (p', s') → attends Q p'.
Proof using Type.
  intros Hp Hcl Hch Hst. destruct Hp as [a Ha|k Hk|k Hk|k Hk|X e k He Hk|S B R body l k Hb Hk]; try done.
  - simpl in Hst. destruct s.2; by simplify_eq/=.
  - simpl in Hst. rewrite Hcl in Hst. by simplify_eq/=.
  - destruct ch as [[| | | |[|b bs]|] ch]; simpl in Hst; try done.
    destruct (length bs <=? 255)%nat; simplify_eq/=. apply Hk.
  - simpl in Hst. destruct (sess_do X 1 ch.1 e s.1) as [[x s1]|]; simplify_eq/=. apply Hk.
  - simpl in Hst. simplify_eq. eapply attends_bind; [apply Hb|]. intros [l'|b] HR; [|by apply Hk].
    by eapply at_loop.
Qed.

(** Once started it can always go on. *)
Lemma attends_goes {A} p (s : Linking) :
  attends (A := A) (λ _, False) p → is_Some s.2 → ∃ ch, is_Some (step_prog 1 ch p s).
Proof using Type.
  intros Hp [t Ht]. destruct Hp as [a Ha|k Hk|k Hk|k Hk|X e k He Hk|S B R body l k Hb Hk]; try done.
  - exists (CDefault, nothing_found). simpl. rewrite Ht. by eexists.
  - exists (CDefault, nothing_found). by eexists.
  - exists (CRead [x00], nothing_found). by eexists.
  - destruct (sess_enabled 1 e s.1) as (c & [x s1] & Hd); [by rewrite He|].
    exists (c, nothing_found). simpl. rewrite Hd. by eexists.
  - exists (CDefault, nothing_found). by eexists.
Qed.

Lemma reader_attends c cf :
  within reads_on (connect_pool oc rd c) cf →
  ∃ p, tasks cf !! 1%nat = Some p ∧ attends (λ _, False) p.
Proof using Type.
  induction 1 as [|cf l cf' Hr (p & Hp & Ha) Hok Hst].
  - eexists. split; [reflexivity|apply attends_reader].
  - apply within_reachable, connect_left_open in Hr as [Hcl _].
    destruct l as [i ch|i]; simpl in Hst; destruct (tasks cf !! i) as [q|] eqn:Hq; try done; simpl in Hst.
    + destruct (step_prog i ch q (shared cf)) as [[q' s']|] eqn:Hs; [|done]. injection Hst as <-.
      cbn [tasks]. destruct (decide (i = 1%nat)) as [->|Hi].
      * exists q'. rewrite lookup_insert_eq. split; [done|]. simplify_eq. by eapply attends_step.
      * exists p. by rewrite lookup_insert_ne.
    + assert (i ≠ 1%nat) as Hi by (intros ->; done).
      assert (cf' = Conf (delete i (tasks cf)) (on_drop i (shared cf))) as -> by (by destruct q; simplify_eq).
      exists p. cbn [tasks]. by rewrite lookup_delete_ne.
Qed.

(** C38: No connect closes the session it has spawned: in every run of an entry point,
    whatever its result (the probe fails, a response does not decode, the configuration
    is refused) and also when it is dropped, the session is never marked closed, its
    reader's handle is dropped and the reader never aborted.  So as long as the reader's
    reads bring bytes and the runtime does not drop it, its task is there, has neither
    returned nor panicked and, once spawned, can go on: the reader and the transport it
    holds outlive the failed connect. *)
Theorem failed_connect_leaves_reader c cf :
  (reachable (connect_pool oc rd c) cf → left_open (shared cf)) ∧
  (within reads_on (connect_pool oc rd c) cf →
   ∃ p, tasks cf !! 1%nat = Some p ∧ (∀ r, p ≠ Ret r) ∧ (∀ m, p ≠ Panic m) ∧
     (is_Some (shared cf).2 → ∃ ch, is_Some (step (Run 1 ch) cf))).
Proof using Type.
  split; [apply connect_left_open|]. intros (p & Hp & Ha)%reader_attends. exists p.
  split; [done|]. split_and!; [by intros r ->; inversion Ha|by intros m ->; inversion Ha|].
  intros (ch & [q s'] & Hs)%(attends_goes p _ Ha). exists ch. simpl. rewrite Hp. simpl. rewrite Hs. by eexists.
Qed.
End leaves.

(** The probe has timed out. *)
Lemma failed_connect_leaves_reader_witness :
  let cf := after silent_run (connect_pool true any_debug demo_call) in
  tasks cf !! 0%nat = Some (Ret (Some (Err (TimedOut "PING")))) ∧ is_Some (shared cf).2 ∧
  left_open (shared cf) ∧
  ∃ p, tasks cf !! 1%nat = Some p ∧ (∀ r, p ≠ Ret r) ∧ (∀ m, p ≠ Panic m) ∧
    (is_Some (shared cf).2 → ∃ ch, is_Some (step (Run 1 ch) cf)).
Proof.
  split; [vm_compute; reflexivity|]. split; [eexists; vm_compute; reflexivity|].
  split; [apply (failed_connect_leaves_reader true any_debug demo_call), after_reachable|].
  apply (failed_connect_leaves_reader true any_debug demo_call), after_within. vm_compute. reflexivity.
Defined.
