(* ===== verification/Program.v ===== *)
(** * A program that connects and uses its dongle

    One pool from the first probe to the last command: a call of an entry point of
    [src/connect.rs], the session it spawns with its reader, [Dongle::new] with the
    keepalive, and any number of callers of the dongle that comes out, side by side.
    Once the dongle exists the pool refines the one of [DonglePool.v]; what connecting
    has established and what the operations report are then said of the same frames. *)

From S2P Require Import Prelude Runtime Errors Protocol Config Retry Session SessionInv SessionSpec SessionPool Discovery Endpoint Transport Dongle DonglePool DongleLink Client Connect ConnectSpec ConnectLink.
Local Open Scope Z_scope.

(** ** The program *)

Section program.
Context `{Wire} `{SerialPorts} `{Streams}.

(** [NewP d]: [Dongle::new] with the arguments in [d]; [AwaitP]: the dongle, once it is
    there. *)
Inductive progE : Type → Type :=
| Linked {X} (e : linkE X) : progE X
| Connecting {X} (e : clinkE X) : progE X
| NewP (d : Connected) : progE unit
| AwaitP : progE Connected.

Record Program := {
  p_link : Sess * Cells;
  p_transport : option AnyTransport;
  p_dongle : option Connected;
}.

Definition p_connecting (s : Program) : Linking := ((p_link s).1, p_transport s).
Definition with_link (l : Sess * Cells) (s : Program) : Program :=
  {| p_link := l; p_transport := p_transport s; p_dongle := p_dongle s |}.
Definition with_connecting (l : Linking) (s : Program) : Program :=
  {| p_link := (l.1, (p_link s).2); p_transport := l.2; p_dongle := p_dongle s |}.

(** The environment's part: the session's, the cells' and the one of connecting. *)
Definition prog_choice : Type := (sess_choice * dchoice) * (∀ X, connE X → X).

Definition program_do (X : Type) (i : nat) (c : prog_choice) (e : progE X) (s : Program) :
    option (X * Program) :=
  match e in progE X return option (X * Program) with
  | Linked e => '(x, l) ← link_do _ i c.1 e (p_link s); Some (x, with_link l s)
  | Connecting e => '(x, l) ← clink_do _ i (c.1.1, c.2) e (p_connecting s); Some (x, with_connecting l s)
  | NewP d =>
      (* the mutex it makes is held by nobody *)
      match c_rx_owner (p_link s).2 with
      | None => Some (tt, {| p_link := ((p_link s).1,
                               new_cells (conn_applied d) (conn_keepalive d) (dc_now c.1.2));
                             p_transport := p_transport s; p_dongle := Some d |})
      | Some _ => None
      end
  | AwaitP => d ← p_dongle s; Some (d, s)
  end.

#[export] Instance program_sem : Sem progE Program :=
  {| choice := prog_choice; do_eff := program_do;
     on_drop := λ i s, with_link (sess_drop i (p_link s).1, cells_drop i (p_link s).2) s |}.

Context (oc : bool) (rd : SessionResponse → string).

(** What a task returns: the connecting call its result, the others an operation's. *)
Definition program_reply : Type := ClientResult Connected + op_reply.

Definition with_dongle (p : prog dongE op_reply) : prog progE program_reply :=
  r ← translate (@Linked) (link p); Ret (inr r).

Definition keeper : prog progE program_reply :=
  d ← trigger AwaitP; with_dongle (if conn_keepalive d then keepalive_task rd ;; Ret PNone else Ret PNone).
Definition caller (o : op) : prog progE program_reply := trigger AwaitP ;; with_dongle (run_op rd o).

Definition reader : prog progE program_reply :=
  translate (@Connecting) (trigger SpawnedC ;; clift reader_loop) ;; Ret (inr PNone).

Definition connector (c : conn_call) : prog progE program_reply :=
  r ← translate (@Connecting) (clink (run_conn oc rd c));
  match r with
  | Ok d => trigger (NewP d) ;; Ret (inl (Ok d))
  | Err e => Ret (inl (Err e))
  end.

(** Task 0 is the keepalive, task [S k] the operation [ops !! k]; then come the
    session's reader and the connecting call. *)
Definition dongle_users (ops : list op) : list (prog progE program_reply) := keeper :: (caller <$> ops).
Definition connector_at (ops : list op) : nat := S (reader_at ops).
Definition program_pool (c : conn_call) (ops : list op) : conf progE Program program_reply :=
  Conf (map_seq 0 (dongle_users ops ++ [reader; connector c]))
    {| p_link := (spawn_state (reader_at ops), new_cells None false 0);
       p_transport := None; p_dongle := None |}.
End program.

(** ** The session and the dongle's log *)

Section inv.
Context `{Wire} `{SerialPorts} `{Streams}.
Context (oc : bool) (rd : SessionResponse → string) (c : conn_call).

Record program_inv (s : Program) : Prop := {
  pi_client : client_inv (p_link s);
  pi_dongle d : p_dongle s = Some d → connected_ok oc (call_options c) d (p_link s).1;
}.

Definition program_rely (i : nat) (s s' : Program) : Prop := client_rely i (p_link s) (p_link s').

#[global] Instance program_rely_preorder i : PreOrder (program_rely i).
Proof using Type.
  split; [intros s; apply (client_rely_preorder i)|]. intros s1 s2 s3 H1' H2'.
  exact (@transitivity _ (client_rely i) _ _ _ _ H1' H2').
Qed.

Abbreviation Stable := (Runtime.Stable program_inv program_rely).
Abbreviation pspec := (Runtime.spec program_inv program_rely).
Abbreviation Guar := (Runtime.Guar program_rely).

(** A step that leaves the dongle alone and keeps the client's invariant. *)
Lemma program_step i s s' :
  program_inv s → client_inv (p_link s') → Runtime.Guar client_rely i (p_link s) (p_link s') →
  p_dongle s' = p_dongle s → program_inv s' ∧ Guar i s s'.
Proof using Type.
  intros [Hc Hd] Hc' HG E. split; [|done]. split; [done|]. intros d. rewrite E. intros Hs.
  refine (lasting (P := connected_ok oc (call_options c) d) (S i) _ _ (Hd d Hs) _ _);
    [apply (HG (S i)); lia|apply Hc'].
Qed.

Lemma spec_linked {A} i (P : Sess → Prop) (p : prog linkE A) Q :
  Runtime.spec client_inv client_rely i (λ s, P s.1) p (λ a s, Q a s.1) →
  pspec i (λ s, P (p_link s).1) (translate (@Linked _ _ _) p) (λ a s, Q a (p_link s).1).
Proof using Type.
  intros Hp.
  refine (@spec_translate _ _ _ _ link_sem program_sem (@Linked _ _ _) p_link (λ ch : prog_choice, ch.1)
           client_inv client_rely program_inv program_rely _ _ _ _ _ i (λ s, P s.1) p (λ a s, Q a s.1) Hp);
    [apply pi_client|done|].
  intros X j ch e s x s' Hd. simpl in *. destruct (link_do _ _ _ _ _) as [[y l]|]; [|done].
  simplify_eq/=. split; [done|]. intros. by apply program_step.
Qed.

Lemma spec_connecting {A} i (P : Sess → Prop) (p : prog clinkE A) Q :
  Runtime.spec linking_inv linking_rely i (λ s, P s.1) p (λ a s, Q a s.1) →
  pspec i (λ s, P (p_link s).1) (translate (@Connecting _ _ _) p) (λ a s, Q a (p_link s).1).
Proof using Type.
  intros Hp.
  refine (@spec_translate _ _ _ _ clink_sem program_sem (@Connecting _ _ _) p_connecting
           (λ ch : prog_choice, (ch.1.1, ch.2))
           linking_inv linking_rely program_inv program_rely _ _ _ _ _ i (λ s, P s.1) p (λ a s, Q a s.1) Hp);
    [intros s [[? _] _]; done|done|].
  intros X j ch e s x s' Hd. simpl in *. destruct (clink_do _ _ _ _ _) as [[y [s1 t]]|]; [|done].
  simplify_eq/=. split; [done|]. intros HI HI' HG. destruct s as [[s0 cs] tr d]. simpl in *.
  apply program_step; simpl; [done| |done|done].
  eapply client_inv_step; [apply HI|done|done].
Qed.

(** *** The tasks *)

#[global] Instance session_stable i (P : Sess → Prop) :
  Runtime.Stable sess_inv rely i P → Stable i (λ s, P (p_link s).1).
Proof using Type. intros HP s s' Hs Hr [[HI _] _]. by eapply HP. Qed.
Lemma spec_with_dongle i (p : prog dongE op_reply) :
  pspec i (λ s, idle i (p_link s).1) (with_dongle p) (λ _ _, True).
Proof using Type.
  refine (spec_bind _ _ _ i (λ s, idle i (p_link s).1) (translate (@Linked _ _ _) (link p)) _
            (λ _ s, idle i (p_link s).1) _ (spec_linked i (idle i) (link p) (λ _, idle i) (spec_link i p)) _).
  intros r. by apply spec_ret; [apply _|].
Qed.

Lemma spec_user i (f : Connected → prog dongE op_reply) :
  pspec i (λ s, idle i (p_link s).1) (d ← trigger AwaitP; with_dongle (f d)) (λ _ _, True).
Proof using Type.
  refine (spec_bind _ _ _ i (λ s, idle i (p_link s).1) (trigger AwaitP) _ (λ _ s, idle i (p_link s).1) _ _ _);
    [|intros d; apply spec_with_dongle].
  apply spec_trigger; [apply _..|]. intros s ch d s' HI Hid Hd. simpl in Hd.
  destruct (p_dongle s); [|done]. simplify_eq/=. split_and!; [done| |done]. intros j _. reflexivity.
Qed.

Lemma spec_reader i :
  pspec i (λ s, decoder_at i decoder_new (p_link s).1 ∧ holds i [] (p_link s).1) reader (λ _ _, True).
Proof using Type.
  refine (spec_bind _ _ _ i _ (translate (@Connecting _ _ _) (trigger SpawnedC ;; clift reader_loop)) _
            (λ _ _, True) _ (spec_connecting i (λ s, decoder_at i decoder_new s ∧ holds i [] s) _ (λ _ _, True) (spec_spawned_reader i)) _).
  intros []. by apply spec_ret; [apply _|].
Qed.

Lemma spec_connector i :
  pspec i (λ s, idle i (p_link s).1) (connector oc rd c) (λ _ _, True).
Proof using Type.
  refine (spec_bind _ _ _ i (λ s, idle i (p_link s).1) (translate (@Connecting _ _ _) (clink (run_conn oc rd c))) _
            (λ r s, ∀ d, r = Ok d → connected_ok oc (call_options c) d (p_link s).1) _ _ _).
  - refine (spec_connecting i (idle i) (clink (run_conn oc rd c))
      (λ r s, ∀ d, r = Ok d → connected_ok oc (call_options c) d s) _).
    eapply spec_post; [eapply spec_conseq; [apply (connects_run oc rd i c)|by intros s ??]|by intros r s _ [_ ?]].
  - intros [d|e]; [|by apply spec_ret; [apply _|]].
    refine (spec_bind _ _ _ i (λ s, ∀ d', Ok d = Ok d' → connected_ok oc (call_options c) d' (p_link s).1) (trigger (NewP d)) _ (λ _ _, True) _ _ _);
      [|intros []; by apply spec_ret; [apply _|]].
    apply spec_trigger; [apply _..|]. intros s ch [] s' [[HI Hl] HD] HP Hd.
    simpl in Hd. destruct (c_rx_owner (p_link s).2); [done|]. injection Hd as <-.
    split_and!; [split; simpl| |done].
    + split; [done|]. intros j ty pl r Hin. by apply elem_of_nil in Hin.
    + intros d' [= <-]. by apply HP.
    + intros j _. apply (rely_preorder j).
Qed.

Lemma program_drop_ok i s : program_inv s → program_inv (on_drop i s) ∧ Guar i s (on_drop i s).
Proof using Type.
  intros HI. destruct (client_drop_ok i (p_link s)) as [HI' HG]; [apply HI|].
  by apply program_step.
Qed.

Lemma program_pool_safe ops : pool_safe program_inv program_rely (λ _ _ _, True) (program_pool oc rd c ops).
Proof using Type.
  assert (∀ i, idle i (spawn_state (reader_at ops))) as Hid.
  { intros i. split; [|by exists []; intros w ch].
    split; [constructor|intros t p Hin; by apply elem_of_nil in Hin|by intros w ch]. }
  assert (program_inv (shared (program_pool oc rd c ops))) as HI.
  { split; [|done]. split; [apply spawn_sess_inv|]. intros ???? Hin. by apply elem_of_nil in Hin. }
  split; [done|]. intros i p Hp n. apply lookup_map_seq_Some in Hp as [_ Hp]. rewrite Nat.sub_0_r in Hp.
  unfold dongle_users in Hp. apply lookup_cons_Some in Hp as [[-> <-]|[Hi Hp]].
  { exact (spec_user 0 _ n _ HI (Hid 0%nat)). }
  destruct i as [|k]; [lia|]. replace (S k - 1)%nat with k in Hp by lia.
  apply lookup_app_Some in Hp as [Hp|[Hlen Hp]].
  - rewrite list_lookup_fmap in Hp. destruct (ops !! k) as [o|]; [|done]. injection Hp as <-.
    exact (spec_user (S k) (λ _, run_op rd o) n _ HI (Hid (S k))).
  - rewrite length_fmap in *. apply lookup_cons_Some in Hp as [[Hk <-]|[Hk Hp]].
    + assert (k = length ops) as -> by lia. apply (spec_reader (reader_at ops) n _ HI).
      split; [done|apply Hid].
    + apply list_lookup_singleton_Some in Hp as [_ <-]. by apply (spec_connector (S k) n _ HI).
Qed.

Lemma program_reachable ops cf :
  reachable (program_pool oc rd c ops) cf → program_inv (shared cf).
Proof using Type.
  intros Hr. by destruct (rg_adequacy _ _ _ program_drop_ok _ _ _ (program_pool_safe ops) Hr).
Qed.
End inv.

(** ** The program refines the dongle's pool, once there is a dongle *)

Section simulation.
Context `{Wire} `{SerialPorts} `{Streams}.
Context (oc : bool) (rd : SessionResponse → string) (c : conn_call) (ops : list op).

(** [t] runs the linked program [q]. *)
Definition inside (q : prog linkE op_reply) (t : prog progE program_reply) : Prop :=
  peq (prog_bind (translate (@Linked _ _ _) q) (λ r, Ret (inr r))) t.

Lemma inside_step i ch q t t' s s' :
  inside q t → step_prog i ch t s = Some (t', s') →
  ∃ q', step_prog (E := linkE) i ch.1 q (p_link s) = Some (q', p_link s') ∧ inside q' t' ∧ p_dongle s' = p_dongle s.
Proof using Type.
  unfold inside. intros Hq Hs. symmetry in Hq.
  destruct (step_prog_peq _ _ _ _ _ _ _ Hq Hs) as (t1 & Hst & Ht). clear Hq Hs. symmetry in Ht.
  destruct q as [a|X e k|S B body l k|m]; simpl in Hst; try done.
  - simpl. destruct (link_do X i ch.1 e (p_link s)) as [[x l]|]; [|done]. simplify_eq/=. eauto.
  - simplify_eq/=. eexists. split; [done|]. split; [|done]. etrans; [|exact Ht].
    etrans; [apply (peq_bind _ _ _ (λ r, Ret (inr r)) (translate_bind _ _ _)); reflexivity|].
    apply peq_bind_assoc. by intros [l'|b].
Qed.

Lemma inside_ret q a : inside q (Ret a) → ∃ r, q = Ret r ∧ a = inr r.
Proof using Type.
  unfold inside. intros Hq. symmetry in Hq. apply peq_inv in Hq.
  destruct q as [r| | |]; simplify_eq/=. eauto.
Qed.

(** The reader: it does not use the dongle. *)
Definition only_connecting (X : Type) (e : progE X) : Prop :=
  match e with Connecting _ => True | _ => False end.

(** The connecting call, as long as it has not made the dongle. *)
Inductive making : prog progE program_reply → Prop :=
| mk_err e : making (Ret (inl (Err e)))
| mk_step {X} (e : clinkE X) k : (∀ x, making (k x)) → making (Vis (Connecting e) k)
| mk_new d k : (∀ x, k x = Ret (inl (Ok d))) → making (Vis (NewP d) k)
| mk_loop {S B} (body : S → prog progE (S + B)) l k :
    (∀ l, uses only_connecting (body l)) → (∀ b, making (k b)) → making (Loop body l k)
| mk_panic m : making (Panic m).

Lemma uses_connecting {A} (p : prog clinkE A) : uses only_connecting (translate (@Connecting _ _ _) p).
Proof using Type. induction p; by constructor. Qed.

Lemma making_bind {A} (p : prog progE A) f :
  uses only_connecting p → (∀ a, making (f a)) → making (prog_bind p f).
Proof using Type.
  intros Hp Hf. induction Hp as [A a|A X e k He _ IH|A S B body l k Hb _ _ IH|A m]; simpl;
    [done| |by apply mk_loop; auto|constructor].
  destruct e; try done. apply mk_step. auto.
Qed.

Lemma making_connector : making (connector oc rd c).
Proof using Type.
  apply (making_bind (translate (@Connecting _ _ _) (clink (run_conn oc rd c)))); [apply uses_connecting|].
  intros [d|e]; [by apply mk_new|constructor].
Qed.

(** A step that makes no dongle. *)
Definition undisturbed (s s' : Program) : Prop :=
  p_dongle s' = p_dongle s ∧ (p_link s').2 = (p_link s).2.

Lemma connecting_eff {X} i ch (e : clinkE X) s x s' :
  program_do X i ch (Connecting e) s = Some (x, s') → undisturbed s s'.
Proof using Type. simpl. destruct (clink_do _ _ _ _ _) as [[y l]|]; intros ?; by simplify_eq/=. Qed.

Lemma reader_step {A} i ch (t t' : prog progE A) s s' :
  uses only_connecting t → step_prog i ch t s = Some (t', s') →
  uses only_connecting t' ∧ undisturbed s s'.
Proof using Type.
  intros [a|X e k He Hk|S B body l k Hb Hk|m] Hst; try done; simpl in Hst.
  - destruct (program_do X i ch e s) as [[x s1]|] eqn:Hd; [|done]. simplify_eq/=. split; [done|].
    destruct e; try done. by eapply connecting_eff.
  - simplify_eq. split; [|done]. apply uses_bind; [done|]. intros [l'|b]; [by constructor|done].
Qed.

Lemma making_move i ch t t' s s' :
  making t → step_prog i ch t s = Some (t', s') →
  (making t' ∧ undisturbed s s') ∨
  ∃ d now, t' = Ret (inl (Ok d)) ∧ p_dongle s' = Some d ∧
    (p_link s').2 = new_cells (conn_applied d) (conn_keepalive d) now.
Proof using Type.
  intros [e|X e k Hk|d k Hk|S B body l k Hb Hk|m] Hst; try done; cbn [step_prog do_eff program_sem] in Hst.
  - left. destruct (program_do X i ch (Connecting e) s) as [[x s1]|] eqn:Hd; [|done]. simplify_eq/=.
    split; [done|by eapply connecting_eff].
  - right. simpl in Hst. destruct (c_rx_owner (p_link s).2); [done|]. simplify_eq/=. rewrite Hk. by eexists _, _.
  - left. simplify_eq. split; [|done]. apply making_bind; [done|]. intros [l'|b]; [by constructor|done].
Qed.

(** A user of the dongle waits for it, or is where the dongle's pool is. *)
Definition user_at (d : Connected) (i : nat) (p : prog dongE op_reply) (t : prog progE program_reply) : Prop :=
  (dongle_users rd ops !! i = Some t ∧ dongle_tasks rd (conn_keepalive d) ops !! i = Some p) ∨
  ∃ q, linked p q ∧ inside q t.

Record program_sim (d : Connected) (cf : conf progE Program program_reply)
    (cfa : conf dongE Cells op_reply) : Prop := {
  ps_cells : shared cfa = (p_link (shared cf)).2;
  ps_others i : (reader_at ops ≤ i)%nat → tasks cfa !! i = None;
  ps_users i t : (i < reader_at ops)%nat → tasks cf !! i = Some t →
    ∃ p, tasks cfa !! i = Some p ∧ user_at d i p t;
}.

Definition dongle_start (d : Connected) (now : Z) : conf dongE Cells op_reply :=
  dongle_pool rd (conn_applied d) (conn_keepalive d) now ops.

(** The tasks but the reader, before there is a dongle. *)
Definition waiting (i : nat) (t : prog progE program_reply) : Prop :=
  ((i < reader_at ops)%nat → dongle_users rd ops !! i = Some t) ∧ (i = connector_at ops → making t).

Record simulated (cf : conf progE Program program_reply) : Prop := {
  sm_last i t : tasks cf !! i = Some t → (i ≤ connector_at ops)%nat;
  sm_reader t : tasks cf !! reader_at ops = Some t → uses only_connecting t;
  sm_dongle : match p_dongle (shared cf) with
              | None => ∀ i t, tasks cf !! i = Some t → waiting i t
              | Some d =>
                  (∀ t, tasks cf !! connector_at ops = Some t → t = Ret (inl (Ok d))) ∧
                  ∃ now cfa, reachable (dongle_start d now) cfa ∧ program_sim d cf cfa
              end;
}.

Lemma length_users : length (dongle_users rd ops) = reader_at ops.
Proof using Type. unfold dongle_users, reader_at. simpl. by rewrite length_fmap. Qed.

(** Every user starts by waiting for the dongle. *)
Lemma users_wait i t : dongle_users rd ops !! i = Some t → ∃ k, t = Vis AwaitP k.
Proof using Type.
  intros [[_ <-]|[_ Ht]]%lookup_cons_Some; [by eexists|]. rewrite list_lookup_fmap in Ht.
  destruct (ops !! _); simplify_eq/=. by eexists.
Qed.

Lemma length_dongle_tasks ka : length (dongle_tasks rd ka ops) = reader_at ops.
Proof using Type. unfold dongle_tasks, reader_at. simpl. by rewrite length_fmap. Qed.

Lemma program_task i t :
  tasks (program_pool oc rd c ops) !! i = Some t →
  dongle_users rd ops !! i = Some t ∧ (i < reader_at ops)%nat ∨
  i = reader_at ops ∧ t = reader ∨ i = connector_at ops ∧ t = connector oc rd c.
Proof using Type.
  unfold program_pool. cbn [tasks]. intros [_ Ht]%lookup_map_seq_Some. rewrite Nat.sub_0_r in Ht.
  apply lookup_app_Some in Ht as [Ht|[Hlen Ht]].
  - left. split; [done|]. apply lookup_lt_Some in Ht. by rewrite length_users in Ht.
  - right. rewrite length_users in *.
    apply lookup_cons_Some in Ht as [[Hi <-]|[Hi [Hi' <-]%list_lookup_singleton_Some]];
      [left|right]; (split; [unfold connector_at; lia|done]).
Qed.

Lemma simulated_start : simulated (program_pool oc rd c ops).
Proof using Type.
  split.
  - intros i t [[_ Hi]|[[-> _]|[-> _]]]%program_task; unfold connector_at; lia.
  - intros t [[_ Hi]|[[_ ->]|[Hi _]]]%program_task; [lia| |unfold connector_at in Hi; lia].
    apply (uses_bind only_connecting (translate (@Connecting _ _ _) (trigger SpawnedC ;; clift reader_loop)));
      [apply uses_connecting|constructor].
  - intros i t [[Hu Hi]|[[-> _]|[-> ->]]]%program_task; (split; [|intros E]); try done;
      unfold connector_at in *; try lia. apply making_connector.
Qed.

Lemma sim_new d now cf :
  (p_link (shared cf)).2 = new_cells (conn_applied d) (conn_keepalive d) now →
  (∀ i t, (i < reader_at ops)%nat → tasks cf !! i = Some t → dongle_users rd ops !! i = Some t) →
  program_sim d cf (dongle_start d now).
Proof using Type.
  intros Hc Hu. split; [done|..].
  - intros i Hi. apply lookup_map_seq_None. right. by rewrite length_dongle_tasks.
  - intros i t Hi Ht. destruct (lookup_lt_is_Some_2 (dongle_tasks rd (conn_keepalive d) ops) i) as [p Hp];
      [by rewrite length_dongle_tasks|].
    exists p. split; [apply lookup_map_seq_Some; rewrite Nat.sub_0_r; split; [lia|done]|].
    left. split; [by apply Hu|done].
Qed.

(** The dongle comes, and the user starts. *)
Lemma user_starts d i p t ch t' s s' :
  dongle_users rd ops !! i = Some t → dongle_tasks rd (conn_keepalive d) ops !! i = Some p →
  p_dongle s = Some d → step_prog i ch t s = Some (t', s') →
  s' = s ∧ inside (link p) t'.
Proof using Type.
  intros Ht Hp Hd Hst.
  assert (t = (d ← trigger AwaitP; with_dongle (match i with
     | O => if conn_keepalive d then keepalive_task rd ;; Ret PNone else Ret PNone | S _ => p end))) as ->.
  { destruct i as [|k]; [by injection Ht|].
    apply lookup_cons_Some in Ht as [[? _]|[_ Ht]]; [done|]. apply lookup_cons_Some in Hp as [[? _]|[_ Hp]]; [done|].
    rewrite list_lookup_fmap in Ht. rewrite list_lookup_fmap in Hp. destruct (ops !! _); simplify_eq/=. done. }
  simpl in Hst. rewrite Hd in Hst. simplify_eq/=. split; [done|].
  destruct i as [|k]; [injection Hp as <-|]; apply peq_refl.
Qed.

(** A user's step, when there is a dongle. *)
Lemma sim_user d now cf cfa i ch t t' s' :
  reachable (dongle_start d now) cfa → program_sim d cf cfa → (i < reader_at ops)%nat →
  p_dongle (shared cf) = Some d → tasks cf !! i = Some t →
  step_prog i ch t (shared cf) = Some (t', s') →
  p_dongle s' = Some d ∧
  ∃ cfa', reachable (dongle_start d now) cfa' ∧ program_sim d (Conf (<[i := t']> (tasks cf)) s') cfa'.
Proof using Type.
  intros Hra [Hc Ho Hu] Hi Hd Ht Hst. destruct (Hu i t Hi Ht) as (p & Hp & Hat).
  assert (∀ cfa', shared cfa' = (p_link s').2 → (∃ p', tasks cfa' = <[i := p']> (tasks cfa) ∧
    user_at d i p' t') → program_sim d (Conf (<[i := t']> (tasks cf)) s') cfa') as Hsim.
  { intros cfa' Hc' (p' & E & Hat'). split; [done|..]; rewrite E.
    - intros j Hj. rewrite lookup_insert_ne by lia. auto.
    - intros j u Hj. cbn [tasks]. intros [[<- <-]|[Hij Hu']]%lookup_insert_Some;
        [rewrite lookup_insert_eq; eauto|rewrite lookup_insert_ne by done; auto]. }
  destruct Hat as [[Hstart Htask]|(q & Hl & Hq)].
  - destruct (user_starts d i p t ch t' _ s' Hstart Htask Hd Hst) as [-> Hin].
    split; [done|]. exists cfa. split; [done|]. apply Hsim; [done|]. exists p.
    split; [by rewrite insert_id|]. right. eexists. split; [apply linked_link|exact Hin].
  - destruct (inside_step i ch q t t' _ s' Hq Hst) as (q' & Hstq & Hq' & Hd'). split; [congruence|].
    destruct (linked_step _ _ _ _ _ _ _ Hl Hstq) as [[Hl' E]|(chd & p' & Hstep & Hl')].
    + exists cfa. split; [done|]. apply Hsim; [congruence|]. exists p.
      split; [by rewrite insert_id|]. right. eauto.
    + exists (Conf (<[i := p']> (tasks cfa)) (p_link s').2). split.
      { eapply (reach_step _ _ (Run i chd)); [done|]. simpl. rewrite Hp. simpl. by rewrite Hc, Hstep. }
      apply Hsim; [done|]. exists p'. split; [done|]. right. eauto.
Qed.

(** The reader's or the connecting call's step. *)
Lemma sim_others d cf cfa i t' s' :
  program_sim d cf cfa → (reader_at ops ≤ i)%nat → (p_link s').2 = (p_link (shared cf)).2 →
  program_sim d (Conf (<[i := t']> (tasks cf)) s') cfa.
Proof using Type.
  intros [Hc Ho Hu] Hi E. split; [by cbn [shared]; rewrite E|done|]. intros j u Hj. cbn [tasks].
  rewrite lookup_insert_ne by lia. auto.
Qed.

(** A finished task of the dongle's pool has released the guard. *)
Lemma owner_runs d now cfa i :
  reachable (dongle_start d now) cfa → c_rx_owner (shared cfa) = Some i →
  ∃ p, tasks cfa !! i = Some p ∧ ∀ r, p ≠ Ret r.
Proof using Type.
  intros Hr Hi. destruct (rx_owner_is_task _ _ _ _ _ _ _ Hr Hi) as [p Hp].
  exists p. split; [done|]. intros r ->.
  pose proof (rg_adequacy _ _ _ (cells_drop_ok _) _ _ _ (dongle_pool_safe rd _ _ now ops) Hr) as Hsafe.
  by destruct (pool_safe_result _ _ _ _ _ _ _ Hsafe Hp).
Qed.

Lemma cells_drop_id i s : c_rx_owner s ≠ Some i → cells_drop i s = s.
Proof using Type. intros Ho. unfold cells_drop. rewrite decide_False by done. by destruct s. Qed.

Lemma sim_drop d now cf cfa i t :
  reachable (dongle_start d now) cfa → program_sim d cf cfa → tasks cf !! i = Some t → (∀ a, t ≠ Ret a) →
  ∃ cfa', reachable (dongle_start d now) cfa' ∧
    program_sim d (Conf (delete i (tasks cf)) (on_drop i (shared cf))) cfa'.
Proof using Type.
  intros Hra [Hc Ho Hu] Ht Hret.
  assert ((∃ p, tasks cfa !! i = Some p ∧ ∀ r, p ≠ Ret r) ∨ c_rx_owner (shared cfa) ≠ Some i)
    as [(p & Hp & Hne)|Hno].
  { destruct (decide (c_rx_owner (shared cfa) = Some i)); [left; by eapply owner_runs|by right]. }
  - exists (Conf (delete i (tasks cfa)) (on_drop i (shared cfa))). split.
    { eapply (reach_step _ _ (Cancel i)); [done|]. simpl. rewrite Hp. simpl. destruct p; try done. by destruct (Hne a). }
    split; [by simpl; rewrite Hc|..]; cbn [tasks].
    + intros j Hj. apply lookup_delete_None. auto.
    + intros j u Hj [Hij Hj']%lookup_delete_Some. rewrite lookup_delete_ne by done. auto.
  - exists cfa. split; [done|]. split; [|done|]; cbn [tasks shared].
    + simpl. rewrite <- Hc. symmetry. by apply cells_drop_id.
    + intros j u Hj [Hij Hj']%lookup_delete_Some. auto.
Qed.

(** The reader's step. *)
Lemma simulated_reader cf t' s' :
  simulated cf → is_Some (tasks cf !! reader_at ops) → uses only_connecting t' → undisturbed (shared cf) s' →
  simulated (Conf (<[reader_at ops := t']> (tasks cf)) s').
Proof using Type.
  intros [Hlast Hread Hd] [t Ht] Hu [E Ec]. unfold connector_at in *. split; cbn [tasks shared].
  - intros j u [[<- _]|[_ Hj]]%lookup_insert_Some; [unfold connector_at; lia|by eapply Hlast].
  - intros u. rewrite lookup_insert_eq. by intros [= <-].
  - rewrite E. destruct (p_dongle (shared cf)) as [d|].
    + destruct Hd as (Hc & now & cfa & Hra & Hsim). split.
      * intros u. rewrite lookup_insert_ne by (unfold connector_at; lia). apply Hc.
      * exists now, cfa. split; [done|]. by apply sim_others.
    + intros j u [[<- _]|[Hj Hu']]%lookup_insert_Some; [split; unfold connector_at; lia|by apply Hd].
Qed.

(** The connecting call's step. *)
Lemma simulated_connector cf ch t t' s' :
  simulated cf → tasks cf !! connector_at ops = Some t →
  step_prog (connector_at ops) ch t (shared cf) = Some (t', s') →
  simulated (Conf (<[connector_at ops := t']> (tasks cf)) s').
Proof using Type.
  intros [Hlast Hread Hd] Ht Hst.
  assert (∀ i u, i ≠ connector_at ops → <[connector_at ops := t']> (tasks cf) !! i = Some u →
    tasks cf !! i = Some u) as Hne by (intros i u ?; by rewrite lookup_insert_ne).
  assert (reader_at ops ≠ connector_at ops) as Hrc by (unfold connector_at; lia).
  split; cbn [tasks shared].
  - intros j u [[<- _]|[_ Hj]]%lookup_insert_Some; [done|by eapply Hlast].
  - intros u Hu. by apply Hread, Hne.
  - destruct (p_dongle (shared cf)) as [d|] eqn:Hdg; [by rewrite (proj1 Hd t Ht) in Hst|].
    destruct (making_move _ ch t t' _ s' (proj2 (Hd _ t Ht) eq_refl) Hst) as [[Hm [-> Ec]]|(d & now & -> & -> & Ec)].
    + rewrite Hdg. intros j u. destruct (decide (j = connector_at ops)) as [->|Hj]; [|by intros Hu%Hne; auto].
      rewrite lookup_insert_eq. intros [= <-]. split; [unfold connector_at; lia|done].
    + split; [by intros u; rewrite lookup_insert_eq; intros [= <-]|].
      exists now, (dongle_start d now). split; [apply reach_refl|]. apply sim_new; [done|].
      cbn [tasks]. intros j u Hj Hu%Hne; [by apply (Hd j u Hu)|unfold connector_at; lia].
Qed.

Lemma simulated_step cf l cf' : simulated cf → step l cf = Some cf' → simulated cf'.
Proof using Type.
  intros HS Hst. pose proof HS as [Hlast Hread Hd].
  destruct l as [i ch|i]; simpl in Hst; destruct (tasks cf !! i) as [t|] eqn:Ht; try done; simpl in Hst.
  - destruct (step_prog i ch t (shared cf)) as [[t' s']|] eqn:Hs; [|done]. injection Hst as <-.
    pose proof (Hlast i t Ht) as Hle. destruct (decide (i = connector_at ops)) as [->|Hic];
      [by eapply simulated_connector|].
    destruct (decide (i = reader_at ops)) as [->|Hir].
    { destruct (reader_step _ ch t t' _ s' (Hread t Ht) Hs) as [??]. by apply simulated_reader. }
    assert (i < reader_at ops)%nat as Hi by (unfold connector_at in *; lia). split; cbn [tasks shared].
    + intros j u [[<- _]|[_ Hj]]%lookup_insert_Some; [done|by eapply Hlast].
    + intros u. rewrite lookup_insert_ne by lia. apply Hread.
    + destruct (p_dongle (shared cf)) as [d|] eqn:Hdg.
      * destruct Hd as (Hc & now & cfa & Hra & Hsim).
        destruct (sim_user d now cf cfa i ch t t' s' Hra Hsim Hi Hdg Ht Hs) as [-> (cfa' & ? & ?)].
        split; [|by exists now, cfa']. intros u. rewrite lookup_insert_ne by lia. apply Hc.
      * destruct (users_wait i t (proj1 (Hd i t Ht) Hi)) as [k' ->]. simpl in Hs. by rewrite Hdg in Hs.
  - assert (∀ a, t ≠ Ret a) as Hret by (by intros a ->).
    assert (cf' = Conf (delete i (tasks cf)) (on_drop i (shared cf))) as -> by (by destruct t; simplify_eq).
    split; cbn [tasks shared on_drop program_sem with_link p_dongle].
    + intros j u [_ Hj]%lookup_delete_Some. by eapply Hlast.
    + intros u [_ Hu]%lookup_delete_Some. auto.
    + destruct (p_dongle (shared cf)) as [d|].
      * destruct Hd as (Hc & now & cfa & Hra & Hsim). split.
        { intros u [_ Hu]%lookup_delete_Some. auto. }
        destruct (sim_drop d now cf cfa i t Hra Hsim Ht Hret) as (cfa' & ? & ?). by exists now, cfa'.
      * intros j u [_ Hu]%lookup_delete_Some. auto.
Qed.

Lemma simulated_reachable cf : reachable (program_pool oc rd c ops) cf → simulated cf.
Proof using Type.
  induction 1 as [|cf l cf' _ IH Hst]; [apply simulated_start|by eapply simulated_step].
Qed.
End simulation.

(** ** From the first probe to the caller *)

Section all.
Context `{Wire} `{SerialPorts} `{Streams}.
Context (oc : bool) (rd : SessionResponse → string).

(** C1: From the first probe to the caller: in every interleaving of a connecting call of
    any entry point, the session's reader, the keepalive and any operations of the
    dongle that comes out, with any of them dropped anywhere, an operation that has
    returned had its dongle; that dongle stands for a device that answered its PING,
    its GET_INFO with just the dongle's information and, if a configuration was asked
    for, its SET_CONFIG, and is what the connecting call returned.  If the operation
    reports success, then one of its own commands was completed by a frame received in
    the same session under that command's own tag, on the channel that the operation
    made for it: for [tx] and [tx_with_retry] a TX_DONE with the result "transmitted"
    whose payload the caller holds, for [set_config] an OK that echoes a configuration,
    for [ping] and [rx_stop] an empty OK.  An [rx_start] may find reception started
    already: then the RX_START of the task that started it was so completed. *)
Theorem program_confirmed c ops cf k o r :
  reachable (program_pool oc rd c ops) cf →
  ops !! k = Some o → tasks cf !! S k = Some (Ret (inr r)) →
  ∃ d, p_dongle (shared cf) = Some d ∧
    (∀ r', tasks cf !! connector_at ops = Some (Ret r') → r' = inl (Ok d)) ∧
    connected_ok oc (call_options c) d (p_link (shared cf)).1 ∧
    confirmed (S k) o r (p_link (shared cf)).1.
Proof using Type.
  intros Hr Hk Ht.
  assert (S k < reader_at ops)%nat as Hlt.
  { apply lookup_lt_Some in Hk. unfold reader_at. lia. }
  destruct (program_reachable oc rd c ops cf Hr) as [Hc Hd].
  pose proof (sm_dongle _ _ _ (simulated_reachable oc rd c ops cf Hr)) as Hsim.
  destruct (p_dongle (shared cf)) as [d|].
  - destruct Hsim as (Hconn & Hsim). exists d. split_and!; [done| |by apply Hd|].
    { intros r' Hr'. pose proof (Hconn _ Hr'). congruence. }
    destruct Hsim as (now & cfa & Hra & [Hcells _ Hu]).
    destruct (Hu _ _ Hlt Ht) as (p & Hp & [[[? Hs]%users_wait _]|(q & Hl & Hq)]); [done|].
    destruct (inside_ret q _ Hq) as (r' & -> & [= <-]). apply linked_ret in Hl as ->.
    pose proof (rg_adequacy _ _ _ (cells_drop_ok _) _ _ _ (dongle_pool_safe rd _ _ now ops) Hra) as Hsafe.
    destruct (pool_safe_result _ _ _ _ _ _ _ Hsafe Hp) as [_ Hop].
    apply (result_confirmed (S k) o r _ (p_link (shared cf)).2); [by destruct (p_link (shared cf))|].
    rewrite <- Hcells. by apply Hop.
  - by destruct (users_wait rd ops _ _ (proj1 (Hsim _ _ Ht) Hlt)).
Qed.

(** C19: What recovery re-sends: from the instant the dongle exists, the configuration it
    keeps for recovery, which [reapply_config] and the keepalive send after
    NOT_CONFIGURED, is one that the device has echoed in an OK to a SET_CONFIG of this
    session, be it the connecting call's or an operation's. *)
Theorem recovery_config_confirmed c ops cf d m :
  reachable (program_pool oc rd c ops) cf →
  p_dongle (shared cf) = Some d → c_config (p_link (shared cf)).2 = Some m →
  ∃ r, sc_current r = m ∧ got_ok TYPE_SET_CONFIG (OkSetConfig r) (p_link (shared cf)).1.
Proof using Type.
  intros Hr Hd Hm. destruct (program_reachable oc rd c ops cf Hr) as [[_ Hl] Hdongle].
  pose proof (sm_dongle _ _ _ (simulated_reachable oc rd c ops cf Hr)) as Hsim. rewrite Hd in Hsim.
  destruct Hsim as (_ & now & cfa & Hra & [Hcells _ _]).
  destruct (rg_adequacy _ _ _ (cells_drop_ok _) _ _ _ (dongle_pool_safe rd _ _ now ops) Hra)
    as [[[Ha|(r & (i & pl & Hin) & Ha)] _] _]; rewrite Hcells, Hm in Ha.
  - destruct (Hdongle d Hd) as (_ & _ & Happ & _). unfold applied_ok in Happ. rewrite <- Ha in Happ.
    destruct (if opt_auto_configure _ then _ else _); [|done].
    destruct Happ as (? & r & _ & ? & ?). by exists r.
  - exists r. split; [congruence|]. rewrite Hcells in Hin.
    eapply answered_came; [by eapply Hl|done|]. intros ??. apply response_set_config.
Qed.
End all.

(** ** A concrete run *)

Definition goes_on (i n : nat) : list (label progE Program) :=
  replicate n (Run i ((CDefault, any_choice), demo_answers)).
Definition comes_in (i : nat) (bs : list byte) : list (label progE Program) :=
  [Run i ((CRead bs, any_choice), demo_answers)].

(** Task 3 connects, task 2 reads; then task 1 transmits. *)
Definition whole_run : list (label progE Program) :=
  goes_on 3 16 ++ goes_on 2 3 ++ comes_in 2 [x80; x01] ++ goes_on 2 4 ++ goes_on 3 9 ++
  comes_in 2 [x80; x02] ++ goes_on 2 4 ++ goes_on 3 9 ++ comes_in 2 [x80; x03] ++ goes_on 2 4 ++
  goes_on 3 2 ++ goes_on 1 11 ++ comes_in 2 [x80; x04] ++ goes_on 2 4 ++
  comes_in 2 [x82; x04; x00] ++ goes_on 2 2 ++ goes_on 1 2.

Definition whole_end : conf progE Program program_reply :=
  after whole_run (program_pool true any_debug demo_call tx_ops).

Lemma program_confirmed_witness :
  ∃ d, p_dongle (shared whole_end) = Some d ∧
    (∀ r', tasks whole_end !! connector_at tx_ops = Some (Ret r') → r' = inl (Ok d)) ∧
    connected_ok true (call_options demo_call) d (p_link (shared whole_end)).1 ∧
    confirmed 1 (OTx [x68] false 2000) (PTx (Ok {| td_result := Transmitted; airtime_us := 7777 |}))
      (p_link (shared whole_end)).1.
Proof.
  apply (program_confirmed true any_debug demo_call tx_ops whole_end 0);
    [apply after_reachable|reflexivity|vm_compute; reflexivity].
Defined.

Lemma recovery_config_confirmed_witness :
  ∃ r, sc_current r = LoRa demo_config ∧
    got_ok TYPE_SET_CONFIG (OkSetConfig r) (p_link (shared whole_end)).1.
Proof.
  apply (recovery_config_confirmed true any_debug demo_call tx_ops whole_end
    {| conn_info := demo_info; conn_kind := MuxUnix fallback_socket;
       conn_applied := Some (LoRa demo_config); conn_keepalive := true |});
    [apply after_reachable|vm_compute; reflexivity|vm_compute; reflexivity].
Defined.
