(* ===== verification/ProgramLive.v ===== *)
(** * Liveness of the program that connects and uses its dongle

    The discipline of [Locks.v] for the pool of [Program.v].  Waiting for the dongle may
    last for ever; from the instant it exists, every operation comes back. *)

From stdpp Require Import functions.
From S2P Require Import Prelude Runtime Locks Errors Protocol Config Retry Session SessionInv SessionSpec SessionPool SessionWire SessionLive SessionLocks Discovery Endpoint Transport Dongle DonglePool DongleLink Client ClientLive Connect ConnectSpec ConnectLink ConnectLive Program.
Local Open Scope Z_scope.

(** ** The mutexes of the program *)

Section locks.
Context `{Wire} `{SerialPorts} `{Streams}.

Definition program_kind (X : Type) (e : progE X) : lock_kind client_lock X :=
  match e in progE X return lock_kind client_lock X with
  | Linked e => link_kind _ e
  | Connecting e => clink_kind _ e
  | NewP _ => Touches RxGuard
  | AwaitP => Blocks false
  end.

Definition program_owner (s : Program) (l : client_lock) : option nat := client_owner (p_link s) l.

(** A step of connecting leaves the guard of [rx_started] alone. *)
Lemma clink_kind_guard {X} (e : clinkE X) :
  match clink_kind X e with Takes l | Gives l | Touches l => l = Writer | _ => True end.
Proof using Type. destruct e; simpl; try done. apply sess_kind_guard. Qed.

Lemma program_owner_after {X} i c (e : progE X) s x s' l :
  program_do X i c e s = Some (x, s') →
  program_owner s' l = owner_after i (program_kind X e) (program_owner s) l.
Proof using Type.
  destruct s as [[s0 c0] tr d]. destruct e as [Y e|Y e|d'|]; simpl; intros Hd.
  - destruct (link_do _ _ _ _ _) as [[y lk]|] eqn:He; [|done]. simplify_eq/=. by eapply link_owner.
  - destruct (clink_do _ _ _ _ _) as [[y [s1 tr']]|] eqn:He; [|done]. simplify_eq/=.
    pose proof (clink_owner_after _ _ _ _ _ _ Writer He) as Ho. pose proof (clink_kind_guard e) as Hk.
    destruct l; unfold program_owner; simpl in *; [|rewrite Ho];
      destruct (clink_kind Y e); simpl; subst; done.
  - destruct (c_rx_owner c0) eqn:Ho; [done|]. simplify_eq/=. by destruct l.
  - destruct d; by simplify_eq/=.
Qed.

Lemma program_free {X} i c (e : progE X) s x s' :
  program_do X i c e s = Some (x, s') →
  match program_kind X e with Takes l | Touches l => program_owner s l = None | _ => True end.
Proof using Type.
  destruct s as [[s0 c0] tr d]. destruct e as [Y e|Y e|d'|]; simpl; intros Hd.
  - destruct (link_do _ _ _ _ _) as [[y lk]|] eqn:He; [|done]. by eapply link_free.
  - destruct (clink_do _ _ _ _ _) as [[y [s1 tr']]|] eqn:He; [|done].
    pose proof (clink_free _ _ _ _ _ _ He) as Hf. pose proof (clink_kind_guard e) as Hk.
    destruct (clink_kind Y e); try done; by subst.
  - by destruct (c_rx_owner c0).
  - done.
Qed.

Lemma program_enabled {X} i (e : progE X) s :
  match program_kind X e with
  | Takes l | Touches l => program_owner s l = None
  | Needs w => exists_chan (p_link s).1 w
  | Blocks _ => False
  | _ => True
  end → ∃ c, is_Some (program_do X i c e s).
Proof using Type.
  destruct s as [[s0 c0] tr d]. destruct e as [Y e|Y e|d'|]; simpl; intros Hf; [| | |done].
  - destruct (link_enabled i e (s0, c0) Hf) as (ch & [[x lk] Hd]).
    exists (ch, nothing_found). simpl in *. rewrite Hd. by eexists.
  - destruct (clink_enabled i e (s0, tr)) as (ch & [[x [s1 tr']] Hd]).
    { pose proof (clink_kind_guard e) as Hk. destruct (clink_kind Y e); try done; by subst. }
    exists ((ch.1, idle_choice), ch.2). simpl. destruct ch as [c1 c2]. unfold p_connecting. simpl in *. rewrite Hd. by eexists.
  - exists ((CDefault, idle_choice), nothing_found). simpl. unfold program_owner in Hf. simpl in Hf.
    rewrite Hf. by eexists.
Qed.

Lemma program_known {X} i c (e : progE X) s x s' w :
  program_do X i c e s = Some (x, s') → w ∈ known_after (program_kind X e) x [] ∨ exists_chan (p_link s).1 w →
  exists_chan (p_link s').1 w.
Proof using Type.
  destruct s as [[s0 c0] tr d]. destruct e as [Y e|Y e|d'|]; simpl; intros Hd Hw.
  - destruct (link_do _ _ _ _ _) as [[y lk]|] eqn:He; [|done]. simplify_eq/=.
    eapply link_known; [exact He|exact Hw].
  - destruct (clink_do _ _ _ _ _) as [[y [s1 tr']]|] eqn:He; [|done]. simplify_eq/=.
    refine (clink_known _ _ _ _ _ _ w He _). exact Hw.
  - destruct (c_rx_owner c0); [done|]. simplify_eq/=. destruct Hw as [Hw|?]; [by apply elem_of_nil in Hw|done].
  - destruct d; [|done]. simplify_eq/=. destruct Hw as [Hw|?]; [by apply elem_of_nil in Hw|done].
Qed.

#[export] Instance program_locks : LockSem progE Program client_lock.
Proof using Type.
  refine {|
    kind := program_kind; owner := program_owner; known s w := exists_chan (p_link s).1 w;
    some_choice := (((CDefault, idle_choice), nothing_found) : @choice progE _ program_sem);
    rank l := match l with RxGuard => 0%nat | Writer => 1%nat end; max_rank := 2 |}.
  - intros []; lia.
  - intros X i c e s x s' l Hd. exact (program_owner_after i c e s x s' l Hd).
  - intros X i c e s x s' Hd. exact (program_free i c e s x s' Hd).
  - intros X i e s Hf. exact (program_enabled i e s Hf).
  - intros X i c e s x s' w Hd Hw. exact (program_known i c e s x s' w Hd Hw).
  - intros i [[s c] tr d] l j. simpl. destruct l; simpl; case_decide; naive_solver.
  - intros i [[s c] tr d] w. simpl. apply exists_static. simpl. rewrite lookup_fmap. by destruct (chans s !! w).
Defined.
End locks.

(** ** The tasks keep the discipline *)

Section tasks.
Context `{Wire} `{SerialPorts} `{Streams}.
Context (oc : bool) (rd : SessionResponse → string).

Abbreviation at_end := (λ (h : list client_lock) _, h = []).

Lemma tame_linked {A} b Q K h (p : prog linkE A) :
  tame b Q K h p → tame (St := Program) b Q K h (translate (@Linked _ _ _) p).
Proof using Type. apply (tame_translate (E := linkE) (F := progE)); [done|by intros [] []]. Qed.

Lemma tame_connecting {A} b Q K h (p : prog clinkE A) :
  tame b Q K h p → tame (St := Program) b Q K h (translate (@Connecting _ _ _) p).
Proof using Type. apply (tame_translate (E := clinkE) (F := progE)); [done|by intros [] []]. Qed.

Lemma tame_with_dongle b K p :
  tame b at_end K [] (link p) → tame (St := Program) b at_end K [] (with_dongle p).
Proof using Type.
  intros Hp. apply tame_seq; [by apply tame_linked|]. intros. by apply tame_ret.
Qed.

Lemma tame_await K (f : Connected → prog dongE op_reply) :
  (∀ d, tame false at_end K [] (link (f d))) →
  tame (St := Program) false at_end K [] (d ← trigger AwaitP; with_dongle (f d)).
Proof using Type.
  intros Hf. apply (tame_vis _ _ _ _ AwaitP (λ d, with_dongle (f d))); [done|]. intros d.
  by apply tame_with_dongle.
Qed.

(** Which tasks come back from whatever instant on: a connecting call that does not wait
    for a device or a mux to appear. *)
Definition prompt_connector (c : conn_call) (ops : list op) (i : nat) : bool :=
  bool_decide (i = connector_at ops) && negb (may_wait c).

Lemma program_tamed c ops : tamed (prompt_connector c ops) (program_pool oc rd c ops).
Proof using Type.
  split; [|intros [] i Hi; done]. intros i t Ht. exists [], [].
  split; [|split; [by intros w ?%elem_of_nil|intros []; by rewrite elem_of_nil|constructor]].
  unfold prompt_connector. destruct (program_task oc rd c ops i t Ht) as [[Hu Hi]|[[-> ->]|[-> ->]]].
  - rewrite bool_decide_eq_false_2 by (unfold connector_at; lia).
    apply lookup_cons_Some in Hu as [[-> <-]|[_ Hu]].
    + apply tame_await. intros d. destruct (conn_keepalive d); [|by apply tame_ret].
      refine (tame_link_bind _ _ _ _ (keepalive_task rd) (λ _, Ret PNone) (tame_keepalive _ _) _).
      intros. by apply tame_ret.
    + rewrite list_lookup_fmap in Hu. destruct (ops !! _) as [o|]; [|done]. injection Hu as <-.
      apply (tame_await _ (λ _, run_op rd o)). intros _. eapply tame_relax, tame_run_op.
  - rewrite bool_decide_eq_false_2 by (unfold connector_at; lia).
    apply (tame_seq _ _ _ _ (translate (@Connecting _ _ _) (trigger SpawnedC ;; clift reader_loop)));
      [|intros; by apply tame_ret]. apply tame_connecting.
    apply (tame_vis _ _ _ _ SpawnedC (λ _, clift reader_loop)); [done|]. intros [].
    apply (tame_reader_loop (@SessC _ _ _)).
  - rewrite bool_decide_eq_true_2 by done.
    apply (tame_seq _ _ _ _ (translate (@Connecting _ _ _) (clink (run_conn oc rd c))));
      [apply tame_connecting, calm_call|].
    intros [d|e]; [|by apply tame_ret].
    apply (tame_vis _ _ _ _ (NewP d) (λ _, Ret _)); [|intros; by apply tame_ret].
    intros l ?%elem_of_nil. done.
Qed.

(** A caller waits for the dongle, or is in its operation. *)
Lemma caller_phase c ops cf k o t :
  reachable (program_pool oc rd c ops) cf → ops !! k = Some o → tasks cf !! S k = Some t →
  t = caller rd o ∨
  ∃ K h, tame (St := Program) (prompt_op o) at_end K h t ∧ holding (shared cf) (S k) K h.
Proof using Type.
  intros Hr Ho. revert t. induction Hr as [|cf l cf' Hr IH Hst]; intros t Ht.
  { left. destruct (program_task oc rd c ops _ _ Ht) as [[Hu _]|[[Hi _]|[Hi _]]];
      [|apply lookup_lt_Some in Ho; unfold connector_at, reader_at in Hi; lia..].
    apply lookup_cons_Some in Hu as [[? _]|[_ Hu]]; [done|]. rewrite list_lookup_fmap in Hu.
    replace (S k - 1)%nat with k in Hu by lia. rewrite Ho in Hu. by injection Hu. }
  pose proof (tamed_reachable _ _ _ (program_tamed c ops) Hr) as Htm.
  destruct (decide (moves (S k) (Some l))) as [Hm|Hm].
  - destruct l as [i ch|i]; simpl in Hm; subst i; simpl in Hst;
      destruct (tasks cf !! S k) as [u|] eqn:Hu; try done; simpl in Hst.
    + destruct (step_prog (S k) ch u (shared cf)) as [[u' s']|] eqn:Hs; [|done]. injection Hst as <-.
      cbn [tasks shared] in *. rewrite lookup_insert_eq in Ht. injection Ht as <-. right.
      destruct (IH u eq_refl) as [->|(K & h & Hut & Hh)].
      * destruct (tamed_task _ _ Htm _ _ Hu) as (K & h & Hut & Hh).
        simpl in Hs. destruct (p_dongle (shared cf)) as [d|]; [|done]. simplify_eq/=.
        exists [], []. split; [apply tame_with_dongle, tame_run_op|].
        destruct (tame_head _ _ _ _ _ Hut) as [_ ->].
        split; [by intros w ?%elem_of_nil|apply Hh|constructor].
      * by destruct (tame_step _ _ _ _ _ _ _ _ _ _ Hut Hh Hs) as [? _].
    + exfalso. destruct u; simplify_eq; cbn [tasks] in Ht; by rewrite lookup_delete_eq in Ht.
  - assert (tasks cf' !! S k = tasks cf !! S k) as E.
    { refine (still cf (λ n : nat, if n is O then cf else cf') (λ n : nat, if n is O then Some l else None) _ 0%nat (S k) Hm).
      split; [done|]. by intros [|n]. }
    rewrite E in Ht. destruct (IH t Ht) as [->|(K & h & Htt & Hh)]; [by left|right].
    exists K, h. split; [done|]. by eapply others_step.
Qed.

(** The dongle stays. *)
Lemma dongle_stays l (cf cf' : conf progE Program program_reply) :
  is_Some (p_dongle (shared cf)) → step l cf = Some cf' → is_Some (p_dongle (shared cf')).
Proof using Type.
  intros Hd Hst. destruct l as [i ch|i]; simpl in Hst; destruct (tasks cf !! i) as [t|]; try done; simpl in Hst.
  - destruct (step_prog i ch t (shared cf)) as [[t' s']|] eqn:Hs; [|done]. injection Hst as <-. cbn [shared].
    destruct t as [a|X e k|S B body x k|m]; simpl in Hs; try done; [|by simplify_eq].
    destruct (program_do X i ch e (shared cf)) as [[x s1]|] eqn:He; [|done]. simplify_eq/=.
    destruct e; simpl in He;
      [destruct (link_do _ _ _ _ _) as [[y lk]|]|destruct (clink_do _ _ _ _ _) as [[y lk]|]
      |destruct (c_rx_owner _)|destruct (p_dongle (shared cf)) eqn:E]; simplify_eq/=; try done; by eexists.
  - assert (cf' = Conf (delete i (tasks cf)) (on_drop i (shared cf))) as -> by (by destruct t; simplify_eq).
    done.
Qed.

Lemma dongle_remains c ops cf lab n m :
  run_of (program_pool oc rd c ops) cf lab → (n ≤ m)%nat → is_Some (p_dongle (shared (cf n))) →
  is_Some (p_dongle (shared (cf m))).
Proof using Type.
  intros Hrun Hle Hd. induction Hle as [|m _ IH]; [done|]. pose proof (run_step _ _ _ Hrun m) as Hs.
  destruct (lab m); [by eapply dongle_stays|by rewrite Hs].
Qed.

(** An operation that has started does not wait for the dongle any more. *)
Definition awaits {A} (t : prog progE A) : bool :=
  match t with Vis e _ => match e with AwaitP => true | _ => false end | _ => false end.

Lemma started p : awaits (with_dongle p) = false.
Proof using Type. unfold with_dongle. by destruct (link p). Qed.

(** From an instant on at which it is in a prompt operation, a caller comes back. *)
Lemma caller_returns c ops cf lab n k :
  run_of (program_pool oc rd c ops) cf lab → fair cf lab →
  (∀ t, tasks (cf n) !! S k = Some t →
    ∃ K h, tame (St := Program) true at_end K h t ∧ holding (shared (cf n)) (S k) K h) →
  ∃ m, (n ≤ m)%nat ∧ stopped (cf m) (S k).
Proof using Type.
  intros Hrun Hfair Ht.
  destruct (prompt_stops (λ j, bool_decide (j = S k)) (cf n) _ _ (later_run _ _ _ n Hrun)
    (later_fair _ _ n Hfair)) with (S k) 0%nat as (m & _ & Hm).
  - eapply tamed_focus; [|exact Ht]. eapply tamed_reachable; [apply program_tamed|by eapply run_reachable].
  - by apply bool_decide_eq_true_2.
  - exists (n + m)%nat. split; [lia|done].
Qed.

(** C2: Every call comes back once there is a dongle: in every fair run of the whole
    program, with any operations, the keepalive, the reader and the connecting call
    side by side and any cancellations, from the instant at which the dongle exists
    each [tx], [tx_with_retry], [rx_start], [rx_stop], [set_config], [ping], [config] and
    [close] gets it and returns, panics or is dropped, even if the device never
    answers again. *)
Theorem program_operations_return c ops cf lab n k o d :
  run_of (program_pool oc rd c ops) cf lab → fair cf lab →
  p_dongle (shared (cf n)) = Some d → ops !! k = Some o → prompt_op o = true →
  ∃ m, (n ≤ m)%nat ∧ stopped (cf m) (S k).
Proof using Type.
  intros Hrun Hfair Hd Ho Hp.
  assert (∀ m, tasks (cf m) !! S k ≠ Some (caller rd o) → ∃ m', (m ≤ m')%nat ∧ stopped (cf m') (S k)) as Hop.
  { intros m Hne. apply (caller_returns c ops cf lab m k Hrun Hfair). intros t Ht.
    destruct (caller_phase c ops (cf m) k o t) as [->|Hph]; [by eapply run_reachable|done..| |by rewrite Hp in Hph]. done. }
  destruct (tasks (cf n) !! S k) as [t|] eqn:Ht; [|by exists n; unfold stopped; rewrite Ht].
  assert (tamed (prompt_connector c ops) (program_pool oc rd c ops)) as Htm by apply program_tamed.
  destruct (tamed_task _ _ (run_tamed _ _ _ _ Hrun Htm n) _ _ Ht) as (K & h & _ & Hh).
  destruct (caller_phase c ops (cf n) k o t) as [->|Hph]; [by eapply run_reachable|done..| |].
  2:{ apply Hop. rewrite Ht. intros [= ->]. destruct Hph as (K' & h' & Htt & _).
      rewrite Hp in Htt. by destruct (tame_head _ _ _ _ _ Htt). }
  destruct (at_moves _ _ _ _ Hrun Hfair Htm n (S k) (caller rd o) K h) as (m & Hle & Hmv & [Htm' _]); [by split|done| |].
  { intros m Hle. exists m. split; [done|]. intros _. exists some_choice.
    destruct (dongle_remains c ops cf lab n m Hrun Hle) as [d' Hd']; [by rewrite Hd|]. simpl. rewrite Hd'. by eexists. }
  destruct (Hop (S m)) as (m' & ? & ?); [|exists m'; split; [lia|done]].
  pose proof (run_step _ _ _ Hrun m) as Hs.
  destruct (lab m) as [[j ch|j]|]; simpl in Hmv; [subst j..|done]; simpl in Hs; rewrite Htm' in Hs; simpl in Hs.
  - destruct (p_dongle (shared (cf m))) as [d'|]; [|done]. injection Hs as <-. cbn [tasks]. rewrite lookup_insert_eq.
    intros [= Heq]. pose proof (started (run_op rd o)) as Hst. by rewrite Heq in Hst.
  - injection Hs as <-. cbn [tasks]. by rewrite lookup_delete_eq.
Qed.
End tasks.

(** [whole_run] without the keepalive, to the point where every task waits or has ended. *)
Definition quiet_call : conn_call :=
  CTryConnect (with_keepalive false (with_config (LoRa demo_config) options_new)).
Definition quiet_run : list (label progE Program) := whole_run ++ goes_on 0 1 ++ goes_on 2 2.

Lemma program_operations_return_witness :
  let c0 := program_pool true any_debug quiet_call tx_ops in
  run_of c0 (rest_run quiet_run c0) (λ n, quiet_run !! n) ∧
  is_Some (p_dongle (shared (rest_run quiet_run c0 70))) ∧
  ∃ m, (70 ≤ m)%nat ∧ stopped (rest_run quiet_run c0 m) 1.
Proof.
  destruct (rest_fair_run quiet_run (program_pool true any_debug quiet_call tx_ops)) as [Hr Hf];
    [vm_compute; reflexivity|].
  split; [exact Hr|]. split; [vm_compute; by eexists|].
  apply (program_operations_return true any_debug quiet_call tx_ops _ _ 70 0 (OTx [x68] false 2000)
    {| conn_info := demo_info; conn_kind := MuxUnix fallback_socket;
       conn_applied := Some (LoRa demo_config); conn_keepalive := false |} Hr Hf);
    [vm_compute; reflexivity|reflexivity|reflexivity].
Defined.
