(* ===== verification/Examples.v ===== *)
(** * The example programs ([examples/])

    [ping], [rx] and [tx] as programs over the client: they connect
    ([Connect.v]), make a dongle of what [finalize] returns, and use it
    ([Dongle.v]).  What they print is kept as data; the subscriber for the log and the
    layout of the lines are left out. *)

From S2P Require Import Prelude Runtime Errors Protocol Config Retry Session Dongle DongleSpec Discovery Endpoint Transport Connect ConnectSpec ConfigTests.
Local Open Scope Z_scope.

(** ** The programs *)

Section programs.
Context `{Wire, !WireNames} `{SerialPorts} `{Streams}.
Context (overflow_checks : bool) (response_debug : SessionResponse → string).

(** [common::meshcore_us] *)
Definition meshcore_us : Modulation := LoRa {|
  freq_hz := 910525000; sf := 7; bw := Khz62; cr := Cr4_5; preamble_len := 16;
  sync_word := 5156; tx_power_dbm := 20; header_mode := Explicit; payload_crc := true;
  iq_invert := false |}.

(** What a [println!] or [eprintln!] shows. *)
Inductive line :=
| LText (text : string)
| LInfo (info : Info)
| LPacket (pkt : RxPayload)
| LSent (seq : Z) (airtime : Z)
| LFailed (seq : Z) (e : ClientError).

Inductive mainE : Type → Type :=
| MConn {X} (e : connE X) : mainE X
| MNew (c : Connected) : mainE unit     (** [Dongle::new(session, ..)] *)
| MDong {X} (e : dongE X) : mainE X
| MSleep (ms : Z) : mainE unit
| MPrint (l : line) : mainE unit.

Definition conn {A} (p : prog connE A) : prog mainE A := translate (@MConn) p.
Definition dong {A} (p : prog dongE A) : prog mainE A := translate (@MDong) p.

(** [connect_with(opts).await?]: the dongle exists from here on. *)
Definition connected (opts : ConnectOptions) : prog mainE (ClientResult Connected) :=
  c ←? conn (connect_with overflow_checks response_debug opts);
  trigger (MNew c) ;;
  Ret (Ok c).

(** The rest of a [main] that owns the dongle: dropped at every way out. *)
Definition owning {A} (p : prog mainE A) : prog mainE A :=
  r ← p;
  dong drop_dongle ;;
  Ret r.

Definition ping_main : prog mainE (ClientResult unit) :=
  c ←? connected options_new;
  owning (
    trigger (MPrint (LText "connected!")) ;;
    do? dong (Dongle.ping response_debug);
    trigger (MPrint (LText "ping ok")) ;;
    trigger (MPrint (LInfo (Connect.info c))) ;;
    dong Dongle.close ;;
    Ret (Ok tt)).

Definition rx_body (_ : unit) : prog mainE (unit + unit) :=
  pkt ← dong (Dongle.next_rx response_debug);
  match pkt with
  | Some pkt => trigger (MPrint (LPacket pkt)) ;; Ret (inl tt)
  | None => Ret (inr tt)
  end.

Definition rx_main : prog mainE (ClientResult unit) :=
  do? connected (with_config meshcore_us options_new);
  owning (
    trigger (MPrint (LText "connected; listening...")) ;;
    loop rx_body tt ;;
    Ret (Ok tt)).

(** [format!("hello #{seq}")] *)
Definition greeting (seq : Z) : list byte :=
  String.list_byte_of_string ("hello #" +:+ show_z seq).

Definition tx_line (seq : Z) (r : ClientResult TxDonePayload) : line :=
  match r with Ok td => LSent seq (airtime_us td) | Err e => LFailed seq e end.

(** One round of the loop; [seq] is a [u32]. *)
Definition tx_body (seq : Z) : prog mainE (Z + ClientResult unit) :=
  if overflow_checks && (2 ^ 32 <=? seq + 1) then Panic "attempt to add with overflow"
  else
    let seq := (seq + 1) mod 2 ^ 32 in
    r ← dong (Dongle.tx response_debug (greeting seq));
    trigger (MPrint (tx_line seq r)) ;;
    trigger (MSleep 5000) ;;
    Ret (inl seq).

(** Its loop has no way out. *)
Definition tx_main : prog mainE (ClientResult unit) :=
  do? connected (with_config meshcore_us options_new);
  trigger (MPrint (LText "connected; TX ready")) ;;
  loop tx_body 0.
End programs.

(** ** Running them *)

Section run.
Context `{Wire, !WireNames} `{SerialPorts} `{Streams} (cenv : CEnv) (env : Env).

Record Main := {
  m_conn : CSt;
  m_dongle : Dng;
  m_out : list line;
}.

Definition put_conn (c : CSt) (s : Main) : Main :=
  {| m_conn := c; m_dongle := m_dongle s; m_out := m_out s |}.
Definition put_dongle (d : Dng) (s : Main) : Main :=
  {| m_conn := m_conn s; m_dongle := d; m_out := m_out s |}.
Definition print (l : line) (s : Main) : Main :=
  {| m_conn := m_conn s; m_dongle := m_dongle s; m_out := m_out s ++ [l] |}.

Definition main_do (X : Type) (e : mainE X) (s : Main) : option (X * Main) :=
  match e in mainE X return option (X * Main) with
  | MConn e => '(x, c) ← conn_do cenv _ e (m_conn s); Some (x, put_conn c s)
  | MNew c => Some (tt, put_dongle (new_dongle (conn_applied c) (conn_keepalive c)
                          (d_now (m_dongle s))) s)
  | MDong e => '(x, d) ← dng_do env _ e (m_dongle s); Some (x, put_dongle d s)
  | MSleep ms => Some (tt, put_dongle (dng_wait ms (m_dongle s)) s)
  | MPrint l => Some (tt, print l s)
  end.

Lemma eval_conn {A} n (p : prog connE A) s :
  eval main_do n (conn p) s = outcome_map (λ c, put_conn c s) (eval (conn_do cenv) n p (m_conn s)).
Proof using Type.
  apply eval_translate; [done|by intros []|done|]. intros X e t. simpl.
  by destruct (conn_do cenv X e (m_conn t)) as [[]|].
Qed.

Lemma eval_dong {A} n (p : prog dongE A) s :
  eval main_do n (dong p) s = outcome_map (λ d, put_dongle d s) (eval (dng_do env) n p (m_dongle s)).
Proof using Type.
  apply eval_translate; [done|by intros []|done|]. intros X e t. simpl.
  by destruct (dng_do env X e (m_dongle t)) as [[]|].
Qed.

Lemma eval_connected oc rd n opts s c cs :
  eval (conn_do cenv) n (connect_with oc rd opts) (m_conn s) = Done (Ok c) cs →
  eval main_do n (connected oc rd opts) s =
  Done (Ok c) (put_dongle (new_dongle (conn_applied c) (conn_keepalive c) (d_now (m_dongle s)))
                 (put_conn cs s)).
Proof using Type. intros Hc. unfold connected. by rewrite eval_try_bind, eval_conn, Hc. Qed.
End run.

(** ** The transmit example *)

Section tx_example.
Context `{Wire, !WireNames} `{SerialPorts} `{Streams} (cenv : CEnv) (env : Env).
Context (oc : bool) (rd : SessionResponse → string).
(** A TX of a flags byte and ["hello #4294967295"] fits, and every configuration
    encodes. *)
Hypothesis room_for_greeting : (18 ≤ MAX_PAYLOAD_FIELD)%nat.
Hypothesis configs_encode : ∀ m, is_err (encode_set_config m) = false.

Lemma greeting_fits seq : 0 ≤ seq < 2 ^ 32 → fits (greeting seq).
Proof using room_for_greeting.
  intros Hs. unfold fits, greeting. split; [done|].
  assert (∀ s, length (String.list_byte_of_string s) = String.length s) as Hlen.
  { intros s. unfold String.list_byte_of_string. rewrite length_map.
    induction s as [|c s IH]; simpl; [done|]. by f_equal. }
  rewrite Hlen, length_string_append. simpl.
  pose proof (length_show_z 10 seq) as Hd. lia.
Qed.

(** A [tx] on an open dongle always returns; its first command is the TX. *)
Lemma tx_returns n data d :
  fits data → d_closed d = false → session_closed d = false →
  ∃ r d' recovery, eval (dng_do env) n (Dongle.tx rd data) d = Done r d' ∧
    d_closed d' = false ∧ session_closed d' = false ∧ waits d' = waits d ∧
    sent d' = sent d ++ tx_command false data :: recovery.
Proof using configs_encode.
  intros Hf Ho Hs. unfold Dongle.tx. rewrite (eval_tx env rd) by auto.
  set (d2 := dng_sent env (tx_command false data) (dng_mark d)).
  assert (∀ r : ClientResult TxDonePayload, ∃ r' d' recovery, Done r d2 = Done r' d' ∧
    d_closed d' = false ∧ session_closed d' = false ∧ waits d' = waits d ∧
    sent d' = sent d ++ tx_command false data :: recovery) as Hd2.
  { intros r. exists r, d2, []. by split_and!. }
  destruct (tx_answer _ _) as [td|[]]; try apply Hd2.
  destruct (applied_config d) as [m|]; [|apply Hd2].
  destruct (encode_set_config m) as [pl|]; [|apply Hd2]. cbn zeta.
  destruct (config_answer _ _) as [c|e]; do 2 eexists;
    [exists [(TYPE_SET_CONFIG, pl); tx_command false data]|exists [(TYPE_SET_CONFIG, pl)]];
    (split; [reflexivity|]); (split_and!; [done..|]); simpl; by rewrite <- !app_assoc.
Qed.

(** A round of the loop: what [tx] returned, and the commands of its recovery. *)
Abbreviation round := (ClientResult TxDonePayload * list (Z * list byte))%type.

Record tx_rounds (k : Z) (rounds : list round) (s s' : Main) : Prop := {
  tr_out : m_out s' = m_out s ++ imap (λ i x, tx_line (k + Z.of_nat i) x.1) rounds;
  tr_sent : sent (m_dongle s') = sent (m_dongle s) ++ List.concat (imap (λ i x,
    tx_command false (greeting (k + Z.of_nat i)) :: x.2) rounds);
  tr_waits : waits (m_dongle s') = waits (m_dongle s) ++ replicate (length rounds) 5000;
}.

Lemma tx_loop n m k s :
  0 ≤ k → k + Z.of_nat m < 2 ^ 32 →
  d_closed (m_dongle s) = false → session_closed (m_dongle s) = false →
  ∃ rounds s', iterate (λ l, eval (main_do cenv env) n (tx_body oc rd l)) m k s = OutOfFuel s' ∧
    length rounds = m ∧ tx_rounds (k + 1) rounds s s'.
Proof using configs_encode room_for_greeting.
  revert k s. induction m as [|m IH]; intros k s Hk Hm Ho Hs.
  { exists [], s. split_and!; [done..|]. split; simpl; by rewrite app_nil_r. }
  simpl. unfold tx_body at 1. rewrite (proj2 (Z.leb_gt _ _)), andb_false_r, Z.mod_small by lia.
  rewrite eval_bind, eval_dong.
  destruct (tx_returns n (greeting (k + 1)) (m_dongle s)) as (r & d & rec & -> & Hdo & Hds & Hw & Hsent);
    [apply greeting_fits; lia|done..|]. cbn [outcome_map outcome_bind eval].
  destruct (IH (k + 1) (put_dongle (dng_wait 5000 d) (print (tx_line (k + 1) r) (put_dongle d s))))
    as (rounds & s' & Hit & Hlen & [Hout Hse Hwa]); [lia|lia|done|done|].
  exists ((r, rec) :: rounds), s'. split_and!; [exact Hit|by rewrite <- Hlen|].
  assert (∀ B (f : Z → round → B) l,
    imap (λ i, f (k + 1 + 1 + Z.of_nat i)) l = imap ((λ i, f (k + 1 + Z.of_nat i)) ∘ S) l) as Hi.
  { intros B f l. apply imap_ext. intros i x _. simpl. f_equal. lia. }
  simpl in *. split.
  - by rewrite Hout, imap_cons, Z.add_0_r, <- app_assoc, (Hi _ (λ z x, tx_line z x.1)).
  - rewrite Hse, Hsent, imap_cons, Z.add_0_r, <- app_assoc.
    by rewrite (Hi _ (λ z x, tx_command false (greeting z) :: x.2)).
  - by rewrite Hwa, Hw, <- app_assoc.
Qed.

(** The transmit example, for every device: once it has connected it never stops,
    and after [n] rounds (sequence numbers are 32-bit) it has sent the greetings 1 to
    [n] in order, each followed only by the commands of its recovery, printed for
    each what [tx] returned, failures included, and slept 5 s after each. *)
Theorem tx_example_runs n s c cs :
  Z.of_nat n < 2 ^ 32 - 1 →
  eval (conn_do cenv) n (connect_with oc rd (with_config meshcore_us options_new)) (m_conn s) =
    Done (Ok c) cs →
  ∃ (rounds : list round) s', eval (main_do cenv env) n (tx_main oc rd) s = OutOfFuel s' ∧
    length rounds = n ∧
    m_out s' = m_out s ++ LText "connected; TX ready" ::
      imap (λ i x, tx_line (1 + Z.of_nat i) x.1) rounds ∧
    sent (m_dongle s') = List.concat (imap (λ i x,
      tx_command false (greeting (1 + Z.of_nat i)) :: x.2) rounds) ∧
    waits (m_dongle s') = replicate n 5000.
Proof using configs_encode room_for_greeting.
  intros Hn Hc. unfold tx_main.
  rewrite eval_try_bind, (eval_connected cenv env _ _ _ _ _ _ _ Hc). cbn [outcome_bind].
  rewrite eval_bind, eval_trigger. cbn [main_do outcome_bind]. unfold loop. cbn [eval].
  match goal with |- context [iterate _ n 0 ?s0] =>
    destruct (tx_loop n n 0 s0) as (rounds & s' & -> & Hlen & [Hout Hse Hwa]); [lia|lia|done|done|]
  end.
  simpl in *. exists rounds, s'. split_and!; [done..| |exact Hse|].
  - by rewrite Hout, <- app_assoc.
  - by rewrite Hwa, Hlen.
Qed.
End tx_example.

(** ** The ping example *)

Section ping_example.
Context `{Wire, !WireNames} `{SerialPorts} `{Streams} (cenv : CEnv) (env : Env).
Context (oc : bool) (rd : SessionResponse → string).

(** The ping example in every case: without a dongle it ends with the error of
    [connect] and prints nothing; with one it sends one PING, ends with that PING's
    error or prints the device's info and closes the dongle; either way the keepalive
    is aborted, but only success closes the session. *)
Theorem ping_example_spec n s :
  match eval (conn_do cenv) n (connect oc rd) (m_conn s) with
  | Done (Err e) cs => eval (main_do cenv env) n (ping_main oc rd) s = Done (Err e) (put_conn cs s)
  | Done (Ok c) cs =>
      let d := new_dongle (conn_applied c) (conn_keepalive c) (d_now (m_dongle s)) in
      ∃ r s', eval (main_do cenv env) n (ping_main oc rd) s = Done r s' ∧
        r = empty_answer rd "PING" (device env [] TYPE_PING []) ∧
        m_out s' = m_out s ++ LText "connected!" ::
          (if is_err r then [] else [LText "ping ok"; LInfo (conn_info c)]) ∧
        sent (m_dongle s') = [(TYPE_PING, [])] ∧
        keepalive_aborted (m_dongle s') = conn_keepalive c ∧
        d_closed (m_dongle s') = negb (is_err r) ∧
        session_closed (m_dongle s') = negb (is_err r)
  | Panicked m cs => eval (main_do cenv env) n (ping_main oc rd) s = Panicked m (put_conn cs s)
  | Blocked cs => eval (main_do cenv env) n (ping_main oc rd) s = Blocked (put_conn cs s)
  | OutOfFuel cs => eval (main_do cenv env) n (ping_main oc rd) s = OutOfFuel (put_conn cs s)
  end.
Proof using Type.
  unfold ping_main, connected. rewrite !eval_try_bind, eval_conn. unfold connect.
  destruct (eval _ n _ (m_conn s)) as [[c|e] cs| | |]; try done.
  simpl. destruct (device env [] TYPE_PING []) as [[| | | |]|]; simpl; destruct (conn_keepalive c);
    simpl; do 2 eexists; (split; [reflexivity|]); simpl; by rewrite <- ?app_assoc.
Qed.
End ping_example.

(** A process that finds a USB dongle whose device answers every command. *)
Definition example_env : CEnv := demo_cenv no_vars [] demo_peer.
Definition example_start : Main :=
  {| m_conn := c_at 2000 (process false); m_dongle := new_dongle None false 0; m_out := [] |}.
Definition example_connected : Connected :=
  {| conn_info := demo_info; conn_kind := Serial "/dev/ttyACM0"; conn_applied := Some (LoRa demo_config);
     conn_keepalive := true |}.

Lemma tx_example_runs_witness :
  ∃ (rounds : list (ClientResult TxDonePayload * list (Z * list byte))) s',
    eval (main_do example_env fenv) 3 (tx_main true no_rd) example_start = OutOfFuel s' ∧
    length rounds = 3%nat ∧
    m_out s' = LText "connected; TX ready" :: imap (λ i x, tx_line (1 + Z.of_nat i) x.1) rounds ∧
    sent (m_dongle s') = List.concat (imap (λ i x,
      tx_command false (greeting (1 + Z.of_nat i)) :: x.2) rounds) ∧
    waits (m_dongle s') = replicate 3 5000.
Proof.
  eapply (tx_example_runs (H0 := demo_wire)).
  - exact (le_n 18).
  - reflexivity.
  - reflexivity.
  - vm_compute. reflexivity.
Defined.
